(* ===== verification/_CoqProject ===== *)
-Q . S2P
Prelude.v
Fmt.v
Errors.v
BTreeMap.v
World.v
WorldFacts.v
Config.v
Memtable.v
Protocol.v
Wal.v
WalFacts.v
WalWriterFacts.v
Sstable.v
SstableFacts.v
SstableReaderFacts.v
Storage.v
StorageFacts.v
Engine.v
EngineFacts.v
Traces.v
Register.v
Workers.v
WorkersFacts.v
Locks.v
LocksFacts.v
Recovery.v
OpenAny.v
Durability.v
Crash.v
LogLoss.v
CrashWorkers.v
Loss.v
Rollback.v
Lifecycle.v
Network.v
NetworkFacts.v
Session.v
Server.v
ServerFacts.v
System.v
SystemFacts.v
SystemEnds.v
Lives.v
Cli.v
Instances.v
ProtocolSpec.v
WalSpec.v
StorageSpec.v
EngineSpec.v
WorkersSpec.v
LocksSpec.v
FailureSpec.v
NetworkSpec.v
SystemSpec.v
Findings.v
