(* ===== verification/Prelude.v ===== *)
(** AtlasKV, a persistent key-value store: a verification development.

    * The program

    AtlasKV is a server for a key-value store.  A client ([bin/cli.rs]) sends a
    framed command over TCP ([protocol/]); a server ([network/server.rs]) accepts
    connections and hands them over a bounded channel to worker threads, each of
    which reads commands, runs them against one shared engine and writes responses
    ([network/connection.rs]).  The engine ([engine.rs]) is a log-structured store:
    a write is appended to a write-ahead log ([wal/]) and applied to an in-memory
    table ([memtable/]); when that table is full it is flushed to a sorted table
    file ([storage/sstable/]) managed by [storage/manager.rs], and the log is
    truncated.  A read looks in the memtable and then in the tables, newest first.
    Opening an engine loads the tables and replays the log.  All paths are under
    src/src/.

    * The model

    A method becomes a function in the monad [ST S A], from a state to an
    [outcome A] and a new state; an outcome is [Ok], [Err] with the program's error
    type, [Panic], or [OutOfFuel] for the loops that carry fuel.  Integers are [Z]
    with their width written out where the code's arithmetic can leave it
    ([as_u32], [as_u64], the 64-bit memtable counter).  Arithmetic follows the
    wrapping semantics of release builds.  Byte strings are lists of bytes.

    The file system is part of the state ([World]): every file has a content and a
    durable part, and a schedule of faults says which of the coming system calls
    fail, and after how many bytes.  Theorems hold for every schedule; a world
    without faults is [quiet].  [BufWriter] keeps its buffer, so that a dropped or
    crashed writer loses what the real one does.  [BufReader] reads without
    changing the file and is modelled as the file's cursor.  A crash keeps of each
    file its durable part or a prefix of what was written (one that contains the
    durable part if the file only grew); created directory entries survive.

    Code of other crates is a parameter: [Crc32] (crc32fast) and [WalEntry.Bincode]
    (bincode) with the laws the program relies on, [IoText] for the system's error
    texts, [Status] for the paths whose status cannot be read ([Path::exists] and
    [is_file] take them for absent), [Read], [Write] and [TcpStream] for sockets,
    [Platform] for the listener and threads, the clock as the argument [now].
    Instances.v has concrete functions that meet all these laws (CRC-32 itself, the
    fixed-width layout, an in-memory socket); the witnesses of the theorems run on
    them.

    * The files

    - Prelude: byte strings, machine integers, little- and big-endian fields, the
      order on keys, and the tactics and hint databases the other files use.
    - Fmt, Errors, BTreeMap: number formatting and parsing ([format!], [parse]);
      the error type, outcomes and the state monad; std's BTreeMap as a sorted
      association list with its lookup laws.
    - World, WorldFacts: files, handles, buffered writers, faults; a weakest
      precondition calculus [wp] (and [wpr] for programs with errors of their own)
      whose rules cover every fault schedule.
    - Config, Memtable, Protocol: config.rs, memtable/, protocol/.
    - Wal, WalFacts, WalWriterFacts: wal/entry.rs, writer.rs, reader.rs,
      recovery.rs; the scan of a log's bytes as the specification of recovery, and
      the writer's log with its durable part.
    - Sstable, SstableFacts, SstableReaderFacts: storage/sstable/; the reference
      file format [sst_encode], what the builder writes, what the reader finds.
    - Storage, StorageFacts: storage/manager.rs; the manager as a list of tables.
    - Engine, EngineFacts: engine.rs; the abstraction of an engine to a finite map
      ([engine_ok e w ts kv]) and its preservation by every operation.
    - Traces, Register: labelled runs and simulations between them; the atomic map
      that threads should see ([Atomic]), and the same map with the effect of a call
      placed later ([Register]), which refines it.
    - Workers, WorkersFacts: threads inside engine.rs, what each does under one lock
      taken as one action; the simulation of their actions by the atomic map.
    - Locks, LocksFacts: the same threads one instruction at a time, taking and
      dropping the log's mutex and the [RwLock]s of the memtable and of the list of
      tables; they refine Workers and do not deadlock.
    - Recovery, OpenAny, Durability, Crash, LogLoss, Loss, Lifecycle: opening over any
      log; opening a directory of any content; engines whose log records their
      memtable; crashes; what a crash costs a log writer and an engine under
      [EveryNEntries]; closing and dropping.
    - CrashWorkers: crashes and kills while threads are inside the engine, between
      actions and at a failing system call inside one; the files followed through
      every action of the holder of the write lock.
    - Rollback: stops under [EveryNEntries] while threads are inside the engine, as a
      return to an earlier moment of the run.
    - Network, NetworkFacts, Session: network/connection.rs over the interfaces
      [Read], [Write], [TcpStream] and [Executor], a worker's handle_connection, the
      reference run (the relation [serves], and [serve] with fuel), and sessions
      against the map.
    - Server, ServerFacts: network/server.rs: its setup, and the running server as a
      labelled step machine with an invariant and a termination measure.
    - System, SystemFacts, SystemEnds: the running server as a whole, composed of the server's
      machine, a conversation per worker and the threads inside the engine; each
      component runs in it as it does on its own, and it comes to an end.
    - Lives: the server started, stopped anywhere, also during a start, and started
      again on its files.
    - Cli: bin/cli.rs and bin/server.rs, its Ctrl+C handler included.
    - Instances: the parameters, made concrete.
    - ProtocolSpec, WalSpec, StorageSpec, EngineSpec, WorkersSpec, LocksSpec,
      FailureSpec, NetworkSpec, SystemSpec: the properties, each with a witness at a concrete input.
    - Findings: histories in which the program loses, evaluated.

    * What is proved

    - Protocol: round trips of commands and responses, decoders total on all byte
      strings, the stream reader equal to the decoder on the frame at the front.
    - Memtable: lookups after writes; the size counter is the bytes held.
    - Log: entries round trip and are checked; recovery of a file of any content
      ends and returns the scan; a log cut anywhere yields its complete entries; an
      append is durable as its strategy says; after any appends, syncs and truncations
      a crash costs fewer than [n] entries under [EveryNEntries(n)], or brings back the
      log from before it was last emptied.
    - Tables: the builder writes the reference format, the reader and the iterator
      give back what was added, the range test is sound; the manager answers from
      the newest table and finds its tables again in any listing order; opening a
      file or a directory of any content does what a reference decoder says.
    - Engine: put, delete, get, flush and open refine a finite map for every fault
      schedule; under [EveryWrite] acknowledged writes survive any crash and an
      unacknowledged one is atomic; under [EveryNEntries(n)] a crash leaves a prefix
      that misses fewer than [n] writes; closing or dropping and reopening keeps the
      map.  A table file that cannot be read keeps the engine from starting, and a
      crash after a flush can replay an older log over the tables: both are stated for
      every directory and every history (FailureSpec).
    - Threads: any number of threads inside one engine see an atomic map
      (linearizability), at the grain of actions and lock by lock; no two guards
      exclude each other, whoever a thread waits for somebody can move, and without new
      calls every call returns; under [EveryWrite] a crash or a kill between any two
      actions or inside one leaves files from which the next engine serves the map of such a
      history (a table that was being built is removed; of an append, a crash only);
      under [EveryNEntries(n)], until a flush begins, a crash or a kill takes the engine
      back to a moment of its run fewer than [n] log entries ago.
    - Network: a connection is the reference run on every byte stream, a session of
      pipelined commands gets the map's replies in order, and the command-line
      client prints the map's value; a worker keeps the connection counter, which is
      exact; dispatch is first in first out; the server program never signals
      shutdown, its Ctrl+C handler being dropped and not called.
    - The whole server: under any interleaving of clients, accept loop, workers and
      engine threads the commands of all clients form a history of one atomic map,
      each conversation is a run of handle_connection against that history, nothing
      panics, and after shutdown everything drains and stops.  Killed or crashed and
      started again any number of times, failed starts included, its lives form one
      history of that map with gaps: a command under way at the end of a life took
      effect or did not.
    - A clock before 1970 leaves the engine read-only (FailureSpec).
    - Findings records histories where the program loses: a stale log replayed over
      newer tables, a torn entry that hides the ones after it, a value that was read
      and is gone after a kill and a crash, a log or table passed over because its
      status could not be read, a torn or a stray file that blocks opening, an
      iterator over a corrupt log that does not end.

    * Bounds and fuel

    The loops with fuel are the log scan, the index parser and the connection loop.
    Each iteration consumes at least one byte of a finite input, so the length of
    the input plus one is enough; recover_any_file, sstable_open_any and
    connection_serves prove that [OutOfFuel] does not happen (in the last, unless the
    engine returns it).  The engine's theorems ask that a write's log entry is shorter
    than 2^32 bytes, a table file than 2^63, and that table ids have not run out
    ([fits], [ids_left]): beyond them the code truncates a length field or wraps an id.
    The machines of threads take the condition on their actions as an argument: it is
    [Workers.room] (the bounds above, and a clock not before 1970) where a statement
    says so, and no condition in locks_never_deadlock.

    * What is not modelled

    Log lines, the parsing of command-line arguments (clap) and of socket addresses,
    what the kernel does with a timeout (a timed-out read is an error of [Read]),
    the module files, tests and benchmarks.  Methods that return a field
    ([Engine::config], [WalWriter::current_lsn] and the like) are the record's
    projections; of [struct Worker] the timeouts are arguments, its id is for the log,
    and what it shares with the other workers is the state its methods run on.
    [StorageManager::compact] is a [todo!()] without a caller and is modelled as the
    panic it is.  A panic while a lock is
    held poisons it in the model as in std; parking_lot locks do not poison.  The
    actions of Workers take one lock each, and Locks shows that this is enough; there,
    a flush takes its table id and creates the file after it has copied the entries
    and not before, which no other thread can tell.  Weak memory is not modelled: the
    relaxed atomics are a counter and a flag, taken as sequentially consistent.

    * Where the theorems stop

    The theorems about crashes leave out what the code gets wrong, each with the
    history that shows it in Findings: under [EveryWrite] a kill between an append and
    its sync, under [EveryNEntries] a crash after a flush (flush_then_crash says what
    comes back), a start on a directory with an unfinished table file (open_refuses
    says that it fails; the theorems on stops remove such a file, [Crash.tidy], as an
    operator has to), and engines that go on after an append that failed half way.
    Those about stops of several threads and of the server assume that no system call
    has failed before.  A created directory entry is taken to survive a crash, which
    the code, never syncing a directory, leaves to the file system. *)

(** Shared vocabulary: byte strings, machine integers and their encodings, the
    order on keys, tactics and hint databases. *)

From Stdlib Require Import ZArith Lia.
From coqutil Require Import Byte Word.LittleEndianList.
From stdpp Require Import base list strings countable.

#[global] Open Scope Z_scope.

(** ** Byte strings

    [Vec<u8>] and [&[u8]] are lists of [byte]; lengths are integers. *)

Abbreviation bytes := (list Init.Byte.byte).

#[export] Instance byte_eq_dec : EqDecision Init.Byte.byte := Byte.byte_eq_dec.

#[export] Instance byte_countable : Countable Init.Byte.byte.
Proof.
  refine (inj_countable' byte.unsigned byte.of_Z _).
  intros b. apply byte.of_Z_unsigned.
Defined.

Definition len {A} (l : list A) : Z := Z.of_nat (length l).
Definition ztake {A} (n : Z) (l : list A) : list A := take (Z.to_nat n) l.
Definition zdrop {A} (n : Z) (l : list A) : list A := drop (Z.to_nat n) l.

(** [n] elements of [l] starting at offset [off]. *)
Definition sub {A} (off n : Z) (l : list A) : list A := ztake n (zdrop off l).

Definition zeros (n : Z) : bytes := replicate (Z.to_nat n) Byte.x00.

Create HintDb len.
Create Rewrite HintDb len.
Create HintDb bytes.

Section Lists.
Context {A : Type}.
Implicit Types l a b c : list A.

Lemma len_nil : len (@nil A) = 0.
Proof. reflexivity. Qed.

Lemma len_cons x l : len (x :: l) = 1 + len l.
Proof. unfold len; simpl; lia. Qed.

Lemma len_app a b : len (a ++ b) = len a + len b.
Proof. unfold len; rewrite length_app; lia. Qed.

Lemma len_nonneg l : 0 <= len l.
Proof. unfold len; lia. Qed.

Lemma len_rev l : len (rev l) = len l.
Proof. unfold len; by rewrite length_rev. Qed.

Lemma len_map {B} (f : A -> B) l : len (map f l) = len l.
Proof. unfold len; by rewrite length_map. Qed.

Lemma len_0_nil l : len l = 0 -> l = [].
Proof. destruct l; [done|]. rewrite len_cons. pose proof (len_nonneg l). lia. Qed.

Lemma len_ztake n l : 0 <= n <= len l -> len (ztake n l) = n.
Proof. unfold len, ztake; rewrite length_take; lia. Qed.

Lemma len_zdrop n l : 0 <= n <= len l -> len (zdrop n l) = len l - n.
Proof. unfold len, zdrop; rewrite length_drop; lia. Qed.

Lemma len_sub off n l : 0 <= off -> 0 <= n -> off + n <= len l -> len (sub off n l) = n.
Proof. intros. unfold sub. apply len_ztake. rewrite len_zdrop; lia. Qed.

Lemma ztake_all n l : len l <= n -> ztake n l = l.
Proof. intros. apply take_ge. unfold len in *. lia. Qed.

Lemma ztake_le0 n l : n <= 0 -> ztake n l = [].
Proof. intros. unfold ztake. by replace (Z.to_nat n) with 0%nat by lia. Qed.

Lemma zdrop_0 l : zdrop 0 l = l.
Proof. reflexivity. Qed.

Lemma zdrop_all n l : len l <= n -> zdrop n l = [].
Proof. intros. apply drop_ge. unfold len in *. lia. Qed.

Lemma ztake_zdrop n l : ztake n l ++ zdrop n l = l.
Proof. apply take_drop. Qed.

Lemma zdrop_zdrop n m l : 0 <= n -> 0 <= m -> zdrop n (zdrop m l) = zdrop (m + n) l.
Proof. intros. unfold zdrop. rewrite drop_drop. f_equal. lia. Qed.

Lemma ztake_app_exact n a b : n = len a -> ztake n (a ++ b) = a.
Proof. intros ->. apply take_app_length'. unfold len. lia. Qed.

Lemma zdrop_app_exact n a b : n = len a -> zdrop n (a ++ b) = b.
Proof. intros ->. apply drop_app_length'. unfold len. lia. Qed.

(** A field is read back from the place where it was laid out. *)
Lemma sub_sub (i m off n : Z) l :
  0 <= i -> 0 <= m -> i + m <= n -> 0 <= off -> sub i m (sub off n l) = sub (off + i) m l.
Proof.
  intros. unfold sub, ztake, zdrop. rewrite skipn_firstn_comm, take_take, drop_drop.
  f_equal; [lia|]. f_equal. lia.
Qed.

Lemma sub_app_exact off n a b c :
  off = len a -> n = len b -> sub off n (a ++ b ++ c) = b.
Proof. intros. unfold sub. rewrite zdrop_app_exact by done. by apply ztake_app_exact. Qed.

Lemma sub_0_app_exact n a b : n = len a -> sub 0 n (a ++ b) = a.
Proof. intros. unfold sub. rewrite zdrop_0. by apply ztake_app_exact. Qed.

Lemma sub_tail off n a b : off = len a -> n = len b -> sub off n (a ++ b) = b.
Proof. intros. rewrite <- (app_nil_r b) at 1. by apply sub_app_exact. Qed.

Lemma sub_app_l off n a b :
  0 <= off -> 0 <= n -> off + n <= len a -> sub off n (a ++ b) = sub off n a.
Proof.
  intros. unfold sub, ztake, zdrop, len in *.
  rewrite drop_app_le by lia. rewrite take_app_le; [done|]. rewrite length_drop. lia.
Qed.

Lemma sub_app_r off n a b :
  len a <= off -> 0 <= n -> sub off n (a ++ b) = sub (off - len a) n b.
Proof.
  intros. unfold sub, zdrop. f_equal. unfold len in *.
  rewrite drop_app_ge by lia. f_equal. lia.
Qed.

Lemma ztake_prefix n l : ztake n l `prefix_of` l.
Proof. exists (zdrop n l). by rewrite ztake_zdrop. Qed.

Lemma prefix_ztake a l : a `prefix_of` l -> a = ztake (len a) l.
Proof. intros [c ->]. by rewrite ztake_app_exact. Qed.

Lemma prefix_len a l : a `prefix_of` l -> len a <= len l.
Proof. intros [c ->]. rewrite len_app. pose proof (len_nonneg c). lia. Qed.

Lemma prefix_same_len a b l :
  a `prefix_of` l -> b `prefix_of` l -> len a = len b -> a = b.
Proof. intros Ha%prefix_ztake Hb%prefix_ztake E. congruence. Qed.

(** Two prefixes of one list are comparable. *)
Lemma prefix_total a b l :
  a `prefix_of` l -> b `prefix_of` l -> len a <= len b -> a `prefix_of` b.
Proof.
  intros Ha Hb E. destruct (prefix_weak_total a b l Ha Hb) as [|Hba]; [done|].
  rewrite (prefix_same_len a b l) by (done || (apply prefix_len in Hba; lia)). done.
Qed.

Lemma take_beyond l k j x :
  l !! k = Some x -> (k < j)%nat -> take j l = take k l ++ x :: take (j - S k) (drop (S k) l).
Proof.
  intros Hx Hj. assert (k < length l)%nat by (by eapply lookup_lt_Some).
  rewrite <- (take_drop_middle l k x Hx) at 1. rewrite take_app_ge by (rewrite length_take; lia).
  f_equal. rewrite length_take_le by lia. by replace (j - k)%nat with (S (j - S k)) by lia.
Qed.
End Lists.

#[export] Hint Rewrite @len_nil @len_cons @len_app @len_rev @len_map : len.
#[export] Hint Resolve len_nonneg : len.

Lemma len_zeros n : 0 <= n -> len (zeros n) = n.
Proof. intros. unfold len, zeros. rewrite length_replicate. lia. Qed.

(** Rewrites lengths and closes the linear goal; every list length in sight is
    known to be non-negative. *)
Ltac pose_len :=
  repeat match goal with
  | |- context [len ?l] =>
      lazymatch goal with H : 0 <= len l |- _ => fail | _ => pose proof (len_nonneg l) end
  | _ : context [len ?l] |- _ =>
      lazymatch goal with H : 0 <= len l |- _ => fail | _ => pose proof (len_nonneg l) end
  end.

Ltac len_lia := autorewrite with len in *; pose_len; lia.

(** ** Machine integers

    A [w]-bit unsigned value is an integer in [0, 2^w); an [as] cast and a
    wrapping operation reduce modulo [2^w].  [usize] is 64 bits wide. *)

Definition u16_max : Z := 2 ^ 16.
Definition u32_max : Z := 2 ^ 32.
Definition u64_max : Z := 2 ^ 64.

Definition as_u32 (z : Z) : Z := z mod 2 ^ 32.
Definition as_u64 (z : Z) : Z := z mod 2 ^ 64.

(** [as isize] on a 64-bit value. *)
Definition as_isize (z : Z) : Z :=
  let r := z mod 2 ^ 64 in if r <? 2 ^ 63 then r else r - 2 ^ 64.

(** [to_le_bytes] / [from_le_bytes] / [to_be_bytes] / [from_be_bytes] of an
    integer of [n] bytes. *)
Definition to_le (n : nat) (z : Z) : bytes := le_split n z.
Definition from_le (bs : bytes) : Z := le_combine bs.
Definition to_be (n : nat) (z : Z) : bytes := rev (to_le n z).
Definition from_be (bs : bytes) : Z := from_le (rev bs).

#[global] Arguments to_le : simpl never.
#[global] Arguments to_be : simpl never.
#[global] Arguments from_le : simpl never.
#[global] Arguments from_be : simpl never.

Lemma len_to_le n z : len (to_le n z) = Z.of_nat n.
Proof. unfold len, to_le. by rewrite length_le_split. Qed.

Lemma len_to_be n z : len (to_be n z) = Z.of_nat n.
Proof. unfold to_be. by rewrite len_rev, len_to_le. Qed.

#[export] Hint Rewrite len_to_le len_to_be : len.

Lemma from_to_le n z : from_le (to_le n z) = z mod 2 ^ (8 * Z.of_nat n).
Proof. unfold from_le, to_le. rewrite le_combine_split. f_equal. f_equal. lia. Qed.

Lemma from_to_le_small n z : 0 <= z < 2 ^ (8 * Z.of_nat n) -> from_le (to_le n z) = z.
Proof. intros. rewrite from_to_le. by apply Z.mod_small. Qed.

Lemma from_to_be n z : from_be (to_be n z) = z mod 2 ^ (8 * Z.of_nat n).
Proof. unfold from_be, to_be. rewrite rev_involutive. apply from_to_le. Qed.

Lemma from_to_be_small n z : 0 <= z < 2 ^ (8 * Z.of_nat n) -> from_be (to_be n z) = z.
Proof. intros. rewrite from_to_be. by apply Z.mod_small. Qed.

Lemma to_from_le n bs : len bs = Z.of_nat n -> to_le n (from_le bs) = bs.
Proof. intros H. apply split_le_combine'. unfold len in H. lia. Qed.

Lemma from_le_bound n bs : len bs = Z.of_nat n -> 0 <= from_le bs < 2 ^ (8 * Z.of_nat n).
Proof. intros H. pose proof (le_combine_bound bs). unfold len, from_le in *. by rewrite <- H. Qed.

Lemma from_be_bound n bs : len bs = Z.of_nat n -> 0 <= from_be bs < 2 ^ (8 * Z.of_nat n).
Proof. intros H. apply from_le_bound. by rewrite len_rev. Qed.

Lemma to_le_as_u32 z : to_le 4 (as_u32 z) = to_le 4 z.
Proof. unfold to_le, as_u32. symmetry. apply (le_split_mod z 4). Qed.

Lemma as_u32_small z : 0 <= z < 2 ^ 32 -> as_u32 z = z.
Proof. apply Z.mod_small. Qed.

Lemma as_u64_small z : 0 <= z < 2 ^ 64 -> as_u64 z = z.
Proof. apply Z.mod_small. Qed.

Lemma as_isize_mod z : as_isize z mod 2 ^ 64 = z mod 2 ^ 64.
Proof.
  unfold as_isize. destruct (_ <? _); [by rewrite Z.mod_mod|].
  rewrite Zminus_mod, Z.mod_mod, Z_mod_same_full, Z.sub_0_r by done. by rewrite Z.mod_mod.
Qed.

Lemma as_isize_small z : 0 <= z < 2 ^ 63 -> as_isize z = z.
Proof.
  intros. unfold as_isize. rewrite Z.mod_small by lia.
  destruct (Z.ltb_spec z (2 ^ 63)); lia.
Qed.

(** ** Lexicographic order of byte strings ([Ord] of [Vec<u8>] and [[u8]]) *)

Fixpoint bytes_cmp (a b : bytes) : comparison :=
  match a, b with
  | [], [] => Eq
  | [], _ :: _ => Lt
  | _ :: _, [] => Gt
  | x :: a', y :: b' =>
      match byte.unsigned x ?= byte.unsigned y with
      | Eq => bytes_cmp a' b'
      | c => c
      end
  end.

Definition bytes_lt (a b : bytes) : Prop := bytes_cmp a b = Lt.
Definition bytes_leb (a b : bytes) : bool :=
  match bytes_cmp a b with Gt => false | _ => true end.

Lemma bytes_cmp_refl a : bytes_cmp a a = Eq.
Proof. induction a as [|x a IH]; simpl; [done|]. by rewrite Z.compare_refl. Qed.

Lemma bytes_cmp_eq a b : bytes_cmp a b = Eq <-> a = b.
Proof.
  split; [|intros ->; apply bytes_cmp_refl].
  revert b; induction a as [|x a IH]; intros [|y b]; simpl; try done.
  destruct (Z.compare_spec (byte.unsigned x) (byte.unsigned y)) as [E| |]; try done.
  intros ->%IH. f_equal. by apply byte.unsigned_inj.
Qed.

Lemma bytes_cmp_antisym a b : bytes_cmp b a = CompOpp (bytes_cmp a b).
Proof.
  revert b; induction a as [|x a IH]; intros [|y b]; simpl; try done.
  rewrite (Z.compare_antisym (byte.unsigned x)).
  destruct (byte.unsigned x ?= byte.unsigned y); simpl; auto.
Qed.

Lemma bytes_lt_trans a b c : bytes_lt a b -> bytes_lt b c -> bytes_lt a c.
Proof.
  unfold bytes_lt.
  revert b c; induction a as [|x a IH]; intros [|y b] [|z c]; simpl; try done.
  destruct (Z.compare_spec (byte.unsigned x) (byte.unsigned y));
    destruct (Z.compare_spec (byte.unsigned y) (byte.unsigned z)); try done;
    destruct (Z.compare_spec (byte.unsigned x) (byte.unsigned z)); try (done || lia).
  apply IH.
Qed.

#[export] Instance bytes_lt_strict : StrictOrder bytes_lt.
Proof.
  split.
  - intros a H. unfold bytes_lt in H. by rewrite bytes_cmp_refl in H.
  - exact bytes_lt_trans.
Qed.

#[export] Instance bytes_lt_dec a b : Decision (bytes_lt a b).
Proof. unfold bytes_lt. solve_decision. Defined.

Lemma bytes_cmp_gt a b : bytes_cmp a b = Gt <-> bytes_lt b a.
Proof. unfold bytes_lt. rewrite (bytes_cmp_antisym a b). by destruct (bytes_cmp a b). Qed.

Lemma bytes_leb_spec a b : bytes_leb a b = true <-> a = b \/ bytes_lt a b.
Proof.
  unfold bytes_leb, bytes_lt. rewrite <- bytes_cmp_eq.
  destruct (bytes_cmp a b); naive_solver.
Qed.

(** Case analysis on the order of two byte strings. *)
Lemma bytes_cmp_spec a b :
  CompareSpec (a = b) (bytes_lt a b) (bytes_lt b a) (bytes_cmp a b).
Proof.
  destruct (bytes_cmp a b) eqn:E; constructor;
    [by apply bytes_cmp_eq | done | by apply bytes_cmp_gt].
Qed.

Lemma bytes_lt_irrefl a : ~ bytes_lt a a.
Proof. apply irreflexivity, _. Qed.

#[export] Hint Resolve bytes_lt_trans bytes_lt_irrefl : bytes.

(** ASCII text as the bytes of a Rust [str]. *)
Definition bytes_of_string (s : string) : bytes := String.list_byte_of_string s.
