(* ===== verification/Fmt.v ===== *)
(** Text formatting and number parsing: what the sources use of [format!]
    ([{}], [{:06}], [{:02x}], [{:#x}], [{:?}] of a byte slice) and of
    [u64::from_str].  Texts are [string]s. *)

From Stdlib Require Import ZArith Lia String Ascii.
From coqutil Require Import Byte.
From stdpp Require Import base list strings.
From S2P Require Import Prelude.
Open Scope string_scope.
Open Scope list_scope.
Open Scope Z_scope.

(** The digit of a value below 16. *)
Definition digit (d : Z) : ascii :=
  ascii_of_nat (Z.to_nat (if d <? 10 then 48 + d else 87 + d)).

(** Digits of [n] in the given base, most significant first, before [acc]. *)
Fixpoint digits_aux (base : Z) (fuel : nat) (n : Z) (acc : string) : string :=
  match fuel with
  | O => acc
  | S f =>
      let acc' := String (digit (n mod base)) acc in
      if n <? base then acc' else digits_aux base f (n / base) acc'
  end.

Definition fuel_for (n : Z) : nat := S (Z.to_nat (Z.log2 n)).

(** [{}] of an unsigned integer. *)
Definition dec (n : Z) : string := digits_aux 10 (fuel_for n) n "".
Definition hex (n : Z) : string := digits_aux 16 (fuel_for n) n "".

Fixpoint zero_str (n : nat) : string :=
  match n with O => "" | S m => String "0"%char (zero_str m) end.

(** Left padding with zeros to at least [w] characters. *)
Definition pad0 (w : nat) (s : string) : string :=
  zero_str (w - String.length s) +:+ s.

(** [{:06}], [{:02x}] and [{:#x}]. *)
Definition dec06 (n : Z) : string := pad0 6 (dec n).
Definition hex02 (n : Z) : string := pad0 2 (hex n).
Definition hex0x (n : Z) : string := "0x" +:+ hex n.

(** [{:?}] of a byte slice. *)
Fixpoint debug_items (bs : bytes) : string :=
  match bs with
  | [] => ""
  | [b] => dec (byte.unsigned b)
  | b :: bs' => dec (byte.unsigned b) +:+ ", " +:+ debug_items bs'
  end.
Definition debug_bytes (bs : bytes) : string := "[" +:+ debug_items bs +:+ "]".

(** ** [u64::from_str]: an optional ['+'], then at least one decimal digit,
    nothing else, and a value below [2^64]. *)

Definition digit_value (c : ascii) : option Z :=
  let v := Z.of_nat (nat_of_ascii c) - 48 in
  if (0 <=? v) && (v <=? 9) then Some v else None.

Fixpoint parse_digits (s : string) (acc : Z) : option Z :=
  match s with
  | EmptyString => Some acc
  | String c s' =>
      match digit_value c with
      | None => None
      | Some d =>
          let acc' := acc * 10 + d in
          if acc' <? 2 ^ 64 then parse_digits s' acc' else None
      end
  end.

Definition parse_u64 (s : string) : option Z :=
  match s with
  | EmptyString => None
  | String c s' =>
      if decide (c = "+"%char) then
        match s' with EmptyString => None | _ => parse_digits s' 0 end
      else parse_digits s 0
  end.

(** [str::strip_prefix]. *)
Fixpoint strip_prefix (p s : string) : option string :=
  match p, s with
  | EmptyString, _ => Some s
  | String a p', String b s' => if decide (a = b) then strip_prefix p' s' else None
  | String _ _, EmptyString => None
  end.

(** ** Reading back what was printed *)

Lemma digit_value_digit d : 0 <= d <= 9 -> digit_value (digit d) = Some d.
Proof.
  intros H.
  assert (Hd : d = 0 \/ d = 1 \/ d = 2 \/ d = 3 \/ d = 4 \/ d = 5 \/ d = 6 \/
               d = 7 \/ d = 8 \/ d = 9) by lia.
  naive_solver.
Qed.

Lemma parse_digits_aux fuel n acc :
  0 <= n < 2 ^ Z.of_nat fuel -> n < 2 ^ 64 ->
  parse_digits (digits_aux 10 fuel n acc) 0 = parse_digits acc n.
Proof.
  revert n acc. induction fuel as [|fuel IH]; intros n acc Hn Hmax; simpl.
  - replace n with 0 by (simpl in Hn; lia). done.
  - pose proof (Z.mod_pos_bound n 10 ltac:(lia)) as Hm.
    pose proof (Z.div_mod n 10 ltac:(lia)) as Hdm.
    destruct (Z.ltb_spec n 10) as [Hlt|Hge]; simpl.
    + rewrite Z.mod_small, digit_value_digit by lia.
      destruct (Z.ltb_spec (0 * 10 + n) (2 ^ 64)); [|lia]. by rewrite Z.mul_0_l, Z.add_0_l.
    + rewrite Nat2Z.inj_succ, Z.pow_succ_r in Hn by lia.
      rewrite IH by lia.
      simpl. rewrite digit_value_digit by lia.
      replace (n / 10 * 10 + n mod 10) with n by lia.
      destruct (Z.ltb_spec n (2 ^ 64)); [done|lia].
Qed.

Lemma fuel_for_enough n : 0 <= n -> 0 <= n < 2 ^ Z.of_nat (fuel_for n).
Proof.
  intros H. unfold fuel_for. destruct (decide (n = 0)) as [->|]; [simpl; lia|].
  pose proof (Z.log2_nonneg n). rewrite Nat2Z.inj_succ, Z2Nat.id by lia.
  pose proof (Z.log2_spec n ltac:(lia)). lia.
Qed.

Lemma parse_digits_dec n : 0 <= n < 2 ^ 64 -> parse_digits (dec n) 0 = Some n.
Proof. intros. unfold dec. rewrite parse_digits_aux; [done|apply fuel_for_enough; lia|lia]. Qed.

Lemma parse_digits_zeros k s : parse_digits (zero_str k +:+ s) 0 = parse_digits s 0.
Proof. induction k; simpl; [done|]. done. Qed.

(** The first character of a printed number is a digit. *)
Lemma digits_aux_head fuel n acc :
  (fuel <> 0)%nat -> exists d s, 0 <= d < 10 /\ digits_aux 10 fuel n acc = String (digit d) s.
Proof.
  revert n acc. induction fuel as [|fuel IH]; intros n acc Hf; [done|]. simpl.
  pose proof (Z.mod_pos_bound n 10 ltac:(lia)).
  destruct (n <? 10); [eauto|].
  destruct fuel; [simpl; eauto|]. apply IH. done.
Qed.

Lemma digit_not_plus d : 0 <= d < 10 -> digit d <> "+"%char.
Proof.
  intros H E. assert (Hv : digit_value (digit d) = Some d) by (apply digit_value_digit; lia).
  rewrite E in Hv. done.
Qed.

(** Parsing a number printed with [{:06}] gives the number back. *)
Lemma parse_u64_dec06 n : 0 <= n < 2 ^ 64 -> parse_u64 (dec06 n) = Some n.
Proof.
  intros H. unfold dec06, pad0.
  destruct (digits_aux_head (fuel_for n) n "" ltac:(done)) as (d & s & Hd & E).
  pose proof (parse_digits_dec n H) as P.
  destruct (6 - String.length (dec n))%nat as [|k]; simpl.
  - unfold dec in *. rewrite E in *. simpl. rewrite decide_False by by apply digit_not_plus.
    exact P.
  - by rewrite parse_digits_zeros.
Qed.

Lemma strip_prefix_app p s : strip_prefix p (p +:+ s) = Some s.
Proof. induction p as [|c p IH]; simpl; [done|]. by rewrite decide_True. Qed.
