(* ===== verification/Errors.v ===== *)
(** Errors and effects: [src/src/error.rs] and the two monads the other files
    use.  A fallible Rust expression is an [outcome]: a value, an
    [AtlasError], or a panic.  A method taking [&mut self] (or touching the file
    system) is an [ST S A]: it keeps the changes made before an error. *)

From Stdlib Require Import ZArith Lia String.
From coqutil Require Import Byte.
From stdpp Require Import base list strings.
From S2P Require Import Prelude Fmt.
Open Scope string_scope.
Open Scope list_scope.
Open Scope Z_scope.

(** [std::io::ErrorKind]: the kinds the sources test for, and [OtherKind] for
    all the others. *)
Inductive ErrorKind :=
| UnexpectedEof
| NotFoundKind
| ConnectionReset
| ConnectionAborted
| WouldBlock
| TimedOut
| BrokenPipe
| InvalidInput
| OtherKind.

#[export] Instance ErrorKind_eq_dec : EqDecision ErrorKind.
Proof. solve_decision. Defined.

(** [pub enum AtlasError]. *)
Inductive AtlasError :=
| Io (kind : ErrorKind)
| WalCorruption (msg : string)
| WalWrite (msg : string)
| Storage (msg : string)
| KeyNotFound
| Serialization (msg : string)
| Network (msg : string)
| Protocol (msg : string)
| ConfigError (msg : string)
| LockPoisoned (msg : string).

#[export] Instance AtlasError_eq_dec : EqDecision AtlasError.
Proof. solve_decision. Defined.

(** The text of an [std::io::Error] is the platform's. *)
Class IoText := io_text : ErrorKind -> string.

(** [Display] of an error, generated from its [#[error("..")]] attributes. *)
Definition to_string `{IoText} (e : AtlasError) : string :=
  match e with
  | Io k => "IO error: " +:+ io_text k
  | WalCorruption m => "WAL corruption detected: " +:+ m
  | WalWrite m => "WAL write failed: " +:+ m
  | Storage m => "Storage error: " +:+ m
  | KeyNotFound => "Key not found"
  | Serialization m => "Serialization error: " +:+ m
  | Network m => "Network error: " +:+ m
  | Protocol m => "Protocol error: " +:+ m
  | ConfigError m => "Configuration error: " +:+ m
  | LockPoisoned m => "Lock poisoned: " +:+ m
  end.

(** ** Outcomes *)

Inductive outcome (A : Type) :=
| Ok (a : A)
| Err (e : AtlasError)
| Panic
| OutOfFuel.  (** only produced by a loop whose fuel bound was too small *)
Arguments Ok {A} _.
Arguments Err {A} _.
Arguments Panic {A}.
Arguments OutOfFuel {A}.

#[export] Instance outcome_ret : MRet outcome := @Ok.
#[export] Instance outcome_bind : MBind outcome := fun A B f m =>
  match m with
  | Ok a => f a
  | Err e => Err e
  | Panic => Panic
  | OutOfFuel => OutOfFuel
  end.

(** The call came back: a value or an error value, not a panic. *)
Definition returns {A} (r : outcome A) : Prop :=
  match r with Ok _ | Err _ => True | Panic | OutOfFuel => False end.

Definition is_ok {A} (r : outcome A) : bool :=
  match r with Ok _ => true | _ => false end.

(** [&bs[a..b]] and [bs[i]]: out of range panics. *)
Definition slice (a b : Z) (bs : bytes) : outcome bytes :=
  if (0 <=? a) && (a <=? b) && (b <=? len bs) then Ok (sub a (b - a) bs) else Panic.

Definition index (i : Z) (bs : bytes) : outcome Init.Byte.byte :=
  match zdrop i bs with
  | b :: _ => if 0 <=? i then Ok b else Panic
  | [] => Panic
  end.

Lemma slice_ok a b bs :
  0 <= a -> a <= b -> b <= len bs -> slice a b bs = Ok (sub a (b - a) bs).
Proof.
  intros. unfold slice.
  by rewrite (proj2 (Z.leb_le 0 a)), (proj2 (Z.leb_le a b)), (proj2 (Z.leb_le b _)) by lia.
Qed.

(** Reading a field laid out between [x] and [z]. *)
Lemma slice_app a b x y z :
  a = len x -> b = len x + len y -> slice a b (x ++ y ++ z) = Ok y.
Proof.
  intros -> ->. rewrite slice_ok by len_lia. f_equal. apply sub_app_exact; lia.
Qed.

Lemma slice_app_end a b x y :
  a = len x -> b = len x + len y -> slice a b (x ++ y) = Ok y.
Proof. intros. pose proof (slice_app a b x y []) as E. rewrite app_nil_r in E. auto. Qed.

Lemma slice_app_start b x y : b = len x -> slice 0 b (x ++ y) = Ok x.
Proof. intros. apply (slice_app 0 b [] x y); len_lia. Qed.

Lemma index_ok i bs : 0 <= i < len bs -> exists b, index i bs = Ok b /\ sub i 1 bs = [b].
Proof.
  intros H. unfold index, sub. pose proof (len_zdrop i bs ltac:(lia)) as E.
  destruct (zdrop i bs) as [|b bs'] eqn:?; [rewrite len_nil in E; lia|].
  rewrite (proj2 (Z.leb_le 0 i)) by lia. eexists; split; [done|].
  unfold ztake; simpl. done.
Qed.

(** ** State with errors *)

Definition ST (S A : Type) : Type := S -> outcome A * S.

#[export] Instance ST_ret S : MRet (ST S) := fun A a s => (Ok a, s).
#[export] Instance ST_bind S : MBind (ST S) := fun A B f m s =>
  let '(r, s') := m s in
  match r with
  | Ok a => f a s'
  | Err e => (Err e, s')
  | Panic => (Panic, s')
  | OutOfFuel => (OutOfFuel, s')
  end.

Definition fail {S A} (e : AtlasError) : ST S A := fun s => (Err e, s).
Definition lift {S A} (r : outcome A) : ST S A := fun s => (r, s).
Definition get_st {S} : ST S S := fun s => (Ok s, s).
Definition gets {S A} (f : S -> A) : ST S A := fun s => (Ok (f s), s).
Definition modify {S} (f : S -> S) : ST S unit := fun s => (Ok tt, f s).

(** Run a computation on a part of the state. *)
Definition zoom {S T A} (proj : S -> T) (upd : T -> S -> S) (m : ST T A) : ST S A :=
  fun s => let '(r, t) := m (proj s) in (r, upd t s).

(** Give an error back as a value instead of returning early
    (a [match] on a [Result]). *)
Definition catch {S A} (m : ST S A) : ST S (outcome A) := fun s =>
  let '(r, s') := m s in
  match r with
  | Ok _ | Err _ => (Ok r, s')
  | Panic => (Panic, s')
  | OutOfFuel => (OutOfFuel, s')
  end.

(** A local variable [x] of a function body, dropped on every exit. *)
Definition scoped {S X A} (x : X) (drop : X -> S -> S) (body : ST (X * S) A) : ST S A :=
  fun s => let '(r, (x', s')) := body (x, s) in (r, drop x' s').

(** The same for a value that a successful body moves out: it is dropped only
    when the body does not succeed. *)
Definition moved {S X A} (x : X) (drop : X -> S -> S) (body : ST (X * S) A) : ST S (X * A) :=
  fun s =>
    match body (x, s) with
    | (Ok a, (x', s')) => (Ok (x', a), s')
    | (Err e, (x', s')) => (Err e, drop x' s')
    | (Panic, (x', s')) => (Panic, drop x' s')
    | (OutOfFuel, (x', s')) => (OutOfFuel, drop x' s')
    end.

Lemma bind_ok {S A B} (m : ST S A) (f : A -> ST S B) s a s' :
  m s = (Ok a, s') -> (m ≫= f) s = f a s'.
Proof. intros E. unfold mbind, ST_bind. by rewrite E. Qed.

Lemma bind_err {S A B} (m : ST S A) (f : A -> ST S B) s e s' :
  m s = (Err e, s') -> (m ≫= f) s = (Err e, s').
Proof. intros E. unfold mbind, ST_bind. by rewrite E. Qed.

Lemma bind_eq {S A B} (m m' : ST S A) (f : A -> ST S B) s :
  m s = m' s -> (m ≫= f) s = (m' ≫= f) s.
Proof. intros E. unfold mbind, ST_bind. by rewrite E. Qed.

Lemma Ok_inj {A} (a b : A) : Ok a = Ok b -> a = b.
Proof. by intros [=]. Qed.

Lemma obind_Ok {A B} (a : A) (f : A -> outcome B) : Ok a ≫= f = f a.
Proof. reflexivity. Qed.

Lemma obind_ok {A B} (m : outcome A) (f : A -> outcome B) a :
  m = Ok a -> m ≫= f = f a.
Proof. by intros ->. Qed.

(** A computation returned [Ok] only if its first half did. *)
Lemma bind_ok_inv {S A B} (m : ST S A) (f : A -> ST S B) s b s'' :
  (m ≫= f) s = (Ok b, s'') -> exists a s', m s = (Ok a, s') /\ f a s' = (Ok b, s'').
Proof.
  unfold mbind, ST_bind. destruct (m s) as [[a|e| |] s']; try done. eauto.
Qed.

Lemma obind_ok_inv {A B} (m : outcome A) (f : A -> outcome B) b :
  m ≫= f = Ok b -> exists a, m = Ok a /\ f a = Ok b.
Proof. destruct m; simpl; try done. eauto. Qed.

Lemma obind_panic {A B} (m : outcome A) (f : A -> outcome B) :
  m ≫= f = Panic -> m = Panic \/ exists a, f a = Panic.
Proof. destruct m; simpl; try done; eauto. Qed.

Lemma obind_returns {A B} (m : outcome A) (f : A -> outcome B) :
  returns m -> (forall a, m = Ok a -> returns (f a)) -> returns (m ≫= f).
Proof. destruct m; simpl; auto. Qed.
