(* ===== verification/BTreeMap.v ===== *)
(** [std::collections::BTreeMap] with byte-string keys, as the sources use it:
    the list of bindings in strictly increasing key order. *)

From Stdlib Require Import ZArith Lia.
From stdpp Require Import base list sorting.
From S2P Require Import Prelude.
Open Scope Z_scope.

Module BTreeMap.

Section Ops.
Context {V : Type}.

Definition t : Type := list (bytes * V).

(** [BTreeMap::new], [get], [insert], [len], [clear]. *)
Definition empty : t := [].

Fixpoint get (k : bytes) (m : t) : option V :=
  match m with
  | [] => None
  | (k', v) :: m' =>
      match bytes_cmp k k' with
      | Lt => None
      | Eq => Some v
      | Gt => get k m'
      end
  end.

Fixpoint insert (k : bytes) (v : V) (m : t) : t :=
  match m with
  | [] => [(k, v)]
  | (k', v') :: m' =>
      match bytes_cmp k k' with
      | Lt => (k, v) :: m
      | Eq => (k, v) :: m'
      | Gt => (k', v') :: insert k v m'
      end
  end.

(** [keys().next()] and [keys().next_back()]. *)
Definition first_key (m : t) : option bytes := fst <$> head m.
Definition last_key (m : t) : option bytes := fst <$> last m.

End Ops.
Arguments t : clear implicits.

(** The representation invariant: keys strictly increase. *)
Definition wf {V} (m : t V) : Prop := StronglySorted bytes_lt m.*1.

Create HintDb btree.

Section Laws.
Context {V : Type}.
Implicit Types (m : t V) (k : bytes) (v : V).

Lemma wf_nil : wf (@empty V).
Proof. constructor. Qed.

Lemma wf_cons_inv k v m : wf ((k, v) :: m) -> wf m /\ Forall (bytes_lt k) m.*1.
Proof. intros H. by apply StronglySorted_inv in H. Qed.

Lemma insert_keys_above k0 k v m :
  bytes_lt k0 k -> Forall (bytes_lt k0) m.*1 -> Forall (bytes_lt k0) (insert k v m).*1.
Proof.
  intros Hk. induction m as [|[k' v'] m IH]; simpl; intros H.
  - by repeat constructor.
  - inversion H; subst. destruct (bytes_cmp_spec k k'); subst; simpl; eauto.
Qed.

Lemma insert_wf k v m : wf m -> wf (insert k v m).
Proof.
  unfold wf. induction m as [|[k' v'] m IH]; simpl; intros Hs.
  - repeat constructor.
  - apply StronglySorted_inv in Hs as [Hs Hall].
    destruct (bytes_cmp_spec k k') as [->|Hlt|Hgt]; simpl.
    + by constructor.
    + constructor; [by constructor|]. constructor; [done|].
      eapply Forall_impl; [exact Hall|]. eauto with bytes.
    + constructor; [by apply IH|]. by apply insert_keys_above.
Qed.

Lemma get_above k m : Forall (bytes_lt k) m.*1 -> get k m = None.
Proof.
  destruct m as [|[k' v'] m]; [done|]. simpl. intros H. inversion H as [|?? Hlt]; subst.
  unfold bytes_lt in Hlt. by rewrite Hlt.
Qed.

Lemma get_insert_eq k v m : get k (insert k v m) = Some v.
Proof.
  induction m as [|[k' v'] m IH]; simpl; [by rewrite bytes_cmp_refl|].
  destruct (bytes_cmp k k') eqn:E; simpl; rewrite ?bytes_cmp_refl, ?E; done.
Qed.

Lemma get_insert_ne k k0 v m : wf m -> k0 <> k -> get k0 (insert k v m) = get k0 m.
Proof.
  intros Hwf Hne. induction m as [|[k' v'] m IH]; simpl.
  - destruct (bytes_cmp_spec k0 k); done.
  - apply wf_cons_inv in Hwf as [Hwf Hall].
    destruct (bytes_cmp_spec k k') as [->|Hlt|Hgt]; simpl.
    + destruct (bytes_cmp_spec k0 k'); done.
    + destruct (bytes_cmp_spec k0 k) as [|H0|H0]; [done| |done].
      assert (bytes_lt k0 k') as E by eauto with bytes. unfold bytes_lt in E. by rewrite E.
    + destruct (bytes_cmp_spec k0 k'); auto.
Qed.

Lemma get_insert k k0 v m :
  wf m -> get k0 (insert k v m) = if decide (k0 = k) then Some v else get k0 m.
Proof.
  intros. case_decide; subst; [apply get_insert_eq | by apply get_insert_ne].
Qed.

Lemma get_In k v m : wf m -> get k m = Some v <-> In (k, v) m.
Proof.
  induction m as [|[k' v'] m IH]; intros Hwf; simpl; [done|].
  apply wf_cons_inv in Hwf as [Hwf Hall].
  destruct (bytes_cmp_spec k k') as [->|Hlt|Hgt].
  - split; [by intros [= ->]; left|]. intros [[= ->]|Hin]; [done|].
    apply (in_map fst) in Hin. rewrite Forall_forall in Hall.
    exfalso. apply (bytes_lt_irrefl k'). apply Hall. by apply list_elem_of_In.
  - split; [done|]. intros [[= -> ->]|Hin]; [by apply bytes_lt_irrefl in Hlt|].
    apply (in_map fst) in Hin. rewrite Forall_forall in Hall.
    exfalso. apply (bytes_lt_irrefl k). eapply bytes_lt_trans; [exact Hlt|].
    apply Hall. by apply list_elem_of_In.
  - rewrite IH by done. split; [by right|].
    intros [[= -> ->]|]; [by apply bytes_lt_irrefl in Hgt|done].
Qed.

(** [min <= k <= max] holds of every key of the map. *)
Lemma get_Some_range k v m :
  wf m -> get k m = Some v ->
  exists lo hi, first_key m = Some lo /\ last_key m = Some hi /\
    bytes_leb lo k = true /\ bytes_leb k hi = true.
Proof.
  induction m as [|[k' v'] m IH]; intros Hwf Hg; [done|].
  apply wf_cons_inv in Hwf as [Hwf Hall]. simpl in Hg.
  assert (Hlast : exists hi, last_key ((k', v') :: m) = Some hi /\ bytes_leb k' hi = true).
  { destruct m as [|[k1 v1] m] using rev_ind; [exists k'; split; [done|by apply bytes_leb_spec; left]|].
    exists k1. unfold last_key. rewrite app_comm_cons, last_snoc. split; [done|].
    rewrite fmap_app, Forall_app in Hall. destruct Hall as [_ Hall]. inversion Hall; subst.
    apply bytes_leb_spec. by right. }
  destruct (bytes_cmp_spec k k') as [->|Hlt|Hgt]; [|done|].
  - destruct Hlast as (hi & E & L). exists k', hi. repeat split; auto.
    apply bytes_leb_spec. by left.
  - destruct (IH Hwf Hg) as (lo & hi & _ & Ehi & _ & Lhi).
    exists k', hi. repeat split; auto; [|apply bytes_leb_spec; by right].
    unfold last_key in *. destruct m; [done|]. done.
Qed.

(** Binding by binding: inserting every pair of a sorted list rebuilds it. *)
Lemma insert_above_all k v m : Forall (fun k' => bytes_lt k' k) m.*1 -> insert k v m = m ++ [(k, v)].
Proof.
  induction m as [|[k' v'] m IH]; simpl; intros H; [done|]. inversion H as [|?? Hlt]; subst.
  apply bytes_cmp_gt in Hlt. rewrite Hlt. by rewrite IH.
Qed.

Lemma wf_snoc_inv m k v : wf (m ++ [(k, v)]) -> wf m /\ Forall (fun k' => bytes_lt k' k) m.*1.
Proof.
  unfold wf. rewrite fmap_app. induction m as [|[k' v'] m IH]; simpl; intros H; [split; constructor|].
  apply StronglySorted_inv in H as [H Hall]. destruct (IH H) as [? ?].
  rewrite Forall_app in Hall. destruct Hall as [? Hl]. inversion Hl; subst.
  split; constructor; done.
Qed.

End Laws.

#[export] Hint Resolve wf_nil insert_wf : btree.

End BTreeMap.
