(* ===== verification/World.v ===== *)
(** The file system as the sources use it ([std::fs], [std::io::BufWriter]).

    A [World] holds the files and a schedule of faults.  Every system call
    consumes one entry of the schedule: [None] lets it succeed, [Some f] makes it
    fail with the error kind of [f] (a write may first transfer [f_done] bytes),
    and past the end of the schedule nothing fails.  A file keeps what any reader
    sees ([content]) and what the last successful [sync_all] made durable
    ([durable]).  A path is a directory and a file name; [NDir] stands for a
    directory entry that is not a regular file. *)

From Stdlib Require Import ZArith Lia String.
From stdpp Require Import base gmap list strings.
From S2P Require Import Prelude Errors.
Open Scope string_scope.
Open Scope list_scope.
Open Scope Z_scope.

Abbreviation path := (string * string)%type.

Record file := mkFile { content : bytes; durable : bytes }.

Inductive node := NFile (f : file) | NDir.

Record fault := mkFault { f_kind : ErrorKind; f_done : Z }.

Record World := mkWorld {
  files : gmap path node;
  faults : list (option fault)
}.

(** No scheduled call fails. *)
Definition quiet (w : World) : Prop := Forall (fun f => f = None) (faults w).

(** States that carry a world. *)
Class HasWorld (S : Type) := world_of : S -> World.
#[export] Instance World_HasWorld : HasWorld World := fun w => w.
#[export] Instance prod_HasWorld X : HasWorld (X * World) := snd.

Definition set_file (p : path) (f : file) (w : World) : World :=
  mkWorld (<[p := NFile f]> (files w)) (faults w).

Definition get_file (p : path) (w : World) : option file :=
  match files w !! p with Some (NFile f) => Some f | _ => None end.

(** One system call: it fails if the schedule says so. *)
Definition syscall {A} (act : ST World A) : ST World A := fun w =>
  match faults w with
  | [] => act w
  | None :: r => act (mkWorld (files w) r)
  | Some f :: r => (Err (Io (f_kind f)), mkWorld (files w) r)
  end.

(** ** Files *)

Module File.

(** An open [File]: its path, its cursor, and whether it appends. *)
Record t := mk { h_path : path; h_pos : Z; h_append : bool }.

(** [File::open]. *)
Definition open (p : path) : ST World t := syscall (fun w =>
  match files w !! p with
  | Some (NFile _) => (Ok (mk p 0 false), w)
  | Some NDir => (Err (Io OtherKind), w)
  | None => (Err (Io NotFoundKind), w)
  end).

(** [OpenOptions::new().create(true).write(true).truncate(true).open(p)]. *)
Definition open_truncate (p : path) : ST World t := syscall (fun w =>
  match files w !! p with
  | Some (NFile f) => (Ok (mk p 0 false), set_file p (mkFile [] (durable f)) w)
  | Some NDir => (Err (Io OtherKind), w)
  | None => (Ok (mk p 0 false), set_file p (mkFile [] []) w)
  end).

(** [OpenOptions::new().create(true).append(true).open(p)]. *)
Definition open_append (p : path) : ST World t := syscall (fun w =>
  match files w !! p with
  | Some (NFile _) => (Ok (mk p 0 true), w)
  | Some NDir => (Err (Io OtherKind), w)
  | None => (Ok (mk p 0 true), set_file p (mkFile [] []) w)
  end).

(** [metadata()?.len()]. *)
Definition metadata_len (h : t) : ST World Z := syscall (fun w =>
  match get_file (h_path h) w with
  | Some f => (Ok (len (content f)), w)
  | None => (Err (Io OtherKind), w)
  end).

(** Run a system call on behalf of the handle, then move its cursor. *)
Definition with_handle {A} (m : t -> ST World (A * Z)) : ST (t * World) A := fun s =>
  let '(h, w) := s in
  match m h w with
  | (Ok (a, pos), w') => (Ok a, (mk (h_path h) pos (h_append h), w'))
  | (Err e, w') => (Err e, (h, w'))
  | (Panic, w') => (Panic, (h, w'))
  | (OutOfFuel, w') => (OutOfFuel, (h, w'))
  end.

(** [seek]: absolute, relative and from the end; a negative target, or one that
    does not fit an [i64], is [InvalidInput]. *)
Definition seek_to (target : t -> Z -> Z) : ST (t * World) unit :=
  with_handle (fun h => syscall (fun w =>
    match get_file (h_path h) w with
    | None => (Err (Io OtherKind), w)
    | Some f =>
        let p := target h (len (content f)) in
        if (0 <=? p) && (p <? 2 ^ 63) then (Ok (tt, p), w)
        else (Err (Io InvalidInput), w)
    end)).

Definition seek_start (off : Z) : ST (t * World) unit := seek_to (fun _ _ => off).
Definition seek_current (off : Z) : ST (t * World) unit := seek_to (fun h _ => h_pos h + off).
Definition seek_end (off : Z) : ST (t * World) unit := seek_to (fun _ size => size + off).

(** [read_exact] into a buffer of [n] bytes; at the end of the file it consumes
    what is left and fails with [UnexpectedEof]. *)
Definition read_exact (n : Z) : ST (t * World) bytes := fun s =>
  let '(h, w) := s in
  if n <=? 0 then (Ok [], (h, w))
  else
    match syscall (fun w =>
      match get_file (h_path h) w with
      | None => (Err (Io OtherKind), w)
      | Some f => (Ok (content f), w)
      end) w with
    | (Ok c, w') =>
        if h_pos h + n <=? len c then
          (Ok (sub (h_pos h) n c), (mk (h_path h) (h_pos h + n) (h_append h), w'))
        else
          (Err (Io UnexpectedEof), (mk (h_path h) (Z.max (h_pos h) (len c)) (h_append h), w'))
    | (Err e, w') => (Err e, (h, w'))
    | (Panic, w') => (Panic, (h, w'))
    | (OutOfFuel, w') => (OutOfFuel, (h, w'))
    end.

(** The content after writing [bs] at [pos]; a gap is filled with zeros. *)
Definition overwrite (pos : Z) (bs c : bytes) : bytes :=
  ztake pos c ++ zeros (pos - len c) ++ bs ++ zdrop (pos + len bs) c.

(** Transfer [bs] to the file at the cursor (at the end in append mode). *)
Definition transfer (bs : bytes) (s : t * World) : t * World :=
  let '(h, w) := s in
  match get_file (h_path h) w with
  | None => s
  | Some f =>
      let pos := if h_append h then len (content f) else h_pos h in
      (mk (h_path h) (pos + len bs) (h_append h),
       set_file (h_path h) (mkFile (overwrite pos bs (content f)) (durable f)) w)
  end.

(** The number of bytes a write of [bs] transferred, and the error that cut it
    short. *)
Definition write_count (bs : bytes) (s : t * World) : (Z * option ErrorKind) * (t * World) :=
  let '(h, w) := s in
  if len bs =? 0 then ((0, None), s)
  else
    match faults w with
    | [] => ((len bs, None), transfer bs s)
    | None :: r => ((len bs, None), transfer bs (h, mkWorld (files w) r))
    | Some f :: r =>
        let n := Z.max 0 (Z.min (f_done f) (len bs)) in
        ((n, Some (f_kind f)), transfer (ztake n bs) (h, mkWorld (files w) r))
    end.

(** [write_all] on the file itself. *)
Definition write_all (bs : bytes) : ST (t * World) unit := fun s =>
  match write_count bs s with
  | ((_, None), s') => (Ok tt, s')
  | ((_, Some k), s') => (Err (Io k), s')
  end.

(** [set_len]: truncate, or extend with zeros. *)
Definition set_len (n : Z) : ST (t * World) unit :=
  with_handle (fun h => syscall (fun w =>
    match get_file (h_path h) w with
    | None => (Err (Io OtherKind), w)
    | Some f =>
        (Ok (tt, h_pos h),
         set_file (h_path h)
           (mkFile (ztake n (content f) ++ zeros (n - len (content f))) (durable f)) w)
    end)).

(** [sync_all]. *)
Definition sync_all : ST (t * World) unit :=
  with_handle (fun h => syscall (fun w =>
    match get_file (h_path h) w with
    | None => (Err (Io OtherKind), w)
    | Some f =>
        (Ok (tt, h_pos h), set_file (h_path h) (mkFile (content f) (content f)) w)
    end)).

End File.

(** ** [BufWriter<File>] with its default capacity *)

Module BufWriter.

Record t := mk { inner : File.t; buf : bytes }.

Definition CAPACITY : Z := 8192.

Definition new (f : File.t) : t := mk f [].

(** Methods of the file underneath. *)
Definition on_inner {A} (m : ST (File.t * World) A) : ST (t * World) A :=
  zoom (fun s : t * World => (inner s.1, s.2))
       (fun s' s => (mk s'.1 (buf s.1), s'.2)) m.

(** [flush_buf]: what was transferred before an error leaves the buffer. *)
Definition flush_buf : ST (t * World) unit := fun s =>
  let '(b, w) := s in
  match File.write_count (buf b) (inner b, w) with
  | ((n, err), (h', w')) =>
      (match err with None => Ok tt | Some k => Err (Io k) end,
       (mk h' (zdrop n (buf b)), w'))
  end.

Definition push (bs : bytes) : ST (t * World) unit :=
  modify (fun s => (mk (inner s.1) (buf s.1 ++ bs), s.2)).

(** [write_all] and its cold path. *)
Definition write_all (bs : bytes) : ST (t * World) unit := fun s =>
  let spare := CAPACITY - len (buf s.1) in
  if len bs <? spare then push bs s
  else
    (_ ← (if spare <? len bs then flush_buf else mret tt);
     if CAPACITY <=? len bs then on_inner (File.write_all bs) else push bs) s.

Definition flush : ST (t * World) unit := flush_buf.

(** Dropping a writer flushes it and ignores the error. *)
Definition drop (b : t) (w : World) : World :=
  let '(_, (_, w')) := flush_buf (b, w) in w'.

End BufWriter.

(** ** Directories and paths *)

(** [fs::create_dir_all]: directories carry no data of their own here. *)
Definition create_dir_all (d : string) : ST World unit := syscall (fun w => (Ok tt, w)).

(** The paths whose status cannot be read.  [exists()] and [is_file()] have no way
    to say so, and answer [false]. *)
Class Status := status_fails : path -> bool.
Class StatusOk `{HSt : Status} := status_ok : forall p, status_fails p = false.

(** [path.exists()]. *)
Definition exists_path `{HSt : Status} (p : path) (w : World) : bool :=
  if status_fails p then false
  else match files w !! p with Some _ => true | None => false end.

(** [path.is_file()]. *)
Definition is_file `{HSt : Status} (p : path) (n : node) : bool :=
  if status_fails p then false else match n with NFile _ => true | NDir => false end.

(** [fs::read_dir]: the names in a directory, with [is_file()] of each.  The
    platform leaves the order open; the one caller sorts what it finds. *)
Definition read_dir `{HSt : Status} (d : string) : ST World (list (string * bool)) := syscall (fun w =>
  (Ok (omap (fun e : path * node =>
         if decide (e.1.1 = d) then Some (e.1.2, is_file e.1 e.2) else None) (map_to_list (files w))), w)).

(** [dir.join(name)] of a directory. *)
Definition join_dir (d name : string) : string := d +:+ "/" +:+ name.
