(* ===== verification/WorldFacts.v ===== *)
(** Reasoning about programs that do I/O.  [wp m s Q E] says: [m] started in
    [s] does not panic; if it succeeds, [Q] holds of the result and final state;
    if it fails, it fails with an I/O error, [E] holds of the final state, and a
    fault was scheduled.  One rule per system call, for every fault schedule. *)

From Stdlib Require Import ZArith Lia.
From stdpp Require Import base gmap list strings.
From S2P Require Import Prelude Errors World.
Open Scope list_scope.
Open Scope Z_scope.

Definition wp {S A} `{HasWorld S} (m : ST S A) (s : S)
    (Q : A -> S -> Prop) (E : S -> Prop) : Prop :=
  match m s with
  | (Ok a, s') => Q a s' /\ (quiet (world_of s) -> quiet (world_of s'))
  | (Err e, s') => (exists k, e = Io k) /\ E s' /\ ~ quiet (world_of s)
  | (Panic, _) => False
  | (OutOfFuel, _) => False
  end.

Section Rules.
Context {S : Type} `{HasWorld S}.

Lemma wp_conseq {A} (m : ST S A) s (Q Q' : A -> S -> Prop) (E E' : S -> Prop) :
  wp m s Q E -> (forall a s', Q a s' -> Q' a s') -> (forall s', E s' -> E' s') ->
  wp m s Q' E'.
Proof.
  unfold wp. destruct (m s) as [[a|e| |] s']; try done.
  - intros [HQ Hq] HQQ _. auto.
  - intros (Hk & HE & Hn) _ HEE. auto.
Qed.

Lemma wp_bind {A B} (m : ST S A) (f : A -> ST S B) s
    (Q : A -> S -> Prop) (E : S -> Prop) (Q' : B -> S -> Prop) (E' : S -> Prop) :
  wp m s Q E -> (forall a s', Q a s' -> wp (f a) s' Q' E') -> (forall s', E s' -> E' s') ->
  wp (m ≫= f) s Q' E'.
Proof.
  unfold wp, mbind, ST_bind. destruct (m s) as [[a|e| |] s']; try done.
  - intros [HQ Hq] Hf _. specialize (Hf a s' HQ).
    destruct (f a s') as [[b|e| |] s'']; try done.
    + destruct Hf as [? Hq2]. auto.
    + destruct Hf as (? & ? & Hn). split_and!; auto.
  - intros (Hk & HE & Hn) _ HEE. auto.
Qed.

Lemma wp_ret {A} (a : A) s (Q : A -> S -> Prop) E : Q a s -> wp (mret a) s Q E.
Proof. intros. unfold wp, mret, ST_ret. auto. Qed.

Lemma wp_gets {A} (f : S -> A) s (Q : A -> S -> Prop) E : Q (f s) s -> wp (gets f) s Q E.
Proof. intros. unfold wp, gets. auto. Qed.

Lemma wp_get_st s (Q : S -> S -> Prop) E : Q s s -> wp get_st s Q E.
Proof. intros. unfold wp, get_st. auto. Qed.

Lemma wp_modify (f : S -> S) s (Q : unit -> S -> Prop) E :
  world_of (f s) = world_of s -> Q tt (f s) -> wp (modify f) s Q E.
Proof. intros Hw HQ. unfold wp, modify. by rewrite Hw. Qed.

Lemma wp_lift {A} (r : outcome A) a s (Q : A -> S -> Prop) E :
  r = Ok a -> Q a s -> wp (lift r) s Q E.
Proof. intros -> HQ. unfold wp, lift. auto. Qed.

(** With no fault scheduled the program succeeds. *)
Lemma wp_quiet {A} (m : ST S A) s Q E :
  wp m s Q E -> quiet (world_of s) ->
  exists a s', m s = (Ok a, s') /\ Q a s' /\ quiet (world_of s').
Proof.
  unfold wp. destruct (m s) as [[a|e| |] s']; try done.
  - intros [HQ Hq] Hw. eauto 10.
  - intros (_ & _ & Hn) Hw. done.
Qed.

(** A successful run satisfies the postcondition. *)
Lemma wp_ok {A} (m : ST S A) s Q E a s' :
  wp m s Q E -> m s = (Ok a, s') -> Q a s'.
Proof. unfold wp. intros Hw Hm. rewrite Hm in Hw. tauto. Qed.

Lemma wp_err {A} (m : ST S A) s Q E e s' :
  wp m s Q E -> m s = (Err e, s') -> (exists k, e = Io k) /\ E s' /\ ~ quiet (world_of s).
Proof. unfold wp. intros Hw Hm. by rewrite Hm in Hw. Qed.

(** What holds of every final state can be added to both postconditions. *)
Lemma wp_always {A} (m : ST S A) s (I : S -> Prop) Q E :
  wp m s Q E -> I (m s).2 -> wp m s (fun a s' => Q a s' /\ I s') (fun s' => E s' /\ I s').
Proof. unfold wp. destruct (m s) as [[a|e| |] s']; naive_solver. Qed.

Lemma wp_and {A} (m : ST S A) s Q1 E1 Q2 E2 :
  wp m s Q1 E1 -> wp m s Q2 E2 ->
  wp m s (fun a s' => Q1 a s' /\ Q2 a s') (fun s' => E1 s' /\ E2 s').
Proof. unfold wp. destruct (m s) as [[a|e| |] s']; naive_solver. Qed.

(** What is known of successful runs can be added to the postcondition. *)
Lemma wp_strengthen {A} (m : ST S A) s (Q Q' : A -> S -> Prop) E :
  wp m s Q E -> (forall a s', m s = (Ok a, s') -> Q' a s') -> wp m s (fun a s' => Q a s' /\ Q' a s') E.
Proof. unfold wp. destruct (m s) as [[a|e| |] s']; naive_solver. Qed.

Lemma wp_eq {A} (m m' : ST S A) s Q E : m s = m' s -> wp m' s Q E -> wp m s Q E.
Proof. unfold wp. by intros ->. Qed.

Lemma wp_returns {A} (m : ST S A) s Q E : wp m s Q E -> returns (m s).1.
Proof. unfold wp. by destruct (m s) as [[a|e| |] s']. Qed.
End Rules.

Lemma wp_zoom {S T A} `{HasWorld S, HasWorld T} (proj : S -> T) (upd : T -> S -> S)
    (m : ST T A) s (Q : A -> S -> Prop) (E : S -> Prop) :
  world_of (proj s) = world_of s ->
  (forall t, world_of (upd t s) = world_of t) ->
  wp m (proj s) (fun a t => Q a (upd t s)) (fun t => E (upd t s)) ->
  wp (zoom proj upd m) s Q E.
Proof.
  intros Hp Hu. unfold wp, zoom. rewrite Hp.
  destruct (m (proj s)) as [[a|e| |] t]; try done. by rewrite Hu.
Qed.

(** The same rule read forwards: the final state is an update of the initial
    one. *)
Lemma wp_zoom_fwd {S T A} `{HasWorld S, HasWorld T} (proj : S -> T) (upd : T -> S -> S)
    (m : ST T A) s (Q : A -> T -> Prop) (E : T -> Prop) :
  world_of (proj s) = world_of s ->
  (forall t, world_of (upd t s) = world_of t) ->
  wp m (proj s) Q E ->
  wp (zoom proj upd m) s
    (fun a s' => exists t, s' = upd t s /\ Q a t) (fun s' => exists t, s' = upd t s /\ E t).
Proof.
  intros Hp Hu Hm. apply wp_zoom; [done..|]. eapply wp_conseq; [done|eauto..].
Qed.

Lemma wp_bind_zoom {S T A B} `{HasWorld S, HasWorld T} (proj : S -> T) (upd : T -> S -> S)
    (m : ST T A) (f : A -> ST S B) s (Q1 : A -> T -> Prop) (E1 : T -> Prop) Q E :
  world_of (proj s) = world_of s ->
  (forall t, world_of (upd t s) = world_of t) ->
  wp m (proj s) Q1 E1 ->
  (forall a t, Q1 a t -> wp (f a) (upd t s) Q E) ->
  (forall t, E1 t -> E (upd t s)) ->
  wp (zoom proj upd m ≫= f) s Q E.
Proof.
  intros Hp Hu Hm Hf HE. eapply wp_bind; [by apply wp_zoom_fwd| |].
  - intros a s' (t & -> & HQ). by apply Hf.
  - intros s' (t & -> & H1). by apply HE.
Qed.

(** ** Files *)

Definition same_files (w w' : World) : Prop := files w' = files w.

Lemma same_files_trans w1 w2 w3 : same_files w1 w2 -> same_files w2 w3 -> same_files w1 w3.
Proof. unfold same_files. congruence. Qed.

(** Only the file at [p] may differ, and no directory appears there. *)
Definition frame (p : path) (w w' : World) : Prop :=
  (forall q, q <> p -> files w' !! q = files w !! q) /\
  (files w !! p <> Some NDir -> files w' !! p <> Some NDir).

Lemma frame_refl p w : frame p w w.
Proof. done. Qed.

Lemma frame_trans p w1 w2 w3 : frame p w1 w2 -> frame p w2 w3 -> frame p w1 w3.
Proof. intros [H1 N1] [H2 N2]. split; [|auto]. intros q Hq. by rewrite H2, H1. Qed.

Lemma frame_same p w w' : same_files w w' -> frame p w w'.
Proof. intros E. unfold frame. by rewrite E. Qed.

Lemma frame_set p f w : frame p w (set_file p f w).
Proof. split; simpl; [intros q Hq; by rewrite lookup_insert_ne|by rewrite lookup_insert_eq]. Qed.

Create HintDb world.
#[export] Hint Resolve frame_refl frame_trans frame_same frame_set : world.

(** Chain the steps that lead to the final world, last step first. *)
Ltac solve_frame :=
  first
    [ assumption | apply frame_refl | apply frame_same; assumption
    | match goal with
      | H : frame ?p ?w1 ?w |- frame ?p _ ?w =>
          apply (frame_trans _ _ w1); [solve_frame | exact H]
      | H : same_files ?w1 ?w |- frame ?p _ ?w =>
          apply (frame_trans _ _ w1); [solve_frame | apply frame_same; exact H]
      end ].

Lemma get_set_file p f w : get_file p (set_file p f w) = Some f.
Proof. unfold get_file, set_file; simpl. by rewrite lookup_insert_eq. Qed.

Lemma get_file_same p w w' : same_files w w' -> get_file p w' = get_file p w.
Proof. unfold get_file, same_files. by intros ->. Qed.

Lemma get_file_frame p q w w' : frame p w w' -> q <> p -> get_file q w' = get_file q w.
Proof. intros [F _] Hq. unfold get_file. by rewrite F. Qed.

Lemma quiet_tail w x r : faults w = x :: r -> quiet w -> quiet (mkWorld (files w) r).
Proof. unfold quiet. intros -> Hq. by inversion Hq. Qed.

Lemma not_quiet w f r : faults w = Some f :: r -> ~ quiet w.
Proof. unfold quiet. intros -> Hq. by inversion Hq. Qed.

(** A system call behaves as its action in a world with the same files, or
    fails. *)
Lemma wp_syscall {A} (act : ST World A) w (Q : A -> World -> Prop) (E : World -> Prop) :
  (forall w1, same_files w w1 -> wp act w1 Q E) ->
  (forall w1, same_files w w1 -> E w1) ->
  wp (syscall act) w Q E.
Proof.
  intros Hact HE. unfold wp, syscall.
  destruct (faults w) as [|[f|] r] eqn:F.
  - apply (Hact w eq_refl).
  - split_and!; [eauto|by apply HE|by eapply not_quiet].
  - specialize (Hact (mkWorld (files w) r) eq_refl). unfold wp in Hact.
    pose proof (quiet_tail w None r F) as Ht.
    destruct (act _) as [[a|e| |] w']; try done.
    + destruct Hact as [? Hq]. split; [done|]. intros Hw. by apply Hq, Ht.
    + destruct Hact as (? & ? & Hn). split_and!; [done..|]. intros Hw. by apply Hn, Ht.
Qed.

Lemma wp_with_handle {A} (m : File.t -> ST World (A * Z)) h w Q E :
  wp (m h) w
    (fun a w' => Q a.1 (File.mk (File.h_path h) a.2 (File.h_append h), w'))
    (fun w' => E (h, w')) ->
  wp (File.with_handle m) (h, w) Q E.
Proof.
  unfold wp, File.with_handle. by destruct (m h w) as [[[a pos]|e| |] w'].
Qed.

Section FileRules.
Context (p : path) (f : file).

Lemma wp_open w :
  get_file p w = Some f ->
  wp (File.open p) w
    (fun h w' => h = File.mk p 0 false /\ same_files w w') (same_files w).
Proof.
  intros Hf. apply wp_syscall; [|done]. intros w1 Hw. unfold wp.
  unfold get_file in Hf. rewrite Hw. by destruct (files w !! p) as [[g|]|].
Qed.

Lemma wp_open_truncate w :
  get_file p w = Some f \/ files w !! p = None ->
  wp (File.open_truncate p) w
    (fun h w' => h = File.mk p 0 false /\ frame p w w' /\
       get_file p w' = Some (mkFile [] (default [] (durable <$> get_file p w))))
    (same_files w).
Proof.
  intros Hf. apply wp_syscall; [|done]. intros w1 Hw. unfold wp.
  destruct Hf as [Hf|Hn].
  - rewrite Hf. unfold get_file in Hf. rewrite Hw.
    destruct (files w !! p) as [[g|]|]; simplify_eq.
    split; [|done]. split_and!; [done| |by rewrite get_set_file].
    eapply frame_trans; [by apply frame_same|apply frame_set].
  - unfold get_file at 2. rewrite Hw, Hn.
    split; [|done]. split_and!; [done| |by rewrite get_set_file].
    eapply frame_trans; [by apply frame_same|apply frame_set].
Qed.

Lemma wp_metadata_len h w :
  File.h_path h = p -> get_file p w = Some f ->
  wp (File.metadata_len h) w
    (fun n w' => n = len (content f) /\ same_files w w') (same_files w).
Proof.
  intros Hp Hf. apply wp_syscall; [|done]. intros w1 Hw. unfold wp.
  rewrite Hp, (get_file_same p w w1 Hw), Hf. auto.
Qed.

Lemma wp_seek_to target h w :
  File.h_path h = p -> get_file p w = Some f ->
  0 <= target h (len (content f)) < 2 ^ 63 ->
  wp (File.seek_to target) (h, w)
    (fun _ s => s.1 = File.mk p (target h (len (content f))) (File.h_append h) /\
                same_files w s.2)
    (fun s => s.1 = h /\ same_files w s.2).
Proof.
  intros Hp Hf Ht. apply wp_with_handle, wp_syscall; [|done]. intros w1 Hw. unfold wp.
  rewrite Hp, (get_file_same p w w1 Hw), Hf.
  rewrite (proj2 (Z.leb_le _ _) (proj1 Ht)), (proj2 (Z.ltb_lt _ _) (proj2 Ht)).
  simpl. by auto.
Qed.

Lemma wp_read_exact n h w :
  File.h_path h = p -> get_file p w = Some f ->
  0 <= File.h_pos h -> 0 <= n -> File.h_pos h + n <= len (content f) ->
  wp (File.read_exact n) (h, w)
    (fun bs s => bs = sub (File.h_pos h) n (content f) /\
       s.1 = File.mk p (File.h_pos h + n) (File.h_append h) /\ same_files w s.2)
    (fun s => s.1 = h /\ same_files w s.2).
Proof.
  intros Hp Hf H0 Hn Hl. unfold wp, File.read_exact.
  destruct (Z.leb_spec n 0) as [Hz|Hpos].
  - replace n with 0 by lia. rewrite Z.add_0_r. destruct h; simpl in *; subst.
    split; [|done]. unfold sub. by rewrite ztake_le0.
  - pose proof (wp_syscall (fun w => match get_file (File.h_path h) w with
        | None => (Err (Io OtherKind), w) | Some f => (Ok (content f), w) end) w
        (fun c w' => c = content f /\ same_files w w') (same_files w)) as Hs.
    assert (Hact : wp (syscall (fun w => match get_file (File.h_path h) w with
        | None => (Err (Io OtherKind), w) | Some f => (Ok (content f), w) end)) w
        (fun c w' => c = content f /\ same_files w w') (same_files w)).
    { apply Hs; [|done]. intros w1 Hw. unfold wp.
      rewrite Hp, (get_file_same p w w1 Hw), Hf. auto. }
    unfold wp in Hact. destruct (syscall _ w) as [[c|e| |] w']; try done.
    + destruct Hact as [[-> Hw] Hq]. rewrite (proj2 (Z.leb_le _ _) Hl), Hp. simpl. auto.
    + naive_solver.
Qed.

Lemma wp_sync_all h w :
  File.h_path h = p -> get_file p w = Some f ->
  wp File.sync_all (h, w)
    (fun _ s => s.1 = h /\ frame p w s.2 /\
       get_file p s.2 = Some (mkFile (content f) (content f)))
    (fun s => s.1 = h /\ same_files w s.2).
Proof.
  intros Hp Hf. apply wp_with_handle, wp_syscall; [|done]. intros w1 Hw. unfold wp.
  rewrite Hp, (get_file_same p w w1 Hw), Hf. split; [|done]. simpl.
  split_and!; [by destruct h; simpl in *; subst| |by rewrite get_set_file].
  eapply frame_trans; [by apply frame_same|apply frame_set].
Qed.

Lemma wp_set_len n h w :
  File.h_path h = p -> get_file p w = Some f ->
  wp (File.set_len n) (h, w)
    (fun _ s => s.1 = h /\ frame p w s.2 /\
       get_file p s.2 =
         Some (mkFile (ztake n (content f) ++ zeros (n - len (content f))) (durable f)))
    (fun s => s.1 = h /\ same_files w s.2).
Proof.
  intros Hp Hf. apply wp_with_handle, wp_syscall; [|done]. intros w1 Hw. unfold wp.
  rewrite Hp, (get_file_same p w w1 Hw), Hf. split; [|done]. simpl.
  split_and!; [by destruct h; simpl in *; subst| |by rewrite get_set_file].
  eapply frame_trans; [by apply frame_same|apply frame_set].
Qed.
End FileRules.

(** A reader moves its cursor and leaves the files alone: [at_pos p pos w0 s]. *)
Definition at_pos (p : path) (pos : Z) (w0 : World) (s : File.t * World) : Prop :=
  File.h_path s.1 = p /\ File.h_pos s.1 = pos /\ same_files w0 s.2.

Definition unchanged (p : path) (w0 : World) (s : File.t * World) : Prop :=
  File.h_path s.1 = p /\ same_files w0 s.2.

Lemma at_pos_unchanged p pos w0 s : at_pos p pos w0 s -> unchanged p w0 s.
Proof. by intros (? & _ & ?). Qed.

Lemma wp_read_at p f n pos w0 s :
  get_file p w0 = Some f -> at_pos p pos w0 s ->
  0 <= pos -> 0 <= n -> pos + n <= len (content f) ->
  wp (File.read_exact n) s
    (fun bs s' => bs = sub pos n (content f) /\ at_pos p (pos + n) w0 s') (unchanged p w0).
Proof.
  destruct s as [h w]. intros Hf (Hp & <- & Hw) H0 Hn Hl. cbn [fst snd] in *.
  eapply wp_conseq; [apply (wp_read_exact p f); try done; by rewrite (get_file_same p w0 w)|..].
  - intros bs [h' w'] (-> & E & Hw'). simpl in *. subst h'.
    split; [done|]. split_and!; [done|done|by eapply same_files_trans].
  - intros [h' w'] (E & Hw'). simpl in *. subst h'. split; [done|by eapply same_files_trans].
Qed.

Lemma wp_seek_at p f target pos w0 s :
  get_file p w0 = Some f -> at_pos p pos w0 s ->
  0 <= target s.1 (len (content f)) < 2 ^ 63 ->
  wp (File.seek_to target) s
    (fun _ s' => at_pos p (target s.1 (len (content f))) w0 s') (unchanged p w0).
Proof.
  destruct s as [h w]. intros Hf (Hp & <- & Hw) Ht. cbn [fst snd] in *.
  eapply wp_conseq; [apply (wp_seek_to p f); try done; by rewrite (get_file_same p w0 w)|..].
  - intros _ [h' w'] (E & Hw'). simpl in *. subst h'.
    split_and!; [done|done|by eapply same_files_trans].
  - intros [h' w'] (E & Hw'). simpl in *. subst h'. split; [done|by eapply same_files_trans].
Qed.

(** A write in the middle of a file. *)
Lemma wp_write_all_at p f bs h w :
  File.h_path h = p -> File.h_append h = false -> get_file p w = Some f -> 0 < len bs ->
  wp (File.write_all bs) (h, w)
    (fun _ s => File.h_path s.1 = p /\ frame p w s.2 /\
       get_file p s.2 =
         Some (mkFile (File.overwrite (File.h_pos h) bs (content f)) (durable f)))
    (fun s => File.h_path s.1 = p /\ frame p w s.2).
Proof.
  intros Hp Ha Hf Hl. unfold wp, File.write_all, File.write_count.
  rewrite (proj2 (Z.eqb_neq _ 0)) by lia.
  assert (Ht : forall bs' w1, same_files w w1 ->
    File.transfer bs' (h, w1) =
      (File.mk p (File.h_pos h + len bs') false,
       set_file p (mkFile (File.overwrite (File.h_pos h) bs' (content f)) (durable f)) w1)).
  { intros bs' w1 Hw. unfold File.transfer. by rewrite Hp, (get_file_same p w w1 Hw), Hf, Ha. }
  assert (Hfr : forall g w1, same_files w w1 -> frame p w (set_file p g w1)).
  { intros g w1 Hw. eapply frame_trans; [by apply frame_same|apply frame_set]. }
  destruct (faults w) as [|[ft|] r] eqn:F; rewrite Ht by done; simpl.
  - split; [|done]. split_and!; [done|by apply Hfr|by rewrite get_set_file].
  - split_and!; [eauto|done|by apply Hfr|by eapply not_quiet].
  - split; [split_and!; [done|by apply Hfr|by rewrite get_set_file]|]. intros Hq. by apply (quiet_tail w None r F).
Qed.

Lemma overwrite_end bs c : File.overwrite (len c) bs c = c ++ bs.
Proof.
  unfold File.overwrite. rewrite ztake_all, zdrop_all by len_lia.
  rewrite Z.sub_diag. unfold zeros. simpl. by rewrite app_nil_r.
Qed.

(** ** A handle that writes at the end of its file *)

Definition at_end (p : path) (c d : bytes) (h : File.t) (w : World) : Prop :=
  File.h_path h = p /\ get_file p w = Some (mkFile c d) /\
  (File.h_append h = true \/ File.h_pos h = len c).

Lemma transfer_at_end p c d bs h w :
  at_end p c d h w ->
  let s := File.transfer bs (h, w) in
  at_end p (c ++ bs) d s.1 s.2 /\ frame p w s.2 /\ faults s.2 = faults w.
Proof.
  intros (Hp & Hf & Hpos). unfold File.transfer. rewrite Hp, Hf. simpl.
  replace (if File.h_append h then len c else File.h_pos h) with (len c)
    by (destruct Hpos as [->| ->]; [done|by destruct (File.h_append h)]).
  rewrite overwrite_end. split_and!; [|apply frame_set|done].
  split_and!; [done|by rewrite get_set_file|simpl; right; by rewrite len_app].
Qed.

Lemma at_end_same p c d h w w' : same_files w w' -> at_end p c d h w -> at_end p c d h w'.
Proof. intros E (? & Hf & ?). split_and!; [done|by rewrite (get_file_same p w w')|done]. Qed.

(** [n] bytes of [bs] were transferred, all of them unless an error came back. *)
Lemma write_count_at_end p c d bs h w :
  at_end p c d h w ->
  exists n err s', File.write_count bs (h, w) = ((n, err), s') /\
    0 <= n <= len bs /\ at_end p (c ++ ztake n bs) d s'.1 s'.2 /\ frame p w s'.2 /\
    (quiet w -> quiet s'.2) /\
    match err with None => n = len bs | Some _ => ~ quiet w end.
Proof.
  intros Hat. unfold File.write_count. destruct (Z.eqb_spec (len bs) 0) as [E|E].
  - exists 0, None, (h, w). rewrite E, ztake_le0, app_nil_r by lia.
    split_and!; eauto with world; lia.
  - destruct (faults w) as [|[f|] r] eqn:F.
    + destruct (transfer_at_end p c d bs h w Hat) as (H1 & H2 & H3).
      exists (len bs), None. eexists. split; [done|].
      rewrite ztake_all by lia. split_and!; auto; [len_lia|lia|].
      unfold quiet. by rewrite H3.
    + set (n := Z.max 0 (Z.min (f_done f) (len bs))).
      destruct (transfer_at_end p c d (ztake n bs) h (mkWorld (files w) r)) as (H1 & H2 & H3).
      { by apply (at_end_same _ _ _ _ w). }
      exists n, (Some (f_kind f)). eexists. split; [done|].
      split_and!; auto; [unfold n; len_lia|unfold n; pose_len; lia| |by eapply not_quiet].
      intros Hq. by apply not_quiet in F.
    + destruct (transfer_at_end p c d bs h (mkWorld (files w) r)) as (H1 & H2 & H3).
      { by apply (at_end_same _ _ _ _ w). }
      exists (len bs), None. eexists. split; [done|].
      rewrite ztake_all by lia. split_and!; auto; [len_lia|lia|].
      intros Hq. apply (quiet_tail w None r F) in Hq. unfold quiet in *. by rewrite H3.
Qed.

(** ** A handle on a file whose content does not matter *)

Definition on_path (p : path) (w0 : World) (h : File.t) (w : World) : Prop :=
  File.h_path h = p /\ (exists f, get_file p w = Some f) /\ frame p w0 w.

Lemma transfer_on_path p w0 bs h w :
  on_path p w0 h w ->
  let s := File.transfer bs (h, w) in on_path p w0 s.1 s.2 /\ faults s.2 = faults w.
Proof.
  intros (Hp & [f Hf] & Hfr). unfold File.transfer. rewrite Hp, Hf. simpl.
  split; [|done]. split_and!; [done|rewrite get_set_file; eauto|eauto with world].
Qed.

Lemma on_path_same p w0 h w w' : same_files w w' -> on_path p w0 h w -> on_path p w0 h w'.
Proof.
  intros E (? & ? & ?). split_and!; [done|by rewrite (get_file_same p w w')|eauto with world].
Qed.

Lemma write_count_on_path p w0 bs h w :
  on_path p w0 h w ->
  exists n err s', File.write_count bs (h, w) = ((n, err), s') /\
    on_path p w0 s'.1 s'.2 /\ (quiet w -> quiet s'.2) /\ (err <> None -> ~ quiet w).
Proof.
  intros Hat. unfold File.write_count. destruct (len bs =? 0).
  { exists 0, None, (h, w). split_and!; auto. }
  destruct (faults w) as [|[f|] r] eqn:F.
  - destruct (transfer_on_path p w0 bs h w Hat) as (H1 & H2). do 3 eexists. split; [done|].
    split_and!; [done| |done]. unfold quiet. by rewrite H2.
  - set (n := Z.max 0 (Z.min (f_done f) (len bs))).
    destruct (transfer_on_path p w0 (ztake n bs) h (mkWorld (files w) r)) as (H1 & H2);
      [by apply (on_path_same _ _ _ w)|].
    do 3 eexists. split; [done|]. apply not_quiet in F. split_and!; [done|naive_solver|done].
  - destruct (transfer_on_path p w0 bs h (mkWorld (files w) r)) as (H1 & H2);
      [by apply (on_path_same _ _ _ w)|].
    do 3 eexists. split; [done|]. split_and!; [done| |done].
    intros Hq. apply (quiet_tail w None r F) in Hq. unfold quiet in *. by rewrite H2.
Qed.

(** ** What holds of a handle across writes

    [write_keeps P]: transferring bytes through a handle preserves [P]; a buffered
    writer over the handle then preserves it too. *)
Definition write_keeps (P : File.t -> World -> Prop) : Prop := forall bs h w,
  P h w -> exists n err s', File.write_count bs (h, w) = ((n, err), s') /\
    P s'.1 s'.2 /\ (quiet w -> quiet s'.2) /\ (err <> None -> ~ quiet w).

Definition bw_keeps (P : File.t -> World -> Prop) (s : BufWriter.t * World) : Prop :=
  P (BufWriter.inner s.1) s.2.

Section Keeps.
Context (P : File.t -> World -> Prop) (HP : write_keeps P).

Lemma wp_flush_keeps s :
  bw_keeps P s -> wp BufWriter.flush_buf s (fun _ => bw_keeps P) (bw_keeps P).
Proof.
  destruct s as [b w]. intros Hb. unfold wp, BufWriter.flush_buf.
  destruct (HP (BufWriter.buf b) (BufWriter.inner b) w Hb)
    as (n & err & [h' w'] & -> & H1 & H2 & H3).
  destruct err as [k|]; [|done]. split_and!; [by eauto|done|by apply H3].
Qed.

Lemma wp_inner_write_keeps bs s :
  bw_keeps P s ->
  wp (BufWriter.on_inner (File.write_all bs)) s (fun _ => bw_keeps P) (bw_keeps P).
Proof.
  destruct s as [b w]. intros Hb. apply wp_zoom; [done..|]. unfold wp, File.write_all; cbn [fst snd].
  destruct (HP bs (BufWriter.inner b) w Hb) as (n & err & [h' w'] & -> & H1 & H2 & H3).
  destruct err as [k|]; [|done]. split_and!; [by eauto|done|by apply H3].
Qed.

Lemma wp_write_keeps bs s :
  bw_keeps P s -> wp (BufWriter.write_all bs) s (fun _ => bw_keeps P) (bw_keeps P).
Proof.
  intros Hb. unfold wp, BufWriter.write_all. destruct (len bs <? _); [done|].
  match goal with |- match ?m s with _ => _ end =>
    change (wp m s (fun _ => bw_keeps P) (bw_keeps P)) end.
  eapply wp_bind; [|intros ? s' Hs'|intros ? E; exact E].
  - destruct (_ <? len bs); [by apply wp_flush_keeps|by apply wp_ret].
  - destruct (_ <=? len bs); [by apply wp_inner_write_keeps|]. by apply wp_modify.
Qed.
End Keeps.

(** A handle at the end of a file that starts with [c0]. *)
Definition past (p : path) (c0 : bytes) (h : File.t) (w : World) : Prop :=
  exists c d, at_end p c d h w /\ c0 `prefix_of` c.

Lemma write_count_past p c0 : write_keeps (past p c0).
Proof.
  intros bs h w (c & d & Hat & Hc).
  destruct (write_count_at_end p c d bs h w Hat) as (n & err & s' & E & Hn & Hat' & _ & Hq & Herr).
  exists n, err, s'. split_and!; [done| |done|by destruct err].
  exists (c ++ ztake n bs), d. split; [done|]. by apply prefix_app_r.
Qed.

(** Writing does not change the mode a file was opened in. *)
Lemma transfer_append bs s : File.h_append (File.transfer bs s).1 = File.h_append s.1.
Proof. destruct s as [h w]. unfold File.transfer. by destruct (get_file _ w). Qed.

Lemma write_count_append bs s : File.h_append (File.write_count bs s).2.1 = File.h_append s.1.
Proof.
  destruct s as [h w]. unfold File.write_count. destruct (len bs =? 0); [done|].
  destruct (faults w) as [|[f|] r]; cbn [fst snd]; by rewrite transfer_append.
Qed.

Definition bw_append (s : BufWriter.t * World) : bool := File.h_append (BufWriter.inner s.1).

Lemma flush_buf_append s : bw_append (BufWriter.flush_buf s).2 = bw_append s.
Proof.
  destruct s as [b w]. unfold BufWriter.flush_buf, bw_append; cbn [fst snd].
  pose proof (write_count_append (BufWriter.buf b) (BufWriter.inner b, w)) as E.
  by destruct (File.write_count _ _) as [[n err] [h w']].
Qed.

Lemma bw_write_append bs s : bw_append (BufWriter.write_all bs s).2 = bw_append s.
Proof.
  unfold BufWriter.write_all. destruct (len bs <? _); [done|]. unfold mbind, ST_bind.
  match goal with |- context [let '(_, _) := ?m s in _] =>
    assert (E : bw_append (m s).2 = bw_append s)
      by (destruct (_ <? len bs); [apply flush_buf_append|done]);
    destruct (m s) as [[[]|e| |] s'] end; simpl in E; try done.
  destruct (_ <=? len bs); [|done]. rewrite <- E. destruct s' as [b' w'].
  unfold BufWriter.on_inner, zoom, File.write_all, bw_append; cbn [fst snd].
  pose proof (write_count_append bs (BufWriter.inner b', w')) as E2.
  by destruct (File.write_count bs _) as [[n [k|]] [h2 w2]].
Qed.

Lemma bw_drop_frame p b w :
  File.h_path (BufWriter.inner b) = p -> frame p w (BufWriter.drop b w).
Proof.
  intros Hp. unfold BufWriter.drop, BufWriter.flush_buf, File.write_count.
  assert (Ht : forall bs w', frame p w w' ->
    frame p w (File.transfer bs (BufWriter.inner b, w')).2).
  { intros bs w' Hf. unfold File.transfer. rewrite Hp.
    destruct (get_file p w'); simpl; eauto with world. }
  assert (Hs : forall r, frame p w (mkWorld (files w) r)) by (intros r; by apply frame_same).
  destruct (len _ =? 0); [apply frame_refl|].
  destruct (faults w) as [|[f|] r];
    match goal with |- context [File.transfer ?bs (_, ?w')] =>
      specialize (Ht bs w' ltac:(auto with world)); by destruct (File.transfer bs _) end.
Qed.

Lemma bw_drop_quiet b w : quiet w -> quiet (BufWriter.drop b w).
Proof.
  intros Hq. unfold BufWriter.drop, BufWriter.flush_buf, File.write_count.
  assert (Ht : forall bs w', quiet w' -> quiet (File.transfer bs (BufWriter.inner b, w')).2).
  { intros bs w' Hf. unfold File.transfer. by destruct (get_file _ w'). }
  assert (Hf : forall r x, faults w = x :: r -> quiet (mkWorld (files w) r)).
  { intros r x E. by eapply quiet_tail. }
  destruct (len _ =? 0); [done|].
  destruct (faults w) as [|[f|] r] eqn:F.
  - specialize (Ht (BufWriter.buf b) w Hq). by destruct (File.transfer _ _).
  - by apply not_quiet in F.
  - specialize (Ht (BufWriter.buf b) _ (Hf _ _ eq_refl)). by destruct (File.transfer _ _).
Qed.

(** An empty buffer leaves nothing to do. *)
Lemma bw_drop_empty b w : BufWriter.buf b = [] -> BufWriter.drop b w = w.
Proof. intros E. unfold BufWriter.drop, BufWriter.flush_buf. by rewrite E. Qed.

(** ** A buffered writer

    [bw_log p d log b w]: the bytes handed to the writer so far are [log], of
    which the buffer still holds a suffix; the file's durable part is [d]. *)
Definition bw_log (p : path) (d log : bytes) (b : BufWriter.t) (w : World) : Prop :=
  exists c, at_end p c d (BufWriter.inner b) w /\ c ++ BufWriter.buf b = log.

Lemma wp_flush_buf p d log b w :
  bw_log p d log b w ->
  wp BufWriter.flush_buf (b, w)
    (fun _ s => bw_log p d log s.1 s.2 /\ BufWriter.buf s.1 = [] /\ frame p w s.2)
    (fun s => bw_log p d log s.1 s.2 /\ frame p w s.2).
Proof.
  intros (c & Hat & Hlog). unfold wp, BufWriter.flush_buf.
  destruct (write_count_at_end p c d (BufWriter.buf b) (BufWriter.inner b) w Hat)
    as (n & err & [h' w'] & E & Hn & Hat' & Hfr & Hq & Herr).
  rewrite E. simpl in *.
  assert (Hl : bw_log p d log (BufWriter.mk h' (zdrop n (BufWriter.buf b))) w').
  { exists (c ++ ztake n (BufWriter.buf b)). split; [done|]. simpl.
    by rewrite <- app_assoc, ztake_zdrop. }
  destruct err as [k|]; simpl.
  - split_and!; eauto.
  - split; [|done]. split_and!; [done| |done]. apply zdrop_all. lia.
Qed.

(** A failed write left either nothing of [bs], or (a write larger than the
    buffer) a strict or full prefix of it. *)
Lemma wp_bw_write_all p d log bs b w :
  bw_log p d log b w ->
  wp (BufWriter.write_all bs) (b, w)
    (fun _ s => bw_log p d (log ++ bs) s.1 s.2 /\ frame p w s.2)
    (fun s => exists n, 0 <= n <= len bs /\ (n = 0 \/ BufWriter.CAPACITY <= len bs) /\
       bw_log p d (log ++ ztake n bs) s.1 s.2 /\ frame p w s.2).
Proof.
  intros Hb.
  assert (Hpush : forall s', bw_log p d log s'.1 s'.2 -> frame p w s'.2 ->
    wp (BufWriter.push bs) s'
      (fun _ s => bw_log p d (log ++ bs) s.1 s.2 /\ frame p w s.2)
      (fun s => exists n, 0 <= n <= len bs /\ (n = 0 \/ BufWriter.CAPACITY <= len bs) /\
         bw_log p d (log ++ ztake n bs) s.1 s.2 /\ frame p w s.2)).
  { intros s' (c & Hat & <-) Hfr. apply wp_modify; [done|]. split; [|done].
    exists c. split; [done|]. simpl. by rewrite app_assoc. }
  unfold BufWriter.write_all, wp at 1. cbn [fst].
  destruct (len bs <? _); [by apply (Hpush (b, w)); auto with world|].
  match goal with |- match ?m (b, w) with _ => _ end => change (wp m (b, w)
      (fun _ s => bw_log p d (log ++ bs) s.1 s.2 /\ frame p w s.2)
      (fun s => exists n, 0 <= n <= len bs /\ (n = 0 \/ BufWriter.CAPACITY <= len bs) /\
         bw_log p d (log ++ ztake n bs) s.1 s.2 /\ frame p w s.2)) end.
  apply (wp_bind _ _ _
    (fun _ s => bw_log p d log s.1 s.2 /\ frame p w s.2 /\
       (BufWriter.CAPACITY <= len bs -> BufWriter.buf s.1 = []))
    (fun s => bw_log p d log s.1 s.2 /\ frame p w s.2)).
  - case_match eqn:Hsp.
    + eapply wp_conseq; [by apply wp_flush_buf| |done]. naive_solver.
    + apply wp_ret. split_and!; auto with world. intros Hc. apply len_0_nil.
      apply Z.ltb_ge in Hsp. simpl. len_lia.
  - intros _ [b' w'] (Hb' & Hfr & Hemp). simpl in *.
    destruct (Z.leb_spec BufWriter.CAPACITY (len bs)) as [Hcap|]; [|by apply (Hpush (b', w'))].
    apply wp_zoom; [done..|]. destruct Hb' as (c & Hat & Hlog). rewrite (Hemp Hcap) in *.
    rewrite app_nil_r in Hlog. subst c. simpl.
    unfold wp, File.write_all.
    destruct (write_count_at_end p log d bs (BufWriter.inner b') w' Hat)
      as (n & err & [h2 w2] & E & Hn & Hat2 & Hfr2 & Hq & Herr).
    rewrite E. simpl in *.
    assert (Hl : bw_log p d (log ++ ztake n bs) (BufWriter.mk h2 []) w2).
    { eexists. split; [done|]. simpl. by rewrite app_nil_r. }
    assert (frame p w w2) by eauto with world.
    destruct err as [k|].
    + split_and!; eauto. exists n. rewrite (Hemp Hcap). split_and!; auto; lia.
    + subst n. rewrite ztake_all in Hl by lia. rewrite (Hemp Hcap). auto.
  - intros s [H1 H2]. exists 0. rewrite ztake_le0, app_nil_r by lia. split_and!; auto; len_lia.
Qed.

(** ** Programs that may fail on their own account

    [wpr m s R E]: unless a scheduled fault cuts it short, the outcome of [m],
    error values included, is one [R] describes. *)
Definition wpr {S A} `{HasWorld S} (m : ST S A) (s : S)
    (R : outcome A -> S -> Prop) (E : S -> Prop) : Prop :=
  let '(r, s') := m s in
  (R r s' /\ (quiet (world_of s) -> quiet (world_of s'))) \/
  ((exists k, r = Err (Io k)) /\ E s' /\ ~ quiet (world_of s)).

Section OutcomeRules.
Context {S : Type} `{HasWorld S}.

Lemma wpr_conseq {A} (m : ST S A) s (R R' : outcome A -> S -> Prop) (E E' : S -> Prop) :
  wpr m s R E -> (forall r s', R r s' -> R' r s') -> (forall s', E s' -> E' s') ->
  wpr m s R' E'.
Proof. unfold wpr. destruct (m s). naive_solver. Qed.

Lemma wpr_ret {A} (a : A) s (R : outcome A -> S -> Prop) E : R (Ok a) s -> wpr (mret a) s R E.
Proof. intros. by left. Qed.

Lemma wpr_fail {A} e s (R : outcome A -> S -> Prop) E : R (Err e) s -> wpr (fail e) s R E.
Proof. intros. by left. Qed.

Lemma wpr_lift {A} (r : outcome A) s (R : outcome A -> S -> Prop) E :
  R r s -> wpr (lift r) s R E.
Proof. intros. by left. Qed.

Lemma wpr_of_wp {A} (m : ST S A) s (Q : A -> S -> Prop) E :
  wp m s Q E -> wpr m s (fun r s' => exists a, r = Ok a /\ Q a s') E.
Proof. unfold wp, wpr. destruct (m s) as [[a|e| |] s']; naive_solver. Qed.

Lemma wp_of_wpr {A} (m : ST S A) s (Q : A -> S -> Prop) E :
  wpr m s (fun r s' => exists a, r = Ok a /\ Q a s') E -> wp m s Q E.
Proof. unfold wp, wpr. destruct (m s) as [[a|e| |] s']; naive_solver. Qed.

(** The first half cannot fail on its own account. *)
Lemma wpr_bind_wp {A B} (m : ST S A) (f : A -> ST S B) s Q E R E' :
  wp m s Q E -> (forall a s', Q a s' -> wpr (f a) s' R E') -> (forall s', E s' -> E' s') ->
  wpr (m ≫= f) s R E'.
Proof.
  unfold wp, wpr, mbind, ST_bind. destruct (m s) as [[a|e| |] s']; try done.
  - intros [HQ Hq] Hf _. specialize (Hf a s' HQ). destruct (f a s') as [r s''].
    destruct Hf as [[? ?]|(? & ? & ?)]; [left|right]; split_and!; auto.
  - intros ([k ->] & HE & Hn) _ HEE. right. split_and!; eauto.
Qed.

(** The first half may fail; [cast] is its outcome at the type of the whole. *)
Definition cast {A B} (r : outcome A) : outcome B :=
  match r with Ok _ | OutOfFuel => OutOfFuel | Err e => Err e | Panic => Panic end.

Lemma wpr_bind {A B} (m : ST S A) (f : A -> ST S B) s R0 E R E' :
  wpr m s R0 E ->
  (forall r s', R0 r s' -> match r with Ok a => wpr (f a) s' R E' | _ => R (cast r) s' end) ->
  (forall s', E s' -> E' s') -> wpr (m ≫= f) s R E'.
Proof.
  unfold wpr, mbind, ST_bind. destruct (m s) as [r s']. intros [[HR Hq]|([k ->] & HE & Hn)] Hf HEE.
  - specialize (Hf r s' HR). destruct r; [|left; split; [exact Hf|done]..].
    destruct (f a s') as [r2 s'']. destruct Hf as [[? ?]|(? & ? & ?)]; [left|right]; split_and!; auto.
  - right. split_and!; eauto.
Qed.

Lemma wpr_bind_lift {A B} (r : outcome A) (f : A -> ST S B) s R E :
  match r with
  | Ok a => wpr (f a) s R E
  | Err e => R (Err e) s
  | Panic => R Panic s
  | OutOfFuel => R OutOfFuel s
  end -> wpr (lift r ≫= f) s R E.
Proof.
  unfold wpr, lift, mbind, ST_bind. destruct r; try (intros; left; by auto). done.
Qed.

(** A [match] on the [Result] of a call whose I/O errors are passed on. *)
Lemma wpr_bind_catch {A B} (m : ST S A) (f : outcome A -> ST S B) s R0 E R E' :
  wpr m s R0 E ->
  (forall r s', R0 r s' -> returns r) ->
  (forall r s', R0 r s' -> wpr (f r) s' R E') ->
  (forall k s', E s' -> f (Err (Io k)) s' = (Err (Io k), s') /\ E' s') ->
  wpr (catch m ≫= f) s R E'.
Proof.
  unfold wpr, catch, mbind, ST_bind. destruct (m s) as [r s']. intros Hm Hret Hf Hk.
  destruct Hm as [[HR Hq]|([k ->] & HE & Hn)].
  - specialize (Hf r s' HR). apply Hret in HR.
    destruct r; try done;
      (destruct (f _ s') as [r2 s'']; destruct Hf as [[? ?]|(? & ? & ?)];
       [left|right]; split_and!; auto).
  - destruct (Hk k s' HE) as [-> HE']. right. split_and!; eauto.
Qed.

(** Steps that touch only the in-memory part of the state. *)
Lemma wpr_bind_get_st {B} (f : S -> ST S B) s R E :
  wpr (f s) s R E -> wpr (get_st ≫= f) s R E.
Proof. done. Qed.

Lemma wpr_bind_gets {A B} (g : S -> A) (f : A -> ST S B) s R E :
  wpr (f (g s)) s R E -> wpr (gets g ≫= f) s R E.
Proof. done. Qed.

Lemma wpr_bind_modify {B} (g : S -> S) (f : unit -> ST S B) s R E :
  world_of (g s) = world_of s -> wpr (f tt) (g s) R E -> wpr (modify g ≫= f) s R E.
Proof. intros Hw. unfold wpr, modify, mbind, ST_bind. by rewrite Hw. Qed.

Lemma wp_bind_gets {A B} (g : S -> A) (f : A -> ST S B) s Q E :
  wp (f (g s)) s Q E -> wp (gets g ≫= f) s Q E.
Proof. done. Qed.

Lemma wp_bind_modify {B} (g : S -> S) (f : unit -> ST S B) s Q E :
  world_of (g s) = world_of s -> wp (f tt) (g s) Q E -> wp (modify g ≫= f) s Q E.
Proof. intros Hw. unfold wp, modify, mbind, ST_bind. by rewrite Hw. Qed.

Lemma wp_bind_lift {A B} (r : outcome A) a (f : A -> ST S B) s Q E :
  r = Ok a -> wp (f a) s Q E -> wp (lift r ≫= f) s Q E.
Proof. by intros ->. Qed.

Lemma wp_bind_step {A B} (m : ST S A) (f : A -> ST S B) s a s' Q E :
  m s = (Ok a, s') -> world_of s' = world_of s -> wp (f a) s' Q E -> wp (m ≫= f) s Q E.
Proof. intros Hm Hw. unfold wp, mbind, ST_bind. by rewrite Hm, Hw. Qed.

Lemma wpr_quiet {A} (m : ST S A) s R E :
  wpr m s R E -> quiet (world_of s) ->
  exists r s', m s = (r, s') /\ R r s' /\ quiet (world_of s').
Proof. unfold wpr. destruct (m s) as [r s']. naive_solver. Qed.
End OutcomeRules.

Lemma wpr_zoom {S T A} `{HasWorld S, HasWorld T} (proj : S -> T) (upd : T -> S -> S)
    (m : ST T A) s (R : outcome A -> S -> Prop) (E : S -> Prop) :
  world_of (proj s) = world_of s ->
  (forall t, world_of (upd t s) = world_of t) ->
  wpr m (proj s) (fun a t => R a (upd t s)) (fun t => E (upd t s)) ->
  wpr (zoom proj upd m) s R E.
Proof. intros Hp Hu. unfold wpr, zoom. rewrite Hp. destruct (m (proj s)). by rewrite Hu. Qed.

Lemma wpr_scoped {X A} (x : X) (drp : X -> World -> World) (body : ST (X * World) A) w
    (R : outcome A -> World -> Prop) (E : World -> Prop) :
  (forall x' w', quiet w' -> quiet (drp x' w')) ->
  wpr body (x, w) (fun r s => R r (drp s.1 s.2)) (fun s => E (drp s.1 s.2)) ->
  wpr (scoped x drp body) w R E.
Proof.
  intros Hd. unfold wpr, scoped. destruct (body (x, w)) as [r [x' w']]. simpl.
  intros [[? Hq]|(? & ? & ?)]; [left|right]; split_and!; auto.
  intros Hw. by apply Hd, Hq.
Qed.

(** ** Reading a file of any content *)

Lemma wpr_syscall {A} (act : ST World A) w (R : outcome A -> World -> Prop) (E : World -> Prop) :
  (forall w', files w' = files w -> R (act w').1 (act w').2 /\ faults (act w').2 = faults w') ->
  (forall w', files w' = files w -> E w') -> wpr (syscall act) w R E.
Proof.
  intros HR HE. unfold wpr, syscall. destruct (faults w) as [|[flt|] r] eqn:Hf.
  - destruct (HR w eq_refl) as [H1 H2]. destruct (act w) as [x w1]. cbn [fst snd] in *. left. split; [done|].
    unfold quiet, world_of, World_HasWorld. by rewrite H2.
  - right. split; [eauto|]. split; [by apply HE|]. by eapply not_quiet.
  - destruct (HR (mkWorld (files w) r) eq_refl) as [H1 H2]. destruct (act _) as [x w1]. cbn [fst snd] in *.
    left. split; [done|]. unfold quiet, world_of, World_HasWorld. rewrite H2, Hf. simpl.
    by intros H; inversion H.
Qed.

Definition read_result (n pos : Z) (c : bytes) : outcome bytes :=
  if pos + n <=? len c then Ok (sub pos n c) else Err (Io UnexpectedEof).

Lemma wpr_read_any p f n pos w0 s :
  get_file p w0 = Some f -> at_pos p pos w0 s -> 0 < n ->
  wpr (File.read_exact n) s
    (fun r s' => r = read_result n pos (content f) /\ unchanged p w0 s' /\
       (is_ok r = true -> at_pos p (pos + n) w0 s')) (unchanged p w0).
Proof.
  destruct s as [h w]. intros Hf (Hp & <- & Hw) Hn. cbn [fst snd] in *.
  pose proof (wpr_syscall (fun w => match get_file (File.h_path h) w with
      | None => (Err (Io OtherKind), w) | Some f => (Ok (content f), w) end) w
    (fun r w' => r = Ok (content f) /\ same_files w0 w') (same_files w0)) as H.
  unfold wpr, File.read_exact in *. rewrite (proj2 (Z.leb_gt _ _)) by lia.
  destruct (syscall _ w) as [r w'].
  destruct H as [[[-> H1] H2]|([k ->] & H1 & H2)].
  - intros w1 E. assert (get_file (File.h_path h) w1 = Some f) as ->
      by (rewrite Hp; unfold get_file in *; by rewrite E, Hw).
    split; [|done]. split; [done|]. unfold same_files. simpl. by rewrite E.
  - intros w1 E. unfold same_files. by rewrite E.
  - unfold read_result. destruct (_ <=? _); left; cbn [fst snd]; by split_and!.
  - right. split_and!; [eauto|by split|done].
Qed.

Definition seek_result (target : Z) : outcome unit :=
  if (0 <=? target) && (target <? 2 ^ 63) then Ok tt else Err (Io InvalidInput).

Lemma wpr_seek_any p f target pos w0 s :
  get_file p w0 = Some f -> at_pos p pos w0 s ->
  let off := target s.1 (len (content f)) in
  wpr (File.seek_to target) s
    (fun r s' => r = seek_result off /\ unchanged p w0 s' /\ (is_ok r = true -> at_pos p off w0 s'))
    (unchanged p w0).
Proof.
  destruct s as [h w]. intros Hf (Hp & <- & Hw) off. cbn [fst snd] in *.
  pose proof (wpr_syscall (fun w => match get_file (File.h_path h) w with
      | None => (Err (Io OtherKind), w)
      | Some f => let p := target h (len (content f)) in
          if (0 <=? p) && (p <? 2 ^ 63) then (Ok (tt, p), w) else (Err (Io InvalidInput), w) end) w
    (fun r w' => r = match seek_result off with Ok _ => Ok (tt, off) | Err e => Err e | _ => Panic end /\
       same_files w0 w') (same_files w0)) as H.
  unfold wpr, File.seek_to, File.with_handle in *.
  destruct (syscall _ w) as [r w']. unfold seek_result in *.
  destruct H as [[[-> H1] H2]|([k ->] & H1 & H2)].
  - intros w1 E. assert (get_file (File.h_path h) w1 = Some f) as ->
      by (rewrite Hp; unfold get_file in *; by rewrite E, Hw).
    fold off. cbv zeta. destruct (_ && _); (split; [|done]; split; [done|]); unfold same_files; simpl; by rewrite E.
  - intros w1 E. unfold same_files. by rewrite E.
  - destruct (_ && _); left; cbn [fst snd]; by split_and!.
  - right. split_and!; [eauto|by split|done].
Qed.
