(* ===== verification/Config.v ===== *)
(** Configuration: [src/src/config.rs].  The builder consumes and returns
    itself, so a setter is a function on configurations. *)

From Stdlib Require Import ZArith Lia String.
From stdpp Require Import base strings.
From S2P Require Import Prelude.
Open Scope string_scope.
Open Scope Z_scope.

(** [pub enum WalSyncStrategy]. *)
Inductive WalSyncStrategy :=
| EveryWrite
| EveryNEntries (count : Z).

Module Config.

(** [pub struct Config]. *)
Record t := mk {
  data_dir : string;
  wal_sync_strategy : WalSyncStrategy;
  memtable_size_limit : Z;
  listen_addr : string;
  max_connections : Z;
  read_timeout_ms : Z;
  write_timeout_ms : Z
}.

(** [impl Default for Config]. *)
Definition default : t := mk
  "./atlaskv_data" (EveryNEntries 100) (64 * 1024 * 1024) "127.0.0.1:6379" 1024 30000 30000.

End Config.

Module ConfigBuilder.
Import Config.

(** [pub struct ConfigBuilder]: it holds the configuration built so far. *)
Record t := mk { config : Config.t }.

(** [Config::builder()]. *)
Definition builder : t := mk Config.default.

Definition set_data_dir (path : string) (b : t) : t :=
  let c := config b in
  mk (Config.mk path (wal_sync_strategy c) (memtable_size_limit c) (listen_addr c)
        (max_connections c) (read_timeout_ms c) (write_timeout_ms c)).
Definition set_wal_sync_strategy (strategy : WalSyncStrategy) (b : t) : t :=
  let c := config b in
  mk (Config.mk (data_dir c) strategy (memtable_size_limit c) (listen_addr c)
        (max_connections c) (read_timeout_ms c) (write_timeout_ms c)).
Definition set_memtable_size_limit (size : Z) (b : t) : t :=
  let c := config b in
  mk (Config.mk (data_dir c) (wal_sync_strategy c) size (listen_addr c)
        (max_connections c) (read_timeout_ms c) (write_timeout_ms c)).
Definition set_listen_addr (addr : string) (b : t) : t :=
  let c := config b in
  mk (Config.mk (data_dir c) (wal_sync_strategy c) (memtable_size_limit c) addr
        (max_connections c) (read_timeout_ms c) (write_timeout_ms c)).
Definition set_max_connections (count : Z) (b : t) : t :=
  let c := config b in
  mk (Config.mk (data_dir c) (wal_sync_strategy c) (memtable_size_limit c) (listen_addr c)
        count (read_timeout_ms c) (write_timeout_ms c)).
Definition set_read_timeout_ms (ms : Z) (b : t) : t :=
  let c := config b in
  mk (Config.mk (data_dir c) (wal_sync_strategy c) (memtable_size_limit c) (listen_addr c)
        (max_connections c) ms (write_timeout_ms c)).
Definition set_write_timeout_ms (ms : Z) (b : t) : t :=
  let c := config b in
  mk (Config.mk (data_dir c) (wal_sync_strategy c) (memtable_size_limit c) (listen_addr c)
        (max_connections c) (read_timeout_ms c) ms).

Definition build (b : t) : Config.t := config b.
End ConfigBuilder.
