(* ===== verification/Memtable.v ===== *)
(** The in-memory table of recent writes: [src/src/memtable/{mod,table}.rs].
    Its two locks make each method atomic, so a method is a function on the
    table; [size] is the 64-bit atomic counter with its wrap-around. *)

From Stdlib Require Import ZArith Lia.
From stdpp Require Import base list.
From S2P Require Import Prelude BTreeMap.
Open Scope Z_scope.

(** [pub enum MemTableEntry]. *)
Inductive MemTableEntry :=
| Value (v : bytes)
| Tombstone.

#[export] Instance MemTableEntry_eq_dec : EqDecision MemTableEntry.
Proof. solve_decision. Defined.

Module MemTable.

(** [pub struct MemTable]. *)
Record t := mk {
  data : BTreeMap.t MemTableEntry;
  size : Z
}.

(** [AtomicUsize::fetch_add] / [fetch_sub]. *)
Definition fetch_add (n size : Z) : Z := (size + n) mod 2 ^ 64.
Definition fetch_sub (n size : Z) : Z := (size - n) mod 2 ^ 64.

Definition new : t := mk BTreeMap.empty 0.

Definition get (key : bytes) (m : t) : option MemTableEntry := BTreeMap.get key (data m).

(** Bytes accounted to a binding. *)
Definition footprint (key : bytes) (e : MemTableEntry) : Z :=
  match e with
  | Value v => len key + len v
  | Tombstone => len key
  end.

(** [old_size] of [put] and [delete]: 0 when the key has no binding. *)
Definition old_size (key : bytes) (m : t) : Z :=
  match BTreeMap.get key (data m) with
  | Some entry => footprint key entry
  | None => 0
  end.

(** The update of the counter by a signed difference. *)
Definition apply_delta (new_size old : Z) (size : Z) : Z :=
  let size_delta := as_isize (as_isize new_size - as_isize old) in
  if 0 <? size_delta then fetch_add (as_u64 size_delta) size
  else fetch_sub (as_u64 (as_isize (- size_delta))) size.

Definition put (key value : bytes) (m : t) : Z * t :=
  let entry_size := len key + len value in
  let old := old_size key m in
  let data' := BTreeMap.insert key (Value value) (data m) in
  let size' := apply_delta entry_size old (size m) in
  (size', mk data' size').

Definition delete (key : bytes) (m : t) : Z * t :=
  let old := old_size key m in
  let new_size := len key in
  let data' := BTreeMap.insert key Tombstone (data m) in
  let size' := apply_delta new_size old (size m) in
  (size', mk data' size').

Definition entry_count (m : t) : Z := len (data m).
Definition is_empty (m : t) : bool := entry_count m =? 0.
Definition should_flush (size_limit : Z) (m : t) : bool := size_limit <=? size m.
Definition iter (m : t) : list (bytes * MemTableEntry) := data m.
Definition clear (m : t) : t := mk BTreeMap.empty 0.

(** ** Invariant: sorted bindings, and the counter is the bytes held modulo [2^64] *)

Definition total (d : BTreeMap.t MemTableEntry) : Z :=
  foldr (fun b acc => footprint b.1 b.2 + acc) 0 d.

Definition inv (m : t) : Prop :=
  BTreeMap.wf (data m) /\ size m = total (data m) mod 2 ^ 64.

Create HintDb memtable.

Lemma footprint_nonneg k e : 0 <= footprint k e.
Proof. destruct e; simpl; len_lia. Qed.

Lemma total_nonneg d : 0 <= total d.
Proof. induction d as [|[k e] d IH]; simpl; [lia|]. pose proof (footprint_nonneg k e). lia. Qed.

Lemma total_insert k e d :
  BTreeMap.wf d ->
  total (BTreeMap.insert k e d) =
    total d + footprint k e
      - match BTreeMap.get k d with Some e' => footprint k e' | None => 0 end.
Proof.
  induction d as [|[k' e'] d IH]; intros Hwf; simpl; [lia|].
  apply BTreeMap.wf_cons_inv in Hwf as [Hwf Hall].
  destruct (bytes_cmp_spec k k') as [->|Hlt|Hgt]; simpl; [lia|lia|].
  rewrite IH by done. lia.
Qed.

(** Whatever the branch taken, the counter moves by the exact difference. *)
Lemma apply_delta_mod new_size old size :
  apply_delta new_size old size = (size + new_size - old) mod 2 ^ 64.
Proof.
  unfold apply_delta, fetch_add, fetch_sub, as_u64.
  set (d := as_isize (as_isize new_size - as_isize old)).
  assert (Hd : d mod 2 ^ 64 = (new_size - old) mod 2 ^ 64).
  { unfold d. rewrite as_isize_mod, Zminus_mod, !as_isize_mod. by rewrite <- Zminus_mod. }
  assert (Hgoal : (size + d) mod 2 ^ 64 = (size + new_size - old) mod 2 ^ 64).
  { rewrite Zplus_mod, Hd, <- Zplus_mod. f_equal. lia. }
  rewrite <- Hgoal. destruct (0 <? d).
  - by rewrite Zplus_mod_idemp_r.
  - rewrite as_isize_mod, Zminus_mod_idemp_r. f_equal. lia.
Qed.

Lemma inv_new : inv new.
Proof. split; [apply BTreeMap.wf_nil|done]. Qed.

Lemma inv_clear m : inv (clear m).
Proof. apply inv_new. Qed.

Lemma inv_update k e n m m' :
  inv m -> footprint k e = n ->
  m' = mk (BTreeMap.insert k e (data m)) (apply_delta n (old_size k m) (size m)) ->
  inv m'.
Proof.
  intros [Hwf Hs] Hn ->. split; simpl; [by apply BTreeMap.insert_wf|].
  rewrite apply_delta_mod, Hs, total_insert by done. unfold old_size.
  rewrite Zminus_mod, Zplus_mod_idemp_l, <- Zminus_mod. f_equal. lia.
Qed.

Lemma inv_put k v m : inv m -> inv (put k v m).2.
Proof. intros. eapply (inv_update k (Value v)); done. Qed.

Lemma inv_delete k m : inv m -> inv (delete k m).2.
Proof. intros. eapply (inv_update k Tombstone); done. Qed.

Lemma get_put k0 k v m :
  inv m -> get k0 (put k v m).2 = if decide (k0 = k) then Some (Value v) else get k0 m.
Proof. intros [Hwf _]. by apply BTreeMap.get_insert. Qed.

Lemma get_delete k0 k m :
  inv m -> get k0 (delete k m).2 = if decide (k0 = k) then Some Tombstone else get k0 m.
Proof. intros [Hwf _]. by apply BTreeMap.get_insert. Qed.

Lemma is_empty_data m : is_empty m = true <-> data m = [].
Proof.
  unfold is_empty, entry_count. rewrite Z.eqb_eq. split; [apply len_0_nil|by intros ->].
Qed.

Lemma get_new k : get k new = None.
Proof. done. Qed.

#[export] Hint Resolve inv_new inv_clear inv_put inv_delete : memtable.

End MemTable.
