(* ===== verification/Protocol.v ===== *)
(** The wire protocol: [src/src/protocol/{command,response,codec}.rs].
    Commands, responses, their encodings, and the stream helpers written
    against the [Read] and [Write] traits. *)

From Stdlib Require Import ZArith Lia String.
From coqutil Require Import Byte.
From stdpp Require Import base list strings.
From S2P Require Import Prelude Fmt Errors.
Open Scope string_scope.
Open Scope list_scope.
Open Scope Z_scope.

(** ** Commands and responses *)

Module CommandType.
(** [#[repr(u8)] pub enum CommandType]. *)
Inductive t := Get | Put | Delete | Ping.

Definition as_u8 (c : t) : Init.Byte.byte :=
  match c with Get => Byte.x01 | Put => Byte.x02 | Delete => Byte.x03 | Ping => Byte.x04 end.
End CommandType.

Module Command.
(** [pub enum Command]. *)
Inductive t :=
| Get (key : bytes)
| Put (key value : bytes)
| Delete (key : bytes)
| Ping.

#[global] Instance t_eq_dec : EqDecision t.
Proof. solve_decision. Defined.

Definition command_type (c : t) : CommandType.t :=
  match c with
  | Get _ => CommandType.Get
  | Put _ _ => CommandType.Put
  | Delete _ => CommandType.Delete
  | Ping => CommandType.Ping
  end.
End Command.

Module Status.
(** [#[repr(u8)] pub enum Status]. *)
Inductive t := Ok | NotFound | Error.

Definition as_u8 (s : t) : Init.Byte.byte :=
  match s with Ok => Byte.x00 | NotFound => Byte.x01 | Error => Byte.x02 end.
End Status.

Module Response.
(** [pub struct Response]. *)
Record t := mk { status : Status.t; payload : option bytes }.

Definition ok (payload : option bytes) : t := mk Status.Ok payload.
Definition not_found : t := mk Status.NotFound None.
Definition error (message : string) : t := mk Status.Error (Some (bytes_of_string message)).
End Response.

(** ** The [Read] and [Write] traits

    [read_exact] and [write_all]/[flush] are what the codec uses of them. *)

Class Read (R : Type) := read_exact : Z -> ST R bytes.

Class Write (W : Type) := {
  write_all : bytes -> ST W unit;
  flush : ST W unit
}.

(** What the codec relies on: [read_exact] consumes the next [n] bytes the peer
    sent, or fails with an I/O error when fewer will ever arrive. *)
Class ReadLaws (R : Type) `{Read R} := {
  incoming : R -> bytes;
  read_exact_enough : forall n r, 0 <= n <= len (incoming r) ->
    exists r', read_exact n r = (Ok (ztake n (incoming r)), r') /\
      incoming r' = zdrop n (incoming r);
  read_exact_short : forall n r, len (incoming r) < n ->
    exists k r', read_exact n r = (Err (Io k), r')
}.

(** What the codec relies on: a successful [write_all] hands over exactly its
    argument, and a successful [flush] changes nothing of what was handed over. *)
Class WriteLaws (W : Type) `{Write W} := {
  outgoing : W -> bytes;
  write_all_sent : forall bs w w', write_all bs w = (Ok tt, w') ->
    outgoing w' = outgoing w ++ bs;
  flush_sent : forall w w', flush w = (Ok tt, w') -> outgoing w' = outgoing w
}.

Module Codec.

(** [HEADER_SIZE] and [MAX_PAYLOAD_SIZE]. *)
Definition HEADER_SIZE : Z := 5.
Definition MAX_PAYLOAD_SIZE : Z := 16 * 1024 * 1024.

(** [u32::from_be_bytes([bs[i], bs[i+1], bs[i+2], bs[i+3]]) as usize]. *)
Definition u32_be_at (i : Z) (bs : bytes) : outcome Z :=
  b0 ← index i bs; b1 ← index (i + 1) bs; b2 ← index (i + 2) bs; b3 ← index (i + 3) bs;
  mret (from_be [b0; b1; b2; b3]).

(** *** Commands *)

Definition command_payload (command : Command.t) : bytes :=
  match command with
  | Command.Get key => to_be 4 (as_u32 (len key)) ++ key
  | Command.Put key value => to_be 4 (as_u32 (len key)) ++ key ++ value
  | Command.Delete key => to_be 4 (as_u32 (len key)) ++ key
  | Command.Ping => []
  end.

Definition encode_command (command : Command.t) : bytes :=
  let cmd_type := CommandType.as_u8 (Command.command_type command) in
  let payload := command_payload command in
  [cmd_type] ++ to_be 4 (as_u32 (len payload)) ++ payload.

Definition decode_get_command (payload : bytes) : outcome Command.t :=
  if len payload <? 4 then Err (Protocol "GET command: missing key length")
  else
    key_len ← u32_be_at 0 payload;
    if len payload <? 4 + key_len then
      Err (Protocol ("GET command: incomplete key (expected " +:+ dec key_len +:+
                     ", got " +:+ dec (len payload - 4) +:+ ")"))
    else key ← slice 4 (4 + key_len) payload; mret (Command.Get key).

Definition decode_put_command (payload : bytes) : outcome Command.t :=
  if len payload <? 4 then Err (Protocol "PUT command: missing key length")
  else
    key_len ← u32_be_at 0 payload;
    if len payload <? 4 + key_len then
      Err (Protocol ("PUT command: incomplete key (expected " +:+ dec key_len +:+
                     ", got " +:+ dec (len payload - 4) +:+ ")"))
    else
      key ← slice 4 (4 + key_len) payload;
      value ← slice (4 + key_len) (len payload) payload;
      mret (Command.Put key value).

Definition decode_delete_command (payload : bytes) : outcome Command.t :=
  if len payload <? 4 then Err (Protocol "DELETE command: missing key length")
  else
    key_len ← u32_be_at 0 payload;
    if len payload <? 4 + key_len then
      Err (Protocol ("DELETE command: incomplete key (expected " +:+ dec key_len +:+
                     ", got " +:+ dec (len payload - 4) +:+ ")"))
    else key ← slice 4 (4 + key_len) payload; mret (Command.Delete key).

Definition decode_ping_command (payload : bytes) : outcome Command.t :=
  if negb (len payload =? 0) then
    Err (Protocol ("PING command: unexpected payload of " +:+ dec (len payload) +:+ " bytes"))
  else mret Command.Ping.

(** The [match cmd_type] of [decode_command]. *)
Definition decode_by_type (cmd_type : Init.Byte.byte) (payload : bytes) : outcome Command.t :=
  match byte.unsigned cmd_type with
  | 1 => decode_get_command payload
  | 2 => decode_put_command payload
  | 3 => decode_delete_command payload
  | 4 => decode_ping_command payload
  | c => Err (Protocol ("Unknown command type: 0x" +:+ hex02 c))
  end.

Definition decode_command (bs : bytes) : outcome Command.t :=
  if len bs <? HEADER_SIZE then
    Err (Protocol ("Incomplete header: expected " +:+ dec HEADER_SIZE +:+ " bytes, got " +:+
                   dec (len bs)))
  else
    cmd_type ← index 0 bs;
    payload_len ← u32_be_at 1 bs;
    if MAX_PAYLOAD_SIZE <? payload_len then
      Err (Protocol ("Payload too large: " +:+ dec payload_len +:+ " bytes (max " +:+
                     dec MAX_PAYLOAD_SIZE +:+ ")"))
    else
      let total_len := HEADER_SIZE + payload_len in
      if len bs <? total_len then
        Err (Protocol ("Incomplete payload: expected " +:+ dec total_len +:+ " bytes, got " +:+
                       dec (len bs)))
      else
        payload ← slice HEADER_SIZE total_len bs;
        decode_by_type cmd_type payload.

(** *** Responses *)

Definition encode_response (response : Response.t) : bytes :=
  let payload := default [] (Response.payload response) in
  [Status.as_u8 (Response.status response)] ++ to_be 4 (as_u32 (len payload)) ++ payload.

Definition status_of_byte (status_byte : Init.Byte.byte) : outcome Status.t :=
  match byte.unsigned status_byte with
  | 0 => mret Status.Ok
  | 1 => mret Status.NotFound
  | 2 => mret Status.Error
  | c => Err (Protocol ("Unknown response status: 0x" +:+ hex02 c))
  end.

Definition decode_response (bs : bytes) : outcome Response.t :=
  if len bs <? HEADER_SIZE then
    Err (Protocol ("Incomplete response header: expected " +:+ dec HEADER_SIZE +:+
                   " bytes, got " +:+ dec (len bs)))
  else
    status_byte ← index 0 bs;
    payload_len ← u32_be_at 1 bs;
    if MAX_PAYLOAD_SIZE <? payload_len then
      Err (Protocol ("Response payload too large: " +:+ dec payload_len +:+ " bytes (max " +:+
                     dec MAX_PAYLOAD_SIZE +:+ ")"))
    else
      let total_len := HEADER_SIZE + payload_len in
      if len bs <? total_len then
        Err (Protocol ("Incomplete response payload: expected " +:+ dec total_len +:+
                       " bytes, got " +:+ dec (len bs)))
      else
        status ← status_of_byte status_byte;
        payload ← (if 0 <? payload_len then
                     p ← slice HEADER_SIZE total_len bs; mret (Some p)
                   else mret None);
        mret (Response.mk status payload).

(** *** Streams *)

Section Streams.
Context {R : Type} `{Read R} {W : Type} `{Write W}.

Definition read_command : ST R Command.t :=
  header ← read_exact HEADER_SIZE;
  payload_len ← lift (u32_be_at 1 header);
  if MAX_PAYLOAD_SIZE <? payload_len then
    fail (Protocol ("Payload too large: " +:+ dec payload_len +:+ " bytes (max " +:+
                    dec MAX_PAYLOAD_SIZE +:+ ")"))
  else
    payload ← (if 0 <? payload_len then read_exact payload_len else mret []);
    lift (decode_command (header ++ payload)).

Definition write_command (command : Command.t) : ST W unit :=
  _ ← write_all (encode_command command);
  flush.

Definition read_response : ST R Response.t :=
  header ← read_exact HEADER_SIZE;
  payload_len ← lift (u32_be_at 1 header);
  if MAX_PAYLOAD_SIZE <? payload_len then
    fail (Protocol ("Response payload too large: " +:+ dec payload_len +:+ " bytes (max " +:+
                    dec MAX_PAYLOAD_SIZE +:+ ")"))
  else
    payload ← (if 0 <? payload_len then read_exact payload_len else mret []);
    lift (decode_response (header ++ payload)).

Definition write_response (response : Response.t) : ST W unit :=
  _ ← write_all (encode_response response);
  flush.
End Streams.

(** *** Field access never panics inside its bounds *)

Lemma sub_byte i bs b : index i bs = Ok b -> sub i 1 bs = [b].
Proof.
  unfold index, sub. destruct (zdrop i bs) as [|b' bs']; [done|].
  destruct (0 <=? i); [|done]. intros [= ->]. by unfold ztake.
Qed.

Lemma sub_split {A} i n (l : list A) :
  0 <= i -> 0 <= n -> sub i (1 + n) l = sub i 1 l ++ sub (i + 1) n l.
Proof.
  intros Hi Hn. unfold sub. rewrite <- zdrop_zdrop by lia.
  destruct (zdrop i l) as [|x l']; unfold ztake, zdrop.
  - by rewrite ?drop_nil, ?take_nil.
  - replace (Z.to_nat (1 + n)) with (S (Z.to_nat n)) by lia. done.
Qed.

Lemma u32_be_at_sub i bs :
  0 <= i -> i + 4 <= len bs -> u32_be_at i bs = Ok (from_be (sub i 4 bs)).
Proof.
  intros Hi Hl. unfold u32_be_at.
  destruct (index_ok i bs) as (b0 & -> & E0); [lia|].
  destruct (index_ok (i + 1) bs) as (b1 & -> & E1); [lia|].
  destruct (index_ok (i + 2) bs) as (b2 & -> & E2); [lia|].
  destruct (index_ok (i + 3) bs) as (b3 & -> & E3); [lia|].
  simpl. unfold mret, outcome_ret. repeat f_equal.
  rewrite (sub_split i 3), (sub_split (i + 1) 2), (sub_split (i + 1 + 1) 1) by lia.
  replace (i + 1 + 1) with (i + 2) by lia. replace (i + 2 + 1) with (i + 3) by lia.
  by rewrite E0, E1, E2, E3.
Qed.

Lemma u32_be_at_bound i bs n : u32_be_at i bs = Ok n -> 0 <= n < 2 ^ 32.
Proof.
  unfold u32_be_at. intros (b0 & _ & H)%obind_ok_inv. revert H.
  intros (b1 & _ & H)%obind_ok_inv. revert H.
  intros (b2 & _ & H)%obind_ok_inv. revert H.
  intros (b3 & _ & H)%obind_ok_inv. injection H as <-.
  by apply (from_be_bound 4).
Qed.

(** A length field written at [i] is read back. *)
Lemma u32_be_at_app i a n c :
  i = len a -> 0 <= n < 2 ^ 32 -> u32_be_at i (a ++ to_be 4 (as_u32 n) ++ c) = Ok n.
Proof.
  intros -> Hn. rewrite u32_be_at_sub by len_lia.
  rewrite sub_app_exact by len_lia.
  by rewrite as_u32_small, from_to_be_small by done.
Qed.

(** The payload a decoder accepts is at most [MAX_PAYLOAD_SIZE] bytes. *)
Definition fits (c : Command.t) : Prop :=
  len (command_payload c) <= MAX_PAYLOAD_SIZE.

Lemma command_payload_len c :
  len (command_payload c) =
    match c with
    | Command.Get k | Command.Delete k => 4 + len k
    | Command.Put k v => 4 + len k + len v
    | Command.Ping => 0
    end.
Proof. destruct c; unfold command_payload; len_lia. Qed.

(** Reading the key of a payload of the form [key_len ++ key ++ rest]. *)
Lemma decode_key key rest :
  len key < 2 ^ 32 ->
  let p := to_be 4 (as_u32 (len key)) ++ key ++ rest in
  4 <= len p /\ u32_be_at 0 p = Ok (len key) /\ 4 + len key <= len p /\
  slice 4 (4 + len key) p = Ok key /\ slice (4 + len key) (len p) p = Ok rest.
Proof.
  intros Hk p. unfold p. split_and!; try len_lia.
  - apply (u32_be_at_app 0 []); len_lia.
  - apply slice_app; len_lia.
  - rewrite app_assoc. apply slice_app_end; len_lia.
Qed.

Lemma decode_by_type_encode c :
  fits c -> decode_by_type (CommandType.as_u8 (Command.command_type c)) (command_payload c) = Ok c.
Proof.
  unfold fits. rewrite command_payload_len. unfold MAX_PAYLOAD_SIZE. intros Hf.
  destruct c as [k|k v|k|]; [| | |done];
    unfold command_payload; cbn [Command.command_type CommandType.as_u8].
  - change (decode_by_type Byte.x01 ?p) with (decode_get_command p).
    pose proof (decode_key k [] ltac:(len_lia)) as D. rewrite app_nil_r in D.
    destruct D as (H1 & H2 & H3 & H4 & _). unfold decode_get_command.
    rewrite (proj2 (Z.ltb_ge _ _) H1), H2, obind_Ok.
    by rewrite (proj2 (Z.ltb_ge _ _) H3), H4.
  - change (decode_by_type Byte.x02 ?p) with (decode_put_command p).
    pose proof (decode_key k v ltac:(len_lia)) as D.
    destruct D as (H1 & H2 & H3 & H4 & H5). unfold decode_put_command.
    rewrite (proj2 (Z.ltb_ge _ _) H1), H2, obind_Ok.
    by rewrite (proj2 (Z.ltb_ge _ _) H3), H4, H5.
  - change (decode_by_type Byte.x03 ?p) with (decode_delete_command p).
    pose proof (decode_key k [] ltac:(len_lia)) as D. rewrite app_nil_r in D.
    destruct D as (H1 & H2 & H3 & H4 & _). unfold decode_delete_command.
    rewrite (proj2 (Z.ltb_ge _ _) H1), H2, obind_Ok.
    by rewrite (proj2 (Z.ltb_ge _ _) H3), H4.
Qed.

(** The frame shared by both directions: tag, length, payload. *)
Lemma frame_fields tag payload rest :
  len payload <= MAX_PAYLOAD_SIZE ->
  let f := [tag] ++ to_be 4 (as_u32 (len payload)) ++ payload ++ rest in
  HEADER_SIZE + len payload <= len f /\
  index 0 f = Ok tag /\ u32_be_at 1 f = Ok (len payload) /\
  slice HEADER_SIZE (HEADER_SIZE + len payload) f = Ok payload.
Proof.
  intros Hl f. subst f. unfold HEADER_SIZE, MAX_PAYLOAD_SIZE in *. split_and!; try len_lia.
  - done.
  - apply (u32_be_at_app 1 [tag]); len_lia.
  - rewrite (app_assoc [tag]). apply slice_app; len_lia.
Qed.

Lemma decode_encode_command c rest :
  fits c -> decode_command (encode_command c ++ rest) = Ok c.
Proof.
  intros Hf. unfold encode_command. rewrite <- !app_assoc.
  destruct (frame_fields (CommandType.as_u8 (Command.command_type c)) (command_payload c) rest Hf)
    as (H1 & H2 & H3 & H4).
  unfold decode_command. unfold HEADER_SIZE in *.
  rewrite (proj2 (Z.ltb_ge _ 5)), H2, obind_Ok, H3, obind_Ok by (pose_len; lia).
  rewrite (proj2 (Z.ltb_ge MAX_PAYLOAD_SIZE _)) by (unfold fits in Hf; lia).
  rewrite (proj2 (Z.ltb_ge _ (5 + _))), H4, obind_Ok by lia. by apply decode_by_type_encode.
Qed.

Lemma decode_encode_response st p rest :
  len (default [] p) <= MAX_PAYLOAD_SIZE ->
  decode_response (encode_response (Response.mk st p) ++ rest) =
    Ok (Response.mk st (match p with Some [] => None | _ => p end)).
Proof.
  intros Hf. unfold encode_response. cbn [Response.status Response.payload].
  rewrite <- !app_assoc.
  destruct (frame_fields (Status.as_u8 st) (default [] p) rest Hf) as (H1 & H2 & H3 & H4).
  unfold decode_response. unfold HEADER_SIZE in *.
  rewrite (proj2 (Z.ltb_ge _ 5)), H2, obind_Ok, H3, obind_Ok by (pose_len; lia).
  rewrite (proj2 (Z.ltb_ge MAX_PAYLOAD_SIZE _)) by lia.
  rewrite (proj2 (Z.ltb_ge _ (5 + _))), H4 by lia.
  replace (status_of_byte (Status.as_u8 st)) with (Ok st) by (by destruct st).
  rewrite obind_Ok. destruct p as [[|b p]|]; [done| |done]. simpl default.
  rewrite (proj2 (Z.ltb_lt 0 _)) by len_lia. done.
Qed.

(** *** Totality and bounds of the decoders *)

Lemma decode_key_returns payload :
  4 <= len payload ->
  exists n, u32_be_at 0 payload = Ok n /\ 0 <= n /\
    (4 + n <= len payload ->
       slice 4 (4 + n) payload = Ok (sub 4 n payload) /\
       slice (4 + n) (len payload) payload = Ok (sub (4 + n) (len payload - (4 + n)) payload)).
Proof.
  intros Hl. rewrite u32_be_at_sub by lia. eexists; split; [done|].
  pose proof (from_be_bound 4 (sub 0 4 payload)) as B.
  rewrite len_sub in B by lia. specialize (B eq_refl). split; [lia|].
  intros Hn. rewrite !slice_ok by lia. split; [|done].
  do 2 f_equal. lia.
Qed.

(** What a decoder may answer on a payload: a command no larger than the
    payload it came from, or a protocol error; never a panic. *)
Definition decoded_within (n : Z) (r : outcome Command.t) : Prop :=
  match r with
  | Ok c => len (command_payload c) <= n
  | Err (Protocol _) => True
  | _ => False
  end.

Lemma decode_by_type_within t payload : decoded_within (len payload) (decode_by_type t payload).
Proof.
  unfold decode_by_type.
  assert (Hget : decoded_within (len payload) (decode_get_command payload)).
  { unfold decode_get_command. destruct (Z.ltb_spec (len payload) 4); [done|].
    destruct (decode_key_returns payload) as (n & -> & Hn & Hs); [lia|]. rewrite obind_Ok.
    destruct (Z.ltb_spec (len payload) (4 + n)); [done|]. destruct Hs as [-> _]; [lia|].
    rewrite !obind_Ok. unfold mret, outcome_ret, decoded_within.
    rewrite command_payload_len, len_sub by lia. lia. }
  assert (Hdel : decoded_within (len payload) (decode_delete_command payload)).
  { unfold decode_delete_command. destruct (Z.ltb_spec (len payload) 4); [done|].
    destruct (decode_key_returns payload) as (n & -> & Hn & Hs); [lia|]. rewrite obind_Ok.
    destruct (Z.ltb_spec (len payload) (4 + n)); [done|]. destruct Hs as [-> _]; [lia|].
    rewrite !obind_Ok. unfold mret, outcome_ret, decoded_within.
    rewrite command_payload_len, len_sub by lia. lia. }
  assert (Hput : decoded_within (len payload) (decode_put_command payload)).
  { unfold decode_put_command. destruct (Z.ltb_spec (len payload) 4); [done|].
    destruct (decode_key_returns payload) as (n & -> & Hn & Hs); [lia|]. rewrite obind_Ok.
    destruct (Z.ltb_spec (len payload) (4 + n)); [done|]. destruct Hs as [-> ->]; [lia|].
    rewrite !obind_Ok. unfold mret, outcome_ret, decoded_within.
    rewrite command_payload_len, !len_sub by lia. lia. }
  assert (Hping : decoded_within (len payload) (decode_ping_command payload)).
  { unfold decode_ping_command. destruct (len payload =? 0) eqn:E; [|done].
    unfold decoded_within; simpl negb; cbv beta iota. unfold mret, outcome_ret. rewrite command_payload_len. len_lia. }
  repeat (case_match; try done).
Qed.

Lemma decode_command_within bs : decoded_within MAX_PAYLOAD_SIZE (decode_command bs).
Proof.
  unfold decode_command, HEADER_SIZE. destruct (Z.ltb_spec (len bs) 5); [done|].
  destruct (index_ok 0 bs) as (t & -> & _); [lia|]. rewrite obind_Ok.
  rewrite u32_be_at_sub, obind_Ok by lia. set (n := from_be (sub 1 4 bs)).
  assert (0 <= n) by (apply (from_be_bound 4); by apply len_sub; lia).
  destruct (Z.ltb_spec MAX_PAYLOAD_SIZE n); [done|].
  destruct (Z.ltb_spec (len bs) (5 + n)); [done|].
  rewrite slice_ok, obind_Ok by lia.
  pose proof (decode_by_type_within t (sub 5 (5 + n - 5) bs)) as D.
  rewrite len_sub in D by lia.
  unfold decoded_within in *. repeat case_match; try done. lia.
Qed.

Lemma decode_response_returns bs : returns (decode_response bs).
Proof.
  unfold decode_response, HEADER_SIZE. destruct (Z.ltb_spec (len bs) 5); [done|].
  destruct (index_ok 0 bs) as (t & -> & _); [lia|]. rewrite obind_Ok.
  rewrite u32_be_at_sub, obind_Ok by lia. set (n := from_be (sub 1 4 bs)).
  destruct (Z.ltb_spec MAX_PAYLOAD_SIZE n); [done|].
  destruct (Z.ltb_spec (len bs) (5 + n)); [done|].
  apply obind_returns; [unfold status_of_byte; by repeat case_match|]. intros s _.
  destruct (Z.ltb_spec 0 n); [|done]. by rewrite slice_ok by lia.
Qed.

(** *** The stream reader *)

Section StreamFacts.
Context {R : Type} `{ReadLaws R}.

(** The complete frame at the front of [bs]: its length, if the header and the
    announced payload have arrived and the payload is not oversized. *)
Definition frame_len (bs : bytes) : option Z :=
  if len bs <? HEADER_SIZE then None
  else
    let n := from_be (sub 1 4 bs) in
    if (n <=? MAX_PAYLOAD_SIZE) && (HEADER_SIZE + n <=? len bs) then Some (HEADER_SIZE + n)
    else None.

Lemma frame_len_bounds bs m :
  frame_len bs = Some m ->
  HEADER_SIZE <= m <= len bs /\ m - 5 <= MAX_PAYLOAD_SIZE /\ m = 5 + from_be (sub 1 4 bs).
Proof.
  unfold frame_len, HEADER_SIZE. destruct (Z.ltb_spec (len bs) 5); [done|].
  assert (0 <= from_be (sub 1 4 bs)) by (apply (from_be_bound 4); by apply len_sub; lia).
  destruct (_ && _) eqn:E; [|done]. intros [= <-].
  apply andb_true_iff in E as [?%Z.leb_le ?%Z.leb_le]. lia.
Qed.

(** Both ways of decoding see the same frame. *)
Lemma decode_command_ztake bs m :
  frame_len bs = Some m -> decode_command (ztake m bs) = decode_command bs.
Proof.
  intros Hf. pose proof (frame_len_bounds _ _ Hf) as ([Hlo Hhi] & Hmax & Hm). unfold HEADER_SIZE in Hlo.
  assert (Hlen : len (ztake m bs) = m) by (apply len_ztake; lia).
  rewrite <- (ztake_zdrop m bs) at 2. set (a := ztake m bs) in *. set (b := zdrop m bs) in *.
  assert (Ea : sub 1 4 (a ++ b) = sub 1 4 a) by (apply sub_app_l; lia).
  rewrite <- (ztake_zdrop m bs) in Hm. fold a b in Hm. rewrite Ea in Hm.
  unfold decode_command, HEADER_SIZE.
  rewrite !(proj2 (Z.ltb_ge _ 5)) by len_lia.
  assert (Ei : index 0 (a ++ b) = index 0 a).
  { destruct (index_ok 0 a) as (x & E1 & S1); [lia|]. rewrite E1.
    destruct (index_ok 0 (a ++ b)) as (y & E2 & S2); [len_lia|]. rewrite E2.
    rewrite sub_app_l in S2 by lia. congruence. }
  rewrite Ei, !u32_be_at_sub, Ea by len_lia.
  destruct (index 0 a); [|done..]. rewrite !obind_Ok.
  destruct (_ <? from_be _); [done|].
  rewrite !(proj2 (Z.ltb_ge _ (5 + from_be _))) by len_lia.
  rewrite !slice_ok by len_lia. by rewrite sub_app_l by len_lia.
Qed.

(** Both stream readers: the header, the announced payload, then the decoder. *)
Lemma read_frame {A} (too_large : Z -> AtlasError) (decode : bytes -> outcome A) r m :
  frame_len (incoming r) = Some m ->
  exists r',
    (header ← read_exact HEADER_SIZE;
     payload_len ← lift (u32_be_at 1 header);
     if MAX_PAYLOAD_SIZE <? payload_len then fail (too_large payload_len)
     else
       payload ← (if 0 <? payload_len then read_exact payload_len else mret []);
       lift (decode (header ++ payload))) r = (decode (ztake m (incoming r)), r') /\
    incoming r' = zdrop m (incoming r).
Proof.
  intros Hf. pose proof (frame_len_bounds _ _ Hf) as ([Hlo Hhi] & Hmax & Hm).
  set (bs := incoming r) in *.
  destruct (read_exact_enough HEADER_SIZE r) as (r1 & E1 & I1); [unfold HEADER_SIZE in *; fold bs; lia|].
  fold bs in E1, I1. rewrite (bind_ok _ _ _ _ _ E1).
  assert (Hh : sub 1 4 (ztake HEADER_SIZE bs) = sub 1 4 bs).
  { rewrite <- (ztake_zdrop HEADER_SIZE bs) at 2. symmetry. apply sub_app_l; [lia..|].
    rewrite len_ztake by (unfold HEADER_SIZE in *; lia). unfold HEADER_SIZE; lia. }
  assert (Hu : u32_be_at 1 (ztake HEADER_SIZE bs) = Ok (m - 5)).
  { rewrite u32_be_at_sub; [rewrite Hh; f_equal; lia|lia|].
    rewrite len_ztake; unfold HEADER_SIZE in *; lia. }
  rewrite (bind_ok _ _ r1 (m - 5) r1) by (unfold lift; by rewrite Hu).
  rewrite (proj2 (Z.ltb_ge _ _) Hmax).
  assert (Hfull : ztake HEADER_SIZE bs ++ ztake (m - 5) (zdrop HEADER_SIZE bs) = ztake m bs).
  { unfold ztake, zdrop. rewrite take_take_drop. f_equal. unfold HEADER_SIZE in *. lia. }
  destruct (Z.ltb_spec 0 (m - 5)).
  - destruct (read_exact_enough (m - 5) r1) as (r2 & E2 & I2).
    { rewrite I1, len_zdrop; unfold HEADER_SIZE in *; lia. }
    rewrite (bind_ok _ _ _ _ _ E2), I1, Hfull. eexists; split; [done|].
    rewrite I2, I1, zdrop_zdrop by (unfold HEADER_SIZE; lia). f_equal. unfold HEADER_SIZE; lia.
  - exists r1. unfold mbind, ST_bind, mret, ST_ret, lift. rewrite app_nil_r.
    replace m with HEADER_SIZE by (unfold HEADER_SIZE in *; lia). done.
Qed.

Lemma read_command_frame r m :
  frame_len (incoming r) = Some m ->
  exists r', read_command r = (decode_command (incoming r), r') /\
    incoming r' = zdrop m (incoming r).
Proof.
  intros Hf. rewrite <- (decode_command_ztake _ _ Hf). by apply (read_frame _ decode_command).
Qed.

(** Frames the encoders write. *)
Lemma frame_len_fields tag payload rest :
  len payload <= MAX_PAYLOAD_SIZE ->
  frame_len ([tag] ++ to_be 4 (as_u32 (len payload)) ++ payload ++ rest) = Some (HEADER_SIZE + len payload).
Proof.
  intros Hf. destruct (frame_fields tag payload rest Hf) as (H1 & H2 & H3 & H4).
  rewrite u32_be_at_sub in H3 by (unfold HEADER_SIZE in *; pose_len; lia).
  apply Ok_inj in H3. unfold frame_len, HEADER_SIZE in *. rewrite H3.
  rewrite (proj2 (Z.ltb_ge _ 5)) by (pose_len; lia).
  rewrite (proj2 (Z.leb_le _ MAX_PAYLOAD_SIZE)) by lia.
  by rewrite (proj2 (Z.leb_le _ _) H1).
Qed.

Lemma frame_len_encode c rest :
  fits c -> frame_len (encode_command c ++ rest) = Some (len (encode_command c)).
Proof.
  intros Hf. unfold encode_command. rewrite <- !app_assoc, frame_len_fields by done.
  unfold HEADER_SIZE. f_equal. len_lia.
Qed.

Lemma read_response_frame r st p rest :
  len (default [] p) <= MAX_PAYLOAD_SIZE -> incoming r = encode_response (Response.mk st p) ++ rest ->
  exists r', read_response r = (Ok (Response.mk st (match p with Some [] => None | _ => p end)), r') /\
    incoming r' = rest.
Proof.
  intros Hp Hin. set (m := len (encode_response (Response.mk st p))).
  assert (Hf : frame_len (incoming r) = Some m).
  { rewrite Hin. unfold m, encode_response. cbn [Response.status Response.payload].
    rewrite <- !app_assoc, frame_len_fields by done. unfold HEADER_SIZE. f_equal. len_lia. }
  pose proof (decode_encode_response st p [] Hp) as Hd. rewrite app_nil_r in Hd. rewrite <- Hd.
  assert (Ht : ztake m (incoming r) = encode_response (Response.mk st p)) by (rewrite Hin; by apply ztake_app_exact).
  assert (Hz : zdrop m (incoming r) = rest) by (rewrite Hin; by apply zdrop_app_exact).
  rewrite <- Ht, <- Hz. by apply (read_frame _ decode_response).
Qed.
End StreamFacts.

End Codec.
