(* ===== verification/Wal.v ===== *)
(** The write-ahead log: [src/src/wal/{entry,reader,writer,recovery}.rs].

    [bincode] and [crc32fast] are other crates: their functions are parameters
    (the classes [Bincode] and [Crc32]) and the documented facts the log relies
    on are the hypotheses [BincodeOk] and [Crc32Ok].  The clock reading of
    [SystemTime::now()] is the argument [now], in milliseconds since the epoch. *)

From Stdlib Require Import ZArith Lia String.
From coqutil Require Import Byte.
From stdpp Require Import base gmap list strings.
From S2P Require Import Prelude Fmt Errors World WorldFacts Config.
Open Scope string_scope.
Open Scope list_scope.
Open Scope Z_scope.

(** ** [crc32fast] *)

Class Crc32 := {
  crc_hash : bytes -> Z;                       (** [crc32fast::hash] *)
  Hasher : Type;                               (** [crc32fast::Hasher] *)
  hasher_new : Hasher;
  hasher_update : bytes -> Hasher -> Hasher;
  hasher_finalize : Hasher -> Z
}.

Class Crc32Ok `{Crc32} : Prop := {
  crc_range : forall bs, 0 <= crc_hash bs < 2 ^ 32;
  hasher_hash : forall chunks,
    hasher_finalize (foldl (fun h c => hasher_update c h) hasher_new chunks) =
    crc_hash (concat chunks)
}.

(** ** Entries *)

Module Operation.
(** [pub enum Operation]. *)
Inductive t :=
| Put (key value : bytes)
| Delete (key : bytes).

#[global] Instance t_eq_dec : EqDecision t.
Proof. solve_decision. Defined.
End Operation.

Module WalEntry.

(** [pub const HEADER_SIZE: usize]. *)
Definition HEADER_SIZE : Z := 16.

(** [pub struct WalEntry]. *)
Record t := mk { lsn : Z; operation : Operation.t; timestamp : Z }.

#[global] Instance t_eq_dec : EqDecision t.
Proof. solve_decision. Defined.

(** The values the Rust type can hold: two [u64]s, and vectors of at most
    [isize::MAX] bytes. *)
Definition valid_op (op : Operation.t) : Prop :=
  match op with
  | Operation.Put key value => len key < 2 ^ 63 /\ len value < 2 ^ 63
  | Operation.Delete key => len key < 2 ^ 63
  end.

Definition valid (e : t) : Prop :=
  0 <= lsn e < 2 ^ 64 /\ 0 <= timestamp e < 2 ^ 64 /\ valid_op (operation e).

(** [bincode::{serialize, deserialize, serialized_size}] at this type; the left
    component is the text of the error. *)
Class Bincode := {
  bincode_serialize : t -> string + bytes;
  bincode_deserialize : bytes -> string + t;
  bincode_serialized_size : t -> string + Z
}.

(** Length of the encoding: fixed-width integers, a [u32] variant index, and a
    [u64] length before each byte vector. *)
Definition encoded_size (e : t) : Z :=
  8 + 4 + match operation e with
          | Operation.Put key value => 8 + len key + (8 + len value)
          | Operation.Delete key => 8 + len key
          end + 8.

Class BincodeOk `{Bincode} : Prop := {
  bincode_total : forall e, valid e -> exists bs, bincode_serialize e = inr bs;
  bincode_size : forall e bs, bincode_serialize e = inr bs -> len bs = encoded_size e;
  bincode_roundtrip : forall e bs, valid e -> bincode_serialize e = inr bs ->
    bincode_deserialize bs = inr e;
  bincode_size_agrees : forall e bs, bincode_serialize e = inr bs ->
    bincode_serialized_size e = inr (len bs)
}.

Section Entry.
Context `{Crc32} `{Bincode}.

(** [WalEntry::new]; a clock before the epoch panics ([unwrap]). *)
Definition new (lsn : Z) (operation : Operation.t) (now : Z) : outcome t :=
  if now <? 0 then Panic else Ok (mk lsn operation (as_u64 now)).

(** The buffer the checksum is computed over. *)
Definition crc_buffer (lsn data_len : Z) (data : bytes) : bytes :=
  to_le 8 lsn ++ to_le 4 data_len ++ data.

Definition serialize (e : t) : outcome bytes :=
  match bincode_serialize e with
  | inl m => Err (Serialization ("Failed to serialize WAL entry: " +:+ m))
  | inr data =>
      let data_len := as_u32 (len data) in
      let crc := crc_hash (crc_buffer (lsn e) data_len data) in
      Ok (to_le 8 (lsn e) ++ to_le 4 crc ++ to_le 4 data_len ++ data)
  end.

Definition deserialize (bs : bytes) : outcome t :=
  if len bs <? HEADER_SIZE then
    Err (WalCorruption ("Entry too small: " +:+ dec (len bs) +:+
                        " bytes, expected at least " +:+ dec HEADER_SIZE))
  else
    b_lsn ← slice 0 8 bs;
    let lsn_h := from_le b_lsn in
    b_crc ← slice 8 12 bs;
    let stored_crc := from_le b_crc in
    b_len ← slice 12 16 bs;
    let data_len := from_le b_len in
    let expected_size := HEADER_SIZE + data_len in
    if len bs <? expected_size then
      Err (WalCorruption ("Entry truncated: " +:+ dec (len bs) +:+ " bytes, expected " +:+
                          dec expected_size))
    else
      data ← slice HEADER_SIZE (HEADER_SIZE + data_len) bs;
      let computed_crc := crc_hash (crc_buffer lsn_h (as_u32 data_len) data) in
      if negb (computed_crc =? stored_crc) then
        Err (WalCorruption ("CRC mismatch for LSN " +:+ dec lsn_h +:+ ": stored=" +:+
                            hex0x stored_crc +:+ ", computed=" +:+ hex0x computed_crc))
      else
        match bincode_deserialize data with
        | inl m => Err (WalCorruption ("Failed to deserialize WAL entry: " +:+ m))
        | inr entry =>
            if negb (lsn entry =? lsn_h) then
              Err (WalCorruption ("LSN mismatch: header=" +:+ dec lsn_h +:+ ", data=" +:+
                                  dec (lsn entry)))
            else Ok entry
        end.

Definition serialized_size (e : t) : outcome Z :=
  match bincode_serialized_size e with
  | inl m => Err (Serialization ("Failed to compute size: " +:+ m))
  | inr data_size => Ok (HEADER_SIZE + data_size)
  end.

Definition compute_crc (e : t) : outcome Z :=
  match bincode_serialize e with
  | inl m => Err (Serialization ("Failed to serialize: " +:+ m))
  | inr data => Ok (crc_hash (crc_buffer (lsn e) (as_u32 (len data)) data))
  end.
End Entry.

End WalEntry.

(** ** Writer *)

Module WalWriter.

(** [pub struct WalWriter]. *)
Record t := mk {
  file : BufWriter.t;
  current_lsn : Z;
  sync_strategy : WalSyncStrategy;
  uncommitted_count : Z
}.

Definition open (p : path) (strategy : WalSyncStrategy) : ST World t :=
  f ← File.open_truncate p;
  mret (mk (BufWriter.new f) 1 strategy 0).

Definition open_append (p : path) (strategy : WalSyncStrategy) (next_lsn : Z) : ST World t :=
  f ← File.open_append p;
  mret (mk (BufWriter.new f) next_lsn strategy 0).

(** Methods of the [file] field. *)
Definition on_file {A} (m : ST (BufWriter.t * World) A) : ST (t * World) A :=
  zoom (fun s : t * World => (file s.1, s.2))
       (fun f s => (mk f.1 (current_lsn s.1) (sync_strategy s.1) (uncommitted_count s.1), f.2)) m.

Definition set_lsn (n : Z) : ST (t * World) unit :=
  modify (fun s => (mk (file s.1) n (sync_strategy s.1) (uncommitted_count s.1), s.2)).

Definition set_uncommitted (n : Z) : ST (t * World) unit :=
  modify (fun s => (mk (file s.1) (current_lsn s.1) (sync_strategy s.1) n, s.2)).

Definition sync : ST (t * World) unit :=
  _ ← on_file BufWriter.flush;
  _ ← on_file (BufWriter.on_inner File.sync_all);
  set_uncommitted 0.

Section Append.
Context `{Crc32} `{WalEntry.Bincode}.

Definition append (now : Z) (operation : Operation.t) : ST (t * World) Z :=
  lsn ← gets (fun s : t * World => current_lsn s.1);
  _ ← set_lsn (as_u64 (lsn + 1));
  wal_entry ← lift (WalEntry.new lsn operation now);
  bs ← lift (WalEntry.serialize wal_entry);
  _ ← on_file (BufWriter.write_all bs);
  n ← gets (fun s : t * World => uncommitted_count s.1);
  _ ← set_uncommitted (as_u64 (n + 1));
  strategy ← gets (fun s : t * World => sync_strategy s.1);
  _ ← match strategy with
      | EveryWrite => sync
      | EveryNEntries count => if count <=? as_u64 (n + 1) then sync else mret tt
      end;
  mret lsn.
End Append.

Definition truncate : ST (t * World) unit :=
  _ ← on_file BufWriter.flush;
  _ ← on_file (BufWriter.on_inner (File.set_len 0));
  _ ← on_file (BufWriter.on_inner (File.seek_start 0));
  _ ← set_lsn 1;
  set_uncommitted 0.

End WalWriter.

(** ** Reader *)

Module WalReader.

(** [pub struct WalReader]: [position] counts the bytes of the entries returned, the file's
    own cursor moves with every read. *)
Record t := mk { file : File.t; position : Z; file_size : Z }.

Definition open (p : path) : ST World t :=
  f ← File.open p;
  size ← File.metadata_len f;
  mret (mk f 0 size).

Definition on_file {A} (m : ST (File.t * World) A) : ST (t * World) A :=
  zoom (fun s : t * World => (file s.1, s.2))
       (fun f s => (mk f.1 (position s.1) (file_size s.1), f.2)) m.

Section Next.
Context `{Crc32} `{WalEntry.Bincode}.

Definition next_entry : ST (t * World) (option WalEntry.t) :=
  s ← get_st;
  let pos := position s.1 in
  let size := file_size s.1 in
  if size <=? pos then mret None
  else if size <? pos + WalEntry.HEADER_SIZE then mret None
  else
    header ← on_file (File.read_exact WalEntry.HEADER_SIZE);
    b_len ← lift (slice 12 16 header);
    let data_len := from_le b_len in
    if size <? pos + WalEntry.HEADER_SIZE + data_len then mret None
    else
      data ← on_file (File.read_exact data_len);
      entry ← lift (WalEntry.deserialize (header ++ data));
      _ ← modify (fun s : t * World =>
            (mk (file s.1) (position s.1 + (WalEntry.HEADER_SIZE + data_len)) (file_size s.1), s.2));
      mret (Some entry).
End Next.

Definition is_at_eof (r : t) : bool := file_size r <=? position r.

End WalReader.

(** [WalReader::entries] and [impl Iterator for WalIterator]. *)
Module WalIterator.
Section Iter.
Context `{Crc32} `{WalEntry.Bincode}.

Definition next (s : WalReader.t * World) :
    option (outcome WalEntry.t) * (WalReader.t * World) :=
  match WalReader.next_entry s with
  | (Ok (Some entry), s') => (Some (Ok entry), s')
  | (Ok None, s') => (None, s')
  | (Err e, s') => (Some (Err e), s')
  | (Panic, s') => (Some Panic, s')
  | (OutOfFuel, s') => (Some OutOfFuel, s')
  end.
End Iter.
End WalIterator.

(** ** Recovery *)

Module WalRecovery.

(** [pub struct RecoveryResult]. *)
Record RecoveryResult := mkResult {
  entries_recovered : Z;
  entries_corrupted : Z;
  last_lsn : Z;
  was_truncated : bool
}.

Section Recover.
Context `{Crc32} `{WalEntry.Bincode}.

(** The [loop] of [recover]; [fuel] bounds the iterations. *)
Fixpoint recover_loop (fuel : nat) (entries : list WalEntry.t) (st : RecoveryResult) :
    ST (WalReader.t * World) (list WalEntry.t * RecoveryResult) :=
  match fuel with
  | O => lift OutOfFuel
  | S fuel' =>
      r ← catch WalReader.next_entry;
      match r with
      | Ok (Some entry) =>
          recover_loop fuel' (entries ++ [entry])
            (mkResult (entries_recovered st + 1) (entries_corrupted st)
               (WalEntry.lsn entry) (was_truncated st))
      | Ok None =>
          eof ← gets (fun s : WalReader.t * World => WalReader.is_at_eof s.1);
          mret (entries, if negb eof
            then mkResult (entries_recovered st) (entries_corrupted st) (last_lsn st) true
            else st)
      | Err (WalCorruption _) =>
          mret (entries,
            mkResult (entries_recovered st) (entries_corrupted st + 1) (last_lsn st) true)
      | Err e => fail e
      | Panic => lift Panic
      | OutOfFuel => lift OutOfFuel
      end
  end.

(** The [loop] of [verify]. *)
Fixpoint verify_loop (fuel : nat) (st : RecoveryResult) :
    ST (WalReader.t * World) RecoveryResult :=
  match fuel with
  | O => lift OutOfFuel
  | S fuel' =>
      r ← catch WalReader.next_entry;
      match r with
      | Ok (Some entry) =>
          verify_loop fuel'
            (mkResult (entries_recovered st + 1) (entries_corrupted st)
               (WalEntry.lsn entry) (was_truncated st))
      | Ok None =>
          eof ← gets (fun s : WalReader.t * World => WalReader.is_at_eof s.1);
          mret (if negb eof
            then mkResult (entries_recovered st) (entries_corrupted st) (last_lsn st) true
            else st)
      | Err (WalCorruption _) =>
          mret (mkResult (entries_recovered st) (entries_corrupted st + 1) (last_lsn st) true)
      | Err e => fail e
      | Panic => lift Panic
      | OutOfFuel => lift OutOfFuel
      end
  end.

(** Each entry takes at least one byte of the file. *)
Definition fuel_for (r : WalReader.t) : nat := S (Z.to_nat (WalReader.file_size r)).

Definition init : RecoveryResult := mkResult 0 0 0 false.

Definition recover (p : path) : ST World (list WalEntry.t * RecoveryResult) :=
  reader ← WalReader.open p;
  scoped reader (fun _ w => w) (recover_loop (fuel_for reader) [] init).

Definition verify (p : path) : ST World RecoveryResult :=
  reader ← WalReader.open p;
  scoped reader (fun _ w => w) (verify_loop (fuel_for reader) init).
End Recover.

End WalRecovery.
