(* ===== verification/WalFacts.v ===== *)
(** Facts about the write-ahead log: entries, and reading as a scan of bytes.
    [scan] is the reference definition of recovery, a function of the file's
    content; [recover] computes it for every content and every fault schedule. *)

From Stdlib Require Import ZArith Lia String.
From coqutil Require Import Byte.
From stdpp Require Import base gmap list strings.
From S2P Require Import Prelude Fmt Errors World WorldFacts Config Wal.
Open Scope string_scope.
Open Scope list_scope.
Open Scope Z_scope.

Section WalFacts.
Context `{HC : Crc32} `{HB : WalEntry.Bincode}.

(** The data section's length fits its [u32] field. *)
Definition entry_fits (e : WalEntry.t) : Prop :=
  WalEntry.valid e /\ WalEntry.encoded_size e < 2 ^ 32.

(** The bytes of an entry ([] when serialization fails). *)
Definition enc (e : WalEntry.t) : bytes :=
  match WalEntry.serialize e with Ok bs => bs | _ => [] end.

Definition wal_bytes (es : list WalEntry.t) : bytes := concat (map enc es).

Lemma wal_bytes_app a b : wal_bytes (a ++ b) = wal_bytes a ++ wal_bytes b.
Proof. unfold wal_bytes. by rewrite map_app, concat_app. Qed.

Lemma wal_bytes_snoc es e : wal_bytes (es ++ [e]) = wal_bytes es ++ enc e.
Proof. rewrite wal_bytes_app. unfold wal_bytes; simpl. by rewrite app_nil_r. Qed.

(** ** Entries *)

Section Entries.
Context {HCok : Crc32Ok} {HBok : WalEntry.BincodeOk}.

Lemma serialize_shape e :
  entry_fits e ->
  exists data crc, WalEntry.serialize e =
      Ok (to_le 8 (WalEntry.lsn e) ++ to_le 4 crc ++ to_le 4 (len data) ++ data) /\
    crc = crc_hash (WalEntry.crc_buffer (WalEntry.lsn e) (len data) data) /\
    0 <= crc < 2 ^ 32 /\
    len data = WalEntry.encoded_size e /\ 0 <= len data < 2 ^ 32 /\
    WalEntry.bincode_deserialize data = inr e.
Proof.
  intros [Hv Hs]. destruct (WalEntry.bincode_total e Hv) as [data Hd].
  pose proof (WalEntry.bincode_size e data Hd) as Hl.
  exists data. eexists. unfold WalEntry.serialize. rewrite Hd.
  rewrite as_u32_small by (pose_len; lia).
  split_and!; try done; try (pose_len; lia); try apply crc_range.
  by apply WalEntry.bincode_roundtrip.
Qed.

Lemma enc_serialize e : entry_fits e -> WalEntry.serialize e = Ok (enc e).
Proof. intros He. destruct (serialize_shape e He) as (? & ? & E & _). unfold enc. by rewrite E. Qed.

Lemma enc_len e : entry_fits e -> len (enc e) = WalEntry.HEADER_SIZE + WalEntry.encoded_size e.
Proof.
  intros He. destruct (serialize_shape e He) as (data & crc & E & _ & _ & Hl & _).
  unfold enc. rewrite E, <- Hl. unfold WalEntry.HEADER_SIZE. len_lia.
Qed.

Lemma encoded_size_pos e : 0 < WalEntry.encoded_size e.
Proof. unfold WalEntry.encoded_size. destruct (WalEntry.operation e); len_lia. Qed.

(** The length field of an encoded entry. *)
Lemma enc_len_field e rest :
  entry_fits e -> from_le (sub 12 4 (enc e ++ rest)) = WalEntry.encoded_size e.
Proof.
  intros He. destruct (serialize_shape e He) as (data & crc & E & _ & _ & Hl & Hb & _).
  unfold enc. rewrite E.
  replace ((to_le 8 (WalEntry.lsn e) ++ to_le 4 crc ++ to_le 4 (len data) ++ data) ++ rest)
    with ((to_le 8 (WalEntry.lsn e) ++ to_le 4 crc) ++ to_le 4 (len data) ++ data ++ rest)
    by (by rewrite <- !app_assoc).
  rewrite sub_app_exact by len_lia. rewrite from_to_le_small by done. done.
Qed.

Lemma deserialize_enc e rest :
  entry_fits e -> WalEntry.deserialize (enc e ++ rest) = Ok e.
Proof.
  intros He. pose proof (encoded_size_pos e) as Hpos. pose proof (enc_len e He) as Hle.
  destruct (serialize_shape e He) as (data & crc & E & Hcrc & Hcb & Hl & Hb & Hrt).
  destruct He as [Hv Hs]. unfold enc in *. rewrite E in *. rewrite <- !app_assoc.
  unfold WalEntry.deserialize, WalEntry.HEADER_SIZE in *.
  rewrite (proj2 (Z.ltb_ge _ 16)) by len_lia.
  rewrite slice_app_start, obind_Ok by len_lia. cbv zeta.
  rewrite (slice_app 8 12), obind_Ok by len_lia.
  rewrite (app_assoc (to_le 8 _)), (slice_app 12 16), obind_Ok by len_lia.
  rewrite !from_to_le_small by (done || apply Hv).
  rewrite (proj2 (Z.ltb_ge _ (16 + _))) by len_lia.
  rewrite (app_assoc (_ ++ _) (to_le 4 (len data))), (slice_app 16), obind_Ok by len_lia.
  rewrite as_u32_small by done. rewrite <- Hcrc, Z.eqb_refl. simpl negb. cbv iota.
  rewrite Hrt, Z.eqb_refl. done.
Qed.
End Entries.

(** Deserialization answers any input without panicking. *)
Lemma deserialize_cases bs :
  match WalEntry.deserialize bs with
  | Ok _ | Err (WalCorruption _) => True
  | _ => False
  end.
Proof.
  unfold WalEntry.deserialize, WalEntry.HEADER_SIZE.
  destruct (Z.ltb_spec (len bs) 16); [done|].
  rewrite (slice_ok 0 8) by lia. rewrite obind_Ok.
  rewrite (slice_ok 8 12) by lia. rewrite obind_Ok.
  rewrite (slice_ok 12 16) by lia. rewrite obind_Ok. cbv zeta.
  set (n := from_le (sub 12 _ _)).
  assert (0 <= n) by (apply (from_le_bound 4); by apply len_sub; lia).
  destruct (Z.ltb_spec (len bs) (16 + n)); [done|].
  rewrite slice_ok, obind_Ok by lia. repeat case_match; done.
Qed.

(** ** One step of reading *)

(** What the reader finds at the front of the unread bytes [c]: an entry and its
    size, nothing more to read, or corruption. *)
Definition step_of (c : bytes) : outcome (option (WalEntry.t * Z)) :=
  if len c <? WalEntry.HEADER_SIZE then Ok None
  else
    let data_len := from_le (sub 12 4 c) in
    if len c <? WalEntry.HEADER_SIZE + data_len then Ok None
    else
      e ← WalEntry.deserialize (ztake (WalEntry.HEADER_SIZE + data_len) c);
      mret (Some (e, WalEntry.HEADER_SIZE + data_len)).

Lemma step_of_cases c :
  (step_of c = Ok None) \/
  (exists e n, step_of c = Ok (Some (e, n)) /\ WalEntry.HEADER_SIZE <= n <= len c) \/
  (exists m, step_of c = Err (WalCorruption m)).
Proof.
  unfold step_of. destruct (Z.ltb_spec (len c) WalEntry.HEADER_SIZE); [by left|].
  cbv zeta. set (n := from_le _).
  assert (0 <= n).
  { apply (from_le_bound 4). apply len_sub; unfold WalEntry.HEADER_SIZE in *; lia. }
  destruct (Z.ltb_spec (len c) (WalEntry.HEADER_SIZE + n)); [by left|]. right.
  pose proof (deserialize_cases (ztake (WalEntry.HEADER_SIZE + n) c)) as D.
  destruct (WalEntry.deserialize _) as [e|[]| |]; try done.
  - left. exists e. eexists. split; [done|lia].
  - right. by eexists.
Qed.

(** The reader stands at the boundary between [pre] (consumed) and [c]. *)
Definition reader_at (p : path) (d pre c : bytes) (r : WalReader.t) (w : World) : Prop :=
  File.h_path (WalReader.file r) = p /\
  get_file p w = Some (mkFile (pre ++ c) d) /\
  File.h_pos (WalReader.file r) = len pre /\
  WalReader.position r = len pre /\
  WalReader.file_size r = len (pre ++ c).

(** The header the reader keeps, and the header with the data it announces. *)
Lemma sub_header_len (c : bytes) : 16 <= len c -> sub 12 4 (sub 0 16 c) = sub 12 4 c.
Proof.
  intros Hc. unfold sub at 2. rewrite zdrop_0. rewrite <- (ztake_zdrop 16 c) at 2.
  symmetry. apply sub_app_l; [lia..|]. rewrite len_ztake; len_lia.
Qed.

Lemma sub_header_data (c : bytes) n : 0 <= n -> sub 0 16 c ++ sub 16 n c = ztake (16 + n) c.
Proof.
  intros Hn. unfold sub, ztake, zdrop. simpl (Z.to_nat 0). rewrite drop_0, take_take_drop. f_equal. lia.
Qed.

Lemma next_entry_step p d pre c r w :
  reader_at p d pre c r w ->
  wpr WalReader.next_entry (r, w)
    (fun o s => same_files w s.2 /\ WalReader.file_size s.1 = WalReader.file_size r /\
       match step_of c with
       | Ok None => o = Ok None /\ WalReader.position s.1 = WalReader.position r
       | Ok (Some (e, n)) =>
           o = Ok (Some e) /\ reader_at p d (pre ++ ztake n c) (zdrop n c) s.1 s.2
       | Err e => o = Err e
       | _ => False
       end)
    (fun s => same_files w s.2).
Proof.
  intros (Hp & Hf & Hcur & Hpos & Hsize). unfold WalReader.next_entry.
  apply wpr_bind_get_st. cbn [fst]. rewrite Hpos, Hsize. unfold step_of, WalEntry.HEADER_SIZE.
  destruct (Z.leb_spec (len (pre ++ c)) (len pre)).
  { rewrite (proj2 (Z.ltb_lt (len c) 16)) by len_lia. apply wpr_ret. simpl. done. }
  destruct (Z.ltb_spec (len (pre ++ c)) (len pre + 16)).
  { rewrite (proj2 (Z.ltb_lt (len c) 16)) by len_lia. apply wpr_ret. simpl. done. }
  rewrite (proj2 (Z.ltb_ge (len c) 16)) by len_lia. cbv zeta.
  eapply wpr_bind_wp.
  { apply wp_zoom_fwd; [done..|]. simpl.
    eapply (wp_read_exact p _ 16); [done|exact Hf|rewrite Hcur; len_lia|lia|simpl; len_lia]. }
  2: { simpl. intros s ([f1 w1] & -> & _ & Hs). exact Hs. }
  intros bs s ([f1 w1] & -> & -> & Hs1 & Hw). simpl in Hs1, Hw. subst f1. simpl content.
  rewrite Hcur, sub_app_r, Z.sub_diag by lia.
  apply wpr_bind_lift. rewrite slice_ok by (rewrite ?len_sub; len_lia).
  change (16 - 12) with 4. rewrite sub_header_len by len_lia. set (n := from_le (sub 12 4 c)).
  assert (0 <= n) by (apply (from_le_bound 4); apply len_sub; len_lia).
  destruct (Z.ltb_spec (len (pre ++ c)) (len pre + 16 + n)).
  { rewrite (proj2 (Z.ltb_lt (len c) (16 + n))) by len_lia. by apply wpr_ret. }
  rewrite (proj2 (Z.ltb_ge (len c) (16 + n))) by len_lia.
  eapply wpr_bind_wp.
  { apply wp_zoom_fwd; [done..|]. simpl.
    eapply (wp_read_exact p (mkFile (pre ++ c) d) n); simpl;
      first [done | by rewrite (get_file_same p w w1) | len_lia]. }
  2: { simpl. intros s ([f2 w2] & -> & _ & Hs). unfold same_files in *. simpl in *. congruence. }
  intros bs s ([f2 w2] & -> & -> & Hs2 & Hw2). simpl in Hs2, Hw2. subst f2. simpl.
  rewrite sub_app_r by len_lia. replace (len pre + 16 - len pre) with 16 by lia.
  rewrite sub_header_data by lia.
  apply wpr_bind_lift.
  assert (Hw' : same_files w w2) by (unfold same_files in *; congruence).
  destruct (WalEntry.deserialize _) as [e|e| |] eqn:D.
  - apply wpr_bind_modify; [done|]. apply wpr_ret. simpl. split_and!; [done|done|done|].
    split_and!; simpl; [done| | | |].
    + rewrite (get_file_same p w w2), Hf by done. by rewrite <- app_assoc, ztake_zdrop.
    + rewrite len_app, len_ztake by len_lia. lia.
    + rewrite len_app, len_ztake, Hpos by len_lia. lia.
    + by rewrite Hsize, <- app_assoc, ztake_zdrop.
  - done.
  - pose proof (deserialize_cases (ztake (16 + n) c)) as C. by rewrite D in C.
  - pose proof (deserialize_cases (ztake (16 + n) c)) as C. by rewrite D in C.
Qed.

(** ** Recovery as a scan *)

Import WalRecovery.

Definition bump (st : RecoveryResult) (e : WalEntry.t) : RecoveryResult :=
  mkResult (entries_recovered st + 1) (entries_corrupted st) (WalEntry.lsn e) (was_truncated st).

Definition mark_truncated (st : RecoveryResult) : RecoveryResult :=
  mkResult (entries_recovered st) (entries_corrupted st) (last_lsn st) true.

Definition mark_corrupted (st : RecoveryResult) : RecoveryResult :=
  mkResult (entries_recovered st) (entries_corrupted st + 1) (last_lsn st) true.

(** Recovery of the bytes [c], as a function. *)
Fixpoint scan_loop (fuel : nat) (c : bytes) (es : list WalEntry.t) (st : RecoveryResult) :
    list WalEntry.t * RecoveryResult :=
  match fuel with
  | O => (es, st)
  | S fuel' =>
      match step_of c with
      | Ok (Some (e, n)) => scan_loop fuel' (zdrop n c) (es ++ [e]) (bump st e)
      | Ok None => (es, if len c =? 0 then st else mark_truncated st)
      | _ => (es, mark_corrupted st)
      end
  end.

Definition scan (c : bytes) : list WalEntry.t * RecoveryResult :=
  scan_loop (S (length c)) c [] init.

Lemma step_of_some_shrinks c e n :
  step_of c = Ok (Some (e, n)) -> 0 < n <= len c /\ len (zdrop n c) = len c - n.
Proof.
  intros E. destruct (step_of_cases c) as [C|[(e' & n' & C & Hn)|[m C]]]; rewrite C in E; try done.
  injection E as -> ->. unfold WalEntry.HEADER_SIZE in Hn. split; [lia|]. apply len_zdrop. lia.
Qed.

(** The amount of fuel does not matter once it exceeds the bytes to read. *)
Lemma scan_loop_fuel f1 f2 c es st :
  len c < Z.of_nat f1 -> len c < Z.of_nat f2 -> scan_loop f1 c es st = scan_loop f2 c es st.
Proof.
  revert f2 c es st. induction f1 as [|f1 IH]; intros f2 c es st H1 H2; [len_lia|].
  destruct f2 as [|f2]; [len_lia|]. simpl.
  destruct (step_of c) as [[[e n]|]|e| |] eqn:E; try done.
  apply step_of_some_shrinks in E as [? ?]. apply IH; lia.
Qed.

Lemma recover_loop_scan fuel f2 p d pre c r w es st :
  reader_at p d pre c r w -> len c < Z.of_nat fuel -> len c < Z.of_nat f2 ->
  wpr (recover_loop fuel es st) (r, w)
    (fun o s => o = Ok (scan_loop f2 c es st) /\ same_files w s.2)
    (fun s => same_files w s.2).
Proof.
  revert f2 pre c r w es st. induction fuel as [|fuel IH]; intros f2 pre c r w es st Hr H1 H2; [len_lia|].
  destruct f2 as [|f2]; [len_lia|]. simpl.
  assert (Heof : forall r', WalReader.file_size r' = WalReader.file_size r ->
      WalReader.position r' = WalReader.position r ->
      WalReader.is_at_eof r' = (len c =? 0)).
  { intros r' E1 E2. unfold WalReader.is_at_eof. rewrite E1, E2.
    destruct Hr as (_ & _ & _ & -> & ->). destruct (Z.eqb_spec (len c) 0).
    - apply Z.leb_le. len_lia.
    - apply Z.leb_gt. len_lia. }
  eapply wpr_bind_catch; [by apply next_entry_step| | |].
  - intros o s (_ & _ & Ho). destruct (step_of c) as [[[e n]|]|e| |]; try done; naive_solver.
  - intros o [r' w'] (Hw & Hsz & Ho). simpl in *.
    destruct (step_of_cases c) as [E|[(e & n & E & Hn)|[m E]]]; rewrite E in *.
    + destruct Ho as [-> Hpos]. apply wpr_bind_gets. cbn [fst].
      rewrite Heof by done. apply wpr_ret. destruct (len c =? 0); done.
    + destruct Ho as [-> Hr']. apply step_of_some_shrinks in E as [? ?].
      eapply wpr_conseq; [eapply (IH f2); [exact Hr'|lia|lia]| |].
      * intros o s [-> Hs]. split; [done|]. unfold same_files in *; congruence.
      * intros s Hs. unfold same_files in *; congruence.
    + subst o. by apply wpr_ret.
  - intros k s Hs. split; [done|]. done.
Qed.

Lemma open_reader_at p f w :
  get_file p w = Some f ->
  wp (WalReader.open p) w
    (fun r w' => reader_at p (durable f) [] (content f) r w' /\ same_files w w')
    (same_files w).
Proof.
  intros Hf. eapply wp_bind; [by eapply wp_open| |done].
  intros h w1 [-> Hw1]. eapply wp_bind.
  { apply (wp_metadata_len p f); [done|]. by rewrite (get_file_same p w w1). }
  2: { intros s Hs. unfold same_files in *; congruence. }
  intros n w2 [-> Hw2]. apply wp_ret.
  assert (same_files w w2) by (unfold same_files in *; congruence).
  split; [|done]. split_and!; simpl; try done.
  rewrite (get_file_same p w w2), Hf by done. by destruct f.
Qed.

(** Recovery computes [scan] of the content, whatever the content. *)
Lemma recover_scan p f w :
  get_file p w = Some f ->
  wp (recover p) w
    (fun res w' => res = scan (content f) /\ same_files w w') (same_files w).
Proof.
  intros Hf. apply wp_of_wpr. eapply wpr_bind_wp; [by apply open_reader_at| |done].
  intros r w1 [Hr Hw1]. apply wpr_scoped; [done|].
  assert (Hsz : WalReader.file_size r = len (content f)) by (by destruct Hr as (_ & _ & _ & _ & ->)).
  eapply wpr_conseq.
  - apply (recover_loop_scan _ (S (length (content f))) p (durable f) [] (content f)); [done| |].
    + unfold fuel_for. rewrite Hsz. len_lia.
    + unfold len. lia.
  - simpl. intros o s [-> Hs]. eexists. split; [done|]. split; [done|].
    unfold same_files in *; congruence.
  - simpl. intros s Hs. unfold same_files in *; congruence.
Qed.

(** [verify] is [recover] without the entries. *)
Lemma verify_loop_recover fuel es st s :
  verify_loop fuel st s =
    match recover_loop fuel es st s with
    | (Ok (_, st'), s') => (Ok st', s')
    | (Err e, s') => (Err e, s')
    | (Panic, s') => (Panic, s')
    | (OutOfFuel, s') => (OutOfFuel, s')
    end.
Proof.
  revert es st s. induction fuel as [|fuel IH]; intros es st s; [done|]. simpl.
  unfold mbind, ST_bind, catch. destruct (WalReader.next_entry s) as [[[e|]|[]| |] s'];
    first [done | apply IH].
Qed.

(** ** What a scan finds *)

Section Scan.
Context {HCok : Crc32Ok} {HBok : WalEntry.BincodeOk}.

Definition last_lsn_of (l : Z) (es : list WalEntry.t) : Z :=
  foldl (fun _ e => WalEntry.lsn e) l es.

Lemma step_of_enc e rest :
  entry_fits e -> step_of (enc e ++ rest) = Ok (Some (e, len (enc e))).
Proof.
  intros He. unfold step_of. pose proof (enc_len e He) as Hl. pose proof (encoded_size_pos e).
  rewrite enc_len_field by done. rewrite <- Hl.
  rewrite (proj2 (Z.ltb_ge _ _)) by (unfold WalEntry.HEADER_SIZE in *; len_lia). cbv zeta.
  rewrite (proj2 (Z.ltb_ge _ _)) by len_lia.
  rewrite ztake_app_exact by done.
  rewrite <- (app_nil_r (enc e)) at 1. by rewrite deserialize_enc.
Qed.

(** An incomplete entry at the end reads as the end of the log. *)
Lemma step_of_torn e t :
  entry_fits e -> t `prefix_of` enc e -> t <> enc e -> step_of t = Ok None.
Proof.
  intros He Hp Hne. unfold step_of.
  destruct (Z.ltb_spec (len t) WalEntry.HEADER_SIZE) as [|Hh]; [done|]. cbv zeta.
  assert (Hlt : len t < len (enc e)).
  { pose proof (prefix_len _ _ Hp). destruct (decide (len t = len (enc e))) as [E|]; [|lia].
    destruct Hne. by apply (prefix_same_len _ _ (enc e)). }
  assert (Hfield : from_le (sub 12 4 t) = WalEntry.encoded_size e).
  { rewrite <- (enc_len_field e [] He), app_nil_r. destruct Hp as [u ->]. f_equal.
    symmetry. apply sub_app_l; unfold WalEntry.HEADER_SIZE in *; lia. }
  rewrite Hfield. rewrite enc_len in Hlt by done. by rewrite (proj2 (Z.ltb_lt _ _)) by lia.
Qed.

Lemma scan_loop_log fuel es0 es st tail :
  Forall entry_fits es -> len (wal_bytes es ++ tail) < Z.of_nat fuel ->
  scan_loop fuel (wal_bytes es ++ tail) es0 st =
    match step_of tail with
    | Ok None =>
        (es0 ++ es,
         let st' := mkResult (entries_recovered st + len es) (entries_corrupted st)
                      (last_lsn_of (last_lsn st) es) (was_truncated st) in
         if len tail =? 0 then st' else mark_truncated st')
    | Ok (Some _) => scan_loop fuel (wal_bytes es ++ tail) es0 st
    | _ =>
        (es0 ++ es,
         mark_corrupted (mkResult (entries_recovered st + len es) (entries_corrupted st)
           (last_lsn_of (last_lsn st) es) (was_truncated st)))
    end.
Proof.
  revert fuel es0 st. induction es as [|e es IH]; intros fuel es0 st Hes Hfuel.
  - destruct fuel as [|fuel]; [len_lia|]. unfold wal_bytes in *; simpl.
    rewrite Z.add_0_r, app_nil_r. destruct st. by destruct (step_of tail) as [[?|]|?| |].
  - inversion Hes as [|?? He Hes']; subst. destruct fuel as [|fuel]; [len_lia|].
    change (wal_bytes (e :: es)) with (enc e ++ wal_bytes es) in *.
    rewrite <- app_assoc in *. simpl scan_loop at 1. rewrite step_of_enc by done.
    rewrite zdrop_app_exact by done.
    pose proof (enc_len e He). pose proof (encoded_size_pos e).
    unfold WalEntry.HEADER_SIZE in *.
    rewrite IH by (done || len_lia). rewrite <- app_assoc. simpl app at 2 4.
    unfold bump; simpl. rewrite len_cons, Z.add_assoc.
    destruct (step_of tail) as [[?|]|?| |] eqn:E; try done.
    rewrite step_of_enc by done. by rewrite zdrop_app_exact.
Qed.

(** The outcome of recovering a log followed by [tail]. *)
Definition recovered (es : list WalEntry.t) (corrupted : Z) (truncated : bool) :
    list WalEntry.t * RecoveryResult :=
  (es, mkResult (len es) corrupted (last_lsn_of 0 es) truncated).

Lemma scan_log es tail :
  Forall entry_fits es -> step_of tail = Ok None ->
  scan (wal_bytes es ++ tail) = recovered es 0 (negb (len tail =? 0)).
Proof.
  intros Hes E. unfold scan. rewrite scan_loop_log by (done || (unfold len; lia)).
  rewrite E. unfold recovered. destruct (len tail =? 0); done.
Qed.

Lemma scan_corrupt es tail m :
  Forall entry_fits es -> step_of tail = Err m ->
  scan (wal_bytes es ++ tail) = recovered es 1 true.
Proof.
  intros Hes E. unfold scan. rewrite scan_loop_log by (done || (unfold len; lia)).
  rewrite E. done.
Qed.

Lemma scan_all es : Forall entry_fits es -> scan (wal_bytes es) = recovered es 0 false.
Proof. intros Hes. rewrite <- (app_nil_r (wal_bytes es)). by rewrite scan_log. Qed.

(** Cutting a log anywhere leaves whole entries and at most one torn entry. *)
Lemma prefix_of_log es c :
  c `prefix_of` wal_bytes es ->
  exists k tail, c = wal_bytes (take k es) ++ tail /\ (k <= length es)%nat /\
    (tail = [] \/ exists e, es !! k = Some e /\ tail `prefix_of` enc e /\ tail <> enc e).
Proof.
  revert c. induction es as [|e es IH]; intros c Hc.
  - exists 0%nat, []. apply prefix_nil_inv in Hc as ->. split_and!; auto; simpl; lia.
  - change (wal_bytes (e :: es)) with (enc e ++ wal_bytes es) in Hc.
    destruct (decide (enc e `prefix_of` c)) as [[c' ->]|Hn].
    + apply prefix_app_inv in Hc. destruct (IH c' Hc) as (k & tail & -> & Hk & Ht).
      exists (S k), tail. simpl. change (wal_bytes (e :: take k es)) with (enc e ++ wal_bytes (take k es)).
      rewrite <- app_assoc. split_and!; [done|lia|done].
    + exists 0%nat, c. simpl. split_and!; [done|lia|]. right. exists e. split; [done|].
      destruct (prefix_weak_total c (enc e) (enc e ++ wal_bytes es)) as [Hce|]; [done|by eexists| |done].
      split; [done|]. intros ->. by apply Hn.
Qed.

(** Any cut of a log recovers the entries that are complete in it. *)
Lemma scan_cut es c :
  Forall entry_fits es -> c `prefix_of` wal_bytes es ->
  exists k, scan c = recovered (take k es) 0 (negb (len c =? len (wal_bytes (take k es)))) /\
    (k <= length es)%nat /\ wal_bytes (take k es) `prefix_of` c /\
    (forall j, (j <= length es)%nat -> wal_bytes (take j es) `prefix_of` c -> (j <= k)%nat).
Proof.
  intros Hes Hc. destruct (prefix_of_log es c Hc) as (k & tail & -> & Hk & Ht).
  assert (Hstep : step_of tail = Ok None).
  { destruct Ht as [->|(e & Hlk & Hp & Hne)]; [done|]. eapply step_of_torn; [|done..].
    rewrite Forall_lookup in Hes. eauto. }
  exists k. split_and!; [|done|by eexists|].
  - rewrite scan_log by (done || by apply Forall_take). unfold recovered. do 3 f_equal.
    rewrite len_app. destruct (Z.eqb_spec (len tail) 0), (Z.eqb_spec (len (wal_bytes (take k es)) + len tail)
      (len (wal_bytes (take k es)))); done || lia.
  - intros j Hj Hpj. destruct (decide (j <= k)%nat) as [|Hjk]; [done|]. exfalso.
    destruct Ht as [->|(e & Hlk & Hp & Hne)].
    + rewrite app_nil_r in Hpj. apply prefix_len in Hpj.
      destruct (lookup_lt_is_Some_2 es k) as [e He]; [lia|].
      rewrite (take_beyond es k j e), wal_bytes_app in Hpj by (done || lia).
      change (wal_bytes (e :: ?x)) with (enc e ++ wal_bytes x) in Hpj.
      rewrite Forall_lookup in Hes. pose proof (enc_len e (Hes _ _ He)). pose proof (encoded_size_pos e).
      unfold WalEntry.HEADER_SIZE in *. len_lia.
    + rewrite (take_beyond es k j e), wal_bytes_app in Hpj by (done || lia).
      apply prefix_app_inv in Hpj.
      change (wal_bytes (e :: ?x)) with (enc e ++ wal_bytes x) in Hpj.
      apply prefix_app_l in Hpj. apply prefix_len in Hpj as L1. pose proof (prefix_len _ _ Hp) as L2.
      apply Hne. apply (prefix_same_len _ _ (enc e)); [done|done|lia].
Qed.
End Scan.

End WalFacts.
