(* ===== verification/WalWriterFacts.v ===== *)
(** Facts about the log writer, for every fault schedule: what is in the log
    after each operation, what of it is durable, and what a failed operation can
    leave behind. *)

From Stdlib Require Import ZArith Lia String.
From stdpp Require Import base gmap list strings.
From S2P Require Import Prelude Fmt Errors World WorldFacts Config Wal WalFacts.
Open Scope list_scope.
Open Scope Z_scope.

Section WriterFacts.
Context `{HC : Crc32} `{HB : WalEntry.Bincode}.
Context {HCok : Crc32Ok} {HBok : WalEntry.BincodeOk}.

(** The writer's log is the encoding of [es]; [d] is durable. *)
Definition wal_log (p : path) (d : bytes) (es : list WalEntry.t) (wr : WalWriter.t) (w : World) : Prop :=
  bw_log p d (wal_bytes es) (WalWriter.file wr) w.

Definition same_counters (wr wr' : WalWriter.t) : Prop :=
  WalWriter.current_lsn wr' = WalWriter.current_lsn wr /\
  WalWriter.sync_strategy wr' = WalWriter.sync_strategy wr.

Lemma wp_sync p d log wr w :
  bw_log p d log (WalWriter.file wr) w ->
  wp WalWriter.sync (wr, w)
    (fun _ s => bw_log p log log (WalWriter.file s.1) s.2 /\
       BufWriter.buf (WalWriter.file s.1) = [] /\
       WalWriter.uncommitted_count s.1 = 0 /\ same_counters wr s.1 /\ frame p w s.2)
    (fun s => bw_log p d log (WalWriter.file s.1) s.2 /\ same_counters wr s.1 /\ frame p w s.2).
Proof.
  intros Hl. eapply wp_bind.
  { apply wp_zoom_fwd; [done..|]. by apply wp_flush_buf. }
  2: { simpl. intros s ([b w1] & -> & H1 & H2). done. }
  intros _ s ([b w1] & -> & (c & Hat & Hc) & Hbuf & Hfr). simpl in *.
  rewrite Hbuf, app_nil_r in Hc. subst c. destruct Hat as (Hp & Hf & Hpos).
  eapply wp_bind.
  { apply wp_zoom_fwd; [done..|]. apply wp_zoom_fwd; [done..|]. simpl.
    by apply (wp_sync_all p (mkFile log d)). }
  2: { simpl. intros s ([b2 w2] & -> & [h w3] & Eb & Eh & Hw).
  simpl in *. injection Eb as -> ->. subst h. simpl in *.
       split_and!; [|done|eauto with world]. exists log. rewrite Hbuf, app_nil_r.
       split; [|done]. split_and!; simpl; auto. by rewrite (get_file_same p w1 w3). }
  intros _ s ([b2 w2] & -> & [h w3] & Eb & Eh & Hfr2 & Hg).
  simpl in *. injection Eb as -> ->. subst h. simpl in *.
  apply wp_modify; [done|]. simpl. split_and!; [|done..|eauto with world].
  exists log. simpl. rewrite Hbuf, app_nil_r. split; [|done]. by split_and!.
Qed.

(** The entry an append writes. *)
Definition next_entry_of (wr : WalWriter.t) (now : Z) (op : Operation.t) : WalEntry.t :=
  WalEntry.mk (WalWriter.current_lsn wr) op (as_u64 now).

Lemma as_u64_range z : 0 <= as_u64 z < 2 ^ 64.
Proof. apply Z.mod_pos_bound. lia. Qed.

Lemma next_entry_of_fits wr now op :
  0 <= WalWriter.current_lsn wr < 2 ^ 64 ->
  WalEntry.encoded_size (next_entry_of wr now op) < 2 ^ 32 -> entry_fits (next_entry_of wr now op).
Proof.
  intros Hl Hs. split; [|done]. split; [done|]. split; [apply as_u64_range|].
  unfold WalEntry.encoded_size in Hs. simpl in *. destruct op; simpl; pose_len; lia.
Qed.

(** Durability bookkeeping after a successful append of [log']: everything is
    durable, or the sync threshold was not reached and nothing more is. *)
Definition append_synced (d d' log' : bytes) (wr wr' : WalWriter.t) : Prop :=
  (d' = log' /\ WalWriter.uncommitted_count wr' = 0 /\ BufWriter.buf (WalWriter.file wr') = []) \/
  (d' = d /\ WalWriter.uncommitted_count wr' = as_u64 (WalWriter.uncommitted_count wr + 1) /\
   exists count, WalWriter.sync_strategy wr = EveryNEntries count /\
     WalWriter.uncommitted_count wr' < count).

(** What a failed append can leave: nothing of the entry, all of it, or (an
    entry larger than the writer's buffer) some prefix of it. *)
Definition append_failed (p : path) (d log : bytes) (e : WalEntry.t)
    (wr : WalWriter.t) (w : World) : Prop :=
  exists n, 0 <= n <= len (enc e) /\
    (n = 0 \/ n = len (enc e) \/ BufWriter.CAPACITY <= len (enc e)) /\
    bw_log p d (log ++ ztake n (enc e)) (WalWriter.file wr) w.

(** What a successful one does. *)
Definition appended (p : path) (d log : bytes) (e : WalEntry.t) (wr : WalWriter.t)
    (s : WalWriter.t * World) : Prop :=
  WalWriter.current_lsn s.1 = as_u64 (WalWriter.current_lsn wr + 1) /\
  WalWriter.sync_strategy s.1 = WalWriter.sync_strategy wr /\
  exists d', bw_log p d' (log ++ enc e) (WalWriter.file s.1) s.2 /\
    append_synced d d' (log ++ enc e) wr s.1.

Lemma wp_append p d log wr w now op :
  bw_log p d log (WalWriter.file wr) w -> 0 <= now -> entry_fits (next_entry_of wr now op) ->
  let e := next_entry_of wr now op in
  wp (WalWriter.append now op) (wr, w)
    (fun l s => l = WalWriter.current_lsn wr /\ appended p d log e wr s /\ frame p w s.2)
    (fun s => append_failed p d log e s.1 s.2 /\ frame p w s.2).
Proof.
  intros Hl Hnow He e. unfold WalWriter.append.
  apply wp_bind_gets. cbn [fst]. apply wp_bind_modify; [done|]. simpl.
  apply (wp_bind_lift _ e).
  { unfold WalEntry.new. by rewrite (proj2 (Z.ltb_ge _ _)) by done. }
  apply (wp_bind_lift _ (enc e)); [by apply enc_serialize|].
  eapply wp_bind.
  { apply wp_zoom_fwd; [done..|]. simpl. by apply wp_bw_write_all. }
  2: { simpl. intros s ([b w1] & -> & n & Hn & Hcase & Hlog & Hfr). simpl in *.
       split; [|done]. exists n. split_and!; [lia..| |done]. tauto. }
  intros _ s ([b w1] & -> & Hlog & Hfr). simpl in *.
  apply wp_bind_gets. cbn [fst]. apply wp_bind_modify; [done|]. simpl.
  apply wp_bind_gets. cbn [fst].
  assert (Hfail : forall s, bw_log p d (log ++ enc e) (WalWriter.file s.1) s.2 ->
      append_failed p d log e s.1 s.2).
  { intros s Hs. exists (len (enc e)). rewrite ztake_all by lia.
    split_and!; [len_lia|lia|auto|done]. }
  set (wr1 := WalWriter.mk b _ _ _).
  pose (Q := fun (_ : unit) s => appended p d log e wr s /\ frame p w s.2).
  pose (E := fun s : WalWriter.t * World => append_failed p d log e s.1 s.2 /\ frame p w s.2).
  assert (Hsync : wp WalWriter.sync (wr1, w1) Q E).
  { eapply wp_conseq; [by apply (wp_sync p d (log ++ enc e))| |].
    - intros [] s (H1 & H2 & H3 & [H4 H5] & H6). simpl in *.
      split; [|solve_frame]. split_and!; [done..|].
      eexists. split; [exact H1|]. by left.
    - intros s (H1 & _ & H3). split; [by apply Hfail|solve_frame]. }
  apply (wp_bind _ _ _ Q E); [| |done].
  - simpl. destruct (WalWriter.sync_strategy wr) as [|count] eqn:Hst; [exact Hsync|].
    destruct (Z.leb_spec count (as_u64 (WalWriter.uncommitted_count wr + 1))); [exact Hsync|].
    apply wp_ret. split; [|done]. split_and!; [done..|]. exists d. split; [done|].
    right. split_and!; [done..|]. exists count. split; [done|]. simpl. lia.
  - intros a s HQ. by apply wp_ret.
Qed.

Lemma wp_wal_open p f strategy w :
  get_file p w = Some f \/ files w !! p = None ->
  wp (WalWriter.open p strategy) w
    (fun wr w' => wal_log p (default [] (durable <$> get_file p w)) [] wr w' /\
       WalWriter.current_lsn wr = 1 /\ WalWriter.sync_strategy wr = strategy /\
       WalWriter.uncommitted_count wr = 0 /\ frame p w w')
    (same_files w).
Proof.
  intros Hf. eapply wp_bind; [by apply (wp_open_truncate p f)| |done].
  intros h w1 (-> & Hfr & Hg). apply wp_ret. split_and!; try done.
  exists []. split; [|done]. by split_and!; [..|right].
Qed.

(** A log whose truncation was cut off: as it was, or empty. *)
Definition truncate_failed (p : path) (d log : bytes) (wr : WalWriter.t) (s : WalWriter.t * World) : Prop :=
  (bw_log p d log (WalWriter.file s.1) s.2 /\
   (BufWriter.buf (WalWriter.file wr) = [] -> BufWriter.buf (WalWriter.file s.1) = [])) \/
  get_file p s.2 = Some (mkFile [] d).

Lemma flush_buf_empty b w : BufWriter.buf b = [] -> BufWriter.buf (BufWriter.flush_buf (b, w)).2.1 = [].
Proof. intros E. unfold BufWriter.flush_buf. by rewrite E. Qed.

Lemma wp_truncate p d log wr w :
  bw_log p d log (WalWriter.file wr) w ->
  wp WalWriter.truncate (wr, w)
    (fun _ s => wal_log p d [] s.1 s.2 /\ WalWriter.current_lsn s.1 = 1 /\
       WalWriter.sync_strategy s.1 = WalWriter.sync_strategy wr /\
       WalWriter.uncommitted_count s.1 = 0 /\
       BufWriter.buf (WalWriter.file s.1) = [] /\ frame p w s.2)
    (fun s => truncate_failed p d log wr s /\ frame p w s.2).
Proof.
  intros Hl. eapply wp_bind.
  { apply wp_zoom_fwd; [done..|]. apply wp_always with (I := fun s =>
      BufWriter.buf (WalWriter.file wr) = [] -> BufWriter.buf s.1 = []); [by apply wp_flush_buf|].
    intros E. by apply flush_buf_empty. }
  2: { simpl. intros s ([b w1] & -> & [H1 H2] & H3). split; [by left|done]. }
  intros _ s ([b w1] & -> & ((c & Hat & Hc) & Hbuf & Hfr) & _). simpl in *.
  destruct Hat as (Hp & Hf & Hpos). eapply wp_bind.
  { apply wp_zoom_fwd; [done..|]. apply wp_zoom_fwd; [done..|]. simpl.
    by apply (wp_set_len p (mkFile c d)). }
  2: { simpl. intros s ([b2 w2] & -> & [h w3] & Eb & Eh & Hw).
       simpl in *. injection Eb as -> ->. subst h. simpl in *. split; [|eauto with world]. left. simpl.
       split; [|done]. exists c. split; [|done]. split_and!; [done| |done]. by rewrite (get_file_same p w1 w3). }
  intros _ s ([b2 w2] & -> & [h w3] & Eb & Eh & Hfr2 & Hg).
  simpl in *. injection Eb as -> ->. subst h. simpl in *.
  assert (Hz : zeros (0 - len c) = []) by (unfold zeros; by replace (Z.to_nat (0 - len c)) with 0%nat by len_lia).
  rewrite Hz in Hg. change (get_file p w3 = Some (mkFile [] d)) in Hg.
  eapply wp_bind.
  { apply wp_zoom_fwd; [done..|]. apply wp_zoom_fwd; [done..|]. simpl.
    eapply (wp_seek_to p _ (fun _ _ => 0)); [done|exact Hg|lia]. }
  2: { simpl. intros s ([b4 w4] & -> & [h w5] & Eb & Eh & Hw).
       simpl in *. injection Eb as -> ->. subst h. simpl in *. split; [|eauto with world].
       right. simpl. by rewrite (get_file_same p w3 w5). }
  intros _ s ([b4 w4] & -> & [h w5] & Eb & Eh & Hw).
  simpl in *. injection Eb as -> ->. subst h. simpl in *.
  apply wp_bind_modify; [done|]. simpl. apply wp_modify; [done|]. simpl.
  split_and!; [|done..|eauto with world].
  exists []. simpl. rewrite Hbuf. split; [|done].
  split_and!; simpl; [done| |by right]. by rewrite (get_file_same p w3 w5).
Qed.

(** ** What the writer keeps of its handle

    A property of the handle that writing and syncing preserve is preserved by
    [sync] and [append], which also keep the sequence number a [u64]. *)
Definition wal_keeps (P : File.t -> World -> Prop) (s : WalWriter.t * World) : Prop :=
  bw_keeps P (WalWriter.file s.1, s.2) /\ 0 <= WalWriter.current_lsn s.1 < 2 ^ 64.

Definition op_keeps {A} (P : File.t -> World -> Prop) (m : ST (File.t * World) A) : Prop :=
  forall h w, P h w -> wp m (h, w) (fun _ s => P s.1 s.2) (fun s => P s.1 s.2).

Section Keeps.
Context (P : File.t -> World -> Prop) (HP : write_keeps P) (Hsync : op_keeps P File.sync_all).

Lemma wp_inner_keeps {A} (m : ST (File.t * World) A) b w :
  P (BufWriter.inner b) w -> op_keeps P m ->
  wp (BufWriter.on_inner m) (b, w) (fun _ => bw_keeps P) (bw_keeps P).
Proof. intros Hb Hm. apply wp_zoom; [done..|]. by apply Hm. Qed.

Lemma wp_bind_keeps {A B} (m : ST (BufWriter.t * World) A) (f : A -> ST (WalWriter.t * World) B) s Q :
  wal_keeps P s ->
  wp m (WalWriter.file s.1, s.2) (fun _ => bw_keeps P) (bw_keeps P) ->
  (forall a s', wal_keeps P s' -> wp (f a) s' Q (wal_keeps P)) ->
  wp (WalWriter.on_file m ≫= f) s Q (wal_keeps P).
Proof.
  intros [Hb Hl] Hm Hf. eapply wp_bind_zoom; [done..|exact Hm| |].
  - intros a [b w] Hbw. apply Hf. by split.
  - intros [b w] Hbw. by split.
Qed.

Lemma wp_sync_keeps s :
  wal_keeps P s -> wp WalWriter.sync s (fun _ => wal_keeps P) (wal_keeps P).
Proof.
  intros Hs. eapply wp_bind_keeps; [done|apply wp_flush_keeps; [done|apply Hs]|]. intros _ s1 H1.
  eapply wp_bind_keeps; [done|apply wp_inner_keeps; [apply H1|done]|].
  intros _ s2 H2. apply wp_modify; [done|]. exact H2.
Qed.

Lemma wp_append_keeps now op s :
  wal_keeps P s -> 0 <= now -> WalEntry.encoded_size (next_entry_of s.1 now op) < 2 ^ 32 ->
  wp (WalWriter.append now op) s (fun _ => wal_keeps P) (wal_keeps P).
Proof.
  destruct s as [wr w]. intros [Hb Hl] Hnow He. cbn [fst] in *. unfold WalWriter.append.
  apply wp_bind_gets. cbn [fst]. apply wp_bind_modify; [done|].
  set (e := next_entry_of wr now op).
  assert (Hfit : entry_fits e) by by apply next_entry_of_fits.
  apply (wp_bind_lift _ e).
  { unfold WalEntry.new. by rewrite (proj2 (Z.ltb_ge _ _)) by done. }
  apply (wp_bind_lift _ (enc e)); [by apply enc_serialize|].
  eapply wp_bind_keeps; [split; [exact Hb|apply as_u64_range]|by apply wp_write_keeps|].
  intros _ s1 H1. apply wp_bind_gets, wp_bind_modify; [done|]. apply wp_bind_gets.
  set (s2 := (_, _)). assert (H2 : wal_keeps P s2) by exact H1.
  apply (wp_bind _ _ _ (fun _ => wal_keeps P) (wal_keeps P));
    [|intros a s3 H3; apply wp_ret; exact H3|done].
  destruct (WalWriter.sync_strategy _) as [|count]; [by apply wp_sync_keeps|].
  destruct (count <=? _); [by apply wp_sync_keeps|by apply wp_ret].
Qed.
End Keeps.

(** ** Without assumptions on the log

    Whatever happened before, the writer only ever touches its own file. *)
Definition wal_on (p : path) (w0 : World) : WalWriter.t * World -> Prop := wal_keeps (on_path p w0).

Lemma on_path_handle p w0 h w h' w' :
  on_path p w0 h w -> File.h_path h' = p -> frame p w w' -> (exists f, get_file p w' = Some f) ->
  on_path p w0 h' w'.
Proof. intros (_ & _ & Hfr) Hp Hfr' Hf. split_and!; [done..|solve_frame]. Qed.

Lemma wp_file_op_on p w0 h w :
  on_path p w0 h w ->
  let P := fun s : File.t * World => on_path p w0 s.1 s.2 in
  wp File.sync_all (h, w) (fun _ => P) P /\
  (forall n, wp (File.set_len n) (h, w) (fun _ => P) P) /\
  (forall n, 0 <= n < 2 ^ 63 -> wp (File.seek_start n) (h, w) (fun _ => P) P).
Proof.
  intros Hon P. pose proof Hon as (Hp & [f Hf] & Hfr).
  assert (HE : forall s : File.t * World, s.1 = h /\ same_files w s.2 -> P s).
  { intros [h' w'] [Eh Hw]. simpl in *. subst h'. by apply (on_path_same p w0 h w w'). }
  split_and!; [|intros n|intros n Hn].
  - eapply wp_conseq; [by apply (wp_sync_all p f)| |done].
    intros _ [h' w'] (Eh & Hfr' & Hg). simpl in *. subst h'.
    eapply on_path_handle; eauto.
  - eapply wp_conseq; [by apply (wp_set_len p f)| |done].
    intros _ [h' w'] (Eh & Hfr' & Hg). simpl in *. subst h'. eapply on_path_handle; eauto.
  - eapply wp_conseq; [by apply (wp_seek_to p f (fun _ _ => n))| |done].
    intros _ [h' w'] (Eh & Hw). simpl in *. subst h'.
    eapply on_path_handle; [done|done|by apply frame_same|].
    exists f. simpl. by rewrite (get_file_same p w w').
Qed.

Lemma wp_append_on p w0 now op s :
  wal_on p w0 s -> 0 <= now -> WalEntry.encoded_size (next_entry_of s.1 now op) < 2 ^ 32 ->
  wp (WalWriter.append now op) s (fun _ => wal_on p w0) (wal_on p w0).
Proof. apply wp_append_keeps; [exact (write_count_on_path p w0)|]. intros h w Hon. by apply wp_file_op_on. Qed.

Lemma wp_truncate_on p w0 s :
  wal_on p w0 s -> wp WalWriter.truncate s (fun _ => wal_on p w0) (wal_on p w0).
Proof.
  intros Hs. eapply wp_bind_keeps; [done|apply wp_flush_keeps; [exact (write_count_on_path p w0)|apply Hs]|].
  intros _ s1 H1. eapply wp_bind_keeps; [done| |].
  { apply wp_inner_keeps; [apply H1|]. intros h w Hon. by apply wp_file_op_on. }
  intros _ s2 H2. eapply wp_bind_keeps; [done| |].
  { apply wp_inner_keeps; [apply H2|]. intros h w Hon. apply wp_file_op_on; [done|lia]. }
  intros _ s3 [H3 _]. apply wp_bind_modify; [done|]. apply wp_modify; [done|]. split; [exact H3|].
  simpl. lia.
Qed.

(** ** Growth: what is in the file stays when entries are appended *)

Lemma sync_all_past p c0 : op_keeps (past p c0) File.sync_all.
Proof.
  intros h w (c & d & (Hp & Hf & Hpos) & Hc).
  eapply wp_conseq; [by apply (wp_sync_all p (mkFile c d))|..].
  - intros _ [h' w'] (Eh & _ & Hg). cbn [fst snd] in *. subst h'. exists c, c. by split_and!.
  - intros [h' w'] (Eh & Hw). cbn [fst snd] in *. subst h'. exists c, d. split; [|done].
    by split_and!; [|rewrite (get_file_same p w w')|].
Qed.

Lemma wp_append_past p c0 now op s :
  wal_keeps (past p c0) s -> 0 <= now -> WalEntry.encoded_size (next_entry_of s.1 now op) < 2 ^ 32 ->
  wp (WalWriter.append now op) s (fun _ => wal_keeps (past p c0)) (wal_keeps (past p c0)).
Proof. apply wp_append_keeps; [apply write_count_past|apply sync_all_past]. Qed.

End WriterFacts.
