(* ===== verification/Sstable.v ===== *)
(** Sorted tables on disk: [src/src/storage/sstable/{mod,builder,reader,iterator}.rs].

    A [BufReader] is modelled by the file underneath and its logical cursor: the
    tables it reads are never written again.  Integers of the format keep their
    width; [current_offset] and [entry_count] wrap at 64 bits. *)

From Stdlib Require Import ZArith Lia String.
From coqutil Require Import Byte.
From stdpp Require Import base gmap list strings.
From S2P Require Import Prelude Fmt Errors BTreeMap World WorldFacts Wal.
Open Scope string_scope.
Open Scope list_scope.
Open Scope Z_scope.

Definition MAGIC : bytes := bytes_of_string "ATKV".
Definition VERSION : Z := 1.
Definition HEADER_SIZE : Z := 14.
Definition FOOTER_SIZE : Z := 16.
Definition TOMBSTONE_MARKER : Z := 2 ^ 32 - 1.

(** ** Metadata *)

Module SSTable.

(** [pub struct SSTable]. *)
Record t := mk {
  path_ : path;
  entry_count : Z;
  min_key : bytes;
  max_key : bytes;
  file_size : Z
}.

Definition might_contain (key : bytes) (s : t) : bool :=
  bytes_leb (min_key s) key && bytes_leb key (max_key s).

End SSTable.

(** ** Builder *)

Module SSTableBuilder.
Section Builder.
Context `{HC : Crc32} `{HT : IoText}.

(** [pub struct SSTableBuilder]. *)
Record t := mk {
  path_ : path;
  writer : BufWriter.t;
  entry_count : Z;
  current_offset : Z;
  index : list (bytes * Z);
  min_key : option bytes;
  max_key : option bytes;
  data_hasher : Hasher
}.

(** Methods of the [writer] field. *)
Definition on_writer {A} (m : ST (BufWriter.t * World) A) : ST (t * World) A :=
  zoom (fun s : t * World => (writer s.1, s.2))
       (fun b s => (mk (path_ s.1) b.1 (entry_count s.1) (current_offset s.1) (index s.1)
                      (min_key s.1) (max_key s.1) (data_hasher s.1), b.2)) m.

(** Dropping a builder drops its writer. *)
Definition drop (b : t) (w : World) : World := BufWriter.drop (writer b) w.

Definition new (p : path) : ST World t :=
  f ← File.open_truncate p;
  r ← moved (BufWriter.new f) BufWriter.drop
        (_ ← BufWriter.write_all MAGIC;
         _ ← BufWriter.write_all (to_le 2 VERSION);
         BufWriter.write_all (to_le 8 0));
  mret (mk p r.1 0 HEADER_SIZE [] None None hasher_new).

(** [self.index.push(..)] and the tracking of the smallest and largest key. *)
Definition record_key (key : bytes) (b : t) : t :=
  mk (path_ b) (writer b) (entry_count b) (current_offset b)
     (index b ++ [(key, current_offset b)])
     (match min_key b with None => Some key | Some k => Some k end)
     (Some key) (data_hasher b).

Definition update_hasher (bs : bytes) (b : t) : t :=
  mk (path_ b) (writer b) (entry_count b) (current_offset b) (index b)
     (min_key b) (max_key b) (hasher_update bs (data_hasher b)).

Definition advance (entry_size : Z) (b : t) : t :=
  mk (path_ b) (writer b) (as_u64 (entry_count b + 1))
     (as_u64 (current_offset b + entry_size)) (index b)
     (min_key b) (max_key b) (data_hasher b).

Definition on_builder (f : t -> t) : ST (t * World) unit :=
  modify (fun s => (f s.1, s.2)).

Definition write_entry (key : bytes) (value : option bytes) : ST (t * World) unit :=
  _ ← on_builder (record_key key);
  let key_len := as_u32 (len key) in
  let val_len := match value with Some v => as_u32 (len v) | None => TOMBSTONE_MARKER end in
  let key_len_bytes := to_le 4 key_len in
  let val_len_bytes := to_le 4 val_len in
  _ ← on_writer (BufWriter.write_all key_len_bytes);
  _ ← on_writer (BufWriter.write_all val_len_bytes);
  _ ← on_writer (BufWriter.write_all key);
  _ ← on_builder (update_hasher key_len_bytes);
  _ ← on_builder (update_hasher val_len_bytes);
  _ ← on_builder (update_hasher key);
  let entry_size := 8 + len key in
  entry_size ← match value with
    | Some v =>
        _ ← on_writer (BufWriter.write_all v);
        _ ← on_builder (update_hasher v);
        mret (entry_size + len v)
    | None => mret entry_size
    end;
  on_builder (advance entry_size).

Definition add (key value : bytes) : ST (t * World) unit := write_entry key (Some value).
Definition add_tombstone (key : bytes) : ST (t * World) unit := write_entry key None.

(** The loop of [finish] over the index. *)
Fixpoint write_index (ix : list (bytes * Z)) : ST (t * World) unit :=
  match ix with
  | [] => mret tt
  | (key, offset) :: ix' =>
      _ ← on_writer (BufWriter.write_all (to_le 4 (as_u32 (len key))));
      _ ← on_writer (BufWriter.write_all (to_le 8 offset));
      _ ← on_writer (BufWriter.write_all key);
      write_index ix'
  end.

(** [self.writer.into_inner()]: the buffer is flushed once more; what follows
    works on the file underneath. *)
Definition into_inner : ST (t * World) unit :=
  r ← catch (on_writer BufWriter.flush_buf);
  match r with
  | Ok _ => mret tt
  | Err (Io k) => fail (Storage ("Failed to flush SSTable: " +:+ io_text k))
  | Err e => fail e
  | Panic => lift Panic
  | OutOfFuel => lift OutOfFuel
  end.

(** The end of [finish], on the bare file: fix the entry count, sync, measure. *)
Definition seal : ST (t * World) SSTable.t :=
  _ ← on_writer (BufWriter.on_inner (File.seek_start 6));
  n ← gets (fun s : t * World => entry_count s.1);
  _ ← on_writer (BufWriter.on_inner (File.write_all (to_le 8 n)));
  _ ← on_writer (BufWriter.on_inner File.sync_all);
  h ← gets (fun s : t * World => BufWriter.inner (writer s.1));
  file_size ← zoom snd (fun w s => (s.1, w)) (File.metadata_len h);
  b ← gets fst;
  mret (SSTable.mk (path_ b) (entry_count b) (default [] (min_key b))
          (default [] (max_key b)) file_size).

Definition finish : ST (t * World) SSTable.t :=
  index_offset ← gets (fun s : t * World => current_offset s.1);
  ix ← gets (fun s : t * World => index s.1);
  _ ← write_index ix;
  data_crc ← gets (fun s : t * World => hasher_finalize (data_hasher s.1));
  _ ← on_writer (BufWriter.write_all (to_le 8 index_offset));
  _ ← on_writer (BufWriter.write_all (to_le 4 data_crc));
  _ ← on_writer (BufWriter.write_all (zeros 4));
  _ ← on_writer BufWriter.flush;
  _ ← into_inner;
  seal.

End Builder.
End SSTableBuilder.

(** ** Reader *)

Module SSTableReader.

(** [pub struct SSTableReader]. *)
Record t := mk {
  file : File.t;
  index : BTreeMap.t Z;
  entry_count : Z;
  index_offset : Z
}.

(** The loop of [open] over the index block; [fuel] bounds the iterations. *)
Fixpoint parse_index (fuel : nat) (pos : Z) (index_data : bytes) (index : BTreeMap.t Z) :
    outcome (BTreeMap.t Z) :=
  match fuel with
  | O => OutOfFuel
  | S fuel' =>
      if negb (pos <? len index_data) then Ok index
      else if len index_data <? pos + 4 then Ok index
      else
        b_len ← slice pos (pos + 4) index_data;
        let key_len := from_le b_len in
        let pos := pos + 4 in
        if len index_data <? pos + 8 then Ok index
        else
          b_off ← slice pos (pos + 8) index_data;
          let offset := from_le b_off in
          let pos := pos + 8 in
          if len index_data <? pos + key_len then Ok index
          else
            key ← slice pos (pos + key_len) index_data;
            parse_index fuel' (pos + key_len) index_data (BTreeMap.insert key offset index)
  end.

(** Every iteration consumes at least one byte. *)
Definition fuel_for (index_data : bytes) : nat := S (length index_data).

(** [open] once the file is open and its size known. *)
Definition load (file_size : Z) : ST (File.t * World) t :=
  header ← File.read_exact HEADER_SIZE;
  magic ← lift (slice 0 4 header);
  if negb (bool_decide (magic = MAGIC)) then
    fail (Storage ("Invalid SSTable magic: expected ATKV, got " +:+ debug_bytes magic))
  else
    b_version ← lift (slice 4 6 header);
    let version := from_le b_version in
    if negb (version =? VERSION) then
      fail (Storage ("Unsupported SSTable version: " +:+ dec version))
    else
      b_count ← lift (slice 6 14 header);
      let entry_count := from_le b_count in
      _ ← File.seek_end (- FOOTER_SIZE);
      footer ← File.read_exact FOOTER_SIZE;
      b_off ← lift (slice 0 8 footer);
      let index_offset := from_le b_off in
      _ ← lift (slice 8 12 footer);
      _ ← File.seek_start index_offset;
      (* the subtraction underflows: a panic, or a capacity overflow in the
         allocation when the build wraps *)
      index_block_size ← lift (if file_size - FOOTER_SIZE - index_offset <? 0 then Panic
                               else Ok (file_size - FOOTER_SIZE - index_offset));
      index_data ← File.read_exact index_block_size;
      index ← lift (parse_index (fuel_for index_data) 0 index_data BTreeMap.empty);
      _ ← File.seek_start 0;
      f ← gets fst;
      mret (mk f index entry_count index_offset).

Definition open (p : path) : ST World t :=
  f ← File.open p;
  file_size ← File.metadata_len f;
  scoped f (fun _ w => w) (load file_size).

Definition on_file {A} (m : ST (File.t * World) A) : ST (t * World) A :=
  zoom (fun s : t * World => (file s.1, s.2))
       (fun f s => (mk f.1 (index s.1) (entry_count s.1) (index_offset s.1), f.2)) m.

(** [get] once the offset of the entry is known. *)
Definition read_value (offset : Z) : ST (t * World) (option bytes) :=
  _ ← on_file (File.seek_start offset);
  header ← on_file (File.read_exact 8);
  b_klen ← lift (slice 0 4 header);
  let key_len := from_le b_klen in
  b_vlen ← lift (slice 4 8 header);
  let val_len := from_le b_vlen in
  _ ← on_file (File.seek_current key_len);
  if val_len =? TOMBSTONE_MARKER then mret None
  else
    value ← on_file (File.read_exact val_len);
    mret (Some value).

Definition get (key : bytes) : ST (t * World) (option bytes) :=
  ix ← gets (fun s : t * World => index s.1);
  match BTreeMap.get key ix with
  | Some offset => read_value offset
  | None => fail KeyNotFound
  end.

Definition min_key (r : t) : option bytes := BTreeMap.first_key (index r).
Definition max_key (r : t) : option bytes := BTreeMap.last_key (index r).

Definition might_contain (key : bytes) (r : t) : bool :=
  match min_key r, max_key r with
  | Some min, Some max => bytes_leb min key && bytes_leb key max
  | _, _ => false
  end.

End SSTableReader.

(** ** Iterator *)

Module SSTableIterator.

(** [pub struct SSTableIterator]: it borrows the reader's file exclusively, so
    it carries the handle. *)
Record t := mk { file : File.t; end_offset : Z; current_offset : Z }.

Definition new (end_offset : Z) : ST (File.t * World) t :=
  _ ← File.seek_start HEADER_SIZE;
  f ← gets fst;
  mret (mk f end_offset HEADER_SIZE).

Definition on_file {A} (m : ST (File.t * World) A) : ST (t * World) A :=
  zoom (fun s : t * World => (file s.1, s.2))
       (fun f s => (mk f.1 (end_offset s.1) (current_offset s.1), f.2)) m.

(** The part of [next] after the end test; its early returns are errors. *)
Definition next_entry : ST (t * World) (bytes * option bytes) :=
  header ← on_file (File.read_exact 8);
  b_klen ← lift (slice 0 4 header);
  let key_len := from_le b_klen in
  b_vlen ← lift (slice 4 8 header);
  let val_len := from_le b_vlen in
  key ← on_file (File.read_exact key_len);
  r ← (if val_len =? TOMBSTONE_MARKER then mret (None, 8 + key_len)
       else
         v ← on_file (File.read_exact val_len);
         mret (Some v, 8 + key_len + val_len));
  _ ← modify (fun s : t * World =>
        (mk (file s.1) (end_offset s.1) (as_u64 (current_offset s.1 + r.2)), s.2));
  mret (key, r.1).

Definition next (s : t * World) : option (outcome (bytes * option bytes)) * (t * World) :=
  if end_offset s.1 <=? current_offset s.1 then (None, s)
  else let '(r, s') := next_entry s in (Some r, s').

End SSTableIterator.

(** [SSTableReader::iter]. *)
Definition SSTableReader_iter : ST (SSTableReader.t * World) SSTableIterator.t :=
  off ← gets (fun s : SSTableReader.t * World => SSTableReader.index_offset s.1);
  SSTableReader.on_file (SSTableIterator.new off).
