(* ===== verification/SstableFacts.v ===== *)
(** Facts about sorted tables.  [sst_encode es] is the reference file format, a
    function of the sorted entries [es]; the builder writes exactly that file,
    and the reader answers every lookup and iteration over such a file with what
    [es] says. *)

From Stdlib Require Import ZArith Lia String.
From coqutil Require Import Byte.
From stdpp Require Import base gmap list strings sorting.
From S2P Require Import Prelude Fmt Errors BTreeMap World WorldFacts Wal Sstable.
Open Scope list_scope.
Open Scope Z_scope.

(** An entry: a key with its value, [None] for a tombstone. *)
Abbreviation entry := (bytes * option bytes)%type.

Definition value_len (v : option bytes) : Z :=
  match v with Some v => len v | None => TOMBSTONE_MARKER end.

Definition entry_bytes (e : entry) : bytes :=
  to_le 4 (len e.1) ++ to_le 4 (value_len e.2) ++ e.1 ++ default [] e.2.

Definition data_block (es : list entry) : bytes := concat (map entry_bytes es).

(** Keys with the offsets of their entries, the first one at [off]. *)
Fixpoint offsets (off : Z) (es : list entry) : list (bytes * Z) :=
  match es with
  | [] => []
  | e :: es' => (e.1, off) :: offsets (off + len (entry_bytes e)) es'
  end.

Definition index_entry (x : bytes * Z) : bytes := to_le 4 (len x.1) ++ to_le 8 x.2 ++ x.1.
Definition index_bytes (ix : list (bytes * Z)) : bytes := concat (map index_entry ix).

Definition index_start (es : list entry) : Z := HEADER_SIZE + len (data_block es).

Definition header_bytes (n : Z) : bytes := MAGIC ++ to_le 2 VERSION ++ to_le 8 n.

Section Format.
Context `{HC : Crc32}.

Definition footer_bytes (es : list entry) : bytes :=
  to_le 8 (index_start es) ++ to_le 4 (crc_hash (data_block es)) ++ zeros 4.

Definition sst_encode (es : list entry) : bytes :=
  header_bytes (len es) ++ data_block es ++ index_bytes (offsets HEADER_SIZE es) ++
  footer_bytes es.

(** The lengths fit their fields, and the file is one the system can seek in.  A
    value of [2^32 - 1] bytes would read back as a tombstone. *)
Definition entry_ok (e : entry) : Prop :=
  len e.1 < 2 ^ 32 /\ match e.2 with Some v => len v < 2 ^ 32 - 1 | None => True end.

Definition sst_ok (es : list entry) : Prop :=
  BTreeMap.wf es /\ Forall entry_ok es /\ len (sst_encode es) < 2 ^ 63.
End Format.

(** ** Layout *)

Lemma data_block_app a b : data_block (a ++ b) = data_block a ++ data_block b.
Proof. unfold data_block. by rewrite map_app, concat_app. Qed.

Lemma data_block_cons e es : data_block (e :: es) = entry_bytes e ++ data_block es.
Proof. done. Qed.

Lemma data_block_snoc es e : data_block (es ++ [e]) = data_block es ++ entry_bytes e.
Proof. rewrite data_block_app. unfold data_block at 2. simpl. by rewrite app_nil_r. Qed.

Lemma offsets_snoc off es e :
  offsets off (es ++ [e]) = offsets off es ++ [(e.1, off + len (data_block es))].
Proof.
  revert off. induction es as [|e' es IH]; intros off; simpl.
  - unfold data_block. simpl. by rewrite len_nil, Z.add_0_r.
  - rewrite IH, data_block_cons, len_app. do 4 f_equal. lia.
Qed.

Lemma index_bytes_cons x ix : index_bytes (x :: ix) = index_entry x ++ index_bytes ix.
Proof. done. Qed.

Lemma offsets_keys off es : (offsets off es).*1 = es.*1.
Proof. revert off. induction es as [|e es IH]; intros off; simpl; [done|]. by rewrite IH. Qed.

Lemma len_entry_bytes e : len (entry_bytes e) = 8 + len e.1 + len (default [] e.2).
Proof. unfold entry_bytes. autorewrite with len. lia. Qed.

Lemma len_MAGIC : len MAGIC = 4.
Proof. done. Qed.

Lemma len_header_bytes n : len (header_bytes n) = HEADER_SIZE.
Proof. unfold header_bytes. autorewrite with len. done. Qed.

Lemma header_bytes_eq n : header_bytes n = (MAGIC ++ to_le 2 VERSION) ++ to_le 8 n.
Proof. unfold header_bytes. by rewrite app_assoc. Qed.

#[export] Hint Rewrite len_entry_bytes len_header_bytes len_MAGIC : len.

Lemma offsets_nonempty es off : es <> [] -> offsets off es <> [].
Proof. by destruct es. Qed.

(** Where the entry of a key is: [es] splits around it. *)
Lemma get_offsets k es off :
  BTreeMap.wf es ->
  match BTreeMap.get k es with
  | None => BTreeMap.get k (offsets off es) = None
  | Some v => exists pre post, es = pre ++ (k, v) :: post /\
      BTreeMap.get k (offsets off es) = Some (off + len (data_block pre))
  end.
Proof.
  revert off. induction es as [|[k' v'] es IH]; intros off Hwf; simpl; [done|].
  apply BTreeMap.wf_cons_inv in Hwf as [Hwf _].
  destruct (bytes_cmp_spec k k') as [->|Hlt|Hgt].
  - exists [], es. split; [done|]. unfold data_block; simpl. by rewrite len_nil, Z.add_0_r.
  - done.
  - specialize (IH (off + len (entry_bytes (k', v'))) Hwf).
    destruct (BTreeMap.get k es) as [v|]; [|done].
    destruct IH as (pre & post & -> & ->). exists ((k', v') :: pre), post. split; [done|].
    rewrite data_block_cons, len_app. f_equal. lia.
Qed.

Lemma offsets_wf off es : BTreeMap.wf es -> BTreeMap.wf (offsets off es).
Proof. unfold BTreeMap.wf. by rewrite offsets_keys. Qed.

(** ** The builder *)

Section BuilderFacts.
Context `{HC : Crc32} {HCok : Crc32Ok} `{HT : IoText}.
Import SSTableBuilder.

Definition with_writer (b : t) (wr : BufWriter.t) : t :=
  mk (path_ b) wr (entry_count b) (current_offset b) (index b) (min_key b) (max_key b)
     (data_hasher b).

(** The bytes handed to the builder's writer so far are [log]; since [w0] only
    its own file changed. *)
Definition building (p : path) (d : bytes) (w0 : World) (log : bytes) (b : t) (w : World) : Prop :=
  bw_log p d log (writer b) w /\ bw_append (writer b, w) = false /\ frame p w0 w.

(** What is left after a failure: a builder whose file alone was touched. *)
Definition abandoned (p : path) (w0 : World) (s : t * World) : Prop :=
  File.h_path (BufWriter.inner (writer s.1)) = p /\ frame p w0 s.2.

Lemma building_abandoned p d w0 log b w : building p d w0 log b w -> abandoned p w0 (b, w).
Proof. intros ((c & (Hp & _) & _) & _ & Hfr). by split. Qed.

Lemma drop_abandoned p w0 s : abandoned p w0 s -> frame p w0 (drop s.1 s.2).
Proof. intros [Hp Hfr]. eapply frame_trans; [exact Hfr|by apply bw_drop_frame]. Qed.

Lemma wp_bind_write {B} (f : unit -> ST (t * World) B) p d w0 log bs b w Q :
  building p d w0 log b w ->
  (forall wr' w', building p d w0 (log ++ bs) (with_writer b wr') w' ->
     wp (f tt) (with_writer b wr', w') Q (abandoned p w0)) ->
  wp (on_writer (BufWriter.write_all bs) ≫= f) (b, w) Q (abandoned p w0).
Proof.
  intros (Hl & Ha & Hfr) Hk. eapply wp_bind.
  - apply wp_zoom_fwd; [done..|]. cbn [fst snd].
    eapply (wp_always _ _ (fun s => bw_append s = false)).
    + by apply wp_bw_write_all.
    + by rewrite bw_write_append.
  - intros [] s ([wr' w'] & -> & (Hl' & Hfr') & Ha'). apply Hk. split_and!; [done..|].
    eauto with world.
  - intros s ([wr' w'] & -> & (n & _ & _ & (c & (Hp & _) & _) & Hfr') & _).
    split; [done|]. simpl in *. solve_frame.
Qed.

(** The builder after the entries [es]. *)
Definition built (p : path) (d : bytes) (w0 : World) (es : list entry) (b : t) (w : World) : Prop :=
  building p d w0 (header_bytes 0 ++ data_block es) b w /\
  path_ b = p /\ entry_count b = len es /\ current_offset b = index_start es /\
  index b = offsets HEADER_SIZE es /\
  min_key b = fst <$> head es /\ max_key b = fst <$> last es /\
  exists chunks, concat chunks = data_block es /\
    data_hasher b = foldl (fun h c => hasher_update c h) hasher_new chunks.

Lemma wp_new p f w :
  get_file p w = Some f \/ files w !! p = None ->
  wp (new p) w
    (fun b w' => built p (default [] (durable <$> get_file p w)) w [] b w')
    (frame p w).
Proof.
  intros Hf. eapply wp_bind; [by apply (wp_open_truncate p f)| |intros; by apply frame_same].
  intros h w1 (-> & Hfr & Hg). unfold wp.
  assert (Hw : forall bs (b : BufWriter.t) w, len (BufWriter.buf b) + len bs < BufWriter.CAPACITY ->
    BufWriter.write_all bs (b, w) = (Ok tt, (BufWriter.mk (BufWriter.inner b) (BufWriter.buf b ++ bs), w))).
  { intros bs b w2 Hlt. unfold BufWriter.write_all. cbn [fst].
    by rewrite (proj2 (Z.ltb_lt _ _)) by lia. }
  unfold BufWriter.CAPACITY in Hw. unfold moved, mbind, ST_bind.
  rewrite (Hw MAGIC) by (vm_compute; done). rewrite (Hw (to_le 2 VERSION)) by (vm_compute; done).
  rewrite (Hw (to_le 8 0)) by (vm_compute; done). cbn [mret ST_ret fst snd].
  split; [|done]. split_and!; try done.
  - split_and!; [|done|done]. exists []. split; [by split_and!; [..|right]|].
    unfold data_block. simpl map. simpl concat. rewrite app_nil_r. reflexivity.
  - exists []. done.
Qed.

Lemma len_data_block_le es n :
  len (header_bytes n) + len (data_block es) <= len (sst_encode es).
Proof. unfold sst_encode. autorewrite with len. pose_len. lia. Qed.

(** The builder once the key of a new entry is recorded and its bytes hashed. *)
Definition pending (k : bytes) (b : t) (wr : BufWriter.t) (h : Hasher) : t :=
  mk (path_ b) wr (entry_count b) (current_offset b) (index b ++ [(k, current_offset b)])
     (match min_key b with None => Some k | Some k => Some k end) (Some k) h.

Definition hash_chunks (chunks : list bytes) : Hasher :=
  foldl (fun h c => hasher_update c h) hasher_new chunks.

Lemma len_es_le es : len es <= len (data_block es).
Proof. induction es as [|e es IH]; [done|]. rewrite data_block_cons. len_lia. Qed.

Lemma advance_built p d w0 es k v b w wr' w' h chunks :
  built p d w0 es b w -> len (sst_encode (es ++ [(k, v)])) < 2 ^ 63 ->
  building p d w0 (header_bytes 0 ++ data_block (es ++ [(k, v)])) (with_writer b wr') w' ->
  concat chunks = data_block (es ++ [(k, v)]) -> h = hash_chunks chunks ->
  built p d w0 (es ++ [(k, v)]) (advance (8 + len k + len (default [] v)) (pending k b wr' h)) w'.
Proof.
  intros (Hb & Hp & Hn & Hoff & Hix & Hmin & Hmax & _) Hsz Hbu Hch ->.
  pose proof (len_data_block_le (es ++ [(k, v)]) 0) as Hle.
  rewrite data_block_snoc in Hle. autorewrite with len in Hle. cbn [fst snd] in Hle.
  pose proof (len_es_le es). unfold HEADER_SIZE in *. pose_len.
  unfold advance, pending; simpl. split_and!; simpl; [exact Hbu|done|..|by eauto].
  - rewrite Hn, as_u64_small by lia. len_lia.
  - rewrite Hoff. unfold index_start, HEADER_SIZE. rewrite as_u64_small by lia.
    rewrite data_block_snoc. autorewrite with len. simpl. lia.
  - by rewrite Hix, offsets_snoc, Hoff.
  - rewrite Hmin. by destruct es.
  - by rewrite last_snoc.
Qed.

(** The optional value: it is written, hashed and counted. *)
Lemma wp_write_value p d w0 log (v : option bytes) k b wr h w (n : Z) :
  building p d w0 log (with_writer b wr) w ->
  wp (match v with
      | Some v =>
          _ ← on_writer (BufWriter.write_all v);
          _ ← on_builder (update_hasher v);
          mret (n + len v)
      | None => mret n
      end) (pending k b wr h, w)
    (fun n' s => n' = n + len (default [] v) /\ exists wr' w',
       s = (pending k b wr' (match v with Some v => hasher_update v h | None => h end), w') /\
       building p d w0 (log ++ default [] v) (with_writer b wr') w')
    (abandoned p w0).
Proof.
  intros Hb. destruct v as [v|]; simpl.
  - eapply (wp_bind_write _ _ _ _ _ _ (pending k b wr h)); [exact Hb|]. intros wr4 w4 Hb4.
    apply wp_bind_modify; [done|]. apply wp_ret. eauto.
  - apply wp_ret. rewrite len_nil, Z.add_0_r, app_nil_r. eauto.
Qed.

(** One more entry. *)
Lemma wp_write_entry p d w0 es k v b w :
  built p d w0 es b w -> len (sst_encode (es ++ [(k, v)])) < 2 ^ 63 ->
  wp (write_entry k v) (b, w)
    (fun _ s => built p d w0 (es ++ [(k, v)]) s.1 s.2) (abandoned p w0).
Proof.
  intros Hbt Hsz. pose proof Hbt as (Hb & _ & _ & _ & _ & _ & _ & chunks & Hch & Hh).
  unfold write_entry. apply wp_bind_modify; [done|]. cbv zeta.
  set (kl := to_le 4 (as_u32 (len k))).
  set (vl := to_le 4 (match v with Some v => as_u32 (len v) | None => TOMBSTONE_MARKER end)).
  eapply (wp_bind_write _ _ _ _ _ _ (record_key k b)); [exact Hb|]. intros wr1 w1 Hb1.
  eapply wp_bind_write; [exact Hb1|]. intros wr2 w2 Hb2.
  eapply wp_bind_write; [exact Hb2|]. intros wr3 w3 Hb3.
  do 3 (apply wp_bind_modify; [done|]).
  set (h := hasher_update k (hasher_update vl (hasher_update kl (data_hasher b)))).
  eapply wp_bind; [eapply (wp_write_value p d w0 _ v k b wr3 h w3); exact Hb3| |done].
  intros n s (-> & wr' & w' & -> & Hb4). apply wp_modify; [done|].
  assert (E : entry_bytes (k, v) = kl ++ vl ++ k ++ default [] v).
  { unfold entry_bytes, kl, vl. rewrite to_le_as_u32.
    destruct v as [v|]; [by rewrite to_le_as_u32|done]. }
  apply (advance_built p d w0 es k v b w wr' w' _
    (chunks ++ [kl; vl; k] ++ match v with Some v => [v] | None => [] end)); try done.
  - rewrite data_block_snoc, E. by rewrite <- !app_assoc in Hb4.
  - rewrite data_block_snoc, concat_app, Hch, E. f_equal.
    destruct v; simpl; by rewrite ?app_nil_r.
  - unfold hash_chunks. rewrite foldl_app, <- Hh. by destruct v.
Qed.

Lemma wp_write_index p d w0 ix : forall log b w,
  building p d w0 log b w ->
  wp (write_index ix) (b, w)
    (fun _ s => exists wr' w', s = (with_writer b wr', w') /\
       building p d w0 (log ++ index_bytes ix) (with_writer b wr') w')
    (abandoned p w0).
Proof.
  induction ix as [|[k off] ix IH]; intros log b w Hb; cbn [write_index].
  - apply wp_ret. exists (writer b), w. unfold index_bytes. simpl. rewrite app_nil_r.
    by destruct b.
  - eapply wp_bind_write; [exact Hb|]. intros wr1 w1 Hb1.
    eapply wp_bind_write; [exact Hb1|]. intros wr2 w2 Hb2.
    eapply wp_bind_write; [exact Hb2|]. intros wr3 w3 Hb3.
    eapply wp_conseq; [by apply (IH _ _ _ Hb3)| |done].
    intros _ s (wr' & w' & -> & Hb'). exists wr', w'. split; [done|].
    rewrite index_bytes_cons. unfold index_entry. cbn [fst snd].
    rewrite to_le_as_u32 in Hb'. rewrite <- !app_assoc in Hb'. rewrite <- !app_assoc. exact Hb'.
Qed.

(** The writer is flushed and the file underneath holds [c]. *)
Definition flushed (p : path) (d : bytes) (w0 : World) (c : bytes) (b : t) (w : World) : Prop :=
  BufWriter.buf (writer b) = [] /\ File.h_path (BufWriter.inner (writer b)) = p /\
  File.h_append (BufWriter.inner (writer b)) = false /\
  get_file p w = Some (mkFile c d) /\ frame p w0 w.

Lemma flushed_abandoned p d w0 c b w : flushed p d w0 c b w -> abandoned p w0 (b, w).
Proof. by intros (_ & ? & _ & _ & ?). Qed.

Lemma wp_flush p d w0 log b w :
  building p d w0 log b w ->
  wp (on_writer BufWriter.flush) (b, w)
    (fun _ s => exists wr' w', s = (with_writer b wr', w') /\
       flushed p d w0 log (with_writer b wr') w')
    (abandoned p w0).
Proof.
  intros (Hl & Ha & Hfr). eapply wp_conseq.
  { apply wp_zoom_fwd; [done..|]. cbn [fst snd].
    eapply (wp_always _ _ (fun s => bw_append s = false)).
    - by apply wp_flush_buf.
    - unfold BufWriter.flush. by rewrite flush_buf_append. }
  - intros _ s ([wr' w'] & -> & ((c & (Hp & Hf & _) & Hc) & Hbuf & Hfr') & Ha').
    exists wr', w'. split; [done|]. simpl in *. rewrite Hbuf, app_nil_r in Hc. subst c.
    split_and!; eauto with world.
  - intros s ([wr' w'] & -> & ((c & (Hp & _) & _) & Hfr') & _).
    split; [done|]. simpl in *. solve_frame.
Qed.

Lemma into_inner_flushed p d w0 c b w :
  flushed p d w0 c b w -> into_inner (b, w) = (Ok tt, (b, w)).
Proof.
  intros (Hbuf & _). unfold into_inner, on_writer, zoom, catch, mbind, ST_bind.
  cbn [fst snd]. unfold BufWriter.flush_buf. destruct b as [bp [h bf] bn bo bi b1 b2 bh].
  simpl in Hbuf |- *. by subst.
Qed.

(** A step on the file underneath. *)
Lemma wp_bind_inner {A B} (m : ST (File.t * World) A) (f : A -> ST (t * World) B)
    p w0 b w (Q1 : A -> File.t * World -> Prop) (E1 : File.t * World -> Prop) Q :
  wp m (BufWriter.inner (writer b), w) Q1 E1 ->
  (forall a h' w', Q1 a (h', w') ->
     wp (f a) (with_writer b (BufWriter.mk h' (BufWriter.buf (writer b))), w') Q (abandoned p w0)) ->
  (forall h' w', E1 (h', w') -> File.h_path h' = p /\ frame p w0 w') ->
  wp (on_writer (BufWriter.on_inner m) ≫= f) (b, w) Q (abandoned p w0).
Proof.
  intros Hm Hf HE. eapply wp_bind.
  - apply wp_zoom_fwd; [done..|]. apply wp_zoom_fwd; [done..|]. exact Hm.
  - intros a s ([b2 w2] & -> & [h w3] & [= -> ->] & HQ). by apply Hf.
  - intros s ([b2 w2] & -> & [h w3] & [= -> ->] & HE1). by apply HE.
Qed.

Lemma overwrite_count n rest :
  File.overwrite 6 (to_le 8 n) (header_bytes 0 ++ rest) = header_bytes n ++ rest.
Proof.
  unfold File.overwrite. rewrite !header_bytes_eq, <- (app_assoc _ (to_le 8 0) rest).
  rewrite ztake_app_exact by len_lia. unfold zeros. replace (Z.to_nat _) with 0%nat by len_lia.
  rewrite (app_assoc _ (to_le 8 0) rest), zdrop_app_exact by len_lia.
  by rewrite <- (app_assoc _ (to_le 8 n)).
Qed.

Definition metadata_of (p : path) (es : list entry) : SSTable.t :=
  SSTable.mk p (len es) (default [] (fst <$> head es)) (default [] (fst <$> last es))
    (len (sst_encode es)).

Lemma wp_seal p d w0 rest b w :
  flushed p d w0 (header_bytes 0 ++ rest) b w ->
  let c := header_bytes (entry_count b) ++ rest in
  wp seal (b, w)
    (fun m s => m = SSTable.mk (path_ b) (entry_count b) (default [] (min_key b))
         (default [] (max_key b)) (len c) /\
       frame p w0 s.2 /\ get_file p s.2 = Some (mkFile c c) /\ BufWriter.buf (writer s.1) = [])
    (abandoned p w0).
Proof.
  intros (Hbuf & Hpath & Happ & Hf & Hfr) c. unfold seal.
  eapply wp_bind_inner; [eapply (wp_seek_to p _ (fun _ _ => 6)); [done|exact Hf|lia]|..].
  2: { intros h' w' (Eh & Hw). simpl in Eh. subst h'. split; [done|]. simpl in *. solve_frame. }
  intros _ h1 w6 (Eh & Hw6). simpl in Eh, Hw6. subst h1. apply wp_bind_gets.
  eapply wp_bind_inner.
  { eapply (wp_write_all_at p); [done|exact Happ|by rewrite (get_file_same p w)|by rewrite len_to_le]. }
  2: { intros h' w' (? & Hw). split; [done|]. simpl in *. solve_frame. }
  intros _ h2 w7 (Hp2 & Hfr7 & Hg7). cbn [fst snd content durable File.h_pos] in Hp2, Hfr7, Hg7.
  simpl entry_count in Hg7. rewrite overwrite_count in Hg7. fold c in Hg7.
  eapply wp_bind_inner; [eapply (wp_sync_all p); [done|exact Hg7]|..].
  2: { intros h' w' (Eh & Hw). simpl in Eh. subst h'. split; [done|]. simpl in *. solve_frame. }
  intros _ h3 w8 (Eh & Hfr8 & Hg8). simpl in Eh, Hfr8, Hg8. subst h3.
  apply wp_bind_gets. eapply wp_bind.
  { apply wp_zoom_fwd; [done..|]. eapply (wp_metadata_len p); [done|exact Hg8]. }
  2: { intros s (w9 & -> & Hw9). split; [done|]. simpl in *. solve_frame. }
  intros n s (w9 & -> & -> & Hw9). apply wp_bind_gets, wp_ret. simpl in *.
  split_and!; [done|solve_frame| |done]. by rewrite (get_file_same p w8).
Qed.

Lemma wp_finish p d w0 es b w :
  built p d w0 es b w ->
  wp finish (b, w)
    (fun m s => m = metadata_of p es /\ frame p w0 s.2 /\
       get_file p s.2 = Some (mkFile (sst_encode es) (sst_encode es)) /\
       BufWriter.buf (writer s.1) = [])
    (abandoned p w0).
Proof.
  intros (Hb & Hp & Hn & Hoff & Hix & Hmin & Hmax & chunks & Hch & Hh).
  unfold finish. do 2 apply wp_bind_gets. cbn [fst].
  eapply wp_bind; [by apply wp_write_index| |done].
  intros _ s (wr0 & w1 & -> & Hb0). apply wp_bind_gets. cbn [fst].
  eapply wp_bind_write; [exact Hb0|]. intros wr1 w2 Hb1.
  eapply wp_bind_write; [exact Hb1|]. intros wr2 w3 Hb2.
  eapply wp_bind_write; [exact Hb2|]. intros wr3 w4 Hb3.
  eapply wp_bind; [by apply (wp_flush _ _ _ _ _ _ Hb3)| |done].
  intros _ s (wr4 & w5 & -> & Hfl).
  eapply wp_bind_step; [by eapply into_inner_flushed|done|].
  simpl data_hasher in Hfl. rewrite Hh, hasher_hash, Hch, Hoff, Hix, <- !app_assoc in Hfl.
  eapply wp_conseq; [by apply (wp_seal _ _ _ _ _ _ Hfl)| |done].
  cbn [path_ entry_count min_key max_key with_writer]. rewrite Hp, Hn, Hmin, Hmax.
  unfold metadata_of, sst_encode, footer_bytes. intros m s H. exact H.
Qed.
End BuilderFacts.

(** ** The index block *)

Lemma index_entry_len x : len (index_entry x) = 12 + len x.1.
Proof. unfold index_entry. len_lia. Qed.

Lemma len_le_index ix : len ix <= len (index_bytes ix).
Proof.
  induction ix as [|x ix IH]; [done|]. rewrite index_bytes_cons, len_app, index_entry_len.
  len_lia.
Qed.

Definition index_ok (x : bytes * Z) : Prop := len x.1 < 2 ^ 32 /\ 0 <= x.2 < 2 ^ 64.

Lemma parse_index_entry fuel pre k off rest acc :
  index_ok (k, off) ->
  SSTableReader.parse_index (S fuel) (len pre) (pre ++ index_entry (k, off) ++ rest) acc =
  SSTableReader.parse_index fuel (len (pre ++ index_entry (k, off)))
    (pre ++ index_entry (k, off) ++ rest) (BTreeMap.insert k off acc).
Proof.
  intros [Hk Ho]. cbn [fst snd] in *. pose proof (len_nonneg k).
  pose proof (len_nonneg pre). pose proof (len_nonneg rest).
  assert (Hl : len (pre ++ index_entry (k, off) ++ rest) = len pre + (12 + len k) + len rest)
    by (rewrite !len_app, index_entry_len; simpl; lia).
  cbn [SSTableReader.parse_index]. rewrite Hl.
  rewrite (proj2 (Z.ltb_lt (len pre) _)), (proj2 (Z.ltb_ge _ (len pre + 4))) by lia. cbn [negb].
  rewrite len_app, index_entry_len. cbn [fst]. unfold index_entry. cbn [fst snd].
  rewrite <- !app_assoc. rewrite (slice_app (len pre) (len pre + 4) pre) by len_lia. rewrite obind_Ok. cbv zeta.
  rewrite from_to_le_small by done. rewrite (proj2 (Z.ltb_ge _ (len pre + 4 + 8))) by lia.
  rewrite (app_assoc pre), (slice_app (len pre + 4) _ (pre ++ _)) by len_lia. rewrite obind_Ok.
  rewrite from_to_le_small by done.
  rewrite (proj2 (Z.ltb_ge _ (len pre + 4 + 8 + len k))) by lia.
  rewrite (app_assoc (pre ++ _)), (slice_app (len pre + 4 + 8) _ ((pre ++ _) ++ _)) by len_lia. rewrite obind_Ok.
  f_equal. lia.
Qed.

Lemma parse_index_ok ix : forall fuel pre acc,
  (length ix < fuel)%nat -> Forall index_ok ix -> BTreeMap.wf (acc ++ ix) ->
  SSTableReader.parse_index fuel (len pre) (pre ++ index_bytes ix) acc = Ok (acc ++ ix).
Proof.
  induction ix as [|[k off] ix IH]; intros [|fuel] pre acc Hfuel Hix Hwf;
    cbn [length] in Hfuel; try lia.
  - unfold index_bytes. simpl map. simpl concat. rewrite !app_nil_r.
    cbn [SSTableReader.parse_index]. by rewrite Z.ltb_irrefl.
  - inversion Hix; subst. rewrite index_bytes_cons, parse_index_entry by done.
    assert (Hins : BTreeMap.insert k off acc = acc ++ [(k, off)]).
    { apply BTreeMap.insert_above_all.
      change (acc ++ (k, off) :: ix) with (acc ++ [(k, off)] ++ ix) in Hwf. rewrite app_assoc in Hwf.
      unfold BTreeMap.wf in Hwf. rewrite fmap_app in Hwf.
      apply StronglySorted_app_1_l in Hwf. by apply BTreeMap.wf_snoc_inv in Hwf as [_ ?]. }
    rewrite Hins, app_assoc, IH; [by rewrite <- app_assoc|lia|done|by rewrite <- app_assoc].
Qed.

(** On any bytes the loop stops within its fuel, without a panic. *)
Lemma parse_index_total data : forall fuel pos acc,
  0 <= pos -> len data - pos < Z.of_nat fuel -> (0 < fuel)%nat ->
  exists ix, SSTableReader.parse_index fuel pos data acc = Ok ix.
Proof.
  induction fuel as [|fuel IH]; intros pos acc H0 Hf Hpos; [lia|].
  cbn [SSTableReader.parse_index].
  destruct (Z.ltb_spec pos (len data)); cbn [negb]; [|by eauto].
  destruct (Z.ltb_spec (len data) (pos + 4)); [by eauto|].
  rewrite (slice_ok pos (pos + 4)), obind_Ok by lia. cbv zeta.
  destruct (Z.ltb_spec (len data) (pos + 4 + 8)); [by eauto|].
  rewrite (slice_ok (pos + 4)), obind_Ok by lia.
  set (n := from_le (sub pos _ data)).
  assert (0 <= n) by (apply (from_le_bound 4); rewrite len_sub; lia).
  destruct (Z.ltb_spec (len data) (pos + 4 + 8 + n)); [by eauto|].
  rewrite slice_ok, obind_Ok by lia. apply IH; lia.
Qed.
