(* ===== verification/SstableReaderFacts.v ===== *)
(** Reading sorted tables back: opening a file the builder wrote, lookups and
    iteration over it, and opening a file with any content. *)

From Stdlib Require Import ZArith Lia String.
From coqutil Require Import Byte.
From stdpp Require Import base gmap list strings sorting.
From S2P Require Import Prelude Fmt Errors BTreeMap World WorldFacts Wal Sstable SstableFacts.
Open Scope list_scope.
Open Scope Z_scope.

Section ReaderFacts.
Context `{HC : Crc32} {HCok : Crc32Ok}.

Lemma len_footer es : len (footer_bytes es) = FOOTER_SIZE.
Proof. unfold footer_bytes. autorewrite with len. rewrite len_zeros by lia. done. Qed.

Lemma len_sst_encode es :
  len (sst_encode es) =
    index_start es + len (index_bytes (offsets HEADER_SIZE es)) + FOOTER_SIZE.
Proof. unfold sst_encode, index_start. rewrite !len_app, len_footer, len_header_bytes. lia. Qed.

(** The parts of the file. *)
Lemma sub_header es : sub 0 HEADER_SIZE (sst_encode es) = header_bytes (len es).
Proof. apply sub_0_app_exact. by rewrite len_header_bytes. Qed.

Lemma sub_footer es : sub (len (sst_encode es) - FOOTER_SIZE) FOOTER_SIZE (sst_encode es) = footer_bytes es.
Proof.
  rewrite len_sst_encode. unfold sst_encode. rewrite !app_assoc. apply sub_tail.
  - rewrite !len_app, len_header_bytes. unfold index_start. lia.
  - by rewrite len_footer.
Qed.

Lemma sub_index es :
  sub (index_start es) (len (sst_encode es) - FOOTER_SIZE - index_start es) (sst_encode es) =
  index_bytes (offsets HEADER_SIZE es).
Proof.
  rewrite len_sst_encode. unfold sst_encode. rewrite app_assoc. apply sub_app_exact.
  - rewrite len_app, len_header_bytes. done.
  - lia.
Qed.

(** The bytes of one entry, at its offset. *)
Lemma sub_entry es pre e post off n :
  es = pre ++ e :: post ->
  0 <= off -> 0 <= n -> off + n <= len (entry_bytes e) ->
  sub (HEADER_SIZE + len (data_block pre) + off) n (sst_encode es) = sub off n (entry_bytes e).
Proof.
  intros -> Ho Hn Hl. unfold sst_encode. rewrite data_block_app, data_block_cons.
  rewrite <- !app_assoc, app_assoc. rewrite sub_app_r by len_lia.
  rewrite sub_app_l; [f_equal|..]; autorewrite with len in *; lia.
Qed.

Lemma entry_in_file es pre e post :
  es = pre ++ e :: post ->
  HEADER_SIZE + len (data_block pre) + len (entry_bytes e) <= index_start es.
Proof.
  intros ->. unfold index_start. rewrite data_block_app, data_block_cons, !len_app.
  pose proof (len_nonneg (data_block post)). lia.
Qed.

Lemma offsets_ok es off :
  Forall entry_ok es -> 0 <= off -> off + len (data_block es) < 2 ^ 64 ->
  Forall index_ok (offsets off es).
Proof.
  revert off. induction es as [|e es IH]; intros off Hes Ho Hl; simpl; constructor.
  - inversion Hes as [|?? [Hk _]]; subst. split; simpl; [done|].
    pose proof (len_nonneg (data_block (e :: es))). lia.
  - inversion Hes; subst. pose proof (len_nonneg (entry_bytes e)).
    rewrite data_block_cons, len_app in Hl. apply IH; [done|lia|lia].
Qed.

(** [r] is an open reader of the file at [p], which holds the table [es]. *)
Definition reader_ok (p : path) (es : list entry) (r : SSTableReader.t) (w : World) : Prop :=
  File.h_path (SSTableReader.file r) = p /\
  SSTableReader.index r = offsets HEADER_SIZE es /\
  SSTableReader.entry_count r = len es /\
  SSTableReader.index_offset r = index_start es /\
  exists f, get_file p w = Some f /\ content f = sst_encode es.

Lemma reader_ok_same p es r w w' : same_files w w' -> reader_ok p es r w -> reader_ok p es r w'.
Proof.
  intros Hw (? & ? & ? & ? & f & Hf & ?). split_and!; [done..|]. exists f.
  by rewrite (get_file_same p w w').
Qed.

Lemma header_slices n :
  slice 0 4 (header_bytes n) = Ok MAGIC /\
  slice 4 6 (header_bytes n) = Ok (to_le 2 VERSION) /\
  slice 6 14 (header_bytes n) = Ok (to_le 8 n).
Proof.
  unfold header_bytes. split_and!.
  - by apply slice_app_start.
  - by apply slice_app.
  - rewrite app_assoc. apply slice_app_end; len_lia.
Qed.

Lemma footer_slices es :
  slice 0 8 (footer_bytes es) = Ok (to_le 8 (index_start es)) /\
  slice 8 12 (footer_bytes es) = Ok (to_le 4 (crc_hash (data_block es))).
Proof.
  unfold footer_bytes. split; [apply slice_app_start|apply slice_app]; len_lia.
Qed.

Lemma wp_sst_load p es f w0 s :
  sst_ok es -> at_pos p 0 w0 s -> get_file p w0 = Some f -> content f = sst_encode es ->
  wp (SSTableReader.load (len (sst_encode es))) s
    (fun r s' => reader_ok p es r s'.2 /\ same_files w0 s'.2) (unchanged p w0).
Proof.
  intros (Hwf & Hes & Hsz) Hs Hf Hc.
  pose proof (len_sst_encode es) as Hlen. unfold HEADER_SIZE, FOOTER_SIZE in *.
  pose proof (len_nonneg (index_bytes (offsets 14 es))).
  pose proof (len_nonneg (data_block es)).
  assert (Hst : index_start es = 14 + len (data_block es)) by done.
  pose proof (len_nonneg es).
  destruct (header_slices (len es)) as (Hs1 & Hs2 & Hs3).
  destruct (footer_slices es) as (Hs4 & Hs5). pose proof (len_es_le es).
  unfold SSTableReader.load, HEADER_SIZE, FOOTER_SIZE.
  eapply wp_bind; [apply (wp_read_at p f 14 0 w0); rewrite ?Hc; auto; lia| |done].
  intros hd s1 (-> & P1). rewrite Hc, sub_header.
  eapply wp_bind_lift; [exact Hs1|]. rewrite bool_decide_eq_true_2 by done. cbn [negb].
  eapply wp_bind_lift; [exact Hs2|]. cbv zeta. rewrite from_to_le_small by done.
  rewrite Z.eqb_refl. cbn [negb].
  eapply wp_bind_lift; [exact Hs3|]. rewrite from_to_le_small by lia.
  eapply wp_bind; [eapply (wp_seek_at p f _ _ w0 s1 Hf P1); rewrite ?Hc; lia| |done].
  cbv beta. intros _ s2 P2. rewrite Hc in P2.
  eapply wp_bind; [apply (wp_read_at p f 16 _ w0 s2 Hf P2); rewrite ?Hc; lia| |done].
  intros ft s3 (-> & P3). rewrite Hc. change (sub _ 16 _) with
    (sub (len (sst_encode es) - FOOTER_SIZE) FOOTER_SIZE (sst_encode es)). rewrite sub_footer.
  eapply wp_bind_lift; [exact Hs4|]. rewrite from_to_le_small by lia.
  eapply wp_bind_lift; [exact Hs5|].
  eapply wp_bind; [eapply (wp_seek_at p f _ _ w0 s3 Hf P3); lia| |done].
  cbv beta. intros _ s4 P4. rewrite (proj2 (Z.ltb_ge _ 0)) by lia.
  eapply wp_bind_lift; [done|].
  eapply wp_bind; [apply (wp_read_at p f _ _ w0 s4 Hf P4); rewrite ?Hc; lia| |done].
  intros ix s5 (-> & P5). rewrite Hc.
  pose proof (sub_index es) as Eix. unfold FOOTER_SIZE in Eix. rewrite Eix.
  eapply wp_bind_lift.
  { apply (parse_index_ok _ _ [] []).
    - pose proof (len_le_index (offsets HEADER_SIZE es)). unfold SSTableReader.fuel_for, len in *. lia.
    - apply offsets_ok; [done|done|unfold HEADER_SIZE; lia].
    - by apply offsets_wf. }
  eapply wp_bind; [eapply (wp_seek_at p f _ _ w0 s5 Hf P5); lia| |done].
  cbv beta. intros _ [h6 w6] (Hp & _ & Hw). apply wp_bind_gets, wp_ret. cbn [fst snd] in *.
  split; [|done]. split_and!; [done..|]. exists f. by rewrite (get_file_same p w0 w6).
Qed.

Lemma wp_sst_open p es f w :
  sst_ok es -> get_file p w = Some f -> content f = sst_encode es ->
  wp (SSTableReader.open p) w
    (fun r w' => reader_ok p es r w' /\ same_files w w') (same_files w).
Proof.
  intros Hok Hf Hc. eapply wp_bind; [by apply (wp_open p f)| |done].
  intros h w1 (-> & Hw1). eapply wp_bind; [by eapply (wp_metadata_len p f); [|rewrite (get_file_same p w w1)]|..].
  2: { intros w2 Hw2. by eapply same_files_trans. }
  intros n w2 (-> & Hw2). rewrite Hc. apply wp_of_wpr, wpr_scoped; [done|]. apply wpr_of_wp.
  eapply wp_conseq; [apply (wp_sst_load p es f w); try done|done|by intros s' [_ ?]].
  split_and!; [done|done|by eapply same_files_trans].
Qed.

(** ** Files of any content *)

(** What opening finds in a file: the index, the entry count and the index offset;
    or the error; or a panic, when the footer points past itself. *)
Definition inspect (c : bytes) : outcome (BTreeMap.t Z * Z * Z) :=
  if len c <? HEADER_SIZE then Err (Io UnexpectedEof)
  else if negb (bool_decide (sub 0 4 c = MAGIC)) then
    Err (Storage ("Invalid SSTable magic: expected ATKV, got " +:+ debug_bytes (sub 0 4 c)))
  else if negb (from_le (sub 4 2 c) =? VERSION) then
    Err (Storage ("Unsupported SSTable version: " +:+ dec (from_le (sub 4 2 c))))
  else if len c <? FOOTER_SIZE then Err (Io InvalidInput)
  else
    let index_offset := from_le (sub (len c - FOOTER_SIZE) 8 c) in
    if 2 ^ 63 <=? index_offset then Err (Io InvalidInput)
    else if len c - FOOTER_SIZE <? index_offset then Panic
    else
      let data := sub index_offset (len c - FOOTER_SIZE - index_offset) c in
      index ← SSTableReader.parse_index (SSTableReader.fuel_for data) 0 data BTreeMap.empty;
      mret (index, from_le (sub 6 8 c), index_offset).

(** A reader's fields, in the same form. *)
Definition fields (r : SSTableReader.t) : BTreeMap.t Z * Z * Z :=
  (SSTableReader.index r, SSTableReader.entry_count r, SSTableReader.index_offset r).

Lemma slice_sub a b off n (c : bytes) :
  0 <= a -> a <= b -> b <= n -> 0 <= off -> off + n <= len c ->
  slice a b (sub off n c) = Ok (sub (off + a) (b - a) c).
Proof.
  intros. rewrite slice_ok by (rewrite ?len_sub; lia). f_equal. by apply sub_sub; lia.
Qed.

Lemma wpr_load_any p f w0 s :
  get_file p w0 = Some f -> at_pos p 0 w0 s -> len (content f) < 2 ^ 63 ->
  wpr (SSTableReader.load (len (content f))) s
    (fun r s' => (x ← r; mret (fields x)) = inspect (content f) /\ unchanged p w0 s') (unchanged p w0).
Proof.
  intros Hf Hs Hlen. set (c := content f) in *. unfold SSTableReader.load, inspect, HEADER_SIZE, FOOTER_SIZE.
  pose proof (len_nonneg c).
  eapply wpr_bind; [by apply (wpr_read_any p f 14 0 w0)| |done]. fold c.
  intros r s1 (-> & U1 & P1). unfold read_result in *. destruct (Z.leb_spec (0 + 14) (len c)) as [H14|H14].
  2: { rewrite (proj2 (Z.ltb_lt _ _)) by lia. by cbn; split. }
  rewrite (proj2 (Z.ltb_ge _ _)) by lia. specialize (P1 eq_refl). simpl in P1.
  apply wpr_bind_lift. rewrite slice_sub by lia. change (0 + 0) with 0. change (4 - 0) with 4.
  destruct (bool_decide (sub 0 4 c = MAGIC)); [|by apply wpr_fail; split]. cbn [negb].
  apply wpr_bind_lift. rewrite slice_sub by lia. change (0 + 4) with 4. change (6 - 4) with 2. cbv zeta.
  destruct (_ =? VERSION); [|by apply wpr_fail; split]. cbn [negb].
  apply wpr_bind_lift. rewrite slice_sub by lia. change (0 + 6) with 6. change (14 - 6) with 8.
  eapply wpr_bind; [by apply (wpr_seek_any p f _ _ w0 s1 Hf P1)| |done]. fold c.
  intros r s2 (-> & U2 & P2). unfold seek_result in *.
  rewrite (proj2 (Z.ltb_lt _ (2 ^ 63))), andb_true_r in * by lia.
  destruct (Z.leb_spec 0 (len c + - (16))) as [H16|H16].
  2: { rewrite (proj2 (Z.ltb_lt _ 16)) by lia. by cbn; split. }
  rewrite (proj2 (Z.ltb_ge _ 16)) by lia. specialize (P2 eq_refl).
  eapply wpr_bind; [by apply (wpr_read_any p f 16 _ w0 s2 Hf P2)| |done]. fold c.
  intros r s3 (-> & U3 & P3). unfold read_result in *.
  rewrite (proj2 (Z.leb_le (len c + - (16) + 16) _)) in * by lia. specialize (P3 eq_refl).
  apply wpr_bind_lift. rewrite slice_sub by lia. cbv zeta.
  replace (len c + - (16) + 0) with (len c - 16) by lia. change (8 - 0) with 8.
  apply wpr_bind_lift. rewrite slice_sub by lia.
  set (off := from_le (sub (len c - 16) 8 c)).
  assert (0 <= off) by (apply (from_le_bound 8); apply len_sub; lia).
  eapply wpr_bind; [by apply (wpr_seek_any p f _ _ w0 s3 Hf P3)| |done].
  intros r s4 (-> & U4 & P4). unfold seek_result in *. rewrite (proj2 (Z.leb_le 0 off)) in * by lia. cbn [andb] in *.
  destruct (Z.ltb_spec off (2 ^ 63)) as [Hoff|Hoff].
  2: { rewrite (proj2 (Z.leb_le (2 ^ 63) _)) by lia. by cbn; split. }
  rewrite (proj2 (Z.leb_gt (2 ^ 63) _)) by lia. specialize (P4 eq_refl).
  apply wpr_bind_lift. destruct (Z.ltb_spec (len c - 16 - off) 0) as [Hbig|Hsmall].
  { rewrite (proj2 (Z.ltb_lt _ off)) by lia. by cbn; split. }
  rewrite (proj2 (Z.ltb_ge _ off)) by lia. set (n := len c - 16 - off) in *.
  eapply wpr_bind_wp; [apply (wp_read_at p f n off w0 s4 Hf P4); fold c; lia| |done].
  intros data s5 (-> & P5). fold c.
  apply wpr_bind_lift.
  destruct (parse_index_total (sub off n c) (SSTableReader.fuel_for (sub off n c)) 0 BTreeMap.empty)
    as [ix ->]; [unfold SSTableReader.fuel_for, len; lia..|].
  eapply wpr_bind; [by apply (wpr_seek_any p f _ _ w0 s5 Hf P5)| |done].
  intros r s6 (-> & U6 & _). unfold seek_result. simpl. by apply wpr_bind_gets, wpr_ret.
Qed.


Lemma wpr_open_any p f w :
  get_file p w = Some f -> len (content f) < 2 ^ 63 ->
  wpr (SSTableReader.open p) w
    (fun r w' => (x ← r; mret (fields x)) = inspect (content f) /\ same_files w w') (same_files w).
Proof.
  intros Hf Hlen. eapply wpr_bind_wp; [by apply (wp_open p f)| |done].
  intros h w1 (-> & Hw1).
  eapply wpr_bind_wp; [by eapply (wp_metadata_len p f); [|rewrite (get_file_same p w w1)]| |].
  2: { intros w2 Hw2. by eapply same_files_trans. }
  intros n w2 (-> & Hw2). apply wpr_scoped; [done|].
  eapply wpr_conseq; [apply (wpr_load_any p f w); try done|by intros r s [? [_ ?]]|by intros s' [_ ?]].
  split_and!; [done|done|by eapply same_files_trans].
Qed.

Lemma inspect_panic c :
  inspect c = Panic ->
  len c - FOOTER_SIZE < from_le (sub (len c - FOOTER_SIZE) 8 c) < 2 ^ 63.
Proof.
  unfold inspect. repeat case_match; try done; [intros _; lia|]. cbv zeta.
  intros Hp. apply obind_panic in Hp as [Hp|[ix Hp]]; [|done].
  destruct (parse_index_total (sub (from_le (sub (len c - FOOTER_SIZE) 8 c))
    (len c - FOOTER_SIZE - from_le (sub (len c - FOOTER_SIZE) 8 c)) c)
    (SSTableReader.fuel_for (sub (from_le (sub (len c - FOOTER_SIZE) 8 c))
    (len c - FOOTER_SIZE - from_le (sub (len c - FOOTER_SIZE) 8 c)) c)) 0 BTreeMap.empty) as [ix E];
    [unfold SSTableReader.fuel_for, len; lia..|]. congruence.
Qed.

Lemma inspect_fuel c : inspect c <> OutOfFuel.
Proof.
  unfold inspect. repeat case_match; try done. cbv zeta.
  destruct (parse_index_total (sub (from_le (sub (len c - FOOTER_SIZE) 8 c))
    (len c - FOOTER_SIZE - from_le (sub (len c - FOOTER_SIZE) 8 c)) c)
    (SSTableReader.fuel_for (sub (from_le (sub (len c - FOOTER_SIZE) 8 c))
    (len c - FOOTER_SIZE - from_le (sub (len c - FOOTER_SIZE) 8 c)) c)) 0 BTreeMap.empty) as [ix ->];
    unfold SSTableReader.fuel_for, len; lia || done.
Qed.


(** ** Entries *)

Definition entry_head (e : entry) : bytes := to_le 4 (len e.1) ++ to_le 4 (value_len e.2).

Lemma entry_parts e :
  sub 0 8 (entry_bytes e) = entry_head e /\
  sub 8 (len e.1) (entry_bytes e) = e.1 /\
  sub (8 + len e.1) (len (default [] e.2)) (entry_bytes e) = default [] e.2.
Proof.
  unfold entry_bytes, entry_head. split_and!.
  - rewrite app_assoc. apply sub_0_app_exact. len_lia.
  - rewrite app_assoc. apply sub_app_exact; len_lia.
  - rewrite !app_assoc. apply sub_tail; len_lia.
Qed.

Lemma head_slices e :
  slice 0 4 (entry_head e) = Ok (to_le 4 (len e.1)) /\
  slice 4 8 (entry_head e) = Ok (to_le 4 (value_len e.2)).
Proof. unfold entry_head. split; [apply slice_app_start|apply slice_app_end]; len_lia. Qed.

Lemma entry_lens e :
  entry_ok e -> 0 <= len e.1 < 2 ^ 32 /\ 0 <= value_len e.2 < 2 ^ 32 /\
    (value_len e.2 =? TOMBSTONE_MARKER) = (match e.2 with None => true | Some _ => false end) /\
    match e.2 with Some v => value_len e.2 = len v | None => True end.
Proof.
  intros [Hk Hv]. pose proof (len_nonneg e.1). unfold value_len, TOMBSTONE_MARKER.
  destruct e.2 as [v|]; [pose proof (len_nonneg v)|]; split_and!; lia.
Qed.

(** Reading the two length fields at the offset of an entry. *)
Lemma wp_read_head p es pre e post f w0 s :
  es = pre ++ e :: post -> get_file p w0 = Some f -> content f = sst_encode es ->
  at_pos p (HEADER_SIZE + len (data_block pre)) w0 s ->
  wp (File.read_exact 8) s
    (fun bs s' => bs = entry_head e /\ at_pos p (HEADER_SIZE + len (data_block pre) + 8) w0 s')
    (unchanged p w0).
Proof.
  intros Hes Hf Hc Hs. pose proof (entry_in_file es pre e post Hes).
  pose proof (len_sst_encode es). pose proof (len_nonneg (data_block pre)).
  pose proof (len_nonneg (index_bytes (offsets HEADER_SIZE es))).
  rewrite len_entry_bytes in *. unfold HEADER_SIZE, FOOTER_SIZE in *. pose_len.
  eapply wp_conseq; [eapply (wp_read_at p f 8 _ w0 s Hf Hs); rewrite ?Hc; lia| |done].
  intros bs s' (-> & Hs'). split; [|done]. rewrite Hc, <- (proj1 (entry_parts e)).
  rewrite <- (sub_entry es pre e post 0 8) by (done || rewrite ?len_entry_bytes; lia).
  f_equal. unfold HEADER_SIZE. lia.
Qed.

(** Reading a part of an entry's body. *)
Lemma wp_read_body p es pre e post f w0 s off n :
  es = pre ++ e :: post -> get_file p w0 = Some f -> content f = sst_encode es ->
  at_pos p (HEADER_SIZE + len (data_block pre) + off) w0 s ->
  0 <= off -> 0 <= n -> off + n <= len (entry_bytes e) ->
  wp (File.read_exact n) s
    (fun bs s' => bs = sub off n (entry_bytes e) /\
       at_pos p (HEADER_SIZE + len (data_block pre) + off + n) w0 s')
    (unchanged p w0).
Proof.
  intros Hes Hf Hc Hs Ho Hn Hl. pose proof (entry_in_file es pre e post Hes).
  pose proof (len_sst_encode es). pose proof (len_nonneg (data_block pre)).
  pose proof (len_nonneg (index_bytes (offsets HEADER_SIZE es))).
  unfold FOOTER_SIZE, HEADER_SIZE in *.
  eapply wp_conseq; [eapply (wp_read_at p f n _ w0 s Hf Hs); rewrite ?Hc; lia| |done].
  intros bs s' (-> & Hs'). split; [|done]. rewrite Hc. by apply (sub_entry es pre e post).
Qed.

Lemma reader_ok_unchanged p es r w w0 s :
  reader_ok p es r w0 -> same_files w0 w -> unchanged p w0 s ->
  let r' := SSTableReader.mk s.1 (SSTableReader.index r) (SSTableReader.entry_count r)
              (SSTableReader.index_offset r) in
  reader_ok p es r' s.2 /\ same_files w0 s.2.
Proof.
  intros Hr Hw [Hp Hs] r'. split; [|done]. apply (reader_ok_same p es r' w0); [done|].
  destruct Hr as (_ & ? & ? & ? & ?). by split_and!.
Qed.

(** ** Lookup *)

Lemma wp_read_value p es pre k v post r w :
  sst_ok es -> reader_ok p es r w -> es = pre ++ (k, v) :: post ->
  wp (SSTableReader.read_value (HEADER_SIZE + len (data_block pre))) (r, w)
    (fun res s => res = v /\ reader_ok p es s.1 s.2 /\ same_files w s.2)
    (fun s => reader_ok p es s.1 s.2 /\ same_files w s.2).
Proof.
  intros (Hwf & Hes & Hsz) Hr Hsplit. pose proof Hr as (Hp & _ & _ & _ & f & Hf & Hc).
  assert (He : entry_ok (k, v)) by (rewrite Hsplit, Forall_app, Forall_cons in Hes; tauto).
  destruct (entry_lens _ He) as (Hk & Hv & Htomb & Hvl). cbn [fst snd] in *.
  destruct (head_slices (k, v)) as [Hs1 Hs2]. destruct (entry_parts (k, v)) as (_ & _ & Hval).
  pose proof (entry_in_file es pre (k, v) post Hsplit) as Hin.
  pose proof (len_sst_encode es). pose proof (len_nonneg (data_block pre)).
  pose proof (len_nonneg (index_bytes (offsets HEADER_SIZE es))).
  rewrite len_entry_bytes in Hin. pose proof (len_nonneg (default [] v)). cbn [fst snd] in *.
  assert (HE : forall t, unchanged p w t -> reader_ok p es (SSTableReader.mk t.1
      (SSTableReader.index r) (SSTableReader.entry_count r) (SSTableReader.index_offset r)) t.2 /\
      same_files w t.2) by (intros t Ht; by apply (reader_ok_unchanged p es r w w)).
  unfold HEADER_SIZE, FOOTER_SIZE in *.
  eapply wp_bind_zoom; [done..|eapply (wp_seek_at p f _ (File.h_pos (SSTableReader.file r)) w); [done|by split_and!|lia]| |exact HE].
  cbv beta. intros _ [h1 w1] P1.
  eapply wp_bind_zoom; [done..|eapply (wp_read_head p es pre (k, v)); done| |exact HE].
  intros hd [h2 w2] (-> & P2). eapply wp_bind_lift; [exact Hs1|]. eapply wp_bind_lift; [exact Hs2|].
  cbn [fst snd]. rewrite !from_to_le_small by done.
  eapply wp_bind_zoom; [done..|eapply (wp_seek_at p f _ _ w (h2, w2) Hf P2)| |exact HE];
    destruct P2 as (_ & Ep & _); unfold HEADER_SIZE in Ep; cbn [fst] in *; rewrite Ep; [lia|].
  intros _ [h3 w3] P3. rewrite Htomb. destruct v as [v|]; cbn [from_option] in *.
  2: { apply wp_ret. split; [done|]. apply (HE (h3, w3)). by eapply at_pos_unchanged. }
  rewrite Hvl. eapply wp_bind_zoom; [done..| | |exact HE].
  { eapply (wp_read_body p es pre (k, Some v) post f w (h3, w3) (8 + len k) (len v)); try done;
      rewrite ?len_entry_bytes; simpl; try lia.
    unfold HEADER_SIZE. by rewrite Z.add_assoc. }
  intros bs [h4 w4] (-> & P4). apply wp_ret. unfold id in Hval. rewrite Hval. split; [done|].
  apply (HE (h4, w4)). by eapply at_pos_unchanged.
Qed.

Lemma wpr_sst_get p es k r w :
  sst_ok es -> reader_ok p es r w ->
  wpr (SSTableReader.get k) (r, w)
    (fun res s => res = (match BTreeMap.get k es with Some v => Ok v | None => Err KeyNotFound end) /\
       reader_ok p es s.1 s.2 /\ same_files w s.2)
    (fun s => reader_ok p es s.1 s.2 /\ same_files w s.2).
Proof.
  intros Hok Hr. pose proof Hok as (Hwf & _). pose proof Hr as (_ & Hix & _).
  unfold SSTableReader.get. apply wpr_bind_gets. cbn [fst]. rewrite Hix.
  pose proof (get_offsets k es HEADER_SIZE Hwf) as Hg.
  destruct (BTreeMap.get k es) as [v|]; [|rewrite Hg; by apply wpr_fail].
  destruct Hg as (pre & post & Hsplit & ->).
  eapply wpr_conseq; [apply wpr_of_wp; by apply (wp_read_value p es pre k v post)| |done].
  by intros res s (a & -> & -> & HQ).
Qed.

(** The range check answers [false] only for keys outside the table. *)
Lemma might_contain_sound p es k v r w :
  sst_ok es -> reader_ok p es r w -> BTreeMap.get k es = Some v ->
  SSTableReader.might_contain k r = true.
Proof.
  intros (Hwf & _) (_ & Hix & _) Hg. unfold SSTableReader.might_contain.
  unfold SSTableReader.min_key, SSTableReader.max_key. rewrite Hix.
  destruct (BTreeMap.get_Some_range k v es Hwf Hg) as (lo & hi & Hlo & Hhi & H1 & H2).
  assert (E1 : BTreeMap.first_key (offsets HEADER_SIZE es) = BTreeMap.first_key es) by by destruct es.
  assert (E2 : BTreeMap.last_key (offsets HEADER_SIZE es) = BTreeMap.last_key es).
  { unfold BTreeMap.last_key. by rewrite <- !fmap_last, offsets_keys. }
  by rewrite E1, E2, Hlo, Hhi, H1, H2.
Qed.

(** ** Iteration *)

(** A caller's [for] loop over the iterator, stopping at the first error. *)
Fixpoint drain (fuel : nat) : ST (SSTableIterator.t * World) (list entry) := fun s =>
  match fuel with
  | O => (OutOfFuel, s)
  | S fuel' =>
      match SSTableIterator.next s with
      | (None, s') => (Ok [], s')
      | (Some r, s') => (e ← lift r; es ← drain fuel'; mret (e :: es)) s'
      end
  end.

(** The iterator after the entries [pre] of [es]. *)
Definition iter_at (p : path) (es pre : list entry) (w0 : World)
    (s : SSTableIterator.t * World) : Prop :=
  at_pos p (HEADER_SIZE + len (data_block pre)) w0 (SSTableIterator.file s.1, s.2) /\
  SSTableIterator.current_offset s.1 = HEADER_SIZE + len (data_block pre) /\
  SSTableIterator.end_offset s.1 = index_start es.

Lemma wp_next_entry p es pre e post f w0 s :
  sst_ok es -> es = pre ++ e :: post -> get_file p w0 = Some f -> content f = sst_encode es ->
  iter_at p es pre w0 s ->
  wp SSTableIterator.next_entry s
    (fun r s' => r = e /\ iter_at p es (pre ++ [e]) w0 s') (fun s' => same_files w0 s'.2).
Proof.
  destruct s as [it w]. intros (Hwf & Hes & Hsz) Hsplit Hf Hc (Hpos & Hcur & Hend). cbn [fst snd] in *.
  assert (He : entry_ok e) by (rewrite Hsplit, Forall_app, Forall_cons in Hes; tauto).
  destruct (entry_lens _ He) as (Hk & Hv & Htomb & Hvl).
  destruct (head_slices e) as [Hs1 Hs2]. destruct (entry_parts e) as (_ & Hkey & Hval).
  pose proof (entry_in_file es pre e post Hsplit) as Hin.
  pose proof (len_sst_encode es). pose proof (len_nonneg (data_block pre)).
  pose proof (len_nonneg (index_bytes (offsets HEADER_SIZE es))).
  rewrite len_entry_bytes in Hin. pose proof (len_nonneg (default [] e.2)).
  assert (HE : forall (t : File.t * World), unchanged p w0 t -> same_files w0 t.2) by by intros t [_ ?].
  eapply wp_bind_zoom; [done..|by eapply (wp_read_head p es pre e)| |exact HE].
  intros hd [h1 w1] (-> & P1). eapply wp_bind_lift; [exact Hs1|]. eapply wp_bind_lift; [exact Hs2|].
  cbn [fst snd]. rewrite !from_to_le_small by done.
  eapply wp_bind_zoom; [done..|eapply (wp_read_body p es pre e post f w0 (h1, w1)); try done; rewrite ?len_entry_bytes; lia| |exact HE].
  intros k [h2 w2] (-> & P2). rewrite Hkey, Htomb. cbn [fst snd].
  eapply wp_bind with (E := fun s' : SSTableIterator.t * World => same_files w0 s'.2)
    (Q := fun r s' => r = (e.2, 8 + len e.1 + len (default [] e.2)) /\ exists h3 w3,
      s' = (SSTableIterator.mk h3 (SSTableIterator.end_offset it) (SSTableIterator.current_offset it), w3) /\
      at_pos p (HEADER_SIZE + len (data_block pre) + 8 + len e.1 + len (default [] e.2)) w0 (h3, w3));
    [|intros r s' (-> & h3 & w3 & -> & P3)|done].
  - destruct e.2 as [v|] eqn:Ev; cbn [from_option] in *.
    + rewrite Hvl. eapply wp_bind_zoom; [done..| | |exact HE].
      { eapply (wp_read_body p es pre e post f w0 (h2, w2) (8 + len e.1) (len v)); try done;
          rewrite ?len_entry_bytes, ?Ev; simpl; try lia. by rewrite Z.add_assoc. }
      intros bs [h3 w3] (-> & P3). apply wp_ret. unfold id in *. rewrite Hval. split; [done|].
      exists h3, w3. split; [done|]. by rewrite !Z.add_assoc in P3.
    + apply wp_ret. rewrite len_nil, !Z.add_0_r. split; [done|]. eauto.
  - apply wp_bind_modify; [done|]. apply wp_ret. split; [by destruct e|].
    unfold iter_at. simpl. rewrite Hcur, data_block_snoc, len_app, len_entry_bytes, !Z.add_assoc.
    rewrite as_u64_small by (unfold HEADER_SIZE, FOOTER_SIZE in *; lia). done.
Qed.

Lemma wp_drain p es post f w0 : forall pre s fuel,
  sst_ok es -> es = pre ++ post -> get_file p w0 = Some f -> content f = sst_encode es ->
  iter_at p es pre w0 s -> (length post < fuel)%nat ->
  wp (drain fuel) s (fun r s' => r = post /\ same_files w0 s'.2) (fun s' => same_files w0 s'.2).
Proof.
  induction post as [|e post IH]; intros pre s [|fuel] Hok Hsplit Hf Hc Hat Hfuel;
    cbn [length] in Hfuel; try lia; unfold wp; cbn [drain]; unfold SSTableIterator.next;
    destruct Hat as (Hp & Hcur & Hend); rewrite Hcur, Hend.
  - rewrite app_nil_r in Hsplit. subst pre. rewrite (proj2 (Z.leb_le _ _)) by done.
    destruct Hp as (_ & _ & ?). done.
  - pose proof (entry_in_file es pre e post Hsplit) as Hin. rewrite len_entry_bytes in Hin.
    rewrite (proj2 (Z.leb_gt _ _)) by (pose_len; pose proof (len_nonneg (default [] e.2)); lia).
    pose proof (wp_next_entry p es pre e post f w0 s Hok Hsplit Hf Hc ltac:(by split_and!)) as Hn.
    unfold wp in Hn. destruct (SSTableIterator.next_entry s) as [[r|er| |] s1]; try done.
    destruct Hn as [[-> Hat1] Hq].
    assert (Hrec : wp (es ← drain fuel; mret (e :: es)) s1
      (fun r s' => r = e :: post /\ same_files w0 s'.2) (fun s' => same_files w0 s'.2)).
    { eapply wp_bind; [apply (IH (pre ++ [e]) s1 fuel); try done; [by rewrite <- app_assoc|lia]| |done].
      intros r s' (-> & ?). by apply wp_ret. }
    unfold wp in Hrec. unfold mbind at 1, ST_bind at 1, lift. cbn beta iota.
    destruct ((es ← drain fuel; mret (e :: es)) s1) as [[r|er| |] s2]; naive_solver.
Qed.

End ReaderFacts.
