(* ===== verification/Storage.v ===== *)
(** The storage manager: [src/src/storage/manager.rs].  Its lock is held for the
    whole of [get] and for the insertion in [flush], and the engine calls [flush]
    under its own write lock, so a method is a step on the manager's state. *)

From Stdlib Require Import ZArith Lia String Ascii.
From stdpp Require Import base gmap list strings sorting.
From S2P Require Import Prelude Fmt Errors BTreeMap Memtable World WorldFacts Wal Sstable.
Open Scope string_scope.
Open Scope list_scope.
Open Scope Z_scope.

(** ** [Path::file_stem] *)

(** The text around the last dot. *)
Fixpoint rsplit_dot (s : string) : option (string * string) :=
  match s with
  | "" => None
  | String c s' =>
      match rsplit_dot s' with
      | Some (before, after) => Some (String c before, after)
      | None => if decide (c = "."%char) then Some ("", s') else None
      end
  end.

Definition file_stem (name : string) : string :=
  if decide (name = "..") then name
  else
    match rsplit_dot name with
    | Some (before, _) => if decide (before = "") then name else before
    | None => name
    end.

Module StorageManager.

(** [pub struct StorageManager]. *)
Record t := mk {
  data_dir : string;
  sstables : list SSTableReader.t;
  next_sstable_id : Z
}.

(** [sstable_path_with_dir] and [sstable_path]. *)
Definition sstable_name (id : Z) : string := "sstable_" +:+ dec06 id +:+ ".sst".
Definition sstable_path_with_dir (dir : string) (id : Z) : path := (dir, sstable_name id).
Definition sstable_path (st : t) (id : Z) : path := sstable_path_with_dir (data_dir st) id.

Definition parse_sstable_id (name : string) : option Z :=
  id_str ← strip_prefix "sstable_" (file_stem name);
  parse_u64 id_str.

(** The loop of [open] over the directory. *)
Definition discover (entries : list (string * bool)) : list Z :=
  omap (fun e : string * bool => if e.2 then parse_sstable_id e.1 else None) entries.

(** [sort] then [reverse]. *)
Definition newest_first (ids : list Z) : list Z := reverse (merge_sort Z.le ids).

(** The loop of [open] over the ids. *)
Fixpoint open_all (dir : string) (ids : list Z) : ST World (list SSTableReader.t) :=
  match ids with
  | [] => mret []
  | id :: ids' =>
      reader ← SSTableReader.open (sstable_path_with_dir dir id);
      rest ← open_all dir ids';
      mret (reader :: rest)
  end.

Definition open `{HSt : Status} (dir : string) : ST World t :=
  _ ← create_dir_all dir;
  entries ← read_dir dir;
  let sstable_ids := newest_first (discover entries) in
  sstables ← open_all dir sstable_ids;
  let next_id := match sstable_ids with id :: _ => as_u64 (id + 1) | [] => 1 end in
  mret (mk dir sstables next_id).

(** The loop of [get]: the readers' cursors move as they are consulted. *)
Fixpoint search (key : bytes) (readers : list SSTableReader.t) (w : World) :
    outcome (option bytes) * (list SSTableReader.t * World) :=
  match readers with
  | [] => (Ok None, ([], w))
  | r :: rs =>
      let continue r' w' :=
        let '(res, (rs', w'')) := search key rs w' in (res, (r' :: rs', w'')) in
      if negb (SSTableReader.might_contain key r) then continue r w
      else
        match SSTableReader.get key (r, w) with
        | (Ok found, (r', w')) => (Ok found, (r' :: rs, w'))
        | (Err KeyNotFound, (r', w')) => continue r' w'
        | (Err e, (r', w')) => (Err e, (r' :: rs, w'))
        | (Panic, (r', w')) => (Panic, (r' :: rs, w'))
        | (OutOfFuel, (r', w')) => (OutOfFuel, (r' :: rs, w'))
        end
  end.

Definition get (key : bytes) : ST (t * World) (option bytes) := fun s =>
  let '(res, (rs', w')) := search key (sstables s.1) s.2 in
  (res, (mk (data_dir s.1) rs' (next_sstable_id s.1), w')).

Section Flush.
Context `{HC : Crc32} `{HT : IoText}.

(** The loop of [flush] over the table. *)
Fixpoint add_all (entries : list (bytes * MemTableEntry)) :
    ST (SSTableBuilder.t * World) unit :=
  match entries with
  | [] => mret tt
  | (key, entry) :: rest =>
      _ ← match entry with
          | Value v => SSTableBuilder.add key v
          | Tombstone => SSTableBuilder.add_tombstone key
          end;
      add_all rest
  end.

(** The builder's part of [flush]: the file at [p] from the entries. *)
Definition build_sstable (p : path) (entries : list (bytes * MemTableEntry)) :
    ST World SSTable.t :=
  builder ← SSTableBuilder.new p;
  scoped builder SSTableBuilder.drop (_ ← add_all entries; SSTableBuilder.finish).

Definition on_world {A} (m : ST World A) : ST (t * World) A :=
  zoom (fun s : t * World => s.2) (fun w s => (s.1, w)) m.

(** [flush] up to the lock on the list of tables: the file is written and a
    reader opened, and nobody can see it yet. *)
Definition prepare (memtable : MemTable.t) : ST (t * World) (SSTable.t * SSTableReader.t) :=
  id ← gets (fun s : t * World => next_sstable_id s.1);
  _ ← modify (fun s : t * World =>
        (mk (data_dir s.1) (sstables s.1) (as_u64 (id + 1)), s.2));
  p ← gets (fun s : t * World => sstable_path s.1 id);
  metadata ← on_world (build_sstable p (MemTable.iter memtable));
  reader ← on_world (SSTableReader.open p);
  mret (metadata, reader).

(** [flush] under that lock. *)
Definition publish (reader : SSTableReader.t) : ST (t * World) unit :=
  modify (fun s : t * World =>
    (mk (data_dir s.1) (reader :: sstables s.1) (next_sstable_id s.1), s.2)).

Definition flush (memtable : MemTable.t) : ST (t * World) SSTable.t :=
  if MemTable.is_empty memtable then fail (Storage "Cannot flush empty MemTable")
  else
    x ← prepare memtable;
    _ ← publish x.2;
    mret x.1.
End Flush.

(** [compact] is a [todo!()]. *)
Definition compact : ST (t * World) unit := lift Panic.

Definition sstable_count (st : t) : Z := len (sstables st).

End StorageManager.
