(* ===== verification/StorageFacts.v ===== *)
(** Facts about the storage manager: file names and ids, lookups newest table
    first, flushing a table, and reopening a directory. *)

From Stdlib Require Import ZArith Lia String Ascii.
From stdpp Require Import base gmap list strings sorting.
From S2P Require Import Prelude Fmt Errors BTreeMap Memtable World WorldFacts Wal Sstable.
From S2P Require Import SstableFacts SstableReaderFacts Storage.
Open Scope string_scope.
Open Scope list_scope.
Open Scope Z_scope.

Import StorageManager.

(** ** Names *)

Lemma rsplit_dot_sst s : rsplit_dot (s +:+ ".sst") = Some (s, "sst").
Proof.
  induction s as [|c s IH]; [done|].
  change (String c s +:+ ".sst") with (String c (s +:+ ".sst")). simpl rsplit_dot. by rewrite IH.
Qed.

Lemma string_app_assoc (a b c : string) : a +:+ (b +:+ c) = (a +:+ b) +:+ c.
Proof. induction a as [|x a IH]; [done|]. simpl. unfold String.app. simpl. f_equal. exact IH. Qed.

Lemma parse_sstable_name n : 0 <= n < 2 ^ 64 -> parse_sstable_id (sstable_name n) = Some n.
Proof.
  intros Hn. unfold parse_sstable_id, sstable_name, file_stem.
  rewrite string_app_assoc, rsplit_dot_sst.
  rewrite decide_False by done. rewrite decide_False by done.
  rewrite strip_prefix_app. by apply parse_u64_dec06.
Qed.

Lemma sstable_name_inj a b :
  0 <= a < 2 ^ 64 -> 0 <= b < 2 ^ 64 -> sstable_name a = sstable_name b -> a = b.
Proof.
  intros Ha Hb E. apply (f_equal parse_sstable_id) in E. rewrite !parse_sstable_name in E by done.
  by injection E.
Qed.

(** ** Tables from a memtable *)

Definition to_opt (e : MemTableEntry) : option bytes :=
  match e with Value v => Some v | Tombstone => None end.

Definition entries_of (d : BTreeMap.t MemTableEntry) : list entry :=
  map (fun b => (b.1, to_opt b.2)) d.

Lemma entries_of_keys d : (entries_of d).*1 = d.*1.
Proof. induction d as [|b d IH]; [done|]. simpl. f_equal. exact IH. Qed.

Lemma entries_of_wf d : BTreeMap.wf d -> BTreeMap.wf (entries_of d).
Proof. unfold BTreeMap.wf. by rewrite entries_of_keys. Qed.

Lemma get_entries_of k d : BTreeMap.get k (entries_of d) = to_opt <$> BTreeMap.get k d.
Proof.
  induction d as [|[k' e] d IH]; [done|]. simpl. by destruct (bytes_cmp k k').
Qed.

Lemma len_index_offsets off es :
  len (index_bytes (offsets off es)) = foldr (fun e acc => 12 + len e.1 + acc) 0 es.
Proof.
  revert off. induction es as [|e es IH]; intros off; [done|]. cbn [offsets foldr].
  rewrite index_bytes_cons, len_app, index_entry_len, IH. done.
Qed.

Section Tables.
Context `{HC : Crc32} {HCok : Crc32Ok} `{HT : IoText}.

Lemma sst_encode_mono a b : len (sst_encode a) <= len (sst_encode (a ++ b)).
Proof.
  rewrite !len_sst_encode, !len_index_offsets. unfold index_start.
  rewrite data_block_app, len_app, foldr_app. pose proof (len_nonneg (data_block b)).
  assert (Hm : forall l x, 0 <= x ->
    foldr (fun e acc => 12 + len e.1 + acc) 0 l <= foldr (fun (e : entry) acc => 12 + len e.1 + acc) x l).
  { induction l as [|e l IH]; intros x Hx; simpl; [done|]. specialize (IH x Hx). lia. }
  specialize (Hm a (foldr (fun e acc => 12 + len e.1 + acc) 0 b)).
  assert (0 <= foldr (fun (e : entry) acc => 12 + len e.1 + acc) 0 b).
  { clear. induction b as [|e b IH]; simpl; [done|]. pose proof (len_nonneg e.1). lia. }
  lia.
Qed.

Lemma wp_add_all p d w0 rest : forall es b w,
  built p d w0 es b w -> len (sst_encode (es ++ entries_of rest)) < 2 ^ 63 ->
  wp (add_all rest) (b, w)
    (fun _ s => built p d w0 (es ++ entries_of rest) s.1 s.2) (abandoned p w0).
Proof.
  induction rest as [|[k e] rest IH]; intros es b w Hb Hsz; cbn [add_all].
  - apply wp_ret. by rewrite app_nil_r.
  - change (entries_of ((k, e) :: rest)) with ([(k, to_opt e)] ++ entries_of rest) in *.
    rewrite app_assoc in *.
    assert (Hone : len (sst_encode (es ++ [(k, to_opt e)])) < 2 ^ 63).
    { pose proof (sst_encode_mono (es ++ [(k, to_opt e)]) (entries_of rest)). lia. }
    apply (wp_bind _ _ _ (fun _ s => built p d w0 (es ++ [(k, to_opt e)]) s.1 s.2) (abandoned p w0));
      [|intros _ [b' w'] Hb'; by apply IH|done].
    destruct e as [v|]; by apply wp_write_entry.
Qed.

Lemma wp_build_sstable p f d w :
  get_file p w = Some f \/ files w !! p = None -> sst_ok (entries_of d) ->
  wp (build_sstable p d) w
    (fun m w' => m = metadata_of p (entries_of d) /\ frame p w w' /\
       get_file p w' = Some (mkFile (sst_encode (entries_of d)) (sst_encode (entries_of d))))
    (frame p w).
Proof.
  intros Hf (_ & _ & Hsz). eapply wp_bind; [by apply (wp_new p f)| |done].
  intros b w1 Hb. apply wp_of_wpr, wpr_scoped.
  { intros b' w'. apply bw_drop_quiet. }
  apply wpr_of_wp with (Q := fun m s => m = metadata_of p (entries_of d) /\
    frame p w (SSTableBuilder.drop s.1 s.2) /\ get_file p (SSTableBuilder.drop s.1 s.2) =
      Some (mkFile (sst_encode (entries_of d)) (sst_encode (entries_of d)))).
  eapply wp_conseq; [|intros m s HQ; exact HQ|apply drop_abandoned].
  eapply wp_bind; [by apply (wp_add_all p _ w d [] _ _ Hb)| |done].
  intros _ [b2 w2] Hb2. eapply wp_conseq; [exact (wp_finish _ _ _ _ _ _ Hb2)| |done].
  intros m s (-> & H1 & H2 & Hbuf). unfold SSTableBuilder.drop. by rewrite bw_drop_empty.
Qed.
End Tables.

(** ** The manager's tables

    A table is its id and its entries; the list is newest first. *)

Abbreviation tables := (list (Z * list entry)).

Fixpoint lookup_tables (k : bytes) (ts : tables) : option bytes :=
  match ts with
  | [] => None
  | t :: ts' => match BTreeMap.get k t.2 with Some v => v | None => lookup_tables k ts' end
  end.

Section Manager.
Context `{HC : Crc32} {HCok : Crc32Ok} `{HT : IoText}.

(** No directory sits where a table could be created. *)
Definition no_dirs (dir : string) (w : World) : Prop :=
  forall id, files w !! sstable_path_with_dir dir id <> Some NDir.

Definition table_ok (dir : string) (w : World) (r : SSTableReader.t) (t : Z * list entry) : Prop :=
  sst_ok t.2 /\ reader_ok (sstable_path_with_dir dir t.1) t.2 r w.

(** Ids are below [n]. *)
Definition ids_below (n : Z) (ts : tables) : Prop := Forall (fun t => 0 <= t.1 < n) ts.

Definition storage_ok (st : t) (w : World) (ts : tables) : Prop :=
  Forall2 (table_ok (data_dir st) w) (sstables st) ts /\
  ids_below (next_sstable_id st) ts /\ no_dirs (data_dir st) w /\
  0 <= next_sstable_id st <= 2 ^ 64 - 1.

Lemma table_ok_frame dir w w' r t q :
  table_ok dir w r t -> frame q w w' -> sstable_path_with_dir dir t.1 <> q -> table_ok dir w' r t.
Proof.
  intros (Hs & H1 & H2 & H3 & H4 & f & Hf & Hc) Hfr Hne. split; [done|]. split_and!; [done..|].
  exists f. by rewrite (get_file_frame q _ w w').
Qed.

Lemma tables_ok_frame dir w w' rs ts q :
  Forall2 (table_ok dir w) rs ts -> frame q w w' ->
  Forall (fun t => sstable_path_with_dir dir t.1 <> q) ts -> Forall2 (table_ok dir w') rs ts.
Proof.
  intros H Hfr Hne. induction H; inversion Hne; subst; constructor; eauto using table_ok_frame.
Qed.

Lemma tables_ok_same dir w w' rs ts :
  Forall2 (table_ok dir w) rs ts -> same_files w w' -> Forall2 (table_ok dir w') rs ts.
Proof.
  intros H Hw. eapply Forall2_impl; [exact H|]. intros r t [? ?]. split; [done|].
  by eapply reader_ok_same.
Qed.

Lemma no_dirs_same dir w w' : same_files w w' -> no_dirs dir w -> no_dirs dir w'.
Proof. intros Hw H id. by rewrite Hw. Qed.

Lemma no_dirs_frame dir w w' q : frame q w w' -> no_dirs dir w -> no_dirs dir w'.
Proof.
  intros [Hf Hn] H id. destruct (decide (sstable_path_with_dir dir id = q)) as [<-|Hne]; [by apply Hn|].
  by rewrite Hf.
Qed.

(** ** Lookup *)

Lemma search_spec dir k : forall rs ts w,
  Forall2 (table_ok dir w) rs ts ->
  let '(res, (rs', w')) := search k rs w in
  Forall2 (table_ok dir w') rs' ts /\ same_files w w' /\
  ((res = Ok (lookup_tables k ts) /\ (quiet w -> quiet w')) \/
   ((exists e, res = Err (Io e)) /\ ~ quiet w)).
Proof.
  induction rs as [|r rs IH]; intros ts w H; inversion H as [|? t ? ts' [Hok Hr] Hrest]; subst;
    cbn [search]; [by split_and!; auto|].
  assert (Hcont : forall r' w1, reader_ok (sstable_path_with_dir dir t.1) t.2 r' w1 ->
    same_files w w1 ->
    (quiet w -> quiet w1) -> BTreeMap.get k t.2 = None ->
    let '(res, (rs', w')) :=
      (let '(res, (rs', w'')) := search k rs w1 in (res, (r' :: rs', w''))) in
    Forall2 (table_ok dir w') rs' (t :: ts') /\ same_files w w' /\
    ((res = Ok (lookup_tables k (t :: ts')) /\ (quiet w -> quiet w')) \/
     ((exists e, res = Err (Io e)) /\ ~ quiet w))).
  { intros r' w1 Hr' Hw1 Hq Hnone.
    specialize (IH ts' w1 (tables_ok_same dir w w1 rs ts' Hrest Hw1)).
    destruct (search k rs w1) as [res [rs' w2]]. destruct IH as (H1 & H2 & H3).
    split_and!; [constructor; [split; [done|by eapply reader_ok_same]|done]|by eapply same_files_trans|].
    cbn [lookup_tables]. rewrite Hnone. naive_solver. }
  destruct (SSTableReader.might_contain k r) eqn:Hm; cbn [negb].
  2: { apply Hcont; try done. destruct (BTreeMap.get k t.2) eqn:Hg; [|done].
       rewrite (might_contain_sound _ _ _ _ _ _ Hok Hr Hg) in Hm. done. }
  pose proof (wpr_sst_get _ _ k r w Hok Hr) as Hget. unfold wpr in Hget.
  destruct (SSTableReader.get k (r, w)) as [res [r' w1]].
  assert (Hstop : reader_ok (sstable_path_with_dir dir t.1) t.2 r' w1 -> same_files w w1 ->
    Forall2 (table_ok dir w1) (r' :: rs) (t :: ts')).
  { intros ??. constructor; [by split|]. by eapply tables_ok_same. }
  destruct Hget as [[(-> & Hr' & Hw1) Hq]|((e & ->) & (Hr' & Hw1) & Hn)]; cbn [fst snd] in *.
  - destruct (BTreeMap.get k t.2) as [v|] eqn:Hg; [|by apply Hcont].
    split_and!; [by apply Hstop|done|]. left. cbn [lookup_tables]. by rewrite Hg.
  - split_and!; [by apply Hstop|done|]. right. eauto.
Qed.

Lemma wp_storage_get k st w ts :
  storage_ok st w ts ->
  wp (get k) (st, w)
    (fun res s => res = lookup_tables k ts /\ storage_ok s.1 s.2 ts /\ same_files w s.2 /\
       data_dir s.1 = data_dir st)
    (fun s => storage_ok s.1 s.2 ts /\ same_files w s.2 /\ data_dir s.1 = data_dir st).
Proof.
  intros (Ht & Hids & Hnd & Hnext). unfold wp, get. cbn [fst snd].
  pose proof (search_spec (data_dir st) k (sstables st) ts w Ht) as Hs.
  destruct (search k (sstables st) w) as [res [rs' w']]. destruct Hs as (H1 & H2 & H3).
  assert (storage_ok (mk (data_dir st) rs' (next_sstable_id st)) w' ts).
  { split; [done|]. split; [done|]. split; [by eapply no_dirs_same|done]. }
  destruct H3 as [[-> Hq]|[[e ->] Hn]]; [done|]. split_and!; eauto.
Qed.

(** ** Flush *)

Lemma path_fresh dir n ts :
  ids_below n ts -> 0 <= n < 2 ^ 64 ->
  Forall (fun t => sstable_path_with_dir dir t.1 <> sstable_path_with_dir dir n) ts.
Proof.
  intros H Hn. eapply Forall_impl; [exact H|]. intros t Ht E. simpl in Ht.
  apply (f_equal snd) in E. cbn [snd sstable_path_with_dir] in E.
  apply sstable_name_inj in E; lia.
Qed.

Lemma ids_below_mono n m ts : ids_below n ts -> n <= m -> ids_below m ts.
Proof. intros H Hn. eapply Forall_impl; [exact H|]. intros t Ht. simpl in *. lia. Qed.

(** The state after a table was written at the id [n]. *)
Lemma storage_ok_frame st w w' ts :
  storage_ok st w ts -> next_sstable_id st < 2 ^ 64 - 1 ->
  frame (sstable_path_with_dir (data_dir st) (next_sstable_id st)) w w' ->
  storage_ok (mk (data_dir st) (sstables st) (as_u64 (next_sstable_id st + 1))) w' ts.
Proof.
  intros (Ht & Hids & Hnd & Hnext) Hlt Hfr. rewrite as_u64_small by lia.
  split; [|split; [|split]]; simpl.
  - eapply tables_ok_frame; [done..|]. apply path_fresh; [done|lia].
  - eapply ids_below_mono; [done|lia].
  - by eapply no_dirs_frame.
  - lia.
Qed.

(** The first half: the file and its reader are there, the tables as before. *)
Lemma wp_prepare m st w ts :
  storage_ok st w ts -> next_sstable_id st < 2 ^ 64 - 1 -> sst_ok (entries_of (MemTable.data m)) ->
  let id := next_sstable_id st in
  let p := sstable_path_with_dir (data_dir st) id in
  let es := entries_of (MemTable.data m) in
  let st' := mk (data_dir st) (sstables st) (id + 1) in
  wp (prepare m) (st, w)
    (fun x s => x.1 = metadata_of p es /\ s.1 = st' /\ table_ok (data_dir st) s.2 x.2 (id, es) /\
       storage_ok st' s.2 ts /\ frame p w s.2 /\
       get_file p s.2 = Some (mkFile (sst_encode es) (sst_encode es)))
    (fun s => s.1 = st' /\ storage_ok st' s.2 ts /\ frame p w s.2).
Proof.
  intros Hst Hlt Hok id p es st'. pose proof Hst as (Ht & Hids & Hnd & Hnext).
  unfold prepare. apply wp_bind_gets, wp_bind_modify; [done|]. apply wp_bind_gets.
  cbn [fst snd]. change (sstable_path _ _) with p. fold id.
  assert (Hnx : as_u64 (id + 1) = id + 1) by (apply as_u64_small; unfold id; lia).
  assert (Hf : exists f, get_file p w = Some f \/ files w !! p = None).
  { specialize (Hnd id). fold p in Hnd. unfold get_file.
    destruct (files w !! p) as [[f|]|]; [exists f; by left|done|exists (mkFile [] []); by right]. }
  destruct Hf as [f Hf]. pose proof (fun w' => storage_ok_frame st w w' ts Hst Hlt) as Hkeep.
  fold id in Hkeep. rewrite Hnx in *. fold st' in Hkeep |- *.
  eapply wp_bind_zoom; [done..|by apply (wp_build_sstable p f)| |].
  2: { intros w' Hfr. cbn [fst snd]. split_and!; [done|by apply Hkeep|done]. }
  intros md w1 (-> & Hfr1 & Hg1). fold es in Hg1. cbn [fst snd].
  eapply wp_bind_zoom; [done..|by apply (wp_sst_open p es _ _ Hok Hg1)| |].
  2: { intros w' Hw. cbn [fst snd] in *. split_and!; [done|apply Hkeep|]; solve_frame. }
  intros r w2 (Hr & Hw2). cbn [fst snd] in *. apply wp_ret. cbn [fst snd].
  assert (Hfr2 : frame p w w2) by solve_frame.
  split_and!; [done|done|by split|by apply Hkeep|done|by rewrite (get_file_same p w1 w2)].
Qed.

(** The second half. *)
Lemma publish_ok r st w ts id es :
  storage_ok st w ts -> table_ok (data_dir st) w r (id, es) -> 0 <= id < next_sstable_id st ->
  storage_ok (mk (data_dir st) (r :: sstables st) (next_sstable_id st)) w ((id, es) :: ts).
Proof.
  intros (H1 & H2 & H3 & H4) Hr Hid. split_and!; simpl; [by constructor|by constructor|done|lia|lia].
Qed.

Lemma wp_storage_flush m st w ts :
  storage_ok st w ts -> next_sstable_id st < 2 ^ 64 - 1 ->
  MemTable.is_empty m = false -> sst_ok (entries_of (MemTable.data m)) ->
  let id := next_sstable_id st in
  let p := sstable_path_with_dir (data_dir st) id in
  let es := entries_of (MemTable.data m) in
  wp (flush m) (st, w)
    (fun md s => md = metadata_of p es /\ storage_ok s.1 s.2 ((id, es) :: ts) /\
       frame p w s.2 /\ get_file p s.2 = Some (mkFile (sst_encode es) (sst_encode es)) /\
       data_dir s.1 = data_dir st /\ next_sstable_id s.1 = id + 1)
    (fun s => storage_ok s.1 s.2 ts /\ frame p w s.2 /\
       data_dir s.1 = data_dir st /\ next_sstable_id s.1 = id + 1).
Proof.
  intros Hst Hlt Hne Hok id p es. assert (Hid : 0 <= id) by (destruct Hst as (_ & _ & _ & ? & _); done).
  unfold flush. rewrite Hne.
  eapply wp_bind; [by apply wp_prepare| |].
  2: { intros [st' w'] (E & H1 & H2). cbn [fst snd] in *. by subst st'. }
  intros [md r] [st' w'] (Hmd & E & Hr & H1 & H2 & H3). cbn [fst snd] in *. subst st' md.
  apply wp_bind_modify; [done|]. apply wp_ret. cbn [fst snd].
  split_and!; try done. eapply (publish_ok r (mk _ _ _)); [done|done|]. simpl. fold id. lia.
Qed.
End Manager.

(** ** The directory

    [disk_ok dir w ts]: the table files in [dir] are those of [ts]. *)

Definition descending (ts : tables) : Prop := StronglySorted (fun a b => b < a) ts.*1.

Section Disk.
Context `{HC : Crc32} {HCok : Crc32Ok} `{HT : IoText}.

Context `{HSt : Status} {HStok : StatusOk}.

Definition stored (dir : string) (w : World) (t : Z * list entry) : Prop :=
  sst_ok t.2 /\ 0 <= t.1 < 2 ^ 64 - 1 /\
  exists f, get_file (sstable_path_with_dir dir t.1) w = Some f /\ content f = sst_encode t.2.

Definition disk_ok (dir : string) (w : World) (ts : tables) : Prop :=
  Forall (stored dir w) ts /\ descending ts /\
  forall name f id, files w !! (dir, name) = Some (NFile f) -> parse_sstable_id name = Some id ->
    name = sstable_name id /\ id ∈ ts.*1.

Lemma disk_ok_same dir w w' ts : same_files w w' -> disk_ok dir w ts -> disk_ok dir w' ts.
Proof.
  intros Hw (H1 & H2 & H3). split_and!; [|done|intros; eapply H3; [rewrite <- Hw|]; done].
  eapply Forall_impl; [exact H1|]. intros t (? & ? & f & ? & ?). split_and!; [done|lia|lia|].
  exists f. by rewrite (get_file_same _ w w').
Qed.

(** Changes outside the directory's table files do not matter. *)
Lemma disk_ok_frame dir w w' ts q :
  frame q w w' -> q.1 <> dir -> disk_ok dir w ts -> disk_ok dir w' ts.
Proof.
  intros Hfr Hq (H1 & H2 & H3). pose proof (proj1 Hfr) as Hf.
  split_and!; [|done|intros name f id; rewrite Hf by (intros <-; done); apply H3].
  eapply Forall_impl; [exact H1|]. intros t (? & ? & f & ? & ?). split_and!; [done|lia|lia|].
  exists f. rewrite (get_file_frame q _ w w') by (done || intros <-; done). done.
Qed.

(** The ids found in the directory. *)
Definition listing (dir : string) (w : World) : list (string * bool) :=
  omap (fun e : path * node =>
    if decide (e.1.1 = dir) then
      Some (e.1.2, match e.2 with NFile _ => true | NDir => false end)
    else None) (map_to_list (files w)).

Lemma elem_of_discover dir w id :
  id ∈ discover (listing dir w) <->
  exists name f, files w !! (dir, name) = Some (NFile f) /\ parse_sstable_id name = Some id.
Proof.
  unfold discover, listing. rewrite list_elem_of_omap. split.
  - intros ([name b] & Hin & Hp). rewrite list_elem_of_omap in Hin.
    destruct Hin as ([[d nm] nd] & Hin & Hd). apply elem_of_map_to_list in Hin. simpl in *.
    case_decide; [|done]. simplify_eq. destruct nd as [f|]; [|done]. eauto.
  - intros (name & f & Hf & Hp). exists (name, true). split; [|done]. apply list_elem_of_omap.
    exists ((dir, name), NFile f). split; [by apply elem_of_map_to_list|]. simpl.
    by rewrite decide_True.
Qed.

Lemma NoDup_omap_inj {A B} (f : A -> option B) (l : list A) :
  (forall x y b, x ∈ l -> y ∈ l -> f x = Some b -> f y = Some b -> x = y) ->
  NoDup l -> NoDup (omap f l).
Proof.
  intros Hinj Hnd. induction Hnd as [|x l Hx Hnd IH]; simpl; [constructor|].
  assert (NoDup (omap f l)) by (apply IH; intros; eapply Hinj; try done; by constructor).
  destruct (f x) as [b|] eqn:E; [|done]. constructor; [|done].
  rewrite list_elem_of_omap. intros (y & Hy & Ey). apply Hx.
  rewrite (Hinj x y b); try done; by constructor.
Qed.

Lemma NoDup_discover dir w ts : disk_ok dir w ts -> NoDup (discover (listing dir w)).
Proof.
  intros (_ & _ & H3). apply NoDup_omap_inj.
  - intros [n1 b1] [n2 b2] id Hi1 Hi2. simpl. destruct b1, b2; try done. intros E1 E2.
    assert (Hname : forall n, (n, true) ∈ listing dir w -> parse_sstable_id n = Some id -> n = sstable_name id).
    { intros n Hin Hp. unfold listing in Hin. rewrite list_elem_of_omap in Hin.
      destruct Hin as ([[d nm] nd] & Hin & Hd). apply elem_of_map_to_list in Hin. simpl in *.
      case_decide; [|done]. simplify_eq. destruct nd as [f|]; [|done]. by destruct (H3 n f id Hin Hp). }
    by rewrite (Hname n1), (Hname n2).
  - apply NoDup_omap_inj; [|apply NoDup_map_to_list].
    intros [[d1 n1] f1] [[d2 n2] f2] b Hi1 Hi2. simpl. do 2 case_decide; try done. intros [= <-] [= <-].
    apply elem_of_map_to_list in Hi1, Hi2. subst. simplify_eq. done.
Qed.

Lemma discover_perm dir w ts : disk_ok dir w ts -> discover (listing dir w) ≡ₚ ts.*1.
Proof.
  intros Hd. pose proof (NoDup_discover dir w ts Hd) as Hnd. destruct Hd as (H1 & H2 & H3).
  apply NoDup_Permutation; [done| |].
  - clear -H2. unfold descending in H2. induction (ts.*1) as [|x l IH]; [constructor|].
    apply StronglySorted_inv in H2 as [Hs Hall]. constructor; [|by apply IH].
    intros Hin. rewrite Forall_forall in Hall. specialize (Hall x Hin). lia.
  - intros id. rewrite elem_of_discover. split.
    + intros (name & f & Hf & Hp). by destruct (H3 name f id Hf Hp).
    + intros Hin. apply list_elem_of_fmap in Hin as (t & -> & Ht).
      rewrite Forall_forall in H1. destruct (H1 t Ht) as (_ & Hid & f & Hf & _).
      exists (sstable_name t.1), f. unfold get_file in Hf. unfold sstable_path_with_dir in Hf.
      split; [destruct (files w !! _) as [[g|]|]; simplify_eq; done|]. apply parse_sstable_name. lia.
Qed.

(** Whatever order the directory lists them in, the newest table comes first. *)
Lemma newest_first_perm ids ts : descending ts -> ids ≡ₚ ts.*1 -> newest_first ids = ts.*1.
Proof.
  intros Hd Hp. unfold newest_first. rewrite <- (reverse_involutive ts.*1). f_equal.
  apply (StronglySorted_unique Z.le).
  - apply StronglySorted_merge_sort; apply _.
  - clear -Hd. unfold descending in Hd. induction (ts.*1) as [|x l IH]; [constructor|].
    apply StronglySorted_inv in Hd as [Hs Hall]. rewrite reverse_cons.
    apply StronglySorted_app_2; [|by apply IH|repeat constructor].
    intros a b Ha Hb. apply list_elem_of_singleton in Hb as ->. rewrite elem_of_reverse in Ha.
    rewrite Forall_forall in Hall. specialize (Hall a Ha). simpl in Hall. lia.
  - rewrite merge_sort_Permutation. by rewrite Hp, reverse_Permutation.
Qed.

Lemma wp_read_dir dir w :
  wp (read_dir dir) w (fun es w' => es = listing dir w /\ same_files w w') (same_files w).
Proof.
  apply wp_syscall; [|done]. intros w1 Hw. unfold wp, listing. rewrite Hw. split; [|done].
  split; [|done]. induction (map_to_list (files w)) as [|[p n] l IH]; [done|]. cbn [omap list_omap].
  rewrite IH. unfold is_file. by rewrite status_ok.
Qed.

Lemma wp_open_all dir ts : forall w,
  Forall (stored dir w) ts ->
  wp (open_all dir ts.*1) w
    (fun rs w' => Forall2 (table_ok dir w') rs ts /\ same_files w w') (same_files w).
Proof.
  induction ts as [|t ts IH]; intros w H; inversion H as [|?? (Hok & Hid & f & Hf & Hc) Hrest]; subst.
  - apply wp_ret. by split; [constructor|].
  - cbn [open_all fmap list_fmap]. eapply wp_bind; [by apply (wp_sst_open _ t.2 f)| |done].
    intros r w1 (Hr & Hw1). eapply wp_bind; [apply IH| |].
    { eapply Forall_impl; [exact Hrest|]. intros t' (? & ? & g & ? & ?). split_and!; [done|lia|lia|].
      exists g. by rewrite (get_file_same _ w w1). }
    2: { intros w2 Hw2. by eapply same_files_trans. }
    intros rs w2 (Hrs & Hw2). apply wp_ret. split; [|by eapply same_files_trans].
    constructor; [|done]. split; [done|]. by eapply reader_ok_same.
Qed.

Definition next_id_of (ts : tables) : Z := match ts with t :: _ => t.1 + 1 | [] => 1 end.

Lemma next_id_bounds dir w ts : disk_ok dir w ts ->
  0 <= next_id_of ts <= 2 ^ 64 - 1 /\ ids_below (next_id_of ts) ts.
Proof.
  intros (H1 & H2 & _). destruct ts as [|t ts]; simpl; [split; [lia|constructor]|].
  inversion H1 as [|?? (_ & Hid & _) Hrest]; subst. split; [lia|].
  apply StronglySorted_inv in H2 as [_ Hall].
  constructor; [simpl; lia|]. apply Forall_forall. intros t' Hin.
  rewrite Forall_forall in Hall. rewrite Forall_forall in Hrest. specialize (Hall t'.1 (list_elem_of_fmap_2 _ _ _ Hin)).
  destruct (Hrest t' Hin) as (_ & ? & _). simpl in *. lia.
Qed.

Lemma wp_storage_open dir w ts :
  disk_ok dir w ts -> no_dirs dir w ->
  wp (open dir) w
    (fun st w' => storage_ok st w' ts /\ data_dir st = dir /\ same_files w w' /\
       next_sstable_id st = next_id_of ts)
    (same_files w).
Proof.
  intros Hd Hnd. unfold open.
  eapply (wp_bind _ _ _ (fun _ => same_files w) (same_files w)); [by apply wp_syscall| |done].
  intros _ w1 Hw1. eapply wp_bind; [apply wp_read_dir| |].
  2: { intros w2 Hw2. by eapply same_files_trans. }
  intros es w2 (-> & Hw2). cbv zeta. assert (Hw : same_files w w2) by by eapply same_files_trans.
  assert (Hd1 : disk_ok dir w1 ts) by by eapply disk_ok_same.
  rewrite (newest_first_perm _ ts (proj1 (proj2 Hd)) (discover_perm dir w1 ts Hd1)).
  eapply wp_bind; [apply wp_open_all, (disk_ok_same dir w w2 ts Hw Hd)| |].
  2: { intros w3 Hw3. by eapply same_files_trans. }
  intros rs w3 (Hrs & Hw3). apply wp_ret.
  assert (E : (match ts.*1 with id :: _ => as_u64 (id + 1) | [] => 1 end) = next_id_of ts).
  { destruct ts as [|t ts']; [done|]. cbn [fmap list_fmap next_id_of]. apply as_u64_small.
    destruct Hd as (Hs & _). inversion Hs as [|?? (_ & ? & _)]; subst. lia. }
  rewrite E. destruct (next_id_bounds dir w ts Hd) as [Hb Hbl].
  assert (Hw3' : same_files w w3) by by eapply same_files_trans.
  split_and!; try done. split; [done|]. split; [done|]. split; [by eapply no_dirs_same|done].
Qed.

(** A new table file extends the directory. *)
Lemma disk_ok_snoc dir w w' ts id es :
  let p := sstable_path_with_dir dir id in
  disk_ok dir w ts -> ids_below id ts -> 0 <= id < 2 ^ 64 - 1 -> sst_ok es ->
  frame p w w' -> (exists f, get_file p w' = Some f /\ content f = sst_encode es) ->
  disk_ok dir w' ((id, es) :: ts).
Proof.
  intros p (H1 & H2 & H3) Hids Hid Hok Hfr Hf. split_and!.
  - constructor; [by split; [done|]|]. pose proof (path_fresh dir id ts Hids ltac:(lia)) as Hne.
    rewrite Forall_forall in H1, Hne |- *. intros t Ht. destruct (H1 t Ht) as (? & ? & f & Hg & ?).
    split_and!; [done|lia|lia|]. exists f. by rewrite (get_file_frame p _ w w') by (done || by apply Hne).
  - constructor; [done|]. apply Forall_forall. intros x Hx.
    apply (list_elem_of_fmap fst ts) in Hx as (t & -> & Ht).
    pose proof (proj1 (Forall_forall _ _) Hids t Ht). simpl in *. lia.
  - intros name f id' Hn Hp. destruct (decide ((dir, name) = p)) as [E|Hne].
    + unfold p, sstable_path_with_dir in E. injection E as ->.
      rewrite parse_sstable_name in Hp by lia. injection Hp as <-. split; [done|]. by left.
    + rewrite (proj1 Hfr _ Hne) in Hn. destruct (H3 name f id' Hn Hp). split; [done|]. by right.
Qed.
End Disk.
