(* ===== verification/Engine.v ===== *)
(** The storage engine: [src/src/engine.rs].

    The two [std::sync::Mutex]es poison when a thread panics while it holds them;
    each has a flag in the state.  Under [write_lock] a writing method is one
    step on the engine; [now] is the clock reading of the log entry it appends. *)

From Stdlib Require Import ZArith Lia String.
From stdpp Require Import base gmap list strings.
From S2P Require Import Prelude Fmt Errors BTreeMap Memtable Protocol World WorldFacts Config Wal.
From S2P Require Import Sstable Storage.
Open Scope string_scope.
Open Scope list_scope.
Open Scope Z_scope.

Module Engine.

(** [pub struct Engine]; [write_poisoned] and [wal_poisoned] are the states of
    [write_lock] and of the mutex around [wal]. *)
Record t := mk {
  config : Config.t;
  storage_dir : string;
  wal : WalWriter.t;
  memtable : MemTable.t;
  storage : StorageManager.t;
  write_poisoned : bool;
  wal_poisoned : bool
}.

Definition WAL_FILENAME : string := "wal.log".
Definition SSTABLE_DIR : string := "sstables".

Definition set_wal (x : WalWriter.t) (e : t) : t :=
  mk (config e) (storage_dir e) x (memtable e) (storage e) (write_poisoned e) (wal_poisoned e).
Definition set_memtable (x : MemTable.t) (e : t) : t :=
  mk (config e) (storage_dir e) (wal e) x (storage e) (write_poisoned e) (wal_poisoned e).
Definition set_storage (x : StorageManager.t) (e : t) : t :=
  mk (config e) (storage_dir e) (wal e) (memtable e) x (write_poisoned e) (wal_poisoned e).
Definition poison_write (e : t) : t :=
  mk (config e) (storage_dir e) (wal e) (memtable e) (storage e) true (wal_poisoned e).
Definition poison_wal (e : t) : t :=
  mk (config e) (storage_dir e) (wal e) (memtable e) (storage e) (write_poisoned e) true.

Definition on_wal {A} (m : ST (WalWriter.t * World) A) : ST (t * World) A :=
  zoom (fun s : t * World => (wal s.1, s.2)) (fun x s => (set_wal x.1 s.1, x.2)) m.
Definition on_storage {A} (m : ST (StorageManager.t * World) A) : ST (t * World) A :=
  zoom (fun s : t * World => (storage s.1, s.2)) (fun x s => (set_storage x.1 s.1, x.2)) m.

(** [Display] of a [PoisonError]. *)
Definition poison_text : string := "poisoned lock: another task failed inside".

(** [lock().map_err(..)?] and the guard's scope. *)
Definition locked {A} (poisoned : t -> bool) (poison : t -> t) (msg : string)
    (m : ST (t * World) A) : ST (t * World) A := fun s =>
  if poisoned s.1 then (Err (LockPoisoned (msg +:+ poison_text)), s)
  else
    match m s with
    | (Panic, s') => (Panic, (poison s'.1, s'.2))
    | r => r
    end.

Definition with_write_lock {A} : ST (t * World) A -> ST (t * World) A :=
  locked write_poisoned poison_write "Write lock poisoned: ".
Definition with_wal_lock {A} : ST (t * World) A -> ST (t * World) A :=
  locked wal_poisoned poison_wal "WAL lock poisoned: ".

(** The loop of [open] over the recovered entries. *)
Definition replay_entry (m : MemTable.t) (entry : WalEntry.t) : MemTable.t :=
  match WalEntry.operation entry with
  | Operation.Put key value => (MemTable.put key value m).2
  | Operation.Delete key => (MemTable.delete key m).2
  end.
Definition replay (entries : list WalEntry.t) (m : MemTable.t) : MemTable.t :=
  foldl replay_entry m entries.

Section Engine.
Context `{HC : Crc32} `{HB : WalEntry.Bincode} `{HT : IoText} `{HSt : Status}.

(** Steps 5 and 6 of [open]: the memtable replayed from the log at [p] and
    flushed to storage. *)
Definition recover_wal (p : path) (storage : StorageManager.t) :
    ST World (StorageManager.t * MemTable.t) :=
  r ← WalRecovery.recover p;
  let memtable := replay r.1 MemTable.new in
  if negb (MemTable.is_empty memtable) then
    x ← moved storage (fun _ w => w) (StorageManager.flush memtable);
    mret (x.1, MemTable.clear memtable)
  else mret (storage, memtable).

Definition open (config : Config.t) : ST World t :=
  let dir := Config.data_dir config in
  _ ← create_dir_all dir;
  let storage_dir := join_dir dir SSTABLE_DIR in
  let wal_path := (dir, WAL_FILENAME) in
  _ ← create_dir_all storage_dir;
  storage ← StorageManager.open storage_dir;
  wal_exists ← gets (exists_path wal_path);
  r ← (if wal_exists : bool then recover_wal wal_path storage
       else mret (storage, MemTable.new));
  wal ← WalWriter.open wal_path (Config.wal_sync_strategy config);
  mret (mk config storage_dir wal r.2 r.1 false false).

Definition open_path (p : string) : ST World t :=
  open (ConfigBuilder.build (ConfigBuilder.set_data_dir p (ConfigBuilder.mk Config.default))).

Definition get (key : bytes) : ST (t * World) (option bytes) :=
  m ← gets (fun s : t * World => memtable s.1);
  match MemTable.get key m with
  | Some (Value value) => mret (Some value)
  | Some Tombstone => mret None
  | None => on_storage (StorageManager.get key)
  end.

(** The size after the change, the table being updated in place. *)
Definition on_memtable {A} (f : MemTable.t -> A * MemTable.t) : ST (t * World) A :=
  fun s => let '(a, m') := f (memtable s.1) in (Ok a, (set_memtable m' s.1, s.2)).

Definition flush_internal : ST (t * World) unit :=
  m ← gets (fun s : t * World => memtable s.1);
  if MemTable.is_empty m then mret tt
  else
    _ ← on_storage (StorageManager.flush m);
    _ ← on_memtable (fun m => (tt, MemTable.clear m));
    with_wal_lock (on_wal WalWriter.truncate).

Definition flush_if_full (new_size : Z) : ST (t * World) unit :=
  limit ← gets (fun s : t * World => Config.memtable_size_limit (config s.1));
  if limit <=? new_size then flush_internal else mret tt.

Definition put (now : Z) (key value : bytes) : ST (t * World) unit :=
  with_write_lock (
    _ ← with_wal_lock (on_wal (WalWriter.append now (Operation.Put key value)));
    new_size ← on_memtable (MemTable.put key value);
    flush_if_full new_size).

Definition delete (now : Z) (key : bytes) : ST (t * World) unit :=
  with_write_lock (
    _ ← with_wal_lock (on_wal (WalWriter.append now (Operation.Delete key)));
    new_size ← on_memtable (MemTable.delete key);
    flush_if_full new_size).

Definition flush : ST (t * World) unit := with_write_lock flush_internal.

Definition execute (now : Z) (command : Command.t) : ST (t * World) (option bytes) :=
  match command with
  | Command.Get key => get key
  | Command.Put key value => _ ← put now key value; mret None
  | Command.Delete key => _ ← delete now key; mret None
  | Command.Ping => mret (Some (bytes_of_string "PONG"))
  end.

(** Dropping an engine drops its log writer; tables hold nothing unwritten. *)
Definition drop (e : t) (w : World) : World := BufWriter.drop (WalWriter.file (wal e)) w.

(** [close] takes the engine by value: it is dropped on return. *)
Definition close (e : t) : ST World unit :=
  scoped e drop (
    m ← gets (fun s : t * World => memtable s.1);
    _ ← (if negb (MemTable.is_empty m) then flush else mret tt);
    with_wal_lock (on_wal WalWriter.sync)).

Definition memtable_size (e : t) : Z := MemTable.size (memtable e).
Definition memtable_entry_count (e : t) : Z := MemTable.entry_count (memtable e).
Definition sstable_count (e : t) : Z := StorageManager.sstable_count (storage e).

End Engine.
End Engine.
