(* ===== verification/EngineFacts.v ===== *)
(** The engine against its specification, a finite map from keys to values.
    [engine_ok e w ts kv] relates an engine to the map [kv]; every operation
    keeps it, for every fault schedule: a successful write updates the map, a
    failed one leaves the old map or the updated one, and reads answer the map. *)

From Stdlib Require Import ZArith Lia String Ascii.
From stdpp Require Import base gmap list strings sorting.
From S2P Require Import Prelude Fmt Errors BTreeMap Memtable Protocol World WorldFacts Config Wal.
From S2P Require Import WalFacts WalWriterFacts Sstable SstableFacts SstableReaderFacts.
From S2P Require Import Storage StorageFacts Engine.
Open Scope string_scope.
Open Scope list_scope.
Open Scope Z_scope.

Import Engine.

(** ** Paths *)

Lemma string_length_app (a b : string) :
  String.length (a +:+ b) = (String.length a + String.length b)%nat.
Proof. induction a as [|c a IH]; [done|]. simpl. f_equal. exact IH. Qed.

Lemma join_dir_ne d n : join_dir d n <> d.
Proof.
  unfold join_dir. intros E. apply (f_equal String.length) in E. rewrite string_length_app in E.
  change (String.length ("/" +:+ n)) with (S (String.length n)) in E. lia.
Qed.

Definition wal_path (c : Config.t) : path := (Config.data_dir c, WAL_FILENAME).
Definition table_dir (c : Config.t) : string := join_dir (Config.data_dir c) SSTABLE_DIR.

Lemma wal_not_table c id : StorageManager.sstable_path_with_dir (table_dir c) id <> wal_path c.
Proof. intros E. apply (f_equal fst) in E. by apply join_dir_ne in E. Qed.

(** ** The abstraction *)

(** What a reader sees: the memtable, then the tables. *)
Definition view (m : MemTable.t) (ts : tables) (k : bytes) : option bytes :=
  match MemTable.get k m with
  | Some x => to_opt x
  | None => lookup_tables k ts
  end.

(** The write of an operation, on the memtable and on the map. *)
Definition mem_apply (op : Operation.t) (m : MemTable.t) : MemTable.t :=
  match op with
  | Operation.Put k v => (MemTable.put k v m).2
  | Operation.Delete k => (MemTable.delete k m).2
  end.

Definition kv_apply (op : Operation.t) (kv : gmap bytes bytes) : gmap bytes bytes :=
  match op with
  | Operation.Put k v => <[k := v]> kv
  | Operation.Delete k => base.delete k kv
  end.

Lemma mem_apply_inv op m : MemTable.inv m -> MemTable.inv (mem_apply op m).
Proof. destruct op; [apply MemTable.inv_put|apply MemTable.inv_delete]. Qed.

Lemma view_apply op m ts kv :
  MemTable.inv m -> (forall k, view m ts k = kv !! k) ->
  forall k, view (mem_apply op m) ts k = kv_apply op kv !! k.
Proof.
  intros Hm Hv k0. unfold view in *. destruct op as [k v|k]; cbn [mem_apply kv_apply].
  - rewrite MemTable.get_put by done. destruct (decide (k0 = k)) as [->|Hne]; simpl.
    + by rewrite lookup_insert_eq.
    + rewrite lookup_insert_ne by done. apply Hv.
  - rewrite MemTable.get_delete by done. destruct (decide (k0 = k)) as [->|Hne]; simpl.
    + by rewrite lookup_delete_eq.
    + rewrite lookup_delete_ne by done. apply Hv.
Qed.

(** Moving the memtable to a new table does not change the view. *)
Lemma view_flush m ts id k :
  view MemTable.new ((id, entries_of (MemTable.data m)) :: ts) k = view m ts k.
Proof.
  unfold view, MemTable.new, MemTable.get. simpl. rewrite get_entries_of.
  by destruct (BTreeMap.get k (MemTable.data m)).
Qed.

(** ** Sizes *)

Definition op_size (op : Operation.t) : Z := WalEntry.encoded_size (WalEntry.mk 0 op 0).

Lemma entries_insert_ok k x d :
  Forall entry_ok (entries_of d) -> entry_ok (k, to_opt x) ->
  Forall entry_ok (entries_of (BTreeMap.insert k x d)).
Proof.
  induction d as [|[k' x'] d IH]; intros Hd Hx; simpl; [by constructor|].
  inversion Hd; subst. destruct (bytes_cmp k k'); constructor; auto.
Qed.

(** The log's 32-bit length field leaves room for the table's. *)
Lemma op_entry_ok op m :
  op_size op < 2 ^ 32 -> Forall entry_ok (entries_of (MemTable.data m)) ->
  Forall entry_ok (entries_of (MemTable.data (mem_apply op m))).
Proof.
  intros Hs Hm. unfold op_size, WalEntry.encoded_size in Hs.
  destruct op as [k v|k]; simpl in *; apply entries_insert_ok; try done; split; simpl; try done; pose_len; lia.
Qed.

(** ** Well-formed engines *)

Abbreviation next_id e := (StorageManager.next_sstable_id (storage e)).

Section Ok.
Context `{HC : Crc32} {HCok : Crc32Ok} `{HB : WalEntry.Bincode} {HBok : WalEntry.BincodeOk}.
Context `{HT : IoText}.

Definition mem_ok (m : MemTable.t) : Prop :=
  MemTable.inv m /\ sst_ok (entries_of (MemTable.data m)).

Record engine_ok (e : t) (w : World) (ts : tables) (kv : gmap bytes bytes) : Prop := {
  ok_mem : mem_ok (memtable e);
  ok_storage : storage_ok (storage e) w ts;
  ok_dirs : StorageManager.data_dir (storage e) = table_dir (config e) /\
            storage_dir e = table_dir (config e);
  ok_wal : wal_on (wal_path (config e)) w (wal e, w);
  ok_locks : write_poisoned e = false /\ wal_poisoned e = false;
  ok_view : forall k, view (memtable e) ts k = kv !! k
}.

(** The operation's log entry and the memtable it leads to fit their fields. *)
Definition fits (e : t) (op : Operation.t) : Prop :=
  op_size op < 2 ^ 32 /\
  len (sst_encode (entries_of (MemTable.data (mem_apply op (memtable e))))) < 2 ^ 63.

(** The counter of table ids has not run out. *)
Definition ids_left (e : t) : Prop :=
  StorageManager.next_sstable_id (storage e) < 2 ^ 64 - 1.

Lemma mem_apply_ok e op : mem_ok (memtable e) -> fits e op -> mem_ok (mem_apply op (memtable e)).
Proof.
  intros (Hi & Hwf & Hes & _) (Hs & Hl). pose proof (mem_apply_inv op _ Hi) as Hi'.
  split; [done|]. split_and!; [apply entries_of_wf, Hi'|by apply op_entry_ok|done].
Qed.

Lemma mem_new_ok : mem_ok MemTable.new.
Proof.
  split; [apply MemTable.inv_new|]. split_and!; [constructor|constructor|].
  rewrite len_sst_encode. done.
Qed.

(** Steps elsewhere in the file system. *)
Lemma wal_on_rebase p w0 wr w : wal_on p w0 (wr, w) -> wal_on p w (wr, w).
Proof. intros [(H1 & H2 & _) Hl]. split; [|done]. split_and!; [done..|apply frame_refl]. Qed.

Lemma wal_on_frame p q wr w w' :
  wal_on p w (wr, w) -> frame q w w' -> p <> q -> wal_on p w' (wr, w').
Proof.
  intros [(H1 & [f Hf] & _) Hl] Hfr Hne. split; [|done].
  split_and!; [done| |apply frame_refl]. exists f. simpl. by rewrite (get_file_frame q p w w').
Qed.

Lemma wal_on_same p wr w w' : wal_on p w (wr, w) -> same_files w w' -> wal_on p w' (wr, w').
Proof.
  intros [(H1 & [f Hf] & _) Hl] Hw. split; [|done].
  split_and!; [done| |apply frame_refl]. exists f. simpl. by rewrite (get_file_same p w w').
Qed.

Lemma storage_ok_wal c st w w' ts :
  StorageManager.data_dir st = table_dir c -> frame (wal_path c) w w' ->
  storage_ok st w ts -> storage_ok st w' ts.
Proof.
  intros Hd Hfr (H1 & H2 & H3 & H4). split; [|split; [done|split; [by eapply no_dirs_frame|done]]].
  eapply tables_ok_frame; [done..|]. apply Forall_forall. intros t _. rewrite Hd. apply wal_not_table.
Qed.

Lemma wp_locked {A} poisoned poison msg (m : ST (t * World) A) s Q E :
  poisoned s.1 = false -> wp m s Q E -> wp (locked poisoned poison msg m) s Q E.
Proof.
  intros Hp. unfold wp, locked. rewrite Hp. by destruct (m s) as [[a|e| |] s'].
Qed.

(** ** The atomic actions of a writer

    Each keeps the engine well formed; only applying an operation changes the map. *)

Lemma ok_set_wal e w ts kv x :
  engine_ok e w ts kv -> wal_on (wal_path (config e)) w x -> engine_ok (set_wal x.1 e) x.2 ts kv.
Proof.
  destruct x as [wr w1]. intros [Hm Hs [Hd1 Hd2] Hw Hl Hv] Hx. pose proof Hx as [(_ & _ & Hfr) _].
  constructor; simpl; try done; [|by eapply wal_on_rebase]. by eapply storage_ok_wal.
Qed.

Lemma wp_append_step now op e w ts kv :
  engine_ok e w ts kv -> 0 <= now -> fits e op ->
  wp (with_wal_lock (on_wal (WalWriter.append now op))) (e, w)
    (fun _ s => engine_ok s.1 s.2 ts kv /\ exists wr, s.1 = set_wal wr e)
    (fun s => engine_ok s.1 s.2 ts kv /\ exists wr, s.1 = set_wal wr e).
Proof.
  intros Hok Hnow Hfit. apply wp_locked; [apply Hok|]. apply wp_zoom; [done..|].
  eapply wp_conseq; [apply (wp_append_on (wal_path (config e)) w); [apply Hok|done|apply Hfit]|..].
  - intros ? s Hs. split; [by apply ok_set_wal with (w := w)|by exists s.1].
  - intros s Hs. split; [by apply ok_set_wal with (w := w)|by exists s.1].
Qed.

Lemma ok_apply op e w ts kv :
  engine_ok e w ts kv -> fits e op ->
  engine_ok (set_memtable (mem_apply op (memtable e)) e) w ts (kv_apply op kv).
Proof.
  intros [Hm Hs Hd Hw Hl Hv] Hfit. constructor; simpl; try done; [by apply mem_apply_ok|].
  apply view_apply; [apply Hm|done].
Qed.

(** A table built from the memtable, not yet visible. *)
Definition prepared (e : t) (w : World) (r : SSTableReader.t) : Prop :=
  exists id, table_ok (StorageManager.data_dir (storage e)) w r (id, entries_of (MemTable.data (memtable e))) /\
    0 <= id < StorageManager.next_sstable_id (storage e).

Lemma ok_set_storage e w w' ts ts' kv st :
  engine_ok e w ts kv -> storage_ok st w' ts' ->
  StorageManager.data_dir st = StorageManager.data_dir (storage e) ->
  wal_on (wal_path (config e)) w' (wal e, w') ->
  (forall k, view (memtable e) ts' k = kv !! k) -> engine_ok (set_storage st e) w' ts' kv.
Proof. intros [Hm Hs [Hd1 Hd2] Hw Hl Hv] Hst Hdir Hw' Hv'. constructor; simpl; try done. by rewrite Hdir. Qed.

Lemma wp_prepare_step e w ts kv :
  engine_ok e w ts kv -> ids_left e ->
  wp (on_storage (StorageManager.prepare (memtable e))) (e, w)
    (fun x s => engine_ok s.1 s.2 ts kv /\ prepared s.1 s.2 x.2 /\ exists st, s.1 = set_storage st e)
    (fun s => engine_ok s.1 s.2 ts kv /\ exists st, s.1 = set_storage st e).
Proof.
  intros Hok Hids. pose proof Hok as [[Hmi Hms] Hs [Hd1 Hd2] Hw _ Hv].
  assert (Hwal : forall w', frame (StorageManager.sstable_path_with_dir (StorageManager.data_dir (storage e))
      (StorageManager.next_sstable_id (storage e))) w w' -> wal_on (wal_path (config e)) w' (wal e, w')).
  { intros w' Hfr. eapply wal_on_frame; [done..|]. rewrite Hd1. apply not_eq_sym, wal_not_table. }
  apply wp_zoom; [done..|]. eapply wp_conseq; [by apply wp_prepare|..]; cbn [fst snd].
  - intros x [st w1] (_ & -> & Hr & Hst & Hfr & _). cbn [fst snd] in *. split_and!; [|..|by eexists].
    + eapply ok_set_storage; eauto.
    + exists (StorageManager.next_sstable_id (storage e)). simpl. split; [done|].
      destruct Hs as (_ & _ & _ & ? & _). lia.
  - intros [st w1] (-> & Hst & Hfr). cbn [fst snd] in *. split; [|by eexists].
    eapply ok_set_storage; eauto.
Qed.

Definition published (r : SSTableReader.t) (e : t) : t :=
  let st := storage e in
  set_storage (StorageManager.mk (StorageManager.data_dir st) (r :: StorageManager.sstables st)
    (StorageManager.next_sstable_id st)) e.

(** The memtable over a table with its own entries is the same view. *)
Lemma view_over_flushed m id ts k :
  view m ((id, entries_of (MemTable.data m)) :: ts) k = view m ts k.
Proof.
  unfold view, MemTable.get. cbn [lookup_tables snd]. rewrite get_entries_of.
  by destruct (BTreeMap.get k (MemTable.data m)).
Qed.

Lemma lookup_flushed m id ts k :
  lookup_tables k ((id, entries_of (MemTable.data m)) :: ts) = view m ts k.
Proof.
  unfold view, MemTable.get. cbn [lookup_tables snd]. rewrite get_entries_of.
  by destruct (BTreeMap.get k (MemTable.data m)).
Qed.

Lemma ok_published r e w ts kv id :
  engine_ok e w ts kv ->
  table_ok (StorageManager.data_dir (storage e)) w r (id, entries_of (MemTable.data (memtable e))) ->
  0 <= id < StorageManager.next_sstable_id (storage e) ->
  engine_ok (published r e) w ((id, entries_of (MemTable.data (memtable e))) :: ts) kv.
Proof.
  intros Hok Hr Hid. eapply ok_set_storage; [done|by apply publish_ok; [apply Hok|..]|done|apply Hok|].
  intros k. rewrite view_over_flushed. apply Hok.
Qed.

Lemma ok_publish r e w ts kv :
  engine_ok e w ts kv -> prepared e w r ->
  exists id, engine_ok (published r e) w ((id, entries_of (MemTable.data (memtable e))) :: ts) kv.
Proof. intros Hok (id & Hr & Hid). exists id. by apply ok_published. Qed.

Lemma ok_clear e w ts kv id :
  engine_ok e w ((id, entries_of (MemTable.data (memtable e))) :: ts) kv ->
  engine_ok (set_memtable MemTable.new e) w ((id, entries_of (MemTable.data (memtable e))) :: ts) kv.
Proof.
  intros [Hm Hs Hd Hw Hl Hv]. constructor; simpl; try done; [apply mem_new_ok|].
  intros k. rewrite <- Hv, view_over_flushed. apply view_flush.
Qed.

Lemma wp_truncate_step e w ts kv :
  engine_ok e w ts kv ->
  wp (with_wal_lock (on_wal WalWriter.truncate)) (e, w)
    (fun _ s => engine_ok s.1 s.2 ts kv /\ exists wr, s.1 = set_wal wr e)
    (fun s => engine_ok s.1 s.2 ts kv /\ exists wr, s.1 = set_wal wr e).
Proof.
  intros Hok. apply wp_locked; [apply Hok|]. apply wp_zoom; [done..|].
  eapply wp_conseq; [apply (wp_truncate_on (wal_path (config e)) w); apply Hok|..].
  - intros ? s Hs. split; [by apply ok_set_wal with (w := w)|by exists s.1].
  - intros s Hs. split; [by apply ok_set_wal with (w := w)|by exists s.1].
Qed.

(** The second half of a read, in the tables. *)
Lemma wp_lookup_step k e w ts kv :
  engine_ok e w ts kv ->
  wp (on_storage (StorageManager.get k)) (e, w)
    (fun res s => res = lookup_tables k ts /\ engine_ok s.1 s.2 ts kv /\ same_files w s.2 /\
       exists st, s.1 = set_storage st e /\
         StorageManager.next_sstable_id st = StorageManager.next_sstable_id (storage e))
    (fun s => engine_ok s.1 s.2 ts kv /\ same_files w s.2 /\
       exists st, s.1 = set_storage st e /\
         StorageManager.next_sstable_id st = StorageManager.next_sstable_id (storage e)).
Proof.
  intros Hok. pose proof Hok as [_ Hs _ Hw _ Hv]. apply wp_zoom; [done..|]. cbn [fst snd].
  assert (HE : forall s, storage_ok s.1 s.2 ts -> same_files w s.2 ->
    StorageManager.data_dir s.1 = StorageManager.data_dir (storage e) ->
    engine_ok (set_storage s.1 e) s.2 ts kv).
  { intros s H1 H2 H3. eapply ok_set_storage; [done..| |done]. by eapply wal_on_same. }
  eapply wp_conseq; [apply wp_always with (I := fun s => StorageManager.next_sstable_id s.1 =
    StorageManager.next_sstable_id (storage e)); [by apply wp_storage_get|]|..].
  - unfold StorageManager.get. by destruct (StorageManager.search _ _ _) as [res [rs w']].
  - intros res s [(-> & H1 & H2 & H3) H4]. cbn [fst snd]. split_and!; eauto.
  - intros s [(H1 & H2 & H3) H4]. cbn [fst snd]. split_and!; eauto.
Qed.

(** ** Reads *)

Lemma wp_get e w ts kv k :
  engine_ok e w ts kv ->
  wp (get k) (e, w)
    (fun res s => res = kv !! k /\ engine_ok s.1 s.2 ts kv /\ same_files w s.2 /\
       exists st', s.1 = set_storage st' e /\ StorageManager.next_sstable_id st' = next_id e)
    (fun s => engine_ok s.1 s.2 ts kv /\ same_files w s.2).
Proof.
  intros Hok. unfold get. apply wp_bind_gets. cbn [fst].
  pose proof (ok_view _ _ _ _ Hok k) as Hk. unfold view in Hk.
  destruct (MemTable.get k (memtable e)) as [x|].
  - assert (e = set_storage (storage e) e) by by destruct e.
    destruct x; apply wp_ret; simpl in *; split_and!; eauto; done.
  - eapply wp_conseq; [by apply wp_lookup_step|naive_solver..].
Qed.

(** ** Flush *)

Lemma wp_flush_internal e w ts kv :
  engine_ok e w ts kv -> ids_left e ->
  wp flush_internal (e, w)
    (fun _ s => exists ts', engine_ok s.1 s.2 ts' kv /\ config s.1 = config e /\
       MemTable.is_empty (memtable s.1) = true /\ next_id s.1 <= next_id e + 1)
    (fun s => exists ts', engine_ok s.1 s.2 ts' kv /\ config s.1 = config e).
Proof.
  intros Hok Hids. pose proof Hok as [[Hmi Hms] Hs [Hd1 Hd2] Hw _ Hv].
  unfold flush_internal. apply wp_bind_gets. cbn [fst].
  destruct (MemTable.is_empty (memtable e)) eqn:Hemp; [apply wp_ret; exists ts; split_and!; try done; simpl; lia|].
  assert (Hwal : forall w', frame (StorageManager.sstable_path_with_dir (StorageManager.data_dir (storage e))
      (StorageManager.next_sstable_id (storage e))) w w' -> wal_on (wal_path (config e)) w' (wal e, w')).
  { intros w' Hfr. eapply wal_on_frame; [done..|]. rewrite Hd1. apply not_eq_sym, wal_not_table. }
  eapply wp_bind_zoom; [done..|by apply wp_storage_flush| |].
  2: { intros [st w1] (H1 & H2 & H3 & H4). exists ts. split; [|done]. eapply ok_set_storage; eauto. }
  intros md [st w1] (_ & H1 & H2 & _ & H3 & Hn). cbn [fst snd] in *. set (ts1 := (_ :: ts)) in *.
  assert (Hok1 : engine_ok (set_memtable MemTable.new (set_storage st e)) w1 ts1 kv).
  { eapply (ok_clear (set_storage st e)), ok_set_storage; eauto. intros k. by rewrite view_over_flushed. }
  eapply wp_bind_step; [done|done|]. cbn [fst snd]. change (MemTable.clear _) with MemTable.new.
  eapply wp_conseq; [by apply wp_truncate_step|..].
  - intros _ s (H4 & wr & Hwr). exists ts1. rewrite Hwr in *. split_and!; try done. simpl. lia.
  - intros s (H4 & wr & Hwr). exists ts1. rewrite Hwr in *. done.
Qed.

(** ** Writes *)

(** [put] and [delete] share their body. *)
Definition write (now : Z) (op : Operation.t) : ST (t * World) unit :=
  match op with
  | Operation.Put k v => put now k v
  | Operation.Delete k => Engine.delete now k
  end.

Definition write_size (op : Operation.t) (m : MemTable.t) : Z * MemTable.t :=
  match op with
  | Operation.Put k v => MemTable.put k v m
  | Operation.Delete k => MemTable.delete k m
  end.

Lemma write_body now op :
  write now op = with_write_lock (
    _ ← with_wal_lock (on_wal (WalWriter.append now op));
    new_size ← on_memtable (write_size op);
    flush_if_full new_size).
Proof. by destruct op. Qed.

(** What a write does to the sizes that bound the next ones. *)
Definition grown (op : Operation.t) (e e' : t) : Prop :=
  (memtable e' = mem_apply op (memtable e) \/ MemTable.is_empty (memtable e') = true) /\
  next_id e' <= next_id e + 1.

Lemma wp_write now op e w ts kv :
  engine_ok e w ts kv -> ids_left e -> 0 <= now -> fits e op ->
  wp (write now op) (e, w)
    (fun _ s => exists ts', engine_ok s.1 s.2 ts' (kv_apply op kv) /\ config s.1 = config e /\
       grown op e s.1)
    (fun s => exists ts', (engine_ok s.1 s.2 ts' kv \/ engine_ok s.1 s.2 ts' (kv_apply op kv)) /\
       config s.1 = config e).
Proof.
  intros Hok Hids Hnow Hfit. rewrite write_body. apply wp_locked; [apply Hok|].
  eapply wp_bind; [by apply wp_append_step| |].
  2: { intros s (Hs & wr & Hwr). exists ts. rewrite Hwr in *. auto. }
  intros _ [e1 w1] (Hok1 & wr & Hwr). cbn [fst snd] in *. subst e1.
  assert (Hok2 := ok_apply op _ w1 ts kv Hok1 Hfit). simpl memtable in Hok2.
  eapply wp_bind_step.
  { unfold on_memtable. cbn [fst]. change (memtable (set_wal wr e)) with (memtable e).
    rewrite (surjective_pairing (write_size op (memtable e))). reflexivity. }
  { done. }
  replace (write_size op (memtable e)).2 with (mem_apply op (memtable e)) by by destruct op.
  unfold flush_if_full. apply wp_bind_gets. cbn [snd].
  destruct (_ <=? _); [|apply wp_ret; exists ts; split_and!; try done; split; [by left|simpl; lia]].
  eapply wp_conseq; [by eapply (wp_flush_internal _ w1 ts (kv_apply op kv))|..].
  - intros _ s (ts' & H1 & H2 & H3 & H4). exists ts'. split_and!; try done. split; [by right|done].
  - intros s (ts' & H1 & H2). exists ts'. auto.
Qed.
End Ok.
