(* ===== verification/Traces.v ===== *)
(** Labelled transition systems: runs with their visible labels, the two ways to
    show that every trace of one system is a trace of another, and sums over the
    threads of a system, from which its measures are made. *)

From Stdlib Require Import Lia.
From stdpp Require Import base gmap list.
Open Scope list_scope.

Section Runs.
Context {S L : Type} (step : S -> option L -> S -> Prop).

(** A run and the labels it shows; [None] labels an internal step. *)
Inductive run : S -> list L -> S -> Prop :=
| run_nil s : run s [] s
| run_snoc s tr s1 l s2 : run s tr s1 -> step s1 l s2 -> run s (tr ++ option_list l) s2.

Lemma run_one s l s' : step s l s' -> run s (option_list l) s'.
Proof. intros H. exact (run_snoc s [] s l s' (run_nil s) H). Qed.

Lemma run_tau s tr s1 s2 : run s tr s1 -> step s1 None s2 -> run s tr s2.
Proof. intros H1 H2. rewrite <- (app_nil_r tr). by eapply (run_snoc _ _ _ None). Qed.

Lemma run_trans s tr1 s1 tr2 s2 : run s tr1 s1 -> run s1 tr2 s2 -> run s (tr1 ++ tr2) s2.
Proof.
  intros H1 H2. induction H2 as [s1|s1 tr2 s2 l s3 _ IH Hstep]; [by rewrite app_nil_r|].
  rewrite app_assoc. eapply run_snoc; eauto.
Qed.

(** A property of states that every step keeps holds along every run. *)
Lemma run_invariant (I : S -> Prop) s tr s' :
  (forall x l y, I x -> step x l y -> I y) -> run s tr s' -> I s -> I s'.
Proof. intros Hstep Hrun Hs. induction Hrun; eauto. Qed.
End Runs.

Section Simulations.
Context {S1 S2 L : Type}.
Context (step1 : S1 -> option L -> S1 -> Prop) (step2 : S2 -> option L -> S2 -> Prop).
Context (R : S1 -> S2 -> Prop).

(** From related states the second system follows the first. *)
Lemma forward_simulation :
  (forall s1 s2 l s1', R s1 s2 -> step1 s1 l s1' ->
     exists s2', run step2 s2 (option_list l) s2' /\ R s1' s2') ->
  forall s1 tr s1' s2, run step1 s1 tr s1' -> R s1 s2 ->
  exists s2', run step2 s2 tr s2' /\ R s1' s2'.
Proof.
  intros Hsim s1 tr s1' s2 Hrun H0. induction Hrun as [s1|s1 tr s1' l s1'' _ IH Hstep].
  - exists s2. split; [constructor|done].
  - destruct (IH H0) as (s2' & Hrun2 & HR). destruct (Hsim _ _ _ _ HR Hstep) as (s2'' & H2 & HR2).
    exists s2''. split; [by eapply run_trans|done].
Qed.

(** The second system can have come to any state related to where the first
    stopped: what it had to guess is chosen with hindsight. *)
Lemma backward_simulation (s0 : S2) :
  (forall s1 l s1' s2', step1 s1 l s1' -> R s1' s2' ->
     exists s2, R s1 s2 /\ run step2 s2 (option_list l) s2') ->
  forall s1 tr s1' s2', run step1 s1 tr s1' -> (forall s2, R s1 s2 -> s2 = s0) ->
  R s1' s2' -> run step2 s0 tr s2'.
Proof.
  intros Hsim s1 tr s1' s2' Hrun H0. revert s2'.
  induction Hrun as [s1|s1 tr s1' l s1'' _ IH Hstep]; intros s2' HR.
  - rewrite (H0 _ HR). constructor.
  - destruct (Hsim _ _ _ _ Hstep HR) as (s2 & HR2 & Hrun2).
    eapply run_trans; [by apply IH|done].
Qed.
End Simulations.

(** ** Sums over threads *)

Section Sums.
Context {A : Type} (f : A -> nat).

Definition msum (m : gmap nat A) : nat := map_fold (fun _ x n => f x + n) 0 m.

Lemma msum_insert m i x : m !! i = None -> msum (<[i := x]> m) = f x + msum m.
Proof. intros Hi. unfold msum. rewrite map_fold_insert_L; [done| |done]. intros. lia. Qed.

Lemma msum_delete m i x : m !! i = Some x -> msum m = f x + msum (base.delete i m).
Proof.
  intros Hi. rewrite <- (insert_delete_id m i x Hi) at 1. by rewrite msum_insert by apply lookup_delete_eq.
Qed.

Lemma msum_update m i x y : m !! i = Some x -> msum (<[i := y]> m) + f x = msum m + f y.
Proof.
  intros Hi. rewrite (msum_delete m i x Hi), <- insert_delete_eq, msum_insert by apply lookup_delete_eq. lia.
Qed.
End Sums.
