(* ===== verification/Register.v ===== *)
(** What several workers may observe of one engine.  [Atomic] is the
    specification: every call takes effect at one instant between its start and
    its return.  [Register] is the same object with the instant of a read left
    open until it returns; it is as strong as [Atomic]. *)

From Stdlib Require Import ZArith.
From stdpp Require Import base gmap list strings.
From S2P Require Import Prelude Errors Memtable Protocol World Wal EngineFacts Traces.
Open Scope list_scope.

(** A call to the engine: [execute] of a command, or [flush]. *)
Inductive call := Exec (c : Command.t) | Flush.

(** The operation a call writes, if any. *)
Definition writes (c : call) : option Operation.t :=
  match c with
  | Exec (Command.Put k v) => Some (Operation.Put k v)
  | Exec (Command.Delete k) => Some (Operation.Delete k)
  | _ => None
  end.

(** What a call answers when it takes effect on the map [kv]. *)
Definition answer (c : call) (kv : gmap bytes bytes) : option bytes :=
  match c with
  | Exec (Command.Get k) => kv !! k
  | Exec Command.Ping => Some (bytes_of_string "PONG")
  | _ => None
  end.

(** The map after it. *)
Definition effect (c : call) (kv : gmap bytes bytes) : gmap bytes bytes :=
  match writes c with Some op => kv_apply op kv | None => kv end.

Inductive label := Call (i : nat) (c : call) | Ret (i : nat) (r : outcome (option bytes)).

Module Atomic.

(** The map, and of every thread inside a call whether the call took effect and
    what it answered. *)
Record t := mk { map : gmap bytes bytes; pending : gmap nat (call * option (option bytes)) }.

Section Step.
Context (may_fail : Prop).

Inductive step : t -> option label -> t -> Prop :=
| a_call i c kv P :
    P !! i = None -> step (mk kv P) (Some (Call i c)) (mk kv (<[i := (c, None)]> P))
| a_effect i c kv P :
    P !! i = Some (c, None) ->
    step (mk kv P) None (mk (effect c kv) (<[i := (c, Some (answer c kv))]> P))
| a_ret i c v kv P :
    P !! i = Some (c, Some v) -> step (mk kv P) (Some (Ret i (Ok v))) (mk kv (base.delete i P))
| a_err i c o k kv P :
    may_fail -> P !! i = Some (c, o) ->
    step (mk kv P) (Some (Ret i (Err (Io k)))) (mk kv (base.delete i P)).

(** Reads catch up: threads that have not taken effect do so on the present map. *)
Lemma catch_up kv (D : list nat) : forall P P',
  (forall j, j ∉ D -> P !! j = P' !! j) ->
  (forall j, P !! j = P' !! j \/ exists c, writes c = None /\ P !! j = Some (c, None) /\
     P' !! j = Some (c, Some (answer c kv))) ->
  run step (mk kv P) [] (mk kv P').
Proof.
  induction D as [|i D IH]; intros P P' HD Hrel.
  - rewrite (map_eq P P'); [constructor|]. intros j. apply HD. set_solver.
  - destruct (Hrel i) as [Ei|(c & Hc & HP & HP')].
    + apply IH; [|done]. intros j Hj. destruct (decide (j = i)) as [->|]; [done|]. apply HD. set_solver.
    + eapply (run_trans _ _ [] _ []).
      * eapply (run_tau _ _ []); [constructor|]. by apply (a_effect i c).
      * unfold effect. rewrite Hc. apply IH; intros j.
        -- intros Hj. destruct (decide (j = i)) as [->|]; [by rewrite lookup_insert_eq|].
           rewrite lookup_insert_ne by done. apply HD. set_solver.
        -- destruct (decide (j = i)) as [->|]; [left; by rewrite lookup_insert_eq|].
           rewrite lookup_insert_ne by done. apply Hrel.
Qed.

(** A call returns an answer or an I/O error. *)
Lemma returns_answer a tr a' i r :
  run step a tr a' -> Ret i r ∈ tr -> (exists v, r = Ok v) \/ exists k, r = Err (Io k).
Proof.
  induction 1 as [|a tr a1 l a2 _ IH Hstep]; [by intros ?%not_elem_of_nil|].
  intros [?|Hl]%elem_of_app; [auto|]. destruct l as [l|]; [|by apply not_elem_of_nil in Hl].
  apply list_elem_of_singleton in Hl as <-. inversion Hstep; eauto.
Qed.
End Step.

(** Fewer failures, fewer runs. *)
Lemma run_mono (P Q : Prop) a tr a' : (P -> Q) -> run (step P) a tr a' -> run (step Q) a tr a'.
Proof.
  intros H. induction 1 as [|a tr a1 l a2 _ IH Hstep]; [constructor|]. eapply run_snoc; [exact IH|].
  destruct Hstep; econstructor; eauto.
Qed.
End Atomic.

Module Register.

(** Of every thread inside a call, the answers it may still give: a read may
    answer any value its key had since the call, a write nothing until it has
    been applied. *)
Record t := mk { map : gmap bytes bytes; pending : gmap nat (call * list (option bytes)) }.

Definition start (c : call) (kv : gmap bytes bytes) : list (option bytes) :=
  match writes c with Some _ => [] | None => [answer c kv] end.

Definition see (kv : gmap bytes bytes) (x : call * list (option bytes)) : call * list (option bytes) :=
  match writes x.1 with Some _ => x | None => (x.1, answer x.1 kv :: x.2) end.

Section Step.
Context (may_fail : Prop).

Inductive step : t -> option label -> t -> Prop :=
| r_call i c kv P :
    P !! i = None -> step (mk kv P) (Some (Call i c)) (mk kv (<[i := (c, start c kv)]> P))
| r_apply i c op kv P :
    writes c = Some op -> P !! i = Some (c, []) ->
    step (mk kv P) None
      (mk (kv_apply op kv) (<[i := (c, [None])]> (see (kv_apply op kv) <$> P)))
| r_ret i c l v kv P :
    P !! i = Some (c, l) -> v ∈ l -> step (mk kv P) (Some (Ret i (Ok v))) (mk kv (base.delete i P))
| r_err i c l k kv P :
    may_fail -> P !! i = Some (c, l) ->
    step (mk kv P) (Some (Ret i (Err (Io k)))) (mk kv (base.delete i P)).

(** An atomic thread state that may turn out to be the right one. *)
Definition choice (x : call * list (option bytes)) (y : call * option (option bytes)) : Prop :=
  y.1 = x.1 /\ match y.2 with
               | Some v => v ∈ x.2
               | None => forall op, writes x.1 = Some op -> x.2 = []
               end.

Definition chosen (P : gmap nat (call * list (option bytes)))
    (Q : gmap nat (call * option (option bytes))) : Prop :=
  forall j, match P !! j, Q !! j with
            | Some x, Some y => choice x y
            | None, None => True
            | _, _ => False
            end.

Definition hindsight (r : t) (a : Atomic.t) : Prop :=
  Atomic.map a = map r /\ chosen (pending r) (Atomic.pending a).

Lemma chosen_insert P Q i x y : chosen P Q -> choice x y -> chosen (<[i := x]> P) (<[i := y]> Q).
Proof.
  intros H Hxy j. destruct (decide (j = i)) as [->|]; [by rewrite !lookup_insert_eq|].
  rewrite !lookup_insert_ne by done. apply H.
Qed.

Lemma chosen_delete P Q i : chosen P Q -> chosen (base.delete i P) (base.delete i Q).
Proof.
  intros H j. destruct (decide (j = i)) as [->|]; [by rewrite !lookup_delete_eq|].
  rewrite !lookup_delete_ne by done. apply H.
Qed.

(** Every thread state has a choice. *)
Definition choose (x : call * list (option bytes)) : call * option (option bytes) :=
  (x.1, match writes x.1 with Some _ => head x.2 | None => None end).

Lemma choice_choose x : choice x (choose x).
Proof.
  destruct x as [c l]. unfold choose. simpl. destruct (writes c) eqn:E; [destruct l as [|v l]|].
  all: split; simpl; [done|congruence || set_solver].
Qed.

(** Before a write: reads that answer only the new value have not happened. *)
Definition rewind (i : nat) (P : gmap nat (call * list (option bytes)))
    (Q : gmap nat (call * option (option bytes))) : gmap nat (call * option (option bytes)) :=
  map_imap (fun j x => Some (x.1,
    match Q !! j with
    | Some (_, Some v) => if decide (j = i) then None else if decide (v ∈ x.2) then Some v else None
    | _ => None
    end)) P.

Lemma chosen_lookup P Q j x :
  chosen P Q -> P !! j = Some x -> exists y, Q !! j = Some y /\ choice x y.
Proof. intros H E. specialize (H j). rewrite E in H. destruct (Q !! j); [eauto|done]. Qed.

Lemma rewind_self i P Q x : P !! i = Some x -> rewind i P Q !! i = Some (x.1, None).
Proof.
  intros E. unfold rewind. rewrite map_lookup_imap, E. simpl. destruct (Q !! i) as [[? [v|]]|]; [|done..].
  by rewrite decide_True.
Qed.

Lemma rewind_lookup i P Q j x y :
  P !! j = Some x -> Q !! j = Some y -> j <> i ->
  rewind i P Q !! j = Some (x.1, match y.2 with
    | Some v => if decide (v ∈ x.2) then Some v else None
    | None => None end).
Proof.
  intros E E' Hne. unfold rewind. rewrite map_lookup_imap, E. simpl. rewrite E'.
  destruct y as [? [v|]]; [|done]. simpl. by rewrite (decide_False (P := j = i)).
Qed.

(** What a write step changes of the other threads. *)
Lemma see_lookup kv i z (P : gmap nat (call * list (option bytes))) j x :
  P !! j = Some x -> j <> i -> (<[i := z]> (see kv <$> P)) !! j = Some (see kv x).
Proof. intros E Hne. rewrite lookup_insert_ne by done. by rewrite lookup_fmap, E. Qed.

Lemma see_choice kv x y :
  choice (see kv x) y ->
  y = (x.1, match y.2 with Some v => if decide (v ∈ x.2) then Some v else None | None => None end) \/
  (writes x.1 = None /\ y = (x.1, Some (answer x.1 kv))).
Proof.
  destruct x as [c l], y as [c' o]. unfold see, choice. simpl.
  destruct (writes c) eqn:E; simpl; intros [-> H]; destruct o as [v|]; auto.
  - left. by rewrite decide_True.
  - apply elem_of_cons in H as [->|H]; [by right|]. left. by rewrite decide_True.
Qed.

Lemma rewind_chosen kv i c P Q op :
  writes c = Some op -> P !! i = Some (c, []) -> chosen (<[i := (c, [None])]> (see kv <$> P)) Q ->
  chosen P (rewind i P Q).
Proof.
  intros Hc Hi H j. destruct (P !! j) as [x|] eqn:E.
  2: { unfold rewind. by rewrite map_lookup_imap, E. }
  destruct (decide (j = i)) as [->|Hne].
  - simplify_eq. destruct (chosen_lookup _ _ i (c, [None]) H) as (y & Hy & _); [by rewrite lookup_insert_eq|].
    by rewrite (rewind_self i P Q (c, [])).
  - destruct (chosen_lookup _ _ j _ H (see_lookup kv i _ P j x E Hne)) as (y & Hy & Hxy).
    rewrite (rewind_lookup i P Q j x y) by done.
    destruct x as [c' l], y as [c'' o]. unfold see, choice in *. simpl in *.
    destruct (writes c') eqn:Ec; simpl in Hxy; destruct Hxy as [-> Ho], o as [v|]; simpl;
      (split; [done|]); try case_decide; simpl; naive_solver.
Qed.

Lemma backward_step r l r' a' :
  step r l r' -> hindsight r' a' ->
  exists a, hindsight r a /\ run (Atomic.step may_fail) a (option_list l) a'.
Proof.
  intros Hstep [Hm H]. destruct a' as [kv' Q]. simpl in *. destruct Hstep as
    [i c kv P Hi|i c op kv P Hc Hi|i c l v kv P Hi Hv|i c l k kv P Hf Hi]; simpl in *; subst kv'.
  - destruct (chosen_lookup _ _ i (c, start c kv) H) as ([c' o] & Hy & [Ec Ho]); [by rewrite lookup_insert_eq|].
    simpl in *. subst c'. assert (HP : chosen P (base.delete i Q)).
    { apply chosen_delete with (i := i) in H. by rewrite delete_insert_id in H. }
    exists (Atomic.mk kv (base.delete i Q)). split; [done|].
    assert (Hcall : run (Atomic.step may_fail) (Atomic.mk kv (base.delete i Q)) [Call i c]
        (Atomic.mk kv (<[i := (c, None)]> (base.delete i Q)))).
    { apply (run_one _ _ (Some _)). constructor. apply lookup_delete_eq. }
    destruct o as [v|].
    + unfold start in Ho. destruct (writes c) eqn:Hc; [set_solver|].
      apply list_elem_of_singleton in Ho as ->. eapply run_tau; [exact Hcall|].
      pose proof (Atomic.a_effect may_fail i c kv (<[i := (c, None)]> (base.delete i Q))
        ltac:(apply lookup_insert_eq)) as Hs. unfold effect in Hs. rewrite Hc, insert_insert_eq in Hs.
      by rewrite (insert_delete_id Q i (c, Some (answer c kv))) in Hs by done.
    + by rewrite insert_delete_id in Hcall.
  - set (kv1 := kv_apply op kv) in *. exists (Atomic.mk kv (rewind i P Q)).
    split; [split; [done|]; by eapply rewind_chosen|].
    destruct (chosen_lookup _ _ i (c, [None]) H) as ([c' o] & Hy & [Ec Ho]); [by rewrite lookup_insert_eq|].
    simpl in *. subst c'. assert (o = Some None) as ->.
    { destruct o as [v|]; [by apply list_elem_of_singleton in Ho as ->|by specialize (Ho op Hc)]. }
    eapply (run_trans _ _ [] _ []).
    + eapply (run_tau _ _ []); [constructor|]. eapply (Atomic.a_effect may_fail i c).
      by rewrite (rewind_self i P Q _ Hi).
    + unfold effect. rewrite Hc. fold kv1.
      apply (Atomic.catch_up may_fail kv1 (elements (dom P))).
      * intros j Hj. rewrite elem_of_elements, not_elem_of_dom in Hj.
        assert (j <> i) by congruence. rewrite lookup_insert_ne by done.
        unfold rewind. rewrite map_lookup_imap, Hj. specialize (H j).
        rewrite lookup_insert_ne, lookup_fmap, Hj in H by done. simpl in *. by destruct (Q !! j).
      * intros j. destruct (decide (j = i)) as [->|Hne].
        { left. rewrite lookup_insert_eq, Hy. unfold answer. destruct c as [[]|]; simpl in Hc; done. }
        rewrite lookup_insert_ne by done. destruct (P !! j) as [x|] eqn:E.
        -- destruct (chosen_lookup _ _ j _ H (see_lookup kv1 i _ P j x E Hne)) as (y & Hyj & Hxy).
           rewrite (rewind_lookup i P Q j x y), Hyj by done.
           destruct (see_choice _ _ _ Hxy) as [Ey|[Hw Ey]].
           { left. by rewrite Ey at 2. }
           subst y. simpl. case_decide; [by left|]. right. exists x.1. eauto.
        -- left. unfold rewind. rewrite map_lookup_imap, E. specialize (H j).
           rewrite lookup_insert_ne, lookup_fmap, E in H by done. simpl in *. by destruct (Q !! j).
  - exists (Atomic.mk kv (<[i := (c, Some v)]> Q)).
    assert (HQ : Q !! i = None) by (specialize (H i); rewrite lookup_delete_eq in H; by destruct (Q !! i)).
    split; [split; [done|]|].
    + apply (chosen_insert _ _ i (c, l) (c, Some v)) in H; [|by split].
      by rewrite insert_delete_id in H.
    + apply (run_one _ _ (Some _)). rewrite <- (delete_insert_id Q i (c, Some v)) at 2 by done.
      apply (Atomic.a_ret may_fail i c). apply lookup_insert_eq.
  - pose proof (choice_choose (c, l)) as Hcho. set (o := (choose (c, l)).2).
    exists (Atomic.mk kv (<[i := (c, o)]> Q)).
    assert (HQ : Q !! i = None) by (specialize (H i); rewrite lookup_delete_eq in H; by destruct (Q !! i)).
    split; [split; [done|]|].
    + apply (chosen_insert _ _ i (c, l) (c, o)) in H; [|done]. by rewrite insert_delete_id in H.
    + apply (run_one _ _ (Some _)). rewrite <- (delete_insert_id Q i (c, o)) at 2 by done.
      apply (Atomic.a_err may_fail i c o); [done|]. apply lookup_insert_eq.
Qed.

(** Every history of the register is one of the atomic object. *)
Lemma register_atomic kv tr r :
  run step (mk kv ∅) tr r ->
  exists a, Atomic.map a = map r /\ run (Atomic.step may_fail) (Atomic.mk kv ∅) tr a.
Proof.
  intros Hrun. assert (exists a, hindsight r a) as [a Ha].
  { exists (Atomic.mk (map r) (choose <$> pending r)). split; [done|]. intros j. simpl.
    rewrite lookup_fmap. destruct (pending r !! j); [apply choice_choose|done]. }
  exists a. split; [apply Ha|].
  eapply (backward_simulation step (Atomic.step may_fail) hindsight (Atomic.mk kv ∅)); eauto using backward_step.
  intros [kv' Q] [E HQ]. simpl in *. subst. f_equal. apply map_eq. intros j. specialize (HQ j).
  rewrite lookup_empty in *. by destruct (Q !! j).
Qed.
End Step.
End Register.
