(* ===== verification/Workers.v ===== *)
(** Several threads inside one engine: [src/src/engine.rs] at the grain of its
    locks.  A thread inside a call has a program counter; one action is what a
    thread does under one lock (or on its own): a lookup in the memtable, a lookup
    in the tables, an append to the log, building a table file nobody sees yet,
    publishing it, clearing the memtable, truncating the log.  The actions are the
    pieces of [Engine] themselves, and a thread alone runs exactly its methods
    ([WorkersFacts]); taking and dropping the locks inside is in [Locks]. *)

From Stdlib Require Import ZArith Lia String.
From stdpp Require Import base gmap list strings.
From S2P Require Import Prelude Errors Memtable Protocol World WorldFacts Config Wal Sstable Storage.
From S2P Require Import Engine EngineFacts Traces Register.
Open Scope list_scope.
Open Scope Z_scope.

Module Workers.

(** Where a thread is in its call.  [Append] to [Unlock] are inside [write_lock]. *)
Inductive pc :=
| Ready (c : call)                        (** entering *)
| Tables (k : bytes)                      (** [get], after a miss in the memtable *)
| Append (op : Operation.t)               (** [put]/[delete], step 1 *)
| Apply (op : Operation.t)                (** step 2 *)
| Size (new_size : Z)                     (** step 3 *)
| Build                                   (** [flush_internal], up to the new table file *)
| Publish (r : SSTableReader.t)
| Clear
| Truncate
| Unlock (r : outcome (option bytes))     (** dropping the guard *)
| Done (r : outcome (option bytes)).

Definition critical (p : pc) : bool :=
  match p with Ready _ | Tables _ | Done _ => false | _ => true end.

(** The engine, the file system, and who holds [write_lock]. *)
Record shared := mkShared { eng : Engine.t; wld : World; holder : option nat }.

Record t := mk { sh : shared; threads : gmap nat pc }.

Section Act.
Context `{HC : Crc32} `{HB : WalEntry.Bincode} `{HT : IoText}.

(** Continue with [f], or leave with what [?] returns. *)
Definition follow {A} (s : shared) (m : ST (Engine.t * World) A) (f : A -> pc)
    (leave : outcome (option bytes) -> pc) : pc * shared :=
  match m (eng s, wld s) with
  | (Ok a, (e, w)) => (f a, mkShared e w (holder s))
  | (Err er, (e, w)) => (leave (Err er), mkShared e w (holder s))
  | (Panic, (e, w)) => (leave Panic, mkShared e w (holder s))
  | (OutOfFuel, (e, w)) => (leave OutOfFuel, mkShared e w (holder s))
  end.

(** [write_lock.lock()]: it waits for the holder, and fails if poisoned. *)
Definition acquire (i : nat) (s : shared) (next : pc) : option (pc * shared) :=
  match holder s with
  | Some _ => None
  | None =>
      Some (if Engine.write_poisoned (eng s)
            then (Done (Err (LockPoisoned ("Write lock poisoned: " +:+ Engine.poison_text))), s)
            else (next, mkShared (eng s) (wld s) (Some i)))
  end.

(** The guard's drop: a panic in flight poisons the lock. *)
Definition release (r : outcome (option bytes)) (s : shared) : shared :=
  mkShared (match r with Panic => Engine.poison_write (eng s) | _ => eng s end) (wld s) None.

(** The next action of thread [i] at [p]; [None] if it has to wait. *)
Definition act (now : Z) (i : nat) (p : pc) (s : shared) : option (pc * shared) :=
  match p with
  | Ready (Exec (Command.Get k)) =>
      Some (match MemTable.get k (Engine.memtable (eng s)) with
            | Some (Value v) => Done (Ok (Some v))
            | Some Tombstone => Done (Ok None)
            | None => Tables k
            end, s)
  | Ready (Exec (Command.Put k v)) => acquire i s (Append (Operation.Put k v))
  | Ready (Exec (Command.Delete k)) => acquire i s (Append (Operation.Delete k))
  | Ready (Exec Command.Ping) => Some (Done (Ok (Some (bytes_of_string "PONG"))), s)
  | Ready Flush => acquire i s Build
  | Tables k => Some (follow s (Engine.on_storage (StorageManager.get k)) (fun v => Done (Ok v)) Done)
  | Append op =>
      Some (follow s (Engine.with_wal_lock (Engine.on_wal (WalWriter.append now op)))
              (fun _ => Apply op) Unlock)
  | Apply op => Some (follow s (Engine.on_memtable (write_size op)) Size Unlock)
  | Size n =>
      Some (if Config.memtable_size_limit (Engine.config (eng s)) <=? n
            then Build else Unlock (Ok None), s)
  | Build =>
      if MemTable.is_empty (Engine.memtable (eng s)) then Some (Unlock (Ok None), s)
      else Some (follow s (Engine.on_storage (StorageManager.prepare (Engine.memtable (eng s))))
                   (fun x => Publish x.2) Unlock)
  | Publish r => Some (follow s (Engine.on_storage (StorageManager.publish r)) (fun _ => Clear) Unlock)
  | Clear =>
      Some (follow s (Engine.on_memtable (fun m => (tt, MemTable.clear m))) (fun _ => Truncate) Unlock)
  | Truncate =>
      Some (follow s (Engine.with_wal_lock (Engine.on_wal WalWriter.truncate))
              (fun _ => Unlock (Ok None)) Unlock)
  | Unlock r => Some (Done r, release r s)
  | Done _ => None
  end.

(** Threads enter calls, act in any order, and return.  [ok] limits the actions to
    those taken under some condition; the program itself is [step (fun _ _ _ => True)]. *)
Inductive step (ok : Z -> pc -> shared -> Prop) : t -> option label -> t -> Prop :=
| s_call i c s T :
    T !! i = None -> step ok (mk s T) (Some (Call i c)) (mk s (<[i := Ready c]> T))
| s_act now i p s T p' s' :
    T !! i = Some p -> ok now p s -> act now i p s = Some (p', s') ->
    step ok (mk s T) None (mk s' (<[i := p']> T))
| s_ret i r s T :
    T !! i = Some (Done r) -> step ok (mk s T) (Some (Ret i r)) (mk s (base.delete i T)).

(** The condition most theorems need: the clock an append reads is past 1970 (else
    the code panics there), and the fields an action fills are wide enough. *)
Definition room (now : Z) (p : pc) (s : shared) : Prop :=
  match p with
  | Append op => 0 <= now /\ fits (eng s) op
  | Build => ids_left (eng s)
  | _ => True
  end.

End Act.
End Workers.
