(* ===== verification/WorkersFacts.v ===== *)
(** The threads of [Workers] against [Engine]'s methods and against the register
    of [Register]: a thread alone runs its method; any interleaving is a history
    of the register; the machine cannot get stuck. *)

From Stdlib Require Import ZArith Lia String.
From stdpp Require Import base gmap list strings.
From S2P Require Import Prelude Errors BTreeMap Memtable Protocol World WorldFacts Config Wal.
From S2P Require Import WalFacts WalWriterFacts Sstable SstableFacts SstableReaderFacts Storage.
From S2P Require Import StorageFacts Engine EngineFacts Traces Register Workers.
Open Scope list_scope.
Open Scope Z_scope.

Import Workers.

(** Actions left at most, of the thread itself. *)
Definition rank (p : pc) : nat :=
  match p with
  | Ready _ => 9 | Append _ => 8 | Apply _ => 7 | Size _ => 6 | Build => 5 | Publish _ => 4
  | Clear => 3 | Truncate => 2 | Unlock _ => 1 | Tables _ => 1 | Done _ => 0
  end.

(** Two lens laws, enough to run a sequence through [zoom]. *)
Lemma zoom_bind {S T A B} (proj : S -> T) (upd : T -> S -> S) (m : ST T A) (f : A -> ST T B) s :
  (forall x, proj (upd x s) = x) -> (forall x y, upd y (upd x s) = upd y s) ->
  zoom proj upd (m ≫= f) s = (zoom proj upd m ≫= fun a => zoom proj upd (f a)) s.
Proof.
  intros H1 H2. unfold zoom, mbind, ST_bind. destruct (m (proj s)) as [[a|e| |] x]; [|done..].
  rewrite H1. destruct (f a x) as [r y]. by rewrite H2.
Qed.

Section Alone.
Context `{HC : Crc32} `{HB : WalEntry.Bincode} `{HT : IoText}.

(** A thread with nobody beside it. *)
Fixpoint alone (fuel : nat) (now : Z) (i : nat) (p : pc) (s : shared) : pc * shared :=
  match fuel with
  | O => (p, s)
  | S n => match act now i p s with
           | Some (p', s') => alone n now i p' s'
           | None => (p, s)
           end
  end.

(** The method a call stands for. *)
Definition method (now : Z) (c : call) : ST (Engine.t * World) (option bytes) :=
  match c with
  | Exec c => Engine.execute now c
  | Flush => _ ← Engine.flush; mret None
  end.

Lemma on_storage_bind {A B} (m : ST (StorageManager.t * World) A) (f : A -> ST (StorageManager.t * World) B) s :
  Engine.on_storage (m ≫= f) s = (Engine.on_storage m ≫= fun a => Engine.on_storage (f a)) s.
Proof. apply zoom_bind; [by intros []|by intros [] []]. Qed.

(** The pieces of [flush_internal]. *)
Lemma flush_internal_pieces e w :
  Engine.flush_internal (e, w) =
  (if MemTable.is_empty (Engine.memtable e) then mret tt
   else x ← Engine.on_storage (StorageManager.prepare (Engine.memtable e));
        _ ← Engine.on_storage (StorageManager.publish x.2);
        _ ← Engine.on_memtable (fun m => (tt, MemTable.clear m));
        Engine.with_wal_lock (Engine.on_wal WalWriter.truncate)) (e, w).
Proof.
  unfold Engine.flush_internal. rewrite (bind_ok _ _ _ (Engine.memtable e) (e, w)) by done.
  destruct (MemTable.is_empty (Engine.memtable e)) eqn:E; [done|].
  unfold StorageManager.flush. rewrite E. rewrite (bind_eq _ _ _ _ (on_storage_bind _ _ (e, w))).
  unfold mbind, ST_bind. by destruct (Engine.on_storage (StorageManager.prepare _) (e, w)) as [[x|er| |] s].
Qed.

Lemma alone_done n now i r s : alone n now i (Done r) s = (Done r, s).
Proof. by destruct n. Qed.

Lemma alone_S n now i p s :
  alone (S n) now i p s =
  match act now i p s with Some (p', s') => alone n now i p' s' | None => (p, s) end.
Proof. done. Qed.

(** From [Build] on, a thread runs [flush_internal] and leaves. *)
Lemma alone_build n now i e w h :
  alone (5 + n) now i Build (mkShared e w h) =
  let '(r, (e', w')) := (_ ← Engine.flush_internal; mret None) (e, w) in
  (Done r, release r (mkShared e' w' h)).
Proof.
  unfold mbind at 1, ST_bind at 1. rewrite flush_internal_pieces. cbn [alone Nat.add act eng wld].
  destruct (MemTable.is_empty _); [done|].
  unfold mbind, ST_bind, follow. cbn [eng wld holder].
  destruct (Engine.on_storage (StorageManager.prepare _) (e, w)) as [[x|er| |] [e1 w1]]; [|done..].
  cbn [act eng wld holder]. unfold Engine.on_memtable, follow. simpl. unfold follow. cbn [eng wld holder].
  destruct (Engine.with_wal_lock _ _) as [[[]|er| |] [e2 w2]]; apply alone_done.
Qed.

(** A write, from the lock on. *)
Lemma alone_write now i op e w :
  Engine.write_poisoned e = false ->
  alone 8 now i (Append op) (mkShared e w (Some i)) =
  let '(r, (e', w')) := (_ ← write now op; mret None) (e, w) in (Done r, mkShared e' w' None).
Proof.
  intros Hp. rewrite write_body, alone_S. cbn [act]. unfold follow. cbn [eng wld holder].
  unfold mbind at 1, ST_bind at 1, Engine.with_write_lock, Engine.locked at 1. cbn [fst]. rewrite Hp.
  unfold mbind at 1, ST_bind at 1.
  destruct (Engine.with_wal_lock _ _) as [[a|er| |] [e1 w1]]; [|done..].
  rewrite alone_S. cbn [act]. unfold follow, Engine.on_memtable, mbind at 1, ST_bind at 1.
  cbn [fst snd eng wld holder].
  destruct (write_size op (Engine.memtable e1)) as [n m]. rewrite alone_S. cbn [act eng].
  unfold Engine.flush_if_full. rewrite (bind_ok (gets _) _ _ _ _ eq_refl). cbn [fst snd].
  destruct (_ <=? n); [|done].
  rewrite (alone_build 0). unfold mbind at 1, ST_bind at 1.
  by destruct (Engine.flush_internal _) as [[[]|er| |] [e2 w2]].
Qed.

(** A thread with nobody beside it runs its method, and its method only. *)
Lemma alone_runs_method now i c e w :
  alone 9 now i (Ready c) (mkShared e w None) =
  let '(r, (e', w')) := method now c (e, w) in (Done r, mkShared e' w' None).
Proof.
  rewrite alone_S. destruct c as [[k|k v|k|]|]; cbn [act method]; unfold acquire; cbn [holder eng wld].
  - cbn [Engine.execute]. unfold Engine.get. rewrite (bind_ok (gets _) _ _ _ _ eq_refl). cbn [fst].
    destruct (MemTable.get k _) as [[v|]|]; [done..|].
    rewrite alone_S. cbn [act]. unfold follow. cbn [eng wld holder].
    by destruct (Engine.on_storage _ _) as [[v|er| |] [e1 w1]].
  - destruct (Engine.write_poisoned e) eqn:Hp; [|by apply (alone_write now i (Operation.Put k v))].
    cbn [Engine.execute]. unfold Engine.put, Engine.with_write_lock, Engine.locked at 1, mbind at 1, ST_bind at 1.
    simpl. by rewrite Hp.
  - destruct (Engine.write_poisoned e) eqn:Hp; [|by apply (alone_write now i (Operation.Delete k))].
    cbn [Engine.execute]. unfold Engine.delete, Engine.with_write_lock, Engine.locked at 1, mbind at 1, ST_bind at 1.
    simpl. by rewrite Hp.
  - done.
  - unfold Engine.flush, Engine.with_write_lock, Engine.locked, mbind, ST_bind. cbn [fst].
    destruct (Engine.write_poisoned e) eqn:Hp; [done|].
    rewrite (alone_build 3). unfold mbind, ST_bind.
    by destruct (Engine.flush_internal _) as [[[]|er| |] [e2 w2]].
Qed.
End Alone.

Lemma follow_cases {A} s (m : ST (Engine.t * World) A) f leave Q E p' s' :
  wp m (eng s, wld s) Q E -> follow s m f leave = (p', s') ->
  holder s' = holder s /\
  ((exists a, p' = f a /\ Q a (eng s', wld s') /\ (quiet (wld s) -> quiet (wld s'))) \/
   (exists k, p' = leave (Err (Io k)) /\ E (eng s', wld s') /\ ~ quiet (wld s))).
Proof.
  unfold wp, follow. destruct (m (eng s, wld s)) as [[a|er| |] [e w]]; try done.
  - intros [HQ Hq] [= <- <-]. split; [done|]. left. eauto.
  - intros ((k & ->) & HE & Hn) [= <- <-]. split; [done|]. right. eauto.
Qed.

(** ** The simulation *)

Section Simulation.
Context `{HC : Crc32} {HCok : Crc32Ok} `{HB : WalEntry.Bincode} {HBok : WalEntry.BincodeOk}.
Context `{HT : IoText}.
Context (w0 : World).

(** A result the register may give; an error needs a fault. *)
Definition result_ok (r : outcome (option bytes)) (l : list (option bytes)) : Prop :=
  match r with
  | Ok v => v ∈ l
  | Err er => (exists k, er = Io k) /\ ~ quiet w0
  | Panic | OutOfFuel => False
  end.

(** What a thread at [p] relies on, with [x] its state in the register.  A read
    past the memtable can still answer what the tables hold and what the map
    holds; a flush past [Build] holds a table of the memtable. *)
Definition thread_ok (e : Engine.t) (w : World) (kv : gmap bytes bytes) (ts : tables)
    (p : pc) (x : call * list (option bytes)) : Prop :=
  match p with
  | Ready c => x.1 = c /\ match writes c with Some _ => x.2 = [] | None => answer c kv ∈ x.2 end
  | Tables k => x.1 = Exec (Command.Get k) /\ kv !! k ∈ x.2 /\ lookup_tables k ts ∈ x.2
  | Append op => writes x.1 = Some op /\ x.2 = []
  | Apply op => writes x.1 = Some op /\ x.2 = [] /\ fits e op
  | Size _ | Build | Truncate => None ∈ x.2
  | Publish r => None ∈ x.2 /\ prepared e w r
  | Clear => None ∈ x.2 /\ exists id ts', ts = (id, entries_of (MemTable.data (Engine.memtable e))) :: ts'
  | Unlock r | Done r => result_ok r x.2
  end.

(** Threads and the register's calls match, and only the holder is inside the lock. *)
Definition pool (h : option nat) (F : pc -> call * list (option bytes) -> Prop)
    (T : gmap nat pc) (P : gmap nat (call * list (option bytes))) : Prop :=
  forall i, match T !! i, P !! i with
            | Some p, Some x => F p x /\ (critical p = true -> h = Some i)
            | None, None => True
            | _, _ => False
            end.

Definition inv (s : Workers.t) (r : Register.t) : Prop :=
  let e := eng (sh s) in let w := wld (sh s) in
  exists ts, engine_ok e w ts (Register.map r) /\ (quiet w0 -> quiet w) /\
    pool (holder (sh s)) (thread_ok e w (Register.map r) ts) (threads s) (Register.pending r).

Lemma pool_lookup h F T P i p :
  pool h F T P -> T !! i = Some p ->
  exists x, P !! i = Some x /\ F p x /\ (critical p = true -> h = Some i).
Proof. intros H E. specialize (H i). rewrite E in H. destruct (P !! i); [eauto|done]. Qed.

(** Thread [i] moves to [p'], and the others still have what they rely on. *)
Lemma pool_step g h h' F F' T P P' i p' x' :
  pool h F T P -> P' !! i = Some x' -> (forall j, j <> i -> P' !! j = g <$> P !! j) ->
  F' p' x' -> (critical p' = true -> h' = Some i) ->
  (forall j p x, j <> i -> T !! j = Some p -> F p x -> (critical p = true -> h = Some j) ->
     F' p (g x) /\ (critical p = true -> h' = Some j)) ->
  pool h' F' (<[i := p']> T) P'.
Proof.
  intros H Hi Hg HF Hc Hothers j. destruct (decide (j = i)) as [->|Hne].
  - by rewrite lookup_insert_eq, Hi.
  - rewrite lookup_insert_ne, Hg by done. specialize (H j).
    destruct (T !! j) as [p|] eqn:E, (P !! j) as [x|]; simpl; try done. destruct H. by eapply Hothers.
Qed.

(** What the threads outside the lock rely on survives every action inside it. *)
Lemma waiting_any e w e' w' kv ts p x :
  critical p = false -> thread_ok e w kv ts p x -> thread_ok e' w' kv ts p x.
Proof. by destruct p. Qed.

Lemma waiting_apply e w e' w' kv ts p x op :
  critical p = false -> thread_ok e w kv ts p x ->
  thread_ok e' w' (kv_apply op kv) ts p (Register.see (kv_apply op kv) x).
Proof.
  intros Hc. destruct x as [c l]. unfold Register.see. destruct p as [c'|k| | | | | | | | |r]; try done; simpl.
  - intros [-> H]. destruct (writes c') eqn:E; simpl; rewrite ?E in *; (split; [done|]); set_solver.
  - intros (-> & H1 & H2). simpl. set_solver.
  - unfold result_ok. destruct (writes c), r; simpl; try done. set_solver.
Qed.

Lemma waiting_publish e w e' w' kv ts id p x :
  critical p = false -> engine_ok e w ts kv -> thread_ok e w kv ts p x ->
  thread_ok e' w' kv ((id, entries_of (MemTable.data (Engine.memtable e))) :: ts) p x.
Proof.
  intros Hc Hok. destruct p as [c'|k| | | | | | | | |r]; try done.
  cbn [thread_ok]. intros (-> & H1 & H2). split_and!; try done.
  by rewrite lookup_flushed, (ok_view _ _ _ _ Hok).
Qed.

(** A lookup in the tables moves cursors only. *)
Lemma prepared_same e w r w' st ts ts' kv kv' :
  engine_ok e w ts kv -> engine_ok (Engine.set_storage st e) w' ts' kv' -> same_files w w' ->
  StorageManager.next_sstable_id st = StorageManager.next_sstable_id (Engine.storage e) ->
  prepared e w r -> prepared (Engine.set_storage st e) w' r.
Proof.
  intros Hok Hok' Hw Hn (id & [H1 H2] & Hid). exists id. simpl. rewrite Hn.
  destruct (ok_dirs _ _ _ _ Hok) as [Hd _], (ok_dirs _ _ _ _ Hok') as [Hd' _]. simpl in Hd'.
  rewrite Hd', <- Hd. split; [|done]. split; [done|]. by eapply reader_ok_same.
Qed.

Lemma thread_lookup e w w' st ts kv p x :
  engine_ok e w ts kv -> engine_ok (Engine.set_storage st e) w' ts kv -> same_files w w' ->
  StorageManager.next_sstable_id st = StorageManager.next_sstable_id (Engine.storage e) ->
  thread_ok e w kv ts p x -> thread_ok (Engine.set_storage st e) w' kv ts p x.
Proof.
  intros Hok Hok' Hw Hn. destruct p; try done. intros [H1 H2]. split; [done|]. by eapply prepared_same.
Qed.
Abbreviation reg_run := (run (Register.step (~ quiet w0))).

(** The register stays where it is: the thread keeps its possible answers. *)
Lemma inv_stay s T kv P ts ts' i x p' s' :
  pool (holder s) (thread_ok (eng s) (wld s) kv ts) T P -> P !! i = Some x ->
  engine_ok (eng s') (wld s') ts' kv -> (quiet w0 -> quiet (wld s')) ->
  thread_ok (eng s') (wld s') kv ts' p' x -> (critical p' = true -> holder s' = Some i) ->
  (forall j q y, j <> i -> thread_ok (eng s) (wld s) kv ts q y -> (critical q = true -> holder s = Some j) ->
     thread_ok (eng s') (wld s') kv ts' q y /\ (critical q = true -> holder s' = Some j)) ->
  exists r', reg_run (Register.mk kv P) [] r' /\ inv (mk s' (<[i := p']> T)) r'.
Proof.
  intros Hpool Hi Hok Hq Hth Hc Hothers. exists (Register.mk kv P). split; [constructor|].
  exists ts'. split_and!; [done..|]. simpl.
  apply (pool_step id _ _ _ _ _ _ _ _ _ _ Hpool Hi); [intros j _; by rewrite option_fmap_id|done..|].
  intros j q y Hne _. by apply Hothers.
Qed.

(** The holder of the lock acts: the others are outside. *)
Lemma inv_inside s T kv P ts ts' i x p' s' :
  pool (holder s) (thread_ok (eng s) (wld s) kv ts) T P -> P !! i = Some x ->
  holder s = Some i ->
  engine_ok (eng s') (wld s') ts' kv -> (quiet w0 -> quiet (wld s')) ->
  thread_ok (eng s') (wld s') kv ts' p' x -> (critical p' = true -> holder s' = Some i) ->
  (forall q y, critical q = false -> thread_ok (eng s) (wld s) kv ts q y ->
     thread_ok (eng s') (wld s') kv ts' q y) ->
  exists r', reg_run (Register.mk kv P) [] r' /\ inv (mk s' (<[i := p']> T)) r'.
Proof.
  intros Hpool Hi Hh Hok Hq Hth Hc Hw. eapply inv_stay; [done..|]. intros j q y Hne Hy Hcq.
  assert (critical q = false) by (destruct (critical q); [specialize (Hcq eq_refl); congruence|done]).
  split; [by apply Hw|congruence].
Qed.

(** Taking the lock: nobody was inside. *)
Lemma inv_acquire s T kv P ts i x p p' s' :
  pool (holder s) (thread_ok (eng s) (wld s) kv ts) T P -> P !! i = Some x ->
  engine_ok (eng s) (wld s) ts kv -> (quiet w0 -> quiet (wld s)) ->
  thread_ok (eng s) (wld s) kv ts p x -> acquire i s p = Some (p', s') ->
  exists r', reg_run (Register.mk kv P) [] r' /\ inv (mk s' (<[i := p']> T)) r'.
Proof.
  intros Hpool Hi Hok Hq Hth Hacq. unfold acquire in Hacq. destruct (holder s) eqn:Hh; [done|].
  destruct (ok_locks _ _ _ _ Hok) as [Hp _]. rewrite Hp in Hacq. injection Hacq as <- <-.
  rewrite <- Hh in Hpool. eapply inv_stay; [done..|]. intros j q y Hne Hy Hcq.
  rewrite Hh in Hcq. destruct (critical q) eqn:Ec; [specialize (Hcq eq_refl); done|]. split; [|done].
  by eapply waiting_any.
Qed.

(** A read past the memtable looks in the tables. *)
Lemma inv_tables s T kv P ts i x k p' s' :
  pool (holder s) (thread_ok (eng s) (wld s) kv ts) T P -> P !! i = Some x ->
  engine_ok (eng s) (wld s) ts kv -> (quiet w0 -> quiet (wld s)) ->
  lookup_tables k ts ∈ x.2 ->
  follow s (Engine.on_storage (StorageManager.get k)) (fun v => Done (Ok v)) Done = (p', s') ->
  exists r', reg_run (Register.mk kv P) [] r' /\ inv (mk s' (<[i := p']> T)) r'.
Proof.
  intros Hpool Hi Hok Hq Hin Hact.
  destruct (follow_cases _ _ _ _ _ _ _ _ (wp_lookup_step k _ _ _ _ Hok) Hact) as [Hh Hcase].
  assert (exists st, eng s' = Engine.set_storage st (eng s) /\ engine_ok (eng s') (wld s') ts kv /\
    same_files (wld s) (wld s') /\ (quiet w0 -> quiet (wld s')) /\
    StorageManager.next_sstable_id st = StorageManager.next_sstable_id (Engine.storage (eng s)) /\
    thread_ok (eng s') (wld s') kv ts p' x /\ critical p' = false) as (st & Est & Hok' & Hw & Hq' & Hn & Hth & Hc).
  { destruct Hcase as [(v & -> & (-> & H1 & H2 & st & H3 & H4) & Hqq)|(er & -> & (H1 & H2 & st & H3 & H4) & Hnq)];
      exists st; cbn [fst snd] in *; split_and!; simpl; eauto; naive_solver. }
  eapply inv_stay; [done..|congruence|]. intros j q y _ Hy Hcq. rewrite Hh, Est in *.
  split; [|done]. by eapply thread_lookup.
Qed.

(** The writer's actions, with the lock in hand. *)
Section Inside.
Context (s : shared) (T : gmap nat pc) (kv : gmap bytes bytes) (ts : tables).
Context (P : gmap nat (call * list (option bytes))) (i : nat) (x : call * list (option bytes)).
Context (Hpool : pool (holder s) (thread_ok (eng s) (wld s) kv ts) T P) (Hi : P !! i = Some x).
Context (Hok : engine_ok (eng s) (wld s) ts kv) (Hq : quiet w0 -> quiet (wld s)).
Context (Hlock : holder s = Some i).

Abbreviation simulated p' s' :=
  (exists r', reg_run (Register.mk kv P) [] r' /\ inv (mk s' (<[i := p']> T)) r').

(** An action that leaves the tables and the map alone. *)
Lemma inside_quiet {A} (m : ST (Engine.t * World) A) f p' s' :
  wp m (eng s, wld s)
    (fun a y => engine_ok y.1 y.2 ts kv /\ thread_ok y.1 y.2 kv ts (f a) x)
    (fun y => engine_ok y.1 y.2 ts kv) ->
  follow s m f Unlock = (p', s') -> simulated p' s'.
Proof.
  intros Hwp Hact. destruct (follow_cases _ _ _ _ _ _ _ _ Hwp Hact)
    as [Hh [(a & -> & [Hok' Hth] & Hqq)|(k & -> & Hok' & Hnq)]]; cbn [fst snd] in *.
  - eapply inv_inside; [done..|naive_solver|done|congruence|]. intros. by eapply waiting_any.
  - eapply inv_inside; [done..|naive_solver| |congruence|]; [simpl; naive_solver|].
    intros. by eapply waiting_any.
Qed.

(** Applying the operation is the instant of a write. *)
Lemma inside_apply op p' s' :
  thread_ok (eng s) (wld s) kv ts (Apply op) x ->
  follow s (Engine.on_memtable (write_size op)) Size Unlock = (p', s') -> simulated p' s'.
Proof.
  intros (Hc & Hl & Hfit) Hact. unfold follow, Engine.on_memtable in Hact. cbn [fst snd] in Hact.
  rewrite (surjective_pairing (write_size op _)) in Hact. injection Hact as <- <-.
  destruct x as [c l]. simpl in *. subst l.
  set (kv' := kv_apply op kv). exists (Register.mk kv' (<[i := (c, [None])]> (Register.see kv' <$> P))).
  split; [apply (run_one _ _ None); by apply Register.r_apply|].
  exists ts. simpl. replace (write_size op _).2 with (mem_apply op (Engine.memtable (eng s))) by by destruct op.
  split_and!; [by apply ok_apply|done|].
  apply (pool_step (Register.see kv') _ _ _ _ _ _ _ _ _ (c, [None]) Hpool);
    [apply lookup_insert_eq|intros j Hne; by rewrite lookup_insert_ne, lookup_fmap|simpl; set_solver|done|].
  intros j q y Hne _ Hy Hcq. destruct (critical q) eqn:Eq; [specialize (Hcq eq_refl); congruence|].
  split; [|done]. by eapply waiting_apply.
Qed.

Lemma inside_publish rd p' s' :
  None ∈ x.2 -> prepared (eng s) (wld s) rd ->
  follow s (Engine.on_storage (StorageManager.publish rd)) (fun _ => Clear) Unlock = (p', s') ->
  simulated p' s'.
Proof.
  intros Hl Hr Hact. destruct (ok_publish _ _ _ _ _ Hok Hr) as [id Hok'].
  unfold follow in Hact. simpl in Hact. injection Hact as <- <-.
  eapply inv_inside; [done..|exact Hok'|done|simpl; eauto|done|]. intros q y Hcq Hy.
  by eapply waiting_publish.
Qed.

Lemma inside_clear p' s' :
  thread_ok (eng s) (wld s) kv ts Clear x ->
  follow s (Engine.on_memtable (fun m => (tt, MemTable.clear m))) (fun _ => Truncate) Unlock = (p', s') ->
  simulated p' s'.
Proof.
  intros (Hl & id & ts' & ->) Hact. unfold follow in Hact. simpl in Hact. injection Hact as <- <-.
  eapply inv_inside; [done..|by apply ok_clear|done|done|done|]. intros. by eapply waiting_any.
Qed.
End Inside.

(** One action of a thread, in the register. *)
Lemma act_simulated now i p s T r p' s' :
  inv (mk s T) r -> T !! i = Some p -> room now p s -> act now i p s = Some (p', s') ->
  exists r', reg_run r [] r' /\ inv (mk s' (<[i := p']> T)) r'.
Proof.
  destruct r as [kv P]. intros (ts & Hok & Hq & Hpool) Hp Hroom Hact. simpl in *.
  destruct (pool_lookup _ _ _ _ _ _ Hpool Hp) as (x & Hi & Hth & Hlock).
  destruct p as [c|k|op|op|n| |rd| | |res|res]; try done; cbn [critical] in Hlock; cbn [thread_ok] in Hth;
    cbn [act] in Hact; try specialize (Hlock eq_refl).
  - destruct Hth as [<- Hx]. destruct x as [c l]. simpl in Hx. destruct c as [[k|k v|k|]|]; simpl in Hact, Hx.
    + injection Hact as <- <-. pose proof (ok_view _ _ _ _ Hok k) as Hk. unfold view in Hk.
      eapply inv_stay; [done..| |by destruct (MemTable.get k _) as [[]|]|done].
      destruct (MemTable.get k _) as [[]|]; simpl in *; rewrite ?Hk; done.
    + eapply inv_acquire; [done..| |done]. done.
    + eapply inv_acquire; [done..| |done]. done.
    + injection Hact as <- <-. by eapply inv_stay.
    + eapply inv_acquire; [done..| |done]. done.
  - apply (inj Some) in Hact. destruct Hth as (_ & _ & Hth). by eapply inv_tables.
  - apply (inj Some) in Hact. destruct Hroom. eapply inside_quiet; [done..| |done].
    eapply wp_conseq; [by apply wp_append_step| |naive_solver].
    intros a y (H1 & wr & H2). split; [done|]. rewrite H2. naive_solver.
  - apply (inj Some) in Hact. by eapply inside_apply.
  - injection Hact as <- <-. eapply inv_inside; [done..| |by case_match|done]. by case_match.
  - cbn [act] in Hact. destruct (MemTable.is_empty _); apply (inj Some) in Hact; [simplify_eq|].
    + by eapply inv_inside.
    + eapply inside_quiet; [done..| |done]. eapply wp_conseq; [by apply wp_prepare_step|naive_solver..].
  - apply (inj Some) in Hact. destruct Hth. by eapply inside_publish.
  - apply (inj Some) in Hact. by eapply inside_clear.
  - apply (inj Some) in Hact. eapply inside_quiet; [done..| |done].
    eapply wp_conseq; [by apply wp_truncate_step|naive_solver..].
  - injection Hact as <- <-. assert (release res s = mkShared (eng s) (wld s) None) as -> by by destruct res.
    eapply inv_inside; [done..|]. intros. by eapply waiting_any.
Qed.

(** Every step of the threads is a step of the register, or none. *)
Lemma step_simulated s r l s' :
  inv s r -> step room s l s' -> exists r', reg_run r (option_list l) r' /\ inv s' r'.
Proof.
  intros Hinv Hstep. destruct Hstep as [i c s T HT0|now i p s T p' s' Hp Hroom Hact|i res s T Hp].
  - destruct r as [kv P], Hinv as (ts & Hok & Hq & Hpool). simpl in *.
    assert (HP : P !! i = None) by (specialize (Hpool i); rewrite HT0 in Hpool; by destruct (P !! i)).
    exists (Register.mk kv (<[i := (c, Register.start c kv)]> P)).
    split; [apply (run_one _ _ (Some _)); by constructor|]. exists ts. split_and!; [done..|]. simpl.
    apply (pool_step id _ _ _ _ _ _ _ _ _ _ Hpool (lookup_insert_eq _ _ _)); [| |done|done].
    + intros j Hne. by rewrite lookup_insert_ne, option_fmap_id.
    + split; [done|]. unfold Register.start. simpl. destruct (writes c); [done|]. set_solver.
  - by eapply act_simulated.
  - destruct r as [kv P], Hinv as (ts & Hok & Hq & Hpool). simpl in *.
    destruct (pool_lookup _ _ _ _ _ _ Hpool Hp) as ([c l] & Hi & Hth & _).
    exists (Register.mk kv (base.delete i P)). split.
    + apply (run_one _ _ (Some _)). destruct res as [v|er| |]; simpl in Hth; [by eapply Register.r_ret| |done..].
      destruct Hth as [[k ->] Hn]. by eapply Register.r_err.
    + exists ts. split_and!; [done..|]. simpl. intros j. destruct (decide (j = i)) as [->|Hne].
      * by rewrite !lookup_delete_eq.
      * rewrite !lookup_delete_ne by done. apply Hpool.
Qed.
End Simulation.

(** No thread is inside a call. *)
Definition resting (e : Engine.t) (w : World) : Workers.t := mk (mkShared e w None) ∅.

Lemma workers_atomic `{HC : Crc32} {HCok : Crc32Ok} `{HB : WalEntry.Bincode} {HBok : WalEntry.BincodeOk}
    `{HT : IoText} e w ts kv tr s :
  engine_ok e w ts kv -> run (step room) (resting e w) tr s ->
  exists a ts', run (Atomic.step (~ quiet w)) (Atomic.mk kv ∅) tr a /\
    engine_ok (eng (sh s)) (wld (sh s)) ts' (Atomic.map a).
Proof.
  intros Hok Hrun.
  destruct (forward_simulation _ (Register.step (~ quiet w)) (inv w) (step_simulated w) _ _ _
    (Register.mk kv ∅) Hrun) as (r & Hr & ts' & Hok' & _).
  { exists ts. split_and!; [done..|]. intros i. simpl. by rewrite !lookup_empty. }
  destruct (Register.register_atomic _ kv tr r Hr) as (a & Ha & Hrun').
  exists a, ts'. by rewrite Ha.
Qed.

(** ** Waiting *)

Section Lock.
Context `{HC : Crc32} `{HB : WalEntry.Bincode} `{HT : IoText}.

(** [write_lock] is held exactly while its holder is inside. *)
Definition lock_ok (s : Workers.t) : Prop :=
  forall i, holder (sh s) = Some i <-> exists p, threads s !! i = Some p /\ critical p = true.

Lemma follow_holder {A} s (m : ST (Engine.t * World) A) f leave :
  holder (follow s m f leave).2 = holder s.
Proof. unfold follow. by destruct (m _) as [[a|er| |] [e w]]. Qed.

(** Actions keep the lock with the threads inside, and bring the thread closer to
    its return. *)
Lemma act_lock now i p s p' s' :
  act now i p s = Some (p', s') -> (critical p = true -> holder s = Some i) ->
  holder s' = (if critical p' then Some i else if critical p then None else holder s) /\
  (critical p = false -> critical p' = true -> holder s = None) /\ (rank p' < rank p)%nat.
Proof.
  assert (Hf : forall A (m : ST (Engine.t * World) A) f leave,
    follow s m f leave = (p', s') -> holder s' = holder s /\ ((exists a, p' = f a) \/ exists r, p' = leave r)).
  { intros A m f leave H. split; [by rewrite <- (follow_holder s m f leave), H|].
    unfold follow in H. destruct (m _) as [[a|er| |] [e w]]; injection H as <- _; eauto. }
  assert (Ha : forall q, acquire i s q = Some (p', s') -> holder s = None /\
    ((p' = q /\ holder s' = Some i) \/ (exists r, p' = Done r) /\ holder s' = None)).
  { intros q. unfold acquire. destruct (holder s) eqn:Hh; [done|]. intros [= H]. split; [done|].
    destruct (Engine.write_poisoned _); injection H as <- <-; [right|left]; eauto. }
  intros H Hc. destruct p as [[[k|k v|k|]|]| | | | | | | | | |]; cbn [act] in H; try done; cbn [critical rank] in *;
    try specialize (Hc eq_refl).
  all: first [apply Ha in H as [Hn [[-> ->]|[[? ->] ->]]]
    | apply (inj Some), Hf in H as [-> [[? ->]|[? ->]]]
    | destruct (MemTable.is_empty _); apply (inj Some) in H; [simplify_eq|apply Hf in H as [-> [[? ->]|[? ->]]]]
    | simplify_eq; repeat case_match].
  all: cbn; split_and!; done || lia || congruence.
Qed.

Lemma lock_step ok s l s' : lock_ok s -> step ok s l s' -> lock_ok s'.
Proof.
  intros Hl Hs. destruct Hs as [i c s T Hi|now i p s T p' s' Hi _ Hact|i r s T Hi]; intros j; simpl in *.
  - rewrite (Hl j). simpl. destruct (decide (j = i)) as [->|Hne].
    + rewrite lookup_insert_eq, Hi. naive_solver.
    + by rewrite lookup_insert_ne.
  - destruct (act_lock _ _ _ _ _ _ Hact) as (-> & Hfree & _); [intros ?; apply Hl; eauto|].
    destruct (decide (j = i)) as [->|Hne].
    + rewrite lookup_insert_eq. split.
      * intros Hh. exists p'. split; [done|]. destruct (critical p'); [done|].
        destruct (critical p) eqn:Ec; [done|]. apply Hl in Hh as (q & Hq & Eq). simpl in Hq. congruence.
      * intros (q & [= <-] & ->). done.
    + rewrite lookup_insert_ne by done.
      assert (Hn : forall q, T !! j = Some q -> critical q = true -> holder s = Some j) by (intros; apply Hl; eauto).
      assert (Hp : critical p = true -> holder s = Some i) by (intros; apply Hl; eauto). split.
      * intros Hh. apply Hl. destruct (critical p'), (critical p); simpl in *; congruence.
      * intros (q & Hq & Eq). specialize (Hn _ Hq Eq).
        destruct (critical p'), (critical p); [| | |done]; [..|]; exfalso;
          (specialize (Hp eq_refl) || specialize (Hfree eq_refl eq_refl)); congruence.
  - rewrite (Hl j). simpl. destruct (decide (j = i)) as [->|Hne].
    + rewrite lookup_delete_eq, Hi. naive_solver.
    + by rewrite lookup_delete_ne.
Qed.

Lemma lock_run ok e w tr s : run (step ok) (mk (mkShared e w None) ∅) tr s -> lock_ok s.
Proof.
  intros Hrun. eapply run_invariant; [|done|]; [eauto using lock_step|].
  intros i. simpl. rewrite lookup_empty. naive_solver.
Qed.

(** A thread that has to wait is at the door of the lock, or has returned. *)
Lemma act_waits now i p s :
  act now i p s = None -> (exists r, p = Done r) \/ (critical p = false /\ exists j, holder s = Some j).
Proof.
  destruct p as [[[k|k v|k|]|]| | | | | | | | | |]; cbn [act critical]; try done; eauto;
    try (by destruct (MemTable.is_empty _)); unfold acquire; destruct (holder s); eauto; done.
Qed.
End Lock.
