(* ===== verification/Locks.v ===== *)
(** The locks inside the engine.  [Workers] takes what a thread does under one lock
    as one action; here the locks themselves are taken and dropped: the mutex around
    the log writer ([engine.rs]), the [parking_lot::RwLock] around the memtable's map
    ([memtable/table.rs]) and the one around the list of tables
    ([storage/manager.rs]), which a lookup takes exclusively because it moves file
    cursors.  A thread waits for a lock, works under it, and drops the guard; other
    threads move in between. *)

From Stdlib Require Import ZArith Lia String.
From stdpp Require Import base gmap list strings countable.
From S2P Require Import Prelude Errors Memtable Protocol World Config Wal Sstable Storage.
From S2P Require Import Engine EngineFacts Traces Register Workers.
Open Scope string_scope.
Open Scope list_scope.
Open Scope Z_scope.

Module Locks.
Import Workers.

(** [Engine::wal], [MemTable::data], [StorageManager::sstables]. *)
Inductive lock := Wal | Mem | Tabs.

(** [read()]; [write()] and a mutex's [lock()]. *)
Inductive mode := Shared | Exclusive.

#[export] Instance lock_eq_dec : EqDecision lock.
Proof. solve_decision. Defined.
#[export] Instance mode_eq_dec : EqDecision mode.
Proof. solve_decision. Defined.
#[export] Instance lock_countable : Countable lock.
Proof.
  refine (inj_countable' (fun l => match l with Wal => 0%nat | Mem => 1%nat | Tabs => 2%nat end)
    (fun n => match n with 0%nat => Wal | 1%nat => Mem | _ => Tabs end) _).
  by intros [].
Defined.

(** One instruction of a thread; [Act] is what [Workers] does at its program counter. *)
Inductive instr :=
| Take (l : lock) (m : mode)
| Drop (l : lock)
| Count                 (** [MemTable::entry_count], under the lock *)
| ReturnIfEmpty         (** [if self.memtable.is_empty() { return Ok(()) }] *)
| RefuseIfEmpty         (** the check of [StorageManager::flush] *)
| Iter                  (** [MemTable::iter]: a copy of the entries, under the lock *)
| Act.

#[export] Instance instr_eq_dec : EqDecision instr.
Proof. solve_decision. Defined.

(** [f] between taking and dropping a lock. *)
Definition under (l : lock) (m : mode) (f : instr) : list instr := [Take l m; f; Drop l].

(** What a thread does at a program counter.  [write_lock] is taken by [Act]. *)
Definition script (p : pc) : list instr :=
  match p with
  | Ready (Exec (Command.Get _)) => under Mem Shared Act
  | Ready _ => [Act]
  | Tables _ => under Tabs Exclusive Act
  | Append _ => under Wal Exclusive Act
  | Apply _ => under Mem Exclusive Act
  | Size _ => [Act]
  | Build =>
      under Mem Shared Count ++ [ReturnIfEmpty] ++
      under Mem Shared Count ++ [RefuseIfEmpty] ++
      under Mem Shared Iter ++ [Act]
  | Publish _ => under Tabs Exclusive Act
  | Clear => under Mem Exclusive Act
  | Truncate => under Wal Exclusive Act
  | Unlock _ => [Act]
  | Done _ => []
  end.

(** A thread: its program counter, what is left to do there ([] before the first
    instruction), and the locals of a flush: the last [is_empty], the entries copied. *)
Record thread := mkThread { at_pc : pc; todo : list instr; empty : bool; entries : MemTable.t }.

Definition enter (p : pc) : thread := mkThread p [] false MemTable.new.

Definition next (th : thread) : list instr :=
  match todo th with [] => script (at_pc th) | rest => rest end.

(** The guards that are held, by thread and lock. *)
Abbreviation guards := (gmap (nat * lock) mode).

Record t := mk { sh : shared; threads : gmap nat thread; held : guards }.

Definition compatible (m m' : mode) : bool :=
  match m, m' with Shared, Shared => true | _, _ => false end.

(** No guard on [l] that excludes [m]. *)
Definition free (l : lock) (m : mode) (G : guards) : bool :=
  bool_decide (map_Forall (fun x m' => x.2 = l -> compatible m m' = true) G).

Section Exec.
Context `{HC : Crc32} `{HB : WalEntry.Bincode} `{HT : IoText}.

(** The action at a program counter; the table of a flush is made of the copy. *)
Definition perform (now : Z) (i : nat) (th : thread) (s : shared) : option (pc * shared) :=
  match at_pc th with
  | Build => Some (follow s (Engine.on_storage (StorageManager.prepare (entries th)))
                     (fun x => Publish x.2) Unlock)
  | p => act now i p s
  end.

(** One instruction of thread [i]; [None] if it has to wait. *)
Definition exec (now : Z) (i : nat) (th : thread) (s : shared) (G : guards) :
    option (thread * shared * guards) :=
  let p := at_pc th in
  let continue rest := mkThread p rest (empty th) (entries th) in
  match next th with
  | [] => None
  | Take l m :: rest => if free l m G then Some (continue rest, s, <[(i, l) := m]> G) else None
  | Drop l :: rest => Some (continue rest, s, base.delete (i, l) G)
  | Count :: rest =>
      Some (mkThread p rest (MemTable.is_empty (Engine.memtable (eng s))) (entries th), s, G)
  | ReturnIfEmpty :: rest => Some (if empty th then enter (Unlock (Ok None)) else continue rest, s, G)
  | RefuseIfEmpty :: rest =>
      Some (if empty th then enter (Unlock (Err (Storage "Cannot flush empty MemTable")))
            else continue rest, s, G)
  | Iter :: rest => Some (mkThread p rest (empty th) (Engine.memtable (eng s)), s, G)
  | Act :: rest =>
      '(p', s') ← perform now i th s; Some (mkThread p' rest (empty th) (entries th), s', G)
  end.

(** Threads enter calls, execute instructions in any order, and return; [ok] limits
    the moves as in [Workers.step]. *)
Inductive step (ok : Z -> pc -> shared -> Prop) : t -> option label -> t -> Prop :=
| l_call i c s T G :
    T !! i = None -> step ok (mk s T G) (Some (Call i c)) (mk s (<[i := enter (Ready c)]> T) G)
| l_exec now i th s T G th' s' G' :
    T !! i = Some th -> ok now (at_pc th) s -> exec now i th s G = Some (th', s', G') ->
    step ok (mk s T G) None (mk s' (<[i := th']> T) G')
| l_ret i th r s T G :
    T !! i = Some th -> at_pc th = Done r -> todo th = [] ->
    step ok (mk s T G) (Some (Ret i r)) (mk s (base.delete i T) G).

Definition start (e : Engine.t) (w : World) : t := mk (mkShared e w None) ∅ ∅.

(** The threads of [Workers]. *)
Definition coarse (s : t) : Workers.t := Workers.mk (sh s) (at_pc <$> threads s).

(** The threads inside calls go on, and no call begins. *)
Definition proceeds (s s' : t) : Prop :=
  exists l, step (fun _ _ _ => True) s l s' /\ forall i c, l <> Some (Call i c).

(** Guards on one lock in different hands are all readers'. *)
Definition exclusive (G : guards) : Prop :=
  forall i j l m m', i <> j -> G !! (i, l) = Some m -> G !! (j, l) = Some m' -> compatible m m' = true.

(** Why thread [i] does not move: [j] is inside [write_lock], has a guard that
    excludes the one wanted, or stands before it as a writer waiting for the lock
    (which may let waiting writers go first). *)
Definition waits_for (s : t) (i j : nat) : Prop :=
  i <> j /\ exists th rest, threads s !! i = Some th /\
  ((next th = Act :: rest /\ critical (at_pc th) = false /\ holder (sh s) = Some j /\
      forall now, perform now i th (sh s) = None) \/
   exists l m, next th = Take l m :: rest /\
     ((exists m', held s !! (j, l) = Some m' /\ compatible m m' = false) \/
      m = Shared /\ exists th' rest', threads s !! j = Some th' /\ next th' = Take l Exclusive :: rest')).

(** Thread [i] can execute its next instruction, whatever the clock reads. *)
Definition can_move (s : t) (i : nat) : Prop :=
  exists th, threads s !! i = Some th /\ (forall j, ~ waits_for s i j) /\
    forall now, is_Some (exec now i th (sh s) (held s)).

End Exec.
End Locks.
