(* ===== verification/LocksFacts.v ===== *)
(** The locks of [Locks]: no two guards exclude each other, the machine does what the
    actions of [Workers] do, and its threads cannot block each other for good. *)

From Stdlib Require Import ZArith Lia String Wellfounded.
From stdpp Require Import base gmap list strings.
From S2P Require Import Prelude Errors Memtable Protocol World Config Wal Sstable Storage.
From S2P Require Import Engine EngineFacts Traces Register Workers WorkersFacts Locks.
Open Scope list_scope.
Open Scope Z_scope.

Import Workers.
Import Locks.

(** ** Scripts *)

(** [js] can be executed by a thread whose only guard is on [h]: no lock is taken
    under another, none is kept, and a call is not left with one. *)
Fixpoint disciplined (h : option lock) (js : list instr) : bool :=
  match js with
  | [] => bool_decide (h = None)
  | Take l _ :: rest => bool_decide (h = None) && disciplined (Some l) rest
  | Drop l :: rest => bool_decide (h = Some l) && disciplined None rest
  | (ReturnIfEmpty | RefuseIfEmpty) :: rest => bool_decide (h = None) && disciplined None rest
  | (Count | Iter | Act) :: rest => disciplined h rest
  end.

Lemma script_disciplined p : disciplined None (script p) = true.
Proof. by destruct p as [[[]|]| | | | | | | | | |]. Qed.

Lemma next_rest p rest b m h :
  disciplined h rest = true -> disciplined h (next (mkThread p rest b m)) = true.
Proof.
  destruct rest; simpl; [|done]. rewrite bool_decide_eq_true. intros ->. apply script_disciplined.
Qed.

(** What a thread at position [n] of a flush's script knows of the memtable. *)
Definition counted (n : nat) : bool := match n with 2 | 3 | 6 | 7 => true | _ => false end%nat.

Definition knows (n : nat) (m : MemTable.t) (th : thread) : Prop :=
  (n < 12)%nat /\ (counted n = true -> empty th = MemTable.is_empty m) /\
  ((4 <=? n)%nat = true -> MemTable.is_empty m = false) /\ ((10 <=? n)%nat = true -> entries th = m).

Lemma drop_tail {A} (l : list A) x r : forall n, drop n l = x :: r -> drop (S n) l = r.
Proof. induction l as [|y l IH]; intros [|n]; simpl; try done; [by intros [= _ ->]|apply IH]. Qed.

(** A thread is somewhere in its script, or drops a guard after its action. *)
Definition shaped (m : MemTable.t) (th : thread) : Prop :=
  (exists l, todo th = [Drop l] /\ at_pc th <> Build) \/
  (exists n, next th = drop n (script (at_pc th)) /\ (at_pc th = Build -> knows n m th)).

Lemma shaped_start m p b es : shaped m (mkThread p [] b es).
Proof.
  right. exists 0%nat. split; [done|]. intros _. unfold knows. split_and!; done || lia.
Qed.

(** The thread goes on to the next position. *)
Lemma shaped_next m p n js b es :
  drop (S n) (script p) = js -> (p = Build -> knows (S n) m (mkThread p js b es)) ->
  shaped m (mkThread p js b es).
Proof.
  intros <- Hk. right. destruct (drop (S n) (script p)) as [|x r] eqn:E.
  - exists 0%nat. split; [done|]. cbn [at_pc]. intros ->. exfalso. destruct (Hk eq_refl) as [Hn _].
    do 11 (destruct n as [|n]; [done|]). lia.
  - exists (S n). cbn [at_pc]. by rewrite E.
Qed.

(** Instructions that only a flush executes. *)
Definition flushing (x : instr) : bool :=
  match x with Count | ReturnIfEmpty | RefuseIfEmpty | Iter => true | _ => false end.

Lemma shaped_head m th x rest :
  shaped m th -> next th = x :: rest -> (flushing x = true \/ x = Act) ->
  exists n, drop n (script (at_pc th)) = x :: rest /\ (at_pc th = Build -> knows n m th).
Proof.
  intros [(l & Ht & _)|(n & Hn & Hk)] En Hx; [|exists n; by rewrite <- Hn].
  unfold next in En. rewrite Ht in En. by destruct Hx; simplify_eq.
Qed.

Lemma shaped_flush m th x rest :
  shaped m th -> next th = x :: rest -> flushing x = true ->
  at_pc th = Build /\ exists n, drop n (script Build) = x :: rest /\ knows n m th.
Proof.
  intros Hs En Hx. destruct (shaped_head _ _ _ _ Hs En (or_introl Hx)) as (n & Hn & Hk).
  assert (at_pc th = Build) as Ea.
  { destruct (at_pc th) as [[[]|]| | | | | | | | | |]; cbn [script under] in Hn; try done;
      do 3 (destruct n as [|n]; [by (cbn in Hn; simplify_eq)|]); cbn in Hn; by rewrite ?drop_nil in Hn. }
  split; [done|]. exists n. rewrite Ea in Hn. auto.
Qed.

(** After its action a thread has at most a guard to drop. *)
Lemma script_act p n rest : drop n (script p) = Act :: rest -> rest = [] \/ exists l, rest = [Drop l].
Proof.
  destruct p as [[[]|]| | | | | | | | | |]; cbn [script under app];
    repeat (destruct n as [|n]; cbn; [intros [= <-]; eauto|]); by rewrite ?drop_nil.
Qed.

(** Case analysis on the position in a flush's script. *)
Ltac locate_from k n :=
  lazymatch k with
  | O => lia
  | S ?k' => let m := fresh "n" in destruct n as [|m]; [try done|locate_from k' m]
  end.
Ltac locate n := let k := constr:(12%nat) in let k := eval compute in k in locate_from k n.

Ltac knowing := cbn in *; split_and!; try lia; naive_solver.

Section Exec.
Context `{HC : Crc32} `{HB : WalEntry.Bincode} `{HT : IoText}.

(** The actions that lead to a flush are alone in their script. *)
Lemma act_to_build now i p s s' :
  act now i p s = Some (Build, s') -> script p = [Act].
Proof.
  assert (Hf : forall A (m : ST (Engine.t * World) A) f leave,
    follow s m f leave = (Build, s') -> (exists a, f a = Build) \/ exists r, leave r = Build).
  { intros A m f leave. unfold follow. destruct (m _) as [[a|er| |] [e w]]; intros [= ? _]; eauto. }
  assert (Ha : forall op, acquire i s (Append op) = Some (Build, s') -> False).
  { intros op. unfold acquire. destruct (holder s); [done|]. by destruct (Engine.write_poisoned _). }
  intros H. destruct p as [[[k|k v|k|]|]| | | | | | | | | |]; cbn [act] in H; try done.
  all: first [by apply Ha in H | apply (inj Some), Hf in H as [[? ?]|[? ?]]; done
    | destruct (MemTable.is_empty _); apply (inj Some) in H; [done|apply Hf in H as [[? ?]|[? ?]]; done]
    | injection H as H _; by destruct (MemTable.get k _) as [[]|]].
Qed.

(** A thread outside [write_lock] leaves the memtable alone. *)
Lemma act_memtable now i p s p' s' :
  critical p = false -> act now i p s = Some (p', s') ->
  Engine.memtable (eng s') = Engine.memtable (eng s).
Proof.
  intros Hc H. destruct p as [[[k|k v|k|]|]|k| | | | | | | | |]; cbn [act] in H; try done.
  all: unfold acquire in H; try (destruct (holder s); [done|]; destruct (Engine.write_poisoned _));
    simplify_eq; try done.
  unfold follow, Engine.on_storage, zoom in *.
  destruct (StorageManager.get k _) as [[v|er| |] [st w]]; by simplify_eq.
Qed.

(** One instruction is an action of [Workers], or nothing that it sees. *)
Lemma exec_coarse now i th s G th' s' G' :
  shaped (Engine.memtable (eng s)) th -> exec now i th s G = Some (th', s', G') ->
  (at_pc th' = at_pc th /\ s' = s) \/ act now i (at_pc th) s = Some (at_pc th', s').
Proof.
  intros Hs. unfold exec.
  destruct (next th) as [|[l m|l| | | | |] rest] eqn:En; [done|..].
  - destruct (free l m G); [|done]. intros [= <- <- <-]. by left.
  - intros [= <- <- <-]. by left.
  - intros [= <- <- <-]. by left.
  - intros [= <- <- <-]. destruct (empty th) eqn:Ee; [right|by left].
    destruct (shaped_flush _ _ _ _ Hs En eq_refl) as (-> & n & Hn & Hlt & He & _). cbn [act].
    locate n. by rewrite <- He, Ee.
  - intros [= <- <- <-]. destruct (empty th) eqn:Ee; [exfalso|by left].
    destruct (shaped_flush _ _ _ _ Hs En eq_refl) as (_ & n & Hn & Hlt & He & Hf & _).
    locate n. specialize (He eq_refl). rewrite Hf in He by done. congruence.
  - intros [= <- <- <-]. by left.
  - destruct (perform now i th s) as [[p1 s1]|] eqn:Ep; [|done]. intros [= <- <- <-]. right. cbn [at_pc].
    destruct (shaped_head _ _ _ _ Hs En (or_intror eq_refl)) as (n & Hn & Hk).
    unfold perform in Ep. destruct (at_pc th) eqn:Ea; try done. rewrite <- Ep. cbn [act].
    destruct (Hk eq_refl) as (Hlt & _ & Hf & Hm). locate n. by rewrite Hf, Hm.
Qed.

(** The thread stays in its script, ... *)
Lemma exec_shaped now i th s G th' s' G' :
  shaped (Engine.memtable (eng s)) th -> exec now i th s G = Some (th', s', G') ->
  shaped (Engine.memtable (eng s')) th'.
Proof.
  intros Hs. unfold exec. destruct (next th) as [|x rest] eqn:En; [done|].
  assert (Hdrop : forall b es, x <> Act ->
    (at_pc th = Build -> forall n, drop n (script Build) = x :: rest -> knows n (Engine.memtable (eng s)) th ->
      knows (S n) (Engine.memtable (eng s)) (mkThread Build rest b es)) ->
    shaped (Engine.memtable (eng s)) (mkThread (at_pc th) rest b es)).
  { intros b es Hx Hk. destruct Hs as [(l & Ht & Hp)|(n & Hn & Hk')].
    - unfold next in En. rewrite Ht in En. injection En as <- <-. right. by exists 0%nat.
    - rewrite En in Hn. apply shaped_next with n; [by eapply drop_tail|].
      intros Ea. rewrite Ea in *. eauto. }
  unfold knows in Hdrop. destruct x as [l m|l| | | | |].
  - destruct (free l m G); [|done]. intros [= <- <- <-]. apply Hdrop; [done|].
    intros _ n Hn (? & ? & ? & ?). locate n; by knowing.
  - intros [= <- <- <-]. apply Hdrop; [done|].
    intros _ n Hn (? & ? & ? & ?). locate n; by knowing.
  - intros [= <- <- <-]. apply Hdrop; [done|].
    intros _ n Hn (? & ? & ? & ?). locate n; by knowing.
  - intros [= <- <- <-]. destruct (empty th) eqn:Ee; [apply shaped_start|]. apply Hdrop; [done|].
    intros _ n Hn (? & He & ? & ?). locate n; by knowing.
  - intros [= <- <- <-]. destruct (empty th) eqn:Ee; [apply shaped_start|]. apply Hdrop; [done|].
    intros _ n Hn (? & He & ? & ?). locate n; by knowing.
  - intros [= <- <- <-]. apply Hdrop; [done|].
    intros _ n Hn (? & ? & ? & ?). locate n; by knowing.
  - destruct (perform now i th s) as [[p' s1]|] eqn:Ep; [|done]. intros [= <- <- <-].
    destruct (shaped_head _ _ _ _ Hs En (or_intror eq_refl)) as (n & Hn & Hk).
    destruct (script_act _ _ _ Hn) as [->|[l ->]]; [apply shaped_start|]. left. exists l. split; [done|].
    cbn [at_pc]. intros ->. unfold perform in Ep. destruct (at_pc th) eqn:Ea;
      try (apply act_to_build in Ep; rewrite Ep in Hn; by do 2 (destruct n as [|n]; [done|])).
    destruct (Hk eq_refl) as (? & _). locate n.
Qed.

(** ... and leaves the memtable alone outside [write_lock]. *)
Lemma exec_memtable now i th s G th' s' G' :
  shaped (Engine.memtable (eng s)) th -> critical (at_pc th) = false ->
  exec now i th s G = Some (th', s', G') -> Engine.memtable (eng s') = Engine.memtable (eng s).
Proof.
  intros Hs Hc He. destruct (exec_coarse _ _ _ _ _ _ _ _ Hs He) as [[_ ->]|Ha]; [done|].
  by eapply act_memtable.
Qed.
End Exec.

(** ** Guards *)

(** The guards of a thread are those its script is about to drop. *)
Definition discipline (T : gmap nat thread) (G : guards) : Prop :=
  forall i, exists h, (forall l, is_Some (G !! (i, l)) <-> h = Some l) /\
    match T !! i with Some th => disciplined h (next th) = true | None => h = None end.

Lemma free_spec l m G :
  free l m G = true <-> forall i m', G !! (i, l) = Some m' -> compatible m m' = true.
Proof.
  unfold free. rewrite bool_decide_eq_true. split.
  - intros H i m' Hi. by apply (H _ _ Hi).
  - intros H [i l'] m' Hi Hl. simpl in Hl. subst l'. by eapply H.
Qed.

Lemma not_free l m G :
  free l m G = false -> exists j m', G !! (j, l) = Some m' /\ compatible m m' = false.
Proof.
  intros ([j l'] & m' & Hj & Hc)%bool_decide_eq_false%map_not_Forall; [|apply _]. simpl in Hc.
  destruct (decide (l' = l)) as [->|]; [|by destruct Hc]. exists j, m'. split; [done|].
  destruct (compatible m m'); [by destruct Hc|done].
Qed.

Lemma compatible_sym m m' : compatible m m' = compatible m' m.
Proof. by destruct m, m'. Qed.

Section Guards.
Context `{HC : Crc32} `{HB : WalEntry.Bincode} `{HT : IoText}.

Lemma exec_exclusive now i th s G th' s' G' :
  exclusive G -> exec now i th s G = Some (th', s', G') -> exclusive G'.
Proof.
  intros HG. unfold exec. destruct (next th) as [|[l m|l| | | | |] rest]; [done|..]; try by intros [= <- <- <-].
  - destruct (free l m G) eqn:Ef; [|done]. intros [= <- <- <-] a b l' m1 m2 Hne H1 H2.
    pose proof (proj1 (free_spec _ _ _) Ef) as Hf.
    apply lookup_insert_Some in H1 as [[? <-]|[_ H1]]; apply lookup_insert_Some in H2 as [[? <-]|[_ H2]];
      simplify_eq; eauto. rewrite compatible_sym. eauto.
  - intros [= <- <- <-] a b l' m1 m2 Hne [_ H1]%lookup_delete_Some [_ H2]%lookup_delete_Some. eauto.
  - by destruct (perform now i th s) as [[p' s1]|]; [intros [= <- <- <-]|].
Qed.

Lemma exec_discipline now i th s G th' s' G' h :
  (forall l, is_Some (G !! (i, l)) <-> h = Some l) -> disciplined h (next th) = true ->
  exec now i th s G = Some (th', s', G') ->
  (exists h', (forall l, is_Some (G' !! (i, l)) <-> h' = Some l) /\ disciplined h' (next th') = true) /\
  forall j l, j <> i -> G' !! (j, l) = G !! (j, l).
Proof.
  intros Hh. unfold exec. destruct (next th) as [|[l m|l| | | | |] rest]; cbn [disciplined]; [done|..];
    rewrite ?andb_true_iff, ?bool_decide_eq_true.
  - intros [-> Hd]. destruct (free l m G); [|done]. intros [= <- <- <-]. split.
    + exists (Some l). split; [|by apply next_rest]. intros l'. destruct (decide (l' = l)) as [->|Hne].
      * rewrite lookup_insert_eq. naive_solver.
      * rewrite lookup_insert_ne by congruence. rewrite Hh. naive_solver.
    + intros j l' Hne. by rewrite lookup_insert_ne by congruence.
  - intros [-> Hd] [= <- <- <-]. split.
    + exists None. split; [|by apply next_rest]. intros l'. destruct (decide (l' = l)) as [->|Hne].
      * rewrite lookup_delete_eq. split; [by intros []|done].
      * rewrite lookup_delete_ne by congruence. rewrite Hh. naive_solver.
    + intros j l' Hne. by rewrite lookup_delete_ne by congruence.
  - intros Hd [= <- <- <-]. split; [|done]. exists h. split; [done|]. by apply next_rest.
  - intros [-> Hd] [= <- <- <-]. split; [|done]. exists None. split; [done|].
    destruct (empty th); by apply next_rest.
  - intros [-> Hd] [= <- <- <-]. split; [|done]. exists None. split; [done|].
    destruct (empty th); by apply next_rest.
  - intros Hd [= <- <- <-]. split; [|done]. exists h. split; [done|]. by apply next_rest.
  - intros Hd. destruct (perform now i th s) as [[p' s1]|]; [|done]. intros [= <- <- <-].
    split; [|done]. exists h. split; [done|]. by apply next_rest.
Qed.

(** ** The machine of [Workers] *)

Definition locks_ok (s : t) : Prop :=
  lock_ok (coarse s) /\ discipline (threads s) (held s) /\ exclusive (held s) /\
  forall i th, threads s !! i = Some th -> shaped (Engine.memtable (eng (sh s))) th.

Lemma start_ok e w : locks_ok (start e w).
Proof.
  split_and!; cbn; [|intros i; exists None|intros ? ? ? ? ? _ H; by rewrite lookup_empty in H
    |intros ? ? H; by rewrite lookup_empty in H].
  - intros i. cbn. rewrite fmap_empty, lookup_empty. naive_solver.
  - split; [|by rewrite lookup_empty]. intros l. rewrite lookup_empty. split; [by intros []|done].
Qed.

(** An instruction of thread [i], with the others as they were. *)
Lemma exec_ok ok now i th s T G th' s' G' :
  locks_ok (mk s T G) -> T !! i = Some th -> ok now (at_pc th) s ->
  exec now i th s G = Some (th', s', G') ->
  locks_ok (mk s' (<[i := th']> T) G') /\
  (coarse (mk s' (<[i := th']> T) G') = coarse (mk s T G) \/
   Workers.step ok (coarse (mk s T G)) None (coarse (mk s' (<[i := th']> T) G'))).
Proof.
  intros (Hl & Hd & Hx & Hs) Hi Hok He. cbn in Hd, Hx, Hs.
  pose proof (Hs _ _ Hi) as Hth.
  assert (Hstep : coarse (mk s' (<[i := th']> T) G') = coarse (mk s T G) \/
    Workers.step ok (coarse (mk s T G)) None (coarse (mk s' (<[i := th']> T) G'))).
  { unfold coarse. cbn. rewrite fmap_insert. destruct (exec_coarse _ _ _ _ _ _ _ _ Hth He) as [[Ha ->]|Ha].
    - left. f_equal. rewrite Ha. apply insert_id. by rewrite lookup_fmap, Hi.
    - right. econstructor; [by rewrite lookup_fmap, Hi|done|done]. }
  split; [|done]. split_and!; cbn.
  - destruct Hstep as [->|Hw]; [done|by eapply lock_step].
  - destruct (Hd i) as (h & Hh & Hn). rewrite Hi in Hn.
    destruct (exec_discipline _ _ _ _ _ _ _ _ _ Hh Hn He) as [(h' & Hh' & Hn') Hj].
    intros j. destruct (decide (j = i)) as [->|Hne]; [exists h'; by rewrite lookup_insert_eq|].
    destruct (Hd j) as (hj & ? & ?). exists hj. rewrite lookup_insert_ne by done. split; [|done].
    intros l. by rewrite Hj.
  - by eapply exec_exclusive.
  - intros j tj Hj. destruct (decide (j = i)) as [->|Hne].
    { rewrite lookup_insert_eq in Hj. injection Hj as <-. by eapply exec_shaped. }
    rewrite lookup_insert_ne in Hj by done. destruct (critical (at_pc th)) eqn:Ec.
    + destruct (Hs _ _ Hj) as [?|(n & Hn & Hk)]; [by left|]. right. exists n. split; [done|]. intros Eb. exfalso.
      assert (holder s = Some i) by (apply (Hl i); exists (at_pc th); cbn; rewrite lookup_fmap, Hi; done).
      assert (holder s = Some j) by (apply (Hl j); exists Build; cbn; rewrite lookup_fmap, Hj; cbn; by rewrite Eb).
      congruence.
    + rewrite (exec_memtable _ _ _ _ _ _ _ _ Hth Ec He). eauto.
Qed.

Lemma locks_step ok s l s' :
  locks_ok s -> step ok s l s' ->
  locks_ok s' /\ (coarse s' = coarse s /\ l = None \/ Workers.step ok (coarse s) l (coarse s')).
Proof.
  intros Hok Hs. destruct Hs as [i c s T G Hi|now i th s T G th' s' G' Hi Hr He|i th r s T G Hi Ha Ht].
  - assert (Hw : Workers.step ok (coarse (mk s T G)) (Some (Call i c)) (coarse (mk s (<[i := enter (Ready c)]> T) G))).
    { unfold coarse. cbn. rewrite fmap_insert. constructor. by rewrite lookup_fmap, Hi. }
    destruct Hok as (Hl & Hd & Hx & Hsh). split; [|by right]. split_and!; cbn in *; [by eapply lock_step| |done|].
    + intros j. destruct (Hd j) as (h & Hh & Hn). exists h. split; [done|].
      destruct (decide (j = i)) as [->|Hne]; [|by rewrite lookup_insert_ne].
      rewrite Hi in Hn. subst h. rewrite lookup_insert_eq. apply script_disciplined.
    + intros j tj [[<- <-]|[_ Hj]]%lookup_insert_Some; [apply shaped_start|eauto].
  - destruct (exec_ok ok now i th s T G th' s' G' Hok Hi Hr He) as [? [->|?]]; auto.
  - assert (Hw : Workers.step ok (coarse (mk s T G)) (Some (Ret i r)) (coarse (mk s (base.delete i T) G))).
    { unfold coarse. cbn. rewrite fmap_delete. constructor. rewrite lookup_fmap, Hi. cbn. by rewrite Ha. }
    destruct Hok as (Hl & Hd & Hx & Hsh). split; [|by right]. split_and!; cbn in *; [by eapply lock_step| |done|].
    + intros j. destruct (Hd j) as (h & Hh & Hn). exists h. split; [done|].
      destruct (decide (j = i)) as [->|Hne]; [|by rewrite lookup_delete_ne].
      rewrite Hi in Hn. rewrite lookup_delete_eq. unfold next in Hn. rewrite Ht, Ha in Hn.
      by apply bool_decide_eq_true in Hn.
    + intros j tj [_ Hj]%lookup_delete_Some. eauto.
Qed.

(** Every run is one of [Workers], with the same calls, returns, engine and files. *)
Lemma locks_run ok e w tr s :
  run (step ok) (start e w) tr s ->
  locks_ok s /\ run (Workers.step ok) (resting e w) tr (coarse s).
Proof.
  intros Hrun. remember (start e w) as s0 eqn:E. induction Hrun as [|s tr s1 l s2 _ IH Hs]; subst.
  - split; [apply start_ok|]. unfold coarse. cbn. rewrite fmap_empty. constructor.
  - destruct (IH eq_refl) as [Hok Hw]. destruct (locks_step _ _ _ _ Hok Hs) as [Hok' [[-> ->]|Hstep]].
    + split; [done|]. by rewrite app_nil_r.
    + split; [done|]. by eapply run_snoc.
Qed.
End Guards.

(** ** Waiting *)

Section Waiting.
Context `{HC : Crc32} `{HB : WalEntry.Bincode} `{HT : IoText}.

(** An action waits for [write_lock] only. *)
Lemma perform_waits m now i th s rest :
  shaped m th -> next th = Act :: rest -> perform now i th s = None ->
  rest = [] /\ critical (at_pc th) = false /\ (exists j, holder s = Some j) /\
  forall now', perform now' i th s = None.
Proof.
  intros Hs En Hp. destruct (shaped_head _ _ _ _ Hs En (or_intror eq_refl)) as (n & Hn & _).
  unfold perform in *. destruct (at_pc th) as [[[k|k v|k|]|]| | | | | | | | | |r] eqn:Ea; cbn [act] in *;
    try done; try (by destruct (MemTable.is_empty _)); [| | |cbn in Hn; by rewrite drop_nil in Hn];
    unfold acquire in *; destruct (holder s) as [j|] eqn:Hh; try done;
    (split_and!; [|done|by exists j|done]); by (do 2 (destruct n as [|n]; [cbn in Hn; try congruence|])).
Qed.

Section State.
Context (s : t) (Hok : locks_ok s).

(** A thread that takes a lock has none. *)
Lemma take_alone i th l m rest :
  threads s !! i = Some th -> next th = Take l m :: rest -> forall l', held s !! (i, l') = None.
Proof.
  intros Hi En l'. destruct Hok as (_ & Hd & _). destruct (Hd i) as (h & Hh & Hn). rewrite Hi, En in Hn.
  apply andb_true_iff in Hn as [->%bool_decide_eq_true _].
  destruct (held s !! (i, l')) eqn:E; [|done]. by discriminate (proj1 (Hh l') (mk_is_Some _ _ E)).
Qed.

Lemma excluded_waits_for i th l m rest j m' :
  threads s !! i = Some th -> next th = Take l m :: rest -> held s !! (j, l) = Some m' ->
  compatible m m' = false -> waits_for s i j.
Proof.
  intros Hi En Hj Hc. split; [intros <-; by rewrite (take_alone i th l m rest) in Hj|].
  exists th, rest. split; [done|]. right. exists l, m. split; [done|]. left. eauto.
Qed.

(** A thread that waits for nobody moves. *)
Lemma moves_unless i th :
  threads s !! i = Some th -> next th <> [] -> (forall j, ~ waits_for s i j) -> can_move s i.
Proof.
  intros Hi Hne Hw. exists th. split_and!; [done|done|]. intros now. unfold exec.
  destruct (next th) as [|[l m|l| | | | |] rest] eqn:En; try done.
  - destruct (free l m (held s)) eqn:Ef; [done|exfalso].
    destruct (not_free _ _ _ Ef) as (j & m' & Hj & Hc). apply (Hw j). by eapply excluded_waits_for.
  - destruct (perform now i th (sh s)) as [[p' s']|] eqn:Ep; [done|exfalso].
    destruct Hok as (Hl & _ & _ & Hs).
    destruct (perform_waits _ _ _ _ _ _ (Hs _ _ Hi) En Ep) as (_ & Hc & (j & Hj) & Hall).
    apply (Hw j). split; [|exists th, rest; split; [done|by left]].
    intros <-. apply (Hl i) in Hj as (p & Hp & Ec). cbn in Hp. rewrite lookup_fmap, Hi in Hp. cbn in Hp. congruence.
Qed.

(** The owner of a guard never waits. *)
Lemma owner_moves j l m : held s !! (j, l) = Some m -> can_move s j.
Proof.
  intros Hj. destruct Hok as (_ & Hd & _ & Hs). destruct (Hd j) as (h & Hh & Hn).
  assert (h = Some l) as -> by (apply Hh; eauto). destruct (threads s !! j) as [th|] eqn:Ht; [|done].
  apply moves_unless with th; [done|by destruct (next th)|].
  intros i (_ & th' & rest & Ht' & Hw). rewrite Ht in Ht'. injection Ht' as <-.
  destruct Hw as [(En & _ & _ & Hp)|(l' & m' & En & _)]; rewrite En in Hn; [|done].
  destruct (perform_waits _ _ _ _ _ _ (Hs _ _ Ht) En (Hp 0)) as (-> & _). done.
Qed.

Abbreviation ends_moving i := (exists j, rtc (waits_for s) i j /\ can_move s j).

Lemma moving_self i : can_move s i -> ends_moving i.
Proof. intros H. exists i. by split. Qed.

Lemma moving_then i j : waits_for s i j -> ends_moving j -> ends_moving i.
Proof. intros H (k & Hk & Hm). exists k. split; [by eapply rtc_l|done]. Qed.

Lemma excluded_waits i th l m rest :
  threads s !! i = Some th -> next th = Take l m :: rest -> free l m (held s) = false -> ends_moving i.
Proof.
  intros Hi En Ef. destruct (not_free _ _ _ Ef) as (j & m' & Hj & Hc).
  apply moving_then with j; [by eapply excluded_waits_for|by eapply moving_self, owner_moves].
Qed.

Lemma free_moves i th l m rest :
  threads s !! i = Some th -> next th = Take l m :: rest -> free l m (held s) = true ->
  (m = Shared -> forall j th' rest', threads s !! j = Some th' -> next th' <> Take l Exclusive :: rest') ->
  can_move s i.
Proof.
  intros Hi En Ef Hw. apply moves_unless with th; [done|by rewrite En|].
  intros j (_ & th' & rest' & Hi' & H). rewrite Hi in Hi'. injection Hi' as <-. rewrite En in H.
  destruct H as [(? & _)|(l' & m' & [= <- <- _] & [(m2 & Hj & Hc)|(-> & tj & rj & Hj & Ej)])]; [done| |].
  - apply (proj1 (free_spec _ _ _) Ef) in Hj. congruence.
  - by eapply Hw.
Qed.

Lemma take_moves i th l m rest :
  threads s !! i = Some th -> next th = Take l m :: rest -> ends_moving i.
Proof.
  assert (HX : forall i th rest, threads s !! i = Some th -> next th = Take l Exclusive :: rest -> ends_moving i).
  { intros k tk rk Hk Ek. destruct (free l Exclusive (held s)) eqn:Ef; [|by eapply excluded_waits].
    by eapply moving_self, free_moves. }
  intros Hi En. destruct m; [|by eapply HX].
  destruct (free l Shared (held s)) eqn:Ef; [|by eapply excluded_waits].
  destruct (decide (map_Exists (fun _ th' => head (next th') = Some (Take l Exclusive)) (threads s)))
    as [(j & tj & Hj & Ej)|Hno].
  - destruct (next tj) as [|x rj] eqn:Etj; [done|]. injection Ej as ->.
    apply moving_then with j; [|by eapply HX]. split; [congruence|].
    exists th, rest. split; [done|]. right. exists l, Shared. split; [done|]. right. eauto.
  - eapply moving_self, free_moves; [done..|]. intros _ j tj rj Hj Ej. apply Hno. exists j, tj. by rewrite Ej.
Qed.

(** Whoever a thread waits for, and they in turn, somebody at the end of it moves. *)
Lemma waiting_ends i th : threads s !! i = Some th -> next th <> [] -> ends_moving i.
Proof.
  intros Hi Hne. destruct (next th) as [|x rest] eqn:En; [done|].
  assert (Hplain : forall j tj y rj, threads s !! j = Some tj -> next tj = y :: rj ->
    (forall l m, y <> Take l m) -> (y = Act -> critical (at_pc tj) = true) -> can_move s j).
  { intros j tj y rj Hj Ej Ht Ha. apply moves_unless with tj; [done|by rewrite Ej|].
    intros k (_ & th' & rest' & Hk & H). rewrite Hj in Hk. injection Hk as <-. rewrite Ej in H.
    destruct H as [([= ->] & Hc & _)|(l & m & [= ->] & _)]; [rewrite Ha in Hc; done|by destruct (Ht l m)]. }
  destruct (decide (x = Act)) as [->|Hx].
  - destruct Hok as (Hl & Hd & _ & Hs). destruct (perform 0 i th (sh s)) as [r|] eqn:Ep.
    + apply moving_self, moves_unless with th; [done|by rewrite En|].
      intros j (_ & th' & rest' & Hi' & H). rewrite Hi in Hi'. injection Hi' as <-.
      destruct H as [(_ & _ & _ & H)|(l & m & H & _)]; [specialize (H 0)|]; congruence.
    + destruct (perform_waits _ _ _ _ _ _ (Hs _ _ Hi) En Ep) as (_ & Hc & (j & Hj) & Hall).
      pose proof (proj1 (Hl j) Hj) as (p & Hp & Ec). cbn in Hp. rewrite lookup_fmap in Hp.
      apply fmap_Some in Hp as (tj & Htj & ->). apply moving_then with j.
      * split; [|exists th, rest; split; [done|by left]]. intros <-. congruence.
      * destruct (next tj) as [|y rj] eqn:Ej.
        { unfold next in Ej. destruct (todo tj); [|done]. by destruct (at_pc tj) as [[[]|]| | | | | | | | | |]. }
        destruct y; [by eapply take_moves|..]; apply moving_self; by eapply Hplain.
  - destruct x; [by eapply take_moves|..]; apply moving_self; by eapply Hplain.
Qed.
End State.
End Waiting.

(** ** Coming to an end *)

Section Ends.
Context `{HC : Crc32} `{HB : WalEntry.Bincode} `{HT : IoText}.
Open Scope nat_scope.

(** Instructions left at most after the action at [p]. *)
Definition after (p : pc) : nat :=
  match p with
  | Ready _ => 29 | Append _ => 26 | Apply _ => 23 | Size _ => 22 | Build => 10 | Publish _ => 7
  | Clear => 4 | Truncate => 1 | Unlock _ | Tables _ | Done _ => 0
  end.

Definition budget (p : pc) : nat := length (script p) + after p.

Definition cost (th : thread) : nat :=
  length (next th) + if bool_decide (Act ∈ next th) then after (at_pc th) else budget (at_pc th).

Lemma cost_start p b es : cost (mkThread p [] b es) = budget p.
Proof. unfold cost, budget. by destruct p as [[[]|]| | | | | | | | | |]. Qed.

(** An action pays for what follows it. *)
Lemma act_budget now i p s p' s' : act now i p s = Some (p', s') -> budget p' <= after p.
Proof.
  assert (Hf : forall A (m : ST (Engine.t * World) A) f leave,
    follow s m f leave = (p', s') -> (exists a, p' = f a) \/ exists r, p' = leave r).
  { intros A m f leave H. unfold follow in H. destruct (m _) as [[a|er| |] [e w]]; injection H as <- _; eauto. }
  assert (Ha : forall q, acquire i s q = Some (p', s') -> p' = q \/ exists r, p' = Done r).
  { intros q. unfold acquire. destruct (holder s); [done|]. intros [= H].
    destruct (Engine.write_poisoned _); injection H as <- <-; eauto. }
  intros H. destruct p as [[[k|k v|k|]|]| | | | | | | | | |]; cbn [act] in H; try done.
  all: first [apply Ha in H as [->|[? ->]]
    | apply (inj Some), Hf in H as [[? ->]|[? ->]]
    | destruct (MemTable.is_empty _); apply (inj Some) in H; [simplify_eq|apply Hf in H as [[? ->]|[? ->]]]
    | simplify_eq; repeat case_match].
  all: cbn; lia.
Qed.

Lemma exec_cost now i th s G th' s' G' :
  shaped (Engine.memtable (eng s)) th -> exec now i th s G = Some (th', s', G') -> cost th' < cost th.
Proof.
  intros Hs He. unfold exec in He.
  destruct (next th) as [|x rest] eqn:En; [done|].
  assert (Hgo : forall b es, x <> Act -> cost (mkThread (at_pc th) rest b es) < cost th).
  { intros b es Hx. destruct rest as [|y rest].
    - rewrite cost_start. unfold cost. rewrite En. rewrite bool_decide_eq_false_2 by set_solver. cbn. lia.
    - unfold cost. rewrite En. cbn [next todo at_pc length].
      rewrite (bool_decide_ext (Act ∈ x :: y :: rest) (Act ∈ y :: rest)) by set_solver. lia. }
  assert (Hearly : forall r, flushing x = true -> cost (enter (Unlock r)) < cost th).
  { intros r Hx. destruct (shaped_flush _ _ _ _ Hs En Hx) as [Ea _]. unfold enter. rewrite cost_start.
    unfold cost. rewrite En, Ea. cbn. case_bool_decide; lia. }
  destruct x as [l m|l| | | | |]; try (injection He as <- _ _; by apply Hgo).
  - destruct (free l m G); [|done]. injection He as <- _ _. by apply Hgo.
  - injection He as <- _ _. destruct (empty th); [by apply Hearly|by apply Hgo].
  - injection He as <- _ _. destruct (empty th); [by apply Hearly|by apply Hgo].
  - destruct (perform now i th s) as [[p' s1]|] eqn:Ep; [|done]. injection He as <- <- <-.
    assert (Hb : budget p' <= after (at_pc th)).
    { unfold perform in Ep. destruct (at_pc th) eqn:Ea; try by eapply act_budget. injection Ep as Ep.
      unfold follow in Ep. destruct (Engine.on_storage _ _) as [[a|er| |] [e w]]; injection Ep as <- _; cbn; lia. }
    destruct (shaped_head _ _ _ _ Hs En (or_intror eq_refl)) as (n & Hn & _).
    assert (Hth : cost th = S (length rest) + after (at_pc th)).
    { unfold cost. rewrite En, bool_decide_eq_true_2 by set_solver. done. }
    destruct (script_act _ _ _ Hn) as [->|[l ->]]; rewrite Hth; [rewrite cost_start; cbn; lia|].
    unfold cost. cbn [next todo at_pc length]. rewrite bool_decide_eq_false_2 by set_solver. lia.
Qed.

Definition work (s : t) : nat := msum (fun th => S (cost th)) (threads s).

Lemma proceeds_work s s' : locks_ok s -> proceeds s s' -> locks_ok s' /\ work s' < work s.
Proof.
  intros Hok (l & Hs & Hl). split; [by eapply locks_step|]. destruct Hok as (_ & _ & _ & Hsh).
  destruct Hs as [i c s T G Hi|now i th s T G th' s' G' Hi _ He|i th r s T G Hi Ha Ht]; unfold work; cbn.
  - by destruct (Hl i c).
  - pose proof (msum_update (fun th => S (cost th)) T i th th' Hi). cbn in *.
    pose proof (exec_cost _ _ _ _ _ _ _ _ (Hsh _ _ Hi) He). lia.
  - rewrite (msum_delete (fun th => S (cost th)) T i th Hi). lia.
Qed.

(** The threads inside come to an end, whatever the order of their moves. *)
Lemma proceeds_acc s : locks_ok s -> Acc (fun y x => proceeds x y) s.
Proof.
  remember (work s) as n eqn:En. revert s En. induction n as [n IH] using lt_wf_ind. intros s -> Hok.
  constructor. intros s' Hp. destruct (proceeds_work _ _ Hok Hp) as [Hok' Hlt]. by eapply IH.
Qed.

(** They stop when the last has returned, not before. *)
Lemma stops_empty s : locks_ok s -> (forall s', ~ proceeds s s') -> threads s = ∅.
Proof.
  intros Hok Hstop. apply map_empty. intros i. destruct (threads s !! i) as [th|] eqn:Hi; [exfalso|done].
  destruct s as [sh T G]. cbn in Hi. destruct (next th) as [|x rest] eqn:En.
  - assert (exists r, at_pc th = Done r /\ todo th = []) as (r & Ha & Ht).
    { unfold next in En. destruct (todo th); [|done]. destruct (at_pc th) as [[[]|]| | | | | | | | | |]; eauto; done. }
    eapply Hstop. exists (Some (Ret i r)). split; [by eapply l_ret|done].
  - destruct (waiting_ends _ Hok i th Hi) as (j & _ & tj & Hj & _ & He); [by rewrite En|].
    destruct (He 0%Z) as [[[th' s'] G'] E]. eapply Hstop. exists None. split; [by eapply (l_exec _ 0%Z)|done].
Qed.
End Ends.
