(* ===== verification/Recovery.v ===== *)
(** Opening an engine over any log, and closing one: what is in the files is what
    the next engine serves. *)

From Stdlib Require Import ZArith Lia String Ascii.
From stdpp Require Import base gmap list strings sorting.
From S2P Require Import Prelude Fmt Errors BTreeMap Memtable Protocol World WorldFacts Config Wal.
From S2P Require Import WalFacts WalWriterFacts Sstable SstableFacts SstableReaderFacts.
From S2P Require Import Storage StorageFacts Engine EngineFacts.
Open Scope string_scope.
Open Scope list_scope.
Open Scope Z_scope.

Import Engine.

Section Recovery.
Context `{HC : Crc32} {HCok : Crc32Ok} `{HB : WalEntry.Bincode} {HBok : WalEntry.BincodeOk}.
Context `{HT : IoText} `{HSt : Status} {HStok : StatusOk}.

(** The content and the durable part of the log file, empty when it is absent. *)
Definition log_content (c : Config.t) (w : World) : bytes :=
  default [] (content <$> get_file (wal_path c) w).
Definition log_durable (c : Config.t) (w : World) : bytes :=
  default [] (durable <$> get_file (wal_path c) w).

(** The memtable the log replays to. *)
Definition recovered_mem (bs : bytes) : MemTable.t := replay (scan bs).1 MemTable.new.

Lemma replay_app a b m : replay (a ++ b) m = replay b (replay a m).
Proof. apply foldl_app. Qed.

Lemma replay_snoc es e m :
  replay (es ++ [e]) m = mem_apply (WalEntry.operation e) (replay es m).
Proof. rewrite replay_app. simpl. unfold replay_entry, mem_apply. by destruct (WalEntry.operation e). Qed.

(** The tables after recovery. *)
Definition tables_with (m : MemTable.t) (ts : tables) : tables :=
  if MemTable.is_empty m then ts else (next_id_of ts, entries_of (MemTable.data m)) :: ts.

Lemma view_tables_with m ts k :
  MemTable.inv m -> view MemTable.new (tables_with m ts) k = view m ts k.
Proof.
  intros Hm. unfold tables_with. destruct (MemTable.is_empty m) eqn:E; [|apply view_flush].
  apply MemTable.is_empty_data in E. unfold view, MemTable.get. by rewrite E.
Qed.

(** The state an engine starts from. *)
Record disk (c : Config.t) (w : World) (ts : tables) : Prop := {
  disk_tables : disk_ok (table_dir c) w ts;
  disk_dirs : no_dirs (table_dir c) w;
  disk_wal : files w !! wal_path c <> Some NDir
}.

(** What opening leaves: an empty memtable and an empty log, whose durable part
    is what it was. *)
Record fresh (c : Config.t) (e : t) (w : World) (ts : tables) (kv : gmap bytes bytes) (d : bytes) : Prop := {
  fresh_ok : engine_ok e w ts kv;
  fresh_config : config e = c;
  fresh_mem : memtable e = MemTable.new;
  fresh_log : bw_log (wal_path c) d [] (WalWriter.file (wal e)) w;
  fresh_strategy : WalWriter.sync_strategy (wal e) = Config.wal_sync_strategy c;
  fresh_count : WalWriter.uncommitted_count (wal e) = 0;
  fresh_lsn : WalWriter.current_lsn (wal e) = 1;
  fresh_disk : disk_ok (table_dir c) w ts
}.

(** Table files whose content is durable. *)
Definition durable_tables (c : Config.t) (w : World) (ts : tables) : Prop :=
  Forall (fun t => get_file (StorageManager.sstable_path_with_dir (table_dir c) t.1) w =
    Some (mkFile (sst_encode t.2) (sst_encode t.2))) ts.

Lemma durable_tables_same c w w' ts : same_files w w' -> durable_tables c w ts -> durable_tables c w' ts.
Proof.
  intros Hw H. eapply Forall_impl; [exact H|]. intros t Ht. simpl in *. by rewrite (get_file_same _ w w').
Qed.

Lemma durable_tables_wal c w w' ts :
  frame (wal_path c) w w' -> durable_tables c w ts -> durable_tables c w' ts.
Proof.
  intros Hw H. eapply Forall_impl; [exact H|]. intros t Ht. simpl in *.
  by rewrite (get_file_frame (wal_path c) _ w w') by (done || apply wal_not_table).
Qed.

Lemma durable_tables_cons c w w' ts id es :
  let p := StorageManager.sstable_path_with_dir (table_dir c) id in
  frame p w w' -> ids_below id ts -> 0 <= id < 2 ^ 64 ->
  get_file p w' = Some (mkFile (sst_encode es) (sst_encode es)) ->
  durable_tables c w ts -> durable_tables c w' ((id, es) :: ts).
Proof.
  intros p Hfr Hids Hid Hg H. constructor; [done|].
  pose proof (path_fresh (table_dir c) id ts Hids Hid) as Hne. unfold durable_tables in *.
  rewrite Forall_forall in *. intros t Ht. rewrite (get_file_frame p _ w w'); auto.
Qed.

(** The file of the next table. *)
Definition next_table (c : Config.t) (ts : tables) : path :=
  StorageManager.sstable_path_with_dir (table_dir c) (next_id_of ts).

(** Recovery of the log, flushing what it found. *)
Lemma wp_recover_wal c w ts f st w0 :
  same_files w0 w -> disk c w0 ts -> get_file (wal_path c) w0 = Some f ->
  storage_ok st w ts -> StorageManager.data_dir st = table_dir c ->
  StorageManager.next_sstable_id st = next_id_of ts -> next_id_of ts < 2 ^ 64 - 1 ->
  mem_ok (recovered_mem (content f)) ->
  let ts' := tables_with (recovered_mem (content f)) ts in
  wp (recover_wal (wal_path c) st) w
    (fun r w' => storage_ok r.1 w' ts' /\ StorageManager.data_dir r.1 = table_dir c /\
       r.2 = MemTable.new /\ disk_ok (table_dir c) w' ts' /\ get_file (wal_path c) w' = Some f /\
       (durable_tables c w ts -> durable_tables c w' ts') /\ frame (next_table c ts) w w')
    (frame (next_table c ts) w).
Proof.
  intros Hw Hd Hf Hst Hdir Hnext Hlt Hm ts'. unfold recover_wal.
  eapply wp_bind; [apply (recover_scan _ f); by rewrite (get_file_same _ w0 w)| |intros; solve_frame].
  intros r w1 (-> & Hw1). change (replay (scan (content f)).1 _) with (recovered_mem (content f)).
  cbv zeta. assert (Hw' : same_files w0 w1) by by eapply same_files_trans.
  assert (Hst1 : storage_ok st w1 ts).
  { destruct Hst as (H1 & H2 & H3 & H4). split; [by eapply tables_ok_same|]. split; [done|].
    split; [by apply (no_dirs_same _ w)|done]. }
  assert (Hd1 : disk_ok (table_dir c) w1 ts) by (eapply disk_ok_same; [done|apply Hd]).
  unfold tables_with in ts'. destruct (MemTable.is_empty (recovered_mem (content f))) eqn:Hemp; cbn [negb].
  - apply wp_ret. cbn [fst snd]. split_and!; try done.
    + apply MemTable.is_empty_data in Hemp. destruct Hm as [[_ Hsz] _].
      destruct (recovered_mem (content f)) as [dt sz]. simpl in *. by subst.
    + by rewrite (get_file_same _ w0 w1).
    + by apply durable_tables_same.
    + solve_frame.
  - unfold wp. pose proof (wp_storage_flush _ st w1 ts Hst1 ltac:(lia) Hemp (proj2 Hm)) as Hfl.
    unfold moved, mbind, ST_bind. unfold wp in Hfl.
    destruct (StorageManager.flush _ _) as [[md|er| |] [st2 w2]]; try done;
      [|destruct Hfl as (He & (_ & Hfr & _) & Hn); rewrite Hdir, Hnext in Hfr; cbn [snd] in *;
        split_and!; [done|unfold next_table; solve_frame|naive_solver]].
    destruct Hfl as [(-> & H1 & H2 & H3 & H4 & H5) Hq]. cbn [fst snd mret ST_ret] in *.
    rewrite Hnext, Hdir in *. split; [|done]. split_and!; try done.
    + eapply disk_ok_snoc; [exact Hd1| | |apply Hm|exact H2|eauto].
      * eapply next_id_bounds; exact Hd1.
      * pose proof (next_id_bounds _ _ _ Hd1). lia.
    + rewrite (get_file_frame _ _ w1 w2 H2) by (apply not_eq_sym, wal_not_table).
      by rewrite (get_file_same _ w0 w1).
    + intros Hdt. eapply durable_tables_cons; [exact H2| | |exact H3|].
      * eapply next_id_bounds; exact Hd1.
      * pose proof (next_id_bounds _ _ _ Hd1). lia.
      * by apply (durable_tables_same _ w).
    + unfold next_table. solve_frame.
Qed.

(** The last step of opening: a fresh log over what recovery left. *)
Lemma wp_open_log c w w3 ts kv m :
  same_files w w3 -> mem_ok m -> (forall k, view m ts k = kv !! k) ->
  let ts' := tables_with m ts in
  forall r w4, storage_ok r.1 w4 ts' -> StorageManager.data_dir r.1 = table_dir c ->
    r.2 = MemTable.new -> disk_ok (table_dir c) w4 ts' ->
    (exists f, get_file (wal_path c) w4 = Some f \/ files w4 !! wal_path c = None) ->
    log_durable c w4 = log_durable c w -> (durable_tables c w3 ts -> durable_tables c w4 ts') ->
    frame (next_table c ts) w3 w4 ->
  wp (wal ← WalWriter.open (wal_path c) (Config.wal_sync_strategy c);
      mret (mk c (table_dir c) wal r.2 r.1 false false)) w4
    (fun e w' => fresh c e w' ts' kv (log_durable c w) /\
       (durable_tables c w ts -> durable_tables c w' ts')) (frame (next_table c ts) w).
Proof.
  intros Hw Hm Hv ts' [st4 m4] w4 H1 H2 -> H3 [f Hf] Hdur Htab Hfr4. simpl in H1, H2.
  eapply wp_bind; [by apply (wp_wal_open _ f)| |intros; solve_frame].
  intros wr w5 (Hlog & Hlsn & Hstr & Hcnt & Hfr). apply wp_ret.
  fold (log_durable c w4) in Hlog. rewrite Hdur in Hlog. cbn [fst snd].
  split; [|intros Hdt; eapply durable_tables_wal; [exact Hfr|]; by apply Htab, (durable_tables_same c w)].
  constructor; try done; [|eapply (disk_ok_frame _ w4 w5 _ (wal_path c)); [done| |done]; apply not_eq_sym, join_dir_ne].
  constructor; simpl; try done.
  - apply mem_new_ok.
  - by eapply storage_ok_wal.
  - split; [|simpl; lia]. destruct Hlog as (cc & (Hp & Hg & _) & _).
    split_and!; [exact Hp|by eauto|apply frame_refl].
  - intros k. unfold ts'. rewrite view_tables_with by apply Hm. apply Hv.
Qed.

(** Opening: the engine serves the tables with the log replayed over them; failing,
    it changes no file but that of the table it was writing. *)
Lemma wp_engine_open c w ts kv :
  disk c w ts -> next_id_of ts < 2 ^ 64 - 1 -> mem_ok (recovered_mem (log_content c w)) ->
  (forall k, view (recovered_mem (log_content c w)) ts k = kv !! k) ->
  let ts' := tables_with (recovered_mem (log_content c w)) ts in
  wp (open c) w
    (fun e w' => fresh c e w' ts' kv (log_durable c w) /\
       (durable_tables c w ts -> durable_tables c w' ts'))
    (frame (next_table c ts) w).
Proof.
  intros Hd Hlt Hm Hv ts'. unfold open. cbv zeta.
  eapply (wp_bind _ _ _ (fun _ => same_files w) (same_files w)); [by apply wp_syscall| |intros; solve_frame].
  intros _ w1 Hw1. eapply (wp_bind _ _ _ (fun _ => same_files w1) (same_files w1)); [by apply wp_syscall| |intros; solve_frame].
  intros _ w2 Hw12. assert (Hw2 : same_files w w2) by by eapply same_files_trans. change (join_dir _ SSTABLE_DIR) with (table_dir c).
  change (Config.data_dir c, WAL_FILENAME) with (wal_path c).
  eapply wp_bind; [apply (wp_storage_open (table_dir c) w2 ts)| |intros; solve_frame].
  { eapply disk_ok_same; [done|apply Hd]. }
  { eapply no_dirs_same; [done|apply Hd]. }
  intros st w3 (Hst & Hdir & Hw3 & Hnext). apply wp_bind_gets.
  assert (Hw : same_files w w3) by (unfold same_files in *; congruence).
  assert (Hopen := wp_open_log c w w3 ts kv (recovered_mem (log_content c w)) Hw Hm Hv). fold ts' in Hopen.
  unfold exists_path, log_content, log_durable in *. rewrite status_ok.
  destruct (files w3 !! wal_path c) as [[f|]|] eqn:Hfile.
  - assert (Hf3 : get_file (wal_path c) w3 = Some f) by (unfold get_file; by rewrite Hfile).
    assert (Hf : get_file (wal_path c) w = Some f) by (by rewrite <- (get_file_same _ w w3)).
    assert (Ets : ts' = tables_with (recovered_mem (content f)) ts) by (unfold ts'; by rewrite Hf).
    rewrite Hf in *. cbn [fmap option_fmap option_map from_option] in *. unfold id in *.
    eapply wp_bind; [by apply (wp_recover_wal c w3 ts f st w)| |intros; solve_frame].
    intros r w4 (H1 & H2 & H3 & H4 & H5 & H6 & H7). apply Hopen; rewrite ?Ets; try done; [eauto|by rewrite H5].
  - destruct Hd as [_ _ Hd]. unfold same_files in Hw. by rewrite <- Hw, Hfile in Hd.
  - assert (Hf : get_file (wal_path c) w = None).
    { rewrite <- (get_file_same _ w w3) by done. unfold get_file. by rewrite Hfile. }
    assert (Ets : ts' = ts) by (unfold ts'; by rewrite Hf).
    eapply wp_bind; [apply (wp_ret _ _ (fun r w' => r = (st, MemTable.new) /\ w' = w3) (same_files w3)); done| |intros; solve_frame].
    intros r w4 (-> & ->). apply Hopen; simpl; rewrite ?Ets; try done.
    + eapply disk_ok_same; [done|apply Hd].
    + exists (mkFile [] []). by right.
    + by rewrite (get_file_same _ w w3).
Qed.

End Recovery.
