(* ===== verification/OpenAny.v ===== *)
(** Opening a directory of any content: which of its files count as tables, what
    opening each finds, and that one which cannot be read keeps the engine from
    starting. *)

From Stdlib Require Import ZArith Lia String.
From stdpp Require Import base gmap list strings sorting.
From S2P Require Import Prelude Errors BTreeMap Memtable World WorldFacts Config Wal WalFacts.
From S2P Require Import Sstable SstableFacts SstableReaderFacts Storage StorageFacts Engine EngineFacts Recovery.
Open Scope list_scope.
Open Scope Z_scope.

Section OpenAny.
Context `{HC : Crc32} {HCok : Crc32Ok} `{HB : WalEntry.Bincode} {HBok : WalEntry.BincodeOk}.
Context `{HT : IoText} `{HSt : Status} {HStok : StatusOk}.

(** A file whose length a [u64] offset into it can hold. *)
Definition small_files (w : World) : Prop :=
  forall p f, get_file p w = Some f -> len (content f) < 2 ^ 63.

Lemma small_files_check w :
  forallb (fun x : path * node => match x.2 with NFile f => len (content f) <? 2 ^ 63 | NDir => true end)
    (map_to_list (files w)) = true -> small_files w.
Proof.
  intros H p f Hf. unfold get_file in Hf. destruct (files w !! p) as [[g|]|] eqn:E; simplify_eq.
  rewrite forallb_forall in H. specialize (H (p, NFile f)). apply Z.ltb_lt, H.
  by apply list_elem_of_In, elem_of_map_to_list.
Qed.

(** The ids under which a directory's files count as tables, newest first. *)
Definition table_ids (dir : string) (w : World) : list Z :=
  StorageManager.newest_first (StorageManager.discover (listing dir w)).

(** What opening the table [id] finds: by the file of its own name, whatever file
    the id was found by. *)
Definition table_read (dir : string) (w : World) (id : Z) : outcome (BTreeMap.t Z * Z * Z) :=
  match files w !! StorageManager.sstable_path_with_dir dir id with
  | Some (NFile f) => inspect (content f)
  | Some NDir => Err (Io OtherKind)
  | None => Err (Io NotFoundKind)
  end.

(** The tables in order, up to the first that cannot be read. *)
Fixpoint tables_read (dir : string) (w : World) (ids : list Z) : outcome (list (BTreeMap.t Z * Z * Z)) :=
  match ids with
  | [] => mret []
  | id :: ids' => x ← table_read dir w id; xs ← tables_read dir w ids'; mret (x :: xs)
  end.

Lemma table_read_fuel dir w id : table_read dir w id <> OutOfFuel.
Proof. unfold table_read. destruct (files w !! _) as [[f|]|]; [apply inspect_fuel|done..]. Qed.

Lemma tables_read_fuel dir w ids : tables_read dir w ids <> OutOfFuel.
Proof.
  induction ids as [|id ids IH]; [done|]. simpl. pose proof (table_read_fuel dir w id).
  destruct (table_read dir w id) as [x| | |]; try done. simpl. by destruct (tables_read dir w ids).
Qed.

Lemma tables_read_ok dir w ids xs id :
  tables_read dir w ids = Ok xs -> id ∈ ids -> exists x, table_read dir w id = Ok x.
Proof.
  revert xs. induction ids as [|i ids IH]; intros xs; [intros _ ?%not_elem_of_nil; done|]. simpl.
  destruct (table_read dir w i) as [x| | |] eqn:E; try done. simpl.
  destruct (tables_read dir w ids) as [ys| | |] eqn:E'; try done. simpl. intros _ [->|Hin]%elem_of_cons; eauto.
Qed.

Lemma tables_read_same dir w w' ids : same_files w w' -> tables_read dir w' ids = tables_read dir w ids.
Proof.
  intros Hw. induction ids as [|id ids IH]; [done|]. simpl. rewrite IH. unfold table_read. by rewrite Hw.
Qed.

(** A system call that answers [r] and does nothing, unless it fails. *)
Lemma wpr_syscall_answers {A} (act : ST World A) r w :
  (forall w1, same_files w w1 -> act w1 = (r, w1)) ->
  wpr (syscall act) w (fun r' w' => r' = r /\ same_files w w') (same_files w).
Proof.
  intros Hact. apply wpr_syscall; [|done]. intros w1 Hw. by rewrite Hact.
Qed.

(** Where there is no file. *)
Lemma wpr_open_missing p e w :
  match files w !! p with Some (NFile _) => False | Some NDir => e = Io OtherKind | None => e = Io NotFoundKind end ->
  wpr (SSTableReader.open p) w (fun r w' => r = Err e /\ same_files w w') (same_files w).
Proof.
  intros He. unfold SSTableReader.open. eapply wpr_bind; [apply (wpr_syscall_answers _ (Err e))| |done].
  - intros w1 Hw. rewrite Hw. by destruct (files w !! p) as [[f|]|]; subst.
  - by intros r w1 [-> Hw].
Qed.

Lemma wpr_open_table dir id w :
  small_files w ->
  wpr (SSTableReader.open (StorageManager.sstable_path_with_dir dir id)) w
    (fun r w' => (x ← r; mret (fields x)) = table_read dir w id /\ same_files w w') (same_files w).
Proof.
  intros Hsm. unfold table_read. set (p := StorageManager.sstable_path_with_dir dir id).
  destruct (files w !! p) as [[f|]|] eqn:E.
  - assert (Hf : get_file p w = Some f) by (unfold get_file; by rewrite E). apply wpr_open_any; eauto.
  - eapply wpr_conseq; [by apply (wpr_open_missing p (Io OtherKind)); rewrite E| |done]. by intros r w' [-> ?].
  - eapply wpr_conseq; [by apply (wpr_open_missing p (Io NotFoundKind)); rewrite E| |done]. by intros r w' [-> ?].
Qed.

Lemma small_files_same w w' : small_files w -> same_files w w' -> small_files w'.
Proof. intros Hs Hw p f. rewrite (get_file_same p w w') by done. apply Hs. Qed.

Lemma wpr_open_all dir ids : forall w,
  small_files w ->
  wpr (StorageManager.open_all dir ids) w
    (fun r w' => (rs ← r; mret (map fields rs)) = tables_read dir w ids /\ same_files w w') (same_files w).
Proof.
  induction ids as [|id ids IH]; intros w Hsm; [by apply wpr_ret|]. cbn [StorageManager.open_all tables_read].
  eapply wpr_bind; [by apply wpr_open_table| |done]. intros r w1 [Hr Hw1]. rewrite <- Hr.
  destruct r as [x|er| |]; try done. eapply wpr_bind; [by apply IH, (small_files_same w)| |].
  2: { intros w2 Hw2. by eapply same_files_trans. }
  intros r w2 [Hr2 Hw2]. rewrite (tables_read_same dir w w1 ids Hw1) in Hr2. rewrite <- Hr2.
  destruct r as [xs|er| |]; [apply wpr_ret|..]; (split; [done|by eapply same_files_trans]).
Qed.

(** What [open] makes of the ids. *)
Definition next_after (ids : list Z) : Z := match ids with id :: _ => as_u64 (id + 1) | [] => 1 end.

Lemma wpr_storage_open dir w :
  small_files w ->
  wpr (StorageManager.open dir) w
    (fun r w' =>
       (st ← r; mret (StorageManager.data_dir st, map fields (StorageManager.sstables st),
                      StorageManager.next_sstable_id st)) =
       (xs ← tables_read dir w (table_ids dir w); mret (dir, xs, next_after (table_ids dir w))) /\
       same_files w w') (same_files w).
Proof.
  intros Hsm. unfold StorageManager.open.
  eapply (wpr_bind_wp _ _ _ (fun _ => same_files w) (same_files w)); [by apply wp_syscall| |done].
  intros _ w1 Hw1. eapply wpr_bind_wp; [apply wp_read_dir| |].
  2: { intros w2 Hw2. by eapply same_files_trans. }
  intros es w2 (-> & Hw2). cbv zeta. assert (Hw : same_files w w2) by by eapply same_files_trans.
  replace (listing dir w1) with (listing dir w) by (unfold listing; by rewrite Hw1).
  fold (table_ids dir w). eapply wpr_bind; [by apply wpr_open_all, (small_files_same w)| |].
  2: { intros w3 Hw3. by eapply same_files_trans. }
  intros r w3 [Hr Hw3]. rewrite (tables_read_same dir w w2 _ Hw) in Hr. rewrite <- Hr.
  destruct r as [xs|er| |]; [apply wpr_ret|..]; (split; [done|by eapply same_files_trans]).
Qed.

(** A file named like a table counts as one. *)
Lemma named_table dir w name f id :
  files w !! (dir, name) = Some (NFile f) -> StorageManager.parse_sstable_id name = Some id ->
  id ∈ table_ids dir w.
Proof.
  intros Hf Hp. unfold table_ids, StorageManager.newest_first. rewrite elem_of_reverse, merge_sort_Permutation.
  apply elem_of_discover. eauto.
Qed.

(** The engine does not start over a table it cannot read. *)
Lemma open_refused c w id :
  small_files w -> id ∈ table_ids (table_dir c) w -> (forall x, table_read (table_dir c) w id <> Ok x) ->
  (forall e, (Engine.open c w).1 <> Ok e) /\ same_files w (Engine.open c w).2.
Proof.
  intros Hsm Hin Hbad.
  assert (H : wpr (Engine.open c) w (fun r w' => (forall e, r <> Ok e) /\ same_files w w') (same_files w)).
  { unfold Engine.open. cbv zeta.
    eapply (wpr_bind_wp _ _ _ (fun _ => same_files w) (same_files w)); [by apply wp_syscall| |done].
    intros _ w1 Hw1. eapply (wpr_bind_wp _ _ _ (fun _ => same_files w1) (same_files w1)); [by apply wp_syscall| |].
    2: { intros w2 Hw2. by eapply same_files_trans. }
    intros _ w2 Hw2. assert (Hw : same_files w w2) by by eapply same_files_trans.
    change (join_dir _ Engine.SSTABLE_DIR) with (table_dir c).
    eapply wpr_bind; [by apply wpr_storage_open, (small_files_same w)| |].
    2: { intros w3 Hw3. by eapply same_files_trans. }
    intros r w3 [Hr Hw3]. rewrite (tables_read_same _ w w2 _ Hw) in Hr.
    replace (table_ids (table_dir c) w2) with (table_ids (table_dir c) w) in Hr
      by (unfold table_ids, listing; by rewrite Hw).
    assert (Hn : forall xs, tables_read (table_dir c) w (table_ids (table_dir c) w) <> Ok xs).
    { intros xs Hx. destruct (tables_read_ok _ _ _ _ _ Hx Hin) as [x ?]. by destruct (Hbad x). }
    destruct r as [st|er| |]; [|split; [done|by eapply same_files_trans]..].
    destruct (tables_read _ _ _) as [xs| | |]; [by destruct (Hn xs)|done..]. }
  unfold wpr in H. destruct (Engine.open c w) as [r w']. cbn [fst snd].
  destruct H as [[[H1 H2] _]|([k ->] & H2 & _)]; done.
Qed.
End OpenAny.
