(* ===== verification/Durability.v ===== *)
(** Durability: an engine whose log records every write of its memtable, what a
    crash may leave of its files, and what the next engine recovers. *)

From Stdlib Require Import ZArith Lia String Ascii.
From stdpp Require Import base gmap list strings sorting.
From S2P Require Import Prelude Fmt Errors BTreeMap Memtable Protocol World WorldFacts Config Wal.
From S2P Require Import WalFacts WalWriterFacts Sstable SstableFacts SstableReaderFacts.
From S2P Require Import Storage StorageFacts Engine EngineFacts WorkersFacts Recovery.
Open Scope list_scope.
Open Scope Z_scope.

Import Engine.

Section Durability.
Context `{HC : Crc32} {HCok : Crc32Ok} `{HB : WalEntry.Bincode} {HBok : WalEntry.BincodeOk}.
Context `{HT : IoText}.

(** The log holds the entries [es], which are the writes of the memtable; [d] is
    durable.  The table files are the tables, all durable. *)
Record logged (e : t) (w : World) (ts : tables) (kv : gmap bytes bytes) (d : bytes)
    (es : list WalEntry.t) : Prop := {
  lg_ok : engine_ok e w ts kv;
  lg_log : bw_log (wal_path (config e)) d (wal_bytes es) (WalWriter.file (wal e)) w;
  lg_fits : Forall entry_fits es;
  lg_mem : memtable e = replay es MemTable.new;
  lg_disk : disk_ok (table_dir (config e)) w ts;
  lg_tabs : durable_tables (config e) w ts;
  lg_strategy : WalWriter.sync_strategy (wal e) = Config.wal_sync_strategy (config e)
}.

Lemma fresh_logged c e w ts kv d :
  fresh c e w ts kv d -> durable_tables c w ts -> logged e w ts kv d [].
Proof. intros [H1 <- H3 H4 H5 H6 H7 H8] Ht. by constructor. Qed.

(** What the directory and the log writer hold, whatever the engine has in memory. *)
Record recorded (c : Config.t) (wr : WalWriter.t) (w : World) (ts : tables) (d : bytes)
    (es : list WalEntry.t) : Prop := {
  rc_log : bw_log (wal_path c) d (wal_bytes es) (WalWriter.file wr) w;
  rc_fits : Forall entry_fits es;
  rc_disk : disk_ok (table_dir c) w ts;
  rc_tabs : durable_tables c w ts;
  rc_strategy : WalWriter.sync_strategy wr = Config.wal_sync_strategy c
}.

Lemma logged_recorded e w ts kv d es :
  logged e w ts kv d es <->
  engine_ok e w ts kv /\ recorded (config e) (wal e) w ts d es /\ memtable e = replay es MemTable.new.
Proof. split; [by intros []|by intros (? & [] & ?)]. Qed.

(** Reads leave the record alone, and so does building a table but for the table. *)
Lemma recorded_same c wr w w' ts d es :
  recorded c wr w ts d es -> same_files w w' -> recorded c wr w' ts d es.
Proof.
  intros [(x & (Hp & Hf & Hpos) & Hc) H2 H3 H4 H5] Hw.
  constructor; [|done|by eapply disk_ok_same|by eapply durable_tables_same|done].
  exists x. split; [|done]. split_and!; [done| |done]. by rewrite (get_file_same _ w w').
Qed.

Lemma recorded_table c wr w w' ts d es id tb :
  let p := StorageManager.sstable_path_with_dir (table_dir c) id in
  recorded c wr w ts d es -> ids_below id ts -> 0 <= id < 2 ^ 64 - 1 -> sst_ok tb -> frame p w w' ->
  get_file p w' = Some (mkFile (sst_encode tb) (sst_encode tb)) ->
  recorded c wr w' ((id, tb) :: ts) d es.
Proof.
  intros p [(x & (Hp & Hf & Hpos) & Hc) H2 H3 H4 H5] Hb Hid Hok Hfr Hg. constructor; [|done|..|done].
  - exists x. split; [|done]. split_and!; [done| |done].
    rewrite (get_file_frame p _ w w'); [done..|]. apply not_eq_sym, wal_not_table.
  - eapply disk_ok_snoc; [exact H3|exact Hb|lia|exact Hok|exact Hfr|eauto].
  - eapply durable_tables_cons; [exact Hfr|exact Hb|lia|exact Hg|exact H4].
Qed.

(** Steps of the log. *)
Lemma recorded_wal c wr w ts d es wr' w' d' es' :
  recorded c wr w ts d es -> frame (wal_path c) w w' ->
  bw_log (wal_path c) d' (wal_bytes es') (WalWriter.file wr') w' -> Forall entry_fits es' ->
  WalWriter.sync_strategy wr' = WalWriter.sync_strategy wr -> recorded c wr' w' ts d' es'.
Proof.
  intros [_ _ H3 H4 H5] Hfr Hlog Hfit Hstr. constructor; [done|done|..|congruence].
  - eapply (disk_ok_frame _ w w' _ (wal_path c)); [done|apply not_eq_sym, join_dir_ne|done].
  - by eapply durable_tables_wal.
Qed.

(** ** Flushing a logged engine *)

Definition flushed_table (e : t) : Z * list entry :=
  (StorageManager.next_sstable_id (storage e), entries_of (MemTable.data (memtable e))).

(** Building the table: it is on disk, and nobody sees it. *)
Lemma wp_prepare_recorded e w ts kv d es :
  engine_ok e w ts kv -> recorded (config e) (wal e) w ts d es -> ids_left e ->
  wp (on_storage (StorageManager.prepare (memtable e))) (e, w)
    (fun x s => engine_ok s.1 s.2 ts kv /\ recorded (config e) (wal e) s.2 (flushed_table e :: ts) d es /\
       table_ok (StorageManager.data_dir (storage e)) s.2 x.2 (flushed_table e) /\
       exists st, s.1 = set_storage st e /\ StorageManager.data_dir st = StorageManager.data_dir (storage e) /\
         0 <= (flushed_table e).1 < StorageManager.next_sstable_id st)
    (fun s => frame (StorageManager.sstable_path_with_dir (table_dir (config e)) (flushed_table e).1) w s.2).
Proof.
  intros Hok Hrec Hids. pose proof Hok as [[_ Hms] Hs [Hd _] Hw _ _]. pose proof Hs as (_ & Hbelow & _ & Hnext).
  assert (Hid : 0 <= StorageManager.next_sstable_id (storage e) < 2 ^ 64 - 1) by (unfold ids_left in Hids; lia).
  apply wp_zoom; [done..|]. eapply wp_conseq; [by apply (wp_prepare (memtable e) (storage e) w ts)| |].
  2: { intros s (_ & _ & Hfr). by rewrite Hd in Hfr. }
  intros x [st w1] (_ & -> & Hr & Hst & Hfr & Hg). cbn [fst snd] in *.
  split_and!; [|rewrite Hd in Hfr, Hg; by eapply recorded_table|done|].
  - eapply ok_set_storage; [done..| |apply Hok]. eapply wal_on_frame; [done..|].
    rewrite Hd. apply not_eq_sym, wal_not_table.
  - eexists. split_and!; [done|done|simpl; lia..].
Qed.

(** Emptying the log; cut off, it is as it was, or empty. *)
Lemma wp_truncate_recorded e w ts kv d es :
  engine_ok e w ts kv -> recorded (config e) (wal e) w ts d es ->
  wp (with_wal_lock (on_wal WalWriter.truncate)) (e, w)
    (fun _ s => engine_ok s.1 s.2 ts kv /\
       exists wr, s.1 = set_wal wr e /\ recorded (config e) wr s.2 ts d [])
    (fun s => frame (wal_path (config e)) w s.2 /\
       truncate_failed (wal_path (config e)) d (wal_bytes es) (wal e) (wal s.1, s.2)).
Proof.
  intros Hok Hrec. pose proof Hok as [_ _ _ Hw [_ Hl] _]. pose proof (rc_log _ _ _ _ _ _ Hrec) as Hlog.
  apply wp_locked; [done|]. apply wp_zoom; [done..|].
  eapply wp_conseq; [apply wp_and; [apply (wp_truncate_on _ w _ Hw)|by eapply wp_truncate]|..].
  - intros _ [wr w2] (Hon & Hlog2 & Hlsn & Hst & Hcnt & Hbuf & Hfr). cbn [fst snd] in *.
    split; [by apply (ok_set_wal e w ts kv (wr, w2))|]. exists wr. split; [done|]. by eapply recorded_wal.
  - intros [wr w2] (_ & Hfail & Hfr). done.
Qed.

Lemma wp_flush_logged e w ts kv d es :
  logged e w ts kv d es -> ids_left e -> MemTable.is_empty (memtable e) = false ->
  wp flush_internal (e, w)
    (fun _ s => logged s.1 s.2 (flushed_table e :: ts) kv d [] /\ config s.1 = config e)
    (fun _ => True).
Proof.
  intros (Hok & Hrec & Hmem)%logged_recorded Hids Hne. apply (wp_eq _ _ _ _ _ (flush_internal_pieces e w)).
  rewrite Hne. eapply wp_bind; [by apply wp_prepare_recorded| |done].
  intros x [e1 w1] (Hok1 & Hrec1 & Hr & st & E1 & Hdir & Hid). cbn [fst snd] in *. subst e1.
  eapply wp_bind_step; [done|done|]. eapply wp_bind_step; [done|done|].
  destruct (flushed_table e) as [id tb] eqn:Et. injection Et as Eid <-. rewrite <- Hdir in Hr.
  pose proof (ok_clear _ _ _ _ _ (ok_published x.2 (set_storage st e) w1 ts kv id Hok1 Hr Hid)) as Hok2.
  eapply wp_conseq; [by apply (wp_truncate_recorded _ _ _ _ d es Hok2)| |done].
  intros _ [e2 w2] (Hok3 & wr & E & Hrec3). cbn [fst snd] in *. subst e2. split; [|done].
  by apply logged_recorded.
Qed.

(** ** Writing to a logged engine *)

(** The durable part after an append: the whole log, with nothing buffered, or
    under [EveryNEntries] what it was. *)
Definition synced_to (c : Config.t) (d d' log' : bytes) (wr : WalWriter.t) : Prop :=
  (d' = log' /\ BufWriter.buf (WalWriter.file wr) = []) \/
  (d' = d /\ exists n, Config.wal_sync_strategy c = EveryNEntries n).

(** The log, or the newest table, holds the writes up to the last. *)
Definition written (e : t) (ts : tables) (kv : gmap bytes bytes) (d : bytes)
    (es : list WalEntry.t) (op : Operation.t) (x : WalEntry.t) (s : t * World) : Prop :=
  exists d' wr, synced_to (config e) d d' (wal_bytes (es ++ [x])) wr /\ config s.1 = config e /\
    ((logged s.1 s.2 ts (kv_apply op kv) d' (es ++ [x]) /\ wal s.1 = wr) \/
     exists id, logged s.1 s.2 ((id, entries_of (MemTable.data (replay (es ++ [x]) MemTable.new))) :: ts)
       (kv_apply op kv) d' []).

Lemma op_size_entry wr now op : WalEntry.encoded_size (next_entry_of wr now op) = op_size op.
Proof. done. Qed.

Lemma next_entry_fits e w ts kv now op :
  engine_ok e w ts kv -> op_size op < 2 ^ 32 -> entry_fits (next_entry_of (wal e) now op).
Proof.
  intros [_ _ _ [_ Hl] _ _] Hs. by apply next_entry_of_fits.
Qed.

Lemma mem_apply_nonempty op m : MemTable.is_empty (mem_apply op m) = false.
Proof.
  assert (H : forall k x d, BTreeMap.insert k x d <> ([] : BTreeMap.t MemTableEntry)).
  { intros k x [|[k' x'] d]; simpl; [done|]. by destruct (bytes_cmp k k'). }
  apply not_true_iff_false. rewrite MemTable.is_empty_data. destruct op; apply H.
Qed.

(** The append of a write: the engine is one operation behind its log. *)
Lemma wp_append_recorded now op e w ts kv d es :
  engine_ok e w ts kv -> recorded (config e) (wal e) w ts d es -> 0 <= now -> fits e op ->
  let x := next_entry_of (wal e) now op in
  wp (with_wal_lock (on_wal (WalWriter.append now op))) (e, w)
    (fun _ s => exists wr w' d', s = (set_wal wr e, w') /\
       synced_to (config e) d d' (wal_bytes (es ++ [x])) wr /\
       engine_ok (set_wal wr e) w' ts kv /\ recorded (config e) wr w' ts d' (es ++ [x]))
    (fun s => exists wr w', s = (set_wal wr e, w') /\
       append_failed (wal_path (config e)) d (wal_bytes es) x wr w' /\
       frame (wal_path (config e)) w w').
Proof.
  intros Hok Hrec Hnow Hfit x. pose proof Hok as [_ _ _ Hw [_ Hl] _]. pose proof Hrec as [Hlog Hfits _ _ Hstr].
  pose proof (next_entry_fits e w ts kv now op Hok (proj1 Hfit)) as Hx. fold x in Hx.
  apply wp_locked; [done|]. apply wp_zoom; [done..|].
  eapply wp_conseq; [apply wp_and; [apply (wp_append_on _ w now op _ Hw Hnow); apply Hfit|
    by apply (wp_append (wal_path (config e)) d (wal_bytes es))]|..].
  - intros l [wr w1] (Hon & -> & (H1 & H2 & d' & Hlog' & Hsyn) & Hfr). cbn [fst snd] in *.
    exists wr, w1, d'. split; [done|]. fold x in Hlog', Hsyn. rewrite <- wal_bytes_snoc in Hlog', Hsyn.
    split_and!; [|by apply (ok_set_wal e w ts kv (wr, w1))|].
    + destruct Hsyn as [(-> & _ & Hbuf)|(-> & _ & n & Hn & _)]; [by left|right]. split; [done|].
      exists n. by rewrite <- Hstr.
    + eapply recorded_wal; [done..| |done]. apply Forall_app. split; [done|]. by constructor.
  - intros [wr w1] (Hon & Hfail & Hfr). cbn [fst snd] in *. exists wr, w1. done.
Qed.

Lemma wp_append_logged now op e w ts kv d es :
  logged e w ts kv d es -> 0 <= now -> fits e op ->
  let x := next_entry_of (wal e) now op in
  let e' wr := set_memtable (mem_apply op (memtable e)) (set_wal wr e) in
  wp (with_wal_lock (on_wal (WalWriter.append now op))) (e, w)
    (fun _ s => exists wr w' d', s = (set_wal wr e, w') /\
       synced_to (config e) d d' (wal_bytes (es ++ [x])) wr /\
       logged (e' wr) w' ts (kv_apply op kv) d' (es ++ [x]))
    (fun s => exists wr w', s = (set_wal wr e, w') /\
       append_failed (wal_path (config e)) d (wal_bytes es) x wr w' /\
       frame (wal_path (config e)) w w').
Proof.
  intros (Hok & Hrec & Hmem)%logged_recorded Hnow Hfit x e'.
  eapply wp_conseq; [by apply wp_append_recorded| |done].
  intros _ s (wr & w' & d' & -> & Hsyn & Hok' & Hrec'). exists wr, w', d'. split_and!; [done|done|].
  apply logged_recorded. split_and!; [by apply (ok_apply op (set_wal wr e))|done|].
  rewrite replay_snoc. by rewrite <- Hmem.
Qed.

Lemma wp_write_logged now op e w ts kv d es :
  logged e w ts kv d es -> ids_left e -> 0 <= now -> fits e op ->
  wp (write now op) (e, w)
    (fun _ s => written e ts kv d es op (next_entry_of (wal e) now op) s)
    (fun _ => True).
Proof.
  intros Hlg Hids Hnow Hfit. pose proof Hlg as [[_ _ _ _ [Hl1 _] _] _ _ Hmem _ _ _].
  rewrite write_body. apply wp_locked; [done|].
  eapply wp_bind; [by apply wp_append_logged| |done].
  intros _ s (wr & w1 & d' & -> & Hsyn & Hlg').
  eapply wp_bind_step.
  { unfold on_memtable. cbn [fst]. change (memtable (set_wal wr e)) with (memtable e).
    rewrite (surjective_pairing (write_size op (memtable e))). reflexivity. }
  { done. }
  replace (write_size op (memtable e)).2 with (mem_apply op (memtable e)) by by destruct op.
  set (e2 := set_memtable _ _) in *. unfold flush_if_full. apply wp_bind_gets. cbn [snd].
  destruct (_ <=? _).
  2: { apply wp_ret. exists d', wr. split_and!; [done|done|]. by left. }
  eapply wp_conseq; [apply (wp_flush_logged e2 w1 ts _ d' _ Hlg' Hids); apply mem_apply_nonempty| |done].
  intros _ s (Hlg2 & Hcfg). exists d', wr. split_and!; [done|by rewrite Hcfg|]. right.
  unfold flushed_table in Hlg2. rewrite (lg_mem _ _ _ _ _ _ Hlg') in Hlg2. eauto.
Qed.

(** Whether the append goes through or not, the log file does not shrink. *)
Lemma wp_append_grows now op e w ts kv d es c0 :
  logged e w ts kv d es -> 0 <= now -> fits e op ->
  let p := wal_path (config e) in
  past p c0 (BufWriter.inner (WalWriter.file (wal e))) w ->
  wp (with_wal_lock (on_wal (WalWriter.append now op))) (e, w) (fun _ _ => True)
    (fun s => past p c0 (BufWriter.inner (WalWriter.file (wal s.1))) s.2).
Proof.
  intros [Hok _ _ _ _ _ _] Hnow Hfit p Hpast. apply wp_locked; [apply Hok|]. apply wp_zoom; [done..|].
  eapply wp_conseq; [apply (wp_append_past p c0 now op); [|done|apply Hfit]|done|].
  - split; [exact Hpast|apply Hok].
  - intros [wr w1] [H _]. exact H.
Qed.

(** Reads keep the log. *)
Lemma wp_get_logged e w ts kv d es k :
  logged e w ts kv d es ->
  wp (get k) (e, w)
    (fun res s => res = kv !! k /\ logged s.1 s.2 ts kv d es /\ config s.1 = config e /\
       wal s.1 = wal e) (fun _ => True).
Proof.
  intros (Hok & Hrec & Hmem)%logged_recorded.
  eapply wp_conseq; [by apply (wp_get e w ts kv k)| |done].
  intros res [e' w'] (-> & Hok' & Hw & st' & Hst & _). cbn [fst snd] in *. subst e'. split; [done|].
  split; [|done]. apply logged_recorded. split_and!; [done|by eapply recorded_same|done].
Qed.
End Durability.
