(* ===== verification/Crash.v ===== *)
(** Crashes.  A crash keeps, of every file, the durable content or a prefix of the
    written content, one that includes the durable part when the file only grew;
    directory entries survive, and what was still in a writer's buffer is gone.  Under [WalSyncStrategy::EveryWrite] every
    acknowledged write survives; under [EveryNEntries(n)] the log loses fewer than
    [n] entries. *)

From Stdlib Require Import ZArith Lia String Ascii.
From stdpp Require Import base gmap list strings sorting.
From S2P Require Import Prelude Fmt Errors BTreeMap Memtable Protocol World WorldFacts Config Wal.
From S2P Require Import WalFacts WalWriterFacts Sstable SstableFacts SstableReaderFacts.
From S2P Require Import Storage StorageFacts Engine EngineFacts Recovery Durability.
Open Scope list_scope.
Open Scope Z_scope.

Import Engine.

Definition crash_content (f : file) (c' : bytes) : Prop :=
  c' = durable f \/
  (c' `prefix_of` content f /\ (durable f `prefix_of` content f -> durable f `prefix_of` c')).

Definition crash (w w' : World) : Prop :=
  forall p, match files w !! p with
    | Some (NFile f) => exists c', files w' !! p = Some (NFile (mkFile c' c')) /\ crash_content f c'
    | Some NDir => files w' !! p = Some NDir
    | None => files w' !! p = None
    end.

(** A crash that keeps only what is durable. *)
Definition crash_min (w : World) : World :=
  mkWorld ((fun n => match n with NFile f => NFile (mkFile (durable f) (durable f)) | NDir => NDir end)
             <$> files w) [].

Lemma crash_min_crash w : crash w (crash_min w).
Proof.
  intros p. unfold crash_min; simpl. rewrite lookup_fmap.
  destruct (files w !! p) as [[f|]|]; simpl; [|done..]. eexists. split; [done|]. by left.
Qed.

(** A crash after the system wrote everything out. *)
Definition crash_all (w : World) : World :=
  mkWorld ((fun n => match n with NFile f => NFile (mkFile (content f) (content f)) | NDir => NDir end)
             <$> files w) [].

Lemma crash_all_crash w : crash w (crash_all w).
Proof.
  intros p. unfold crash_all; simpl. rewrite lookup_fmap.
  destruct (files w !! p) as [[f|]|]; simpl; [|done..]. eexists. split; [done|]. by right.
Qed.

Lemma crash_file p f w w' :
  crash w w' -> get_file p w = Some f ->
  exists c', get_file p w' = Some (mkFile c' c') /\ crash_content f c'.
Proof.
  intros Hc Hf. specialize (Hc p). unfold get_file in *.
  destruct (files w !! p) as [[g|]|]; simplify_eq. destruct Hc as (c' & -> & ?). eauto.
Qed.

(** A fully durable file is intact. *)
Lemma crash_durable p bs w w' :
  crash w w' -> get_file p w = Some (mkFile bs bs) -> get_file p w' = Some (mkFile bs bs).
Proof.
  intros Hc Hf. destruct (crash_file _ _ _ _ Hc Hf) as (c' & Hg & [->|[H1 H2]]); [done|].
  simpl in *. by rewrite (anti_symm prefix c' bs H1 (H2 (reflexivity bs))) in Hg.
Qed.

Section Crash.
Context `{HC : Crc32} {HCok : Crc32Ok} `{HB : WalEntry.Bincode} {HBok : WalEntry.BincodeOk}.
Context `{HT : IoText} `{HSt : Status} {HStok : StatusOk}.

Lemma crash_disk c w w' ts :
  crash w w' -> disk c w ts -> durable_tables c w ts -> disk c w' ts /\ durable_tables c w' ts.
Proof.
  intros Hc [[H1 [H2 H3]] Hnd Hwal] Hdt.
  assert (Hdt' : durable_tables c w' ts).
  { eapply Forall_impl; [exact Hdt|]. intros t Ht. by eapply crash_durable. }
  split; [|done]. constructor.
  - split_and!; [|done|].
    + unfold durable_tables in Hdt'. rewrite Forall_forall in *. intros t Ht.
      destruct (H1 t Ht) as (? & ? & _). split_and!; [done|lia|lia|]. eexists. split; [by apply Hdt'|done].
    + intros name f id Hn Hp. specialize (Hc (table_dir c, name)).
      destruct (files w !! (table_dir c, name)) as [[g|]|] eqn:E; [by eapply H3|congruence|congruence].
  - intros id. specialize (Hnd id). specialize (Hc (StorageManager.sstable_path_with_dir (table_dir c) id)).
    destruct (files w !! _) as [[g|]|]; [|done|by rewrite Hc]. destruct Hc as (c' & -> & _). done.
  - specialize (Hc (wal_path c)). destruct (files w !! wal_path c) as [[g|]|]; [|done|by rewrite Hc].
    destruct Hc as (c' & -> & _). done.
Qed.

Lemma engine_disk e w ts ts' kv :
  engine_ok e w ts kv -> disk_ok (table_dir (config e)) w ts' -> disk (config e) w ts'.
Proof.
  intros [_ (_ & _ & Hnd & _) [Hd _] [(_ & [f Hf] & _) _] _ _] Hdisk. constructor; [done|by rewrite <- Hd|].
  unfold get_file in Hf. simpl in Hf. by destruct (files w !! wal_path (config e)) as [[g|]|].
Qed.

(** Steps of the log leave the directory of tables alone. *)
Lemma disk_frame_wal c w w1 ts f :
  frame (wal_path c) w w1 -> get_file (wal_path c) w1 = Some f -> disk c w ts -> disk c w1 ts.
Proof.
  intros Hfr Hf [H1 H2 _]. constructor.
  - eapply (disk_ok_frame _ w w1 _ (wal_path c)); [done|apply not_eq_sym, join_dir_ne|done].
  - by eapply no_dirs_frame.
  - unfold get_file in Hf. by destruct (files w1 !! wal_path c) as [[g|]|].
Qed.

Lemma next_id_left e w ts kv :
  engine_ok e w ts kv -> ids_left e -> next_id_of ts < 2 ^ 64 - 1.
Proof.
  intros [_ (_ & Hids & _) _ _ _ _] Hleft. unfold ids_left in Hleft.
  destruct ts as [|t ts]; simpl; [lia|]. inversion Hids; subst. simpl in *. lia.
Qed.

(** ** EveryWrite *)

(** The log [d], should it come back, changes nothing of what the tables hold. *)
Definition covers (d : bytes) (ts : tables) : Prop :=
  mem_ok (recovered_mem d) /\ forall k, view (recovered_mem d) ts k = lookup_tables k ts.

(** The durable log either holds the memtable, or was emptied after its writes
    went to the tables. *)
Definition backed (e : t) (ts : tables) (d : bytes) (es : list WalEntry.t) : Prop :=
  (d = wal_bytes es /\ BufWriter.buf (WalWriter.file (wal e)) = []) \/ (es = [] /\ covers d ts).

Definition safe (s : t * World) (kv : gmap bytes bytes) : Prop :=
  Config.wal_sync_strategy (config s.1) = EveryWrite /\
  exists ts d es, logged s.1 s.2 ts kv d es /\ backed s.1 ts d es.

Lemma recovered_mem_nil : recovered_mem [] = MemTable.new.
Proof. done. Qed.

Lemma recovered_mem_log es :
  Forall entry_fits es -> recovered_mem (wal_bytes es) = replay es MemTable.new.
Proof. intros H. unfold recovered_mem. by rewrite scan_all. Qed.

(** Replaying writes over a table that holds them changes nothing. *)
Lemma replay_over_flushed m id ts k :
  view m ((id, entries_of (MemTable.data m)) :: ts) k =
  lookup_tables k ((id, entries_of (MemTable.data m)) :: ts).
Proof. by rewrite view_over_flushed, lookup_flushed. Qed.

Lemma covers_flushed d id ts :
  mem_ok (recovered_mem d) -> covers d ((id, entries_of (MemTable.data (recovered_mem d))) :: ts).
Proof. intros H. split; [done|]. intros k. apply replay_over_flushed. Qed.

Lemma safe_write now op s s' kv :
  safe s kv -> ids_left s.1 -> 0 <= now -> fits s.1 op -> write now op s = (Ok tt, s') ->
  safe s' (kv_apply op kv) /\ config s'.1 = config s.1.
Proof.
  destruct s as [e w]. cbn [fst]. intros (Hstr & ts & d & es & Hlg & _) Hids Hnow Hfit Hrun.
  pose proof (wp_ok _ _ _ _ _ _ (wp_write_logged now op e w ts kv _ es Hlg Hids Hnow Hfit) Hrun)
    as (d' & wr & Hsyn & Hcfg & Hlg'). cbn [fst] in *. split; [|done].
  destruct Hsyn as [[-> Hbuf]|(_ & n & Hn)]; [|congruence].
  split; [congruence|]. set (x := next_entry_of (wal e) now op) in *.
  destruct Hlg' as [[Hlg' <-]|[id Hlg']].
  - exists ts, (wal_bytes (es ++ [x])), (es ++ [x]). split; [done|]. by left.
  - assert (Hfx : Forall entry_fits (es ++ [x])).
    { apply Forall_app. split; [apply Hlg|]. constructor; [|done].
      eapply next_entry_fits; [apply Hlg|apply Hfit]. }
    eexists _, _, []. split; [exact Hlg'|]. right. split; [done|].
    rewrite <- recovered_mem_log by done. apply covers_flushed. rewrite recovered_mem_log by done.
    rewrite replay_snoc, <- (lg_mem _ _ _ _ _ _ Hlg). apply mem_apply_ok; [apply Hlg|done].
Qed.

Lemma safe_get k s s' res kv :
  safe s kv -> get k s = (Ok res, s') -> safe s' kv /\ config s'.1 = config s.1.
Proof.
  destruct s as [e w]. intros (Hstr & ts & d & es & Hlg & H) Hrun.
  pose proof (wp_ok _ _ _ _ _ _ (wp_get_logged e w ts kv _ es k Hlg) Hrun) as (_ & Hlg' & Hcfg & Hwal).
  split; [|done]. split; [by rewrite Hcfg|]. exists ts, d, es. cbn [fst snd] in *.
  unfold backed in *. by rewrite Hwal.
Qed.

Lemma safe_flush s s' kv :
  safe s kv -> ids_left s.1 -> flush s = (Ok tt, s') -> safe s' kv /\ config s'.1 = config s.1.
Proof.
  destruct s as [e w]. cbn [fst]. intros (Hstr & ts & d & es & Hlg & H) Hids Hrun. cbn [fst snd] in *.
  unfold flush, with_write_lock, locked in Hrun. cbn [fst] in Hrun.
  pose proof (proj1 (ok_locks _ _ _ _ (lg_ok _ _ _ _ _ _ Hlg))) as Hl. cbn [fst] in Hl. rewrite Hl in Hrun.
  destruct (MemTable.is_empty (memtable e)) eqn:Hemp.
  - unfold flush_internal in Hrun. unfold gets, mbind, ST_bind in Hrun. cbn [fst] in Hrun.
    rewrite Hemp in Hrun. injection Hrun as <-. split; [|done]. split; [done|]. eauto 10.
  - assert (Hfl : flush_internal (e, w) = (Ok tt, s')).
    { destruct (flush_internal (e, w)) as [[[]|er| |] s1]; by simplify_eq. }
    pose proof (wp_ok _ _ _ _ _ _ (wp_flush_logged e w ts kv _ es Hlg Hids Hemp) Hfl) as [Hlg' Hcfg].
    split; [|done]. split; [by rewrite Hcfg|].
    pose proof Hlg as [Hok _ Hfit Hmem _ _ _].
    destruct H as [[-> _]|[-> _]]; [|by rewrite Hmem in Hemp].
    eexists _, _, []. split; [exact Hlg'|]. right. split; [done|]. unfold flushed_table.
    rewrite Hmem, <- recovered_mem_log by done. apply covers_flushed.
    rewrite recovered_mem_log, <- Hmem by done. apply Hok.
Qed.

(** Acknowledged operations, one after the other. *)
Inductive acked : t * World -> list Operation.t -> t * World -> Prop :=
| acked_nil s : acked s [] s
| acked_write s ops s1 now op s2 :
    acked s ops s1 -> ids_left s1.1 -> 0 <= now -> fits s1.1 op ->
    write now op s1 = (Ok tt, s2) -> acked s (ops ++ [op]) s2
| acked_get s ops s1 k res s2 :
    acked s ops s1 -> get k s1 = (Ok res, s2) -> acked s ops s2
| acked_flush s ops s1 s2 :
    acked s ops s1 -> ids_left s1.1 -> flush s1 = (Ok tt, s2) -> acked s ops s2.

Definition kv_run (ops : list Operation.t) (kv : gmap bytes bytes) : gmap bytes bytes :=
  foldl (fun m op => kv_apply op m) kv ops.

Lemma acked_safe s ops s' kv :
  acked s ops s' -> safe s kv -> safe s' (kv_run ops kv) /\ config s'.1 = config s.1.
Proof.
  intros H Hs. induction H as [s|s ops s1 now op s2 _ IH|s ops s1 k res s2 _ IH Hg|s ops s1 s2 _ IH].
  - done.
  - destruct (IH Hs) as [J1 J2]. unfold kv_run. rewrite foldl_app. rewrite <- J2. by eapply safe_write.
  - destruct (IH Hs) as [J1 J2]. rewrite <- J2. by eapply safe_get.
  - destruct (IH Hs) as [J1 J2]. rewrite <- J2. by eapply safe_flush.
Qed.

(** *** Coming back *)

(** The machine stops: it crashes, or only the process is killed and the files
    stay as they are. *)
Definition halted (w w' : World) : Prop := crash w w' \/ same_files w w'.

Lemma halted_same w w1 w2 : same_files w w1 -> halted w1 w2 -> halted w w2.
Proof.
  unfold same_files. intros Hw [Hc|Hs]; [left|right; unfold same_files in *; congruence].
  intros x. specialize (Hc x). by rewrite Hw in Hc.
Qed.

(** A directory from which the next engine serves [kv]. *)
Definition recovers (c : Config.t) (w : World) (kv : gmap bytes bytes) : Prop :=
  exists ts, disk c w ts /\ durable_tables c w ts /\ next_id_of ts < 2 ^ 64 - 1 /\
    mem_ok (recovered_mem (log_content c w)) /\
    (forall k, view (recovered_mem (log_content c w)) ts k = kv !! k) /\
    (log_durable c w = log_content c w \/ (log_content c w = [] /\ covers (log_durable c w) ts)).

Lemma disk_same c w w' ts : same_files w w' -> disk c w ts -> disk c w' ts.
Proof.
  intros Hw [H1 H2 H3]. constructor; [by eapply disk_ok_same|by eapply no_dirs_same|].
  unfold same_files in Hw. by rewrite Hw.
Qed.

(** Table files are durable: they are all there afterwards. *)
Lemma halted_disk c w w' ts :
  halted w w' -> disk c w ts -> durable_tables c w ts -> disk c w' ts /\ durable_tables c w' ts.
Proof.
  intros [Hc|Hw] Hd Ht; [by eapply crash_disk|]. split; [by eapply disk_same|by eapply durable_tables_same].
Qed.

(** Of a log that holds its entries, or is empty, its durable part or its content
    comes back. *)
Lemma halted_log c w w' x d :
  halted w w' -> get_file (wal_path c) w = Some (mkFile x d) -> (d = x \/ x = []) ->
  (log_content c w' = x \/ log_content c w' = d) /\
  (log_durable c w' = log_content c w' \/ (log_content c w' = x /\ log_durable c w' = d)).
Proof.
  intros Hh Hf Hx. unfold log_content, log_durable. destruct Hh as [Hc|Hw].
  - destruct (crash_file _ _ _ _ Hc Hf) as (c' & -> & Hcc). simpl. split; [|by left].
    destruct Hcc as [->|[H1 H2]]; [by right|left]. simpl in *. destruct Hx as [->| ->].
    + apply (anti_symm prefix); [done|by apply H2].
    + by apply prefix_nil_inv in H1.
  - rewrite (get_file_same _ w w' Hw), Hf. simpl. auto.
Qed.

(** The engine's files, wherever it is between two actions, lead to the map that
    replaying its log over its tables gives. *)
Lemma backed_recovers c e w w' ts d es kv :
  recorded c (wal e) w ts d es -> disk c w ts -> next_id_of ts < 2 ^ 64 - 1 -> backed e ts d es ->
  mem_ok (replay es MemTable.new) -> (forall k, view (replay es MemTable.new) ts k = kv !! k) ->
  halted w w' -> recovers c w' kv.
Proof.
  intros [(b & (_ & Hf & _) & Hbuf) Hfit _ Htab _] Hd Hn Hb Hm Hv Hh.
  destruct (halted_disk c w w' ts Hh Hd Htab) as [Hd' Ht']. exists ts. split; [done|]. split; [done|]. split; [done|].
  assert (Hx : b = wal_bytes es /\ (d = b \/ b = [])).
  { destruct Hb as [[-> Hbf]|[-> _]]; [rewrite Hbf, app_nil_r in Hbuf; auto|].
    apply app_eq_nil in Hbuf as [-> _]. auto. }
  destruct Hx as [-> Hx]. destruct (halted_log c w w' _ _ Hh Hf Hx) as [E Ed].
  assert (Hback : d = wal_bytes es \/ (es = [] /\ covers d ts)) by (destruct Hb as [[-> _]|?]; auto).
  assert (Hrm : mem_ok (recovered_mem (log_content c w')) /\
    forall k, view (recovered_mem (log_content c w')) ts k = kv !! k).
  { destruct Hback as [->|[-> [Hmd Hcov]]].
    - assert (log_content c w' = wal_bytes es) as -> by tauto. by rewrite recovered_mem_log.
    - destruct E as [->| ->]; [by rewrite recovered_mem_log|]. split; [done|].
      intros k. rewrite Hcov. apply Hv. }
  destruct Hrm. split; [done|]. split; [done|]. destruct Ed as [Ed|[E1 E2]]; [by left|]. rewrite E1, E2.
  destruct Hback as [->|[-> Hcov]]; auto.
Qed.

Lemma safe_recovers s w' kv :
  safe s kv -> halted s.2 w' -> ids_left s.1 -> recovers (config s.1) w' kv.
Proof.
  destruct s as [e w]. intros (Hstr & ts & d & es & Hlg & Hb) Hh Hids. cbn [fst snd] in *.
  apply logged_recorded in Hlg as (Hok & Hrec & Hmem).
  eapply backed_recovers; [done|eapply engine_disk; [done|apply Hrec]|by eapply next_id_left|done|..|done];
    rewrite <- Hmem; apply Hok.
Qed.

(** Opening such a directory: the log that was durable, should it come back, changes
    nothing. *)
Lemma open_fresh c w kv e w' :
  recovers c w kv -> open c w = (Ok e, w') ->
  exists ts, fresh c e w' ts kv (log_durable c w) /\ durable_tables c w' ts /\ covers (log_durable c w) ts.
Proof.
  intros (ts & Hd & Ht & Hlt & Hm & Hv & Hlog) Hrun.
  pose proof (wp_ok _ _ _ _ _ _ (wp_engine_open c w ts kv Hd Hlt Hm Hv) Hrun) as [Hfr Ht'].
  eexists. split; [exact Hfr|]. split; [by apply Ht'|].
  destruct Hlog as [->|[E Hcov]]; [|by rewrite E].
  unfold tables_with. destruct (MemTable.is_empty _) eqn:Hemp; [|by apply covers_flushed].
  split; [done|]. intros k. apply MemTable.is_empty_data in Hemp. unfold view, MemTable.get. by rewrite Hemp.
Qed.

Lemma open_safe c w kv e w' :
  Config.wal_sync_strategy c = EveryWrite -> recovers c w kv -> open c w = (Ok e, w') ->
  safe (e, w') kv /\ config e = c.
Proof.
  intros Hstr Hr Hrun. destruct (open_fresh c w kv e w' Hr Hrun) as (ts & Hfr & Ht & Hcov).
  pose proof (fresh_config _ _ _ _ _ _ Hfr) as Hc. split; [|done]. split; [by simpl; rewrite Hc|].
  eexists _, _, []. split; [by eapply fresh_logged|]. by right.
Qed.

Lemma recovers_open c w kv :
  Config.wal_sync_strategy c = EveryWrite -> recovers c w kv -> quiet w ->
  exists e3 w3, open c w = (Ok e3, w3) /\ safe (e3, w3) kv /\ config e3 = c /\ quiet w3.
Proof.
  intros Hstr Hr Hq. pose proof Hr as (ts & Hd & Ht & Hn & Hm & Hv & _).
  destruct (wp_quiet _ _ _ _ (wp_engine_open _ w ts kv Hd Hn Hm Hv) Hq) as (e3 & w3 & Hrun & _ & Hq3).
  exists e3, w3. split; [done|]. destruct (open_safe c w kv e3 w3 Hstr Hr Hrun). done.
Qed.

(** *** A table that was not finished *)

(** The files of [w2] that were there in [w] already: what was created since is
    removed. *)
Definition tidy (w w2 : World) : World :=
  mkWorld (filter (fun f : path * node => is_Some (files w !! f.1)) (files w2)) (faults w2).

Lemma lookup_tidy p w w2 :
  files (tidy w w2) !! p = (if files w !! p is Some _ then files w2 !! p else None).
Proof.
  simpl. destruct (files w !! p) as [n|] eqn:E.
  - destruct (files w2 !! p) as [m|] eqn:E2.
    + apply map_lookup_filter_Some. split; [done|]. simpl. by rewrite E.
    + apply map_lookup_filter_None. by left.
  - apply map_lookup_filter_None. right. intros m _ [? H]. simpl in H. congruence.
Qed.

(** Nothing but the new file was touched: without it the directory is what it was. *)
Lemma halted_tidy p w w1 w2 :
  frame p w w1 -> files w !! p = None -> halted w1 w2 -> halted w (tidy w w2).
Proof.
  intros [Hf _] Hp [Hc|Hs].
  - left. intros q. rewrite lookup_tidy. specialize (Hc q).
    destruct (decide (q = p)) as [->|Hne]; [by rewrite Hp|]. rewrite Hf in Hc by done.
    by destruct (files w !! q) as [[f|]|].
  - right. apply map_eq. intros q. rewrite lookup_tidy. unfold same_files in Hs. rewrite Hs.
    destruct (decide (q = p)) as [->|Hne]; [by rewrite Hp|]. rewrite Hf by done. by destruct (files w !! q).
Qed.

(** No file has the name of a table to come. *)
Lemma table_absent c w ts id :
  disk c w ts -> ids_below id ts -> 0 <= id < 2 ^ 64 ->
  files w !! StorageManager.sstable_path_with_dir (table_dir c) id = None.
Proof.
  intros [(_ & _ & H3) Hnd _] Hb Hid. specialize (Hnd id).
  destruct (files w !! _) as [[f|]|] eqn:E; [|done|done].
  destruct (H3 _ _ id E (parse_sstable_name id Hid)) as [_ Hin].
  apply list_elem_of_fmap in Hin as (t & -> & Ht). pose proof (proj1 (Forall_forall _ _) Hb t Ht). simpl in *. lia.
Qed.

(** A directory can be stopped again before it is opened. *)
Lemma recovers_halted c w w' kv : recovers c w kv -> halted w w' -> recovers c w' kv.
Proof.
  intros (ts & Hd & Ht & Hn & Hm & Hv & Hlog) Hh.
  destruct (halted_disk c w w' ts Hh Hd Ht) as [Hd' Ht']. exists ts. split; [done|]. split; [done|]. split; [done|].
  destruct (get_file (wal_path c) w) as [[x d]|] eqn:Hf.
  - assert (E1 : log_content c w = x) by (unfold log_content; by rewrite Hf).
    assert (E2 : log_durable c w = d) by (unfold log_durable; by rewrite Hf). rewrite E1, E2 in *.
    destruct (halted_log c w w' x d Hh Hf) as [E Ed]; [destruct Hlog as [?|[? _]]; auto|].
    destruct Hlog as [->|[-> [Hmd Hcov]]].
    + assert (Ex : log_content c w' = x) by tauto. rewrite Ex in *. split_and!; [done|done|left; tauto].
    + destruct E as [E|E], Ed as [Ed|[E' Ed]]; rewrite ?Ed, ?E in *; split_and!; try done; try (by left);
        try (by right); intros k; rewrite Hcov; apply Hv.
  - assert (Hf' : get_file (wal_path c) w' = None).
    { unfold get_file in *. destruct Hh as [Hc|Hs]; [|by rewrite Hs]. specialize (Hc (wal_path c)).
      destruct (files w !! wal_path c) as [[f|]|]; [done|by rewrite Hc|by rewrite Hc]. }
    unfold log_content, log_durable in *. rewrite Hf, Hf' in *. auto.
Qed.

(** A start that failed, or was cut off: once the table it was writing is removed,
    the directory serves what it did. *)
Lemma start_failed_recovers c w kv fs er w1 w2 :
  recovers c w kv -> open c (mkWorld (files w) fs) = (Err er, w1) -> halted w1 w2 ->
  recovers c (tidy w w2) kv.
Proof.
  intros Hr Hrun Hh. pose proof Hr as (ts & Hd & _ & Hn & Hm & Hv & _).
  set (w0 := mkWorld (files w) fs) in *. assert (Hw : same_files w w0) by done.
  destruct (wp_err _ _ _ _ _ _ (wp_engine_open c w0 ts kv (disk_same c w w0 ts Hw Hd) Hn Hm Hv) Hrun)
    as (_ & Hfr & _).
  apply (recovers_halted c w); [done|].
  apply (halted_tidy (next_table c ts) w w1); [solve_frame| |exact Hh].
  destruct (next_id_bounds _ _ _ (disk_tables _ _ _ Hd)) as [? Hb]. by apply (table_absent c w ts); [|done|lia].
Qed.

(** After a crash the next engine opens and serves the acknowledged state. *)
Lemma safe_reopen s w2 kv :
  safe s kv -> crash s.2 w2 -> quiet w2 -> ids_left s.1 ->
  exists e3 w3, open (config s.1) w2 = (Ok e3, w3) /\ safe (e3, w3) kv /\
    config e3 = config s.1 /\ quiet w3.
Proof.
  intros Hs Hc Hq Hids. apply recovers_open; [apply Hs|apply safe_recovers; [done|by left|done]|done].
Qed.

(** A read of a safe engine. *)
Lemma safe_read k s kv : safe s kv -> quiet s.2 -> exists s', get k s = (Ok (kv !! k), s').
Proof.
  destruct s as [e w]. intros (_ & ts & d & es & Hlg & _) Hq.
  destruct (wp_quiet _ _ _ _ (wp_get_logged e w ts kv _ es k Hlg) Hq) as (res & s' & Hrun & (-> & _) & _).
  eauto.
Qed.

(** A directory with no files. *)
Lemma empty_disk c w : files w = ∅ -> disk c w [] /\ durable_tables c w [].
Proof.
  intros Hw. split; [|constructor]. constructor.
  - split_and!; [constructor|constructor|]. intros name f id. by rewrite Hw, lookup_empty.
  - intros id. by rewrite Hw, lookup_empty.
  - by rewrite Hw, lookup_empty.
Qed.

Lemma log_empty c w : files w = ∅ -> log_content c w = [] /\ log_durable c w = [].
Proof.
  intros Hw. unfold log_content, log_durable, get_file. by rewrite Hw, lookup_empty.
Qed.

Lemma empty_recovers c w : files w = ∅ -> recovers c w ∅.
Proof.
  intros Hw. destruct (empty_disk c w Hw) as [Hd Ht]. destruct (log_empty c w Hw) as [E1 E2].
  exists []. rewrite E1, E2. split_and!; [done|done|done|apply mem_new_ok..|done|by left].
Qed.

Lemma open_empty_safe c w e w' :
  files w = ∅ -> Config.wal_sync_strategy c = EveryWrite -> open c w = (Ok e, w') ->
  safe (e, w') ∅ /\ config e = c.
Proof.
  intros Hw Hstr. apply open_safe; [done|]. by apply empty_recovers.
Qed.

(** ** A crash in the middle of a write *)

(** What a failed append can leave of the log: all the entries, perhaps the new
    one. *)
Lemma torn_append es d x c c' buf n :
  Forall entry_fits (es ++ [x]) -> ((d = wal_bytes es /\ d `prefix_of` c) \/ es = []) ->
  c ++ buf = wal_bytes es ++ ztake n (enc x) -> crash_content (mkFile c d) c' ->
  c' = d \/ (scan c').1 = es \/ (scan c').1 = es ++ [x].
Proof.
  intros Hfx Hcase Hcb Hcc. destruct Hcc as [->|[H1 H2]]; [by left|].
  right. simpl in *. assert (Hpre : c' `prefix_of` wal_bytes (es ++ [x])).
  { etrans; [exact H1|]. etrans; [exists buf; symmetry; exact Hcb|]. rewrite wal_bytes_snoc.
    apply prefix_app, ztake_prefix. }
  destruct (scan_cut _ _ Hfx Hpre) as (k & -> & Hk & _ & Hmax). unfold recovered. cbn [fst].
  rewrite length_app in Hk, Hmax. simpl in Hk, Hmax.
  assert (length es <= k)%nat.
  { apply (Hmax (length es)); [lia|]. rewrite take_app_length.
    destruct Hcase as [[-> Hc]| ->]; [by apply H2|apply prefix_nil]. }
  destruct (decide (k = length es)) as [->|Hne]; [left; apply take_app_length|right].
  apply take_ge. rewrite length_app. simpl. lia.
Qed.

(** A crash in the middle of an append: the map with the write, or without it. *)
Lemma append_torn_recovers now op e w ts kv d es wr w1 w2 :
  logged e w ts kv d es -> backed e ts d es -> ids_left e -> fits e op ->
  let x := next_entry_of (wal e) now op in
  append_failed (wal_path (config e)) d (wal_bytes es) x wr w1 -> frame (wal_path (config e)) w w1 ->
  (forall c0, past (wal_path (config e)) c0 (BufWriter.inner (WalWriter.file (wal e))) w ->
     past (wal_path (config e)) c0 (BufWriter.inner (WalWriter.file wr)) w1) ->
  crash w1 w2 -> recovers (config e) w2 kv \/ recovers (config e) w2 (kv_apply op kv).
Proof.
  intros Hlg Hb Hids Hfit x (n & _ & _ & c & (_ & Hf & _) & Hcb) Hfr Hpast Hc.
  pose proof Hlg as [Hok (c0 & Hat & Hbuf) Hfits Hmem Hdisk Htab _].
  pose proof (disk_frame_wal _ w w1 ts _ Hfr Hf (engine_disk e w ts ts kv Hok Hdisk)) as Hd1.
  destruct (crash_disk _ w1 w2 ts Hc Hd1) as [Hd2 Ht2]; [by eapply durable_tables_wal|].
  destruct (crash_file _ _ _ _ Hc Hf) as (c' & Hf' & Hcc).
  assert (Hfx : Forall entry_fits (es ++ [x])).
  { apply Forall_app. split; [done|]. constructor; [|done]. eapply next_entry_fits; [exact Hok|apply Hfit]. }
  assert (E : log_content (config e) w2 = c' /\ log_durable (config e) w2 = c')
    by (unfold log_content, log_durable; by rewrite Hf').
  destruct E as [E Ed]. pose proof (ok_mem _ _ _ _ Hok) as Hm. pose proof (ok_view _ _ _ _ Hok) as Hv.
  assert (Hrec : forall kv', mem_ok (recovered_mem c') -> (forall k, view (recovered_mem c') ts k = kv' !! k) ->
    recovers (config e) w2 kv').
  { intros kv' Hmr Hv'. exists ts. rewrite E, Ed. split_and!; auto. by eapply next_id_left. }
  assert (Hgrow : (d = wal_bytes es /\ d `prefix_of` c) \/ es = []).
  { destruct Hb as [[-> Hbf]|[-> _]]; [left|by right]. rewrite Hbf, app_nil_r in Hbuf. subst c0. split; [done|].
    destruct (Hpast (wal_bytes es)) as (c1 & d1 & (_ & Hf1 & _) & Hpre); [by eexists _, _|].
    rewrite Hf in Hf1. by injection Hf1 as <- <-. }
  destruct (torn_append es d x c c' _ n Hfx Hgrow Hcb Hcc) as [->|[Es|Es]].
  - left. apply Hrec; destruct Hb as [[-> _]|[-> [Hmd Hcov]]]; rewrite ?recovered_mem_log by done; try done.
    1,2: by rewrite <- Hmem. intros k. rewrite Hcov, <- Hv, Hmem. done.
  - left. unfold recovered_mem in Hrec. rewrite Es, <- Hmem in Hrec. by apply Hrec.
  - right. unfold recovered_mem in Hrec. rewrite Es, replay_snoc, <- Hmem in Hrec.
    apply Hrec; [by apply mem_apply_ok|]. apply view_apply; [apply Hm|done].
Qed.

Lemma wp_append_torn now op e w ts kv d es :
  logged e w ts kv d es -> backed e ts d es -> ids_left e -> 0 <= now -> fits e op ->
  wp (with_wal_lock (on_wal (WalWriter.append now op))) (e, w)
    (fun _ s => exists wr, s.1 = set_wal wr e)
    (fun s => (exists wr, s.1 = set_wal wr e) /\ forall w2, crash s.2 w2 ->
       recovers (config e) w2 kv \/ recovers (config e) w2 (kv_apply op kv)).
Proof.
  intros Hlg Hb Hids Hnow Hfit.
  assert (Hc0 : exists c0, past (wal_path (config e)) c0 (BufWriter.inner (WalWriter.file (wal e))) w /\
    forall c1, past (wal_path (config e)) c1 (BufWriter.inner (WalWriter.file (wal e))) w -> c1 `prefix_of` c0).
  { destruct (lg_log _ _ _ _ _ _ Hlg) as (c & Hat & Hbuf). exists c. split; [by exists c, d|].
    intros c1 (c2 & d2 & (_ & Hf2 & _) & Hpre). destruct Hat as (_ & Hf & _). rewrite Hf in Hf2.
    by injection Hf2 as <- <-. }
  destruct Hc0 as (c0 & Hpast & Hmax).
  eapply wp_conseq; [apply wp_and; [by apply wp_append_logged|by eapply wp_append_grows]|..].
  - intros _ s ((wr & w1 & d' & -> & _) & _). by exists wr.
  - intros s ((wr & w1 & -> & Hfail & Hfr) & Hpast1). split; [by exists wr|]. intros w2 Hc. cbn [fst snd] in *.
    eapply append_torn_recovers; [done..| |done]. intros c1 Hc1.
    destruct Hpast1 as (c2 & d2 & Hat2 & Hpre2). exists c2, d2. split; [done|]. etrans; [by apply Hmax|done].
Qed.

(** With no flush due, a write can only fail while it appends to the log. *)
Lemma crash_mid_write now op s er s' w2 kv :
  safe s kv -> 0 <= now -> fits s.1 op -> ids_left s.1 ->
  (write_size op (memtable s.1)).1 < Config.memtable_size_limit (config s.1) ->
  write now op s = (Err er, s') -> crash s'.2 w2 -> quiet w2 ->
  exists kv' e3 w3, (kv' = kv \/ kv' = kv_apply op kv) /\
    open (config s.1) w2 = (Ok e3, w3) /\ safe (e3, w3) kv'.
Proof.
  destruct s as [e w]. cbn [fst]. intros (Hstr & ts & d & es & Hlg & Hb) Hnow Hfit Hids Hlim Hrun Hc Hq.
  cbn [fst snd] in *. pose proof (proj1 (ok_locks _ _ _ _ (lg_ok _ _ _ _ _ _ Hlg))) as Hl.
  assert (Hw : wp (write now op) (e, w) (fun _ _ => True) (fun s => forall w2, crash s.2 w2 ->
    recovers (config e) w2 kv \/ recovers (config e) w2 (kv_apply op kv))).
  { rewrite write_body. apply wp_locked; [done|].
    eapply wp_bind; [by eapply wp_append_torn| |by intros s [_ ?]].
    intros _ [e1 w1] (wr & E). cbn [fst] in E. subst e1. eapply wp_bind_step.
    { unfold on_memtable. cbn [fst]. change (memtable (set_wal wr e)) with (memtable e).
      rewrite (surjective_pairing (write_size op (memtable e))). reflexivity. }
    { done. }
    unfold flush_if_full. apply wp_bind_gets. cbn [fst snd].
    simpl config. rewrite (proj2 (Z.leb_gt _ _)) by done. by apply wp_ret. }
  destruct (wp_err _ _ _ _ _ _ Hw Hrun) as (_ & Hrec & _).
  destruct (Hrec w2 Hc) as [Hr|Hr]; destruct (recovers_open _ _ _ Hstr Hr Hq) as (e3 & w3 & H1 & H2 & _); eauto 8.
Qed.
End Crash.
