(* ===== verification/LogLoss.v ===== *)
(** How much of the log a crash can lose, by the writer's sync strategy
    ([src/src/wal/writer.rs]): the bookkeeping of appended and synced entries, and
    every history of a writer's operations on one file. *)

From Stdlib Require Import ZArith Lia.
From stdpp Require Import base gmap list strings.
From S2P Require Import Prelude Errors Protocol World WorldFacts Config Wal WalFacts WalWriterFacts.
From S2P Require Import EngineFacts Durability Crash.
Open Scope list_scope.
Open Scope Z_scope.

Section Bounded.
Context `{HC : Crc32} {HCok : Crc32Ok} `{HB : WalEntry.Bincode} {HBok : WalEntry.BincodeOk}.

(** More than the number of acknowledged entries that may be unsynced. *)
Definition loss_bound (st : WalSyncStrategy) : Z :=
  match st with EveryWrite => 1 | EveryNEntries n => Z.max 1 n end.

(** All entries but the last [uncommitted_count] are durable, and still in the
    file. *)
Definition wal_bounded (p : path) (es : list WalEntry.t) (s : WalWriter.t * World) : Prop :=
  let u := WalWriter.uncommitted_count s.1 in
  let d := wal_bytes (ztake (len es - u) es) in
  bw_log p d (wal_bytes es) (WalWriter.file s.1) s.2 /\
  past p d (BufWriter.inner (WalWriter.file s.1)) s.2 /\
  Forall entry_fits es /\ 0 <= u <= len es /\ u < loss_bound (WalWriter.sync_strategy s.1) < 2 ^ 64 /\
  0 <= WalWriter.current_lsn s.1 < 2 ^ 64.

(** After a sync everything is durable. *)
Lemma synced_bounded p es wr w :
  bw_log p (wal_bytes es) (wal_bytes es) (WalWriter.file wr) w -> BufWriter.buf (WalWriter.file wr) = [] ->
  Forall entry_fits es -> WalWriter.uncommitted_count wr = 0 ->
  loss_bound (WalWriter.sync_strategy wr) < 2 ^ 64 -> 0 <= WalWriter.current_lsn wr < 2 ^ 64 ->
  wal_bounded p es (wr, w).
Proof.
  intros Hlog Hbuf Hfits Hz Hb Hl. unfold wal_bounded. cbn [fst snd]. rewrite Hz, Z.sub_0_r, ztake_all by lia.
  assert (0 < loss_bound (WalWriter.sync_strategy wr)) by (destruct (WalWriter.sync_strategy wr); simpl; lia).
  split_and!; try done; try (pose_len; lia).
  destruct Hlog as (c & Hat & Hc). rewrite Hbuf, app_nil_r in Hc. subst c. by eexists _, _.
Qed.

Lemma wal_bounded_append p es now op s l s' :
  wal_bounded p es s -> 0 <= now -> op_size op < 2 ^ 32 ->
  WalWriter.append now op s = (Ok l, s') ->
  l = WalWriter.current_lsn s.1 /\ wal_bounded p (es ++ [next_entry_of s.1 now op]) s' /\
  WalWriter.sync_strategy s'.1 = WalWriter.sync_strategy s.1.
Proof.
  destruct s as [wr w]. intros (Hlog & Hpast & Hfits & Hu & Hb & Hl) Hnow Hsz Hrun. cbn [fst snd] in *.
  set (x := next_entry_of wr now op).
  assert (Hx : entry_fits x) by by apply next_entry_of_fits.
  destruct (wp_ok _ _ _ _ _ _ (wp_append p _ _ wr w now op Hlog Hnow Hx) Hrun)
    as (-> & (H1 & H2 & d' & Hlog' & Hsyn) & _). fold x in Hlog', Hsyn.
  pose proof (wp_ok _ _ _ _ _ _ (wp_append_past p _ now op (wr, w) (conj Hpast Hl) Hnow Hsz) Hrun)
    as [Hpast' _].
  rewrite <- wal_bytes_snoc in Hlog', Hsyn. split; [done|]. split; [|done].
  assert (Hfx : Forall entry_fits (es ++ [x])) by (apply Forall_app; split; [done|by constructor]).
  assert (len (es ++ [x]) = len es + 1) as El by (rewrite len_app; done).
  destruct Hsyn as [(-> & Hz & Hbuf)|(-> & Hz & n & Hn & Hlt)].
  - destruct s' as [wr' w']. cbn [fst snd] in *. apply synced_bounded; [done..|rewrite H2; lia|rewrite H1; apply as_u64_range].
  - unfold wal_bounded. rewrite Hn in Hb. simpl loss_bound in Hb.
    rewrite as_u64_small in Hz by lia. rewrite Hz, El, H2, Hn. simpl loss_bound.
    replace (ztake (len es + 1 - (WalWriter.uncommitted_count wr + 1)) (es ++ [x]))
      with (ztake (len es - WalWriter.uncommitted_count wr) es).
    { split_and!; [done|exact Hpast'|done|lia|lia|lia|lia|rewrite H1; apply as_u64_range..]. }
    unfold ztake. rewrite take_app_le by (unfold len in *; lia). f_equal. lia.
Qed.

Lemma wal_bounded_crash p es s f c' :
  wal_bounded p es s -> get_file p s.2 = Some f -> crash_content f c' ->
  exists k, (scan c').1 = take k es /\
    len es - loss_bound (WalWriter.sync_strategy s.1) < Z.of_nat k <= len es.
Proof.
  intros ((c & (Hp & Hf & _) & Hcb) & Hpast & Hfits & Hu & Hb & _) Hg Hcc.
  destruct Hpast as (c1 & d1 & (_ & Hf1 & _) & Hin). rewrite Hf in Hf1. injection Hf1 as <- <-.
  rewrite Hf in Hg. injection Hg as <-. set (u := WalWriter.uncommitted_count s.1) in *.
  set (j := Z.to_nat (len es - u)). assert (Hj : (j <= length es)%nat) by (unfold j, len in *; lia).
  change (ztake (len es - u) es) with (take j es) in *.
  assert (Hpre : wal_bytes (take j es) `prefix_of` c' /\ c' `prefix_of` wal_bytes es).
  { assert (Hd : wal_bytes (take j es) `prefix_of` wal_bytes es).
    { rewrite <- (take_drop j es) at 2. rewrite wal_bytes_app. by eexists. }
    destruct Hcc as [->|[H1 H2]]; simpl in *; [done|]. split; [by apply H2|].
    etrans; [exact H1|]. rewrite <- Hcb. by eexists. }
  destruct Hpre as [H1 H2]. destruct (scan_cut es c' Hfits H2) as (k & Hs & Hk & _ & Hmax).
  exists k. split; [by rewrite Hs|]. specialize (Hmax j Hj H1). unfold j, len in *. lia.
Qed.

(** All entries but the last [uncommitted_count] are durable; or nothing was synced
    since the log was emptied, and [d0], from before, is still the durable part. *)
Definition wal_lags (p : path) (d0 : bytes) (es : list WalEntry.t) (s : WalWriter.t * World) : Prop :=
  wal_bounded p es s \/
  (bw_log p d0 (wal_bytes es) (WalWriter.file s.1) s.2 /\ Forall entry_fits es /\
   WalWriter.uncommitted_count s.1 = len es /\ len es < loss_bound (WalWriter.sync_strategy s.1) < 2 ^ 64 /\
   0 <= WalWriter.current_lsn s.1 < 2 ^ 64).

Lemma wal_lags_append p d0 es now op s l s' :
  wal_lags p d0 es s -> 0 <= now -> op_size op < 2 ^ 32 -> WalWriter.append now op s = (Ok l, s') ->
  wal_lags p d0 (es ++ [next_entry_of s.1 now op]) s' /\
  WalWriter.current_lsn s'.1 = as_u64 (WalWriter.current_lsn s.1 + 1).
Proof.
  destruct s as [wr w]. cbn [fst]. set (x := next_entry_of wr now op). intros Hlag Hnow Hsz Hrun.
  assert (Hx : 0 <= WalWriter.current_lsn wr < 2 ^ 64 -> entry_fits x)
    by (intros; by apply next_entry_of_fits).
  destruct Hlag as [Hb|(Hlog & Hfits & Hu & Hlt & Hl)].
  - destruct (wal_bounded_append _ _ _ _ _ _ _ Hb Hnow Hsz Hrun) as (_ & Hb' & _). split; [by left|].
    destruct Hb as (Hlog & _ & _ & _ & _ & Hl).
    by destruct (wp_ok _ _ _ _ _ _ (wp_append p _ _ wr w now op Hlog Hnow (Hx Hl)) Hrun) as (_ & [? _] & _).
  - cbn [fst snd] in *. specialize (Hx Hl).
    destruct (wp_ok _ _ _ _ _ _ (wp_append p _ _ wr w now op Hlog Hnow Hx) Hrun)
      as (_ & (H1 & H2 & d' & Hlog' & Hsyn) & _). fold x in Hlog', Hsyn.
    rewrite <- wal_bytes_snoc in Hlog', Hsyn. split; [|done]. destruct s' as [wr' w']. cbn [fst snd] in *.
    assert (Hfx : Forall entry_fits (es ++ [x])) by (apply Forall_app; split; [done|by constructor]).
    assert (El : len (es ++ [x]) = len es + 1) by (rewrite len_app; done).
    destruct Hsyn as [(-> & Hz & Hbuf)|(-> & Hz & n & Hn & Hcnt)].
    + left. apply synced_bounded; [done..|rewrite H2; lia|rewrite H1; apply as_u64_range].
    + right. cbn [fst snd]. rewrite Hn in Hlt. rewrite H1, H2, Hn, El. simpl loss_bound in *.
      pose proof (len_nonneg es). rewrite as_u64_small in Hz by lia.
      split_and!; [done|done|lia..|apply as_u64_range|apply as_u64_range].
Qed.

(** What can come back of the log: [d0], or all but fewer than the bound. *)
Lemma wal_lags_crash p d0 es s f c' :
  wal_lags p d0 es s -> get_file p s.2 = Some f -> crash_content f c' ->
  (c' = d0 /\ WalWriter.uncommitted_count s.1 = len es /\ len es < loss_bound (WalWriter.sync_strategy s.1)) \/
  exists k, (scan c').1 = take k es /\
    len es - loss_bound (WalWriter.sync_strategy s.1) < Z.of_nat k <= len es.
Proof.
  intros [Hb|((c & (_ & Hf & _) & Hcb) & Hfits & Hu & Hlt & _)] Hg Hcc.
  - right. by eapply wal_bounded_crash.
  - rewrite Hf in Hg. injection Hg as <-. destruct Hcc as [->|[H1 _]]; simpl in *; [left; split_and!; [done|done|lia]|right].
    assert (H2 : c' `prefix_of` wal_bytes es) by (etrans; [exact H1|]; rewrite <- Hcb; by eexists).
    destruct (scan_cut es c' Hfits H2) as (k & Hs & Hk & _). exists k. rewrite Hs. unfold len in *. split; [done|lia].
Qed.

Lemma wal_lags_same p d0 es wr w w' :
  wal_lags p d0 es (wr, w) -> get_file p w' = get_file p w -> wal_lags p d0 es (wr, w').
Proof.
  intros H Hw.
  assert (Hlog : forall d, bw_log p d (wal_bytes es) (WalWriter.file wr) w ->
    bw_log p d (wal_bytes es) (WalWriter.file wr) w').
  { intros d (c & (Hp & Hf & Hpos) & Hc). exists c. split; [|done]. split_and!; [done|by rewrite Hw|done]. }
  destruct H as [(H1 & (c1 & d1 & (Hp & Hf & Hpos) & Hpre) & Hrest)|(H1 & Hrest)]; cbn [fst snd] in *.
  - left. split; [by apply Hlog|]. split; [|done]. exists c1, d1. split; [|done].
    cbn [fst snd]. split_and!; [done|by rewrite Hw|done].
  - right. split; [by apply Hlog|done].
Qed.

(** Whatever a writer did, the file has a durable part. *)
Lemma wal_lags_file p d0 es s :
  wal_lags p d0 es s -> exists c d, get_file p s.2 = Some (mkFile c d) /\
    bw_log p d (wal_bytes es) (WalWriter.file s.1) s.2 /\ Forall entry_fits es /\
    loss_bound (WalWriter.sync_strategy s.1) < 2 ^ 64 /\ 0 <= WalWriter.current_lsn s.1 < 2 ^ 64.
Proof.
  intros [(Hl & _ & Hf & _ & Hb & Hn)|(Hl & Hf & _ & Hb & Hn)]; pose proof Hl as (c & (_ & Hg & _) & _);
    exists c; eexists; (split_and!; [exact Hg|exact Hl|done|lia..]).
Qed.

Lemma loss_bound_pos st : 0 < loss_bound st.
Proof. destruct st; simpl; lia. Qed.

(** An empty log whose durable part is [d]. *)
Lemma emptied_lags p d wr w :
  bw_log p d [] (WalWriter.file wr) w -> WalWriter.uncommitted_count wr = 0 -> WalWriter.current_lsn wr = 1 ->
  loss_bound (WalWriter.sync_strategy wr) < 2 ^ 64 -> wal_lags p d [] (wr, w).
Proof.
  intros Hl Hu Hn Hb. right. cbn [fst snd]. rewrite Hu, Hn. pose proof (loss_bound_pos (WalWriter.sync_strategy wr)).
  split_and!; done || lia.
Qed.

(** The operations of one writer on the file [p], each of which succeeded, with
    anything in between that leaves the file alone.  [es] are the entries appended
    since the log was last emptied, by opening it or by [truncate], and [d] was its
    durable part then. *)
Inductive writer_history (p : path) : bytes -> list WalEntry.t -> WalWriter.t * World -> Prop :=
| wh_open strategy w wr w' :
    loss_bound strategy < 2 ^ 64 -> WalWriter.open p strategy w = (Ok wr, w') ->
    writer_history p (default [] (durable <$> get_file p w)) [] (wr, w')
| wh_append d es s now op l s' :
    writer_history p d es s -> 0 <= now -> op_size op < 2 ^ 32 ->
    WalWriter.append now op s = (Ok l, s') ->
    writer_history p d (es ++ [next_entry_of s.1 now op]) s'
| wh_sync d es s s' :
    writer_history p d es s -> WalWriter.sync s = (Ok tt, s') -> writer_history p d es s'
| wh_truncate d es s f s' :
    writer_history p d es s -> get_file p s.2 = Some f -> WalWriter.truncate s = (Ok tt, s') ->
    writer_history p (durable f) [] s'
| wh_elsewhere d es wr w w' :
    writer_history p d es (wr, w) -> get_file p w' = get_file p w -> writer_history p d es (wr, w').

Lemma history_lags p d es s : writer_history p d es s -> wal_lags p d es s.
Proof.
  induction 1 as [strategy w wr w' Hb Hrun|d es s now op l s' _ IH Hnow Hsz Hrun|d es s s' _ IH Hrun
    |d es s f s' _ IH Hf Hrun|d es wr w w' _ IH Hw].
  - assert (Hf : (exists f, get_file p w = Some f) \/ files w !! p = None).
    { unfold WalWriter.open, File.open_truncate, syscall, mbind, ST_bind in Hrun. unfold get_file.
      destruct (files w !! p) as [[f|]|] eqn:E; eauto. exfalso.
      destruct (faults w) as [|[ft|] fs]; cbn in Hrun; by rewrite ?E in Hrun. }
    assert (Hw : exists f, get_file p w = Some f \/ files w !! p = None)
      by (destruct Hf as [[f ?]|?]; [exists f|exists (mkFile [] [])]; auto).
    destruct Hw as [f Hw].
    destruct (wp_ok _ _ _ _ _ _ (wp_wal_open p f strategy w Hw) Hrun) as (Hl & Hn & Hs & Hu & _).
    apply emptied_lags; [exact Hl|done|done|by rewrite Hs].
  - by eapply wal_lags_append.
  - destruct s as [wr w], s' as [wr' w']. destruct (wal_lags_file _ _ _ _ IH) as (c & d1 & _ & Hl & Hfit & Hb & Hn).
    cbn [fst snd] in *.
    destruct (wp_ok _ _ _ _ _ _ (wp_sync p d1 _ wr w Hl) Hrun) as (Hl' & Hbuf & Hu & [H1 H2] & _).
    cbn [fst snd] in *. left. apply synced_bounded; [done..|by rewrite H2|by rewrite H1].
  - destruct s as [wr w], s' as [wr' w']. destruct (wal_lags_file _ _ _ _ IH) as (c & d1 & Hg & Hl & _ & Hb & _).
    cbn [fst snd] in *. rewrite Hg in Hf. injection Hf as <-.
    destruct (wp_ok _ _ _ _ _ _ (wp_truncate p d1 _ wr w Hl) Hrun) as (Hl' & Hn & Hs & Hu & _).
    cbn [fst snd] in *. apply emptied_lags; [exact Hl'|done|done|by rewrite Hs].
  - by eapply wal_lags_same.
Qed.
End Bounded.
