(* ===== verification/CrashWorkers.v ===== *)
(** A crash while threads are inside the engine.  Under
    [WalSyncStrategy::EveryWrite] the files always hold the map the threads see,
    and between the append of a write and its effect on the memtable the map with
    that write: this file follows the files through the actions of the holder of
    [write_lock], with readers beside it. *)

From Stdlib Require Import ZArith Lia String.
From stdpp Require Import base gmap list strings.
From S2P Require Import Prelude Errors BTreeMap Memtable Protocol World WorldFacts Config Wal.
From S2P Require Import WalFacts WalWriterFacts Sstable SstableFacts SstableReaderFacts Storage.
From S2P Require Import StorageFacts Engine EngineFacts Traces Register Workers WorkersFacts.
From S2P Require Import Recovery Durability Crash.
Open Scope list_scope.
Open Scope Z_scope.

Import Engine Workers.

Section CrashWorkers.
Context `{HC : Crc32} {HCok : Crc32Ok} `{HB : WalEntry.Bincode} {HBok : WalEntry.BincodeOk}.
Context `{HT : IoText}.

(** The engine reads the tables [ts]; [tsd] are on disk, [es] in the log, [d] is
    its durable part. *)
Record kept (c : Config.t) (e : Engine.t) (w : World) (kv : gmap bytes bytes) (ts tsd : tables)
    (d : bytes) (es : list WalEntry.t) : Prop := {
  k_config : config e = c /\ Config.wal_sync_strategy c = EveryWrite;
  k_ok : engine_ok e w ts kv;
  k_rec : recorded c (wal e) w tsd d es;
  k_back : backed e tsd d es
}.

(** How the files stand to the engine while the holder of the lock is at [p]. *)
Definition stands (p : option pc) (e : Engine.t) (w : World) (ts tsd : tables) (d : bytes)
    (es : list WalEntry.t) : Prop :=
  match p with
  | Some (Apply op) =>
      tsd = ts /\ d = wal_bytes es /\ replay es MemTable.new = mem_apply op (memtable e) /\ fits e op
  | Some (Publish r) =>
      d = wal_bytes es /\ memtable e = replay es MemTable.new /\
      exists id, tsd = (id, entries_of (MemTable.data (memtable e))) :: ts /\
        table_ok (StorageManager.data_dir (storage e)) w r (id, entries_of (MemTable.data (memtable e))) /\
        0 <= id < StorageManager.next_sstable_id (storage e)
  | Some Clear =>
      tsd = ts /\ d = wal_bytes es /\ memtable e = replay es MemTable.new /\
      exists id ts', ts = (id, entries_of (MemTable.data (memtable e))) :: ts'
  | Some Truncate => tsd = ts /\ d = wal_bytes es /\ memtable e = MemTable.new /\ covers d ts
  | Some (Unlock Panic) => False
  | _ => tsd = ts /\ memtable e = replay es MemTable.new
  end.

Definition phase (c : Config.t) (p : option pc) (e : Engine.t) (w : World) : Prop :=
  exists kv ts tsd d es, kept c e w kv ts tsd d es /\ stands p e w ts tsd d es.

(** The map the files hold. *)
Definition ahead (p : option pc) (kv : gmap bytes bytes) : gmap bytes bytes :=
  match p with Some (Apply op) => kv_apply op kv | _ => kv end.

(** Outside the actions of a flush and of a write, an engine is [safe]. *)
Lemma safe_phase c e w kv : safe (e, w) kv -> config e = c -> phase c None e w.
Proof.
  intros (Hstr & ts & d & es & Hlg & Hb) <-. cbn [fst snd] in *.
  apply logged_recorded in Hlg as (Hok & Hrec & Hmem). by exists kv, ts, ts, d, es.
Qed.

(** Places where nothing is under way. *)
Definition idle (p : option pc) : bool :=
  match p with
  | Some (Apply _ | Publish _ | Clear | Truncate | Unlock Panic) => false
  | _ => true
  end.

Lemma phase_idle c p q e w : idle p = true -> idle q = true -> phase c p e w -> phase c q e w.
Proof.
  intros Hp Hq (kv & ts & tsd & d & es & Hk & Hs). exists kv, ts, tsd, d, es. split; [done|].
  destruct p as [[| | | | | | | | |[]|]|], q as [[| | | | | | | | |[]|]|]; done.
Qed.

(** ** Actions *)

(** A lookup in the tables, by anyone, and a change of the fault schedule. *)
Lemma phase_same c p e w e' w' :
  phase c p e w -> same_files w w' ->
  (forall ts kv, engine_ok e w ts kv -> engine_ok e' w' ts kv) ->
  config e' = config e -> wal e' = wal e -> memtable e' = memtable e ->
  StorageManager.next_sstable_id (storage e') = StorageManager.next_sstable_id (storage e) ->
  phase c p e' w'.
Proof.
  intros (kv & ts & tsd & d & es & [Hc Hok Hrec Hb] & Hs) Hw Hkeep Ec Ew Em En.
  exists kv, ts, tsd, d, es. pose proof (Hkeep _ _ Hok) as Hok'.
  split.
  { constructor; [by rewrite Ec|done|rewrite Ew; by eapply recorded_same|]. unfold backed in *. by rewrite Ew. }
  unfold stands in *. rewrite Em.
  destruct p as [[| | |op| | |r| | |[]|]|]; try done.
  - destruct Hs as (H1 & H2 & H3 & H4). split_and!; [done..|]. unfold fits in *. by rewrite Em.
  - destruct Hs as (-> & Hmem & id & -> & [H1 H2] & Hid). split_and!; [done|done|]. exists id.
    destruct (ok_dirs _ _ _ _ Hok) as [Hd _], (ok_dirs _ _ _ _ Hok') as [Hd' _].
    rewrite Hd', Ec, <- Hd, En. split_and!; [done| |lia..]. split; [done|]. by eapply reader_ok_same.
Qed.

Lemma phase_append c p now op s p' s' :
  idle p = true -> phase c p (eng s) (wld s) -> quiet (wld s) -> 0 <= now -> fits (eng s) op ->
  follow s (with_wal_lock (on_wal (WalWriter.append now op))) (fun _ => Apply op) Unlock = (p', s') ->
  p' = Apply op /\ phase c (Some p') (eng s') (wld s') /\ quiet (wld s').
Proof.
  intros Hp Hph Hq Hnow Hfit Hact. apply (phase_idle _ _ None) in Hph; [|done..].
  destruct Hph as (kv & ts & tsd & d & es & [[<- Hstr] Hok Hrec Hb] & -> & Hmem).
  destruct (follow_cases _ _ _ _ _ _ _ _ (wp_append_recorded now op _ _ _ _ _ _ Hok Hrec Hnow Hfit) Hact)
    as [_ [(l & -> & (wr & w' & d' & E & Hsyn & Hok' & Hrec') & Hq')|(k & _ & _ & Hn)]]; [|done].
  injection E as E1 E2. rewrite E1, E2 in *. set (x := next_entry_of _ now op) in *.
  destruct Hsyn as [[-> Hbuf]|(_ & n & Hn)]; [|congruence]. split_and!; [done| |by apply Hq'].
  exists kv, ts, ts, (wal_bytes (es ++ [x])), (es ++ [x]).
  split; [constructor; try done; by left|]. split_and!; [done|done| |done].
  rewrite replay_snoc. by rewrite <- Hmem.
Qed.

Lemma phase_apply c op e w :
  phase c (Some (Apply op)) e w -> phase c None (set_memtable (mem_apply op (memtable e)) e) w.
Proof.
  intros (kv & ts & tsd & d & es & [Hc Hok Hrec Hb] & -> & -> & Hr & Hfit).
  exists (kv_apply op kv), ts, ts, (wal_bytes es), es. split; [|split; [done|by rewrite Hr]].
  constructor; try done. by apply ok_apply.
Qed.

Lemma phase_build c p s p' s' :
  idle p = true -> phase c p (eng s) (wld s) -> quiet (wld s) -> ids_left (eng s) ->
  MemTable.is_empty (memtable (eng s)) = false ->
  follow s (on_storage (StorageManager.prepare (memtable (eng s)))) (fun x => Publish x.2) Unlock = (p', s') ->
  critical p' = true /\ phase c (Some p') (eng s') (wld s') /\ quiet (wld s').
Proof.
  intros Hp Hph Hq Hids Hne Hact. apply (phase_idle _ _ None) in Hph; [|done..].
  destruct Hph as (kv & ts & tsd & d & es & [[<- Hstr] Hok Hrec Hb] & -> & Hmem).
  destruct (follow_cases _ _ _ _ _ _ _ _ (wp_prepare_recorded _ _ _ _ _ _ Hok Hrec Hids) Hact)
    as [_ [(x & -> & (Hok' & Hrec' & Hr & st & E & Hdir & Hid) & Hq')|(k & _ & _ & Hn)]]; [|done].
  cbn [fst snd] in *. split_and!; [done| |by apply Hq'].
  destruct Hb as [[-> Hbuf]|[-> _]]; [|by rewrite Hmem in Hne].
  exists kv, ts. eexists _, _, es. rewrite E in *. split; [constructor; try done; by left|].
  split_and!; [done|done|]. exists (flushed_table (eng s)).1. simpl. rewrite Hdir. done.
Qed.

Lemma phase_publish c r e w :
  phase c (Some (Publish r)) e w -> phase c (Some Clear) (published r e) w.
Proof.
  intros (kv & ts & tsd & d & es & [Hc Hok Hrec Hb] & -> & Hmem & id & -> & Hr & Hid).
  eexists kv, _, _, _, es. split; [constructor; try done; by apply ok_published|].
  split_and!; [done|done|done|]. by eexists _, _.
Qed.

Lemma phase_clear c e w :
  phase c (Some Clear) e w -> phase c (Some Truncate) (set_memtable MemTable.new e) w.
Proof.
  intros (kv & ts & tsd & d & es & [Hc Hok Hrec Hb] & -> & -> & Hmem & id & ts' & ->).
  pose proof (recovered_mem_log es (rc_fits _ _ _ _ _ _ Hrec)) as Er. rewrite <- Hmem in Er.
  eexists kv, _, _, _, es. split; [constructor; try done; by apply ok_clear|].
  split_and!; [done|done|done|]. rewrite <- Er. apply covers_flushed. rewrite Er. apply Hok.
Qed.

Lemma phase_truncate c s p' s' :
  phase c (Some Truncate) (eng s) (wld s) -> quiet (wld s) ->
  follow s (with_wal_lock (on_wal WalWriter.truncate)) (fun _ => Unlock (Ok None)) Unlock = (p', s') ->
  critical p' = true /\ phase c (Some p') (eng s') (wld s') /\ quiet (wld s').
Proof.
  intros (kv & ts & tsd & d & es & [[<- Hstr] Hok Hrec Hb] & -> & -> & Hmem & Hcov) Hq Hact.
  destruct (follow_cases _ _ _ _ _ _ _ _ (wp_truncate_recorded _ _ _ _ _ _ Hok Hrec) Hact)
    as [_ [(x & -> & (Hok' & wr & E & Hrec') & Hq')|(k & _ & _ & Hn)]]; [|done].
  cbn [fst snd] in *. split_and!; [done| |by apply Hq']. exists kv, ts, ts, (wal_bytes es), []. rewrite E in *.
  split; [constructor; try done; by right|]. done.
Qed.

Lemma lookup_same c p k s p' s' :
  phase c p (eng s) (wld s) ->
  follow s (on_storage (StorageManager.get k)) (fun v => Done (Ok v)) Done = (p', s') ->
  critical p' = false /\ phase c p (eng s') (wld s') /\ same_files (wld s) (wld s') /\
  (quiet (wld s) -> quiet (wld s')).
Proof.
  intros Hph Hact. pose proof Hph as (kv & ts & tsd & d & es & [_ Hok _ _] & _).
  assert (Hcase : forall ts kv, engine_ok (eng s) (wld s) ts kv ->
    critical p' = false /\ engine_ok (eng s') (wld s') ts kv /\ same_files (wld s) (wld s') /\
    (quiet (wld s) -> quiet (wld s')) /\ exists st, eng s' = set_storage st (eng s) /\
      StorageManager.next_sstable_id st = StorageManager.next_sstable_id (storage (eng s))).
  { intros ts2 kv2 Hok2.
    destruct (follow_cases _ _ _ _ _ _ _ _ (wp_lookup_step k _ _ _ _ Hok2) Hact)
      as [_ [(v & -> & (_ & H1 & H2 & H3) & Hq)|(er & -> & (H1 & H2 & H3) & Hn)]]; split_and!; try done. }
  destruct (Hcase _ _ Hok) as (Hc & _ & Hw & Hq & st & E & Hn). split_and!; [done| |done|done].
  apply (phase_same c p (eng s) (wld s)); try done; [naive_solver|by rewrite E..].
Qed.

(** Where the lock's holder is after an action of a thread at [p]. *)
Definition moved (p p' : pc) (q : option pc) : option pc :=
  if critical p' then Some p' else if critical p then None else q.

Lemma phase_acquire c i s n p' s' :
  phase c None (eng s) (wld s) -> idle (Some n) = true -> acquire i s n = Some (p', s') ->
  phase c (if critical p' then Some p' else None) (eng s') (wld s') /\ wld s' = wld s.
Proof.
  intros Hph Hn Hact. unfold acquire in Hact. destruct (holder s); [done|].
  destruct (write_poisoned (eng s)); injection Hact as <- <-; [done|]. simpl.
  split; [|done]. apply (phase_idle _ None); [done|by destruct (critical n)|done].
Qed.

Lemma act_phase c now i p q s p' s' :
  phase c q (eng s) (wld s) -> quiet (wld s) -> room now p s -> act now i p s = Some (p', s') ->
  (critical p = true -> q = Some p) -> (holder s = None -> q = None) ->
  phase c (moved p p' q) (eng s') (wld s') /\ quiet (wld s').
Proof.
  intros Hph Hqu Hroom Hact Hq Hfree. unfold moved.
  assert (Hacq : forall n, critical p = false -> idle (Some n) = true -> acquire i s n = Some (p', s') ->
    phase c (if critical p' then Some p' else if critical p then None else q) (eng s') (wld s') /\
    quiet (wld s')).
  { intros n Hc Hn Ha. assert (holder s = None) as Hh by (unfold acquire in Ha; by destruct (holder s)).
    rewrite Hc. rewrite (Hfree Hh) in *. destruct (phase_acquire _ _ _ _ _ _ Hph Hn Ha) as [? E]. split; [done|by rewrite E]. }
  destruct p as [[[k|k v|k|]|]|k|op|op|n| |rd| | |res|res]; cbn [act critical] in *;
    try discriminate Hact; try (refine (Hacq _ _ _ Hact); done); try (specialize (Hq eq_refl); subst q);
    try apply (inj Some) in Hact.
  - injection Hact as <- <-. by destruct (MemTable.get k _) as [[]|].
  - injection Hact as <- <-. done.
  - destruct (lookup_same _ _ _ _ _ _ Hph Hact) as (-> & ? & _ & ?). auto.
  - destruct Hroom. destruct (phase_append c (Some (Append op)) now op s p' s' eq_refl Hph) as [-> ?]; done.
  - unfold follow, on_memtable in Hact. cbn [fst snd] in Hact.
    rewrite (surjective_pairing (write_size op _)) in Hact. injection Hact as <- <-. simpl. split; [|done].
    replace (write_size op _).2 with (mem_apply op (memtable (eng s))) by by destruct op.
    apply (phase_idle _ None); [done..|]. by apply phase_apply.
  - injection Hact as <- <-. split; [|done]. destruct (_ <=? n); (eapply phase_idle; [..|exact Hph]; done).
  - destruct (MemTable.is_empty _) eqn:He; apply (inj Some) in Hact.
    + injection Hact as <- <-. split; [|done]. eapply phase_idle; [..|exact Hph]; done.
    + destruct (phase_build c (Some Build) s p' s' eq_refl Hph Hqu Hroom He Hact) as [-> ?]. done.
  - injection Hact as <- <-. split; [|done]. by apply phase_publish.
  - injection Hact as <- <-. split; [|done]. by apply phase_clear.
  - destruct (phase_truncate _ _ _ _ Hph Hqu Hact) as [-> ?]. done.
  - injection Hact as <- <-. simpl. pose proof Hph as (kv & ts & tsd & d & es & _ & Hs).
    destruct res; [..|done|]; (split; [|done]); (eapply phase_idle; [..|exact Hph]; done).
Qed.

(** ** Runs *)

(** Where the holder of the lock is. *)
Definition inside (s : Workers.t) : option pc := i ← holder (sh s); threads s !! i.

Definition files_ok (c : Config.t) (s : Workers.t) : Prop :=
  lock_ok s /\ quiet (wld (sh s)) /\ phase c (inside s) (eng (sh s)) (wld (sh s)).

Lemma inside_holds s i p : lock_ok s -> threads s !! i = Some p -> critical p = true -> inside s = Some p.
Proof. intros Hl Hi Hc. unfold inside. by rewrite (proj2 (Hl i)) by eauto. Qed.

(** A step is an action of a thread, or changes neither the engine nor who is inside. *)
Lemma holder_step s l s' :
  lock_ok s -> step room s l s' ->
  (sh s' = sh s /\ inside s' = inside s) \/
  exists now i p p', threads s !! i = Some p /\ threads s' !! i = Some p' /\ room now p (sh s) /\
    act now i p (sh s) = Some (p', sh s') /\ inside s' = moved p p' (inside s) /\
    (critical p = true -> inside s = Some p) /\ (holder (sh s) = None -> inside s = None).
Proof.
  intros Hl Hs. destruct Hs as [i c s T Hi|now i p s T p' s' Hi Hroom Hact|i r s T Hi].
  - left. split; [done|]. unfold inside; simpl.
    destruct (holder s) as [j|] eqn:Hj; [|done]. apply Hl in Hj as (q & Hq & _). simpl in *.
    by rewrite lookup_insert_ne by congruence.
  - right. assert (Hp : critical p = true -> holder s = Some i) by (intros; apply Hl; eauto).
    destruct (act_lock _ _ _ _ _ _ Hact Hp) as (Hh & _ & _). exists now, i, p, p'. simpl.
    split_and!; [done|apply lookup_insert_eq|done|done| |intros Hc; by apply (inside_holds _ i)|
      unfold inside; by simpl; intros ->].
    unfold moved, inside. simpl. rewrite Hh. destruct (critical p'); simpl; [by rewrite lookup_insert_eq|].
    destruct (critical p) eqn:Hc; [done|]. destruct (holder s) as [j|] eqn:Hj; [|done]. simpl.
    apply Hl in Hj as (q & Hq & Hcq). simpl in *. rewrite lookup_insert_ne; congruence.
  - left. split; [done|]. unfold inside; simpl.
    destruct (holder s) as [j|] eqn:Hj; [|done]. apply Hl in Hj as (q & Hq & Hcq). simpl in *.
    rewrite lookup_delete_ne; [done|]. intros ->. rewrite Hi in Hq. by injection Hq as <-.
Qed.

Lemma files_step c s l s' : files_ok c s -> step room s l s' -> files_ok c s'.
Proof.
  intros (Hl & Hqu & Hph) Hs. split; [by eapply lock_step|].
  destruct (holder_step _ _ _ Hl Hs) as [[-> ->]|(now & i & p & p' & _ & _ & Hroom & Hact & -> & H1 & H2)]; [done|].
  by destruct (act_phase c now i p _ (sh s) p' (sh s') Hph Hqu Hroom Hact H1 H2).
Qed.

(** ** The machine stops *)

(** Replaying the log gives the map the files hold. *)
Lemma kept_view c p e w kv ts tsd d es :
  kept c e w kv ts tsd d es -> stands p e w ts tsd d es ->
  mem_ok (replay es MemTable.new) /\ forall k, view (replay es MemTable.new) tsd k = ahead p kv !! k.
Proof.
  intros [_ Hok Hrec _] Hs. pose proof (ok_view _ _ _ _ Hok) as Hv. pose proof (ok_mem _ _ _ _ Hok) as Hme.
  assert (Hidle : tsd = ts /\ memtable e = replay es MemTable.new ->
    mem_ok (replay es MemTable.new) /\ forall k, view (replay es MemTable.new) tsd k = kv !! k)
    by (intros [-> <-]; done).
  destruct p as [[| | |op| | |r| | |[]|]|]; try by apply Hidle.
  - destruct Hs as (-> & _ & -> & Hfit). split; [by apply mem_apply_ok|]. apply view_apply; [apply Hme|done].
  - destruct Hs as (_ & <- & id & -> & _). split; [done|]. intros k. rewrite view_over_flushed. apply Hv.
  - destruct Hs as (-> & _ & <- & _). done.
  - destruct Hs as (-> & -> & Hmem & Hm & Hcov). rewrite recovered_mem_log in Hm, Hcov by apply Hrec.
    split; [done|]. intros k. rewrite Hcov. simpl. by rewrite <- Hv, Hmem.
Qed.

Lemma kept_next_id c p e w kv ts tsd d es :
  kept c e w kv ts tsd d es -> stands p e w ts tsd d es -> ids_left e -> next_id_of tsd < 2 ^ 64 - 1.
Proof.
  intros [_ Hok _ _] Hs Hids. pose proof (next_id_left e w ts kv Hok Hids) as Hn.
  destruct p as [[| | |op| | |r| | |[]|]|]; try done; try by (destruct Hs as (-> & _)).
  destruct Hs as (_ & _ & id & -> & _ & Hid). unfold ids_left in Hids. simpl. lia.
Qed.

Lemma phase_recovers c p e w w2 :
  phase c p e w -> halted w w2 -> ids_left e ->
  exists kv ts, engine_ok e w ts kv /\ recovers c w2 (ahead p kv).
Proof.
  intros (kv & ts & tsd & d & es & Hk & Hs) Hh Hids. exists kv, ts. split; [apply Hk|].
  destruct (kept_view _ _ _ _ _ _ _ _ _ Hk Hs) as [Hm Hv].
  pose proof (kept_next_id _ _ _ _ _ _ _ _ _ Hk Hs Hids) as Hn. destruct Hk as [[<- _] Hok Hrec Hb].
  eapply backed_recovers; [done|eapply engine_disk; [done|apply Hrec]|done..].
Qed.

(** The truncation is cut off: the writes are in the newest table, and the log
    comes back with them or empty. *)
Lemma truncate_torn_recovers c e w kv ts d es wr w1 w2 :
  kept c e w kv ts ts d es -> stands (Some Truncate) e w ts ts d es ->
  frame (wal_path c) w w1 -> truncate_failed (wal_path c) d (wal_bytes es) (wal e) (wr, w1) ->
  halted w1 w2 -> ids_left e -> recovers c w2 kv.
Proof.
  intros Hk Hs Hfr Hfail Hc Hids. pose proof (kept_next_id _ _ _ _ _ _ _ _ _ Hk Hs Hids) as Hn.
  destruct (kept_view _ _ _ _ _ _ _ _ _ Hk Hs) as [Hm Hv]. cbn [ahead] in Hv.
  destruct Hs as (_ & -> & Hmem & Hcov). destruct Hk as [[<- _] Hok Hrec Hb].
  assert (Hf : exists x, get_file (wal_path (config e)) w1 = Some (mkFile x (wal_bytes es)) /\
    (wal_bytes es = x \/ x = [])).
  { destruct Hfail as [[(x & (_ & Hf & _) & Hbuf) Hkeep]|Hf]; [|by eauto]. exists x. split; [done|].
    cbn [fst snd] in *. destruct Hb as [[_ Hbf]|[-> _]].
    - left. by rewrite Hkeep, app_nil_r in Hbuf.
    - apply app_eq_nil in Hbuf as [-> _]. by right. }
  destruct Hf as (x & Hf & Hx).
  pose proof (disk_frame_wal _ w w1 ts _ Hfr Hf (engine_disk e w ts ts kv Hok (rc_disk _ _ _ _ _ _ Hrec))) as Hd1.
  destruct (halted_disk _ w1 w2 ts Hc Hd1) as [Hd2 Ht2]; [eapply durable_tables_wal; [done|apply Hrec]|].
  destruct (halted_log _ w1 w2 x _ Hc Hf Hx) as [E Ed].
  assert (Hlog : log_content (config e) w2 = wal_bytes es \/ log_content (config e) w2 = [])
    by (destruct E as [E|E], Hx as [Hx| ->]; subst; auto).
  exists ts. split_and!; [done|done|done|..].
  - destruct Hlog as [->| ->]; [by rewrite recovered_mem_log by apply Hrec|apply mem_new_ok].
  - intros k. destruct Hlog as [->| ->]; [by rewrite recovered_mem_log by apply Hrec|].
    rewrite recovered_mem_nil, <- Hmem. apply Hok.
  - destruct Ed as [Ed|[E1 E2]]; [by left|]. rewrite E1, E2. destruct Hx as [->| ->]; auto.
Qed.

Definition failed (p : pc) : bool :=
  match p with Unlock (Err _) | Done (Err _) => true | _ => false end.

(** How the files are left when the action at [p] is cut off.  A kill in the middle
    of an append would leave an entry that is not synced. *)
Definition severed (p : pc) (w w2 : World) : Prop :=
  match p with Append _ => crash w w2 | _ => halted w w2 end.

(** An action other than building a table is cut off in one of its system calls. *)
Lemma torn_recovers c now i p q s p' s' w2 :
  phase c q (eng s) (wld s) -> room now p s -> act now i p s = Some (p', s') -> failed p' = true ->
  p <> Build -> (critical p = true -> q = Some p) -> ids_left (eng s) -> severed p (wld s') w2 ->
  exists kv ts, engine_ok (eng s) (wld s) ts kv /\
    (recovers c w2 (ahead q kv) \/ exists op, p = Append op /\ recovers c w2 (kv_apply op kv)).
Proof.
  intros Hph Hroom Hact Hfail Hnb Hq Hids Hc.
  assert (Hsame : same_files (wld s) (wld s') -> exists kv ts, engine_ok (eng s) (wld s) ts kv /\
    (recovers c w2 (ahead q kv) \/ exists op, p = Append op /\ recovers c w2 (kv_apply op kv))).
  { intros Hw. destruct (phase_recovers c q _ _ w2 Hph) as (kv & ts & ? & ?); [|done|by eauto].
    apply (halted_same _ _ _ Hw). destruct p; try done; by left. }
  assert (Hacq : forall n, acquire i s n = Some (p', s') -> same_files (wld s) (wld s')).
  { intros n Ha. unfold acquire in Ha. destruct (holder s); [done|]. injection Ha as Ha.
    destruct (write_poisoned _); by injection Ha as <- <-. }
  destruct p as [[[k|k v|k|]|]|k|op|op|n| |rd| | |res|res]; cbn [act critical] in *; try done;
    try (by eapply Hsame, Hacq); try (specialize (Hq eq_refl); subst q); try apply (inj Some) in Hact.
  - injection Hact as <- <-. by destruct (MemTable.get k _) as [[]|].
  - injection Hact as <- <-. done.
  - destruct (lookup_same _ _ _ _ _ _ Hph Hact) as (_ & _ & Hw & _). by apply Hsame.
  - destruct Hph as (kv & ts & tsd & d & es & [[<- Hstr] Hok Hrec Hb] & -> & Hmem), Hroom as [Hnow Hfit].
    assert (Hlg : logged (eng s) (wld s) ts kv d es) by by apply logged_recorded.
    destruct (follow_cases _ _ _ _ _ _ _ _ (wp_append_torn now op _ _ _ _ _ _ Hlg Hb Hids Hnow Hfit) Hact)
      as [_ [(l & -> & _)|(k & -> & (_ & Hr) & _)]]; [done|].
    exists kv, ts. split; [done|]. destruct (Hr w2 Hc); eauto.
  - unfold follow, on_memtable in Hact. cbn [fst snd] in Hact.
    rewrite (surjective_pairing (write_size op _)) in Hact. by injection Hact as <- <-.
  - injection Hact as <- <-. by destruct (_ <=? n).
  - by injection Hact as <- <-.
  - by injection Hact as <- <-.
  - destruct Hph as (kv & ts & tsd & d & es & Hk & Hs). pose proof Hs as (-> & _).
    destruct (follow_cases _ _ _ _ _ _ _ _ (wp_truncate_recorded _ _ _ _ _ _ (k_ok _ _ _ _ _ _ _ _ Hk)
      ltac:(rewrite (proj1 (k_config _ _ _ _ _ _ _ _ Hk)); apply Hk)) Hact)
      as [_ [(l & -> & _)|(k & -> & (Hfr & Hf) & _)]]; [done|].
    rewrite (proj1 (k_config _ _ _ _ _ _ _ _ Hk)) in Hfr, Hf.
    exists kv, ts. split; [apply Hk|left]. by eapply truncate_torn_recovers.
  - injection Hact as <- <-. by apply Hsame.
Qed.

(** The building of a table is cut off: without its file the directory is as before. *)
Lemma build_torn_recovers c i s p' s' w2 now :
  phase c (Some Build) (eng s) (wld s) -> room now Build s -> act now i Build s = Some (p', s') ->
  failed p' = true -> halted (wld s') w2 ->
  exists kv ts, engine_ok (eng s) (wld s) ts kv /\ recovers c (tidy (wld s) w2) kv.
Proof.
  intros Hph Hids Hact Hfail Hh. refine (phase_recovers c _ _ _ _ Hph _ Hids).
  destruct Hph as (kv & ts & tsd & d & es & [[<- Hstr] Hok Hrec Hb] & -> & Hmem). cbn [act] in Hact.
  destruct (MemTable.is_empty _); apply (inj Some) in Hact; [by injection Hact as <- <-|].
  destruct (follow_cases _ _ _ _ _ _ _ _ (wp_prepare_recorded _ _ _ _ _ _ Hok Hrec Hids) Hact)
    as [_ [(x & -> & _)|(k & -> & Hfr & _)]]; [done|].
  eapply halted_tidy; [exact Hfr| |exact Hh].
  pose proof (ok_storage _ _ _ _ Hok) as (_ & Hbelow & _ & Hnext). unfold room, ids_left in Hids.
  apply (table_absent _ _ ts); [eapply engine_disk; [done|apply Hrec]|done|simpl; lia].
Qed.

(** Another schedule of faults for what comes next. *)
Definition with_faults (fs : list (option fault)) (s : shared) : shared :=
  mkShared (eng s) (mkWorld (files (wld s)) fs) (holder s).

(** What is left of the files when the machine stops: between two actions, by a
    crash or a kill; inside an action, at a system call that does not come back,
    possibly with part of its bytes written; or inside the building of a table, whose
    unfinished file is then removed. *)
Inductive halts (s : Workers.t) : World -> Prop :=
| h_between w2 : halted (wld (sh s)) w2 -> halts s w2
| h_inside now i p fs p' s' w2 :
    threads s !! i = Some p -> p <> Build -> room now p (sh s) ->
    act now i p (with_faults fs (sh s)) = Some (p', s') -> failed p' = true ->
    severed p (wld s') w2 -> halts s w2
| h_building now i fs p' s' w2 :
    threads s !! i = Some Build -> room now Build (sh s) ->
    act now i Build (with_faults fs (sh s)) = Some (p', s') -> failed p' = true ->
    halted (wld s') w2 -> halts s (tidy (wld (sh s)) w2).

Lemma engine_ok_same e w w' ts kv : engine_ok e w ts kv -> same_files w w' -> engine_ok e w' ts kv.
Proof.
  intros [H1 (H2 & H3 & H4 & H5) H6 H7 H8 H9] Hw. constructor; try done; [|by eapply wal_on_same].
  split; [by eapply tables_ok_same|]. split; [done|]. split; [by eapply no_dirs_same|done].
Qed.

(** A well-formed engine stands for one map. *)
Lemma engine_map_unique e w ts kv ts' kv' :
  engine_ok e w ts kv -> engine_ok e w ts' kv' -> kv = kv'.
Proof.
  intros H H'. set (w0 := mkWorld (files w) []). assert (Hq : quiet w0) by constructor.
  apply (engine_ok_same _ _ w0) in H; [|done]. apply (engine_ok_same _ _ w0) in H'; [|done].
  apply map_eq. intros k.
  destruct (wp_quiet _ _ _ _ (wp_get e w0 ts kv k H) Hq) as (r & s & E & (-> & _) & _).
  destruct (wp_quiet _ _ _ _ (wp_get e w0 ts' kv' k H') Hq) as (r' & s' & E' & (-> & _) & _).
  rewrite E in E'. congruence.
Qed.

(** What the files hold is what the threads see, perhaps with the write that the
    holder of the lock has begun. *)
Lemma halts_recovers c s w2 :
  files_ok c s -> halts s w2 -> ids_left (eng (sh s)) ->
  exists kv ts, engine_ok (eng (sh s)) (wld (sh s)) ts kv /\
    (recovers c w2 kv \/ exists i op, recovers c w2 (kv_apply op kv) /\
       (threads s !! i = Some (Append op) \/ threads s !! i = Some (Apply op))).
Proof.
  intros (Hl & Hqu & Hph) Hh Hids.
  assert (Hahead : forall kv, recovers c w2 (ahead (inside s) kv) ->
    recovers c w2 kv \/ exists i op, recovers c w2 (kv_apply op kv) /\
       (threads s !! i = Some (Append op) \/ threads s !! i = Some (Apply op))).
  { intros kv Hr. destruct (inside s) as [[| | |op| | | | | | |]|] eqn:E; try by left.
    right. unfold inside in E. destruct (holder (sh s)) as [i|]; [|done]. simpl in *. eauto 6. }
  assert (Hsame : forall fs, phase c (inside s) (eng (sh s)) (wld (with_faults fs (sh s)))).
  { intros fs. apply (phase_same c _ (eng (sh s)) (wld (sh s))); try done. intros ts kv Hok. by eapply engine_ok_same. }
  destruct Hh as [w2 Hh|now i p fs p' s' w2 Hi Hnb Hroom Hact Hfail Hc|now i fs p' s' w2 Hi Hroom Hact Hfail Hh].
  - destruct (phase_recovers c _ _ _ w2 Hph Hh Hids) as (kv & ts & Hok & Hr). exists kv, ts. auto.
  - assert (Hw : same_files (wld (sh s)) (wld (with_faults fs (sh s)))) by done.
    destruct (torn_recovers c now i p (inside s) (with_faults fs (sh s)) p' s' w2) as (kv & ts & Hok & Hr);
      try done; [by intros; apply (inside_holds _ i)|].
    exists kv, ts. split; [by apply (engine_ok_same _ _ (wld (sh s))) in Hok|].
    destruct Hr as [Hr|(op & -> & Hr)]; [by apply Hahead|]. right. eauto 6.
  - specialize (Hsame fs). rewrite (inside_holds _ i Build) in Hsame by done.
    destruct (build_torn_recovers c i (with_faults fs (sh s)) p' s' w2 now) as (kv & ts & Hok & Hr); try done.
    exists kv, ts. split; [by apply (engine_ok_same _ _ (wld (sh s))) in Hok|]. by left.
Qed.

(** The register can take the write a thread has begun. *)
Lemma register_begun w0 s r i op :
  inv w0 s r -> threads s !! i = Some (Append op) \/ threads s !! i = Some (Apply op) ->
  exists r', run (Register.step (~ quiet w0)) r [] r' /\ Register.map r' = kv_apply op (Register.map r).
Proof.
  intros (ts & _ & _ & Hpool) Hi. destruct r as [kv P]. simpl in *.
  assert (exists c, P !! i = Some (c, []) /\ writes c = Some op) as (c & HP & Hc).
  { destruct Hi as [E|E]; destruct (pool_lookup _ _ _ _ _ _ Hpool E) as ([c l] & HP & Hth & _);
      simpl in Hth; [destruct Hth as [? ->]|destruct Hth as (? & -> & _)]; eauto. }
  eexists. split; [apply (run_one _ _ None); by apply Register.r_apply|done].
Qed.

(** Threads without faults: a history of the map, and no fault later. *)
Lemma run_history e w ts kv tr s ts1 kv1 :
  engine_ok e w ts kv -> quiet w -> run (step room) (resting e w) tr s ->
  engine_ok (eng (sh s)) (wld (sh s)) ts1 kv1 ->
  quiet (wld (sh s)) /\ exists r, inv w s r /\ Register.map r = kv1 /\
    run (Register.step (~ quiet w)) (Register.mk kv ∅) tr r.
Proof.
  intros Hok Hq Hrun Hok1.
  destruct (forward_simulation _ (Register.step (~ quiet w)) (inv w) (step_simulated w) _ _ _
    (Register.mk kv ∅) Hrun) as (r & Hr & Hinv).
  { exists ts. split_and!; [done..|]. intros i. simpl. by rewrite !lookup_empty. }
  pose proof Hinv as (ts' & Hok' & Hqs & _). split; [by apply Hqs|]. exists r.
  split_and!; [done| |done]. by eapply engine_map_unique.
Qed.

(** The history in which a write that has begun took effect. *)
Lemma begun_atomic e w ts kv tr s i op ts1 kv1 :
  engine_ok e w ts kv -> quiet w -> run (step room) (resting e w) tr s ->
  threads s !! i = Some (Append op) \/ threads s !! i = Some (Apply op) ->
  engine_ok (eng (sh s)) (wld (sh s)) ts1 kv1 ->
  exists a, run (Atomic.step False) (Atomic.mk kv ∅) tr a /\ Atomic.map a = kv_apply op kv1.
Proof.
  intros Hok Hq Hrun Hi Hok1.
  destruct (run_history _ _ _ _ _ _ _ _ Hok Hq Hrun Hok1) as (_ & r & Hinv & <- & Hr).
  destruct (register_begun w s r i op Hinv Hi) as (r' & Hr' & E).
  destruct (Register.register_atomic (~ quiet w) kv tr r') as (a & Ha & Hrun').
  { rewrite <- (app_nil_r tr). by eapply run_trans. }
  exists a. rewrite Ha. split; [|done]. by eapply Atomic.run_mono; [|exact Hrun'].
Qed.

Lemma halt_atomic e w kv tr s w2 :
  safe (e, w) kv -> quiet w -> run (step room) (resting e w) tr s ->
  halts s w2 -> ids_left (eng (sh s)) ->
  exists a, run (Atomic.step False) (Atomic.mk kv ∅) tr a /\ recovers (config e) w2 (Atomic.map a).
Proof.
  intros Hsafe Hq Hrun Hh Hids.
  assert (Hf : files_ok (config e) s).
  { eapply run_invariant; [|exact Hrun|]; [eauto using files_step|].
    split_and!; [|done|by eapply safe_phase]. intros i. simpl. rewrite lookup_empty. naive_solver. }
  destruct (halts_recovers _ _ _ Hf Hh Hids) as (kv1 & ts1 & Hok1 & Hr1).
  assert (exists ts, engine_ok e w ts kv) as [ts Hok].
  { destruct Hsafe as (_ & ts & d & es & Hlg & _). exists ts. apply Hlg. }
  destruct Hr1 as [Hr1|(i & op & Hr1 & Hi)].
  - destruct (run_history _ _ _ _ _ _ _ _ Hok Hq Hrun Hok1) as (_ & r & _ & <- & Hr).
    destruct (Register.register_atomic _ kv tr r Hr) as (a & Ha & Hrun').
    exists a. rewrite Ha. split; [|done]. by eapply Atomic.run_mono; [|exact Hrun'].
  - destruct (begun_atomic _ _ _ _ _ _ _ _ _ _ Hok Hq Hrun Hi Hok1) as (a & Ha & E). exists a. by rewrite E.
Qed.
End CrashWorkers.
