(* ===== verification/Loss.v ===== *)
(** How much a crash costs under [EveryNEntries(n)]: as long as no table has been
    written, an engine opened on an empty directory comes back with all but fewer
    than [n] of its acknowledged writes, in order. *)

From Stdlib Require Import ZArith Lia.
From stdpp Require Import base gmap list strings.
From S2P Require Import Prelude Errors BTreeMap Memtable Protocol World WorldFacts Config Wal.
From S2P Require Import WalFacts WalWriterFacts Sstable SstableFacts SstableReaderFacts.
From S2P Require Import Storage StorageFacts Engine EngineFacts Recovery Durability Crash LogLoss.
Open Scope list_scope.
Open Scope Z_scope.

Import Engine.

Section Loss.
Context `{HC : Crc32} {HCok : Crc32Ok} `{HB : WalEntry.Bincode} {HBok : WalEntry.BincodeOk}.
Context `{HT : IoText} `{HSt : Status} {HStok : StatusOk}.

(** The log's bookkeeping, on an engine. *)
Definition log_bounded (e : t) (w : World) (es : list WalEntry.t) : Prop :=
  wal_bounded (wal_path (config e)) es (wal e, w).

Lemma append_run now op e w a s :
  wal_poisoned e = false -> with_wal_lock (on_wal (WalWriter.append now op)) (e, w) = (Ok a, s) ->
  exists x, WalWriter.append now op (wal e, w) = (Ok a, x) /\ s = (set_wal x.1 e, x.2).
Proof.
  unfold with_wal_lock, locked, on_wal, zoom. cbn [fst snd]. intros ->.
  destruct (WalWriter.append now op (wal e, w)) as [[]  x]; try done. intros [= <- <-]. eauto.
Qed.

Lemma wp_write_bounded now op e w ts kv d es :
  logged e w ts kv d es -> log_bounded e w es -> ids_left e -> 0 <= now -> fits e op ->
  wp (write now op) (e, w)
    (fun _ s => log_bounded s.1 s.2 (es ++ [next_entry_of (wal e) now op]) \/
       memtable s.1 = MemTable.new) (fun _ => True).
Proof.
  intros Hlg Hb Hids Hnow Hfit. destruct (ok_locks _ _ _ _ (lg_ok _ _ _ _ _ _ Hlg)) as [Hl1 Hl2].
  rewrite write_body. apply wp_locked; [done|].
  eapply wp_bind; [apply wp_strengthen; [by apply wp_append_logged|]; intros a s; by apply append_run| |done].
  intros a s ((wr & w1 & d' & -> & _ & Hlg') & x & Happ & Es). injection Es as -> ->.
  destruct (wal_bounded_append _ _ _ _ _ _ _ Hb Hnow (proj1 Hfit) Happ) as (_ & Hb' & _). cbn [fst] in Hb'.
  eapply wp_bind_step.
  { unfold on_memtable. cbn [fst]. change (memtable (set_wal x.1 e)) with (memtable e).
    rewrite (surjective_pairing (write_size op (memtable e))). reflexivity. }
  { done. }
  replace (write_size op (memtable e)).2 with (mem_apply op (memtable e)) by by destruct op.
  set (e2 := set_memtable _ _) in *. unfold flush_if_full. apply wp_bind_gets. cbn [snd].
  destruct (_ <=? _).
  2: { apply wp_ret. left. unfold log_bounded. simpl. by rewrite <- surjective_pairing. }
  eapply wp_conseq; [apply (wp_flush_logged e2 x.2 ts _ d' _ Hlg' Hids); apply mem_apply_nonempty| |done].
  intros _ s (Hlg2 & _). right. exact (lg_mem _ _ _ _ _ _ Hlg2).
Qed.

(** The state after the acknowledged operations [ops]. *)
Definition tracked (s : t * World) (ops : list Operation.t) : Prop :=
  exists ts d es, logged s.1 s.2 ts (kv_run ops ∅) d es /\
    (ts = [] -> log_bounded s.1 s.2 es /\ WalEntry.operation <$> es = ops /\
       forall k, mem_ok (replay (take k es) MemTable.new)).

Lemma log_bounded_same e w e' w' es :
  log_bounded e w es -> same_files w w' -> config e' = config e -> wal e' = wal e -> log_bounded e' w' es.
Proof.
  unfold log_bounded. intros ((c & (Hp & Hf & Hpos) & Hc) & (c1 & d1 & (Hp1 & Hf1 & Hpos1) & Hpre) & Hrest) Hw -> ->.
  cbn [fst snd] in *. split; [|split; [|done]].
  - exists c. split; [|done]. split_and!; [done| |done]. by rewrite (get_file_same _ w w').
  - exists c1, d1. split; [|done]. split_and!; [done| |done]. by rewrite (get_file_same _ w w').
Qed.

Lemma tracked_write now op s s' ops :
  tracked s ops -> ids_left s.1 -> 0 <= now -> fits s.1 op -> write now op s = (Ok tt, s') ->
  tracked s' (ops ++ [op]) /\ config s'.1 = config s.1.
Proof.
  destruct s as [e w]. intros (ts & d & es & Hlg & Hb) Hids Hnow Hfit Hrun. cbn [fst snd] in *.
  pose proof (wp_ok _ _ _ _ _ _ (wp_write_logged now op e w ts _ _ es Hlg Hids Hnow Hfit) Hrun)
    as (d' & wr & _ & Hcfg & Hlg'). split; [|done].
  unfold tracked, kv_run. rewrite foldl_app. destruct Hlg' as [[Hlg' _]|[id Hlg']].
  - exists ts, d', (es ++ [next_entry_of (wal e) now op]). split; [done|]. intros ->.
    destruct (Hb eq_refl) as (Hb1 & <- & Hm1). split_and!; [|by rewrite fmap_app|].
    2: { intros k. destruct (decide (k <= length es)%nat).
         - by rewrite take_app_le.
         - rewrite take_ge by (rewrite length_app; simpl; lia).
           rewrite <- (lg_mem _ _ _ _ _ _ Hlg'). apply (lg_ok _ _ _ _ _ _ Hlg'). }
    destruct (wp_ok _ _ _ _ _ _ (wp_write_bounded now op e w [] _ _ es Hlg Hb1 Hids Hnow Hfit) Hrun) as [|Hm]; [done|].
    rewrite (lg_mem _ _ _ _ _ _ Hlg'), replay_snoc in Hm.
    pose proof (mem_apply_nonempty op (replay es MemTable.new)) as Hne. change (WalEntry.operation _) with op in Hm.
    rewrite Hm in Hne. done.
  - eexists _, d', []. split; [exact Hlg'|done].
Qed.

Lemma tracked_get k s s' res ops :
  tracked s ops -> get k s = (Ok res, s') -> tracked s' ops /\ config s'.1 = config s.1.
Proof.
  destruct s as [e w]. intros (ts & d & es & Hlg & Hb) Hrun. cbn [fst snd] in *.
  pose proof (wp_ok _ _ _ _ _ _ (wp_get_logged e w ts _ _ es k Hlg) Hrun) as (_ & Hlg' & Hcfg & Hwal).
  pose proof (wp_ok _ _ _ _ _ _ (wp_get e w ts _ k (lg_ok _ _ _ _ _ _ Hlg)) Hrun) as (_ & _ & Hw & _).
  split; [|done]. exists ts, d, es. split; [done|]. intros Ht. destruct (Hb Ht) as [H1 H2].
  split; [|done]. by eapply log_bounded_same.
Qed.

Lemma flush_unlocked e w ts kv d es s' :
  logged e w ts kv d es -> flush (e, w) = (Ok tt, s') -> flush_internal (e, w) = (Ok tt, s').
Proof.
  intros Hlg Hrun. unfold flush, with_write_lock, locked in Hrun. cbn [fst] in Hrun.
  rewrite (proj1 (ok_locks _ _ _ _ (lg_ok _ _ _ _ _ _ Hlg))) in Hrun.
  destruct (flush_internal (e, w)) as [[[]|er| |] s1]; by simplify_eq.
Qed.

Lemma tracked_flush s s' ops :
  tracked s ops -> ids_left s.1 -> flush s = (Ok tt, s') -> tracked s' ops /\ config s'.1 = config s.1.
Proof.
  destruct s as [e w]. intros (ts & d & es & Hlg & Hb) Hids Hrun. cbn [fst snd] in *.
  pose proof (flush_unlocked _ _ _ _ _ _ _ Hlg Hrun) as Hfl.
  destruct (MemTable.is_empty (memtable e)) eqn:Hemp.
  - unfold flush_internal in Hfl. rewrite (bind_ok (gets _) _ _ (memtable e) (e, w)), Hemp in Hfl by done.
    injection Hfl as <-. split; [|done]. by exists ts, d, es.
  - destruct (wp_ok _ _ _ _ _ _ (wp_flush_logged e w ts _ _ es Hlg Hids Hemp) Hfl) as [Hlg' Hcfg].
    split; [|done]. eexists _, d, []. split; [exact Hlg'|done].
Qed.

(** A flush leaves an empty log over the same map. *)
Lemma flush_empties e w ts kv d es s' :
  logged e w ts kv d es -> ids_left e -> flush (e, w) = (Ok tt, s') ->
  exists ts', logged s'.1 s'.2 ts' kv d [] /\ config s'.1 = config e.
Proof.
  intros Hlg Hids Hrun. pose proof (flush_unlocked _ _ _ _ _ _ _ Hlg Hrun) as Hfl.
  destruct (MemTable.is_empty (memtable e)) eqn:Hemp.
  - unfold flush_internal in Hfl. rewrite (bind_ok (gets _) _ _ (memtable e) (e, w)), Hemp in Hfl by done.
    injection Hfl as <-. exists ts. split; [|done]. assert (es = []) as ->; [|done].
    destruct es as [|x es _] using rev_ind; [done|]. rewrite (lg_mem _ _ _ _ _ _ Hlg), replay_snoc in Hemp.
    by rewrite mem_apply_nonempty in Hemp.
  - eexists. exact (wp_ok _ _ _ _ _ _ (wp_flush_logged e w ts _ _ es Hlg Hids Hemp) Hfl).
Qed.

Lemma acked_tracked s ops0 ops s' :
  acked s ops s' -> tracked s ops0 -> tracked s' (ops0 ++ ops) /\ config s'.1 = config s.1.
Proof.
  intros H Hs. induction H as [s|s ops s1 now op s2 _ IH|s ops s1 k res s2 _ IH Hg|s ops s1 s2 _ IH].
  - by rewrite app_nil_r.
  - destruct (IH Hs) as [J1 <-]. rewrite app_assoc. by eapply tracked_write.
  - destruct (IH Hs) as [J1 <-]. by eapply tracked_get.
  - destruct (IH Hs) as [J1 <-]. by eapply tracked_flush.
Qed.

Lemma open_empty_tracked c w e w' :
  files w = ∅ -> loss_bound (Config.wal_sync_strategy c) < 2 ^ 64 -> open c w = (Ok e, w') ->
  tracked (e, w') [] /\ config e = c.
Proof.
  intros Hw Hb Hrun. destruct (empty_disk c w Hw) as [Hd Ht]. destruct (log_empty c w Hw) as [E1 E2].
  pose proof (wp_engine_open c w [] ∅ Hd ltac:(done)
    ltac:(rewrite E1; apply mem_new_ok) ltac:(by rewrite E1)) as Hop. cbv zeta in Hop.
  destruct (wp_ok _ _ _ _ _ _ Hop Hrun) as [Hfr Ht'].
  specialize (Ht' Ht). rewrite E1, E2 in *. pose proof (fresh_config _ _ _ _ _ _ Hfr) as Hc. split; [|done].
  exists [], [], []. split; [by eapply fresh_logged|]. intros _.
  split_and!; [|done|intros k; rewrite take_nil; apply mem_new_ok].
  destruct Hfr as [_ _ _ Hlog Hst Hcnt Hlsn _]. unfold log_bounded, wal_bounded. cbn [fst snd].
  rewrite Hcnt, Hst, Hlsn, Hc. split_and!; try done.
  - destruct Hlog as (c0 & Hat & Hc0). exists c0, []. split; [done|apply prefix_nil].
  - unfold loss_bound. destruct (Config.wal_sync_strategy c); lia.
Qed.

(** Replaying entries over tables gives their map with the entries' writes. *)
Lemma replay_over es ts kv :
  (forall k, view MemTable.new ts k = kv !! k) ->
  MemTable.inv (replay es MemTable.new) /\
  forall k, view (replay es MemTable.new) ts k = kv_run (WalEntry.operation <$> es) kv !! k.
Proof.
  intros Hv. induction es as [|x es [IH1 IH2]] using rev_ind; [split; [apply MemTable.inv_new|done]|].
  rewrite replay_snoc, fmap_app. split; [by apply mem_apply_inv|].
  unfold kv_run. rewrite foldl_app. by apply view_apply.
Qed.

Lemma replay_kv es k :
  view (replay es MemTable.new) [] k = kv_run (WalEntry.operation <$> es) ∅ !! k.
Proof. by apply replay_over. Qed.

(** A crash of an engine whose log has just been emptied: the log is empty, or its
    durable part is back and is replayed over the tables. *)
Lemma emptied_reopen e w ts kv d w2 :
  logged e w ts kv d [] -> crash w w2 -> quiet w2 -> ids_left e -> mem_ok (recovered_mem d) ->
  (log_content (config e) w2 = [] \/ log_content (config e) w2 = d) /\
  exists e3 w3 ts3, open (config e) w2 = (Ok e3, w3) /\ quiet w3 /\
    engine_ok e3 w3 ts3 (kv_run (WalEntry.operation <$> (scan (log_content (config e) w2)).1) kv).
Proof.
  intros [Hok (c & (Hp & Hf & _) & Hc0) _ Hmem Hdisk Htab _] Hc Hq Hids Hd.
  apply app_eq_nil in Hc0 as [-> _].
  destruct (crash_disk (config e) w w2 ts Hc (engine_disk e w ts ts _ Hok Hdisk) Htab) as [Hd2 _].
  destruct (crash_file _ _ _ _ Hc Hf) as (c' & Hf' & Hcc).
  assert (El : log_content (config e) w2 = c') by (unfold log_content; by rewrite Hf'). rewrite El.
  assert (Hc' : c' = [] \/ c' = d).
  { destruct Hcc as [Hcc|[H1 _]]; [by right|left]. by apply prefix_nil_inv. }
  split; [done|].
  assert (Hv : forall k, view MemTable.new ts k = kv !! k)
    by (intros k; rewrite <- (ok_view _ _ _ _ Hok k), Hmem; done).
  pose proof (proj2 (replay_over (scan c').1 ts kv Hv)) as Hvk.
  assert (Hm : mem_ok (recovered_mem c')) by (destruct Hc' as [-> | ->]; [apply mem_new_ok|done]).
  pose proof (wp_engine_open (config e) w2 ts (kv_run (WalEntry.operation <$> (scan c').1) kv) Hd2 (next_id_left _ _ _ _ Hok Hids)) as Hop. rewrite El in Hop.
  destruct (wp_quiet _ _ _ _ (Hop Hm Hvk) Hq) as (e3 & w3 & Hrun & [Hfr _] & Hq3).
  exists e3, w3. eexists. split_and!; [done|done|apply Hfr].
Qed.

(** What opens after a crash. *)
Lemma tracked_reopen s ops w2 :
  tracked s ops -> sstable_count s.1 = 0 -> crash s.2 w2 -> quiet w2 ->
  exists k e3 w3 ts, open (config s.1) w2 = (Ok e3, w3) /\ quiet w3 /\
    len ops - loss_bound (Config.wal_sync_strategy (config s.1)) < Z.of_nat k <= len ops /\
    engine_ok e3 w3 ts (kv_run (take k ops) ∅).
Proof.
  destruct s as [e w]. intros (ts & d & es & Hlg & Hb) Hcnt Hc Hq. cbn [fst snd] in *.
  pose proof Hlg as [Hok Hlog Hfit Hmem Hdisk Htab Hst].
  assert (ts = []) as ->.
  { destruct (ok_storage _ _ _ _ Hok) as (H1 & _). apply Forall2_length in H1.
    unfold sstable_count, StorageManager.sstable_count, len in Hcnt. destruct ts; [done|]. simpl in *. lia. }
  destruct (Hb eq_refl) as (Hb1 & <- & Hm1).
  destruct (crash_disk (config e) w w2 [] Hc (engine_disk e w [] [] _ Hok Hdisk) Htab) as [Hd2 _].
  destruct Hlog as (c & (Hp & Hf & _) & Hbuf).
  destruct (crash_file _ _ _ _ Hc Hf) as (c' & Hf' & Hcc).
  destruct (wal_bounded_crash _ _ _ _ _ Hb1 Hf Hcc) as (k & Hs & Hk). cbn [fst] in Hk. rewrite Hst in Hk.
  assert (E : recovered_mem (log_content (config e) w2) = replay (take k es) MemTable.new).
  { unfold recovered_mem, log_content. rewrite Hf'. simpl. by rewrite Hs. }
  pose proof (Hm1 k) as Hmk. pose proof (replay_kv (take k es)) as Hvk. rewrite <- E in Hmk, Hvk.
  rewrite fmap_take in Hvk.
  destruct (wp_quiet _ _ _ _ (wp_engine_open (config e) w2 [] _ Hd2 eq_refl Hmk Hvk) Hq)
    as (e3 & w3 & Hrun & [Hfr _] & Hq3).
  exists k, e3, w3. eexists. split_and!; [done|done|..|apply Hfr]; unfold len in *; rewrite length_fmap; lia.
Qed.
(** One caller after the other.  After acknowledged
    puts, deletes and reads from a freshly opened directory, none of which filled
    the memtable, and a crash that keeps any part of the unsynced appends, the
    engine opens again and serves the map of a prefix of the writes, in order, that
    misses fewer than [n] of them (and none under [EveryWrite]). *)
Lemma every_n_crash_prefix c w0 e0 w1 ops s w2 :
  files w0 = ∅ -> loss_bound (Config.wal_sync_strategy c) < 2 ^ 64 ->
  open c w0 = (Ok e0, w1) -> acked (e0, w1) ops s -> sstable_count s.1 = 0 ->
  crash s.2 w2 -> quiet w2 ->
  exists n e3 w3, len ops - loss_bound (Config.wal_sync_strategy c) < Z.of_nat n <= len ops /\
    open c w2 = (Ok e3, w3) /\
    forall k, exists s', get k (e3, w3) = (Ok (kv_run (take n ops) ∅ !! k), s').
Proof.
  intros Hw Hb Hopen Hack Hcnt Hc Hq.
  destruct (open_empty_tracked c w0 e0 w1 Hw Hb Hopen) as [Ht Hcfg].
  destruct (acked_tracked _ _ _ _ Hack Ht) as [Ht' Hcs]. cbn [fst] in Hcs. rewrite <- Hcfg, <- Hcs.
  destruct (tracked_reopen s ops w2 Ht' Hcnt Hc Hq) as (n & e3 & w3 & ts & Ho & Hq3 & Hn & Hok).
  exists n, e3, w3. split_and!; [lia|lia|done|]. intros k.
  destruct (wp_quiet _ _ _ _ (wp_get e3 w3 ts _ k Hok) Hq3) as (res & s' & Hg & (-> & _) & _). eauto.
Qed.
End Loss.
