(* ===== verification/Rollback.v ===== *)
(** A stop under [EveryNEntries(n)] while threads are inside the engine.  As long as
    no flush has begun since the engine was opened, a crash or a kill takes the engine
    back to an earlier moment of its own run, fewer than [n] log entries ago. *)

From Stdlib Require Import ZArith Lia String.
From stdpp Require Import base gmap list strings.
From S2P Require Import Prelude Errors BTreeMap Memtable Protocol World WorldFacts Config Wal.
From S2P Require Import WalFacts WalWriterFacts Sstable SstableFacts SstableReaderFacts Storage.
From S2P Require Import StorageFacts Engine EngineFacts Traces Register Workers WorkersFacts.
From S2P Require Import Recovery Durability Crash LogLoss CrashWorkers Loss.
Open Scope list_scope.
Open Scope Z_scope.

Import Engine Workers.

Section Rollback.
Context `{HC : Crc32} {HCok : Crc32Ok} `{HB : WalEntry.Bincode} {HBok : WalEntry.BincodeOk}.
Context `{HT : IoText} `{HSt : Status} {HStok : StatusOk}.

(** ** Actions *)

(** How the memtable stands to the log while the holder of the lock is at [p]. *)
Definition follows_log (p : option pc) (e : Engine.t) (es : list WalEntry.t) : Prop :=
  match p with
  | Some (Apply op) => replay es MemTable.new = mem_apply op (memtable e) /\ fits e op
  | Some (Publish _ | Clear | Truncate | Unlock Panic) => False
  | _ => memtable e = replay es MemTable.new
  end.

(** The engine since it was opened, with no flush begun: the tables are still [ts],
    the log holds the writes [es]. *)
Record since (c : Config.t) (ts : tables) (d0 : bytes) (n0 : Z) (p : option pc) (e : Engine.t) (w : World)
    (kv : gmap bytes bytes) (es : list WalEntry.t) : Prop := {
  si_config : config e = c;
  si_ok : engine_ok e w ts kv;
  si_rec : exists d, recorded c (wal e) w ts d es;
  si_wal : wal_lags (wal_path c) d0 es (wal e, w);
  si_mem : follows_log p e es;
  si_next : next_id e = n0
}.

Abbreviation lsn e := (WalWriter.current_lsn (wal e)).

(** Places where the memtable is that of the log. *)
Lemma since_idle c ts d0 n0 p q e w kv es :
  idle p = true -> idle q = true -> since c ts d0 n0 p e w kv es -> since c ts d0 n0 q e w kv es.
Proof.
  intros Hp Hq [H1 H2 H3 H4 H5 H6]. constructor; try done.
  destruct p as [[| | | | | | | | |[]|]|], q as [[| | | | | | | | |[]|]|]; done.
Qed.

(** The file changes only where the log is not, or not at all. *)
Lemma since_same c ts d0 n0 p e w kv es e' w' :
  since c ts d0 n0 p e w kv es -> same_files w w' -> engine_ok e' w' ts kv ->
  config e' = config e -> wal e' = wal e -> memtable e' = memtable e -> next_id e' = next_id e ->
  since c ts d0 n0 p e' w' kv es.
Proof.
  intros [H1 H2 [d H3] H4 H5 H6] Hw Hok Ec Ew Em En. constructor; [congruence|done|..|congruence].
  - exists d. rewrite Ew. by eapply recorded_same.
  - rewrite Ew. eapply wal_lags_same; [exact H4|]. by apply get_file_same.
  - unfold follows_log, fits in *. by rewrite Em.
Qed.

Lemma since_append c ts d0 n0 p kv es now op s p' s' :
  idle p = true -> since c ts d0 n0 p (eng s) (wld s) kv es -> quiet (wld s) -> 0 <= now -> fits (eng s) op ->
  follow s (with_wal_lock (on_wal (WalWriter.append now op))) (fun _ => Apply op) Unlock = (p', s') ->
  exists x, p' = Apply op /\ WalEntry.operation x = op /\
    since c ts d0 n0 (Some (Apply op)) (eng s') (wld s') kv (es ++ [x]) /\
    lsn (eng s') = as_u64 (lsn (eng s) + 1).
Proof.
  intros Hp Hsi Hq Hnow Hfit Hact. apply (since_idle _ _ _ _ _ None) in Hsi; [|done..].
  destruct Hsi as [<- Hok [d Hrec] Hlag Hmem Hnext].
  pose proof (wp_strengthen _ _ _ _ _ (wp_append_recorded now op _ _ _ _ _ _ Hok Hrec Hnow Hfit)
    (fun a x => append_run now op _ _ a x (proj2 (ok_locks _ _ _ _ Hok)))) as Hwp.
  destruct (follow_cases _ _ _ _ _ _ _ _ Hwp Hact)
    as [_ [(l & -> & ((wr & w' & d' & E & _ & Hok' & Hrec') & y & Happ & Ey) & _)|(k & _ & _ & Hn)]]; [|done].
  rewrite E in Ey. injection E as E1 E2. injection Ey as -> ->. rewrite E1, E2 in *.
  destruct (wal_lags_append _ _ _ _ _ _ _ _ Hlag Hnow (proj1 Hfit) Happ) as [Hlag' Hlsn].
  exists (next_entry_of (wal (eng s)) now op). split_and!; [done|done| |done].
  constructor; [done|done|by exists d'| |..|done]; [simpl; by rewrite <- surjective_pairing|].
  split; [|done]. rewrite replay_snoc. by rewrite <- Hmem.
Qed.

(** *** The next table's id *)

Lemma prepare_next m st w :
  StorageManager.next_sstable_id (StorageManager.prepare m (st, w)).2.1 =
  as_u64 (StorageManager.next_sstable_id st + 1).
Proof.
  unfold StorageManager.prepare, StorageManager.on_world, zoom, gets, modify, mbind, ST_bind. cbn [fst snd].
  destruct (StorageManager.build_sstable _ _ w) as [[md|er| |] w1]; [|done..]. cbn [fst snd].
  by destruct (SSTableReader.open _ w1) as [[rd|er| |] w2].
Qed.

Lemma follow_eng {A} s (m : ST (Engine.t * World) A) f leave :
  eng (follow s m f leave).2 = (m (eng s, wld s)).2.1.
Proof. unfold follow. by destruct (m (eng s, wld s)) as [[] []]. Qed.

Lemma on_wal_next {A} (m : ST (WalWriter.t * World) A) s :
  next_id (with_wal_lock (on_wal m) s).2.1 = next_id s.1.
Proof.
  unfold with_wal_lock, locked, on_wal, zoom. destruct (wal_poisoned s.1); [done|].
  by destruct (m _) as [[] []].
Qed.

(** It never goes back, and building a table takes the next. *)
Lemma act_next now i p s p' s' :
  act now i p s = Some (p', s') -> room now p s -> 0 <= next_id (eng s) ->
  next_id (eng s) <= next_id (eng s') /\
  (p = Build -> MemTable.is_empty (memtable (eng s)) = false -> next_id (eng s) < next_id (eng s')).
Proof.
  assert (Hf : forall A (m : ST (Engine.t * World) A) f leave,
    follow s m f leave = (p', s') -> eng s' = (m (eng s, wld s)).2.1).
  { intros A m f leave H. by rewrite <- (follow_eng s m f leave), H. }
  assert (Ha : forall n, acquire i s n = Some (p', s') -> eng s' = eng s).
  { intros n H. unfold acquire in H. destruct (holder s); [done|]. by destruct (write_poisoned _); injection H as <- <-. }
  intros H Hroom Hn. destruct p as [[[k|k v|k|]|]|k|op|op|n| |rd| | |res|res]; cbn [act] in H;
    try (apply Ha in H as ->; split; [lia|done]); try discriminate H.
  7: { destruct (MemTable.is_empty _) eqn:He; apply (inj Some) in H; [injection H as <- <-; split; [lia|done]|].
       apply Hf in H as ->. cbn [room] in Hroom. unfold ids_left in Hroom.
       unfold on_storage, zoom. cbn [fst snd]. pose proof (prepare_next (memtable (eng s)) (storage (eng s)) (wld s)) as E.
       destruct (StorageManager.prepare _ _) as [r [st w]]. simpl in *. rewrite E, as_u64_small by lia. lia. }
  all: split; [|done]; apply (inj Some) in H; try (injection H as <- <-; apply Z.le_refl).
  - apply Hf in H as ->. unfold on_storage, zoom, StorageManager.get. cbn [fst snd].
    destruct (StorageManager.search _ _ _) as [r [rs w]]. apply Z.le_refl.
  - apply Hf in H as ->. rewrite on_wal_next. apply Z.le_refl.
  - apply Hf in H as ->. unfold on_memtable. cbn [fst snd]. destruct (write_size _ _). apply Z.le_refl.
  - apply Hf in H as ->. rewrite on_wal_next. apply Z.le_refl.
  - injection H as <- <-. destruct res; apply Z.le_refl.
Qed.

(** An action of a thread that begins no flush: the log stays, or grows by the entry
    of the write that the thread is about to apply. *)
Lemma act_since c ts d0 n0 now i p q s p' s' kv es :
  since c ts d0 n0 q (eng s) (wld s) kv es -> quiet (wld s) -> room now p s ->
  act now i p s = Some (p', s') -> (critical p = true -> q = Some p) -> (holder s = None -> q = None) ->
  next_id (eng s') = n0 ->
  (exists kv', since c ts d0 n0 (moved p p' q) (eng s') (wld s') kv' es /\ lsn (eng s') = lsn (eng s)) \/
  (exists op x, p = Append op /\ p' = Apply op /\ WalEntry.operation x = op /\
     since c ts d0 n0 (Some p') (eng s') (wld s') kv (es ++ [x]) /\ lsn (eng s') = as_u64 (lsn (eng s) + 1)).
Proof.
  intros Hsi Hqu Hroom Hact Hq Hfree Hnext. unfold moved.
  assert (Hacq : forall n, critical p = false -> idle (Some n) = true -> acquire i s n = Some (p', s') ->
    exists kv', since c ts d0 n0 (if critical p' then Some p' else if critical p then None else q)
      (eng s') (wld s') kv' es /\ lsn (eng s') = lsn (eng s)).
  { intros n Hc Hn Ha. unfold acquire in Ha. destruct (holder s) eqn:Hh; [done|]. rewrite Hc, (Hfree eq_refl) in *.
    exists kv. destruct (write_poisoned _); injection Ha as <- <-; [done|]. simpl. split; [|done].
    eapply since_idle; [..|exact Hsi]; [done|]. destruct (critical n); done. }
  assert (Hto : forall p1, idle q = true -> idle (Some p1) = true -> critical p1 = true ->
    exists kv', since c ts d0 n0 (if critical p1 then Some p1 else if critical p then None else q)
      (eng s) (wld s) kv' es /\ lsn (eng s) = lsn (eng s)).
  { intros p1 H1 H2 ->. exists kv. split; [|done]. by apply (since_idle _ _ _ _ q). }
  destruct p as [[[k|k v|k|]|]|k|op|op|n| |rd| | |res|res]; cbn [act critical] in *;
    try discriminate Hact; try (left; refine (Hacq _ _ _ Hact); done); try (specialize (Hq eq_refl); subst q);
    try apply (inj Some) in Hact; try (exfalso; exact (si_mem _ _ _ _ _ _ _ _ _ Hsi)).
  - left. exists kv. injection Hact as <- <-. by destruct (MemTable.get k _) as [[]|].
  - left. exists kv. by injection Hact as <- <-.
  - left. exists kv. pose proof (si_ok _ _ _ _ _ _ _ _ _ Hsi) as Hok.
    destruct (follow_cases _ _ _ _ _ _ _ _ (wp_lookup_step k _ _ _ _ Hok) Hact)
      as [_ [(v & -> & (_ & H1 & H2 & st & E & H3) & _)|(er & _ & _ & Hn)]]; [|done].
    cbn [fst snd critical] in *. split; [|by rewrite E]. by eapply since_same; [..|rewrite E|rewrite E|rewrite E|rewrite E].
  - right. destruct Hroom as [Hnow Hfit].
    destruct (since_append c ts d0 n0 (Some (Append op)) kv es now op s p' s') as (x & -> & ? & ? & ?); try done.
    eauto 8.
  - left. unfold follow, on_memtable in Hact. cbn [fst snd] in Hact.
    rewrite (surjective_pairing (write_size op _)) in Hact. injection Hact as <- <-. simpl in Hnext |- *.
    replace (write_size op _).2 with (mem_apply op (memtable (eng s))) by by destruct op.
    exists (kv_apply op kv). split; [|done]. destruct Hsi as [H1 H2 H3 H4 [H5 H5'] H6].
    constructor; try done. by apply ok_apply.
  - left. injection Hact as <- <-. destruct (_ <=? n); by apply Hto.
  - destruct (MemTable.is_empty _) eqn:He.
    + left. injection Hact as <- <-. by apply Hto.
    + exfalso. pose proof (si_next _ _ _ _ _ _ _ _ _ Hsi) as Hn0.
      pose proof (ok_storage _ _ _ _ (si_ok _ _ _ _ _ _ _ _ _ Hsi)) as (_ & _ & _ & ? & _).
      destruct (act_next now i Build s p' s') as [_ Hlt]; [|done|done|specialize (Hlt eq_refl He); lia].
      cbn [act]. rewrite He. by rewrite Hact.
  - left. exists kv. injection Hact as <- <-. simpl. pose proof (si_mem _ _ _ _ _ _ _ _ _ Hsi) as Hm.
    destruct res; [..|done|]; (split; [|done]); (eapply since_idle; [..|exact Hsi]; done).
Qed.

(** ** Runs *)

Lemma step_next s l s' :
  step room s l s' -> 0 <= next_id (eng (sh s)) -> next_id (eng (sh s)) <= next_id (eng (sh s')).
Proof.
  intros Hs Hn. destruct Hs as [i c s T Hi|now i p s T p' s' Hi Hroom Hact|i r s T Hi]; simpl in *; [lia| |lia].
  by apply (act_next _ _ _ _ _ _ Hact).
Qed.

Lemma run_next e w tr s :
  run (step room) (resting e w) tr s -> 0 <= next_id e -> next_id e <= next_id (eng (sh s)).
Proof.
  intros Hrun Hn. eapply (run_invariant _ (fun s => next_id e <= next_id (eng (sh s)))); [|exact Hrun|done].
  intros x l y Hx Hstep. pose proof (step_next _ _ _ Hstep). lia.
Qed.

(** The moment of a run at which [m] fewer entries were in the log, and the map of
    its history; the write of the last of those entries has taken effect. *)
Definition moment (e : Engine.t) (w : World) (kv : gmap bytes bytes) (tr : list label) (s : Workers.t)
    (m : Z) (kv1 : gmap bytes bytes) : Prop :=
  exists tr1 s1 tr2 a, tr = tr1 ++ tr2 /\ run (step room) (resting e w) tr1 s1 /\ run (step room) s1 tr2 s /\
    lsn (eng (sh s)) = as_u64 (lsn (eng (sh s1)) + m) /\
    run (Atomic.step False) (Atomic.mk kv ∅) tr1 a /\ Atomic.map a = kv1.

Lemma moment_later e w kv tr s m kv1 l s' m' :
  moment e w kv tr s m kv1 -> step room s l s' -> lsn (eng (sh s')) = as_u64 (lsn (eng (sh s)) + m') ->
  moment e w kv (tr ++ option_list l) s' (m + m') kv1.
Proof.
  intros (tr1 & s1 & tr2 & a & -> & H1 & H2 & E & H3 & H4) Hs Hl. exists tr1, s1, (tr2 ++ option_list l), a.
  split_and!; [by rewrite app_assoc|done|by eapply run_snoc| |done|done].
  rewrite Hl, E. unfold as_u64. rewrite Zplus_mod_idemp_l. f_equal. lia.
Qed.

(** Every number of entries of the log is that of a moment, and replaying them gives
    its map. *)
Definition moments (e : Engine.t) (w : World) (kv : gmap bytes bytes) (ts : tables) (tr : list label)
    (s : Workers.t) (es : list WalEntry.t) : Prop :=
  forall k, (k <= length es)%nat -> mem_ok (replay (take k es) MemTable.new) /\
    exists kv1, moment e w kv tr s (len es - Z.of_nat k) kv1 /\
      forall key, view (replay (take k es) MemTable.new) ts key = kv1 !! key.

Lemma moments_stay e w kv ts tr s es l s' :
  moments e w kv ts tr s es -> step room s l s' -> lsn (eng (sh s')) = as_u64 (lsn (eng (sh s)) + 0) ->
  moments e w kv ts (tr ++ option_list l) s' es.
Proof.
  intros H Hs Hl k Hk. destruct (H k Hk) as (Hm & kv1 & Hmo & Hv). split; [done|]. exists kv1. split; [|done].
  replace (len es - Z.of_nat k) with (len es - Z.of_nat k + 0) by lia. by eapply moment_later.
Qed.

Lemma moments_append e w kv ts tr s es x l s' kv1 :
  moments e w kv ts tr s es -> step room s l s' -> lsn (eng (sh s')) = as_u64 (lsn (eng (sh s)) + 1) ->
  mem_ok (replay (es ++ [x]) MemTable.new) -> moment e w kv (tr ++ option_list l) s' 0 kv1 ->
  (forall key, view (replay (es ++ [x]) MemTable.new) ts key = kv1 !! key) ->
  moments e w kv ts (tr ++ option_list l) s' (es ++ [x]).
Proof.
  intros H Hs Hl Hm Hmo Hv k Hk. rewrite length_app in Hk. simpl in Hk.
  assert (El : len (es ++ [x]) = len es + 1) by (rewrite len_app; done). rewrite El.
  destruct (decide (k <= length es)%nat) as [Hle|Hgt].
  - rewrite take_app_le by done. destruct (H k Hle) as (Hm' & kv2 & Hmo' & Hv'). split; [done|]. exists kv2.
    split; [|done]. replace (len es + 1 - Z.of_nat k) with (len es - Z.of_nat k + 1) by lia. by eapply moment_later.
  - rewrite take_ge by (rewrite length_app; simpl; lia). split; [done|]. exists kv1. split; [|done].
    replace (len es + 1 - Z.of_nat k) with 0 by (unfold len; lia). done.
Qed.

Lemma since_lsn c ts d0 n0 p e w kv es : since c ts d0 n0 p e w kv es -> as_u64 (lsn e + 0) = lsn e.
Proof.
  intros [_ _ _ Hl _ _]. rewrite Z.add_0_r. apply as_u64_small.
  destruct Hl as [(_ & _ & _ & _ & _ & Hl)|(_ & _ & _ & _ & Hl)]; exact Hl.
Qed.

Lemma since_run c e w kv ts d0 tr s :
  since c ts d0 (next_id e) None e w kv [] -> quiet w -> run (step room) (resting e w) tr s ->
  next_id (eng (sh s)) = next_id e ->
  exists kv1 es, since c ts d0 (next_id e) (inside s) (eng (sh s)) (wld (sh s)) kv1 es /\
    moments e w kv ts tr s es.
Proof.
  intros Hsi Hq Hrun. pose proof (si_ok _ _ _ _ _ _ _ _ _ Hsi) as Hok.
  assert (Hn0 : 0 <= next_id e) by (destruct (ok_storage _ _ _ _ Hok) as (_ & _ & _ & ? & _); done).
  remember (resting e w) as s0 eqn:Es0. induction Hrun as [s0|s0 tr s l s' Hrun IH Hs]; intros Hn; subst s0.
  - exists kv, []. split; [exact Hsi|]. intros k Hk. simpl in Hk. assert (k = 0%nat) as -> by lia.
    split; [apply mem_new_ok|]. exists kv. split.
    + exists [], (resting e w), [], (Atomic.mk kv ∅).
      split_and!; [done|constructor|constructor| |constructor|done]. symmetry. by eapply since_lsn.
    + intros key. rewrite <- (ok_view _ _ _ _ Hok key). pose proof (si_mem _ _ _ _ _ _ _ _ _ Hsi) as Hm.
      simpl in Hm. by rewrite Hm.
  - pose proof (run_next _ _ _ _ Hrun Hn0) as Hle. pose proof (step_next _ _ _ Hs ltac:(lia)) as Hle'.
    destruct (IH eq_refl ltac:(lia)) as (kv1 & es & Hsi1 & Hmo). clear IH.
    pose proof (si_ok _ _ _ _ _ _ _ _ _ Hsi1) as Hok1.
    destruct (run_history _ _ _ _ _ _ _ _ Hok Hq Hrun Hok1) as [Hq1 _].
    destruct (holder_step _ _ _ (lock_run _ _ _ _ _ Hrun) Hs)
      as [[E1 E2]|(now & i & p & p' & _ & Hi' & Hroom & Hact & E2 & H1 & H2)].
    { exists kv1, es. rewrite E2, E1. split; [done|]. eapply moments_stay; [done..|].
      rewrite E1. symmetry. by eapply since_lsn. }
    destruct (act_since _ _ _ _ _ _ _ _ _ _ _ _ _ Hsi1 Hq1 Hroom Hact H1 H2 Hn)
      as [(kv' & Hsi' & El)|(op & x & -> & -> & Hx & Hsi' & El)]; rewrite E2.
    { exists kv', es. split; [done|]. eapply moments_stay; [done..|]. rewrite El. symmetry. by eapply since_lsn. }
    exists kv1, (es ++ [x]). split; [done|]. pose proof (si_mem _ _ _ _ _ _ _ _ _ Hsi') as [Hrep Hfit].
    pose proof (si_ok _ _ _ _ _ _ _ _ _ Hsi') as Hok'. pose proof (ok_mem _ _ _ _ Hok') as Hme.
    eapply (moments_append _ _ _ _ _ _ _ _ _ _ (kv_apply op kv1)); [done..| | |].
    + rewrite Hrep. by apply mem_apply_ok.
    + assert (Hrun' : run (step room) (resting e w) (tr ++ option_list l) s') by by eapply run_snoc.
      destruct (begun_atomic _ _ _ _ _ _ _ _ _ _ Hok Hq Hrun' (or_intror Hi') Hok') as (a & Ha & Ea).
      exists (tr ++ option_list l), s', [], a.
      split_and!; [by rewrite app_nil_r|done|constructor| |done|done]. symmetry. by eapply since_lsn.
    + rewrite Hrep. apply view_apply; [apply Hme|apply Hok'].
Qed.

(** ** The machine stops *)

(** Where a run starts: a directory just opened. *)
Lemma since_open c w0 kv e w :
  recovers c w0 kv -> loss_bound (Config.wal_sync_strategy c) < 2 ^ 64 -> open c w0 = (Ok e, w) ->
  exists ts, since c ts (log_durable c w0) (next_id e) None e w kv [] /\ covers (log_durable c w0) ts.
Proof.
  intros Hr Hb Hrun. destruct (open_fresh c w0 kv e w Hr Hrun) as (ts & Hfr & Ht & Hcov). exists ts. split; [|done].
  assert (Hlg : logged e w ts kv (log_durable c w0) []) by by eapply fresh_logged.
  destruct Hfr as [Hok Hc Hm Hlog Hstr Hcnt Hlsn Hdisk]. subst c. constructor; try done.
  - exists (log_durable (config e) w0). by apply logged_recorded in Hlg as (_ & ? & _).
  - right. cbn [fst snd]. rewrite Hcnt, Hlsn, Hstr. split_and!; [done|constructor|done| |done|lia|lia].
    change (len []) with 0. destruct (Config.wal_sync_strategy (config e)); simpl; lia.
Qed.

(** What is left of a file. *)
Lemma halted_content w w' p f :
  halted w w' -> get_file p w = Some f ->
  exists f', get_file p w' = Some f' /\ crash_content f (content f').
Proof.
  intros [Hc|Hw] Hf.
  - destruct (crash_file _ _ _ _ Hc Hf) as (c' & ? & ?). by eexists.
  - exists f. rewrite (get_file_same _ w w' Hw). split; [done|]. right. done.
Qed.

(** The files lead back to one of the moments, fewer entries ago than the bound. *)
Lemma since_halted c ts d0 n0 p e0 w0 kv0 tr s kv es w2 :
  since c ts d0 n0 p (eng (sh s)) (wld (sh s)) kv es -> moments e0 w0 kv0 ts tr s es -> covers d0 ts ->
  halted (wld (sh s)) w2 ->
  exists m kv1, moment e0 w0 kv0 tr s m kv1 /\ 0 <= m < loss_bound (Config.wal_sync_strategy c) /\
    disk c w2 ts /\ durable_tables c w2 ts /\ mem_ok (recovered_mem (log_content c w2)) /\
    forall k, view (recovered_mem (log_content c w2)) ts k = kv1 !! k.
Proof.
  intros [Hc Hok [d Hrec] Hlag _ _] Hmo [Hmd Hcov] Hh. pose proof Hrec as [(x & (_ & Hf & _) & _) _ Hdisk Htab Hstr].
  assert (Hd : disk c (wld (sh s)) ts) by (rewrite <- Hc in Hdisk |- *; by eapply engine_disk).
  destruct (halted_disk c _ w2 ts Hh Hd Htab) as [Hd2 Ht2].
  destruct (halted_content _ _ _ _ Hh Hf) as (f' & Hf' & Hcc).
  assert (E : log_content c w2 = content f') by (unfold log_content; by rewrite Hf').
  pose proof (len_nonneg es) as Hlen.
  destruct (wal_lags_crash _ _ _ _ _ _ Hlag Hf Hcc) as [(Ed & _ & Hlt)|(k & Hs & Hk)]; cbn [fst] in *; rewrite Hstr in *.
  - destruct (Hmo 0%nat ltac:(lia)) as (_ & kv1 & Hm1 & Hv1). exists (len es - 0), kv1.
    rewrite E, Ed. split_and!; try done; [lia..|]. intros key. rewrite Hcov. apply (Hv1 key).
  - destruct (Hmo k ltac:(unfold len in *; lia)) as (Hm & kv1 & Hm1 & Hv1). exists (len es - Z.of_nat k), kv1.
    rewrite E. unfold recovered_mem. rewrite Hs. split_and!; try done; lia.
Qed.

(** After a crash what is left of the log is durable. *)
Lemma crash_log_durable c w w' : crash w w' -> log_durable c w' = log_content c w'.
Proof.
  intros Hc. specialize (Hc (wal_path c)). unfold log_durable, log_content, get_file.
  destruct (files w !! wal_path c) as [[f|]|]; [|by rewrite Hc|by rewrite Hc]. by destruct Hc as (c' & -> & _).
Qed.

Lemma rollback c w0 kv e w tr s w2 :
  loss_bound (Config.wal_sync_strategy c) < 2 ^ 64 -> recovers c w0 kv -> quiet w0 -> open c w0 = (Ok e, w) ->
  run (step room) (resting e w) tr s -> next_id (eng (sh s)) = next_id e -> ids_left e ->
  halted (wld (sh s)) w2 -> quiet w2 ->
  exists tr1 s1 tr2 a e3 w3 ts3, tr = tr1 ++ tr2 /\ run (step room) (resting e w) tr1 s1 /\ run (step room) s1 tr2 s /\
    as_u64 (lsn (eng (sh s)) - lsn (eng (sh s1))) < loss_bound (Config.wal_sync_strategy c) /\
    run (Atomic.step False) (Atomic.mk kv ∅) tr1 a /\
    open c w2 = (Ok e3, w3) /\ quiet w3 /\ engine_ok e3 w3 ts3 (Atomic.map a) /\
    (crash (wld (sh s)) w2 -> recovers c w2 (Atomic.map a)).
Proof.
  intros Hb Hr Hq0 Hopen Hrun Hn Hids Hh Hq2.
  destruct (since_open c w0 kv e w Hr Hb Hopen) as (ts & Hsi & Hcov).
  pose proof (si_ok _ _ _ _ _ _ _ _ _ Hsi) as Hok.
  assert (Hq : quiet w).
  { destruct Hr as (ts0 & Hd & _ & Hlt & Hm & Hv & _).
    destruct (wp_quiet _ _ _ _ (wp_engine_open c w0 ts0 kv Hd Hlt Hm Hv) Hq0) as (e' & w' & Ho & _ & Hq').
    rewrite Hopen in Ho. by injection Ho as _ <-. }
  destruct (since_run c e w kv ts _ tr s Hsi Hq Hrun Hn) as (kv1 & es & Hs1 & Hmo).
  destruct (since_halted _ _ _ _ _ _ _ _ _ _ _ _ _ Hs1 Hmo Hcov Hh)
    as (m & kv2 & (tr1 & s1 & tr2 & a & Et & R1 & R2 & El & Ra & <-) & Hm & Hd2 & Ht2 & Hm2 & Hv2).
  pose proof (next_id_left e w ts kv Hok Hids) as Hleft.
  destruct (wp_quiet _ _ _ _ (wp_engine_open c w2 ts _ Hd2 Hleft Hm2 Hv2) Hq2) as (e3 & w3 & Ho & [Hfr _] & Hq3).
  exists tr1, s1, tr2, a, e3, w3. eexists. split_and!; try done; [|apply Hfr|].
  2: { intros Hc. exists ts. split_and!; try done. left. by eapply crash_log_durable. }
  rewrite El. unfold as_u64. rewrite Zminus_mod_idemp_l.
  replace (lsn (eng (sh s1)) + m - lsn (eng (sh s1))) with m by lia. rewrite Z.mod_small; lia.
Qed.
End Rollback.
