(* ===== verification/Lifecycle.v ===== *)
(** Closing an engine, or just dropping it, and opening the directory again. *)

From Stdlib Require Import ZArith Lia String Ascii.
From stdpp Require Import base gmap list strings sorting.
From S2P Require Import Prelude Fmt Errors BTreeMap Memtable Protocol World WorldFacts Config Wal.
From S2P Require Import WalFacts WalWriterFacts Sstable SstableFacts SstableReaderFacts.
From S2P Require Import Storage StorageFacts Engine EngineFacts Recovery Durability Crash.
Open Scope list_scope.
Open Scope Z_scope.

Import Engine.

Section Lifecycle.
Context `{HC : Crc32} {HCok : Crc32Ok} `{HB : WalEntry.Bincode} {HBok : WalEntry.BincodeOk}.
Context `{HT : IoText} `{HSt : Status} {HStok : StatusOk}.

Lemma replay_empty es : MemTable.is_empty (replay es MemTable.new) = true -> es = [].
Proof.
  destruct es as [|x es _] using rev_ind; [done|]. rewrite replay_snoc, mem_apply_nonempty. done.
Qed.

(** The engine after [close] has flushed: nothing is left in the log. *)
Lemma wp_close_flush e w ts kv d es :
  logged e w ts kv d es -> ids_left e ->
  wp (m ← gets (fun s : t * World => memtable s.1);
      if negb (MemTable.is_empty m) then flush else mret tt) (e, w)
    (fun _ s => exists ts', logged s.1 s.2 ts' kv d [] /\ config s.1 = config e /\
       next_id_of ts' <= Z.max 1 (StorageManager.next_sstable_id (storage e) + 1))
    (fun _ => True).
Proof.
  intros Hlg Hids. pose proof (lg_ok _ _ _ _ _ _ Hlg) as Hok. apply wp_bind_gets. cbn [fst].
  destruct (MemTable.is_empty (memtable e)) eqn:Hemp; cbn [negb].
  - apply wp_ret. exists ts. rewrite (lg_mem _ _ _ _ _ _ Hlg) in Hemp. apply replay_empty in Hemp.
    subst es. split_and!; try done. destruct Hok as [_ (_ & Hb & _) _ _ _ _].
    destruct ts as [|t0 ts]; simpl; [lia|]. inversion Hb; subst. simpl in *. lia.
  - apply wp_locked; [apply Hok|]. eapply wp_conseq; [by apply (wp_flush_logged e w ts kv d es)| |done].
    intros _ s [H1 H2]. exists (flushed_table e :: ts). split_and!; [done|done|]. simpl. lia.
Qed.

(** The directory after a run of [close] that met no fault. *)
Lemma close_disk e w ts kv d es :
  logged e w ts kv d es -> ids_left e -> quiet w ->
  exists w' ts', close e w = (Ok tt, w') /\ quiet w' /\ disk (config e) w' ts' /\
    log_content (config e) w' = [] /\ (forall k, lookup_tables k ts' = kv !! k) /\
    next_id_of ts' <= Z.max 1 (StorageManager.next_sstable_id (storage e) + 1).
Proof.
  intros Hlg Hids Hq.
  assert (Hw : wp (close e) w (fun _ w' => exists ts', disk (config e) w' ts' /\
      log_content (config e) w' = [] /\ (forall k, lookup_tables k ts' = kv !! k) /\
      next_id_of ts' <= Z.max 1 (StorageManager.next_sstable_id (storage e) + 1)) (fun _ => True)).
  { apply wp_of_wpr, wpr_scoped; [intros e' w'; apply bw_drop_quiet|]. apply wpr_of_wp with (Q := fun _ s =>
      exists ts', disk (config e) (drop s.1 s.2) ts' /\
      log_content (config e) (drop s.1 s.2) = [] /\ (forall k, lookup_tables k ts' = kv !! k) /\
      next_id_of ts' <= Z.max 1 (StorageManager.next_sstable_id (storage e) + 1)).
    pose proof (wp_close_flush e w ts kv d es Hlg Hids) as Hf.
    apply wp_bind_gets. cbn [fst]. eapply wp_bind; [exact Hf| |done].
    intros _ [e1 w1] (ts' & Hlg1 & Hcfg & Hnx). cbn [fst snd] in *.
    pose proof Hlg1 as [Hok1 Hlog1 _ Hmem1 Hdisk1 _ _].
    apply wp_locked; [apply Hok1|]. apply wp_zoom; [done..|].
    eapply wp_conseq; [by apply (wp_sync _ _ _ _ _ Hlog1)| |done].
    intros _ [wr w2] (Hl2 & Hbuf & _ & _ & Hfr). cbn [fst snd] in *. exists ts'.
    unfold drop. simpl WalWriter.file. rewrite bw_drop_empty by done. rewrite <- Hcfg.
    destruct Hl2 as (c & (Hp & Hg & _) & Hc). rewrite Hbuf, app_nil_r in Hc.
    unfold wal_bytes in Hc; simpl in Hc. subst c.
    assert (Hd1 : disk (config e1) w1 ts') by by eapply engine_disk.
    split_and!; [|by unfold log_content; rewrite Hg| |done].
    - destruct Hd1 as [D1 D2 D3]. constructor.
      + eapply (disk_ok_frame _ w1 w2 _ (wal_path (config e1))); [done|apply not_eq_sym, join_dir_ne|done].
      + by eapply no_dirs_frame.
      + by apply Hfr.
    - intros k. pose proof (ok_view _ _ _ _ Hok1 k) as Hv. by rewrite Hmem1 in Hv. }
  destruct (wp_quiet _ _ _ _ Hw Hq) as ([] & w' & Hrun & (ts' & H1 & H2 & H3 & H4) & Hq').
  exists w', ts'. split_and!; done.
Qed.

(** The directory after an engine is dropped: the writer's buffer reaches the
    file, so the log is complete. *)
Lemma drop_disk e w ts kv d es :
  logged e w ts kv d es -> quiet w ->
  quiet (drop e w) /\ disk (config e) (drop e w) ts /\
  log_content (config e) (drop e w) = wal_bytes es.
Proof.
  intros Hlg Hq. pose proof Hlg as [Hok Hlog _ _ Hdisk _ _].
  pose proof (engine_disk e w ts ts kv Hok Hdisk) as [D1 D2 D3].
  assert (Hfr : frame (wal_path (config e)) w (drop e w)).
  { apply bw_drop_frame. by destruct Hlog as (c & (Hp & _) & _). }
  split; [by apply bw_drop_quiet|]. split.
  - constructor.
    + eapply (disk_ok_frame _ w (drop e w) _ (wal_path (config e))); [done|apply not_eq_sym, join_dir_ne|done].
    + by eapply no_dirs_frame.
    + by apply Hfr.
  - destruct (wp_quiet _ _ _ _ (wp_flush_buf _ _ _ _ _ Hlog) Hq) as ([] & [b' w'] & Hrun & (Hl & Hb & _) & _).
    unfold drop, BufWriter.drop, log_content. rewrite Hrun. cbn [fst snd] in *.
    destruct Hl as (c & (_ & Hg & _) & Hc). rewrite Hb, app_nil_r in Hc. by rewrite Hg, <- Hc.
Qed.
End Lifecycle.
