(* ===== verification/Network.v ===== *)
(** Serving clients: [src/src/network/connection.rs].

    A connection runs commands against whatever implements [Executor]; the engine
    implements it (below), and the facts about connections are proved against the
    interface.  The socket is the [Read] and [Write] halves of [Protocol]. *)

From Stdlib Require Import ZArith Lia String.
From stdpp Require Import base gmap list strings.
From S2P Require Import Prelude Fmt Errors Protocol World Wal Engine.
Open Scope string_scope.
Open Scope list_scope.
Open Scope Z_scope.

(** What a connection needs of the engine: [Engine::execute]. *)
Class Executor (E : Type) := exec : Command.t -> ST E (option bytes).

(** The engine with its clock: each command reads the clock once. *)
Record Clocked := mkClocked { ticks : nat; engine : Engine.t; world : World }.

Section EngineExecutor.
Context `{HC : Crc32} `{HB : WalEntry.Bincode} `{HT : IoText}.
Context (clock : nat -> Z).

Definition engine_execute (c : Command.t) : ST Clocked (option bytes) := fun s =>
  let '(r, (e', w')) := Engine.execute (clock (ticks s)) c (engine s, world s) in
  (r, mkClocked (S (ticks s)) e' w').
End EngineExecutor.

(** A connected socket [S], and its two buffered halves [R] and [W]: what the
    sources call of [std::net::TcpStream].  A timeout is in milliseconds. *)
Class TcpStream (S R W : Type) := {
  sock_addr : S -> outcome string;       (** [peer_addr().map(to_string)] *)
  set_nodelay : bool -> ST S unit;
  try_clone : ST S S;
  buf_reader : S -> R;
  buf_writer : S -> W;
  set_read_timeout : Z -> ST R unit;
  set_write_timeout : Z -> ST W unit;
  shutdown_write : ST W unit             (** [shutdown(Shutdown::Write)] *)
}.

Module Connection.
Section Connection.
Context {R : Type} `{HR : Read R} {W : Type} `{HW : Write W} {E : Type} `{HE : Executor E}.
Context `{HT : IoText}.

(** [pub struct Connection]: the two halves of the socket, the engine, and the
    peer's address for the log. *)
Record t := mk { reader : R; writer : W; engine : E; peer_addr : string }.

Definition on_reader {A} (m : ST R A) : ST t A :=
  zoom reader (fun r s => mk r (writer s) (engine s) (peer_addr s)) m.
Definition on_writer {A} (m : ST W A) : ST t A :=
  zoom writer (fun w s => mk (reader s) w (engine s) (peer_addr s)) m.
Definition on_engine {A} (m : ST E A) : ST t A :=
  zoom engine (fun e s => mk (reader s) (writer s) e (peer_addr s)) m.

(** [new]: the stream is taken by value, and gone if this fails. *)
Definition new {S} `{HS : TcpStream S R W} (stream : S) (engine : E) : outcome t :=
  let addr := match sock_addr stream with Ok a => a | _ => "unknown" end in
  let '(r, write_stream) := (_ ← set_nodelay true; try_clone) stream in
  read_stream ← r;
  mret (mk (buf_reader read_stream) (buf_writer write_stream) engine addr).

(** [set_timeouts]; zero leaves a timeout off. *)
Definition set_timeouts {S} `{HS : TcpStream S R W} (read_ms write_ms : Z) : ST t unit :=
  _ ← (if 0 <? read_ms then on_reader (set_read_timeout read_ms) else mret tt);
  if 0 <? write_ms then on_writer (set_write_timeout write_ms) else mret tt.

(** The [match] of [execute_command]; a panic unwinds through it. *)
Definition to_response (r : outcome (option bytes)) : outcome Response.t :=
  match r with
  | Ok (Some value) => Ok (Response.ok (Some value))
  | Ok None => Ok (Response.ok None)
  | Err KeyNotFound => Ok Response.not_found
  | Err e => Ok (Response.error (to_string e))
  | Panic => Panic
  | OutOfFuel => OutOfFuel
  end.

Definition execute_command (command : Command.t) : ST t Response.t :=
  r ← catch (on_engine (exec command));
  lift (to_response r).

Definition send_response (response : Response.t) : ST t unit :=
  on_writer (Codec.write_response response).

(** Read errors on which [handle] just stops. *)
Definition quiet_read_error (k : ErrorKind) : bool :=
  match k with
  | UnexpectedEof | ConnectionReset | ConnectionAborted | WouldBlock | TimedOut => true
  | _ => false
  end.

(** Write errors that mean the client went away. *)
Definition client_gone (e : AtlasError) : bool :=
  match e with
  | Io (ConnectionAborted | ConnectionReset | BrokenPipe) => true
  | _ => false
  end.

(** The first half of the [loop] of [handle]: the next command, or [None] when
    the client is gone.  Other read errors are sent back and end the connection. *)
Definition receive : ST t (option Command.t) :=
  r ← catch (on_reader Codec.read_command);
  match r with
  | Ok command => mret (Some command)
  | Err e =>
      match e with
      | Io k => if quiet_read_error k then mret None
                else _ ← catch (send_response (Response.error (to_string e))); fail e
      | _ => _ ← catch (send_response (Response.error (to_string e))); fail e
      end
  | Panic => lift Panic
  | OutOfFuel => lift OutOfFuel
  end.

(** The second half: whether the response went out, or the client is gone. *)
Definition deliver (response : Response.t) : ST t bool :=
  sent ← catch (send_response response);
  match sent with
  | Ok _ => mret true
  | Err e => if client_gone e then mret false else fail e
  | Panic => lift Panic
  | OutOfFuel => lift OutOfFuel
  end.

(** The [loop] of [handle]; [fuel] bounds the commands served. *)
Fixpoint handle_loop (fuel : nat) : ST t unit :=
  match fuel with
  | O => lift OutOfFuel
  | S fuel' =>
      command ← receive;
      match command with
      | None => mret tt
      | Some command =>
          response ← execute_command command;
          delivered ← deliver response;
          match delivered with true => handle_loop fuel' | false => mret tt end
      end
  end.

Definition handle (fuel : nat) : ST t unit := handle_loop fuel.

End Connection.
Arguments t : clear implicits.
Arguments mk {R W E}.
End Connection.

(** One connection in the hands of a worker ([network/server.rs]).  The counter
    and the engine are shared with the other workers; an atomic [usize] wraps. *)
Module Worker.
Section Worker.
Context {S R W : Type} `{HS : TcpStream S R W} `{HR : Read R} `{HW : Write W}.
Context {E : Type} `{HE : Executor E} `{HT : IoText}.
Context (read_timeout_ms write_timeout_ms : Z).

Definition fetch_add (n active : Z) : Z := as_u64 (active + n).

(** The connection's life after [new]: errors are logged, a panic unwinds. *)
Definition converse (fuel : nat) : ST (Connection.t R W E) unit :=
  _ ← catch (Connection.set_timeouts read_timeout_ms write_timeout_ms);
  _ ← catch (Connection.handle fuel);
  mret tt.

Definition handle_connection (fuel : nat) (stream : S) : ST (Z * E) unit := fun s =>
  let active := fetch_add 1 s.1 in
  match Connection.new stream s.2 with
  | Ok conn =>
      let '(r, conn') := converse fuel conn in
      (r, (match r with Ok _ => fetch_add (-1) active | _ => active end, Connection.engine conn'))
  | Err _ => (Ok tt, (fetch_add (-1) active, s.2))
  | Panic => (Panic, (active, s.2))
  | OutOfFuel => (OutOfFuel, (active, s.2))
  end.
End Worker.
End Worker.
