(* ===== verification/NetworkFacts.v ===== *)
(** Facts about connections, proved against the interfaces: on every byte stream
    a client sends before it closes, [handle] computes [serve], a function of the
    bytes and the engine; pipelined commands are answered in order. *)

From Stdlib Require Import ZArith Lia String.
From stdpp Require Import base gmap list strings.
From S2P Require Import Prelude Fmt Errors Protocol World Wal Engine Network.
Open Scope string_scope.
Open Scope list_scope.
Open Scope Z_scope.

(** A peer that has closed its side: reading past what it sent is end of file. *)
Class ReadClosed (R : Type) `{ReadLaws R} := {
  read_exact_eof : forall n r, len (incoming r) < n ->
    exists r', Protocol.read_exact n r = (Err (Io UnexpectedEof), r')
}.

(** A socket whose writes go through. *)
Class WriteReliable (W : Type) `{WriteLaws W} := {
  write_all_ok : forall bs w, exists w', Protocol.write_all bs w = (Ok tt, w');
  flush_ok : forall w, exists w', Protocol.flush w = (Ok tt, w')
}.

(** Configuring a socket does not touch what the peer sent ([received]) or what
    was sent to it, and does not panic. *)
Class TcpStreamLaws (S R W : Type) `{TcpStream S R W} `{ReadLaws R} `{WriteLaws W} := {
  received : S -> bytes;
  sock_addr_returns : forall s, returns (sock_addr s);
  set_nodelay_keeps : forall b s, let '(x, s') := set_nodelay b s in returns x /\ received s' = received s;
  try_clone_keeps : forall s, let '(x, s') := try_clone s in
    match x with Ok c => received c = received s | Err _ => True | _ => False end;
  buf_reader_incoming : forall s, incoming (buf_reader s) = received s;
  read_timeout_keeps : forall n r, let '(x, r') := set_read_timeout n r in
    returns x /\ incoming r' = incoming r;
  write_timeout_returns : forall n w, returns (set_write_timeout n w).1;
  shutdown_returns : forall w, returns (shutdown_write w).1
}.

Section Serve.
Context {E : Type} `{HE : Executor E} `{HT : IoText}.

Definition too_large (n : Z) : AtlasError :=
  Protocol ("Payload too large: " +:+ dec n +:+ " bytes (max " +:+ dec Codec.MAX_PAYLOAD_SIZE +:+ ")").

(** What is sent back, how the connection ends, and the engine afterwards. *)
Definition served : Type := bytes * outcome unit * E.

Definition refuse (er : AtlasError) (e : E) : served :=
  (Codec.encode_response (Response.error (to_string er)), Err er, e).

Fixpoint serve (fuel : nat) (bs : bytes) (e : E) : served :=
  match fuel with
  | O => ([], OutOfFuel, e)
  | S fuel' =>
      match Codec.frame_len bs with
      | None =>
          if (Codec.HEADER_SIZE <=? len bs) && (Codec.MAX_PAYLOAD_SIZE <? from_be (sub 1 4 bs))
          then refuse (too_large (from_be (sub 1 4 bs))) e
          else ([], Ok tt, e)
      | Some m =>
          match Codec.decode_command bs with
          | Ok c =>
              let '(r, e') := exec c e in
              match Connection.to_response r with
              | Ok resp =>
                  let '(out, res, e'') := serve fuel' (zdrop m bs) e' in
                  (Codec.encode_response resp ++ out, res, e'')
              | Err er => ([], Err er, e')
              | Panic => ([], Panic, e')
              | OutOfFuel => ([], OutOfFuel, e')
              end
          | Err er => refuse er e
          | Panic => ([], Panic, e)
          | OutOfFuel => ([], OutOfFuel, e)
          end
      end
  end.

Lemma returns_dec {A} (r : outcome A) : {returns r} + {~ returns r}.
Proof. destruct r; simpl; auto. Qed.

Lemma to_response_returns r : returns r -> exists resp, Connection.to_response r = Ok resp.
Proof. destruct r as [[v|]|[]| |]; simpl; try done; eauto. Qed.

(** A header that announces more than the limit. *)
Definition oversized (bs : bytes) : bool :=
  (Codec.HEADER_SIZE <=? len bs) && (Codec.MAX_PAYLOAD_SIZE <? from_be (sub 1 4 bs)).

(** The same without fuel: what a connection does with the bytes it is sent, as a
    finite derivation.  It is out of fuel only if the engine was. *)
Inductive serves : bytes -> E -> bytes -> outcome unit -> E -> Prop :=
| sv_end bs e :
    Codec.frame_len bs = None -> oversized bs = false -> serves bs e [] (Ok tt) e
| sv_oversized bs e :
    Codec.frame_len bs = None -> oversized bs = true ->
    let er := too_large (from_be (sub 1 4 bs)) in
    serves bs e (Codec.encode_response (Response.error (to_string er))) (Err er) e
| sv_malformed bs m er e :
    Codec.frame_len bs = Some m -> Codec.decode_command bs = Err er ->
    serves bs e (Codec.encode_response (Response.error (to_string er))) (Err er) e
| sv_lost bs m c r e e' :
    Codec.frame_len bs = Some m -> Codec.decode_command bs = Ok c -> exec c e = (r, e') ->
    ~ returns r -> serves bs e [] (r ≫= fun _ => mret tt) e'
| sv_command bs m c r resp e e1 out res e2 :
    Codec.frame_len bs = Some m -> Codec.decode_command bs = Ok c -> exec c e = (r, e1) ->
    Connection.to_response r = Ok resp -> serves (zdrop m bs) e1 out res e2 ->
    serves bs e (Codec.encode_response resp ++ out) res e2.

Lemma serves_fun bs e out res e' out2 res2 e2 :
  serves bs e out res e' -> serves bs e out2 res2 e2 -> (out2, res2, e2) = (out, res, e').
Proof.
  intros H. revert out2 res2 e2.
  induction H as [| | |bs m c r e e' Hf Hd Hx Hn|bs m c r resp e e1 out res e2 Hf Hd Hx Hr _ IH];
    intros out2 res2 e3; inversion 1; subst; simplify_eq; try congruence.
  all: repeat match goal with H : ?a = _, H' : ?a = _ |- _ => rewrite H in H'; progress simplify_eq end.
  - done.
  - match goal with H : ~ returns ?x |- _ => destruct x as [[]|[]| |]; done || by destruct (H I) end.
  - match goal with H : ~ returns ?x |- _ => destruct x as [[]|[]| |]; done || by destruct (H I) end.
  - match goal with H : serves (zdrop _ _) _ _ _ _ |- _ => apply IH in H; by simplify_eq end.
Qed.

(** Enough fuel for the bytes is enough. *)
Lemma serve_serves fuel : forall bs e,
  len bs < Z.of_nat fuel -> let '(out, res, e') := serve fuel bs e in serves bs e out res e'.
Proof.
  induction fuel as [|fuel IH]; intros bs e Hf; [pose_len; lia|]. cbn [serve].
  destruct (Codec.frame_len bs) as [m|] eqn:Hfr.
  2: { fold (oversized bs). destruct (oversized bs) eqn:Ho; [by apply sv_oversized|by apply sv_end]. }
  pose proof (Codec.decode_command_within bs) as Hd.
  pose proof (Codec.frame_len_bounds _ _ Hfr) as (Hm & _ & _). unfold Codec.HEADER_SIZE in Hm.
  destruct (Codec.decode_command bs) as [c|er| |] eqn:Hdc; try done; [|by eapply sv_malformed].
  destruct (exec c e) as [r e1] eqn:Hex. specialize (IH (zdrop m bs) e1).
  rewrite len_zdrop in IH by lia.
  destruct (returns_dec r) as [Hret|Hn].
  - destruct (to_response_returns r Hret) as [resp Hresp]. rewrite Hresp.
    destruct (serve fuel (zdrop m bs) e1) as [[out res] e2]. eapply sv_command; eauto. apply IH. lia.
  - destruct r; try (by destruct Hn); exact (sv_lost bs m c _ e e1 Hfr Hdc Hex Hn).
Qed.

(** Only the engine can keep a connection from ending. *)
Lemma serves_ends bs e out res e' :
  (forall c e0, (exec c e0).1 <> OutOfFuel) -> serves bs e out res e' -> res <> OutOfFuel.
Proof.
  intros Hx. induction 1 as [| | |bs m c r e e' Hf Hd Hex Hn|]; try done.
  specialize (Hx c e). rewrite Hex in Hx. by destruct r.
Qed.

(** The run of a list of commands: responses in order. *)
Fixpoint respond (cs : list Command.t) (e : E) : outcome (bytes * E) :=
  match cs with
  | [] => Ok ([], e)
  | c :: cs' =>
      let '(r, e') := exec c e in
      resp ← Connection.to_response r;
      x ← respond cs' e';
      mret (Codec.encode_response resp ++ x.1, x.2)
  end.

Lemma encode_command_len c : Codec.HEADER_SIZE <= len (Codec.encode_command c).
Proof. unfold Codec.encode_command, Codec.HEADER_SIZE. len_lia. Qed.

(** Pipelined commands. *)
Lemma serve_commands cs : forall fuel e out e',
  Forall Codec.fits cs -> respond cs e = Ok (out, e') -> (length cs < fuel)%nat ->
  serve fuel (concat (map Codec.encode_command cs)) e = (out, Ok tt, e').
Proof.
  induction cs as [|c cs IH]; intros [|fuel] e out e' Hfit Hr Hf; simpl in Hf; try lia.
  - by injection Hr as <- <-.
  - inversion Hfit; subst. cbn [map concat serve].
    rewrite Codec.frame_len_encode, Codec.decode_encode_command, zdrop_app_exact by done.
    cbn [respond] in Hr. destruct (exec c e) as [r e1].
    apply obind_ok_inv in Hr as (resp & -> & Hr). apply obind_ok_inv in Hr as ([o2 e2] & Hr2 & Hr).
    injection Hr as <- <-. by rewrite (IH fuel e1 o2 e2) by (done || lia).
Qed.
End Serve.

Section Handle.
Context {R : Type} `{HR : ReadClosed R} {W : Type} `{HW : WriteReliable W}.
Context {E : Type} `{HE : Executor E} `{HT : IoText}.
Context (addr : string).

(** The stream reader when no complete, acceptable frame will ever arrive. *)
Lemma read_command_none r :
  Codec.frame_len (incoming r) = None ->
  exists r', Codec.read_command r =
    (if (Codec.HEADER_SIZE <=? len (incoming r)) &&
        (Codec.MAX_PAYLOAD_SIZE <? from_be (sub 1 4 (incoming r)))
     then Err (too_large (from_be (sub 1 4 (incoming r)))) else Err (Io UnexpectedEof), r').
Proof.
  intros Hf. set (bs := incoming r) in *. unfold Codec.frame_len in Hf.
  unfold Codec.read_command. destruct (Z.ltb_spec (len bs) Codec.HEADER_SIZE) as [Hs|Hs].
  { destruct (read_exact_eof Codec.HEADER_SIZE r Hs) as [r' Er]. exists r'.
    rewrite (bind_err _ _ _ _ _ Er). by rewrite (proj2 (Z.leb_gt _ _) Hs). }
  rewrite (proj2 (Z.leb_le _ _) Hs). cbn [andb]. unfold Codec.HEADER_SIZE in *.
  destruct (read_exact_enough 5 r) as (r1 & E1 & I1); [fold bs; lia|]. fold bs in E1, I1.
  rewrite (bind_ok _ _ _ _ _ E1).
  assert (Hh : sub 1 4 (ztake 5 bs) = sub 1 4 bs).
  { rewrite <- (ztake_zdrop 5 bs) at 2. symmetry. apply sub_app_l; [lia..|]. rewrite len_ztake; lia. }
  assert (Hu : Codec.u32_be_at 1 (ztake 5 bs) = Ok (from_be (sub 1 4 bs))).
  { rewrite Codec.u32_be_at_sub by (rewrite ?len_ztake; lia). by rewrite Hh. }
  set (n := from_be (sub 1 4 bs)) in *.
  rewrite (bind_ok _ _ r1 n r1) by (unfold lift; by rewrite Hu).
  destruct (Z.ltb_spec Codec.MAX_PAYLOAD_SIZE n) as [Hbig|Hbig]; [by exists r1|].
  rewrite (proj2 (Z.leb_le _ _) Hbig) in Hf. cbn [andb] in Hf.
  destruct (Z.leb_spec (5 + n) (len bs)) as [|Hshort]; [done|].
  rewrite (proj2 (Z.ltb_lt 0 n)) by lia.
  destruct (read_exact_eof n r1) as [r2 E2]; [rewrite I1, len_zdrop; lia|].
  exists r2. by rewrite (bind_err _ _ _ _ _ E2).
Qed.

Lemma write_response_ok resp w :
  exists w', Codec.write_response resp w = (Ok tt, w') /\
    outgoing w' = outgoing w ++ Codec.encode_response resp.
Proof.
  unfold Codec.write_response. destruct (write_all_ok (Codec.encode_response resp) w) as [w1 E1].
  rewrite (bind_ok _ _ _ _ _ E1). destruct (flush_ok w1) as [w2 E2]. exists w2. split; [done|].
  rewrite (flush_sent _ _ E2). by apply write_all_sent.
Qed.

(** One step lemma per outcome of reading. *)
Lemma send_ok resp (s : Connection.t R W E) :
  exists w', Connection.send_response resp s =
      (Ok tt, Connection.mk (Connection.reader s) w' (Connection.engine s) (Connection.peer_addr s)) /\
    outgoing w' = outgoing (Connection.writer s) ++ Codec.encode_response resp.
Proof.
  destruct (write_response_ok resp (Connection.writer s)) as (w' & E1 & Hw). exists w'.
  unfold Connection.send_response, Connection.on_writer, zoom. by rewrite E1.
Qed.

Lemma read_step r x r1 (w : W) (e : E) :
  Codec.read_command r = (x, r1) -> returns x ->
  catch (Connection.on_reader Codec.read_command) (Connection.mk r w e addr) = (Ok x, Connection.mk r1 w e addr).
Proof. intros Hr Hx. unfold catch, Connection.on_reader, zoom. simpl. rewrite Hr. by destruct x. Qed.

Lemma receive_ok r c r1 (w : W) (e : E) :
  Codec.read_command r = (Ok c, r1) ->
  Connection.receive (Connection.mk r w e addr) = (Ok (Some c), Connection.mk r1 w e addr).
Proof. intros Hr. unfold Connection.receive. by rewrite (bind_ok _ _ _ _ _ (read_step r _ r1 w e Hr I)). Qed.

Lemma deliver_ok resp (r : R) w (e : E) :
  exists w', Connection.deliver resp (Connection.mk r w e addr) = (Ok true, Connection.mk r w' e addr) /\
    outgoing w' = outgoing w ++ Codec.encode_response resp.
Proof.
  destruct (send_ok resp (Connection.mk r w e addr)) as (w' & Hs & Hw). exists w'. split; [|done].
  unfold Connection.deliver. rewrite (bind_ok (catch _) _ _ (Ok tt) (Connection.mk r w' e addr)); [done|].
  unfold catch. by rewrite Hs.
Qed.

Lemma exec_step c (r : R) (w : W) (e : E) r0 e1 :
  exec c e = (r0, e1) ->
  Connection.execute_command c (Connection.mk r w e addr) =
    (Connection.to_response r0, Connection.mk r w e1 addr).
Proof.
  intros He. unfold Connection.execute_command, catch, Connection.on_engine, zoom, mbind, ST_bind.
  simpl. rewrite He. by destruct r0.
Qed.

Lemma handle_command fuel r w e c r1 r0 e1 resp :
  Codec.read_command r = (Ok c, r1) -> exec c e = (r0, e1) -> Connection.to_response r0 = Ok resp ->
  exists w', outgoing w' = outgoing w ++ Codec.encode_response resp /\
    Connection.handle_loop (S fuel) (Connection.mk r w e addr) =
    Connection.handle_loop fuel (Connection.mk r1 w' e1 addr).
Proof.
  intros Hr He Hresp. destruct (deliver_ok resp r1 w e1) as (w' & Hs & Hw).
  exists w'. split; [done|]. cbn [Connection.handle_loop].
  rewrite (bind_ok _ _ _ _ _ (receive_ok r c r1 w e Hr)).
  pose proof (exec_step c r1 w e r0 e1 He) as Hex. rewrite Hresp in Hex.
  by rewrite (bind_ok _ _ _ _ _ Hex), (bind_ok _ _ _ _ _ Hs).
Qed.

(** The engine panicked: nothing is sent. *)
Lemma handle_panic fuel r w e c r1 e1 r0 :
  Codec.read_command r = (Ok c, r1) -> exec c e = (r0, e1) -> ~ returns r0 ->
  Connection.handle_loop (S fuel) (Connection.mk r w e addr) =
    (match r0 with Panic => Panic | _ => OutOfFuel end, Connection.mk r1 w e1 addr).
Proof.
  intros Hr He Hn. cbn [Connection.handle_loop].
  rewrite (bind_ok _ _ _ _ _ (receive_ok r c r1 w e Hr)).
  unfold mbind at 1, ST_bind at 1. rewrite (exec_step c r1 w e r0 e1 He).
  destruct r0; [by destruct Hn|by destruct Hn|done|done].
Qed.

(** A read that fails for good: the client is told why. *)
Lemma handle_refuse fuel r w e er r1 :
  Codec.read_command r = (Err er, r1) -> (forall k, er <> Io k) ->
  exists w', outgoing w' = outgoing w ++ Codec.encode_response (Response.error (to_string er)) /\
    Connection.handle_loop (S fuel) (Connection.mk r w e addr) = (Err er, Connection.mk r1 w' e addr).
Proof.
  intros Hr Hk. destruct (send_ok (Response.error (to_string er)) (Connection.mk r1 w e addr)) as (w' & Hs & Hw).
  exists w'. split; [done|]. cbn [Connection.handle_loop]. apply bind_err. unfold Connection.receive.
  rewrite (bind_ok _ _ _ _ _ (read_step r _ r1 w e Hr I)).
  assert (Hc : catch (Connection.send_response (Response.error (to_string er)))
    (Connection.mk r1 w e addr) = (Ok (Ok tt), Connection.mk r1 w' e addr)) by (unfold catch; by rewrite Hs).
  destruct er; try (by destruct (Hk kind)); by rewrite (bind_ok _ _ _ _ _ Hc).
Qed.

Lemma handle_eof fuel r w e r1 :
  Codec.read_command r = (Err (Io UnexpectedEof), r1) ->
  Connection.handle_loop (S fuel) (Connection.mk r w e addr) = (Ok tt, Connection.mk r1 w e addr).
Proof.
  intros Hr. cbn [Connection.handle_loop].
  rewrite (bind_ok Connection.receive _ _ None (Connection.mk r1 w e addr)); [done|]. unfold Connection.receive.
  by rewrite (bind_ok _ _ _ _ _ (read_step r _ r1 w e Hr I)).
Qed.

Lemma handle_serve fuel : forall r w e,
  len (incoming r) < Z.of_nat fuel ->
  let '(out, res, e') := serve fuel (incoming r) e in
  exists r' w', Connection.handle fuel (Connection.mk r w e addr) = (res, Connection.mk r' w' e' addr) /\
    outgoing w' = outgoing w ++ out.
Proof.
  unfold Connection.handle. induction fuel as [|fuel IH]; intros r w e Hf; [pose_len; lia|].
  cbn [serve]. destruct (Codec.frame_len (incoming r)) as [m|] eqn:Hfr.
  2: { destruct (read_command_none r Hfr) as (r1 & E1). destruct (_ && _).
       - destruct (handle_refuse fuel r w e _ r1 E1) as (w' & Hw & Hh); [done|]. simpl. eauto.
       - rewrite (handle_eof fuel r w e r1 E1). exists r1, w. by rewrite app_nil_r. }
  destruct (Codec.read_command_frame r m Hfr) as (r1 & E1 & I1).
  pose proof (Codec.decode_command_within (incoming r)) as Hd.
  pose proof (Codec.frame_len_bounds _ _ Hfr) as (Hm & _ & _). unfold Codec.HEADER_SIZE in Hm.
  destruct (Codec.decode_command (incoming r)) as [c|er| |]; try done.
  2: { destruct (handle_refuse fuel r w e _ r1 E1) as (w' & Hw & Hh); [by destruct er|]. simpl. eauto. }
  destruct (exec c e) as [r0 e1] eqn:Hex.
  destruct (returns_dec r0) as [Hret|Hn].
  - destruct (to_response_returns r0 Hret) as [resp Hresp]. rewrite Hresp.
    destruct (handle_command fuel r w e c r1 r0 e1 resp E1 Hex Hresp) as (w2 & Hw2 & ->).
    specialize (IH r1 w2 e1). rewrite I1, len_zdrop in IH by lia.
    destruct (serve fuel (zdrop m (incoming r)) e1) as [[out res] e2].
    destruct (IH ltac:(lia)) as (r3 & w3 & -> & Hw3). exists r3, w3.
    split; [done|]. by rewrite Hw3, Hw2, <- app_assoc.
  - rewrite (handle_panic fuel r w e c r1 e1 r0 E1 Hex Hn).
    destruct r0; [by destruct Hn|by destruct Hn|..]; exists r1, w; by rewrite app_nil_r.
Qed.

(** The whole loop on commands sent back to back. *)
Lemma handle_commands cs fuel r w e out e' :
  Forall Codec.fits cs -> incoming r = concat (map Codec.encode_command cs) ->
  respond cs e = Ok (out, e') -> len (incoming r) < Z.of_nat fuel ->
  exists r' w', Connection.handle fuel (Connection.mk r w e addr) = (Ok tt, Connection.mk r' w' e' addr) /\
    outgoing w' = outgoing w ++ out.
Proof.
  intros Hfit Hin Hresp Hfuel. pose proof (handle_serve fuel r w e Hfuel) as Hs.
  assert (Hlen : len cs <= len (incoming r)).
  { rewrite Hin. clear. induction cs as [|c cs IH]; [done|]. cbn [map concat]. rewrite len_app, len_cons.
    pose proof (encode_command_len c). unfold Codec.HEADER_SIZE in *. lia. }
  rewrite Hin in Hs. rewrite (serve_commands cs fuel e out e') in Hs; [done..|].
  unfold len in *. lia.
Qed.
End Handle.

(** ** A connection in the hands of a worker *)

Section Worker.
Context {S R W : Type} `{HS : TcpStreamLaws S R W} {HRc : ReadClosed R} {HWr : WriteReliable W}.
Context {E : Type} `{HE : Executor E} `{HT : IoText}.

Lemma new_cases stream (e : E) :
  (exists er, Connection.new stream e = Err er) \/
  exists r w addr, Connection.new stream e = Ok (Connection.mk r w e addr) /\ incoming r = received stream.
Proof.
  unfold Connection.new. pose proof (set_nodelay_keeps true stream) as Hn.
  destruct (set_nodelay true stream) as [[u|er| |] s1] eqn:En; destruct Hn as [Hn Hs]; try done.
  2: { left. exists er. by rewrite (bind_err _ _ _ _ _ En). }
  rewrite (bind_ok _ _ _ _ _ En). pose proof (try_clone_keeps s1) as Hc.
  destruct (try_clone s1) as [[c|er| |] s2]; try done; [|left; by exists er].
  right. do 3 eexists. split; [reflexivity|]. by rewrite buf_reader_incoming, Hc.
Qed.

Lemma write_timeout_step wr (c : Connection.t R W E) :
  exists x w', (if 0 <? wr then Connection.on_writer (set_write_timeout wr) else mret tt) c =
    (x, Connection.mk (Connection.reader c) w' (Connection.engine c) (Connection.peer_addr c)) /\ returns x.
Proof.
  destruct c as [r w e addr]. destruct (0 <? wr); [|by exists (Ok tt), w].
  pose proof (write_timeout_returns wr w) as Hx. unfold Connection.on_writer, zoom. simpl.
  destruct (set_write_timeout wr w) as [x w']. eauto.
Qed.

Lemma set_timeouts_keeps rd wr (c : Connection.t R W E) :
  exists x r' w', Connection.set_timeouts rd wr c =
    (x, Connection.mk r' w' (Connection.engine c) (Connection.peer_addr c)) /\ returns x /\
    incoming r' = incoming (Connection.reader c).
Proof.
  destruct c as [r w e addr]. unfold Connection.set_timeouts. simpl. destruct (0 <? rd).
  - pose proof (read_timeout_keeps rd r) as Hr. unfold mbind, ST_bind, Connection.on_reader at 1, zoom at 1.
    simpl. destruct (set_read_timeout rd r) as [[u|er| |] r1]; destruct Hr as [Hx Hr]; try done; [|eauto 10].
    destruct (write_timeout_step wr (Connection.mk r1 w e addr)) as (x & w' & -> & Hx'). eauto 10.
  - rewrite (bind_ok (mret tt) _ _ tt (Connection.mk r w e addr)) by done.
    destruct (write_timeout_step wr (Connection.mk r w e addr)) as (x & w' & -> & Hx). eauto 10.
Qed.

(** After [new], a worker runs the connection to its end. *)
Lemma converse_serves rd wr fuel r w (e : E) addr :
  len (incoming r) < Z.of_nat fuel ->
  let '(out, res, e') := serve fuel (incoming r) e in
  exists c, Worker.converse rd wr fuel (Connection.mk r w e addr) =
    (match res with Ok _ | Err _ => Ok tt | Panic => Panic | OutOfFuel => OutOfFuel end, c) /\
    Connection.engine c = e'.
Proof.
  intros Hf. destruct (set_timeouts_keeps rd wr (Connection.mk r w e addr)) as (x & r1 & w1 & Hs & Hx & Hi).
  cbn [Connection.reader Connection.engine Connection.peer_addr] in *.
  rewrite <- Hi in *. pose proof (handle_serve addr fuel r1 w1 e Hf) as Hh.
  destruct (serve fuel (incoming r1) e) as [[out res] e']. destruct Hh as (r2 & w2 & Hh & _).
  unfold Worker.converse, mbind, ST_bind, catch. rewrite Hs. destruct x as [u|er| |]; try done.
  all: rewrite Hh; destruct res; eexists; split; reflexivity.
Qed.
End Worker.
