(* ===== verification/Session.v ===== *)
(** A client's session: commands one after the other on one engine, against the
    map.  The sizes that every write must respect follow from one bound on the
    session as a whole. *)

From Stdlib Require Import ZArith Lia String.
From stdpp Require Import base gmap list strings.
From S2P Require Import Prelude Fmt Errors BTreeMap Memtable Protocol World WorldFacts Config Wal.
From S2P Require Import WalFacts Sstable SstableFacts SstableReaderFacts Storage StorageFacts Engine.
From S2P Require Import EngineFacts Register Network NetworkFacts.
Open Scope string_scope.
Open Scope list_scope.
Open Scope Z_scope.

(** ** The size of the memtable's table file *)

Definition op_cost (op : Operation.t) : Z :=
  match op with
  | Operation.Put k v => 20 + 2 * len k + len v
  | Operation.Delete k => 20 + 2 * len k
  end.

Definition entry_cost (e : entry) : Z := 20 + 2 * len e.1 + len (default [] e.2).
Definition table_cost (es : list entry) : Z := foldr (fun e acc => entry_cost e + acc) 0 es.

Lemma table_cost_nonneg es : 0 <= table_cost es.
Proof. induction es as [|e es IH]; simpl; unfold entry_cost; pose_len; lia. Qed.

Lemma table_cost_insert k x d :
  table_cost (entries_of (BTreeMap.insert k x d)) <= table_cost (entries_of d) + entry_cost (k, to_opt x).
Proof.
  induction d as [|[k' x'] d IH]; simpl; [lia|].
  pose proof (table_cost_nonneg (entries_of d)). unfold entry_cost in *.
  destruct (bytes_cmp k k'); simpl in *; unfold entry_cost in *; simpl in *; pose_len; lia.
Qed.

Section Weight.
Context `{HC : Crc32} {HCok : Crc32Ok}.

Lemma len_sst_cost es : len (sst_encode es) = 30 + table_cost es.
Proof.
  rewrite len_sst_encode, len_index_offsets. unfold index_start, HEADER_SIZE, FOOTER_SIZE.
  assert (len (data_block es) + foldr (fun e acc => 12 + len e.1 + acc) 0 es = table_cost es); [|lia].
  induction es as [|e es IH]; [done|]. change (e :: es) with ([e] ++ es) at 1.
  rewrite data_block_app, len_app. simpl. unfold data_block at 1, entry_cost. simpl. rewrite app_nil_r.
  unfold entry_bytes. autorewrite with len. lia.
Qed.

Definition weight (m : MemTable.t) : Z := len (sst_encode (entries_of (MemTable.data m))).

Lemma weight_apply op m : weight (mem_apply op m) <= weight m + op_cost op.
Proof.
  unfold weight. rewrite !len_sst_cost. destruct op as [k v|k]; simpl.
  - pose proof (table_cost_insert k (Value v) (MemTable.data m)). unfold entry_cost in *. simpl in *. lia.
  - pose proof (table_cost_insert k Tombstone (MemTable.data m)). unfold entry_cost in *. simpl in *.
    rewrite len_nil in *. lia.
Qed.

Lemma weight_empty m m' : MemTable.is_empty m' = true -> weight m' <= weight m.
Proof.
  intros H. apply MemTable.is_empty_data in H. unfold weight. rewrite !len_sst_cost, H.
  pose proof (table_cost_nonneg (entries_of (MemTable.data m))). simpl. lia.
Qed.
End Weight.

(** ** Sessions *)

Definition command_cost (c : Command.t) : Z :=
  match writes (Exec c) with Some op => op_cost op | None => 0 end.

Definition session_cost (cs : list Command.t) : Z := foldr (fun c acc => command_cost c + acc) 0 cs.

(** The replies of a map to the commands, and the map afterwards. *)
Fixpoint map_replies (cs : list Command.t) (kv : gmap bytes bytes) : list (option bytes) :=
  match cs with
  | [] => []
  | c :: cs' => answer (Exec c) kv :: map_replies cs' (effect (Exec c) kv)
  end.

Fixpoint map_after (cs : list Command.t) (kv : gmap bytes bytes) : gmap bytes bytes :=
  match cs with
  | [] => kv
  | c :: cs' => map_after cs' (effect (Exec c) kv)
  end.

(** The bytes of the replies on the wire. *)
Definition reply_bytes (vs : list (option bytes)) : bytes :=
  concat (map (fun v => Codec.encode_response (Response.ok v)) vs).

Section Session.
Context `{HC : Crc32} {HCok : Crc32Ok} `{HB : WalEntry.Bincode} {HBok : WalEntry.BincodeOk}.
Context `{HT : IoText}.

(** The session fits the frames of the protocol, the table files and the table ids. *)
Definition session_room (e : Engine.t) (cs : list Command.t) : Prop :=
  weight (Engine.memtable e) + session_cost cs < 2 ^ 63 /\
  next_id e + len cs < 2 ^ 64 - 1 /\ Forall Codec.fits cs.

(** What fits a frame fits a log entry. *)
Lemma frame_op_size c op : Codec.fits c -> writes (Exec c) = Some op -> op_size op < 2 ^ 32.
Proof.
  unfold Codec.fits, op_size, WalEntry.encoded_size. rewrite Codec.command_payload_len.
  unfold Codec.MAX_PAYLOAD_SIZE. destruct c; simpl; intros H [= <-]; simpl; pose_len; lia.
Qed.

Lemma session_cost_nonneg cs : 0 <= session_cost cs.
Proof.
  induction cs as [|c cs IH]; simpl; [done|]. unfold command_cost, op_cost.
  destruct c; simpl; pose_len; lia.
Qed.

Lemma session_fits e c cs op :
  session_room e (c :: cs) -> writes (Exec c) = Some op -> fits e op.
Proof.
  intros (Hw & _ & Hs) Hop. inversion Hs as [|? ? Hc _]; subst. split; [by eapply frame_op_size|].
  pose proof (weight_apply op (Engine.memtable e)). unfold weight in *. simpl in Hw.
  unfold command_cost in Hw. rewrite Hop in Hw. pose proof (session_cost_nonneg cs). lia.
Qed.

Lemma wp_execute now c cs e w ts kv :
  engine_ok e w ts kv -> 0 <= now -> session_room e (c :: cs) ->
  wp (Engine.execute now c) (e, w)
    (fun res s => res = answer (Exec c) kv /\ (exists ts', engine_ok s.1 s.2 ts' (effect (Exec c) kv)) /\
       session_room s.1 cs) (fun _ => True).
Proof.
  intros Hok Hnow Hroom. pose proof Hroom as (Hw & Hn & Hs). rewrite len_cons in Hn. pose proof (len_nonneg cs).
  inversion Hs as [|? ? _ Hs']; subst. simpl in Hw.
  assert (Hids : ids_left e) by (unfold ids_left; lia).
  assert (Hwrite : forall op, writes (Exec c) = Some op ->
    wp (write now op) (e, w) (fun _ s => (exists ts', engine_ok s.1 s.2 ts' (kv_apply op kv)) /\
      session_room s.1 cs) (fun _ => True)).
  { intros op Hop. eapply wp_conseq; [apply (wp_write now op e w ts kv); eauto using session_fits| |done].
    intros _ s (ts' & Hok' & _ & Hmem & Hid). split; [eauto|]. split_and!; [|lia|done].
    unfold command_cost in Hw. rewrite Hop in Hw. destruct Hmem as [->|Hemp].
    - pose proof (weight_apply op (Engine.memtable e)). lia.
    - pose proof (weight_empty (Engine.memtable e) _ Hemp).
      assert (0 <= op_cost op) by (unfold op_cost; destruct op; pose_len; lia). lia. }
  assert (Hkeep : command_cost c = 0 -> session_room e cs) by (intros E; split_and!; [lia|lia|done]).
  destruct c as [k|k v|k|]; cbn [Engine.execute answer effect writes] in *.
  - eapply wp_conseq; [by eapply wp_get| |done]. intros res s (-> & Hok' & _ & st' & Hst & Hid).
    split; [done|]. split; [eauto|]. rewrite Hst. destruct (Hkeep eq_refl) as (A & B & D).
    split_and!; [done| |done]. simpl. lia.
  - eapply wp_bind; [exact (Hwrite _ eq_refl)| |done]. intros ? s H1. by apply wp_ret.
  - eapply wp_bind; [exact (Hwrite _ eq_refl)| |done]. intros ? s H1. by apply wp_ret.
  - apply wp_ret. split; [done|]. split; [eauto|]. by apply Hkeep.
Qed.

(** The connection's run over an engine that does not fail. *)
Lemma respond_session (clock : nat -> Z) cs : forall n e w ts kv,
  engine_ok e w ts kv -> quiet w -> (forall t, 0 <= clock t) -> session_room e cs ->
  exists e' w' ts',
    respond (HE := engine_execute clock) cs (mkClocked n e w) =
      Ok (reply_bytes (map_replies cs kv), mkClocked (n + length cs) e' w') /\
    engine_ok e' w' ts' (map_after cs kv).
Proof.
  induction cs as [|c cs IH]; intros n e w ts kv Hok Hq Hclock Hroom; simpl.
  { exists e, w, ts. by rewrite Nat.add_0_r. }
  destruct (wp_quiet _ _ _ _ (wp_execute (clock n) c cs e w ts kv Hok (Hclock n) Hroom) Hq)
    as (res & [e1 w1] & Hrun & (-> & [ts1 Hok1] & Hroom1) & Hq1). cbn [fst snd] in *.
  destruct (IH (S n) e1 w1 ts1 _ Hok1 Hq1 Hclock Hroom1) as (e' & w' & ts' & Hresp & Hok').
  exists e', w', ts'. unfold exec, engine_execute at 1. cbn [ticks engine world]. rewrite Hrun.
  assert (Connection.to_response (Ok (answer (Exec c) kv)) = Ok (Response.ok (answer (Exec c) kv))) as ->
    by by destruct (answer (Exec c) kv).
  rewrite obind_Ok. unfold exec in Hresp. rewrite Hresp. split; [|done]. simpl. by rewrite Nat.add_succ_r.
Qed.

(** Every reply fits a frame if the map's values do. *)
Definition values_fit (kv : gmap bytes bytes) : Prop :=
  forall k v, kv !! k = Some v -> len v <= Codec.MAX_PAYLOAD_SIZE.

Lemma map_replies_fit cs : forall kv,
  Forall Codec.fits cs -> values_fit kv ->
  Forall (fun v => len (default [] v) <= Codec.MAX_PAYLOAD_SIZE) (map_replies cs kv).
Proof.
  induction cs as [|c cs IH]; intros kv Hf Hv; simpl; [constructor|].
  inversion Hf as [|? ? Hc Hf']; subst. constructor.
  - destruct c as [k| | |]; simpl; try done. destruct (kv !! k) eqn:E; [by eapply Hv|done].
  - apply IH; [done|]. destruct c as [k|k v|k|]; simpl; try done; unfold effect; simpl.
    + intros k' v'. destruct (decide (k' = k)) as [->|Hne].
      * rewrite lookup_insert_eq. intros [= <-]. unfold Codec.fits in Hc.
        rewrite Codec.command_payload_len in Hc. pose_len. lia.
      * rewrite lookup_insert_ne by done. apply Hv.
    + intros k' v' [_ E]%lookup_delete_Some. by eapply Hv.
Qed.
End Session.
