(* ===== verification/Server.v ===== *)
(** The server: [src/src/network/server.rs], as a state machine.  One thread
    accepts connections and hands them to a pool of workers over a bounded
    channel; each label below is one atomic action of one thread, and [step]
    says when it is enabled and what it does.  Sockets are numbers. *)

From Stdlib Require Import ZArith Lia String.
From stdpp Require Import base list strings relations.
From S2P Require Import Prelude Fmt Errors Config.
Open Scope string_scope.
Open Scope list_scope.
Open Scope Z_scope.

(** What starting a server asks of the platform: binding the listener and making
    it non-blocking, the number of CPUs, and a thread for each worker. *)
Class Platform := {
  bind : string -> outcome unit;
  set_nonblocking : outcome unit;
  available_parallelism : outcome nat;
  spawn : string -> outcome unit
}.

Module Server.

(** [enum WorkerMessage]. *)
Inductive WorkerMessage := NewConnection (stream : nat) | Shutdown.

(** Where a worker is: in [recv], holding a connection it has not counted yet,
    inside [handle_connection], out of its loop, or gone with a panic. *)
Inductive worker := Idle | Received (stream : nat) | Handling (stream : nat) | Stopped | Panicked.

(** Where the accepting thread is: at the loop test, in [accept], in [send], in
    [cleanup] with [k] signals to send, joining the workers, finished. *)
Inductive phase :=
| Accepting
| Polling
| Dispatching (stream : nat)
| CleanupSend (k : nat)
| Joining
| Done.

#[global] Instance WorkerMessage_eq_dec : EqDecision WorkerMessage.
Proof. solve_decision. Defined.
#[global] Instance worker_eq_dec : EqDecision worker.
Proof. solve_decision. Defined.
#[global] Instance phase_eq_dec : EqDecision phase.
Proof. solve_decision. Defined.

(** [sent] and [taken] record the connections put in and taken out of the
    channel, oldest first; [rejected] those turned away. *)
Record t := mk {
  main : phase;
  queue : list WorkerMessage;
  workers : list worker;
  active_connections : Z;
  shutdown_flag : bool;
  sent : list nat;
  taken : list nat;
  rejected : list nat
}.

(** [Server::new] and the start of [run], with [n] workers. *)
Definition start (n : nat) : t := mk Accepting [] (replicate n Idle) 0 false [] [] [].

Section Setup.
Context `{HP : Platform} `{HT : IoText}.

(** [map_err] of an [io::Error]. *)
Definition network_error {A} (what : string) (r : outcome A) : outcome A :=
  match r with Err (Io k) => Err (Network (what +:+ io_text k)) | _ => r end.

Definition num_cpus : nat := match available_parallelism with Ok n => n | _ => 4 end.

(** The loop of [run] over the workers, from worker [id] on. *)
Fixpoint spawn_workers (id k : nat) : outcome unit :=
  match k with
  | O => mret tt
  | S k' =>
      _ ← network_error "Failed to spawn worker: " (spawn ("atlaskv-worker-" +:+ dec (Z.of_nat id)));
      spawn_workers (S id) k'
  end.

(** [run] up to the accept loop. *)
Definition setup (config : Config.t) : outcome t :=
  _ ← network_error ("Failed to bind to " +:+ Config.listen_addr config +:+ ": ")
        (bind (Config.listen_addr config));
  _ ← set_nonblocking;
  _ ← spawn_workers 0 num_cpus;
  mret (start num_cpus).
End Setup.

Inductive label :=
| LLoop                       (** the test of [while !shutdown] *)
| LAccept (stream : nat)      (** [accept] returns a connection *)
| LNoClient                   (** [accept] returns an error, [WouldBlock] or other *)
| LSend                       (** [sender.send] goes through *)
| LShutdown                   (** [Server::shutdown] *)
| LJoin                       (** all handles joined *)
| LRecv (i : nat)             (** worker [i] receives *)
| LBegin (i : nat)            (** worker [i] counts its connection *)
| LFinish (i : nat)           (** worker [i] is done with it *)
| LPanic (i : nat)            (** worker [i] panics inside [handle] *)
| LHand (i : nat).            (** [send] meets the [recv] of worker [i] *)

Definition set_main (p : phase) (s : t) : t :=
  mk p (queue s) (workers s) (active_connections s) (shutdown_flag s) (sent s) (taken s) (rejected s).

Definition set_worker (i : nat) (x : worker) (s : t) : t :=
  mk (main s) (queue s) (<[i := x]> (workers s)) (active_connections s) (shutdown_flag s)
     (sent s) (taken s) (rejected s).

Definition add_active (n : Z) (s : t) : t :=
  mk (main s) (queue s) (workers s) (active_connections s + n) (shutdown_flag s)
     (sent s) (taken s) (rejected s).

Definition finished (x : worker) : bool :=
  match x with Stopped | Panicked => true | _ => false end.

Section Step.
Context (max_connections : Z).

(** One iteration of [accept_loop] with a connection in hand. *)
Definition on_accept (stream : nat) (s : t) : t :=
  if max_connections <=? active_connections s then
    mk Accepting (queue s) (workers s) (active_connections s) (shutdown_flag s)
       (sent s) (taken s) (rejected s ++ [stream])
  else set_main (Dispatching stream) s.

(** [send] blocks while the channel is full. *)
Definition has_room (s : t) : bool := len (queue s) <? max_connections.

Definition on_send (s : t) : option t :=
  if has_room s then
    match main s with
    | Dispatching c =>
        Some (mk Accepting (queue s ++ [NewConnection c]) (workers s) (active_connections s)
                (shutdown_flag s) (sent s ++ [c]) (taken s) (rejected s))
    | CleanupSend (S k) =>
        Some (mk (CleanupSend k) (queue s ++ [Shutdown]) (workers s) (active_connections s)
                (shutdown_flag s) (sent s) (taken s) (rejected s))
    | _ => None
    end
  else None.

(** The loop of [Worker::run]. *)
Definition on_recv (i : nat) (s : t) : option t :=
  match workers s !! i, queue s with
  | Some Idle, NewConnection c :: q =>
      Some (mk (main s) q (<[i := Received c]> (workers s)) (active_connections s)
              (shutdown_flag s) (sent s) (taken s ++ [c]) (rejected s))
  | Some Idle, Shutdown :: q =>
      Some (mk (main s) q (<[i := Stopped]> (workers s)) (active_connections s)
              (shutdown_flag s) (sent s) (taken s) (rejected s))
  | _, _ => None
  end.

(** A channel of capacity zero holds nothing: [send] waits for a [recv]. *)
Definition on_hand (i : nat) (s : t) : option t :=
  if max_connections =? 0 then
    match queue s, workers s !! i, main s with
    | [], Some Idle, Dispatching c =>
        Some (mk Accepting [] (<[i := Received c]> (workers s)) (active_connections s)
                (shutdown_flag s) (sent s ++ [c]) (taken s ++ [c]) (rejected s))
    | [], Some Idle, CleanupSend (S k) =>
        Some (mk (CleanupSend k) [] (<[i := Stopped]> (workers s)) (active_connections s)
                (shutdown_flag s) (sent s) (taken s) (rejected s))
    | _, _, _ => None
    end
  else None.

(** [shutdown] stores the flag; storing it twice changes nothing. *)
Definition shutdown (s : t) : t :=
  mk (main s) (queue s) (workers s) (active_connections s) true (sent s) (taken s) (rejected s).

Definition step (l : label) (s : t) : option t :=
  match l with
  | LLoop =>
      match main s with
      | Accepting =>
          Some (set_main (if shutdown_flag s then CleanupSend (length (workers s)) else Polling) s)
      | CleanupSend O => Some (set_main Joining s)
      | _ => None
      end
  | LAccept c => match main s with Polling => Some (on_accept c s) | _ => None end
  | LNoClient => match main s with Polling => Some (set_main Accepting s) | _ => None end
  | LSend => on_send s
  | LShutdown =>
      if shutdown_flag s then None
      else Some (shutdown s)
  | LJoin =>
      match main s with
      | Joining => if forallb finished (workers s) then Some (set_main Done s) else None
      | _ => None
      end
  | LRecv i => on_recv i s
  | LBegin i =>
      match workers s !! i with
      | Some (Received c) => Some (add_active 1 (set_worker i (Handling c) s))
      | _ => None
      end
  | LFinish i =>
      match workers s !! i with
      | Some (Handling _) => Some (add_active (-1) (set_worker i Idle s))
      | _ => None
      end
  | LPanic i =>
      match workers s !! i with
      | Some (Handling _) => Some (set_worker i Panicked s)
      | _ => None
      end
  | LHand i => on_hand i s
  end.

Definition is_running (s : t) : bool := negb (shutdown_flag s).

Inductive reach (n : nat) : t -> Prop :=
| reach_start : reach n (start n)
| reach_step s l s' : reach n s -> step l s = Some s' -> reach n s'.

(** A run without panics. *)
Definition calm (s : t) : Prop := Forall (fun x => x <> Panicked) (workers s).

End Step.
End Server.
