(* ===== verification/ServerFacts.v ===== *)
(** Facts about the server's state machine: the connection counter, first-in
    first-out dispatch, and an orderly shutdown. *)

From Stdlib Require Import ZArith Lia.
From stdpp Require Import base list relations.
From S2P Require Import Prelude Server.
Open Scope list_scope.
Open Scope Z_scope.

Import Server.

(** ** Counting workers *)

Definition count (P : worker -> bool) (l : list worker) : Z :=
  foldr (fun x acc => Z.b2z (P x) + acc) 0 l.

Lemma count_insert P l i x y :
  l !! i = Some x -> count P (<[i := y]> l) = count P l - Z.b2z (P x) + Z.b2z (P y).
Proof.
  revert i. induction l as [|z l IH]; intros [|i] H; simpl in *; simplify_eq; [lia|].
  rewrite IH by done. lia.
Qed.

Lemma count_bounds P l : 0 <= count P l <= len l.
Proof. induction l as [|x l IH]; simpl; [done|]. rewrite len_cons. destruct (P x); simpl; lia. Qed.

Lemma count_zero P l : count P l = 0 -> forall i x, l !! i = Some x -> P x = false.
Proof.
  induction l as [|z l IH]; intros H [|i] x Hx; simpl in *; simplify_eq;
    pose proof (count_bounds P l); destruct (P _) eqn:E; simpl in *; try lia; eauto with lia.
Qed.

Lemma count_all P l : count P l = len l -> Forall (fun x => P x = true) l.
Proof.
  induction l as [|z l IH]; intros H; [constructor|]. rewrite len_cons in H. simpl in H.
  pose proof (count_bounds P l). destruct (P z) eqn:E; simpl in *; constructor; auto with lia.
Qed.

Lemma count_replicate P n x : P x = false -> count P (replicate n x) = 0.
Proof. intros H. induction n; simpl; [done|]. by rewrite H. Qed.

Definition busy (x : worker) : bool :=
  match x with Handling _ | Panicked => true | _ => false end.
Definition stopped (x : worker) : bool := match x with Stopped => true | _ => false end.

(** ** Invariant *)

(** Signals in the channel, stopped workers and signals to come make one per
    worker. *)
Definition signals (n : Z) (p : phase) (j stop : Z) : Prop :=
  match p with
  | Accepting | Polling | Dispatching _ => j = 0 /\ stop = 0
  | CleanupSend k => j + stop + Z.of_nat k = n
  | Joining | Done => j + stop = n
  end.

Record inv (n : nat) (s : t) : Prop := {
  inv_workers : length (workers s) = n;
  inv_active : active_connections s = count busy (workers s);
  inv_queue : exists cs j, queue s = map NewConnection cs ++ replicate j Shutdown /\
    sent s = taken s ++ cs /\ signals (Z.of_nat n) (main s) (Z.of_nat j) (count stopped (workers s)) /\
    (0 < count stopped (workers s) -> cs = []);
  inv_flag : match main s with Accepting | Polling | Dispatching _ => True | _ => shutdown_flag s = true end;
  inv_done : main s = Done -> forallb finished (workers s) = true
}.

Section Facts.
Context (max_connections : Z).

Lemma inv_start n : inv n (start n).
Proof.
  constructor; simpl; try done.
  - apply length_replicate.
  - by rewrite count_replicate.
  - exists [], 0%nat. split_and!; try done. simpl. by rewrite count_replicate.
Qed.

(** While a worker is in its loop the server is not done. *)
Lemma inv_not_done n s i x :
  inv n s -> workers s !! i = Some x -> finished x = false -> main s <> Done.
Proof.
  intros Hi Hx Hf Hd. pose proof (inv_done n s Hi Hd) as Hall. rewrite forallb_forall in Hall.
  specialize (Hall x (proj1 (list_elem_of_In _ _) (list_elem_of_lookup_2 _ _ _ Hx))). congruence.
Qed.

(** A worker changes neither in number nor in the count of stopped ones. *)
Lemma inv_worker n s i x y d :
  inv n s -> workers s !! i = Some x -> stopped x = false -> stopped y = false ->
  finished x = false -> d = Z.b2z (busy y) - Z.b2z (busy x) ->
  inv n (add_active d (set_worker i y s)).
Proof.
  intros Hinv Hi Hx Hy Hfin ->. pose proof (inv_not_done n s i x Hinv Hi Hfin) as Hnd.
  destruct Hinv as [H1 H2 (cs & j & H3 & H4 & H5 & H6) H7 H8].
  pose proof (count_insert stopped _ i x y Hi) as Hs. rewrite Hx, Hy in Hs. simpl in Hs.
  constructor; simpl.
  - by rewrite length_insert.
  - rewrite (count_insert busy _ i x y Hi). lia.
  - exists cs, j. replace (count stopped (<[i := y]> (workers s))) with (count stopped (workers s)) by lia. done.
  - done.
  - intros Hd. by destruct Hnd.
Qed.

Lemma inv_recv n s i s' : inv n s -> on_recv i s = Some s' -> inv n s'.
Proof.
  intros Hinv Hr. unfold on_recv in Hr. destruct (workers s !! i) as [[]|] eqn:Hi; try done.
  pose proof (inv_not_done n s i Idle Hinv Hi eq_refl) as Hnd.
  destruct Hinv as [H1 H2 (cs & j & H3 & H4 & H5 & H6) H7 H8].
  destruct (queue s) as [|[c|] q] eqn:Hq; simplify_eq; try done.
  - destruct cs as [|c' cs]; [destruct j; done|]. simpl in H3. simplify_eq.
    pose proof (count_insert stopped _ i _ (Received c') Hi) as Hs. simpl in Hs.
    constructor; simpl; [by rewrite length_insert| | |done|].
    + rewrite (count_insert busy _ i _ _ Hi). simpl. lia.
    + exists cs, j. replace (count stopped (<[i := _]> (workers s))) with (count stopped (workers s)) by lia.
      rewrite H4, <- app_assoc. split_and!; try done. intros Hpos. by specialize (H6 Hpos).
    + intros Hd. by destruct Hnd.
  - destruct cs as [|c' cs]; [|done]. destruct j as [|j]; [done|]. simpl in H3. simplify_eq.
    pose proof (count_insert stopped _ i _ Stopped Hi) as Hs. simpl in Hs.
    constructor; simpl; [by rewrite length_insert| | |done|].
    + rewrite (count_insert busy _ i _ _ Hi). simpl. lia.
    + exists [], j. split_and!; try done. rewrite Hs. unfold signals in *. destruct (main s); lia.
    + intros Hd. by destruct Hnd.
Qed.

Lemma inv_send n s s' : inv n s -> on_send max_connections s = Some s' -> inv n s'.
Proof.
  intros [H1 H2 (cs & j & H3 & H4 & H5 & H6) H7 H8] Hr. unfold on_send in Hr.
  destruct (has_room _ s); [|done]. destruct (main s) as [| |c|[|k]| |] eqn:Hm; simplify_eq; try done;
    constructor; simpl; try done.
  - destruct H5 as [H5 H5']. assert (j = 0)%nat as -> by lia. exists (cs ++ [c]), 0%nat.
    rewrite H3, H4, map_app. simpl. rewrite !app_nil_r, <- app_assoc. split_and!; try done. lia.
  - exists cs, (S j). rewrite H3, <- app_assoc. split_and!; try done; [|simpl in H5; lia].
    by rewrite replicate_S_end.
Qed.

(** The two ways a channel without room passes something on. *)
Lemma on_hand_inv i s s' :
  on_hand max_connections i s = Some s' ->
  max_connections = 0 /\ queue s = [] /\ workers s !! i = Some Idle /\
  ((exists c, main s = Dispatching c /\
     s' = mk Accepting [] (<[i := Received c]> (workers s)) (active_connections s)
            (shutdown_flag s) (sent s ++ [c]) (taken s ++ [c]) (rejected s)) \/
   (exists k, main s = CleanupSend (S k) /\
     s' = mk (CleanupSend k) [] (<[i := Stopped]> (workers s)) (active_connections s)
            (shutdown_flag s) (sent s) (taken s) (rejected s))).
Proof.
  unfold on_hand. intros H. destruct (Z.eqb_spec max_connections 0); [|done].
  destruct (queue s); [|done]. destruct (workers s !! i) as [[]|]; try done.
  destruct (main s) as [| |c|[|k]| |]; simplify_eq; naive_solver.
Qed.

Lemma inv_hand n s i s' : inv n s -> on_hand max_connections i s = Some s' -> inv n s'.
Proof.
  intros [H1 H2 (cs & j & H3 & H4 & H5 & H6) H7 H8] (_ & Hq & Hi & Hs)%on_hand_inv.
  rewrite Hq in H3. assert (cs = [] /\ j = 0%nat) as [-> ->] by (destruct cs, j; done).
  destruct Hs as [(c & Hm & ->)|(k & Hm & ->)]; rewrite Hm in *; simpl in H5, H7;
    constructor; simpl; rewrite ?length_insert, ?(count_insert _ _ _ _ _ Hi); simpl; try done; try lia;
    exists [], 0%nat; rewrite ?(count_insert _ _ _ _ _ Hi), ?H4, ?app_nil_r; simpl; split_and!; done || lia.
Qed.

Lemma inv_step n s l s' : inv n s -> step max_connections l s = Some s' -> inv n s'.
Proof.
  intros Hi Hs. destruct l as [|c| | | | |i|i|i|i|i]; simpl in Hs.
  - destruct Hi as [H1 H2 (cs & j & H3 & H4 & H5 & H6) H7 H8].
    destruct (main s) as [| | |[|k]| |] eqn:Hm; simplify_eq; try done; constructor; simpl; try done.
    + exists cs, j. split_and!; try done. destruct (shutdown_flag s); simpl in *; [|done].
      lia.
    + destruct (shutdown_flag s) eqn:Ef; simpl; done.
    + by destruct (shutdown_flag s).
    + exists cs, j. split_and!; try done. simpl in *. lia.
  - destruct Hi as [H1 H2 (cs & j & H3 & H4 & H5 & H6) H7 H8].
    destruct (main s) eqn:Hm; simplify_eq. unfold on_accept.
    destruct (_ <=? _); constructor; simpl; try done; exists cs, j; done.
  - destruct Hi as [H1 H2 (cs & j & H3 & H4 & H5 & H6) H7 H8].
    destruct (main s) eqn:Hm; simplify_eq. constructor; simpl; try done. exists cs, j; done.
  - by eapply inv_send.
  - destruct Hi as [H1 H2 H3 H7 H8]. destruct (shutdown_flag s) eqn:Hf; simplify_eq.
    constructor; simpl; try done. by destruct (main s).
  - destruct Hi as [H1 H2 (cs & j & H3 & H4 & H5 & H6) H7 H8].
    destruct (main s) eqn:Hm; simplify_eq. destruct (forallb _ _) eqn:Hfb; simplify_eq.
    constructor; simpl; try done. exists cs, j; done.
  - by eapply inv_recv.
  - destruct (workers s !! i) as [[]|] eqn:Hw; simplify_eq. by eapply (inv_worker n s i).
  - destruct (workers s !! i) as [[]|] eqn:Hw; simplify_eq. by eapply (inv_worker n s i).
  - destruct (workers s !! i) as [[]|] eqn:Hw; simplify_eq.
    pose proof (inv_worker n s i _ Panicked 0 Hi Hw eq_refl eq_refl eq_refl eq_refl) as H.
    destruct H as [H1 H2 H3 H7 H8]. simpl in *. rewrite Z.add_0_r in H2. by constructor.
  - by eapply inv_hand.
Qed.

Lemma reach_inv n s : reach max_connections n s -> inv n s.
Proof. induction 1; [apply inv_start|by eapply inv_step]. Qed.

(** ** Shutdown terminates *)

Definition main_cost (n : Z) (p : phase) : Z :=
  match p with
  | Polling => 9 + 5 * n
  | Dispatching _ => 8 + 5 * n
  | Accepting => 3 + 5 * n
  | CleanupSend k => 2 + 5 * Z.of_nat k
  | Joining => 1
  | Done => 0
  end.

Definition msg_cost (m : WorkerMessage) : Z :=
  match m with NewConnection _ => 4 | Shutdown => 2 end.

Definition worker_cost (x : worker) : Z :=
  match x with Received _ => 3 | Handling _ => 2 | Idle => 1 | _ => 0 end.

Definition total {A} (f : A -> Z) (l : list A) : Z := foldr (fun x acc => f x + acc) 0 l.

Lemma total_app {A} (f : A -> Z) a b : total f (a ++ b) = total f a + total f b.
Proof. induction a as [|x a IH]; simpl; [lia|]. rewrite IH. lia. Qed.

Lemma cost_insert {A} (f : A -> Z) l i x y :
  l !! i = Some x -> total f (<[i := y]> l) = total f l - f x + f y.
Proof.
  revert i. induction l as [|z l IH]; intros [|i] H; simpl in *; simplify_eq; [lia|].
  rewrite IH by done. lia.
Qed.

Lemma cost_nonneg {A} (f : A -> Z) l : (forall x, 0 <= f x) -> 0 <= total f l.
Proof. intros H. induction l as [|x l IH]; simpl; [lia|]. specialize (H x). lia. Qed.

(** What is left to do once shutdown is signaled. *)
Definition remaining (s : t) : Z :=
  main_cost (len (workers s)) (main s) + total msg_cost (queue s) + total worker_cost (workers s).

Lemma remaining_nonneg s : 0 <= remaining s.
Proof.
  unfold remaining. pose proof (len_nonneg (workers s)).
  assert (0 <= main_cost (len (workers s)) (main s)) by (destruct (main s); simpl; lia).
  pose proof (cost_nonneg msg_cost (queue s) ltac:(intros []; simpl; lia)).
  pose proof (cost_nonneg worker_cost (workers s) ltac:(intros []; simpl; lia)). lia.
Qed.

Lemma step_remaining l s s' :
  shutdown_flag s = true -> step max_connections l s = Some s' ->
  remaining s' < remaining s /\ shutdown_flag s' = true.
Proof.
  intros Hf Hs. unfold remaining.
  assert (Hlen : forall i x, len (<[i := x]> (workers s)) = len (workers s))
    by (intros; unfold len; by rewrite length_insert).
  destruct l as [|c| | | | |i|i|i|i|i]; simpl in Hs.
  - destruct (main s) as [| | |[|k]| |]; simplify_eq; simpl; rewrite ?Hf; split; try done;
      simpl; unfold len; lia.
  - destruct (main s) eqn:Hm; simplify_eq. unfold on_accept.
    destruct (_ <=? _); simpl; split; try done; simpl; lia.
  - destruct (main s); simplify_eq; simpl; split; try done; lia.
  - unfold on_send in Hs. destruct (has_room _ s); [|done].
    destruct (main s) as [| |c|[|k]| |]; simplify_eq; simpl; rewrite total_app; split; try done;
      simpl; lia.
  - by rewrite Hf in Hs.
  - destruct (main s); simplify_eq. destruct (forallb _ _); simplify_eq. simpl. split; [lia|done].
  - unfold on_recv in Hs. destruct (workers s !! i) as [[]|] eqn:Hi; try done.
    destruct (queue s) as [|[c|] q]; simplify_eq; simpl; rewrite Hlen, (cost_insert _ _ _ _ _ Hi);
      split; try done; simpl; lia.
  - destruct (workers s !! i) as [[]|] eqn:Hi; simplify_eq; simpl.
    rewrite Hlen, (cost_insert _ _ _ _ _ Hi). split; [simpl; lia|done].
  - destruct (workers s !! i) as [[]|] eqn:Hi; simplify_eq; simpl.
    rewrite Hlen, (cost_insert _ _ _ _ _ Hi). split; [simpl; lia|done].
  - destruct (workers s !! i) as [[]|] eqn:Hi; simplify_eq; simpl.
    rewrite Hlen, (cost_insert _ _ _ _ _ Hi). split; [simpl; lia|done].
  - apply on_hand_inv in Hs as (_ & -> & Hi & [(c & -> & ->)|(k & -> & ->)]); simpl;
      rewrite ?Hlen, (cost_insert _ _ _ _ _ Hi); split; try done; simpl; lia.
Qed.

(** A worker that is not out of its loop can move, given a message or, over a
    channel without room, a waiting sender. *)
Definition offered (s : t) : Prop :=
  queue s <> [] \/
  max_connections = 0 /\ ((exists c, main s = Dispatching c) \/ exists k, main s = CleanupSend (S k)).

Lemma worker_moves s i x :
  workers s !! i = Some x -> finished x = false -> offered s ->
  exists l s', step max_connections l s = Some s' /\ forall j, l <> LPanic j.
Proof.
  intros Hi Hx Hq. destruct x; try done.
  - destruct (queue s) as [|m q] eqn:Eq.
    + destruct Hq as [Hq|[Hz Hm]]; [done|]. exists (LHand i). simpl. unfold on_hand. rewrite Hz, Eq, Hi. simpl.
      destruct Hm as [[c ->]|[k ->]]; eauto.
    + exists (LRecv i). simpl. unfold on_recv. rewrite Hi, Eq. destruct m; eauto.
  - exists (LBegin i). simpl. rewrite Hi. eauto.
  - exists (LFinish i). simpl. rewrite Hi. eauto.
Qed.

Lemma not_all_stopped s :
  calm s -> count stopped (workers s) < len (workers s) ->
  exists i x, workers s !! i = Some x /\ finished x = false.
Proof.
  intros Hc Hlt. destruct (forallb finished (workers s)) eqn:E.
  - exfalso. assert (count stopped (workers s) = len (workers s)); [|lia].
    clear Hlt. unfold calm in Hc. induction (workers s) as [|x l IH]; [done|].
    inversion Hc; subst. simpl in E. apply andb_true_iff in E as [E1 E2]. rewrite len_cons. simpl.
    rewrite IH by done. by destruct x.
  - clear Hlt Hc. induction (workers s) as [|x l IH]; [done|]. simpl in E.
    destruct (finished x) eqn:Ex; [|by exists 0%nat, x].
    destruct (IH E) as (i & y & ? & ?). by exists (S i), y.
Qed.

(** Nothing blocks for good: some thread can always act. *)
Lemma step_exists n s :
  inv n s -> calm s -> (0 < n)%nat -> 0 <= max_connections -> main s <> Done ->
  exists l s', step max_connections l s = Some s' /\ forall j, l <> LPanic j.
Proof.
  intros [H1 H2 (cs & j & H3 & H4 & H5 & H6) H7 H8] Hc Hn Hmax Hd.
  assert (Hl : len (workers s) = Z.of_nat n) by (unfold len; by rewrite H1).
  assert (Hsend : forall k, main s = CleanupSend (S k) \/ (exists c, main s = Dispatching c) ->
    count stopped (workers s) < len (workers s) ->
    exists l s', step max_connections l s = Some s' /\ forall j, l <> LPanic j).
  { intros k Hm Hlt. destruct (has_room max_connections s) eqn:Hr.
    - exists LSend. simpl. unfold on_send. rewrite Hr. destruct Hm as [-> | [c ->]]; eauto.
    - destruct (not_all_stopped s Hc Hlt) as (i & x & Hi & Hx). apply (worker_moves s i x Hi Hx).
      unfold has_room in Hr. apply Z.ltb_ge in Hr. destruct (queue s) eqn:Eq; [|left; by rewrite Eq].
      unfold len in Hr. simpl in Hr. right. split; [lia|]. destruct Hm as [Hm|[c Hm]]; eauto. }
  destruct (main s) as [| |c|[|k]| |] eqn:Hm; simpl in H5.
  - exists LLoop. simpl. rewrite Hm. eauto.
  - exists LNoClient. simpl. rewrite Hm. eauto.
  - apply (Hsend 0%nat); [eauto|]. lia.
  - exists LLoop. simpl. rewrite Hm. eauto.
  - apply (Hsend k); [eauto|]. lia.
  - destruct (decide (count stopped (workers s) = len (workers s))) as [E|Hne].
    + exists LJoin. simpl. rewrite Hm. apply count_all in E.
      rewrite (proj2 (forallb_forall finished (workers s))); [eauto|].
      intros x Hx. rewrite Forall_forall in E. specialize (E x (proj2 (list_elem_of_In _ _) Hx)).
      by destruct x.
    + pose proof (count_bounds stopped (workers s)).
      destruct (not_all_stopped s Hc) as (i & x & Hi & Hx); [lia|].
      apply (worker_moves s i x Hi Hx). left. rewrite H3. destruct j as [|j]; [lia|]. by destruct cs.
  - done.
Qed.

(** No step but a panic makes a worker panic. *)
Lemma calm_step l s s' :
  calm s -> (forall j, l <> LPanic j) -> step max_connections l s = Some s' -> calm s'.
Proof.
  unfold calm. intros Hc Hl Hs.
  assert (Hins : forall i x, x <> Panicked -> Forall (fun x => x <> Panicked) (<[i := x]> (workers s)))
    by (intros; by apply Forall_insert).
  destruct l as [|c| | | | |i|i|i|i|i]; simpl in Hs.
  - destruct (main s) as [| | |[|k]| |]; try done; by injection Hs as <-.
  - destruct (main s); try done. injection Hs as <-. unfold on_accept. by destruct (_ <=? _).
  - destruct (main s); try done; by injection Hs as <-.
  - unfold on_send in Hs. destruct (has_room _ s); [|done]. destruct (main s) as [| | |[|k]| |]; try done; by injection Hs as <-.
  - destruct (shutdown_flag s); try done. by injection Hs as <-.
  - destruct (main s); try done. destruct (forallb _ _); try done. by injection Hs as <-.
  - unfold on_recv in Hs. destruct (workers s !! i) as [[]|]; try done.
    destruct (queue s) as [|[c|] q]; simplify_eq; simpl; by apply Hins.
  - destruct (workers s !! i) as [[]|]; simplify_eq; simpl; by apply Hins.
  - destruct (workers s !! i) as [[]|]; simplify_eq; simpl; by apply Hins.
  - by destruct (Hl i).
  - apply on_hand_inv in Hs as (_ & _ & _ & [(c & _ & ->)|(k & _ & ->)]); simpl; by apply Hins.
Qed.

Lemma all_stopped_calm s : calm s -> forallb finished (workers s) = true ->
  Forall (fun x => x = Stopped) (workers s).
Proof.
  intros Hc Hf. unfold calm in *. rewrite forallb_forall in Hf. rewrite Forall_forall in *.
  intros x Hx. specialize (Hf x (proj1 (list_elem_of_In _ _) Hx)). specialize (Hc x Hx). by destruct x.
Qed.

(** At the end, every connection that was accepted has been taken by a worker. *)
Lemma done_drained n s :
  inv n s -> calm s -> main s = Done -> (0 < n)%nat ->
  queue s = [] /\ taken s = sent s /\ Forall (fun x => x = Stopped) (workers s).
Proof.
  intros [H1 H2 (cs & j & H3 & H4 & H5 & H6) H7 H8] Hc Hd Hn.
  pose proof (all_stopped_calm s Hc (H8 Hd)) as Hall.
  assert (Hcnt : count stopped (workers s) = Z.of_nat n).
  { rewrite <- H1. clear -Hall. induction Hall as [|x l -> _ IH]; simpl; [done|]. lia. }
  rewrite Hd in H5. simpl in H5. assert (j = 0)%nat as -> by lia.
  rewrite (H6 ltac:(lia)) in *. simpl in H3. rewrite app_nil_r in H4. done.
Qed.

(** ** Labels in a row *)

Fixpoint run_labels (ls : list label) (s : t) : option t :=
  match ls with [] => Some s | l :: ls' => s' ← step max_connections l s; run_labels ls' s' end.

Lemma run_reach n ls : forall s s',
  reach max_connections n s -> run_labels ls s = Some s' -> reach max_connections n s'.
Proof.
  induction ls as [|l ls IH]; intros s s' Hr Hs; [by injection Hs as <-|]. simpl in Hs.
  destruct (step max_connections l s) as [s1|] eqn:E; [|done]. apply (IH s1); [|done]. by eapply reach_step.
Qed.

(** Nobody signals shutdown: the accepting thread stays in its loop. *)
Definition serving (s : t) : Prop :=
  shutdown_flag s = false /\ match main s with Accepting | Polling | Dispatching _ => True | _ => False end.

Lemma serving_step l s s' :
  l <> LShutdown -> serving s -> step max_connections l s = Some s' -> serving s'.
Proof.
  intros Hl [Hf Hm] Hs. unfold serving.
  destruct l; simpl in Hs; try done; unfold on_accept, on_send, on_recv, on_hand in Hs;
    repeat case_match; simplify_eq; simpl in *; auto; congruence.
Qed.

(** The counter counts the busy workers. *)
Lemma count_exact n s :
  reach max_connections n s ->
  active_connections s = count busy (workers s) /\ 0 <= active_connections s <= Z.of_nat n /\
  (Z.of_nat n < max_connections -> rejected s = []).
Proof.
  intros Hr. assert (Hb : forall s, reach max_connections n s ->
    active_connections s = count busy (workers s) /\ 0 <= active_connections s <= Z.of_nat n).
  { intros s' [Hw Ha _ _ _]%reach_inv. split; [done|].
    pose proof (count_bounds busy (workers s')). unfold len in *. lia. }
  destruct (Hb s Hr) as [H1 H2]. split; [done|]. split; [done|]. intros Hlt. clear H1 H2.
  induction Hr as [|s l s' Hr IH Hs]; [done|]. destruct (Hb s Hr) as [_ Hle].
  destruct l; simpl in Hs; repeat case_match; simplify_eq; simpl; try done.
  all: try (unfold on_accept; rewrite (proj2 (Z.leb_gt _ _)) by lia; done).
  all: unfold on_send, on_recv, on_hand in Hs; repeat case_match; simplify_eq; done.
Qed.
End Facts.
