(* ===== verification/System.v ===== *)
(** The running server as a whole: the accept loop and the worker pool of
    [network/server.rs] ([Server]), every worker inside [handle_connection] with a
    connection of its own ([Connection]), and all of them inside one engine at once
    ([Workers]).  A worker's step is a step of the component it is in. *)

From Stdlib Require Import ZArith Lia String.
From stdpp Require Import base gmap list strings.
From S2P Require Import Prelude Errors Protocol World Config Wal Engine Traces Register Workers.
From S2P Require Import Network Server.
Open Scope list_scope.
Open Scope Z_scope.

(** The commands a connection ran, with what the engine returned to each. *)
Abbreviation script := (list (Command.t * outcome (option bytes))).

(** An engine that returns what the script says, as long as it is asked that. *)
Definition replay : Executor script := fun command s =>
  match s with
  | (expected, r) :: s' => if decide (command = expected) then (r, s') else (OutOfFuel, s)
  | [] => (OutOfFuel, [])
  end.

(** The same connection with another engine behind it. *)
Definition with_engine {R W E E'} (e : E') (c : Connection.t R W E) : Connection.t R W E' :=
  Connection.mk (Connection.reader c) (Connection.writer c) e (Connection.peer_addr c).

Module System.
Section System.
Context {S R W : Type} `{HS : TcpStream S R W} `{HR : Read R} `{HW : Write W}.
Context `{HC : Crc32} `{HB : WalEntry.Bincode} `{HT : IoText}.
Context (config : Config.t) (socket : nat -> S).
Context (ok : Z -> Workers.pc -> Workers.shared -> Prop).

Abbreviation conn := (Connection.t R W unit).

(** Where a worker is in [handle_connection]: [Connection::new] failed, waiting for
    a command, inside [Engine::execute], out of [handle]. *)
Inductive stage :=
| Unopened (r : outcome unit)
| Reading (c : conn)
| Running (c : conn) (command : Command.t)
| Left (c : conn) (r : outcome unit).

Record talk := mkTalk { stream : nat; said : script; at_stage : stage }.

(** [handle_connection] logs an error and goes on; a panic unwinds. *)
Definition logged {A} (r : outcome A) : outcome unit :=
  match r with Ok _ | Err _ => Ok tt | Panic => Panic | OutOfFuel => OutOfFuel end.

(** Up to the loop of [handle]. *)
Definition greet (stream : nat) : stage :=
  match Connection.new (socket stream) tt with
  | Ok c =>
      match Connection.set_timeouts (Config.read_timeout_ms config) (Config.write_timeout_ms config) c with
      | ((Ok _ | Err _), c') => Reading c'
      | (r, c') => Left c' (logged r)
      end
  | r => Unopened (logged r)
  end.

(** The next command, and the engine's result sent back. *)
Definition hear (c : conn) : stage :=
  match Connection.receive c with
  | (Ok (Some command), c') => Running c' command
  | (r, c') => Left c' (logged r)
  end.

Definition reply (r : outcome (option bytes)) (c : conn) : stage :=
  match Connection.to_response r with
  | Ok response =>
      match Connection.deliver response c with
      | (Ok true, c') => Reading c'
      | (x, c') => Left c' (logged x)
      end
  | x => Left c (logged x)
  end.

(** How [handle_connection] ended, if it has. *)
Definition over (k : talk) : option (outcome unit) :=
  match at_stage k with Unopened r | Left _ r => Some r | _ => None end.

(** The server, the engine with the threads inside it, the conversations under
    way by worker, and those that are over, oldest first. *)
Record t := mk {
  server : Server.t;
  engine : Workers.t;
  talks : gmap nat talk;
  ended : list (nat * talk)
}.

Definition start (n : nat) (e : Engine.t) (w : World) : t :=
  mk (Server.start n) (Workers.mk (Workers.mkShared e w None) ∅) ∅ [].

(** Labels of the server that are not a worker's doing in [handle_connection]. *)
Definition outside (l : Server.label) : bool :=
  match l with Server.LBegin _ | Server.LFinish _ | Server.LPanic _ => false | _ => true end.

Abbreviation server_step := (Server.step (Config.max_connections config)).

(** The visible labels are the calls to the engine and its returns. *)
Inductive step : t -> option label -> t -> Prop :=
| s_server l v v' e T D :
    outside l = true -> server_step l v = Some v' -> step (mk v e T D) None (mk v' e T D)
| s_begin i c v v' e T D :
    Server.workers v !! i = Some (Server.Received c) -> server_step (Server.LBegin i) v = Some v' ->
    step (mk v e T D) None (mk v' e (<[i := mkTalk c [] (greet c)]> T) D)
| s_call i c l k k' command v e e' T D :
    T !! i = Some (mkTalk c l (Reading k)) -> hear k = Running k' command ->
    Workers.step ok e (Some (Call i (Exec command))) e' ->
    step (mk v e T D) (Some (Call i (Exec command)))
      (mk v e' (<[i := mkTalk c l (Running k' command)]> T) D)
| s_leave i c l k k' r v e T D :
    T !! i = Some (mkTalk c l (Reading k)) -> hear k = Left k' r ->
    step (mk v e T D) None (mk v e (<[i := mkTalk c l (Left k' r)]> T) D)
| s_work e e' v T D :
    Workers.step ok e None e' -> step (mk v e T D) None (mk v e' T D)
| s_return i c l k command r v e e' T D :
    T !! i = Some (mkTalk c l (Running k command)) -> Workers.step ok e (Some (Ret i r)) e' ->
    step (mk v e T D) (Some (Ret i r))
      (mk v e' (<[i := mkTalk c (l ++ [(command, r)]) (reply r k)]> T) D)
| s_finish i k v v' e T D :
    T !! i = Some k -> over k = Some (Ok tt) -> server_step (Server.LFinish i) v = Some v' ->
    step (mk v e T D) None (mk v' e (base.delete i T) (D ++ [(i, k)]))
| s_panic i k v v' e T D :
    T !! i = Some k -> over k = Some Panic -> server_step (Server.LPanic i) v = Some v' ->
    step (mk v e T D) None (mk v' e (base.delete i T) (D ++ [(i, k)])).

(** ** What a history says of one worker *)

(** The command a worker is running, and those it has run. *)
Definition note (i : nat) (x : option Command.t * script) (l : label) : option Command.t * script :=
  match l with
  | Call j (Exec command) => if decide (j = i) then (Some command, x.2) else x
  | Ret j r =>
      if decide (j = i) then (None, x.2 ++ match x.1 with Some c => [(c, r)] | None => [] end) else x
  | _ => x
  end.

Definition exchanges (i : nat) (tr : list label) : script := (foldl (note i) (None, []) tr).2.

(** The conversations of worker [i], oldest first. *)
Definition talks_of (i : nat) (s : t) : list talk :=
  map snd (filter (fun x => x.1 = i) (ended s)) ++ option_list (talks s !! i).

(** A conversation that is over is a run of [handle_connection]'s body against an
    engine that returned what the script says, and nothing of the script is left. *)
Definition as_the_code (k : talk) : Prop :=
  match Connection.new (socket (stream k)) (said k), at_stage k with
  | Ok c, Left c' r =>
      Worker.converse (HE := replay) (Config.read_timeout_ms config) (Config.write_timeout_ms config)
        (Datatypes.S (length (said k))) c = (r, with_engine [] c')
  | Err _, Unopened r => said k = [] /\ r = Ok tt
  | Panic, Unopened r => said k = [] /\ r = Panic
  | OutOfFuel, Unopened r => said k = [] /\ r = OutOfFuel
  | _, _ => False
  end.

End System.
End System.
