(* ===== verification/SystemFacts.v ===== *)
(** The composed server against its components: its server part and its engine
    part run as those machines do on their own, and a conversation runs as
    [handle_connection] does against the results the engine returned to it. *)

From Stdlib Require Import ZArith Lia String.
From stdpp Require Import base gmap list strings.
From S2P Require Import Prelude Errors Protocol World Config Wal Engine EngineFacts Traces Register.
From S2P Require Import Workers WorkersFacts Network NetworkFacts Server ServerFacts System.
Open Scope list_scope.
Open Scope Z_scope.

Import System.

(** ** A connection does not look at its engine outside [execute_command] *)

Section Frame.
Context {S R W : Type} `{HS : TcpStream S R W} `{HR : Read R} `{HW : Write W} `{HT : IoText}.
Context {E E' : Type}.
Implicit Types c : Connection.t R W E.

Lemma receive_engine (e : E') c :
  Connection.receive (with_engine e c) =
  let '(x, c') := Connection.receive c in (x, with_engine e c').
Proof.
  destruct c as [r w e0 a]. unfold Connection.receive, mbind, ST_bind, catch, Connection.send_response,
    Connection.on_reader, Connection.on_writer, zoom, with_engine. cbn.
  destruct (Codec.read_command r) as [[cmd|er| |] r1]; try done.
  destruct er as [k| | | | | | | | |]; cbn; try (destruct (Connection.quiet_read_error k); [done|]); cbn;
    by destruct (Codec.write_response _ w) as [[u|er| |] w1].
Qed.

Lemma deliver_engine resp (e : E') c :
  Connection.deliver resp (with_engine e c) =
  let '(x, c') := Connection.deliver resp c in (x, with_engine e c').
Proof.
  destruct c as [r w e0 a]. unfold Connection.deliver, mbind, ST_bind, catch, Connection.send_response,
    Connection.on_writer, zoom, with_engine. cbn.
  destruct (Codec.write_response resp w) as [[u|er| |] w1]; try done. cbn.
  by destruct (Connection.client_gone er).
Qed.

Lemma set_timeouts_engine rd wr (e : E') c :
  Connection.set_timeouts rd wr (with_engine e c) =
  let '(x, c') := Connection.set_timeouts rd wr c in (x, with_engine e c').
Proof.
  destruct c as [r w e0 a]. unfold Connection.set_timeouts, mbind, ST_bind, mret, ST_ret,
    Connection.on_reader, Connection.on_writer, zoom, with_engine. cbn.
  destruct (0 <? rd), (0 <? wr); cbn;
    try (destruct (set_read_timeout rd r) as [[u|er| |] r1]; cbn); try done; by destruct (set_write_timeout wr w).
Qed.

Lemma new_engine (stream : S) (e : E) (e' : E') :
  Connection.new stream e' =
  match Connection.new (R := R) (W := W) stream e with
  | Ok c => Ok (with_engine e' c)
  | Err er => Err er
  | Panic => Panic
  | OutOfFuel => OutOfFuel
  end.
Proof.
  unfold Connection.new. by destruct ((_ ← set_nodelay true; try_clone) stream) as [[s|er| |] s'].
Qed.
End Frame.

(** ** Conversations *)

Section Talks.
Context {S R W : Type} `{HS : TcpStream S R W} `{HR : Read R} `{HW : Write W} `{HT : IoText}.
Context (config : Config.t) (socket : nat -> S).
#[local] Existing Instance replay.

Abbreviation conn := (Connection.t R W unit).
Abbreviation rd := (Config.read_timeout_ms config).
Abbreviation wr := (Config.write_timeout_ms config).

(** What is left of an iteration with a command in hand, and of the loop. *)
Definition carry_on (n : nat) (command : Command.t) : ST (Connection.t R W script) unit :=
  response ← Connection.execute_command command;
  delivered ← Connection.deliver response;
  match delivered with true => Connection.handle_loop n | false => mret tt end.

Definition finally (x : outcome unit * Connection.t R W script) : outcome unit * Connection.t R W script :=
  (logged x.1, x.2).

(** So far, the conversation is the code's, whatever the engine returns next. *)
Definition follows (k : talk (R := R) (W := W)) : Prop :=
  let l := said k in
  match Connection.new (socket (stream k)) tt, at_stage k with
  | Ok c0, Reading c => forall n rest,
      Worker.converse rd wr (length l + n) (with_engine (l ++ rest) c0) =
      finally (Connection.handle_loop n (with_engine rest c))
  | Ok c0, Running c command => forall n rest,
      Worker.converse rd wr (length l + Datatypes.S n) (with_engine (l ++ rest) c0) =
      finally (carry_on n command (with_engine rest c))
  | Ok c0, Left c r =>
      Worker.converse rd wr (Datatypes.S (length l)) (with_engine l c0) = (r, with_engine [] c)
  | Err _, Unopened r => l = [] /\ r = Ok tt
  | Panic, Unopened r => l = [] /\ r = Panic
  | OutOfFuel, Unopened r => l = [] /\ r = OutOfFuel
  | _, _ => False
  end.

Lemma follows_code k : follows k -> over k <> None -> as_the_code config socket k.
Proof.
  unfold follows, as_the_code, over. rewrite (new_engine (socket (stream k)) tt (said k)).
  destruct (Connection.new (socket (stream k)) tt), (at_stage k); done.
Qed.

Lemma converse_handle n s (c0 c : conn) x :
  Connection.set_timeouts rd wr c0 = (x, c) ->
  Worker.converse rd wr n (with_engine s c0) =
  match x with
  | Ok _ | Err _ => finally (Connection.handle_loop n (with_engine s c))
  | _ => (logged x, with_engine s c)
  end.
Proof.
  intros Hx. unfold Worker.converse, mbind, ST_bind, catch. rewrite set_timeouts_engine, Hx.
  destruct x as [u|er| |]; try done; unfold Connection.handle, finally;
    by destruct (Connection.handle_loop n _) as [[v|er'| |] c'].
Qed.

Lemma greet_follows c : follows (mkTalk c [] (greet config socket c)).
Proof.
  unfold follows, greet. cbn [stream said at_stage].
  destruct (Connection.new (socket c) tt) as [c0|er| |] eqn:En; [|done..].
  destruct (Connection.set_timeouts rd wr c0) as [x c1] eqn:Ex. pose proof (converse_handle) as Hc.
  destruct x as [u|er| |]; [intros n rest|intros n rest|..]; cbn [length app Nat.add];
    by rewrite (Hc _ _ _ _ _ Ex).
Qed.

(** [hear] is the first half of an iteration. *)
Lemma hear_handle n s c :
  match hear c with
  | Running c' command =>
      Connection.handle_loop (Datatypes.S n) (with_engine s c) = carry_on n command (with_engine s c')
  | Left c' r => exists y,
      Connection.handle_loop (Datatypes.S n) (with_engine s c) = (y, with_engine s c') /\ r = logged y
  | _ => False
  end.
Proof.
  unfold hear. cbn [Connection.handle_loop]. unfold mbind, ST_bind. rewrite receive_engine.
  destruct (Connection.receive c) as [[[cmd|]|er| |] c']; [done|by eexists..].
Qed.

(** [reply] is the second, once the engine has returned. *)
Lemma reply_carry_on n command r rest k :
  match reply r k with
  | Reading k' =>
      carry_on n command (with_engine ((command, r) :: rest) k) = Connection.handle_loop n (with_engine rest k')
  | Left k' x => exists y,
      carry_on n command (with_engine ((command, r) :: rest) k) = (y, with_engine rest k') /\ x = logged y
  | _ => False
  end.
Proof.
  assert (Hex : Connection.execute_command command (with_engine ((command, r) :: rest) k) =
    (Connection.to_response r, with_engine rest k)).
  { destruct k as [rr ww ee aa]. apply exec_step. unfold exec, replay. by rewrite decide_True. }
  unfold carry_on, reply, mbind, ST_bind. rewrite Hex.
  destruct (Connection.to_response r) as [resp|er| |]; [|by eexists..].
  rewrite deliver_engine. destruct (Connection.deliver resp k) as [[[]|er| |] k']; [done|by eexists..].
Qed.

Lemma finally_left x y (c : Connection.t R W script) r :
  x = (y, c) -> r = logged y -> finally x = (r, c).
Proof. by intros -> ->. Qed.

Lemma hear_follows c l k :
  follows (mkTalk c l (Reading k)) -> follows (mkTalk c l (hear k)).
Proof.
  unfold follows. cbn [stream said at_stage].
  destruct (Connection.new (socket c) tt) as [c0|er| |]; [|done..]. intros H.
  pose proof (fun n s => hear_handle n s k) as Hh. destruct (hear k) as [r|k'|k' command|k' r].
  - by destruct (Hh 0%nat []).
  - by destruct (Hh 0%nat []).
  - intros n rest. by rewrite H, Hh.
  - destruct (Hh 0%nat []) as (y & Hy & ->). rewrite <- (app_nil_r l) at 2.
    rewrite <- Nat.add_1_r, H. by eapply finally_left.
Qed.

Lemma reply_follows c l k command r :
  follows (mkTalk c l (Running k command)) -> follows (mkTalk c (l ++ [(command, r)]) (reply r k)).
Proof.
  unfold follows. cbn [stream said at_stage].
  destruct (Connection.new (socket c) tt) as [c0|er| |]; [|done..]. intros H.
  assert (Hl : forall n rest,
    Worker.converse rd wr (length (l ++ [(command, r)]) + n) (with_engine ((l ++ [(command, r)]) ++ rest) c0) =
    finally (carry_on n command (with_engine ((command, r) :: rest) k))).
  { intros n rest. rewrite <- H, <- app_assoc, length_app. f_equal. simpl. lia. }
  pose proof (fun n s => reply_carry_on n command r s k) as Hr. destruct (reply r k) as [x|k'|k' cmd|k' x].
  - by destruct (Hr 0%nat []).
  - intros n rest. by rewrite Hl, Hr.
  - by destruct (Hr 0%nat []).
  - destruct (Hr 1%nat []) as (y & Hy & ->). specialize (Hl 1%nat []). rewrite app_nil_r, Nat.add_1_r in Hl.
    rewrite Hl. by eapply finally_left.
Qed.
End Talks.

(** ** The server part *)

Section Pool.
Context (max_connections : Z).

(** Connections that workers have taken and not finished. *)
Definition in_hand (v : Server.t) : list nat :=
  omap (fun x => match x with Server.Received c | Server.Handling c => Some c | _ => None end)
    (Server.workers v).

Lemma omap_insert {A B} (f : A -> option B) l i x y :
  l !! i = Some x -> omap f (<[i := y]> l) ++ option_list (f x) ≡ₚ omap f l ++ option_list (f y).
Proof.
  revert i. induction l as [|z l IH]; intros [|i] Hi; simplify_eq/=.
  - destruct (f x), (f y); simpl; rewrite ?app_nil_r; solve_Permutation.
  - specialize (IH i Hi). destruct (f z); simpl; [by constructor|done].
Qed.

(** Outside of [handle_connection], workers take connections at most. *)
Lemma outside_step l v v' :
  outside l = true -> Server.step max_connections l v = Some v' ->
  (Server.workers v' = Server.workers v /\ Server.taken v' = Server.taken v) \/
  exists i x, Server.workers v !! i = Some Server.Idle /\ Server.workers v' = <[i := x]> (Server.workers v) /\
    ((x = Server.Stopped /\ Server.taken v' = Server.taken v) \/
     exists c, x = Server.Received c /\ Server.taken v' = Server.taken v ++ [c]).
Proof.
  intros Ho Hs. destruct l; try done; simpl in Hs;
    unfold Server.on_accept, Server.on_send, Server.on_recv, Server.on_hand in Hs;
    repeat case_match; simplify_eq/=; eauto 10.
Qed.

Lemma outside_handling l v v' i c :
  outside l = true -> Server.step max_connections l v = Some v' ->
  Server.workers v' !! i = Some (Server.Handling c) <-> Server.workers v !! i = Some (Server.Handling c).
Proof.
  intros Ho Hs. destruct (outside_step l v v' Ho Hs) as [[-> _]|(j & x & Hj & -> & Hx)]; [done|].
  rewrite list_lookup_insert_Some. destruct (decide (j = i)) as [->|Hne]; [|naive_solver].
  split; [|congruence]. intros [(_ & Hc & _)|[? _]]; [|done]. destruct Hx as [[? _]|(? & ? & _)]; congruence.
Qed.

Lemma outside_taken l v v' :
  outside l = true -> Server.step max_connections l v = Some v' ->
  exists new, Server.taken v' = Server.taken v ++ new /\ in_hand v' ≡ₚ in_hand v ++ new.
Proof.
  intros Ho Hs. unfold in_hand.
  destruct (outside_step l v v' Ho Hs) as [[-> ->]|(j & x & Hj & -> & Hx)].
  { exists []. by rewrite !app_nil_r. }
  pose proof (omap_insert (fun x => match x with Server.Received c | Server.Handling c => Some c | _ => None end)
    _ _ _ x Hj) as Hp. simpl in Hp. rewrite app_nil_r in Hp.
  destruct Hx as [[-> ->]|(c & -> & ->)]; eauto. exists []. by rewrite app_nil_r.
Qed.

(** A worker that leaves [Handling] hands its connection over. *)
Lemma in_hand_leave v v' i c x :
  Server.workers v !! i = Some (Server.Handling c) -> Server.workers v' = <[i := x]> (Server.workers v) ->
  x = Server.Idle \/ x = Server.Panicked -> in_hand v ≡ₚ in_hand v' ++ [c].
Proof.
  intros Hi Hw Hx. unfold in_hand. rewrite Hw.
  rewrite (omap_insert (fun x => match x with Server.Received c | Server.Handling c => Some c | _ => None end)
    _ _ _ x Hi). destruct Hx as [-> | ->]; simpl; by rewrite app_nil_r.
Qed.
End Pool.

(** ** The composition *)

Section Composition.
Context {S R W : Type} `{HS : TcpStream S R W} `{HR : Read R} `{HW : Write W}.
Context `{HC : Crc32} `{HB : WalEntry.Bincode} `{HT : IoText}.
Context (config : Config.t) (socket : nat -> S).
Context (n : nat) (e0 : Engine.t) (w0 : World).

Abbreviation state := (System.t (R := R) (W := W)).
Abbreviation tk := (talk (R := R) (W := W)).
Abbreviation sys_step := (System.step config socket Workers.room).

(** What worker [i] has said: in the conversations that are over, then in its own. *)
Definition spoken (i : nat) (T : gmap nat tk) (D : list (nat * tk)) : script :=
  concat (map said (map snd (filter (fun x => x.1 = i) D))) ++ from_option said [] (T !! i).

Lemma spoken_talks i (s : state) :
  concat (map said (talks_of i s)) = spoken i (talks s) (ended s).
Proof.
  unfold talks_of, spoken. rewrite map_app, concat_app. f_equal.
  destruct (talks s !! i); simpl; by rewrite ?app_nil_r.
Qed.

Lemma spoken_other i (T T' : gmap nat tk) D :
  T' !! i = T !! i -> spoken i T' D = spoken i T D.
Proof. unfold spoken. by intros ->. Qed.

Lemma spoken_snoc i j k (T : gmap nat tk) D : i <> j -> spoken i T (D ++ [(j, k)]) = spoken i T D.
Proof.
  intros Hne. unfold spoken. rewrite filter_app, filter_cons_False by (simpl; congruence).
  by rewrite filter_nil, app_nil_r.
Qed.

Lemma spoken_end i k (T : gmap nat tk) D :
  T !! i = Some k -> spoken i (base.delete i T) (D ++ [(i, k)]) = spoken i T D.
Proof.
  intros Hk. unfold spoken. rewrite lookup_delete_eq, Hk, filter_app, filter_cons_True, filter_nil by done.
  rewrite !map_app, concat_app. simpl. by rewrite !app_nil_r.
Qed.

(** The command worker [i] is running. *)
Definition running (i : nat) (T : gmap nat tk) : option Command.t :=
  k ← T !! i; match at_stage k with Running _ command => Some command | _ => None end.

Record sys_inv (tr : list label) (s : state) : Prop := {
  inv_server : Server.reach (Config.max_connections config) n (server s);
  inv_engine : run (Workers.step Workers.room) (resting e0 w0) tr (engine s);
  inv_talks : forall i k, talks s !! i = Some k -> follows config socket k;
  inv_ended : Forall (fun x => follows config socket x.2 /\ over x.2 <> None) (ended s);
  inv_handling : forall i c, Server.workers (server s) !! i = Some (Server.Handling c) <->
    exists k, talks s !! i = Some k /\ stream k = c;
  inv_notes : forall i, foldl (note i) (None, []) tr = (running i (talks s), spoken i (talks s) (ended s));
  inv_taken : Server.taken (server s) ≡ₚ in_hand (server s) ++ map (fun x => stream x.2) (ended s)
}.

(** A worker that has not begun has no conversation. *)
Lemma received_no_talk tr s i c :
  sys_inv tr s -> Server.workers (server s) !! i = Some (Server.Received c) -> talks s !! i = None.
Proof.
  intros Hinv Hw. destruct (talks s !! i) as [k|] eqn:E; [|done].
  pose proof (proj2 (inv_handling _ _ Hinv i (stream k)) (ex_intro _ k (conj E eq_refl))). congruence.
Qed.

Lemma inv_begins : sys_inv [] (System.start n e0 w0).
Proof.
  constructor; simpl.
  - constructor.
  - constructor.
  - intros i k E. by rewrite lookup_empty in E.
  - constructor.
  - intros i c. split.
    + intros E%list_elem_of_lookup_2. by apply elem_of_replicate in E as [? _].
    + intros (k & E & _). by rewrite lookup_empty in E.
  - intros i. unfold running, spoken. by rewrite lookup_empty.
  - unfold in_hand. simpl. clear. by induction n.
Qed.

(** A conversation moves on: only its worker's part of the state changes. *)
Lemma talks_update i k (T : gmap nat tk) (P : tk -> Prop) :
  (forall j x, T !! j = Some x -> P x) -> P k -> forall j x, <[i := k]> T !! j = Some x -> P x.
Proof. intros HT' Hk j x [[-> <-]|[_ ?]]%lookup_insert_Some; eauto. Qed.

Lemma handling_update i k k' (T : gmap nat tk) (ws : list Server.worker) :
  (forall j c, ws !! j = Some (Server.Handling c) <-> exists x, T !! j = Some x /\ stream x = c) ->
  T !! i = Some k -> stream k' = stream k ->
  forall j c, ws !! j = Some (Server.Handling c) <-> exists x, <[i := k']> T !! j = Some x /\ stream x = c.
Proof.
  intros H Hk Hs j c. rewrite H. destruct (decide (j = i)) as [->|Hne].
  - rewrite lookup_insert_eq, Hk. naive_solver.
  - by rewrite lookup_insert_ne.
Qed.

Lemma inv_move tr v e e' T D i k k' l :
  sys_inv tr (mk v e T D) -> T !! i = Some k -> follows config socket k' -> stream k' = stream k ->
  run (Workers.step Workers.room) (resting e0 w0) (tr ++ option_list l) e' ->
  (forall j x, j <> i -> foldl (note j) x (option_list l) = x) ->
  foldl (note i) (running i T, spoken i T D) (option_list l) =
    (running i (<[i := k']> T), spoken i (<[i := k']> T) D) ->
  sys_inv (tr ++ option_list l) (mk v e' (<[i := k']> T) D).
Proof.
  intros [H1 H2 H3 H4 H5 H6 H7] Hk Hf Hs Hrun Hother Hi. simpl in *. constructor; simpl; try done.
  - by apply talks_update.
  - by eapply handling_update.
  - intros j. rewrite foldl_app, H6. destruct (decide (j = i)) as [->|Hne]; [done|].
    rewrite Hother by done. unfold running. rewrite lookup_insert_ne by done. f_equal.
    symmetry. apply spoken_other. by rewrite lookup_insert_ne.
Qed.

Lemma inv_close tr v v' e T D i k x :
  sys_inv tr (mk v e T D) -> T !! i = Some k -> over k <> None ->
  Server.reach (Config.max_connections config) n v' ->
  Server.workers v' = <[i := x]> (Server.workers v) -> Server.taken v' = Server.taken v ->
  x = Server.Idle \/ x = Server.Panicked ->
  sys_inv tr (mk v' e (base.delete i T) (D ++ [(i, k)])).
Proof.
  intros [H1 H2 H3 H4 H5 H6 H7] Hk Ho Hr Hw Ht Hx. simpl in *.
  assert (Hh : Server.workers v !! i = Some (Server.Handling (stream k))) by (apply H5; eauto).
  constructor; simpl; try done.
  - intros j y [_ ?]%lookup_delete_Some. eauto.
  - apply Forall_app. split; [done|]. constructor; [|done]. eauto.
  - intros j c. rewrite Hw. destruct (decide (j = i)) as [->|Hne].
    + rewrite lookup_delete_eq, list_lookup_insert_eq by (by eapply lookup_lt_Some).
      split; [destruct Hx; congruence|naive_solver].
    + rewrite lookup_delete_ne, list_lookup_insert_ne by done. apply H5.
  - intros j. rewrite H6. destruct (decide (j = i)) as [->|Hne].
    + rewrite spoken_end by done. unfold running. rewrite lookup_delete_eq, Hk. f_equal. simpl.
      unfold over in Ho. by destruct (at_stage k).
    + rewrite spoken_snoc by done. unfold running. rewrite lookup_delete_ne by done. f_equal.
      symmetry. apply spoken_other. by rewrite lookup_delete_ne.
  - rewrite Ht, map_app. etrans; [exact H7|].
    etrans; [apply Permutation_app_tail, (in_hand_leave v v' i (stream k) x Hh Hw Hx)|].
    rewrite <- app_assoc. apply Permutation_app_head, Permutation_cons_append.
Qed.

Lemma inv_outside tr v v' e T D l :
  sys_inv tr (mk v e T D) -> outside l = true ->
  Server.step (Config.max_connections config) l v = Some v' -> sys_inv tr (mk v' e T D).
Proof.
  intros [H1 H2 H3 H4 H5 H6 H7] Ho Hs. simpl in *. constructor; simpl; try done.
  - by eapply Server.reach_step.
  - intros i c. rewrite <- H5. by eapply outside_handling.
  - destruct (outside_taken _ _ _ _ Ho Hs) as (new & -> & Hp).
    etrans; [apply Permutation_app_tail; exact H7|]. etrans; [|apply Permutation_app_tail; symmetry; exact Hp].
    rewrite <- !app_assoc. apply Permutation_app_head, Permutation_app_comm.
Qed.

Lemma inv_begin tr v v' e T D i c :
  sys_inv tr (mk v e T D) -> Server.workers v !! i = Some (Server.Received c) ->
  Server.step (Config.max_connections config) (Server.LBegin i) v = Some v' ->
  sys_inv tr (mk v' e (<[i := mkTalk c [] (greet config socket c)]> T) D).
Proof.
  intros Hinv Hw Hs. pose proof (received_no_talk tr (mk v e T D) i c Hinv Hw) as HT0.
  destruct Hinv as [H1 H2 H3 H4 H5 H6 H7]. cbn [server engine talks ended] in *.
  assert (Hreach := Server.reach_step _ _ _ _ _ H1 Hs). simpl in Hs. rewrite Hw in Hs. injection Hs as <-.
  constructor; simpl; try done.
  - apply talks_update; [done|]. apply greet_follows.
  - intros j d. destruct (decide (j = i)) as [->|Hne].
    + rewrite lookup_insert_eq, list_lookup_insert_eq by (by eapply lookup_lt_Some). naive_solver.
    + rewrite lookup_insert_ne, list_lookup_insert_ne by done. apply H5.
  - intros j. rewrite H6. destruct (decide (j = i)) as [->|Hne].
    + unfold running, spoken. rewrite lookup_insert_eq, HT0. f_equal. simpl. unfold greet.
      repeat case_match; done.
    + unfold running. rewrite lookup_insert_ne by done. f_equal. symmetry. apply spoken_other.
      by rewrite lookup_insert_ne.
  - etrans; [exact H7|]. apply Permutation_app_tail. unfold in_hand. simpl.
    pose proof (omap_insert (fun x => match x with Server.Received c | Server.Handling c => Some c | _ => None end)
      _ _ _ (Server.Handling c) Hw) as Hp. simpl in Hp.
    symmetry. by apply Permutation_app_inv_r in Hp.
Qed.

Lemma inv_steps tr (s : state) l s' :
  sys_inv tr s -> sys_step s l s' -> sys_inv (tr ++ option_list l) s'.
Proof.
  intros Hinv Hs. destruct Hs as
    [l v v' e T D Ho Hv|i c v v' e T D Hw Hv|i c l k k' command v e e' T D Hk Hh He|i c l k k' r v e T D Hk Hh
    |e e' v T D He|i c l k command r v e e' T D Hk He|i k v v' e T D Hk Ho Hv|i k v v' e T D Hk Ho Hv].
  - simpl. rewrite app_nil_r. by eapply inv_outside.
  - simpl. rewrite app_nil_r. by eapply inv_begin.
  - eapply inv_move; [done|done| |done| | |].
    + rewrite <- Hh. apply hear_follows. by apply (inv_talks _ _ Hinv i).
    + eapply run_snoc; [apply Hinv|done].
    + intros j x Hne. simpl. by rewrite decide_False by congruence.
    + simpl. rewrite decide_True by done. unfold running, spoken. by rewrite lookup_insert_eq, Hk.
  - eapply inv_move; [done|done| |done| |done|].
    + rewrite <- Hh. apply hear_follows. by apply (inv_talks _ _ Hinv i).
    + simpl. rewrite app_nil_r. apply Hinv.
    + simpl. unfold running, spoken. by rewrite lookup_insert_eq, Hk.
  - simpl. destruct Hinv as [H1 H2 H3 H4 H5 H6 H7]. simpl in *. rewrite app_nil_r.
    constructor; simpl; try done. by eapply run_tau.
  - eapply inv_move; [done|done| |done| | |].
    + apply reply_follows. by apply (inv_talks _ _ Hinv i).
    + eapply run_snoc; [apply Hinv|done].
    + intros j x Hne. simpl. by rewrite decide_False by congruence.
    + simpl. rewrite decide_True by done. unfold running, spoken. rewrite lookup_insert_eq, Hk. simpl.
      rewrite <- app_assoc. f_equal. unfold reply. repeat case_match; done.
  - simpl. rewrite app_nil_r. pose proof (Server.reach_step _ _ _ _ _ (inv_server _ _ Hinv) Hv) as Hr.
    simpl in Hv. destruct (Server.workers v !! i) as [[]|]; simplify_eq.
    eapply inv_close; [done|done|by rewrite Ho|done|done|done|by left].
  - simpl. rewrite app_nil_r. pose proof (Server.reach_step _ _ _ _ _ (inv_server _ _ Hinv) Hv) as Hr.
    simpl in Hv. destruct (Server.workers v !! i) as [[]|]; simplify_eq.
    eapply inv_close; [done|done|by rewrite Ho|done|done|done|by right].
Qed.

Lemma run_inv tr (s : state) : run sys_step (System.start n e0 w0) tr s -> sys_inv tr s.
Proof.
  intros Hrun. remember (System.start n e0 w0) as s0 eqn:E. induction Hrun as [|s0 tr s1 l s2 _ IH Hstep].
  - rewrite E. apply inv_begins.
  - eapply inv_steps; eauto.
Qed.
End Composition.

(** ** Sockets that answer, and an engine that does *)

(** Writing to a socket ends with success or an error. *)
Class WritesReturn (W : Type) `{Write W} := {
  write_all_returns : forall bs w, returns (write_all bs w).1;
  flush_returns : forall w, returns (flush w).1
}.

Section Calm.
Context {S R W : Type} `{HS : TcpStreamLaws S R W} {HWr : WritesReturn W} `{HT : IoText}.
Context (config : Config.t) (socket : nat -> S).

Lemma read_command_returns (r : R) : returns (Codec.read_command r).1.
Proof.
  unfold Codec.read_command. destruct (Z.ltb_spec (len (incoming r)) Codec.HEADER_SIZE) as [Hs|Hs].
  { destruct (read_exact_short _ r Hs) as (k & r1 & E). by rewrite (bind_err _ _ _ _ _ E). }
  unfold Codec.HEADER_SIZE in *. destruct (read_exact_enough 5 r) as (r1 & E & _); [lia|].
  rewrite (bind_ok _ _ _ _ _ E). set (h := ztake 5 (incoming r)) in *.
  assert (Hh : len h = 5) by (apply len_ztake; lia).
  rewrite (bind_ok _ _ r1 (from_be (sub 1 4 h)) r1)
    by (unfold lift; by rewrite Codec.u32_be_at_sub by lia).
  set (n := from_be (sub 1 4 h)). destruct (Codec.MAX_PAYLOAD_SIZE <? n); [done|].
  assert (Hd : forall bs (r2 : R), returns ((lift (Codec.decode_command bs) : ST R Command.t) r2).1).
  { intros bs r2. pose proof (Codec.decode_command_within bs) as Hdec. simpl.
    by destruct (Codec.decode_command bs) as [|[]| |]. }
  destruct (Z.ltb_spec 0 n).
  - destruct (Z.ltb_spec (len (incoming r1)) n) as [Hn|Hn].
    + destruct (read_exact_short _ r1 Hn) as (k & r2 & E2). by rewrite (bind_err _ _ _ _ _ E2).
    + destruct (read_exact_enough n r1) as (r2 & E2 & _); [lia|]. rewrite (bind_ok _ _ _ _ _ E2). apply Hd.
  - rewrite (bind_ok (mret []) _ _ [] r1) by done. apply Hd.
Qed.

Lemma write_response_returns resp (w : W) : returns (Codec.write_response resp w).1.
Proof.
  unfold Codec.write_response, mbind, ST_bind. pose proof (write_all_returns (Codec.encode_response resp) w) as Hall.
  destruct (write_all _ w) as [[u|er| |] w1]; try done. apply flush_returns.
Qed.

(** How a conversation can be over: without a panic. *)
Definition peaceful (st : stage (R := R) (W := W)) : Prop :=
  match st with Unopened r | Left _ r => r = Ok tt | _ => True end.

Lemma greet_peaceful c : peaceful (greet config socket c).
Proof.
  unfold greet. destruct (new_cases (socket c) tt) as [[er ->]|(r & w & addr & -> & _)]; [done|].
  destruct (set_timeouts_keeps (Config.read_timeout_ms config) (Config.write_timeout_ms config)
    (Connection.mk r w tt addr)) as (x & r' & w' & -> & Hx & _). by destruct x.
Qed.

Lemma hear_peaceful (c : Connection.t R W unit) : peaceful (hear c).
Proof.
  destruct c as [r w e a]. unfold hear, Connection.receive, mbind, ST_bind, catch, Connection.send_response,
    Connection.on_reader, Connection.on_writer, zoom. cbn.
  pose proof (read_command_returns r) as Hr. destruct (Codec.read_command r) as [[cmd|er| |] r1]; try done.
  pose proof (write_response_returns (Response.error (to_string er)) w) as Hw.
  destruct er as [k| | | | | | | | |]; cbn; try (destruct (Connection.quiet_read_error k); [done|]); cbn;
    by destruct (Codec.write_response _ w) as [[u|er| |] w1].
Qed.

Lemma reply_peaceful r (c : Connection.t R W unit) : returns r -> peaceful (reply r c).
Proof.
  intros Hr. unfold reply. destruct (to_response_returns r Hr) as [resp ->].
  destruct c as [rr w e a]. unfold Connection.deliver, mbind, ST_bind, catch, Connection.send_response,
    Connection.on_writer, zoom. cbn.
  pose proof (write_response_returns resp w) as Hw.
  destruct (Codec.write_response resp w) as [[u|er| |] w1]; try done. cbn. by destruct (Connection.client_gone er).
Qed.
End Calm.

Section Peace.
Context {S R W : Type} `{HS : TcpStreamLaws S R W} {HWr : WritesReturn W}.
Context `{HC : Crc32} {HCok : Crc32Ok} `{HB : WalEntry.Bincode} {HBok : WalEntry.BincodeOk} `{HT : IoText}.
Context (config : Config.t) (socket : nat -> S).

Lemma outside_active m l v v' :
  outside l = true -> Server.step m l v = Some v' ->
  Server.active_connections v' = Server.active_connections v.
Proof.
  intros Ho Hs. destruct l; try done; simpl in Hs;
    unfold Server.on_accept, Server.on_send, Server.on_recv, Server.on_hand in Hs;
    repeat case_match; simplify_eq/=; done.
Qed.

(** No worker has panicked, no conversation is about to, and the counter counts
    the conversations. *)
Record peace (s : System.t (R := R) (W := W)) : Prop := {
  peace_calm : Server.calm (server s);
  peace_talks : forall i k, talks s !! i = Some k -> peaceful (at_stage k);
  peace_ended : Forall (fun x => over x.2 = Some (Ok tt)) (ended s);
  peace_active : Server.active_connections (server s) = Z.of_nat (size (talks s))
}.

Lemma peace_move v e e' T D i k k' :
  peace (mk v e T D) -> T !! i = Some k -> peaceful (at_stage k') -> peace (mk v e' (<[i := k']> T) D).
Proof.
  intros [P1 P2 P3 P4] Hk Hp. constructor; simpl in *; [done| |done|].
  - by apply (talks_update i k' T (fun x => peaceful (at_stage x))).
  - by rewrite map_size_insert_Some.
Qed.

Lemma peace_step tr s l s' n e0 w0 ts kv :
  engine_ok e0 w0 ts kv -> sys_inv config socket n e0 w0 tr s ->
  sys_inv config socket n e0 w0 (tr ++ option_list l) s' ->
  peace s -> System.step config socket Workers.room s l s' -> peace s'.
Proof.
  intros Hok Hinv Hinv' Hp Hs. destruct Hs as
    [l v v' e T D Ho Hv|i c v v' e T D Hw Hv|i c l k k' command v e e' T D Hk Hh He|i c l k k' r v e T D Hk Hh
    |e e' v T D He|i c l k command r v e e' T D Hk He|i k v v' e T D Hk Ho Hv|i k v v' e T D Hk Ho Hv].
  - destruct Hp as [P1 P2 P3 P4]. constructor; simpl in *; [|done|done|].
    + eapply calm_step; [done| |done]. by intros j ->.
    + by rewrite (outside_active _ _ _ _ Ho Hv).
  - pose proof (received_no_talk _ _ _ _ _ _ _ _ _ Hinv Hw) as HT0.
    destruct Hp as [P1 P2 P3 P4]. simpl in *. constructor; simpl.
    + by eapply (calm_step (Config.max_connections config) (Server.LBegin i)).
    + apply (talks_update i _ T (fun x => peaceful (at_stage x))); [done|]. apply greet_peaceful.
    + done.
    + rewrite Hw in Hv. injection Hv as <-. simpl. rewrite P4, map_size_insert_None by done. lia.
  - by eapply peace_move.
  - eapply peace_move; [done|done|]. simpl. pose proof (hear_peaceful k) as Hq. by rewrite Hh in Hq.
  - destruct Hp as [P1 P2 P3 P4]. by constructor.
  - eapply peace_move; [done|done|]. simpl. apply reply_peaceful.
    destruct (workers_atomic _ _ _ _ _ _ Hok (inv_engine _ _ _ _ _ _ _ Hinv')) as (a & ts' & Hrun & _).
    destruct (Atomic.returns_answer _ _ _ _ i r Hrun) as [[x ->]|[x ->]]; [|done..].
    simpl. apply elem_of_app. right. apply list_elem_of_here.
  - destruct Hp as [P1 P2 P3 P4]. constructor; simpl in *.
    + by eapply (calm_step (Config.max_connections config) (Server.LFinish i)).
    + intros j x [_ ?]%lookup_delete_Some. eauto.
    + apply Forall_app. split; [done|]. by constructor.
    + destruct (Server.workers v !! i) as [[]|]; simplify_eq/=.
      rewrite P4, map_size_delete, Hk. assert (size T <> 0%nat) by (apply (map_size_ne_0_lookup_2 T i); eauto). lia.
  - exfalso. pose proof (peace_talks _ Hp i k Hk) as Hq. unfold over in Ho. unfold peaceful in Hq.
    destruct (at_stage k); simplify_eq; congruence.
Qed.

Lemma run_peace n e0 w0 ts kv tr s :
  engine_ok e0 w0 ts kv -> run (System.step config socket Workers.room) (System.start n e0 w0) tr s -> peace s.
Proof.
  intros Hok Hrun. remember (System.start n e0 w0) as s0 eqn:E.
  induction Hrun as [s0|s0 tr s1 l s2 Hrun IH Hstep]; subst s0.
  - constructor; simpl; [|intros i k Hx; by rewrite lookup_empty in Hx|done|done].
    unfold Server.calm. simpl. apply Forall_replicate. done.
  - pose proof (run_inv config socket n e0 w0 tr s1 Hrun) as Hi.
    pose proof (run_inv config socket n e0 w0 _ s2 (run_snoc _ _ _ _ _ _ Hrun Hstep)) as Hi'.
    by eapply peace_step; [| | |apply IH|].
Qed.
End Peace.
