(* ===== verification/SystemEnds.v ===== *)
(** The running server comes to an end: once shutdown is signaled, every step of
    any thread takes it closer, and it stops only when everything is done. *)

From Stdlib Require Import ZArith Lia String Wellfounded.
From stdpp Require Import base gmap list strings.
From S2P Require Import Prelude Errors Protocol World Config Wal Engine EngineFacts Traces Register.
From S2P Require Import Workers WorkersFacts Network NetworkFacts Server ServerFacts System SystemFacts.
Open Scope list_scope.
Open Scope nat_scope.

Import System.

Section Ends.
Context {S R W : Type} `{HS : TcpStreamLaws S R W} {HRc : ReadClosed R} {HWr : WritesReturn W}.
Context `{HC : Crc32} {HCok : Crc32Ok} `{HB : WalEntry.Bincode} {HBok : WalEntry.BincodeOk} `{HT : IoText}.
Context (config : Config.t) (socket : nat -> S).

Abbreviation state := (System.t (R := R) (W := W)).
Abbreviation sys_step := (System.step config socket Workers.room).
Abbreviation unread c := (length (incoming (Connection.reader c))).

(** ** The measure *)

(** What is left of a conversation, by the bytes its client has yet to be read. *)
Definition stage_cost (st : stage (R := R) (W := W)) : nat :=
  match st with
  | Reading c => 12 * unread c + 1
  | Running c _ => 12 * unread c + 2
  | Unopened _ | Left _ _ => 0
  end.

Definition work (s : state) : nat :=
  msum (fun k => stage_cost (at_stage k)) (talks s) + msum rank (Workers.threads (engine s)).

(** Reading a command takes a whole frame off the stream. *)
Lemma hear_command (c c' : Connection.t R W unit) command :
  hear c = Running c' command ->
  Codec.read_command (Connection.reader c) = (Ok command, Connection.reader c').
Proof.
  destruct c as [r w e a]. unfold hear, Connection.receive, mbind, ST_bind, catch, Connection.send_response,
    Connection.on_reader, Connection.on_writer, zoom. cbn.
  destruct (Codec.read_command r) as [[cmd|er| |] r1]; cbn; [by intros [= <- <-]| |done..].
  destruct er as [k| | | | | | | | |]; cbn; try (destruct (Connection.quiet_read_error k); [done|]); cbn;
    by destruct (Codec.write_response _ w) as [[u|er| |] w1].
Qed.

Lemma hear_consumes (c c' : Connection.t R W unit) command :
  hear c = Running c' command -> unread c' + 5 <= unread c.
Proof.
  intros Hh%hear_command. set (r := Connection.reader c) in *. set (r' := Connection.reader c') in *.
  destruct (Codec.frame_len (incoming r)) as [m|] eqn:Hf.
  - destruct (Codec.read_command_frame r m Hf) as (r1 & E & Hr). rewrite E in Hh. injection Hh as _ ->.
    pose proof (Codec.frame_len_bounds _ _ Hf) as (Hm & _ & _). unfold Codec.HEADER_SIZE in Hm.
    assert (Hl : len (zdrop m (incoming r)) = (len (incoming r) - m)%Z) by (apply len_zdrop; lia).
    rewrite <- Hr in Hl. unfold len in *. lia.
  - destruct (read_command_none r Hf) as [r1 E]. rewrite E in Hh. by destruct (_ && _).
Qed.

Lemma reply_keeps r (c c' : Connection.t R W unit) : reply r c = Reading c' -> unread c' = unread c.
Proof.
  destruct c as [rr w e a]. unfold reply, Connection.deliver, mbind, ST_bind, catch, Connection.send_response,
    Connection.on_writer, zoom. cbn.
  destruct (Connection.to_response r) as [resp|er| |]; try done. cbn.
  destruct (Codec.write_response resp w) as [[u|er| |] w1]; try done; cbn; [by intros [= <-]|].
  by destruct (Connection.client_gone er).
Qed.

Lemma reply_cost r (c : Connection.t R W unit) : stage_cost (reply r c) <= 12 * unread c + 1.
Proof.
  destruct (reply r c) as [x|c'|c' cmd|c' x] eqn:E; simpl; [lia| | |lia].
  - rewrite (reply_keeps _ _ _ E). lia.
  - exfalso. unfold reply in E. repeat case_match; done.
Qed.

(** Threads inside the engine, and what one of their steps does to their number. *)
Lemma work_step e l e' :
  lock_ok e -> Workers.step Workers.room e l e' ->
  match l with
  | Some (Call i c) => msum rank (Workers.threads e') = 9 + msum rank (Workers.threads e)
  | Some (Ret i r) => msum rank (Workers.threads e') <= msum rank (Workers.threads e)
  | None => msum rank (Workers.threads e') < msum rank (Workers.threads e)
  end.
Proof.
  intros Hl Hs. destruct Hs as [i c sh T Hi|now i p sh T p' sh' Hi _ Ha|i r sh T Hi]; simpl.
  - by rewrite msum_insert.
  - pose proof (msum_update rank T i p p' Hi).
    destruct (act_lock _ _ _ _ _ _ Ha) as (_ & _ & Hr); [intros; apply Hl; eauto|]. lia.
  - rewrite (msum_delete rank T i _ Hi). lia.
Qed.

Definition to_do (s : state) : nat := Z.to_nat (remaining (server s)).

Lemma step_decreases s l s' :
  Server.shutdown_flag (server s) = true -> lock_ok (engine s) -> sys_step s l s' ->
  Server.shutdown_flag (server s') = true /\
  (to_do s' < to_do s \/ to_do s' = to_do s /\ work s' < work s).
Proof.
  intros Hf Hl Hs. assert (Hserver : forall l v',
    Server.step (Config.max_connections config) l (server s) = Some v' ->
    Server.shutdown_flag v' = true /\ Z.to_nat (remaining v') < to_do s).
  { intros l' v' Hv. destruct (step_remaining _ _ _ _ Hf Hv) as [Hr Hf']. split; [done|].
    unfold to_do. pose proof (remaining_nonneg v'). lia. }
  unfold to_do, work. destruct Hs as
    [l v v' e T D Ho Hv|i c v v' e T D Hw Hv|i c l k k' command v e e' T D Hk Hh He|i c l k k' r v e T D Hk Hh
    |e e' v T D He|i c l k command r v e e' T D Hk He|i k v v' e T D Hk Ho Hv|i k v v' e T D Hk Ho Hv];
    cbn [server engine talks ended] in *.
  1, 2, 7, 8: destruct (Hserver _ _ Hv); auto.
  - split; [done|]. right. split; [done|]. pose proof (work_step _ _ _ Hl He) as H4. cbv beta iota in H4.
    pose proof (msum_update (fun k => stage_cost (at_stage k)) T i _ (mkTalk c l (Running k' command)) Hk) as H5.
    pose proof (hear_consumes _ _ _ Hh). simpl in H5. simpl. lia.
  - split; [done|]. right. split; [done|].
    pose proof (msum_update (fun k => stage_cost (at_stage k)) T i _ (mkTalk c l (Left k' r)) Hk) as H5.
    simpl in H5. simpl. lia.
  - split; [done|]. right. split; [done|]. pose proof (work_step _ _ _ Hl He) as H4. cbv beta iota in H4. lia.
  - split; [done|]. right. split; [done|]. pose proof (work_step _ _ _ Hl He) as H4. cbv beta iota in H4.
    pose proof (msum_update (fun k => stage_cost (at_stage k)) T i _
      (mkTalk c (l ++ [(command, r)]) (reply r k)) Hk) as H5.
    pose proof (reply_cost r k). simpl in H5. simpl. lia.
Qed.

(** No run goes on for ever. *)
Lemma shutdown_acc n e0 w0 tr s :
  run sys_step (System.start n e0 w0) tr s -> Server.shutdown_flag (server s) = true ->
  Acc (fun y x => exists l, sys_step x l y) s.
Proof.
  remember (to_do s) as a eqn:Ea. revert s tr Ea. induction a as [a IHa] using lt_wf_ind. intros s.
  remember (work s) as b eqn:Eb. revert s Eb. induction b as [b IHb] using lt_wf_ind.
  intros s Eb tr Ea Hrun Hf. constructor. intros s' [l Hs].
  assert (Hl : lock_ok (engine s)) by (eapply lock_run, (inv_engine _ _ _ _ _ _ _ (run_inv _ _ _ _ _ _ _ Hrun))).
  destruct (step_decreases s l s' Hf Hl Hs) as [Hf' [Hlt|[Heq Hlt]]];
    pose proof (run_snoc _ _ _ _ _ _ Hrun Hs) as Hrun'.
  - by eapply IHa; [|done|exact Hrun'|done]; subst.
  - by eapply IHb; [|done|congruence|exact Hrun'|done]; subst.
Qed.

(** ** Nobody waits for ever *)

(** The engine has a thread for a worker exactly while it runs a command. *)
Definition inside (s : state) : Prop :=
  forall i, is_Some (Workers.threads (engine s) !! i) <-> running i (talks s) <> None.

Lemma running_ne i j k (T : gmap nat (talk (R := R) (W := W))) : j <> i -> running j (<[i := k]> T) = running j T.
Proof. intros Hne. unfold running. by rewrite lookup_insert_ne. Qed.

Lemma running_at i c l st (T : gmap nat (talk (R := R) (W := W))) :
  running i (<[i := mkTalk c l st]> T) = match st with Running _ command => Some command | _ => None end.
Proof. unfold running. by rewrite lookup_insert_eq. Qed.

Lemma inside_step tr s l s' n e0 w0 :
  sys_inv config socket n e0 w0 tr s -> inside s -> sys_step s l s' -> inside s'.
Proof.
  intros Hinv Hin Hs. destruct Hs as
    [l v v' e T D Ho Hv|i c v v' e T D Hw Hv|i c l k k' command v e e' T D Hk Hh He|i c l k k' r v e T D Hk Hh
    |e e' v T D He|i c l k command r v e e' T D Hk He|i k v v' e T D Hk Ho Hv|i k v v' e T D Hk Ho Hv];
    unfold inside in *; cbn [talks engine] in *; intros j.
  - done.
  - destruct (decide (j = i)) as [->|Hne]; [|by rewrite running_ne].
    rewrite Hin, running_at. pose proof (received_no_talk _ _ _ _ _ _ _ _ _ Hinv Hw) as HT0.
    cbn [talks] in HT0. unfold running. rewrite HT0. unfold greet. repeat case_match; done.
  - inversion He; subst. cbn [Workers.threads] in *. destruct (decide (j = i)) as [->|Hne].
    + rewrite running_at, lookup_insert_eq. split; [done|eauto].
    + rewrite running_ne, lookup_insert_ne by done. apply Hin.
  - destruct (decide (j = i)) as [->|Hne]; [|by rewrite running_ne].
    rewrite Hin, running_at. unfold running. by rewrite Hk.
  - inversion He; subst. cbn [Workers.threads] in *. rewrite <- Hin. rewrite lookup_insert_is_Some.
    destruct (decide (i = j)) as [->|]; naive_solver.
  - inversion He; subst. cbn [Workers.threads] in *. destruct (decide (j = i)) as [->|Hne].
    + rewrite running_at, lookup_delete_eq. unfold reply. split; [by intros [? ?]|]. repeat case_match; done.
    + rewrite running_ne, lookup_delete_ne by done. apply Hin.
  - rewrite Hin. unfold running. destruct (decide (j = i)) as [->|Hne]; [|by rewrite lookup_delete_ne].
    rewrite lookup_delete_eq, Hk. unfold over in Ho. simpl. by destruct (at_stage k).
  - rewrite Hin. unfold running. destruct (decide (j = i)) as [->|Hne]; [|by rewrite lookup_delete_ne].
    rewrite lookup_delete_eq, Hk. unfold over in Ho. simpl. by destruct (at_stage k).
Qed.

Lemma run_inside n e0 w0 tr s : run sys_step (System.start n e0 w0) tr s -> inside s.
Proof.
  intros Hrun. remember (System.start n e0 w0) as s0 eqn:E.
  induction Hrun as [s0|s0 tr s1 l s2 Hrun IH Hstep]; subst s0.
  - intros i. unfold running. simpl. rewrite !lookup_empty. split; [by intros [? ?]|done].
  - eapply inside_step; [by eapply run_inv|by apply IH|done].
Qed.

(** The engine's counters leave room for what its threads are about to do. *)
Definition roomy (s : state) : Prop :=
  forall i p, Workers.threads (engine s) !! i = Some p ->
    exists now, Workers.room now p (Workers.sh (engine s)).

Lemma thread_steps e i p :
  lock_ok e -> Workers.threads e !! i = Some p -> (forall r, p <> Workers.Done r) ->
  (forall j q, Workers.threads e !! j = Some q -> exists now, Workers.room now q (Workers.sh e)) ->
  exists e', Workers.step Workers.room e None e'.
Proof.
  destruct e as [sh T]. simpl. intros Hl Hp Hd Hroom.
  assert (Hact : forall j q, T !! j = Some q -> (forall now, Workers.act now j q sh <> None) ->
    exists e', Workers.step Workers.room (Workers.mk sh T) None e').
  { intros j q Hq Ha. destruct (Hroom j q Hq) as [now Hr]. specialize (Ha now).
    destruct (Workers.act now j q sh) as [[q' sh']|] eqn:E; [|done]. eexists. by eapply Workers.s_act. }
  destruct (Hroom i p Hp) as [now Hr]. destruct (Workers.act now i p sh) as [[p' sh']|] eqn:E.
  - eexists. by eapply Workers.s_act.
  - destruct (act_waits _ _ _ _ E) as [[r ->]|[_ [j Hj]]]; [by destruct (Hd r)|].
    destruct (proj1 (Hl j) Hj) as (q & Hq & Hc). apply (Hact j q Hq). intros now' E'.
    destruct (act_waits _ _ _ _ E') as [[r ->]|[Hc' _]]; [done|congruence].
Qed.

(** A worker inside [handle_connection] is never stuck. *)
Lemma talk_steps n e0 w0 ts kv tr s i k :
  engine_ok e0 w0 ts kv -> run sys_step (System.start n e0 w0) tr s -> roomy s ->
  talks s !! i = Some k -> exists l s', sys_step s l s'.
Proof.
  intros Hok Hrun Hroom Hk. pose proof (run_inv _ _ _ _ _ _ _ Hrun) as Hinv.
  pose proof (run_peace config socket n e0 w0 ts kv tr s Hok Hrun) as Hp.
  pose proof (run_inside n e0 w0 tr s Hrun i) as Hin.
  pose proof (lock_run _ _ _ _ _ (inv_engine _ _ _ _ _ _ _ Hinv)) as Hl.
  pose proof (proj2 (inv_handling _ _ _ _ _ _ _ Hinv i (stream k)) (ex_intro _ k (conj Hk eq_refl))) as Hw.
  destruct s as [v [sh T'] T D], k as [c l st]. cbn [talks engine server Workers.threads] in *.
  assert (Hfin : over (mkTalk c l st) = Some (Ok tt) ->
    exists l' s', sys_step (mk v (Workers.mk sh T') T D) l' s').
  { intros Ho. do 2 eexists. eapply s_finish; [done|done|]. simpl. by rewrite Hw. }
  pose proof (peace_talks _ Hp i _ Hk) as Hq. cbn [at_stage] in Hq.
  destruct st as [r|kc|kc command|kc r]; simpl in Hq; subst; [by apply Hfin| | |by apply Hfin].
  - assert (HT0 : T' !! i = None).
    { destruct (T' !! i) eqn:E; [|done]. destruct (proj1 Hin ltac:(eauto)). unfold running. by rewrite Hk. }
    pose proof (hear_handle 0 [] kc) as Hh. destruct (hear kc) as [| |k' command|k' r] eqn:Eh; try done.
    + do 2 eexists. eapply s_call; [done|done|]. by constructor.
    + do 2 eexists. by eapply s_leave.
  - destruct (proj2 Hin ltac:(unfold running; by rewrite Hk)) as [p Hp'].
    assert ((exists r, p = Workers.Done r) \/ forall r, p <> Workers.Done r) as [[r ->]|Hd]
      by (destruct p; naive_solver).
    + do 2 eexists. eapply s_return; [done|]. by constructor.
    + destruct (thread_steps (Workers.mk sh T') i p Hl Hp' Hd Hroom) as [e' He].
      do 2 eexists. by eapply s_work.
Qed.

Lemma server_steps n e0 w0 ts kv tr s :
  engine_ok e0 w0 ts kv -> run sys_step (System.start n e0 w0) tr s -> roomy s ->
  0 < n -> (0 <= Config.max_connections config)%Z -> Server.main (server s) <> Server.Done ->
  exists l s', sys_step s l s'.
Proof.
  intros Hok Hrun Hroom Hn Hm Hd. pose proof (run_inv _ _ _ _ _ _ _ Hrun) as Hinv.
  pose proof (run_peace config socket n e0 w0 ts kv tr s Hok Hrun) as Hp.
  destruct (step_exists (Config.max_connections config) n (server s) (reach_inv _ _ _ (inv_server _ _ _ _ _ _ _ Hinv))
    (peace_calm _ Hp) Hn Hm Hd) as (l & v' & Hv & Hl).
  pose proof (inv_handling _ _ _ _ _ _ _ Hinv) as Hh.
  assert (Htalk : forall i, (exists k, talks s !! i = Some k) -> exists l s', sys_step s l s')
    by (intros i [k Hk]; by eapply talk_steps).
  destruct (outside l) eqn:Eo.
  - destruct s as [v e T D]. do 2 eexists. by eapply s_server.
  - destruct l as [| | | | | | |i|i|i|]; try done; [| |by destruct (Hl i)].
    + destruct s as [v e T D]. pose proof Hv as Hv'. simpl in Hv'.
      destruct (Server.workers v !! i) as [[]|] eqn:Ew; try done. do 2 eexists. by eapply s_begin.
    + simpl in Hv. destruct (Server.workers (server s) !! i) as [[| |c| |]|] eqn:Ew; try done.
      apply (Htalk i). destruct (proj1 (Hh i c) Ew) as (k & Hk & _). eauto.
Qed.

(** When the server is done, so is everything else. *)
Lemma done_ends n e0 w0 ts kv tr s :
  engine_ok e0 w0 ts kv -> run sys_step (System.start n e0 w0) tr s -> 0 < n ->
  Server.main (server s) = Server.Done ->
  talks s = ∅ /\ Workers.threads (engine s) = ∅ /\ Server.queue (server s) = [] /\
  Forall (fun x => x = Server.Stopped) (Server.workers (server s)) /\
  Server.sent (server s) ≡ₚ map (fun x => stream x.2) (ended s).
Proof.
  intros Hok Hrun Hn Hd. pose proof (run_inv _ _ _ _ _ _ _ Hrun) as Hinv.
  pose proof (run_peace config socket n e0 w0 ts kv tr s Hok Hrun) as Hp.
  destruct (done_drained n (server s) (reach_inv _ _ _ (inv_server _ _ _ _ _ _ _ Hinv)) (peace_calm _ Hp) Hd Hn)
    as (Hq & Ht & Hw).
  assert (HT0 : talks s = ∅).
  { apply map_empty. intros i. destruct (talks s !! i) as [k|] eqn:E; [|done].
    pose proof (proj2 (inv_handling _ _ _ _ _ _ _ Hinv i (stream k)) (ex_intro _ k (conj E eq_refl))) as Hx.
    rewrite Forall_lookup in Hw. by specialize (Hw i _ Hx). }
  split_and!; [done| |done|done|].
  - apply map_empty. intros i. destruct (Workers.threads (engine s) !! i) as [p|] eqn:E; [|done].
    destruct (proj1 (run_inside n e0 w0 tr s Hrun i) ltac:(eauto)). unfold running. by rewrite HT0, lookup_empty.
  - rewrite <- Ht. etrans; [exact (inv_taken _ _ _ _ _ _ _ Hinv)|]. unfold in_hand.
    assert (omap (fun x => match x with Server.Received c | Server.Handling c => Some c | _ => None end)
      (Server.workers (server s)) = []) as ->; [|done].
    clear -Hw. by induction Hw as [|x l -> _ IH].
Qed.
End Ends.
