(* ===== verification/Lives.v ===== *)
(** The server over its lives.  The server program does not shut down: it is killed
    or its machine crashes, and it is started again on the same directory.  A life is
    one start of the engine and the composed server running on it until it stops
    anywhere, or a start that did not succeed; the lives of a server form one history
    with gaps. *)

From Stdlib Require Import ZArith Lia String.
From stdpp Require Import base gmap list strings.
From S2P Require Import Prelude Errors Memtable Protocol World WorldFacts Config Wal WalFacts.
From S2P Require Import Storage StorageFacts Engine EngineFacts Traces Register Workers WorkersFacts.
From S2P Require Import Recovery Durability Crash CrashWorkers Network Server System SystemFacts.
Open Scope list_scope.
Open Scope Z_scope.

(** The atomic map over several lives: what was under way when a life ended never
    returns, and took effect as a whole or not at all. *)
Inductive histories : gmap bytes bytes -> list (list label) -> gmap bytes bytes -> Prop :=
| hs_nil kv : histories kv [] kv
| hs_life kv trs kv' tr a :
    histories kv trs kv' -> run (Atomic.step False) (Atomic.mk kv' ∅) tr a ->
    histories kv (trs ++ [tr]) (Atomic.map a).

Section Lives.
Context {S R W : Type} `{HS : TcpStream S R W} `{HR : Read R} `{HW : Write W}.
Context `{HC : Crc32} {HCok : Crc32Ok} `{HB : WalEntry.Bincode} {HBok : WalEntry.BincodeOk}.
Context `{HT : IoText} `{HSt : Status} {HStok : StatusOk}.

(** One life of a server with the configuration [c], from the files [w] to what is
    left of them; [tr] is what its workers asked of the engine and got.  A start can
    fail, or be cut off, at any system call; if it was writing a table by then, that
    file is removed. *)
Inductive life (c : Config.t) (w : World) (tr : list label) (w' : World) : Prop :=
| lived (socket : nat -> S) n e w1 s :
    Engine.open c w = (Ok e, w1) -> run (System.step c socket Workers.room) (System.start n e w1) tr s ->
    halts (System.engine s) w' -> ids_left (Workers.eng (Workers.sh (System.engine s))) -> quiet w' ->
    life c w tr w'
| unborn fs er w1 w2 :
    tr = [] -> Engine.open c (mkWorld (files w) fs) = (Err er, w1) -> halted w1 w2 ->
    w' = tidy w w2 -> quiet w' -> life c w tr w'.

Inductive lives (c : Config.t) (w : World) : list (list label) -> World -> Prop :=
| lives_nil : lives c w [] w
| lives_snoc trs w1 tr w2 : lives c w trs w1 -> life c w1 tr w2 -> lives c w (trs ++ [tr]) w2.

Lemma life_history c w kv tr w' :
  Config.wal_sync_strategy c = EveryWrite -> recovers c w kv -> quiet w -> life c w tr w' ->
  exists a, run (Atomic.step False) (Atomic.mk kv ∅) tr a /\ recovers c w' (Atomic.map a) /\ quiet w'.
Proof.
  intros Hstr Hr Hq [socket n e w1 s Hopen Hrun Hh Hids Hq'|fs er w1 w2 -> Hopen Hh -> Hq'].
  2: { exists (Atomic.mk kv ∅). split_and!; [constructor| |done]. by eapply start_failed_recovers. }
  destruct (recovers_open c w kv Hstr Hr Hq) as (e0 & w0 & Hopen0 & Hsafe & Hc & Hq1).
  rewrite Hopen in Hopen0. injection Hopen0 as <- <-.
  pose proof (inv_engine _ _ _ _ _ _ _ (run_inv c socket n e w1 tr s Hrun)) as He.
  destruct (halt_atomic e w1 kv tr (System.engine s) w' Hsafe Hq1 He Hh Hids) as (a & Ha & Hra).
  rewrite Hc in Hra. by exists a.
Qed.

Lemma lives_histories c w kv trs w' :
  Config.wal_sync_strategy c = EveryWrite -> recovers c w kv -> quiet w -> lives c w trs w' ->
  exists kv', histories kv trs kv' /\ recovers c w' kv' /\ quiet w'.
Proof.
  intros Hstr Hr Hq. induction 1 as [|trs w1 tr w2 _ IH Hl]; [exists kv; split; [constructor|done]|].
  destruct IH as (kv1 & Hh & Hr1 & Hq1).
  destruct (life_history c w1 kv1 tr w2 Hstr Hr1 Hq1 Hl) as (a & Ha & Hra & Hq2).
  exists (Atomic.map a). split_and!; [by eapply hs_life|done|done].
Qed.
End Lives.
