(* ===== verification/Cli.v ===== *)
(** The two programs: [src/src/bin/cli.rs] and [src/src/bin/server.rs].  Parsing
    the command line is another crate's; addresses and sockets are the platform's. *)

From Stdlib Require Import ZArith Lia String.
From coqutil Require Import Byte.
From stdpp Require Import base list strings.
From S2P Require Import Prelude Fmt Errors World Config Protocol Wal Engine Network Server.
Open Scope string_scope.
Open Scope list_scope.
Open Scope Z_scope.

(** [String::from_utf8] succeeds: the well-formed byte sequences of Unicode. *)
Definition in_range (lo hi : Z) (b : Init.Byte.byte) : bool :=
  (lo <=? byte.unsigned b) && (byte.unsigned b <=? hi).

Definition continuation (b : Init.Byte.byte) : bool := in_range 128 191 b.

(** The second byte of a three- or four-byte sequence, by its first byte. *)
Definition second3 (b0 b1 : Init.Byte.byte) : bool :=
  if in_range 224 224 b0 then in_range 160 191 b1
  else if in_range 237 237 b0 then in_range 128 159 b1
  else continuation b1.
Definition second4 (b0 b1 : Init.Byte.byte) : bool :=
  if in_range 240 240 b0 then in_range 144 191 b1
  else if in_range 244 244 b0 then in_range 128 143 b1
  else continuation b1.

Fixpoint from_utf8 (bs : bytes) : bool :=
  match bs with
  | [] => true
  | b0 :: t0 =>
      if in_range 0 127 b0 then from_utf8 t0
      else
        match t0 with
        | [] => false
        | b1 :: t1 =>
            if in_range 194 223 b0 then continuation b1 && from_utf8 t1
            else
              match t1 with
              | [] => false
              | b2 :: t2 =>
                  if in_range 224 239 b0 then
                    second3 b0 b1 && continuation b2 && from_utf8 t2
                  else
                    match t2 with
                    | [] => false
                    | b3 :: t3 =>
                        in_range 240 244 b0 && second4 b0 b1 && continuation b2 &&
                        continuation b3 && from_utf8 t3
                    end
              end
        end
  end.

Module Cli.

(** [enum Commands]. *)
Inductive Commands :=
| Get (key : string)
| Set_ (key value : string)
| Del (key : string)
| Ping.

(** The conversion at the start of [main]. *)
Definition to_command (c : Commands) : Command.t :=
  match c with
  | Get key => Command.Get (bytes_of_string key)
  | Set_ key value => Command.Put (bytes_of_string key) (bytes_of_string value)
  | Del key => Command.Delete (bytes_of_string key)
  | Ping => Command.Ping
  end.

(** A line on standard output or standard error. *)
Inductive line := Out (text : bytes) | ErrOut (text : bytes).

Definition say (s : string) : line := Out (bytes_of_string s).
Definition complain (s : bytes) : line := ErrOut (bytes_of_string "ERROR: " ++ s).

(** [handle_response]: the line printed and the exit status. *)
Definition handle_response (cmd : Commands) (response : Response.t) : line * Z :=
  match Response.status response with
  | Status.Ok =>
      match cmd with
      | Get _ =>
          match Response.payload response with
          | Some value =>
              if from_utf8 value then (Out value, 0) else (say (debug_bytes value), 0)
          | None => (say "(nil)", 0)
          end
      | Set_ _ _ => (say "OK", 0)
      | Del _ => (say "OK", 0)
      | Ping =>
          match Response.payload response with
          | Some value => if from_utf8 value then (Out value, 0) else (say "PONG", 0)
          | None => (say "PONG", 0)
          end
      end
  | Status.NotFound => (say "(nil)", 0)
  | Status.Error =>
      match Response.payload response with
      | Some payload =>
          if from_utf8 payload then (complain payload, 1)
          else (complain (bytes_of_string "(unknown error)"), 1)
      | None => (complain (bytes_of_string "(unknown error)"), 1)
      end
  end.

(** [struct Args], with the defaults it declares. *)
Record Args := mkArgs { server : string; timeout : Z; command : Commands }.
Definition default_args (cmd : Commands) : Args := mkArgs "127.0.0.1:6379" 5000 cmd.

(** [main]: the line printed and the exit status.  The stream's own errors print
    as [io::Error]s. *)
Section Main.
Context {S : Type} `{HR : Read S} `{HW : Write S} `{HS : TcpStream S S S} `{HT : IoText}.

Definition io_display (e : AtlasError) : string :=
  match e with Io k => io_text k | _ => to_string e end.

Definition fatal (what : string) : line * Z := (ErrOut (bytes_of_string what), 1).

(** Steps 1 to 3, over a connected stream. *)
Definition exchange (cmd : Commands) : ST S (line * Z) :=
  let cmd_bytes := Codec.encode_command (to_command cmd) in
  sent ← catch (write_all cmd_bytes);
  match sent with
  | Err e => mret (fatal ("Failed to send command: " +:+ io_display e))
  | _ =>
      flushed ← catch flush;
      match flushed with
      | Err e => mret (fatal ("Failed to flush command: " +:+ io_display e))
      | _ =>
          read ← catch Codec.read_response;
          match read with
          | Ok response => _ ← catch shutdown_write; mret (handle_response cmd response)
          | Err e => mret (fatal ("Failed to read response: " +:+ to_string e))
          | Panic => lift Panic
          | OutOfFuel => lift OutOfFuel
          end
      end
  end.

(** Timeouts and [TCP_NODELAY]: their errors are ignored. *)
Definition configure (timeout : Z) : ST S unit :=
  _ ← catch (set_read_timeout timeout);
  _ ← catch (set_write_timeout timeout);
  _ ← catch (set_nodelay true);
  mret tt.

(** [parse] reads a socket address; [expect] panics if it cannot. *)
Definition main {A} (parse : string -> option A) (connect_timeout : A -> Z -> outcome S)
    (args : Args) : outcome (line * Z) :=
  match parse (server args) with
  | None => Panic
  | Some addr =>
      match connect_timeout addr (timeout args) with
      | Ok stream => ((_ ← configure (timeout args); exchange (command args)) stream).1
      | Err e => Ok (fatal ("Failed to connect to " +:+ server args +:+ ": " +:+ io_display e))
      | Panic => Panic
      | OutOfFuel => OutOfFuel
      end
  end.
End Main.

End Cli.

(** ** The server program *)

Module ServerBin.

(** [struct Args], with the defaults it declares. *)
Record Args := mkArgs {
  data_dir : string;
  listen : string;
  max_connections : Z;
  memtable_mb : Z
}.
Definition default_args : Args := mkArgs "./atlaskv_data" "127.0.0.1:6379" 1024 64.

(** The configuration from the arguments; [memtable_mb * 1024 * 1024] wraps. *)
Definition server_config (args : Args) : Config.t :=
  ConfigBuilder.build
    (ConfigBuilder.set_memtable_size_limit (as_u64 (memtable_mb args * 1024 * 1024))
      (ConfigBuilder.set_max_connections (max_connections args)
        (ConfigBuilder.set_listen_addr (listen args)
          (ConfigBuilder.set_data_dir (data_dir args) ConfigBuilder.builder)))).

(** ** The Ctrl+C handler *)

(** What a thread beside the server could do: store [main]'s own [shutdown_flag], or
    call [Server::shutdown]. *)
Inductive stmt := StoreFlag | CallShutdown.

(** The closure that [main] passes. *)
Definition handler : list stmt := [StoreFlag].

(** The body of the thread that [ctrlc_handler] starts: [let _ = handler;] drops the
    closure and does not call it. *)
Definition ctrlc_handler (handler : list stmt) : list stmt := [].

(** The program once it serves: the engine, the server, what the handler's thread has
    left to do, and [main]'s flag. *)
Record program := mkProgram {
  engine : Engine.t;
  server : Server.t;
  beside : list stmt;
  flag : bool
}.

(** Labels of the accepting thread and the workers; [Server::shutdown] is for others
    to call. *)
Definition of_server (l : Server.label) : bool :=
  match l with Server.LShutdown => false | _ => true end.

Inductive step (max_connections : Z) : program -> program -> Prop :=
| p_server l e v v' b f :
    of_server l = true -> Server.step max_connections l v = Some v' ->
    step max_connections (mkProgram e v b f) (mkProgram e v' b f)
| p_store e v b f :
    step max_connections (mkProgram e v (StoreFlag :: b) f) (mkProgram e v b true)
| p_shutdown e v b f :
    step max_connections (mkProgram e v (CallShutdown :: b) f) (mkProgram e (Server.shutdown v) b f).

(** How [main] goes on: it exits, or serves an engine. *)
Inductive fate := Exits (status : Z) | Serves (p : program).

Section Main.
Context `{HC : Crc32} `{HB : WalEntry.Bincode} `{HT : IoText} `{HP : Platform} `{HSt : Status}.

(** [main] up to the accept loop of [run]; [thread::spawn] panics without a thread. *)
Definition main (args : Args) : ST World fate :=
  let config := server_config args in
  opened ← catch (Engine.open config);
  match opened with
  | Ok engine =>
      match spawn "" with
      | Ok _ =>
          match Server.setup config with
          | Ok server => mret (Serves (mkProgram engine server (ctrlc_handler handler) false))
          | Err _ => mret (Exits 1)
          | Panic => lift Panic
          | OutOfFuel => lift OutOfFuel
          end
      | _ => lift Panic
      end
  | Err _ => mret (Exits 1)
  | Panic => lift Panic
  | OutOfFuel => lift OutOfFuel
  end.
End Main.
End ServerBin.
