(* ===== verification/Instances.v ===== *)
(** Concrete functions for what the model takes as parameters, with proofs that
    they meet the hypotheses: CRC-32 (IEEE), the fixed-width little-endian layout
    bincode documents for the log entry, and an in-memory socket. *)

From Stdlib Require Import ZArith Lia String.
From coqutil Require Import Byte.
From stdpp Require Import base gmap list strings.
From S2P Require Import Prelude Fmt Errors Protocol World Wal WalFacts Network NetworkFacts Server.
Open Scope string_scope.
Open Scope list_scope.
Open Scope Z_scope.

(** ** CRC-32 *)

Fixpoint crc_bits (n : nat) (c : Z) : Z :=
  match n with
  | O => c
  | S n' => crc_bits n' (if Z.odd c then Z.lxor (Z.shiftr c 1) 3988292384 else Z.shiftr c 1)
  end.

Definition crc_byte (c : Z) (b : Init.Byte.byte) : Z := crc_bits 8 (Z.lxor c (byte.unsigned b)).
Definition crc_update (bs : bytes) (c : Z) : Z := foldl crc_byte c bs.
Definition crc_final (c : Z) : Z := Z.land (Z.lxor c 4294967295) 4294967295.

Instance crc32 : Crc32 := {
  crc_hash bs := crc_final (crc_update bs 4294967295);
  Hasher := Z;
  hasher_new := 4294967295;
  hasher_update := crc_update;
  hasher_finalize := crc_final
}.

(** The check value of the standard. *)
Example crc32_check : crc_hash (bytes_of_string "123456789") = 3421780262.
Proof. vm_compute. reflexivity. Qed.

#[export] Instance crc32_ok : Crc32Ok.
Proof.
  constructor.
  - intros bs. simpl. unfold crc_final. change 4294967295 with (Z.ones 32).
    rewrite Z.land_ones by lia. apply Z.mod_pos_bound. lia.
  - intros chunks. simpl. f_equal. generalize 4294967295 as c.
    induction chunks as [|x l IH]; intros c; [done|]. simpl. rewrite IH.
    unfold crc_update. by rewrite <- foldl_app.
Qed.

(** ** bincode *)

Import WalEntry.

Definition put_vec (v : bytes) : bytes := to_le 8 (len v) ++ v.

Definition bin_bytes (e : t) : bytes :=
  to_le 8 (lsn e) ++
    match operation e with
    | Operation.Put k v => to_le 4 0 ++ put_vec k ++ put_vec v
    | Operation.Delete k => to_le 4 1 ++ put_vec k
    end ++ to_le 8 (timestamp e).

Definition bin_ser (e : t) : string + bytes := inr (bin_bytes e).

(** Readers of a prefix. *)
Definition get_int (n : Z) (bs : bytes) : option (Z * bytes) :=
  if len bs <? n then None else Some (from_le (ztake n bs), zdrop n bs).

Definition get_vec (bs : bytes) : option (bytes * bytes) :=
  x ← get_int 8 bs;
  if len x.2 <? x.1 then None else Some (ztake x.1 x.2, zdrop x.1 x.2).

Definition bin_de_opt (bs : bytes) : option t :=
  l ← get_int 8 bs;
  tag ← get_int 4 l.2;
  op ← (if tag.1 =? 0 then
          k ← get_vec tag.2; v ← get_vec k.2; Some (Operation.Put k.1 v.1, v.2)
        else if tag.1 =? 1 then k ← get_vec tag.2; Some (Operation.Delete k.1, k.2)
        else None);
  ts ← get_int 8 op.2;
  Some (mk l.1 op.1 ts.1).

Instance bincode : Bincode := {
  bincode_serialize := bin_ser;
  bincode_deserialize bs :=
    match bin_de_opt bs with Some e => inr e | None => inl "io error" end;
  bincode_serialized_size e := inr (encoded_size e)
}.

Lemma get_int_app n z rest :
  0 <= z < 2 ^ (8 * Z.of_nat n) -> get_int (Z.of_nat n) (to_le n z ++ rest) = Some (z, rest).
Proof.
  intros Hz. unfold get_int. rewrite (proj2 (Z.ltb_ge _ _)) by len_lia.
  rewrite ztake_app_exact, zdrop_app_exact by len_lia. by rewrite from_to_le_small.
Qed.

Lemma some_bind {A B} (x : A) (f : A -> option B) : Some x ≫= f = f x.
Proof. done. Qed.

Lemma get_int8 z rest : 0 <= z < 2 ^ 64 -> get_int 8 (to_le 8 z ++ rest) = Some (z, rest).
Proof. intros. by apply (get_int_app 8). Qed.

Lemma get_int4 z rest : 0 <= z < 2 ^ 32 -> get_int 4 (to_le 4 z ++ rest) = Some (z, rest).
Proof. intros. by apply (get_int_app 4). Qed.

Lemma get_vec_app v rest : len v < 2 ^ 64 -> get_vec (put_vec v ++ rest) = Some (v, rest).
Proof.
  intros Hv. unfold get_vec, put_vec. rewrite <- app_assoc.
  rewrite get_int8 by (pose_len; lia). rewrite some_bind. cbn [fst snd].
  rewrite (proj2 (Z.ltb_ge _ _)) by len_lia. rewrite ztake_app_exact, zdrop_app_exact by done. done.
Qed.

Lemma bin_ser_inv e bs : bin_ser e = inr bs -> bs = bin_bytes e.
Proof. unfold bin_ser. generalize (bin_bytes e). intros b E. by injection E. Qed.

#[export] Instance bincode_ok : BincodeOk.
Proof.
  constructor.
  - intros e _. by eexists.
  - intros e bs ->%bin_ser_inv. unfold encoded_size, bin_bytes, put_vec. destruct (operation e); len_lia.
  - intros e bs (Hl & Ht & Hop) ->%bin_ser_inv. cbn [bincode_deserialize bincode].
    unfold bin_de_opt, bin_bytes. rewrite get_int8 by done. rewrite some_bind. cbn [fst snd].
    destruct e as [l [k v|k] ts]; cbn [operation lsn timestamp valid_op] in *;
      rewrite <- !app_assoc, get_int4 by done; rewrite some_bind; cbn [fst snd]; cbv beta.
    + rewrite Z.eqb_refl. rewrite get_vec_app by lia. rewrite some_bind. cbn [fst snd]. rewrite get_vec_app by lia.
      do 2 (rewrite some_bind; cbn [fst snd]). rewrite <- (app_nil_r (to_le 8 ts)), get_int8 by done. done.
    + cbn [Z.eqb Pos.eqb]. rewrite get_vec_app by lia. do 2 (rewrite some_bind; cbn [fst snd]).
      rewrite <- (app_nil_r (to_le 8 ts)), get_int8 by done. done.
  - intros e bs ->%bin_ser_inv. cbn [bincode_serialized_size bincode]. f_equal.
    unfold encoded_size, bin_bytes, put_vec. destruct (operation e); len_lia.
Qed.

(** ** An in-memory socket, closed by the peer after [incoming] *)

Record socket := mkSocket { inbox : bytes; outbox : bytes }.

#[export] Instance socket_read : Read socket := fun n s =>
  if len (inbox s) <? n then (Err (Io UnexpectedEof), mkSocket [] (outbox s))
  else (Ok (ztake n (inbox s)), mkSocket (zdrop n (inbox s)) (outbox s)).

#[export] Instance socket_write : Write socket := {
  write_all bs s := (Ok tt, mkSocket (inbox s) (outbox s ++ bs));
  flush s := (Ok tt, s)
}.

Lemma socket_read_enough n r :
  0 <= n <= len (inbox r) ->
  exists r', read_exact n r = (Ok (ztake n (inbox r)), r') /\ inbox r' = zdrop n (inbox r).
Proof.
  intros Hn. unfold read_exact, socket_read. rewrite (proj2 (Z.ltb_ge _ _)) by lia. eauto.
Qed.

Lemma socket_read_short n r :
  len (inbox r) < n -> exists k r', read_exact n r = (Err (Io k), r').
Proof.
  intros Hn. unfold read_exact, socket_read. rewrite (proj2 (Z.ltb_lt _ _)) by lia. eauto.
Qed.

#[export] Instance socket_read_laws : ReadLaws socket := {|
  incoming := inbox;
  read_exact_enough := socket_read_enough;
  read_exact_short := socket_read_short
|}.

Lemma socket_write_sent bs (w w' : socket) :
  write_all bs w = (Ok tt, w') -> outbox w' = outbox w ++ bs.
Proof. by intros [= <-]. Qed.

Lemma socket_flush_sent (w w' : socket) : flush w = (Ok tt, w') -> outbox w' = outbox w.
Proof. by intros [= <-]. Qed.

#[export] Instance socket_write_laws : WriteLaws socket := {|
  outgoing := outbox;
  write_all_sent := socket_write_sent;
  flush_sent := socket_flush_sent
|}.

#[export] Instance socket_closed : ReadClosed socket.
Proof.
  constructor. intros n r Hn. unfold read_exact, socket_read.
  simpl in Hn. rewrite (proj2 (Z.ltb_lt _ _)) by lia. eauto.
Qed.

#[export] Instance socket_reliable : WriteReliable socket.
Proof. constructor; intros; by eexists. Qed.

(** Its configuration, and its two halves. *)
#[export] Instance socket_tcp : TcpStream socket socket socket := {
  sock_addr s := Ok "127.0.0.1:50000";
  set_nodelay b s := (Ok tt, s);
  try_clone s := (Ok s, s);
  buf_reader s := s;
  buf_writer s := s;
  set_read_timeout n s := (Ok tt, s);
  set_write_timeout n s := (Ok tt, s);
  shutdown_write s := (Ok tt, s)
}.

#[export] Instance socket_tcp_laws : TcpStreamLaws socket socket socket.
Proof. unshelve econstructor; [exact inbox|done..]. Defined.

(** A socket whose peer answers, on every flush, everything it was sent. *)
Section Wire.
Context (peer : bytes -> bytes).

Definition wire_write : Write socket := {|
  write_all bs s := (Ok tt, mkSocket (inbox s) (outbox s ++ bs));
  flush s := (Ok tt, mkSocket (peer (outbox s)) (outbox s))
|}.
End Wire.

(** A platform where everything works, with two CPUs. *)
#[export] Instance demo_platform : Platform := {
  bind a := Ok tt;
  set_nonblocking := Ok tt;
  available_parallelism := Ok 2%nat;
  spawn name := Ok tt
}.

#[export] Instance io_text_none : IoText := fun _ => "io".

(** Every status can be read. *)
#[export] Instance status_reads : Status := fun _ => false.
#[export] Instance status_reads_ok : StatusOk.
Proof. done. Qed.
