(* ===== verification/ProtocolSpec.v ===== *)
(** What the wire protocol promises, and what the memtable does. *)

From Stdlib Require Import ZArith Lia String.
From coqutil Require Import Byte.
From stdpp Require Import base list strings.
From S2P Require Import Prelude Fmt Errors BTreeMap Memtable Protocol World Wal NetworkFacts Instances.
Open Scope string_scope.
Open Scope list_scope.
Open Scope Z_scope.

(** C32: Every command and every response within the payload limit is
    decoded from its encoding, whatever follows it; a client that reads a response
    from a stream gets it and consumes exactly its frame.  An empty payload and a
    missing one have the same encoding and both decode as missing. *)
Theorem codec_roundtrip {R} `{ReadLaws R} c st p rest (r : R) :
  Codec.fits c -> len (default [] p) <= Codec.MAX_PAYLOAD_SIZE ->
  incoming r = Codec.encode_response (Response.mk st p) ++ rest ->
  let resp := Response.mk st (match p with Some [] => None | _ => p end) in
  Codec.decode_command (Codec.encode_command c ++ rest) = Ok c /\
  Codec.decode_response (Codec.encode_response (Response.mk st p) ++ rest) = Ok resp /\
  exists r', Codec.read_response r = (Ok resp, r') /\ incoming r' = rest.
Proof.
  intros Hc Hp Hr. split; [by apply Codec.decode_encode_command|].
  split; [by apply Codec.decode_encode_response|by apply Codec.read_response_frame].
Qed.

Lemma codec_roundtrip_witness :
  exists r', Codec.read_response (mkSocket (Codec.encode_response
      (Response.mk Status.NotFound (Some [Byte.x01])) ++ [Byte.x02]) []) =
    (Ok (Response.mk Status.NotFound (Some [Byte.x01])), r') /\ incoming r' = [Byte.x02].
Proof.
  refine (proj2 (proj2 (codec_roundtrip (Command.Put (bytes_of_string "key") (bytes_of_string "value"))
    Status.NotFound (Some [Byte.x01]) [Byte.x02] (mkSocket (Codec.encode_response
      (Response.mk Status.NotFound (Some [Byte.x01])) ++ [Byte.x02]) []) _ _ eq_refl)));
    vm_compute; discriminate.
Defined.

(** C33: The decoders answer every byte string without a panic: the command decoder
    with a command no larger than the payload limit or with a protocol error,
    the response decoder with a response or an error. *)
Theorem decode_total bs :
  match Codec.decode_command bs with
  | Ok c => len (Codec.command_payload c) <= Codec.MAX_PAYLOAD_SIZE
  | Err (Protocol _) => True
  | _ => False
  end /\ returns (Codec.decode_response bs).
Proof. split; [apply Codec.decode_command_within|apply Codec.decode_response_returns]. Qed.

(** C34: Reading a command from a stream the peer has closed,
    whatever it sent: a complete frame within the limit is decoded and exactly that
    frame consumed; a frame that announces more than the limit is refused by the
    stream reader and by the decoder alike, before any of the payload is looked at;
    anything shorter is an unexpected end. *)
Theorem stream_reader_agrees {R} `{ReadClosed R} (r : R) :
  let bs := incoming r in
  let n := from_be (sub 1 4 bs) in
  match Codec.frame_len bs with
  | Some m => exists r', Codec.read_command r = (Codec.decode_command bs, r') /\ incoming r' = zdrop m bs
  | None =>
      if (Codec.HEADER_SIZE <=? len bs) && (Codec.MAX_PAYLOAD_SIZE <? n)
      then Codec.decode_command bs = Err (too_large n) /\
           exists r', Codec.read_command r = (Err (too_large n), r')
      else exists r', Codec.read_command r = (Err (Io UnexpectedEof), r')
  end.
Proof.
  intros bs n. destruct (Codec.frame_len bs) as [m|] eqn:Hf; [by apply Codec.read_command_frame|].
  destruct (read_command_none r Hf) as [r' E]. fold bs in E. fold n in E.
  destruct (Z.leb_spec Codec.HEADER_SIZE (len bs)) as [Hh|], (Z.ltb_spec Codec.MAX_PAYLOAD_SIZE n) as [Hbig|];
    cbn [andb] in *; eauto. split; [|eauto].
  unfold Codec.decode_command, Codec.HEADER_SIZE in *. rewrite (proj2 (Z.ltb_ge _ _) Hh).
  destruct (index_ok 0 bs) as (b & -> & _); [lia|]. rewrite obind_Ok.
  rewrite Codec.u32_be_at_sub, obind_Ok by lia. fold n. by rewrite (proj2 (Z.ltb_lt _ _) Hbig).
Qed.

Lemma stream_reader_agrees_witness :
  (exists r', Codec.read_command (mkSocket (Codec.encode_command Command.Ping ++ [Byte.x07]) []) =
     (Ok Command.Ping, r') /\ incoming r' = [Byte.x07]) /\
  Codec.decode_command [Byte.x01; Byte.xff; Byte.x00; Byte.x00; Byte.x00] = Err (too_large 4278190080).
Proof.
  split.
  - exact (stream_reader_agrees (mkSocket (Codec.encode_command Command.Ping ++ [Byte.x07]) [])).
  - exact (proj1 (stream_reader_agrees (mkSocket [Byte.x01; Byte.xff; Byte.x00; Byte.x00; Byte.x00] []))).
Defined.

(** ** The memtable *)

Definition mem1 : MemTable.t := (MemTable.put [Byte.x61] [Byte.x01] MemTable.new).2.

(** C36: After a put or a delete a lookup finds the written entry under the written
    key and everything else unchanged; and the size counter, updated by signed
    differences on an unsigned atomic, is the number of key and value bytes held, as
    long as that number fits a [usize], and is the size the writer is told. *)
Theorem memtable_writes_exact k v m :
  MemTable.inv m ->
  let (s1, m1) := MemTable.put k v m in
  let (s2, m2) := MemTable.delete k m in
  (forall k0, MemTable.get k0 m1 = if decide (k0 = k) then Some (Value v) else MemTable.get k0 m) /\
  (forall k0, MemTable.get k0 m2 = if decide (k0 = k) then Some Tombstone else MemTable.get k0 m) /\
  (s1 = MemTable.size m1 /\ (MemTable.total (MemTable.data m1) < 2 ^ 64 ->
     s1 = MemTable.total (MemTable.data m1)) /\ MemTable.inv m1) /\
  (s2 = MemTable.size m2 /\ (MemTable.total (MemTable.data m2) < 2 ^ 64 ->
     s2 = MemTable.total (MemTable.data m2)) /\ MemTable.inv m2).
Proof.
  intros H. pose proof (MemTable.inv_put k v m H) as H1. pose proof (MemTable.inv_delete k m H) as H2.
  pose proof (fun k0 => MemTable.get_put k0 k v m H) as G1.
  pose proof (fun k0 => MemTable.get_delete k0 k m H) as G2.
  destruct (MemTable.put k v m) as [s1 m1] eqn:E1. destruct (MemTable.delete k m) as [s2 m2] eqn:E2.
  assert (Hs1 : s1 = MemTable.size m1) by by injection E1 as <- <-.
  assert (Hs2 : s2 = MemTable.size m2) by by injection E2 as <- <-.
  assert (Hx : forall m', MemTable.inv m' -> MemTable.total (MemTable.data m') < 2 ^ 64 ->
    MemTable.size m' = MemTable.total (MemTable.data m')).
  { intros m' [_ ->] Hlt. apply Z.mod_small. pose proof (MemTable.total_nonneg (MemTable.data m')). lia. }
  simpl in *. subst s1 s2. split_and!; auto.
Qed.

Lemma memtable_writes_exact_witness :
  MemTable.get [Byte.x61] (MemTable.put [Byte.x61] [Byte.x02] mem1).2 = Some (Value [Byte.x02]) /\
  MemTable.get [Byte.x61] (MemTable.delete [Byte.x61] mem1).2 = Some Tombstone.
Proof.
  pose proof (memtable_writes_exact [Byte.x61] [Byte.x02] mem1
    (MemTable.inv_put _ _ _ MemTable.inv_new)) as (H1 & H2 & _).
  split; [exact (H1 [Byte.x61])|exact (H2 [Byte.x61])].
Defined.
