(* ===== verification/WalSpec.v ===== *)
(** What the write-ahead log promises: its entries, recovery from any bytes, and
    appends under every fault schedule. *)

From Stdlib Require Import ZArith Lia String.
From coqutil Require Import Byte.
From stdpp Require Import base gmap list strings.
From S2P Require Import Prelude Fmt Errors World WorldFacts Config Wal WalFacts WalWriterFacts.
From S2P Require Import Engine EngineFacts Crash LogLoss Instances.
Open Scope string_scope.
Open Scope list_scope.
Open Scope Z_scope.

Section Claims.
Context `{HC : Crc32} `{HB : WalEntry.Bincode}.

(** What [deserialize] accepts. *)
Lemma deserialize_checked bs :
  match WalEntry.deserialize bs with
  | Ok e =>
      let n := from_le (sub 12 4 bs) in
      WalEntry.HEADER_SIZE + n <= len bs /\
      from_le (sub 8 4 bs) =
        crc_hash (WalEntry.crc_buffer (from_le (sub 0 8 bs)) n (sub 16 n bs)) /\
      WalEntry.lsn e = from_le (sub 0 8 bs) /\
      WalEntry.bincode_deserialize (sub 16 n bs) = inr e
  | Err (WalCorruption _) => True
  | _ => False
  end.
Proof.
  pose proof (deserialize_cases bs) as D. revert D.
  unfold WalEntry.deserialize, WalEntry.HEADER_SIZE.
  destruct (Z.ltb_spec (len bs) 16); [done|].
  rewrite (slice_ok 0 8), obind_Ok by lia. rewrite (slice_ok 8 12), obind_Ok by lia.
  rewrite (slice_ok 12 16), obind_Ok by lia. cbv zeta.
  change (8 - 0) with 8. change (12 - 8) with 4. change (16 - 12) with 4.
  set (n := from_le (sub 12 4 bs)).
  assert (0 <= n < 2 ^ 32) by (apply (from_le_bound 4); by apply len_sub; lia).
  destruct (Z.ltb_spec (len bs) (16 + n)); [done|].
  rewrite slice_ok, obind_Ok by lia. replace (16 + n - 16) with n by lia.
  rewrite as_u32_small by done.
  destruct (Z.eqb_spec (crc_hash (WalEntry.crc_buffer (from_le (sub 0 8 bs)) n (sub 16 n bs)))
    (from_le (sub 8 4 bs))) as [Hcrc|]; [|done]. cbn [negb].
  destruct (WalEntry.bincode_deserialize (sub 16 n bs)) as [m|e]; [done|].
  destruct (Z.eqb_spec (WalEntry.lsn e) (from_le (sub 0 8 bs))); [|done]. done.
Qed.

(** C22: Recovery reads a log file of any content to its end: it returns what the
    scan of the content finds, with its statistics, leaves every file as it was,
    and fails only if the system does; the loop needs no more iterations than the
    file has bytes.  Verification reports the same statistics. *)
Theorem recover_any_file p f w :
  get_file p w = Some f ->
  match WalRecovery.recover p w with
  | (Ok res, w') => res = scan (content f) /\ same_files w w'
  | (Err er, w') => (exists k, er = Io k) /\ same_files w w' /\ ~ quiet w
  | _ => False
  end /\
  (WalRecovery.verify p w).1 =
    match WalRecovery.recover p w with
    | (Ok res, _) => Ok res.2
    | (Err er, _) => Err er
    | (Panic, _) => Panic
    | (OutOfFuel, _) => OutOfFuel
    end.
Proof.
  intros Hf. pose proof (recover_scan p f w Hf) as Hr. split.
  - unfold wp in Hr. destruct (WalRecovery.recover p w) as [[res|er| |] w']; tauto.
  - unfold WalRecovery.verify, WalRecovery.recover, mbind, ST_bind.
    destruct (WalReader.open p w) as [[r|er| |] w1]; try done.
    unfold scoped. rewrite (verify_loop_recover _ []).
    by destruct (WalRecovery.recover_loop _ [] _ (r, w1)) as [[[es st]|er| |] [r' w']].
Qed.

Context {HCok : Crc32Ok} {HBok : WalEntry.BincodeOk}.

(** C35: An entry that fits the format serializes to its 16-byte
    header and its data, [serialized_size] predicts the length, and deserialization
    gives the entry back whatever bytes follow.  Deserialization of any bytes accepts
    them only if the stored checksum is the CRC-32 of the sequence number, the length
    and the data that follow, the data is complete, and the entry it decodes to
    carries the header's sequence number; on anything else it reports corruption and
    never panics. *)
Theorem wal_entry_codec e any :
  entry_fits e ->
  (exists bs, WalEntry.serialize e = Ok bs /\
     WalEntry.serialized_size e = Ok (len bs) /\
     forall rest, WalEntry.deserialize (bs ++ rest) = Ok e) /\
  match WalEntry.deserialize any with
  | Ok e =>
      let n := from_le (sub 12 4 any) in
      WalEntry.HEADER_SIZE + n <= len any /\
      from_le (sub 8 4 any) =
        crc_hash (WalEntry.crc_buffer (from_le (sub 0 8 any)) n (sub 16 n any)) /\
      WalEntry.lsn e = from_le (sub 0 8 any) /\
      WalEntry.bincode_deserialize (sub 16 n any) = inr e
  | Err (WalCorruption _) => True
  | _ => False
  end.
Proof.
  intros He. split; [|apply deserialize_checked]. exists (enc e).
  split; [by apply enc_serialize|]. split; [|intros; by apply deserialize_enc].
  rewrite enc_len by done. unfold WalEntry.serialized_size.
  destruct (WalEntry.bincode_total e (proj1 He)) as [bs Hb].
  by rewrite (WalEntry.bincode_size_agrees e bs Hb), (WalEntry.bincode_size e bs Hb).
Qed.

(** C21: Recovery of a damaged log.  Of a log cut off anywhere it returns exactly
    the entries that are complete, the longest list of entries whose bytes are in
    the file, counts no corruption, and flags truncation exactly when bytes of an
    incomplete entry are left over.  Of a log in which whole entries are followed by
    bytes that do not decode it returns the entries before them and reports one
    corruption and a truncated log. *)
Theorem recover_damaged_log p f w es :
  quiet w -> get_file p w = Some f -> Forall entry_fits es ->
  (content f `prefix_of` wal_bytes es ->
   exists k w', WalRecovery.recover p w =
      (Ok (take k es, WalRecovery.mkResult (len (take k es)) 0 (last_lsn_of 0 (take k es))
         (negb (len (content f) =? len (wal_bytes (take k es))))), w') /\
    (k <= length es)%nat /\ wal_bytes (take k es) `prefix_of` content f /\
    (forall j, (j <= length es)%nat -> wal_bytes (take j es) `prefix_of` content f -> (j <= k)%nat)) /\
  (forall tail m, content f = wal_bytes es ++ tail -> step_of tail = Err m ->
   exists w', WalRecovery.recover p w =
    (Ok (es, WalRecovery.mkResult (len es) 1 (last_lsn_of 0 es) true), w')).
Proof.
  intros Hq Hf Hes.
  destruct (wp_quiet _ _ _ _ (recover_scan p f w Hf) Hq) as (res & w' & Hr & (-> & _) & _). split.
  - intros Hp. destruct (scan_cut es (content f) Hes Hp) as (k & Hs & Hk & H1 & H2).
    exists k, w'. rewrite Hs in Hr. split_and!; done.
  - intros tail m Hc Ht. exists w'. by rewrite Hr, Hc, (scan_corrupt es tail m).
Qed.

(** C19: Appending to a log writes the entry after everything before it, under
    the next sequence number.  On success the log ends with the entry, and all of
    it is durable unless the strategy is [EveryNEntries(n)] and fewer than [n]
    appends are waiting for a sync.  On an I/O error nothing of the entry, all of
    it, or (when it is larger than the writer's buffer) a part of it is left, and
    what was durable still is. *)
Theorem append_durability p d log wr w now op :
  bw_log p d log (WalWriter.file wr) w -> 0 <= now -> entry_fits (next_entry_of wr now op) ->
  let e := next_entry_of wr now op in
  match WalWriter.append now op (wr, w) with
  | (Ok l, (wr', w')) =>
      l = WalWriter.current_lsn wr /\
      WalWriter.current_lsn wr' = as_u64 (WalWriter.current_lsn wr + 1) /\
      exists d', bw_log p d' (log ++ enc e) (WalWriter.file wr') w' /\
        append_synced d d' (log ++ enc e) wr wr'
  | (Err er, (wr', w')) =>
      (exists k, er = Io k) /\ ~ quiet w /\ append_failed p d log e wr' w'
  | _ => False
  end.
Proof.
  intros Hl Hn He e. pose proof (wp_append p d log wr w now op Hl Hn He) as Hw. unfold wp in Hw.
  destruct (WalWriter.append now op (wr, w)) as [[l|er| |] [wr' w']]; [|naive_solver|done|done].
  destruct Hw as [(-> & (H1 & _ & H3) & _) _]. done.
Qed.

(** C20: What a crash can cost the log.  A writer was opened on any file and did any
    appends, syncs and truncations, each with success.  Of whatever a crash leaves of
    the file, recovery ([scan]) reads a prefix of the entries appended since the log
    was last emptied, short of them by fewer than the strategy's count, and by none
    under [EveryWrite]; or the crash brought back the log that was durable before it
    was emptied, which neither opening nor [truncate] syncs: then none of the entries
    appended since has been synced, and they too are fewer than the count (none under
    [EveryWrite]). *)
Theorem every_n_loss_bound p d es s f c' :
  writer_history p d es s -> get_file p s.2 = Some f -> crash_content f c' ->
  let n := loss_bound (WalWriter.sync_strategy s.1) in
  (c' = d /\ WalWriter.uncommitted_count s.1 = len es /\ len es < n) \/
  exists k, (scan c').1 = take k es /\ len es - n < Z.of_nat k <= len es.
Proof. intros Hh%history_lags Hf Hc. by eapply wal_lags_crash. Qed.

End Claims.

(** ** At concrete inputs *)

Definition entry1 : WalEntry.t :=
  WalEntry.mk 1 (Operation.Put (bytes_of_string "k") (bytes_of_string "v")) 1700000000000.
Definition entry2 : WalEntry.t :=
  WalEntry.mk 2 (Operation.Delete (bytes_of_string "k")) 1700000000001.
Definition log_path : path := ("d", "wal.log").

Definition world_with (c : bytes) : World := mkWorld {[ log_path := NFile (mkFile c c) ]} [].

Lemma entries_fit : Forall entry_fits [entry1; entry2].
Proof. repeat constructor; vm_compute; by split || discriminate. Qed.

Definition log_bytes : bytes := wal_bytes [entry1; entry2].

(** The log cut seven bytes short. *)
Definition cut_log : bytes := ztake (len log_bytes - 7) log_bytes.

Lemma recover_any_file_witness :
  (WalRecovery.verify log_path (world_with [Byte.x00])).1 =
    Ok (WalRecovery.mkResult 0 0 0 true).
Proof. refine (proj2 (recover_any_file log_path (mkFile [Byte.x00] [Byte.x00]) _ _)). reflexivity. Defined.

Lemma wal_entry_codec_witness :
  exists bs, WalEntry.serialize entry1 = Ok bs /\ WalEntry.serialized_size entry1 = Ok (len bs) /\
    forall rest, WalEntry.deserialize (bs ++ rest) = Ok entry1.
Proof. refine (proj1 (wal_entry_codec entry1 [] _)). vm_compute. by split. Defined.

(** A flipped byte in the second entry's data. *)
Definition bad_tail : bytes := ztake 20 (enc entry2) ++ [Byte.xff] ++ zdrop 21 (enc entry2).

Lemma recover_damaged_log_witness :
  (exists k w', WalRecovery.recover log_path (world_with cut_log) =
      (Ok (take k [entry1; entry2],
         WalRecovery.mkResult (len (take k [entry1; entry2])) 0 (last_lsn_of 0 (take k [entry1; entry2]))
         (negb (len cut_log =? len (wal_bytes (take k [entry1; entry2]))))), w') /\
    (k <= 2)%nat /\ wal_bytes (take k [entry1; entry2]) `prefix_of` cut_log /\
    (forall j, (j <= 2)%nat -> wal_bytes (take j [entry1; entry2]) `prefix_of` cut_log -> (j <= k)%nat)) /\
  exists w', WalRecovery.recover log_path (world_with (enc entry1 ++ bad_tail)) =
    (Ok ([entry1], WalRecovery.mkResult 1 1 1 true), w').
Proof.
  split.
  - refine (proj1 (recover_damaged_log log_path (mkFile cut_log cut_log) (world_with cut_log)
      [entry1; entry2] _ _ entries_fit) _); [constructor|reflexivity|apply ztake_prefix].
  - refine (proj2 (recover_damaged_log log_path (mkFile (enc entry1 ++ bad_tail) (enc entry1 ++ bad_tail))
      _ [entry1] _ _ _) bad_tail
      (WalCorruption "CRC mismatch for LSN 2: stored=0x5f25bf3b, computed=0x434013dc") _ _);
      [constructor|reflexivity| |reflexivity|].
    + constructor; [exact (Forall_inv entries_fit)|constructor].
    + vm_compute. reflexivity.
Defined.

(** A writer at the end of a log of [entry1], and one more operation. *)
Definition writer1 (st : WalSyncStrategy) (n : Z) : WalWriter.t :=
  WalWriter.mk (BufWriter.new (File.mk log_path (len (enc entry1)) false)) 2 st n.
Definition op2 : Operation.t := Operation.Delete (bytes_of_string "k").

Lemma append_durability_witness :
  exists wr' w', WalWriter.append 1700000000001 op2 (writer1 EveryWrite 0, world_with (enc entry1)) =
      (Ok 2, (wr', w')) /\
    exists d', bw_log log_path d' (enc entry1 ++ enc entry2) (WalWriter.file wr') w' /\
      append_synced (enc entry1) d' (enc entry1 ++ enc entry2) (writer1 EveryWrite 0) wr'.
Proof.
  assert (H := append_durability log_path (enc entry1) (enc entry1) (writer1 EveryWrite 0)
    (world_with (enc entry1)) 1700000000001 op2).
  destruct (WalWriter.append 1700000000001 op2 (writer1 EveryWrite 0, world_with (enc entry1)))
    as [r [wr' w']] eqn:E.
  assert (Hr : r = Ok 2).
  { change r with (r, (wr', w')).1. rewrite <- E. vm_compute. reflexivity. }
  subst r. exists wr', w'. split; [reflexivity|]. apply H.
  - exists (enc entry1). split; [|apply app_nil_r]. split; [reflexivity|]. split; [reflexivity|by right].
  - vm_compute. discriminate.
  - vm_compute. by split.
Defined.

(** A log with one durable entry is opened, which empties it, and an entry appended
    under [EveryNEntries(2)]; a crash brings the old log back. *)
Definition reopened : WalWriter.t * World :=
  match WalWriter.open log_path (EveryNEntries 2) (world_with (enc entry1)) with
  | (Ok wr, w) => (wr, w)
  | (_, w) => (writer1 EveryWrite 0, w)
  end.

Lemma every_n_loss_bound_witness :
  exists s' e f, writer_history log_path (enc entry1) [e] s' /\ get_file log_path s'.2 = Some f /\
    durable f = enc entry1 /\
    ((durable f = enc entry1 /\ WalWriter.uncommitted_count s'.1 = 1 /\ 1 < 2) \/
     exists k, (scan (durable f)).1 = take k [e] /\ 1 - 2 < Z.of_nat k <= 1).
Proof.
  assert (H0 : writer_history log_path (enc entry1) [] reopened).
  { change (enc entry1) with (default [] (durable <$> get_file log_path (world_with (enc entry1)))).
    rewrite (surjective_pairing reopened).
    apply (wh_open _ (EveryNEntries 2) (world_with (enc entry1))); [vm_compute; reflexivity|].
    vm_compute. reflexivity. }
  destruct (WalWriter.append 1700000000001 op2 reopened) as [r s'] eqn:E.
  assert (Hr : r = Ok 1).
  { change r with (r, s').1. rewrite <- E. vm_compute. reflexivity. }
  subst r. exists s', (next_entry_of reopened.1 1700000000001 op2).
  assert (Hf : exists f, get_file log_path s'.2 = Some f /\ durable f = enc entry1).
  { change s' with (@Ok Z 1, s').2. rewrite <- E. vm_compute. eauto. }
  assert (Hs : WalWriter.sync_strategy s'.1 = EveryNEntries 2).
  { change s' with (@Ok Z 1, s').2. rewrite <- E. vm_compute. reflexivity. }
  destruct Hf as (f & Hf & Hd). exists f.
  assert (Hh : writer_history log_path (enc entry1) [next_entry_of reopened.1 1700000000001 op2] s').
  { apply (wh_append log_path (enc entry1) [] reopened 1700000000001 op2 1 s' H0); [lia|vm_compute; reflexivity|exact E]. }
  split; [exact Hh|]. split; [exact Hf|]. split; [exact Hd|].
  pose proof (every_n_loss_bound log_path _ _ s' f (durable f) Hh Hf (or_introl eq_refl)) as H.
  rewrite Hs in H. exact H.
Defined.
