(* ===== verification/StorageSpec.v ===== *)
(** What the sorted tables and the storage manager promise. *)

From Stdlib Require Import ZArith Lia String.
From coqutil Require Import Byte.
From stdpp Require Import base gmap list strings sorting.
From S2P Require Import Prelude Fmt Errors BTreeMap Memtable World WorldFacts Wal Sstable.
From S2P Require Import SstableFacts SstableReaderFacts Storage StorageFacts OpenAny Instances.
Open Scope string_scope.
Open Scope list_scope.
Open Scope Z_scope.

Section Claims.
Context `{HC : Crc32} {HCok : Crc32Ok} `{HT : IoText} `{HSt : Status} {HStok : StatusOk}.

Lemma file_or_none p w :
  files w !! p <> Some NDir -> exists f, get_file p w = Some f \/ files w !! p = None.
Proof.
  unfold get_file. destruct (files w !! p) as [[f|]|]; intros; [exists f; by left|done|].
  exists (mkFile [] []). by right.
Qed.

(** C24: Building a table writes the reference format: header with the final entry
    count, the entries in key order, the index and the footer with the data's
    checksum, and syncs it; the metadata describes that file.  Only that file is
    touched, also when an I/O error stops the build. *)
Theorem sstable_format p d w :
  files w !! p <> Some NDir -> sst_ok (entries_of d) ->
  match StorageManager.build_sstable p d w with
  | (Ok m, w') =>
      let bs := sst_encode (entries_of d) in
      m = SSTable.mk p (len d) (default [] (BTreeMap.first_key d)) (default [] (BTreeMap.last_key d))
            (len bs) /\
      get_file p w' = Some (mkFile bs bs) /\ frame p w w'
  | (Err e, w') => (exists k, e = Io k) /\ ~ quiet w /\ frame p w w'
  | _ => False
  end.
Proof.
  intros Hp Hok. destruct (file_or_none p w Hp) as [f Hf].
  pose proof (wp_build_sstable p f d w Hf Hok) as H. unfold wp in H.
  destruct (StorageManager.build_sstable p d w) as [[m|e| |] w']; [|naive_solver|done|done].
  destruct H as [(-> & ? & ?) _]. cbv zeta. split; [|done].
  unfold metadata_of, BTreeMap.first_key, BTreeMap.last_key, entries_of. f_equal.
  - unfold len. by rewrite length_map.
  - by destruct d.
  - change (map (fun b => (b.1, to_opt b.2)) d) with ((fun b : bytes * MemTableEntry => (b.1, to_opt b.2)) <$> d).
    rewrite fmap_last. by destruct (last d).
Qed.

(** Iterating over an open table yields its entries in order and then ends:
    as many calls as entries, and one more, are enough. *)
Lemma reader_iterates p es r w :
  quiet w -> sst_ok es -> reader_ok p es r w ->
  exists it s1 s2, SSTableReader_iter (r, w) = (Ok it, s1) /\
    drain (S (length es)) (it, s1.2) = (Ok es, s2).
Proof.
  intros Hq Hok Hr. pose proof Hr as (Hp & _ & _ & Hoff & f & Hf & Hc).
  assert (Hi : wp SSTableReader_iter (r, w) (fun it s => iter_at p es [] w (it, s.2)) (fun _ => True)).
  { unfold SSTableReader_iter. apply wp_bind_gets. cbn [fst].
    unfold SSTableReader.on_file. apply wp_zoom; [done|done|].
    unfold SSTableIterator.new. eapply wp_bind.
    - apply (wp_seek_at p f (fun _ _ => HEADER_SIZE) (File.h_pos (SSTableReader.file r)) w); [done|by split_and!|done].
    - intros ? s Hat. apply wp_bind_gets, wp_ret. cbn [snd]. split; [|done].
      simpl. by rewrite <- surjective_pairing.
    - done. }
  destruct (wp_quiet _ _ _ _ Hi Hq) as (it & s1 & E & Hat & Hq1). exists it, s1.
  destruct (wp_quiet _ _ _ _ (wp_drain p es es f w [] (it, s1.2) (S (length es)) Hok eq_refl Hf Hc Hat
    ltac:(lia)) Hq1) as (res & s2 & E2 & [-> _] & _). by exists s2.
Qed.

(** C23: A table built from sorted entries opens again, and the reader finds under
    every key what was added: the value, a tombstone as [None], and [KeyNotFound]
    for a key that was not added.  The range test never rules out a key the table
    has.  Iterating over the open table yields its entries in order and then ends:
    as many calls as entries, and one more, are enough. *)
Theorem sstable_roundtrip p d w :
  quiet w -> files w !! p <> Some NDir -> sst_ok (entries_of d) ->
  exists m w1 r w2,
    StorageManager.build_sstable p d w = (Ok m, w1) /\ SSTableReader.open p w1 = (Ok r, w2) /\
    SSTableReader.entry_count r = len d /\
    (forall k, exists r' w3,
      SSTableReader.get k (r, w2) =
        (match BTreeMap.get k d with
         | Some (Value v) => Ok (Some v)
         | Some Tombstone => Ok None
         | None => Err KeyNotFound
         end, (r', w3)) /\
      (SSTableReader.might_contain k r = false -> BTreeMap.get k d = None)) /\
    exists it s1 s2, SSTableReader_iter (r, w2) = (Ok it, s1) /\
      drain (S (length d)) (it, s1.2) = (Ok (entries_of d), s2).
Proof.
  intros Hq Hp Hok. destruct (file_or_none p w Hp) as [f Hf].
  destruct (wp_quiet _ _ _ _ (wp_build_sstable p f d w Hf Hok) Hq) as (m & w1 & Hb & (_ & _ & Hg) & Hq1).
  destruct (wp_quiet _ _ _ _ (wp_sst_open p _ _ w1 Hok Hg eq_refl) Hq1) as (r & w2 & Ho & [Hr _] & Hq2).
  assert (El : length (entries_of d) = length d) by (unfold entries_of; apply length_map).
  exists m, w1, r, w2. split_and!; [done|done| | |].
  - destruct Hr as (_ & _ & -> & _). unfold len. by rewrite El.
  - intros k. destruct (wpr_quiet _ _ _ _ (wpr_sst_get p _ k r w2 Hok Hr) Hq2) as (res & [r' w3] & Hrun & (-> & _) & _).
    exists r', w3. rewrite Hrun, get_entries_of. split.
    + by destruct (BTreeMap.get k d) as [[v|]|].
    + intros Hm. destruct (BTreeMap.get k d) as [x|] eqn:E; [|done].
      rewrite (might_contain_sound p _ k (to_opt x) r w2 Hok Hr) in Hm; [done|].
      by rewrite get_entries_of, E.
  - rewrite <- El. by apply (reader_iterates p).
Qed.

(** C25: Opening a table file of any content ends, changes no file,
    and does what the reference decoder says of the content: it finds the index, the
    count and the index offset; or reports a short file, a wrong magic or version or
    an unusable footer; or panics, and that only when the footer's index offset
    points past the footer. *)
Theorem sstable_open_any p f w :
  get_file p w = Some f -> len (content f) < 2 ^ 63 ->
  let '(r, w') := SSTableReader.open p w in
  same_files w w' /\ r <> OutOfFuel /\
  ((x ← r; mret (fields x)) = inspect (content f) \/ (exists k, r = Err (Io k)) /\ ~ quiet w) /\
  (r = Panic -> len (content f) - FOOTER_SIZE <
     from_le (sub (len (content f) - FOOTER_SIZE) 8 (content f)) < 2 ^ 63).
Proof.
  intros Hf Hl. pose proof (wpr_open_any p f w Hf Hl) as H. unfold wpr in H.
  destruct (SSTableReader.open p w) as [r w']. pose proof (inspect_fuel (content f)) as Hfuel.
  destruct H as [[[Hr Hw] _]|([k ->] & Hw & Hn)]; [|split_and!; eauto; done].
  split_and!; [done|by intros ->|by left|]. intros ->. symmetry in Hr.
  by apply inspect_panic in Hr.
Qed.

(** C27: The manager is a list of tables, newest first.  A lookup
    answers from the newest table that has the key, a tombstone meaning absent, and
    leaves files and tables as they are.  Flushing a memtable puts its entries in
    front under a fresh id, in a synced file of the reference format; a failed flush
    leaves the tables as they were and burns the id, and an empty memtable is
    refused. *)
Theorem storage_refines_tables k m st w ts :
  storage_ok st w ts -> StorageManager.next_sstable_id st < 2 ^ 64 - 1 ->
  sst_ok (entries_of (MemTable.data m)) ->
  let id := StorageManager.next_sstable_id st in
  let p := StorageManager.sstable_path st id in
  let es := entries_of (MemTable.data m) in
  match StorageManager.get k (st, w) with
  | (Ok res, (st', w')) => res = lookup_tables k ts /\ storage_ok st' w' ts /\ same_files w w'
  | (Err e, (st', w')) => (exists i, e = Io i) /\ ~ quiet w /\ storage_ok st' w' ts /\ same_files w w'
  | _ => False
  end /\
  match StorageManager.flush m (st, w) with
  | (Ok md, (st', w')) =>
      md = metadata_of p es /\ storage_ok st' w' ((id, es) :: ts) /\
      get_file p w' = Some (mkFile (sst_encode es) (sst_encode es)) /\ frame p w w' /\
      StorageManager.next_sstable_id st' = id + 1
  | (Err (Io _), (st', w')) =>
      ~ quiet w /\ storage_ok st' w' ts /\ frame p w w' /\ StorageManager.next_sstable_id st' = id + 1
  | (Err e, (st', w')) =>
      MemTable.is_empty m = true /\ e = Storage "Cannot flush empty MemTable" /\ st' = st /\ w' = w
  | _ => False
  end.
Proof.
  intros H Hid Hok id p es. split.
  { pose proof (wp_storage_get k st w ts H) as Hw. unfold wp in Hw.
    destruct (StorageManager.get k (st, w)) as [[res|e| |] [st' w']]; naive_solver. }
  destruct (MemTable.is_empty m) eqn:Hemp.
  { unfold StorageManager.flush. by rewrite Hemp. }
  pose proof (wp_storage_flush m st w ts H Hid Hemp Hok) as Hw. unfold wp in Hw.
  destruct (StorageManager.flush m (st, w)) as [[md|e| |] [st' w']]; try done; cbn [fst snd] in Hw.
  - destruct Hw as [(H1 & H2 & H3 & H4 & _ & H6) _]. done.
  - destruct Hw as ([i ->] & (H1 & H2 & _ & H4) & H5). done.
Qed.

(** C26: Opening a data directory finds exactly its tables, newest first, whatever
    order the directory lists them in, and continues the ids after the newest. *)
Theorem storage_open_finds dir w ts :
  disk_ok dir w ts -> no_dirs dir w ->
  StorageManager.newest_first (StorageManager.discover (listing dir w)) = ts.*1 /\
  (forall l, l ≡ₚ listing dir w -> StorageManager.newest_first (StorageManager.discover l) = ts.*1) /\
  match StorageManager.open dir w with
  | (Ok st, w') => storage_ok st w' ts /\ StorageManager.data_dir st = dir /\
      StorageManager.next_sstable_id st = next_id_of ts /\ same_files w w'
  | (Err e, w') => (exists k, e = Io k) /\ ~ quiet w /\ same_files w w'
  | _ => False
  end.
Proof.
  intros Hd Hn. assert (Hp : forall l, l ≡ₚ listing dir w ->
    StorageManager.newest_first (StorageManager.discover l) = ts.*1).
  { intros l Hl. apply newest_first_perm; [apply Hd|].
    rewrite <- (discover_perm dir w ts Hd). unfold StorageManager.discover. by rewrite Hl. }
  split; [by apply Hp|]. split; [exact Hp|].
  pose proof (wp_storage_open dir w ts Hd Hn) as Hw. unfold wp in Hw.
  destruct (StorageManager.open dir w) as [[st|e| |] w']; naive_solver.
Qed.


End Claims.

(** ** At concrete inputs *)

Definition bindings : BTreeMap.t MemTableEntry :=
  [(bytes_of_string "a", Value (bytes_of_string "1")); (bytes_of_string "b", Tombstone)].
Definition table_bytes : bytes := sst_encode (entries_of bindings).
Definition table_path : path := ("data", "sstable_000007.sst").
Definition table_world : World :=
  mkWorld {[ table_path := NFile (mkFile table_bytes table_bytes) ]} [].
Definition no_files : World := mkWorld ∅ [].

(** A computed ordering and computed lengths. *)
Lemma bindings_ok : sst_ok (entries_of bindings).
Proof.
  split; [|split; [repeat constructor|]]; [|vm_compute; reflexivity].
  unfold BTreeMap.wf. repeat constructor.
Qed.

Lemma sstable_format_witness :
  exists m w', StorageManager.build_sstable table_path bindings no_files = (Ok m, w') /\
    get_file table_path w' = Some (mkFile table_bytes table_bytes).
Proof.
  assert (H := sstable_format table_path bindings no_files). unfold table_bytes.
  destruct (StorageManager.build_sstable table_path bindings no_files) as [r w'] eqn:E.
  assert (Hr : exists m, r = Ok m).
  { change r with (r, w').1. rewrite <- E. vm_compute. eauto. }
  destruct Hr as [m ->]. exists m, w'. split; [reflexivity|].
  refine (proj1 (proj2 (H _ bindings_ok))). vm_compute. discriminate.
Defined.

Lemma sstable_roundtrip_witness :
  exists m w1 r w2,
    StorageManager.build_sstable table_path bindings no_files = (Ok m, w1) /\
    SSTableReader.open table_path w1 = (Ok r, w2) /\ SSTableReader.entry_count r = 2 /\
    (forall k, exists r' w3,
      SSTableReader.get k (r, w2) =
        (match BTreeMap.get k bindings with
         | Some (Value v) => Ok (Some v)
         | Some Tombstone => Ok None
         | None => Err KeyNotFound
         end, (r', w3)) /\
      (SSTableReader.might_contain k r = false -> BTreeMap.get k bindings = None)) /\
    exists it s1 s2, SSTableReader_iter (r, w2) = (Ok it, s1) /\
      drain 3 (it, s1.2) = (Ok (entries_of bindings), s2).
Proof.
  refine (sstable_roundtrip table_path bindings no_files _ _ bindings_ok); [constructor|].
  vm_compute. discriminate.
Defined.

(** The directory with that one table. *)
Definition one_table : tables := [(7, entries_of bindings)].

Lemma table_world_file name nd :
  files table_world !! ("data", name) = Some nd ->
  name = "sstable_000007.sst" /\ nd = NFile (mkFile table_bytes table_bytes).
Proof.
  intros E. unfold table_world in E. cbn [files] in E.
  apply lookup_singleton_Some in E as [Hp <-]. by injection Hp as <-.
Qed.

Lemma table_world_no_dirs : no_dirs "data" table_world.
Proof. intros id E. by apply table_world_file in E as [_ [=]]. Qed.

Lemma table_world_disk : disk_ok "data" table_world one_table.
Proof.
  split_and!.
  - constructor; [|constructor]. split; [apply bindings_ok|]. split; [done|].
    exists (mkFile table_bytes table_bytes). split; [|reflexivity]. reflexivity.
  - repeat constructor.
  - intros name f id [-> _]%table_world_file [= <-]. split; [reflexivity|]. apply list_elem_of_here.
Qed.

Definition opened : StorageManager.t :=
  match StorageManager.open "data" table_world with
  | (Ok st, _) => st
  | _ => StorageManager.mk "" [] 0
  end.

Lemma opened_run : StorageManager.open "data" table_world = (Ok opened, table_world).
Proof. vm_compute. reflexivity. Qed.

Lemma opened_ok : storage_ok opened table_world one_table.
Proof.
  apply (wp_ok _ _ _ _ _ _ (wp_storage_open _ _ _ table_world_disk table_world_no_dirs) opened_run).
Qed.

Definition reader7 : SSTableReader.t :=
  match SSTableReader.open table_path table_world with
  | (Ok r, _) => r
  | _ => SSTableReader.mk (File.mk table_path 0 false) [] 0 0
  end.

Lemma reader7_ok : reader_ok table_path (entries_of bindings) reader7 table_world.
Proof.
  assert (Hrun : SSTableReader.open table_path table_world = (Ok reader7, table_world))
    by (vm_compute; reflexivity).
  apply (wp_ok _ _ _ _ _ _ (wp_sst_open table_path _ (mkFile table_bytes table_bytes) table_world
    bindings_ok eq_refl eq_refl) Hrun).
Qed.

(** A footer that points past itself. *)
Definition bad_footer : bytes :=
  header_bytes 0 ++ to_le 8 1000 ++ zeros 8.

Lemma sstable_open_any_witness :
  let '(r, w') := SSTableReader.open table_path
    (mkWorld {[ table_path := NFile (mkFile bad_footer bad_footer) ]} []) in
  r = Panic /\ len bad_footer - FOOTER_SIZE < from_le (sub (len bad_footer - FOOTER_SIZE) 8 bad_footer) < 2 ^ 63.
Proof.
  pose proof (sstable_open_any table_path (mkFile bad_footer bad_footer)
    (mkWorld {[ table_path := NFile (mkFile bad_footer bad_footer) ]} []) eq_refl eq_refl) as H.
  destruct (SSTableReader.open table_path _) as [r w'] eqn:E.
  assert (Hr : r = Panic) by (change r with (r, w').1; rewrite <- E; vm_compute; reflexivity).
  split; [exact Hr|]. apply H. exact Hr.
Defined.

Lemma storage_refines_tables_witness :
  exists md st w, StorageManager.flush (MemTable.mk [(bytes_of_string "c", Value [])] 1)
      (opened, table_world) = (Ok md, (st, w)) /\
    storage_ok st w ((8, [(bytes_of_string "c", Some [])]) :: one_table).
Proof.
  destruct (storage_refines_tables (bytes_of_string "a") (MemTable.mk [(bytes_of_string "c", Value [])] 1)
    opened table_world one_table opened_ok) as [_ H].
  - vm_compute. reflexivity.
  - split; [repeat constructor|split; [repeat constructor|vm_compute; reflexivity]].
  - destruct (StorageManager.flush _ _) as [r [st w]] eqn:E.
    assert (Hr : exists m, r = Ok m).
    { change r with (r, (st, w)).1. rewrite <- E. vm_compute. eauto. }
    destruct Hr as [md ->]. exists md, st, w. split; [reflexivity|]. apply H.
Defined.

Lemma storage_open_finds_witness :
  StorageManager.newest_first (StorageManager.discover (listing "data" table_world)) = [7].
Proof.
  exact (proj1 (storage_open_finds "data" table_world one_table table_world_disk table_world_no_dirs)).
Defined.


