(* ===== verification/EngineSpec.v ===== *)
(** What the engine promises: a persistent map, whatever fails, crashes or runs
    beside it. *)

From Stdlib Require Import ZArith Lia String.
From coqutil Require Import Byte.
From stdpp Require Import base gmap list strings sorting relations.
From S2P Require Import Prelude Fmt Errors BTreeMap Memtable Protocol World WorldFacts Config Wal.
From S2P Require Import WalFacts WalWriterFacts Sstable SstableFacts SstableReaderFacts.
From S2P Require Import Storage StorageFacts Engine EngineFacts Recovery Durability Crash Lifecycle.
From S2P Require Import Instances.
Open Scope string_scope.
Open Scope list_scope.
Open Scope Z_scope.

Section Claims.
Context `{HC : Crc32} {HCok : Crc32Ok} `{HB : WalEntry.Bincode} {HBok : WalEntry.BincodeOk}.
Context `{HT : IoText} `{HSt : Status} {HStok : StatusOk}.

(** Opening when no system call fails. *)
Lemma open_quiet c w ts kv m :
  quiet w -> disk c w ts -> next_id_of ts < 2 ^ 64 - 1 -> recovered_mem (log_content c w) = m ->
  mem_ok m -> (forall k, view m ts k = kv !! k) ->
  exists e w' ts', Engine.open c w = (Ok e, w') /\ engine_ok e w' ts' kv.
Proof.
  intros Hq Hd Hid <- Hm Hv.
  destruct (wp_quiet _ _ _ _ (wp_engine_open c w ts kv Hd Hid Hm Hv) Hq) as (e & w' & Ho & [Hfr _] & _).
  exists e, w'. eexists. split; [done|apply Hfr].
Qed.

(** C2: [put] and [delete] change the engine's map by the one binding, also when
    the write fills the memtable and flushes it.  An I/O error leaves an engine
    that serves either the old or the new map and nothing else, and only a failing
    system call causes one. *)
Theorem writes_refine_map now k v e w ts kv :
  engine_ok e w ts kv -> ids_left e -> 0 <= now ->
  (fits e (Operation.Put k v) ->
   match Engine.put now k v (e, w) with
   | (Ok _, (e', w')) => exists ts', engine_ok e' w' ts' (<[k := v]> kv)
   | (Err er, (e', w')) => (exists i, er = Io i) /\ ~ quiet w /\
       exists ts', engine_ok e' w' ts' kv \/ engine_ok e' w' ts' (<[k := v]> kv)
   | _ => False
   end) /\
  (fits e (Operation.Delete k) ->
   match Engine.delete now k (e, w) with
   | (Ok _, (e', w')) => exists ts', engine_ok e' w' ts' (base.delete k kv)
   | (Err er, (e', w')) => (exists i, er = Io i) /\ ~ quiet w /\
       exists ts', engine_ok e' w' ts' kv \/ engine_ok e' w' ts' (base.delete k kv)
   | _ => False
   end).
Proof.
  intros Hok Hids Hnow. split; intros Hfit.
  - pose proof (wp_write now (Operation.Put k v) e w ts kv Hok Hids Hnow Hfit) as H.
    unfold wp, write in H. destruct (Engine.put now k v (e, w)) as [[[]|er| |] [e' w']]; naive_solver.
  - pose proof (wp_write now (Operation.Delete k) e w ts kv Hok Hids Hnow Hfit) as H.
    unfold wp, write in H. destruct (Engine.delete now k (e, w)) as [[[]|er| |] [e' w']]; naive_solver.
Qed.

(** C3: [get] returns the map's value of the key, and [None] exactly for a key the
    map does not have; it changes no file, and fails only if the system does. *)
Theorem get_refines_map k e w ts kv :
  engine_ok e w ts kv ->
  match Engine.get k (e, w) with
  | (Ok res, (e', w')) => res = kv !! k /\ engine_ok e' w' ts kv /\ same_files w w'
  | (Err er, (e', w')) => (exists i, er = Io i) /\ ~ quiet w /\ engine_ok e' w' ts kv /\ same_files w w'
  | _ => False
  end.
Proof.
  intros Hok. pose proof (wp_get e w ts kv k Hok) as H. unfold wp in H.
  destruct (Engine.get k (e, w)) as [[res|er| |] [e' w']]; naive_solver.
Qed.

(** C6: [flush] empties the memtable into a table and leaves the map as it was,
    also when it fails half way. *)
Theorem flush_refines_map e w ts kv :
  engine_ok e w ts kv -> ids_left e ->
  match Engine.flush (e, w) with
  | (Ok _, (e', w')) => exists ts', engine_ok e' w' ts' kv /\ Engine.memtable_entry_count e' = 0
  | (Err er, (e', w')) => (exists i, er = Io i) /\ ~ quiet w /\ exists ts', engine_ok e' w' ts' kv
  | _ => False
  end.
Proof.
  intros Hok Hids.
  assert (H := wp_flush_internal e w ts kv Hok Hids).
  apply (wp_locked Engine.write_poisoned Engine.poison_write "Write lock poisoned: ") in H; [|apply Hok].
  unfold wp in H. change (Engine.locked _ _ _ _ _) with (Engine.flush (e, w)) in H.
  destruct (Engine.flush (e, w)) as [[[]|er| |] [e' w']]; [|naive_solver|done|done].
  destruct H as [(ts' & H & _ & Hemp & _) _]. exists ts'. split; [done|]. cbn [fst] in Hemp.
  apply MemTable.is_empty_data in Hemp. unfold Engine.memtable_entry_count, MemTable.entry_count.
  by rewrite Hemp.
Qed.

(** C4: Opening an engine over table files and a log of any content serves the
    tables with the log's recoverable entries replayed over them in order, with
    nothing left to replay: the log is empty and its entries are in a table.  A start
    that fails, at any system call, leaves the log and every table as they were: it
    has changed at most the file of the next table, which did not exist before. *)
Theorem open_recovers c w ts kv :
  disk c w ts -> next_id_of ts < 2 ^ 64 - 1 -> mem_ok (recovered_mem (log_content c w)) ->
  (forall k, view (recovered_mem (log_content c w)) ts k = kv !! k) ->
  match Engine.open c w with
  | (Ok e, w') => exists ts', engine_ok e w' ts' kv /\ Engine.memtable e = MemTable.new /\
      log_content c w' = []
  | (Err er, w') => (exists i, er = Io i) /\ ~ quiet w /\ files w !! next_table c ts = None /\
      frame (next_table c ts) w w'
  | _ => False
  end.
Proof.
  intros Hd Hid Hm Hv. pose proof (wp_engine_open c w ts kv Hd Hid Hm Hv) as H. unfold wp in H.
  destruct (next_id_bounds _ _ _ (disk_tables _ _ _ Hd)) as [? Hb].
  pose proof (table_absent c w ts _ Hd Hb ltac:(lia)) as Habs.
  destruct (Engine.open c w) as [[e|er| |] w']; [|by destruct H as (? & ? & ?)|done|done].
  destruct H as [[Hfr _] _]. exists (tables_with (recovered_mem (log_content c w)) ts).
  split_and!; [apply Hfr|apply Hfr|]. destruct Hfr as [_ _ _ (c' & (_ & Hf & _) & Hlog) _ _ _ _].
  apply app_eq_nil in Hlog as [-> _]. unfold log_content. by rewrite Hf.
Qed.

(** C1: Under [EveryWrite] every acknowledged write survives a crash.  After any
    sequence of acknowledged puts, deletes, reads and flushes from a freshly opened
    directory, and a crash that keeps any part of the unsynced appends, the engine
    opens again and every key reads as the writes left it. *)
Theorem acknowledged_survive c w0 e0 w1 ops s w2 :
  files w0 = ∅ -> Config.wal_sync_strategy c = EveryWrite -> Engine.open c w0 = (Ok e0, w1) ->
  acked (e0, w1) ops s -> crash s.2 w2 -> quiet w2 -> ids_left s.1 ->
  exists e3 w3, Engine.open c w2 = (Ok e3, w3) /\
    forall k, exists s', Engine.get k (e3, w3) = (Ok (kv_run ops ∅ !! k), s').
Proof.
  intros Hw Hstr Hopen Hack Hc Hq Hids.
  destruct (open_empty_safe c w0 e0 w1 Hw Hstr Hopen) as [Hsafe Hcfg].
  destruct (acked_safe _ _ _ _ Hack Hsafe) as [Hs Hcs]. cbn [fst] in Hcs.
  destruct (safe_reopen s w2 _ Hs Hc Hq Hids) as (e3 & w3 & Hrun & Hs3 & _ & Hq3).
  exists e3, w3. split; [by rewrite <- Hcfg, <- Hcs|]. intros k. by apply safe_read.
Qed.


(** C14: An engine that goes away comes back as it was: closing it
    moves the memtable into a table and leaves an empty log, dropping it without
    closing writes the log's buffer out, and either way opening the directory again
    gives the same map. *)
Theorem reopen_same_map e w ts kv d es :
  logged e w ts kv d es -> StorageManager.next_sstable_id (Engine.storage e) < 2 ^ 64 - 2 ->
  quiet w ->
  (exists w' e' w'' ts', Engine.close e w = (Ok tt, w') /\ log_content (Engine.config e) w' = [] /\
     Engine.open (Engine.config e) w' = (Ok e', w'') /\ engine_ok e' w'' ts' kv) /\
  (exists e' w' ts', Engine.open (Engine.config e) (Engine.drop e w) = (Ok e', w') /\
     engine_ok e' w' ts' kv).
Proof.
  intros Hlg Hid Hq. assert (Hids : ids_left e) by (unfold ids_left; lia). split.
  - destruct (close_disk e w ts kv d es Hlg Hids Hq) as (w' & ts' & Hclose & Hq' & Hd & Hlog & Hv & Hn).
    destruct (open_quiet (Engine.config e) w' ts' kv MemTable.new Hq' Hd) as (e' & w'' & ts'' & Ho & Hok);
      [lia|by rewrite Hlog|apply mem_new_ok|apply Hv|].
    exists w', e', w'', ts''. done.
  - destruct (drop_disk e w ts kv d es Hlg Hq) as (Hq' & Hd & Hlog).
    pose proof (lg_ok _ _ _ _ _ _ Hlg) as Hok.
    apply (open_quiet _ _ ts kv (Engine.memtable e) Hq' Hd); [by eapply next_id_left| |apply Hok..].
    rewrite Hlog, (lg_mem _ _ _ _ _ _ Hlg). unfold recovered_mem.
    by rewrite (scan_all es (lg_fits _ _ _ _ _ _ Hlg)).
Qed.

End Claims.

(** ** At concrete inputs *)

Definition demo_config (st : WalSyncStrategy) : Config.t :=
  ConfigBuilder.build (ConfigBuilder.set_memtable_size_limit 40
    (ConfigBuilder.set_wal_sync_strategy st (ConfigBuilder.set_data_dir "db" ConfigBuilder.builder))).

Definition key_k : bytes := bytes_of_string "k".
Definition put_k (v : string) : Operation.t := Operation.Put key_k (bytes_of_string v).

(** The state after some calls, from an empty directory. *)
Definition no_engine : Engine.t :=
  Engine.mk (demo_config EveryWrite) "" (WalWriter.mk (BufWriter.new (File.mk ("", "") 0 false)) 0 EveryWrite 0)
    MemTable.new (StorageManager.mk "" [] 0) false false.
Definition started (c : Config.t) (w : World) : Engine.t * World :=
  match Engine.open c w with (Ok e, w') => (e, w') | (_, w') => (no_engine, w') end.
Definition after {A} (m : ST (Engine.t * World) A) (s : Engine.t * World) : Engine.t * World := (m s).2.

Definition demo : Engine.t * World := started (demo_config EveryWrite) (mkWorld ∅ []).

Lemma demo_open : Engine.open (demo_config EveryWrite) (mkWorld ∅ []) = (Ok demo.1, demo.2).
Proof. vm_compute. reflexivity. Qed.

Lemma demo_safe : safe demo ∅.
Proof.
  rewrite (surjective_pairing demo).
  exact (proj1 (open_empty_safe (demo_config EveryWrite) (mkWorld ∅ []) demo.1 demo.2 eq_refl eq_refl demo_open)).
Qed.

Lemma demo_logged : logged demo.1 demo.2 [] ∅ [] [].
Proof.
  destruct (empty_disk (demo_config EveryWrite) (mkWorld ∅ []) eq_refl) as [Hd Ht].
  pose proof (wp_engine_open (demo_config EveryWrite) (mkWorld ∅ []) [] ∅ Hd
    ltac:(vm_compute; reflexivity) mem_new_ok ltac:(reflexivity)) as H. cbv zeta in H.
  destruct (wp_ok _ _ _ _ _ _ H demo_open) as [Hfr Ht'].
  exact (fresh_logged _ _ _ _ _ _ Hfr (Ht' Ht)).
Qed.

Lemma demo_ok : engine_ok demo.1 demo.2 [] ∅.
Proof. apply demo_logged. Qed.

Lemma demo_fits : fits demo.1 (put_k "old").
Proof. split; vm_compute; reflexivity. Qed.

Lemma writes_refine_map_witness :
  exists e' w' ts', Engine.put 5 key_k (bytes_of_string "old") demo = (Ok tt, (e', w')) /\
    engine_ok e' w' ts' {[ key_k := bytes_of_string "old" ]}.
Proof.
  pose proof (writes_refine_map 5 key_k (bytes_of_string "old") demo.1 demo.2 [] ∅ demo_ok) as H.
  rewrite <- surjective_pairing in H.
  destruct (Engine.put 5 key_k (bytes_of_string "old") demo) as [r [e' w']] eqn:E.
  assert (Hr : r = Ok tt).
  { change r with (r, (e', w')).1. rewrite <- E. vm_compute. reflexivity. }
  subst r. destruct (proj1 (H ltac:(vm_compute; reflexivity) ltac:(lia)) demo_fits) as [ts' Hok].
  exists e', w', ts'. split; [reflexivity|exact Hok].
Defined.

Lemma get_refines_map_witness : exists s, Engine.get key_k demo = (Ok None, s).
Proof.
  pose proof (get_refines_map key_k demo.1 demo.2 [] ∅ demo_ok) as H. rewrite <- surjective_pairing in H.
  destruct (Engine.get key_k demo) as [[r|e| |] [e' w']];
    [|destruct H as (_ & H & _); exfalso; apply H; constructor|destruct H..].
  destruct H as [-> _]. exists (e', w'). reflexivity.
Defined.

(** The engine with one write in its memtable. *)
Definition demo_put : Engine.t * World := after (write 5 (put_k "old")) demo.

Lemma demo_put_ok : exists ts, engine_ok demo_put.1 demo_put.2 ts (kv_apply (put_k "old") ∅).
Proof.
  assert (Hrun : write 5 (put_k "old") (demo.1, demo.2) = (Ok tt, demo_put)) by (vm_compute; reflexivity).
  destruct (wp_ok _ _ _ _ _ _ (wp_write 5 (put_k "old") demo.1 demo.2 [] ∅ demo_ok
    ltac:(vm_compute; reflexivity) ltac:(lia) demo_fits) Hrun) as (ts' & H & _). by exists ts'.
Qed.

Lemma flush_refines_map_witness : Engine.memtable_entry_count demo_put.1 = 1 /\
  exists e' w' ts', Engine.flush demo_put = (Ok tt, (e', w')) /\
    engine_ok e' w' ts' (kv_apply (put_k "old") ∅) /\ Engine.memtable_entry_count e' = 0.
Proof.
  split; [vm_compute; reflexivity|]. destruct demo_put_ok as [ts Hok].
  pose proof (flush_refines_map demo_put.1 demo_put.2 ts _ Hok ltac:(vm_compute; reflexivity)) as H.
  rewrite <- surjective_pairing in H.
  destruct (Engine.flush demo_put) as [r [e' w']] eqn:E.
  assert (Hr : r = Ok tt).
  { change r with (r, (e', w')).1. rewrite <- E. vm_compute. reflexivity. }
  subst r. destruct H as [ts' H]. exists e', w', ts'. split; [reflexivity|exact H].
Defined.

(** A directory with a log of one write and no table. *)
Definition logged_entry : WalEntry.t := WalEntry.mk 1 (put_k "old") 5.
Definition log_world : World :=
  mkWorld {[ ("db", "wal.log") := NFile (mkFile (enc logged_entry) (enc logged_entry)) ]} [].

Lemma log_world_disk : disk (demo_config EveryWrite) log_world [].
Proof.
  assert (Hl : forall p nd, files log_world !! p = Some nd ->
    p = ("db", "wal.log") /\ nd = NFile (mkFile (enc logged_entry) (enc logged_entry))).
  { intros p nd E. unfold log_world in E. cbn [files] in E. by apply lookup_singleton_Some in E as [<- <-]. }
  constructor.
  - split; [constructor|]. split; [constructor|]. intros name f id E. by apply Hl in E as [[=] _].
  - intros id E. by apply Hl in E as [[=] _].
  - intros E. by apply Hl in E as [_ [=]].
Qed.

Lemma log_world_mem :
  recovered_mem (log_content (demo_config EveryWrite) log_world) = mem_apply (put_k "old") MemTable.new.
Proof. vm_compute. reflexivity. Qed.

Lemma open_recovers_witness :
  exists e w' ts', Engine.open (demo_config EveryWrite) log_world = (Ok e, w') /\
    engine_ok e w' ts' {[ key_k := bytes_of_string "old" ]}.
Proof.
  pose proof (open_recovers (demo_config EveryWrite) log_world [] {[ key_k := bytes_of_string "old" ]}
    log_world_disk) as H.
  rewrite log_world_mem in H.
  specialize (H ltac:(vm_compute; reflexivity) (mem_apply_ok demo.1 (put_k "old") mem_new_ok demo_fits)
    (view_apply (put_k "old") MemTable.new [] ∅ MemTable.inv_new (fun _ => eq_refl))).
  destruct (Engine.open (demo_config EveryWrite) log_world) as [[e|er| |] w'];
    [|exfalso; apply (proj1 (proj2 H)); constructor|destruct H..].
  destruct H as [ts' [H _]]. exists e, w', ts'. split; [reflexivity|exact H].
Defined.

(** Two acknowledged writes and a flush. *)
Definition demo2 : Engine.t * World :=
  after (write 6 (Operation.Delete key_k)) (after Engine.flush (after (write 5 (put_k "old")) demo)).

Lemma demo2_acked : acked demo [put_k "old"; Operation.Delete key_k] demo2.
Proof.
  apply (acked_write _ [put_k "old"] (after Engine.flush (after (write 5 (put_k "old")) demo)) 6);
    [|vm_compute; reflexivity|lia|split; vm_compute; reflexivity|vm_compute; reflexivity].
  apply (acked_flush _ _ (after (write 5 (put_k "old")) demo)); [|vm_compute; reflexivity..].
  apply (acked_write _ [] demo 5);
    [constructor|vm_compute; reflexivity|lia|exact demo_fits|vm_compute; reflexivity].
Qed.

Lemma acknowledged_survive_witness :
  exists e3 w3, Engine.open (demo_config EveryWrite) (crash_min demo2.2) = (Ok e3, w3) /\
    forall k, exists s', Engine.get k (e3, w3) =
      (Ok (kv_run [put_k "old"; Operation.Delete key_k] ∅ !! k), s').
Proof.
  refine (acknowledged_survive (demo_config EveryWrite) (mkWorld ∅ []) demo.1 demo.2
    [put_k "old"; Operation.Delete key_k] demo2 (crash_min demo2.2) eq_refl eq_refl demo_open _
    (crash_min_crash _) _ _).
  - rewrite <- surjective_pairing. exact demo2_acked.
  - constructor.
  - vm_compute. reflexivity.
Defined.




Lemma reopen_same_map_witness :
  exists w' e' w'' ts', Engine.close demo.1 demo.2 = (Ok tt, w') /\
    log_content (demo_config EveryWrite) w' = [] /\
    Engine.open (demo_config EveryWrite) w' = (Ok e', w'') /\ engine_ok e' w'' ts' ∅.
Proof.
  refine (proj1 (reopen_same_map demo.1 demo.2 [] ∅ [] [] demo_logged _ _)); [vm_compute; reflexivity|constructor].
Defined.
