(* ===== verification/WorkersSpec.v ===== *)
(** What threads inside one engine observe: atomic calls on one map. *)

From Stdlib Require Import ZArith Lia String.
From stdpp Require Import base gmap list strings.
From S2P Require Import Prelude Errors BTreeMap Memtable Protocol World WorldFacts Config Wal.
From S2P Require Import WalFacts WalWriterFacts Sstable SstableFacts SstableReaderFacts Storage.
From S2P Require Import StorageFacts Engine EngineFacts Traces Register Workers WorkersFacts.
From S2P Require Import Recovery Durability Crash LogLoss CrashWorkers Loss Rollback Instances EngineSpec.
Open Scope string_scope.
Open Scope list_scope.
Open Scope Z_scope.

Section Claims.
Context `{HC : Crc32} {HCok : Crc32Ok} `{HB : WalEntry.Bincode} {HBok : WalEntry.BincodeOk}.
Context `{HT : IoText} `{HSt : Status} {HStok : StatusOk}.

(** C7: Threads that call [execute] and [flush] on one engine
    at the same time, at any interleaving of their actions under its locks, see an
    atomic map: every history of calls and returns is one in which each call takes
    effect at a single instant between its start and its return, a failed call at
    most once, and only a failing system call makes a call fail.  At every moment
    the engine stands for the map those effects built.  (The clock an append reads is
    not before 1970, and sizes and table ids fit their fields: [Workers.room].) *)
Theorem workers_linearizable e w ts kv tr s :
  engine_ok e w ts kv -> run (Workers.step Workers.room) (resting e w) tr s ->
  exists a ts', run (Atomic.step (~ quiet w)) (Atomic.mk kv ∅) tr a /\
    engine_ok (Workers.eng (Workers.sh s)) (Workers.wld (Workers.sh s)) ts' (Atomic.map a).
Proof. apply workers_atomic. Qed.

(** C8: Durable linearizability.  Under [EveryWrite], and as long as no system call has
    failed, threads that call [execute] and [flush] on one engine can be stopped by a crash or a kill
    anywhere: between any two of their actions, a flush half done or a write in the
    log and not yet in the memtable included; at a system call inside a truncation or
    a read that does not come back; in the middle of building a table, whose unfinished
    file is then removed (the next start would refuse it: [files_block_open]); and in
    the middle of an append, there by a crash (for a kill see [writes_undone]).  The
    next engine opens, and serves the map of an atomic history of the calls and returns
    seen before.  Every write that returned is there, every value a read returned is
    accounted for, and a write cut off is there as a whole or not at all; the next
    engine can be stopped again. *)
Theorem crash_linearizable e w kv tr s w2 :
  safe (e, w) kv -> quiet w -> run (Workers.step Workers.room) (resting e w) tr s ->
  halts s w2 -> quiet w2 -> ids_left (Workers.eng (Workers.sh s)) ->
  exists a e3 w3, run (Atomic.step False) (Atomic.mk kv ∅) tr a /\
    Engine.open (Engine.config e) w2 = (Ok e3, w3) /\ safe (e3, w3) (Atomic.map a) /\
    Engine.config e3 = Engine.config e /\ quiet w3.
Proof.
  intros Hs Hq Hrun Hh Hq2 Hids. destruct (halt_atomic e w kv tr s w2 Hs Hq Hrun Hh Hids) as (a & Ha & Hr).
  destruct (recovers_open _ _ _ (proj1 Hs) Hr Hq2) as (e3 & w3 & ?). by exists a, e3, w3.
Qed.

(** C18: What [EveryNEntries(n)] promises to threads.  An engine is opened on
    a directory and threads call [execute] on it; no system call has failed and no
    flush has begun by the time it is stopped, by a crash or a kill, between any two actions.  The next engine opens
    and is back at an earlier moment of that run: the log has grown by fewer than [n]
    entries since (by none under [EveryWrite]), and every key reads as an atomic
    history of the calls and returns up to that moment left it.  So what survives is
    never a mixture of earlier and later writes.  What a crash leaves can be opened
    and stopped like this again. *)
Theorem rollback_linearizable c w0 kv e w tr s w2 :
  loss_bound (Config.wal_sync_strategy c) < 2 ^ 64 ->
  recovers c w0 kv -> quiet w0 -> Engine.open c w0 = (Ok e, w) -> ids_left e ->
  run (Workers.step Workers.room) (resting e w) tr s -> next_id (Workers.eng (Workers.sh s)) = next_id e ->
  halted (Workers.wld (Workers.sh s)) w2 -> quiet w2 ->
  exists tr1 s1 tr2 a e3 w3,
    tr = tr1 ++ tr2 /\ run (Workers.step Workers.room) (resting e w) tr1 s1 /\ run (Workers.step Workers.room) s1 tr2 s /\
    as_u64 (WalWriter.current_lsn (Engine.wal (Workers.eng (Workers.sh s))) -
            WalWriter.current_lsn (Engine.wal (Workers.eng (Workers.sh s1)))) <
      loss_bound (Config.wal_sync_strategy c) /\
    run (Atomic.step False) (Atomic.mk kv ∅) tr1 a /\ Engine.open c w2 = (Ok e3, w3) /\
    (forall k, exists s', Engine.get k (e3, w3) = (Ok (Atomic.map a !! k), s')) /\
    (crash (Workers.wld (Workers.sh s)) w2 -> recovers c w2 (Atomic.map a)).
Proof.
  intros Hb Hr Hq0 Ho Hids Hrun Hn Hh Hq2.
  destruct (rollback c w0 kv e w tr s w2 Hb Hr Hq0 Ho Hrun Hn Hids Hh Hq2)
    as (tr1 & s1 & tr2 & a & e3 & w3 & ts3 & H1 & H2 & H3 & H4 & H5 & H6 & Hq3 & Hok & Hrec).
  exists tr1, s1, tr2, a, e3, w3. split_and!; try done. intros k.
  destruct (wp_quiet _ _ _ _ (wp_get e3 w3 ts3 _ k Hok) Hq3) as (res & s' & Hg & (-> & _) & _). eauto.
Qed.
End Claims.

(** ** A schedule, and the run it gives *)

#[export] Instance room_decision now p s : Decision (Workers.room now p s).
Proof. destruct p; simpl; unfold fits, ids_left; apply _. Defined.

Inductive move := DoCall (i : nat) (c : call) | DoAct (now : Z) (i : nat) | DoRet (i : nat).

Definition drive_one (m : move) (s : Workers.t) : option (option label * Workers.t) :=
  let sh := Workers.sh s in let T := Workers.threads s in
  match m with
  | DoCall i c =>
      match T !! i with
      | None => Some (Some (Call i c), Workers.mk sh (<[i := Workers.Ready c]> T))
      | _ => None
      end
  | DoAct now i =>
      p ← T !! i;
      if decide (Workers.room now p sh) then
        '(p', sh') ← Workers.act now i p sh; Some (None, Workers.mk sh' (<[i := p']> T))
      else None
  | DoRet i =>
      match T !! i with
      | Some (Workers.Done r) => Some (Some (Ret i r), Workers.mk sh (base.delete i T))
      | _ => None
      end
  end.

Fixpoint drive (ms : list move) (s : Workers.t) : option (list label * Workers.t) :=
  match ms with
  | [] => Some ([], s)
  | m :: ms' =>
      '(l, s1) ← drive_one m s;
      '(tr, s2) ← drive ms' s1;
      Some (option_list l ++ tr, s2)
  end.

Lemma drive_one_step m s l s' : drive_one m s = Some (l, s') -> Workers.step Workers.room s l s'.
Proof.
  destruct s as [sh T], m as [i c|now i|i]; simpl.
  - destruct (T !! i) eqn:E; [done|]. intros [= <- <-]. by constructor.
  - destruct (T !! i) as [p|] eqn:E; [|done]. simpl. case_decide; [|done].
    destruct (Workers.act now i p sh) as [[p' sh']|] eqn:Ea; [|done]. intros [= <- <-]. by econstructor.
  - destruct (T !! i) as [[]|] eqn:E; try done. intros [= <- <-]. by constructor.
Qed.

Lemma drive_run ms : forall s tr s', drive ms s = Some (tr, s') -> run (Workers.step Workers.room) s tr s'.
Proof.
  induction ms as [|m ms IH]; intros s tr s'; simpl; [intros [= <- <-]; constructor|].
  destruct (drive_one m s) as [[l s1]|] eqn:E; [|done]. simpl.
  destruct (drive ms s1) as [[tr' s2]|] eqn:E'; [|done]. intros [= <- <-].
  eapply run_trans; [apply run_one; by eapply drive_one_step|by apply IH].
Qed.

(** Thread 1 misses in the memtable; thread 0 puts a value that fills it and
    flushes; thread 1 then finds the value in the new table. *)
Definition big : bytes := replicate 40 Byte.x61.
Definition race : list move :=
  [DoCall 0 (Exec (Command.Put key_k big)); DoCall 1 (Exec (Command.Get key_k)); DoAct 0 1] ++
  replicate 9 (DoAct 7 0) ++ [DoAct 0 1; DoRet 1; DoRet 0].

Definition race_run : option (list label * Workers.t) := drive race (resting demo.1 demo.2).
Definition race_trace : list label :=
  [Call 0 (Exec (Command.Put key_k big)); Call 1 (Exec (Command.Get key_k));
   Ret 1 (Ok (Some big)); Ret 0 (Ok None)].

Lemma race_ends : fst <$> race_run = Some race_trace.
Proof. vm_compute. reflexivity. Qed.

Lemma workers_linearizable_witness :
  exists a, run (Atomic.step (~ quiet demo.2)) (Atomic.mk ∅ ∅) race_trace a.
Proof.
  pose proof race_ends as E. unfold race_run in E.
  destruct (drive race (resting demo.1 demo.2)) as [[tr s]|] eqn:Hd; [|discriminate E].
  injection E as ->. destruct (workers_linearizable demo.1 demo.2 [] ∅ race_trace s demo_ok
    (drive_run _ _ _ _ Hd)) as (a & _ & Ha & _).
  exists a. exact Ha.
Defined.

(** Thread 1 has read the old value and thread 0 is about to append its put; five
    bytes of the entry reach the log, and the machine stops. *)
Definition cut_off : list move :=
  [DoCall 0 (Exec (Command.Put key_k big)); DoCall 1 (Exec (Command.Get key_k));
   DoAct 7 0; DoAct 7 1; DoAct 7 1; DoRet 1].

Definition cut_trace : list label :=
  [Call 0 (Exec (Command.Put key_k big)); Call 1 (Exec (Command.Get key_k)); Ret 1 (Ok None)].

Definition cut_state : Workers.t := (default ([], resting demo.1 demo.2) (drive cut_off (resting demo.1 demo.2))).2.

Lemma cut_run : drive cut_off (resting demo.1 demo.2) = Some (cut_trace, cut_state).
Proof. vm_compute. reflexivity. Qed.

Definition torn : Workers.pc * Workers.shared :=
  default (Workers.Build, Workers.sh cut_state)
    (Workers.act 7 0 (Workers.Append (Operation.Put key_k big))
      (with_faults [Some (mkFault OtherKind 5)] (Workers.sh cut_state))).

Definition torn_world : World := crash_all (Workers.wld torn.2).

Lemma crash_linearizable_witness :
  exists a e3 w3, run (Atomic.step False) (Atomic.mk ∅ ∅) cut_trace a /\
    Engine.open (demo_config EveryWrite) torn_world = (Ok e3, w3) /\ safe (e3, w3) (Atomic.map a) /\
    len (log_content (demo_config EveryWrite) torn_world) = 5 /\ (Engine.get key_k (e3, w3)).1 = Ok None.
Proof.
  destruct (crash_linearizable demo.1 demo.2 ∅ cut_trace cut_state torn_world)
    as (a & e3 & w3 & H1 & H2 & H3 & _).
  - rewrite <- surjective_pairing. exact demo_safe.
  - vm_compute. constructor.
  - exact (drive_run _ _ _ _ cut_run).
  - apply (h_inside cut_state 7 0 (Workers.Append (Operation.Put key_k big)) [Some (mkFault OtherKind 5)] torn.1 torn.2);
      [vm_compute; reflexivity|discriminate|split; [lia|split; vm_compute; reflexivity]|vm_compute; reflexivity|vm_compute; reflexivity|].
    apply crash_all_crash.
  - vm_compute. constructor.
  - vm_compute. reflexivity.
  - exists a, e3, w3. split; [exact H1|]. split; [exact H2|]. split; [exact H3|].
    split; [vm_compute; reflexivity|].
    change (Engine.config demo.1) with (demo_config EveryWrite) in H2.
    assert (E : ('(e, w) ← match Engine.open (demo_config EveryWrite) torn_world with
        (Ok e, w) => Some (e, w) | _ => None end; Some (Engine.get key_k (e, w)).1) = Some (Ok None))
      by (vm_compute; reflexivity).
    rewrite H2 in E. injection E as E. exact E.
Defined.

(** Under [EveryNEntries(2)] three puts return; the second was synced with the first,
    the third is lost in a crash, and the engine is back after the second. *)
Definition demo_two : Engine.t * World := started (demo_config (EveryNEntries 2)) (mkWorld ∅ []).

Definition one_put (i : nat) (v : string) : list move :=
  [DoCall i (Exec (Command.Put key_k (bytes_of_string v)))] ++ replicate 5 (DoAct 7 i) ++ [DoRet i].

Definition three_puts : option (list label * Workers.t) :=
  drive (one_put 0 "a" ++ one_put 1 "b" ++ one_put 0 "c") (resting demo_two.1 demo_two.2).

Definition put_history (i : nat) (v : string) : list label :=
  [Call i (Exec (Command.Put key_k (bytes_of_string v))); Ret i (Ok None)].
Definition three_history : list label := put_history 0 "a" ++ put_history 1 "b" ++ put_history 0 "c".

Definition three_state : Workers.t := (default ([], resting demo_two.1 demo_two.2) three_puts).2.

Lemma three_run : three_puts = Some (three_history, three_state).
Proof. vm_compute. reflexivity. Qed.

Lemma rollback_linearizable_witness :
  exists tr1 tr2 a, three_history = tr1 ++ tr2 /\ run (Atomic.step False) (Atomic.mk ∅ ∅) tr1 a /\
    Atomic.map a !! key_k = Some (bytes_of_string "b").
Proof.
  destruct (rollback_linearizable (demo_config (EveryNEntries 2)) (mkWorld ∅ []) ∅ demo_two.1 demo_two.2
    three_history three_state (crash_min (Workers.wld (Workers.sh three_state))))
    as (tr1 & s1 & tr2 & a & e3 & w3 & H1 & _ & _ & _ & H2 & H3 & H4 & _).
  - vm_compute. reflexivity.
  - apply empty_recovers. reflexivity.
  - constructor.
  - vm_compute. reflexivity.
  - vm_compute. reflexivity.
  - exact (drive_run _ _ _ _ three_run).
  - vm_compute. reflexivity.
  - left. apply crash_min_crash.
  - constructor.
  - exists tr1, tr2, a. split; [exact H1|]. split; [exact H2|]. destruct (H4 key_k) as [s' E].
    assert (Eg : ('(e, w) ← match Engine.open (demo_config (EveryNEntries 2))
          (crash_min (Workers.wld (Workers.sh three_state))) with
        (Ok e, w) => Some (e, w) | _ => None end; Some (Engine.get key_k (e, w)).1) =
      Some (Ok (Some (bytes_of_string "b")))) by (vm_compute; reflexivity).
    rewrite H3 in Eg. simpl in Eg. rewrite E in Eg. injection Eg as Eg. exact Eg.
Defined.
