(* ===== verification/LocksSpec.v ===== *)
(** What the locks inside the engine promise: atomic calls, and no deadlock. *)

From Stdlib Require Import ZArith Lia String.
From stdpp Require Import base gmap list strings.
From S2P Require Import Prelude Errors Protocol World WorldFacts Config Wal WalFacts StorageFacts.
From S2P Require Import Engine EngineFacts Traces Register Workers WorkersFacts Locks LocksFacts.
From S2P Require Import Instances EngineSpec WorkersSpec.
Open Scope list_scope.
Open Scope Z_scope.

Section Claims.
Context `{HC : Crc32} {HCok : Crc32Ok} `{HB : WalEntry.Bincode} {HBok : WalEntry.BincodeOk}.
Context `{HT : IoText}.


(** C15: Threads inside the engine never block each other for good,
    whatever fails or panics and whatever the clock reads.  A thread waits for
    [write_lock], or for an inner lock that another holds (a read too: it takes the
    list of tables exclusively) or that a waiting writer may get first; whoever it
    waits for, and they in turn, at the end of the chain is a thread that can move.
    The owner of an inner lock never waits.  Without new calls the threads cannot go
    on for ever, and they stop only when every call has returned. *)
Theorem locks_never_deadlock e w tr s :
  run (Locks.step (fun _ _ _ => True)) (Locks.start e w) tr s ->
  (forall i th, Locks.threads s !! i = Some th -> Locks.next th <> [] ->
     exists j, rtc (Locks.waits_for s) i j /\ Locks.can_move s j) /\
  (forall j l m, Locks.held s !! (j, l) = Some m -> Locks.can_move s j) /\
  Acc (fun y x => Locks.proceeds x y) s /\
  forall s', rtc Locks.proceeds s s' -> (forall s2, ~ Locks.proceeds s' s2) -> Locks.threads s' = ∅.
Proof.
  intros Hrun. destruct (locks_run _ _ _ _ _ Hrun) as [Hok _]. split_and!.
  - by apply waiting_ends.
  - by apply owner_moves.
  - by apply proceeds_acc.
  - intros s' Hp. apply stops_empty. clear Hrun. induction Hp as [|s s1 s2 H1 _ IH]; [done|].
    apply IH. by eapply proceeds_work.
Qed.
End Claims.

(** ** A schedule, and the run it gives *)

Definition follow_one (m : move) (s : Locks.t) : option (option label * Locks.t) :=
  let sh := Locks.sh s in let T := Locks.threads s in let G := Locks.held s in
  match m with
  | DoCall i c =>
      match T !! i with
      | None => Some (Some (Call i c), Locks.mk sh (<[i := Locks.enter (Workers.Ready c)]> T) G)
      | _ => None
      end
  | DoAct now i =>
      th ← T !! i;
      if decide (Workers.room now (Locks.at_pc th) sh) then
        '(th', sh', G') ← Locks.exec now i th sh G; Some (None, Locks.mk sh' (<[i := th']> T) G')
      else None
  | DoRet i =>
      match T !! i with
      | Some (Locks.mkThread (Workers.Done r) [] _ _) => Some (Some (Ret i r), Locks.mk sh (base.delete i T) G)
      | _ => None
      end
  end.

Fixpoint follow_all (ms : list move) (s : Locks.t) : option (list label * Locks.t) :=
  match ms with
  | [] => Some ([], s)
  | m :: ms' =>
      '(l, s1) ← follow_one m s;
      '(tr, s2) ← follow_all ms' s1;
      Some (option_list l ++ tr, s2)
  end.

Section Follow.
Context (ok : Z -> Workers.pc -> Workers.shared -> Prop).
Context (Hroom : forall now p s, Workers.room now p s -> ok now p s).

Lemma follow_one_step m s l s' : follow_one m s = Some (l, s') -> Locks.step ok s l s'.
Proof.
  destruct s as [sh T G], m as [i c|now i|i]; simpl.
  - destruct (T !! i) eqn:E; [done|]. intros [= <- <-]. by constructor.
  - destruct (T !! i) as [th|] eqn:E; [|done]. simpl. case_decide; [|done].
    destruct (Locks.exec now i th sh G) as [[[th' sh'] G']|] eqn:Ea; [|done]. intros [= <- <-].
    by econstructor; eauto.
  - destruct (T !! i) as [[[] [] b es]|] eqn:E; try done. intros [= <- <-]. by eapply Locks.l_ret.
Qed.

Lemma follow_run ms : forall s tr s', follow_all ms s = Some (tr, s') -> run (Locks.step ok) s tr s'.
Proof.
  induction ms as [|m ms IH]; intros s tr s'; simpl; [intros [= <- <-]; constructor|].
  destruct (follow_one m s) as [[l s1]|] eqn:E; [|done]. simpl.
  destruct (follow_all ms s1) as [[tr' s2]|] eqn:E'; [|done]. intros [= <- <-].
  eapply run_trans; [apply run_one; by eapply follow_one_step|by apply IH].
Qed.
End Follow.




(** Two readers past the memtable: the first has the list of tables, the second waits
    for it. *)
Definition two_readers : list move :=
  [DoCall 1 (Exec (Command.Get key_k)); DoCall 2 (Exec (Command.Get key_k))] ++
  replicate 3 (DoAct 0 1) ++ replicate 3 (DoAct 0 2) ++ [DoAct 0 1].

Definition two_state : Locks.t :=
  (default ([], Locks.start demo.1 demo.2) (follow_all two_readers (Locks.start demo.1 demo.2))).2.

Lemma two_readers_run :
  follow_all two_readers (Locks.start demo.1 demo.2) =
  Some ([Call 1 (Exec (Command.Get key_k)); Call 2 (Exec (Command.Get key_k))], two_state).
Proof. vm_compute. reflexivity. Qed.

Lemma locks_never_deadlock_witness :
  (th ← Locks.threads two_state !! 2%nat; Locks.exec 0 2 th (Locks.sh two_state) (Locks.held two_state)) = None /\
  Locks.can_move two_state 1 /\ Acc (fun y x => Locks.proceeds x y) two_state.
Proof.
  split; [vm_compute; reflexivity|].
  destruct (locks_never_deadlock demo.1 demo.2 _ two_state
    (follow_run (fun _ _ _ => True) (fun _ _ _ _ => I) _ _ _ _ two_readers_run)) as (_ & H & Ha & _).
  split; [|exact Ha]. apply (H 1%nat Locks.Tabs Locks.Exclusive). vm_compute. reflexivity.
Defined.
