(* ===== verification/FailureSpec.v ===== *)
(** The engine where its promises are weaker: unsynced truncations, unreadable
    tables, a clock that goes wrong. *)

From Stdlib Require Import ZArith Lia String.
From stdpp Require Import base gmap list strings.
From S2P Require Import Prelude Errors BTreeMap Memtable Protocol World WorldFacts Config Wal.
From S2P Require Import WalFacts WalWriterFacts Sstable SstableFacts SstableReaderFacts Storage.
From S2P Require Import StorageFacts Engine EngineFacts Recovery OpenAny Durability.
From S2P Require Import Crash LogLoss Loss Instances EngineSpec.
Open Scope string_scope.
Open Scope list_scope.
Open Scope Z_scope.

Section Claims.
Context `{HC : Crc32} {HCok : Crc32Ok} `{HB : WalEntry.Bincode} {HBok : WalEntry.BincodeOk}.
Context `{HT : IoText} `{HSt : Status} {HStok : StatusOk}.

(** The error of a lock that another thread left by panicking. *)
Definition write_lock_error : AtlasError :=
  LockPoisoned ("Write lock poisoned: " +:+ Engine.poison_text).

(** A read looks at the memtable and the tables only. *)
Lemma get_reads_only k e e' w :
  Engine.memtable e' = Engine.memtable e -> Engine.storage e' = Engine.storage e ->
  (Engine.get k (e', w)).1 = (Engine.get k (e, w)).1.
Proof.
  intros Hm Hs. unfold Engine.get. rewrite !(bind_ok (gets _) _ _ _ _ eq_refl). cbn [fst]. rewrite Hm.
  destruct (MemTable.get k _) as [[]|]; [done..|].
  unfold Engine.on_storage, zoom. cbn [fst snd]. rewrite Hs. by destruct (StorageManager.get k _) as [r [st w']].
Qed.

(** C37: A write while the system clock is before 1970 panics
    inside both locks and is not applied.  From then on the engine is read-only:
    every put, delete and flush returns the lock's error and changes nothing, reads
    still answer the map, and no file has changed. *)
Theorem clock_panic_poisons now op e w ts kv :
  engine_ok e w ts kv -> now < 0 ->
  exists e', write now op (e, w) = (Panic, (e', w)) /\
    (forall now' op', write now' op' (e', w) = (Err write_lock_error, (e', w))) /\
    Engine.flush (e', w) = (Err write_lock_error, (e', w)) /\
    forall k, match (Engine.get k (e', w)).1 with
              | Ok v => v = kv !! k
              | Err er => (exists i, er = Io i) /\ ~ quiet w
              | _ => False
              end.
Proof.
  intros Hok Hnow. destruct (ok_locks _ _ _ _ Hok) as [H1 H2].
  set (wr := WalWriter.mk (WalWriter.file (Engine.wal e)) (as_u64 (WalWriter.current_lsn (Engine.wal e) + 1))
    (WalWriter.sync_strategy (Engine.wal e)) (WalWriter.uncommitted_count (Engine.wal e))).
  set (e' := Engine.poison_write (Engine.poison_wal (Engine.set_wal wr e))). exists e'. split_and!.
  - assert (Happ : WalWriter.append now op (Engine.wal e, w) = (Panic, (wr, w))).
    { unfold WalWriter.append, WalEntry.new. rewrite (proj2 (Z.ltb_lt _ _) Hnow). done. }
    rewrite write_body. unfold Engine.with_write_lock, Engine.locked at 1. cbn [fst]. rewrite H1.
    unfold mbind at 1, ST_bind at 1, Engine.with_wal_lock, Engine.locked at 1. cbn [fst]. rewrite H2.
    unfold Engine.on_wal, zoom. cbn [fst snd]. by rewrite Happ.
  - intros now' op'. by rewrite write_body.
  - done.
  - intros k. rewrite (get_reads_only k e e' w) by done.
    pose proof (wp_get e w ts kv k Hok) as Hg. unfold wp in Hg.
    destruct (Engine.get k (e, w)) as [[v|er| |] s']; naive_solver.
Qed.
(** C39: One file can keep the engine from starting.  If the data directory
    has a file whose name reads as a table id ([sstable_5.txt] too), and the table file
    of that id is missing, or is one the reference decoder refuses (an unfinished one,
    which a flush that failed or was cut off leaves), then [open] does not succeed; it
    has changed no file, so the log is intact and the next start fails in the same
    way. *)
Theorem open_refuses c w name f id :
  small_files w -> files w !! (table_dir c, name) = Some (NFile f) ->
  StorageManager.parse_sstable_id name = Some id ->
  match files w !! StorageManager.sstable_path_with_dir (table_dir c) id with
  | Some (NFile t) => forall x, inspect (content t) <> Ok x
  | _ => True
  end ->
  (forall e, (Engine.open c w).1 <> Ok e) /\ same_files w (Engine.open c w).2.
Proof.
  intros Hsm Hf Hp Hbad. apply (open_refused c w id Hsm (named_table _ _ _ _ _ Hf Hp)).
  intros x. unfold table_read.
  by destruct (files w !! StorageManager.sstable_path_with_dir (table_dir c) id) as [[t|]|].
Qed.

(** C40: What a crash after a flush can bring back.  A flush leaves the
    log empty but does not sync that.  The next engine opens; the log it finds is empty,
    or is what was durable of the log before ([d], which without [EveryWrite] can be
    older than the tables), and it serves the map with exactly the writes of that log
    made once more, in order: every key the old log does not mention reads as it was
    acknowledged, the others as the old log left them. *)
Theorem flush_then_crash e w ts kv d es s' w2 :
  logged e w ts kv d es -> ids_left e -> Engine.flush (e, w) = (Ok tt, s') ->
  ids_left s'.1 -> mem_ok (recovered_mem d) -> crash s'.2 w2 -> quiet w2 ->
  let log := log_content (Engine.config e) w2 in
  (log = [] \/ log = d) /\
  exists e3 w3, Engine.open (Engine.config e) w2 = (Ok e3, w3) /\
    forall k, exists s3, Engine.get k (e3, w3) =
      (Ok (kv_run (WalEntry.operation <$> (scan log).1) kv !! k), s3).
Proof.
  intros Hlg Hids Hfl Hids' Hd Hc Hq log.
  destruct (flush_empties _ _ _ _ _ _ _ Hlg Hids Hfl) as (ts' & Hlg' & Hcfg).
  destruct s' as [e' w']. cbn [fst snd] in *. subst log. rewrite <- Hcfg.
  destruct (emptied_reopen e' w' ts' kv d w2 Hlg' Hc Hq Hids' Hd) as (Hl & e3 & w3 & ts3 & Ho & Hq3 & Hok).
  split; [done|]. exists e3, w3. split; [done|]. intros k.
  destruct (wp_quiet _ _ _ _ (wp_get e3 w3 ts3 _ k Hok) Hq3) as (res & s3 & Hg & (-> & _) & _). eauto.
Qed.
End Claims.

(** ** At concrete inputs *)

Lemma clock_panic_poisons_witness :
  exists e', write (-5) (put_k "a") (demo.1, demo.2) = (Panic, (e', demo.2)) /\
    Engine.flush (e', demo.2) = (Err write_lock_error, (e', demo.2)).
Proof.
  destruct (clock_panic_poisons (-5) (put_k "a") demo.1 demo.2 [] ∅ demo_ok ltac:(lia)) as (e' & H1 & _ & H2 & _).
  exists e'. split; [exact H1|exact H2].
Defined.

(** A table file of three bytes beside a log with a write in it. *)
Definition unfinished_table : World :=
  mkWorld {[ ("db/sstables", "sstable_000001.sst") := NFile (mkFile [Byte.x41; Byte.x54; Byte.x4b] []);
             ("db", "wal.log") := NFile (mkFile (wal_bytes [WalEntry.mk 1 (put_k "v") 1]) []) ]} [].

Lemma open_refuses_witness :
  (Engine.open (demo_config EveryWrite) unfinished_table).1 = Err (Io UnexpectedEof) /\
  same_files unfinished_table (Engine.open (demo_config EveryWrite) unfinished_table).2.
Proof.
  split; [vm_compute; reflexivity|].
  refine (proj2 (open_refuses (demo_config EveryWrite) unfinished_table "sstable_000001.sst"
    (mkFile [Byte.x41; Byte.x54; Byte.x4b] []) 1 _ _ _ _)).
  - apply small_files_check. vm_compute. reflexivity.
  - vm_compute. reflexivity.
  - vm_compute. reflexivity.
  - vm_compute. discriminate.
Defined.

(** Two puts synced together, a flush, a third put and another flush: a crash that
    keeps only what was synced brings the first two back. *)
Definition two_config : Config.t := demo_config (EveryNEntries 2).
Definition put_a : Operation.t := Operation.Put (bytes_of_string "a") [].

Definition start2 : Engine.t * World := started two_config (mkWorld ∅ []).
Definition after1 : Engine.t * World := after (write 1 put_a) start2.
Definition after2 : Engine.t * World := after (write 2 (put_k "old")) after1.
Definition after3 : Engine.t * World := after Engine.flush after2.
Definition after4 : Engine.t * World := after (write 3 (put_k "new")) after3.
Definition after5 : Engine.t * World := after Engine.flush after4.

Lemma ran {A} (m : ST (Engine.t * World) A) a s : (m s).1 = Ok a -> m s = (Ok a, after m s).
Proof. unfold after. destruct (m s). simpl. by intros ->. Qed.

Lemma after4_acked : acked start2 [put_a; put_k "old"; put_k "new"] after4.
Proof.
  assert (H1 : acked start2 ([] ++ [put_a]) after1).
  { apply (acked_write start2 [] start2 1); [apply acked_nil|vm_compute; reflexivity|lia|split; vm_compute; reflexivity|].
    unfold after1. apply (ran (write 1 put_a) tt start2). vm_compute. reflexivity. }
  assert (H2 : acked start2 ([put_a] ++ [put_k "old"]) after2).
  { apply (acked_write start2 [put_a] after1 2); [exact H1|vm_compute; reflexivity|lia|split; vm_compute; reflexivity|].
    unfold after2. apply (ran (write 2 (put_k "old")) tt after1). vm_compute. reflexivity. }
  assert (H3 : acked start2 [put_a; put_k "old"] after3).
  { apply (acked_flush start2 _ after2); [exact H2|vm_compute; reflexivity|]. unfold after3. apply (ran Engine.flush tt after2). vm_compute. reflexivity. }
  apply (acked_write start2 [put_a; put_k "old"] after3 3); [exact H3|vm_compute; reflexivity|lia|split; vm_compute; reflexivity|].
  unfold after4. apply (ran (write 3 (put_k "new")) tt after3). vm_compute. reflexivity.
Qed.

(** What is durable of the log before the last flush: the first two puts. *)
Definition old_log : bytes := default [] (durable <$> get_file ("db", "wal.log") after4.2).

Lemma after4_logged : exists ts es,
  logged after4.1 after4.2 ts (kv_run [put_a; put_k "old"; put_k "new"] ∅) old_log es.
Proof.
  assert (Ho : Engine.open two_config (mkWorld ∅ []) = (Ok start2.1, start2.2)) by (vm_compute; reflexivity).
  destruct (open_empty_tracked two_config (mkWorld ∅ []) start2.1 start2.2 eq_refl eq_refl Ho) as [Ht _].
  rewrite <- surjective_pairing in Ht.
  destruct (proj1 (acked_tracked _ _ _ _ after4_acked Ht)) as (ts & d & es & Hlg & _).
  exists ts, es. destruct (lg_log _ _ _ _ _ _ Hlg) as (c & (_ & Hf & _) & _).
  assert (d = old_log) as <-; [|exact Hlg]. unfold old_log.
  replace (wal_path (Engine.config after4.1)) with ("db", "wal.log") in Hf by (vm_compute; reflexivity).
  by rewrite Hf.
Qed.

Lemma flush_then_crash_witness :
  exists e3 w3 s3, Engine.open two_config (crash_min after5.2) = (Ok e3, w3) /\
    (scan (log_content two_config (crash_min after5.2))).1 =
      [WalEntry.mk 1 put_a 1; WalEntry.mk 2 (put_k "old") 2] /\
    Engine.get key_k (e3, w3) = (Ok (Some (bytes_of_string "old")), s3).
Proof.
  destruct after4_logged as (ts & es & Hlg).
  destruct (flush_then_crash after4.1 after4.2 ts _ old_log es after5 (crash_min after5.2) Hlg) as (_ & e3 & w3 & Ho & Hg).
  - vm_compute. reflexivity.
  - rewrite <- surjective_pairing. unfold after5. apply (ran Engine.flush tt after4). vm_compute. reflexivity.
  - vm_compute. reflexivity.
  - replace (recovered_mem old_log) with
      (MemTable.mk [(bytes_of_string "a", Value []); (key_k, Value (bytes_of_string "old"))] 5)
      by (vm_compute; reflexivity).
    split; [split; [repeat constructor|vm_compute; reflexivity]|].
    split; [repeat constructor|split; [repeat constructor|vm_compute; reflexivity]].
  - apply crash_min_crash.
  - constructor.
  - destruct (Hg key_k) as [s3 E]. exists e3, w3, s3. split; [exact Ho|]. split; [vm_compute; reflexivity|].
    rewrite E. f_equal.
Defined.
