(* ===== verification/NetworkSpec.v ===== *)
(** What the server promises its clients. *)

From Stdlib Require Import ZArith Lia String.
From coqutil Require Import Byte.
From stdpp Require Import base gmap list strings relations.
From S2P Require Import Prelude Fmt Errors BTreeMap Memtable Protocol World WorldFacts Config Wal.
From S2P Require Import WalFacts Storage StorageFacts Engine EngineFacts Network NetworkFacts.
From S2P Require Import Register Session Server ServerFacts Cli Instances EngineSpec.
Open Scope string_scope.
Open Scope list_scope.
Open Scope Z_scope.

(** ** Connections *)

Section Connections.
Context {R : Type} `{HR : ReadClosed R} {W : Type} `{HW : WriteReliable W}.
Context `{HT : IoText}.



(** ** The engine behind a connection *)

Context `{HC : Crc32} {HCok : Crc32Ok} `{HB : WalEntry.Bincode} {HBok : WalEntry.BincodeOk}.

(** C13: A client's whole session refines the map.  Commands sent
    back to back over a connection are run against the engine one after the other;
    what comes back is the map's reply to each, in order, every frame decodes to that
    reply, and the engine then stands for the map after all of them.  A missing key
    and an empty value give the same reply, status OK without a payload. *)
Theorem session_refines_map (clock : nat -> Z) n cs (r : R) (w : W) addr e wd ts kv :
  engine_ok e wd ts kv -> quiet wd -> (forall t, 0 <= clock t) -> session_room e cs -> values_fit kv ->
  incoming r = concat (map Codec.encode_command cs) ->
  let _ : Executor Clocked := engine_execute clock in
  exists r' w' e' wd' ts',
    Connection.handle (S (length (incoming r))) (Connection.mk r w (mkClocked n e wd) addr) =
      (Ok tt, Connection.mk r' w' (mkClocked (n + length cs) e' wd') addr) /\
    outgoing w' = outgoing w ++ reply_bytes (map_replies cs kv) /\
    Forall (fun v => forall rest, Codec.decode_response (Codec.encode_response (Response.ok v) ++ rest) =
      Ok (Response.mk Status.Ok (match v with Some [] => None | _ => v end))) (map_replies cs kv) /\
    engine_ok e' wd' ts' (map_after cs kv).
Proof.
  intros Hok Hq Hclock Hroom Hv Hin HE. pose proof Hroom as (_ & _ & Hfit).
  destruct (respond_session clock cs n e wd ts kv Hok Hq Hclock Hroom) as (e' & wd' & ts' & Hresp & Hok').
  destruct (handle_commands addr cs (S (length (incoming r))) r w (mkClocked n e wd) _ _ Hfit Hin Hresp
    ltac:(unfold len; lia)) as (r' & w' & Hh & Hout).
  exists r', w', e', wd', ts'. split_and!; [done|done| |done].
  eapply Forall_impl; [by apply map_replies_fit|]. intros v Hlen rest. by apply Codec.decode_encode_response.
Qed.
End Connections.

(** ** The command-line client *)

(** What the client should print when the server's map is [kv]. *)
Definition cli_line (cmd : Cli.Commands) (kv : gmap bytes bytes) : Cli.line :=
  match cmd with
  | Cli.Get key =>
      match kv !! bytes_of_string key with
      | None | Some [] => Cli.say "(nil)"
      | Some v => if from_utf8 v then Cli.Out v else Cli.say (debug_bytes v)
      end
  | Cli.Set_ _ _ | Cli.Del _ => Cli.say "OK"
  | Cli.Ping => Cli.say "PONG"
  end.

Section Client.
Context {S : Type} `{HR : ReadLaws S} `{HW : Write S} `{HS : TcpStream S S S} `{HT : IoText}.
Context `{HC : Crc32} {HCok : Crc32Ok} `{HB : WalEntry.Bincode} {HBok : WalEntry.BincodeOk}.

(** Writing [bs] to the stream goes through, and the peer answers [out]. *)
Definition answered (s : S) (bs out : bytes) : Prop :=
  exists s1 s2, write_all bs s = (Ok tt, s1) /\ flush s1 = (Ok tt, s2) /\ incoming s2 = out.

Lemma exchange_prints cmd (s : S) v rest :
  (forall x : S, returns (shutdown_write x).1) -> len (default [] v) <= Codec.MAX_PAYLOAD_SIZE ->
  answered s (Codec.encode_command (Cli.to_command cmd)) (Codec.encode_response (Response.ok v) ++ rest) ->
  exists s', Cli.exchange cmd s =
    (Ok (Cli.handle_response cmd (Response.mk Status.Ok (match v with Some [] => None | _ => v end))), s').
Proof.
  intros Hsh Hv (s1 & s2 & H1 & H2 & H3).
  destruct (Codec.read_response_frame s2 Status.Ok v rest Hv H3) as (s3 & H4 & _).
  specialize (Hsh s3). destruct (shutdown_write s3) as [x s4] eqn:H5. exists s4.
  unfold Cli.exchange, mbind, ST_bind, catch. rewrite H1, H2, H4, H5. by destruct x.
Qed.

(** C17: From the command line to the map and back: when the client
    reaches a server whose engine stands for [kv], and what it sends is answered by
    the server's connection, it prints the map's value of the key for [get] (the
    bytes if they are UTF-8, a list of numbers otherwise, (nil) if there is none or
    it is empty), OK for [set] and [del], PONG for [ping], and exits with status 0. *)
Theorem cli_prints_map {A} (parse : string -> option A) connect args addr stream s
    (clock : nat -> Z) n e wd ts kv fuel :
  parse (Cli.server args) = Some addr -> connect addr (Cli.timeout args) = Ok stream ->
  Cli.configure (Cli.timeout args) stream = (Ok tt, s) ->
  let c := Cli.to_command (Cli.command args) in
  engine_ok e wd ts kv -> quiet wd -> (forall t, 0 <= clock t) -> session_room e [c] -> values_fit kv ->
  (1 < fuel)%nat ->
  answered s (Codec.encode_command c)
    (serve (HE := engine_execute clock) fuel (Codec.encode_command c) (mkClocked n e wd)).1.1 ->
  (forall x : S, returns (shutdown_write x).1) ->
  Cli.main parse connect args = Ok (cli_line (Cli.command args) kv, 0).
Proof.
  intros Hp Hc Hconf c Hok Hq Hclock Hroom Hv Hfuel Hans Hsh.
  destruct (respond_session clock [c] n e wd ts kv Hok Hq Hclock Hroom) as (e' & wd' & ts' & Hresp & _).
  pose proof (serve_commands (HE := engine_execute clock) [c] fuel _ _ _ (proj2 (proj2 Hroom)) Hresp
    ltac:(simpl; lia)) as Hserve.
  cbn [map concat] in Hserve. rewrite app_nil_r in Hserve. rewrite Hserve in Hans. cbn [fst] in Hans.
  pose proof (map_replies_fit [c] kv (proj2 (proj2 Hroom)) Hv) as Hlen. inversion Hlen as [|? ? Hl _]; subst.
  destruct (exchange_prints (Cli.command args) s _ [] Hsh Hl Hans) as (s' & Hex).
  unfold Cli.main. rewrite Hp, Hc, (bind_ok _ _ _ _ _ Hconf), Hex. cbn [fst]. f_equal.
  unfold c, cli_line. destruct (Cli.command args) as [k|k v|k|]; simpl; try done.
  unfold Cli.handle_response. simpl. destruct (kv !! bytes_of_string k) as [[|b v]|]; try done.
  cbn [Response.payload]. by destruct (from_utf8 (b :: v)).
Qed.
End Client.

(** ** The server *)

Section Servers.
Context (max_connections : Z).

(** C30: In every reachable state the connection counter is the
    number of workers inside a connection or lost to a panic in one, so it never
    exceeds the number of workers and with fewer workers than the configured limit no
    connection is turned away;
    and connections are taken in the order they were accepted, each once: the channel
    holds those accepted and not yet taken, and no shutdown signal overtakes them. *)
Theorem server_invariants n s :
  Server.reach max_connections n s ->
  (Server.active_connections s = count busy (Server.workers s) /\
   0 <= Server.active_connections s <= Z.of_nat n /\
   (Z.of_nat n < max_connections -> Server.rejected s = [])) /\
  exists waiting signals, Server.sent s = Server.taken s ++ waiting /\
    Server.queue s = map Server.NewConnection waiting ++ replicate signals Server.Shutdown /\
    (0 < signals -> Server.shutdown_flag s = true)%nat.
Proof.
  intros Hr. split; [by apply count_exact|].
  apply reach_inv in Hr as [_ _ (cs & j & Hq & Hst & Hsig & _) Hf _]. exists cs, j.
  split; [done|]. split; [done|]. intros Hj.
  destruct (Server.main s); try done; simpl in Hsig; lia.
Qed.

(** [main] serves the server it has set up, with nothing beside it. *)
Lemma main_serves `{HC : Crc32} `{HB : WalEntry.Bincode} `{HT : IoText} `{HSt : Status} `{HP : Platform}
    args w p w' :
  ServerBin.main args w = (Ok (ServerBin.Serves p), w') ->
  exists e, p = ServerBin.mkProgram e (Server.start Server.num_cpus) [] false.
Proof.
  unfold ServerBin.main, catch, mbind, ST_bind. destruct (Engine.open _ w) as [[e1|er| |] w1]; try done.
  destruct (spawn _); try done. destruct (Server.setup _) as [s1|er| |] eqn:Es; try done. intros [= <- _].
  exists e1. unfold Server.setup in Es. repeat (apply obind_ok_inv in Es as (? & _ & Es)). by injection Es as <-.
Qed.

Lemma program_serves m n e p :
  rtc (ServerBin.step m) (ServerBin.mkProgram e (Server.start n) [] false) p ->
  exists e' v, p = ServerBin.mkProgram e' v [] false /\ serving v /\ Server.reach m n v.
Proof.
  intros Hrun. remember (ServerBin.mkProgram e (Server.start n) [] false) as p0 eqn:E0.
  assert (H0 : exists e' v, p0 = ServerBin.mkProgram e' v [] false /\ serving v /\ Server.reach m n v).
  { exists e, (Server.start n). split_and!; [done..|constructor]. }
  clear E0. induction Hrun as [|p0 p1 p2 Hs _ IH]; [done|]. apply IH. destruct H0 as (e' & v & -> & Hv & Hr).
  inversion Hs as [l e1 v1 v2 b f Hl Hst| |]; subst. exists e', v2. split_and!; [done|..].
  - eapply serving_step; [|done..]. by intros ->.
  - by econstructor.
Qed.

(** C31: The server program does not stop by itself.  Once [main] serves, whatever
    clients, workers and the thread of the Ctrl+C handler do, neither [main]'s flag nor
    the server's is ever set, the accept loop goes on and [run] does not return: the
    handler is dropped without being called. *)
Theorem binary_never_stops `{HC : Crc32} `{HB : WalEntry.Bincode} `{HT : IoText} `{HSt : Status} `{HP : Platform}
    args w p0 w' p :
  ServerBin.main args w = (Ok (ServerBin.Serves p0), w') ->
  rtc (ServerBin.step (ServerBin.max_connections args)) p0 p ->
  ServerBin.flag p = false /\ Server.is_running (ServerBin.server p) = true /\
  Server.main (ServerBin.server p) <> Server.Done /\
  Server.reach (ServerBin.max_connections args) Server.num_cpus (ServerBin.server p).
Proof.
  intros Hmain Hrun. destruct (main_serves _ _ _ _ Hmain) as (e & ->).
  destruct (program_serves _ _ _ _ Hrun) as (e' & v & -> & [Hf Hm] & Hr). cbn. split_and!; [done|..|done].
  - unfold Server.is_running. by rewrite Hf.
  - intros Hd. by rewrite Hd in Hm.
Qed.

End Servers.

(** ** At concrete inputs *)

Definition clock0 (n : nat) : Z := Z.of_nat n.
Definition clocked_demo : Clocked := mkClocked 0 demo.1 demo.2.
#[local] Instance demo_executor : Executor Clocked := engine_execute clock0.




Definition put_get : list Command.t := [Command.Put key_k (bytes_of_string "v"); Command.Get key_k].

Lemma put_get_room : session_room demo.1 put_get.
Proof. split_and!; [vm_compute; reflexivity..|]. repeat constructor; vm_compute; discriminate. Qed.

Lemma clock0_past t : 0 <= clock0 t.
Proof. unfold clock0. lia. Qed.

Lemma empty_values_fit : values_fit ∅.
Proof. intros k v. by rewrite lookup_empty. Qed.

Lemma session_refines_map_witness :
  let r := mkSocket (concat (map Codec.encode_command put_get)) [] in
  exists r' w' e' wd' ts',
    Connection.handle (S (length (inbox r))) (Connection.mk r (mkSocket [] []) clocked_demo "peer") =
      (Ok tt, Connection.mk r' w' (mkClocked 2 e' wd') "peer") /\
    outbox w' = reply_bytes [None; Some (bytes_of_string "v")] /\
    engine_ok e' wd' ts' {[ key_k := bytes_of_string "v" ]}.
Proof.
  intros r. destruct (session_refines_map clock0 0 put_get r (mkSocket [] []) "peer" demo.1 demo.2 [] ∅ demo_ok
    ltac:(constructor) clock0_past put_get_room empty_values_fit eq_refl)
    as (r' & w' & e' & wd' & ts' & H1 & H2 & _ & H3).
  exists r', w', e', wd', ts'. split_and!; [exact H1|exact H2|exact H3].
Defined.

(** A client whose stream is the connection above. *)
Definition ping_peer (bs : bytes) : bytes := (serve 9 bs clocked_demo).1.1.
Definition ping_parse (a : string) : option unit := Some tt.
Definition ping_connect (a : unit) (t : Z) : outcome socket := Ok (mkSocket [] []).

Lemma ping_room : session_room demo.1 [Command.Ping].
Proof. split_and!; [vm_compute; reflexivity..|]. repeat constructor; vm_compute; discriminate. Qed.

Lemma cli_prints_map_witness :
  Cli.main (HW := wire_write ping_peer) ping_parse ping_connect (Cli.default_args Cli.Ping) =
    Ok (Cli.say "PONG", 0).
Proof.
  refine (cli_prints_map (HW := wire_write ping_peer) ping_parse ping_connect (Cli.default_args Cli.Ping) tt
    (mkSocket [] []) (mkSocket [] []) clock0 0 demo.1 demo.2 [] ∅ 9 eq_refl eq_refl eq_refl demo_ok
    _ clock0_past ping_room empty_values_fit _ _ (fun _ => I)).
  - constructor.
  - lia.
  - eexists _, _. split; [reflexivity|]. split; reflexivity.
Defined.

(** Two workers, one connection being served, another waiting, shutdown signaled. *)
Definition server_run : list Server.label :=
  [Server.LLoop; Server.LAccept 1; Server.LSend; Server.LRecv 0; Server.LBegin 0;
   Server.LLoop; Server.LAccept 2; Server.LSend; Server.LShutdown].

Definition server1 : Server.t := default (Server.start 2) (run_labels 10 server_run (Server.start 2)).

Lemma server1_reach : Server.reach 10 2 server1.
Proof. apply (run_reach 10 2 server_run (Server.start 2)); [constructor|reflexivity]. Qed.

Lemma server_invariants_witness :
  Server.active_connections server1 = count busy (Server.workers server1) /\
  0 <= Server.active_connections server1 <= 2 /\ (2 < 10 -> Server.rejected server1 = []).
Proof. exact (proj1 (server_invariants 10 2 server1 server1_reach)). Defined.

(** The program on an empty directory, one connection accepted and served. *)
Definition serving_run1 : list Server.label :=
  [Server.LLoop; Server.LAccept 1; Server.LSend; Server.LRecv 0; Server.LBegin 0; Server.LFinish 0; Server.LLoop].

Lemma labels_steps m e b f ls : forall v v',
  forallb ServerBin.of_server ls = true -> run_labels m ls v = Some v' ->
  rtc (ServerBin.step m) (ServerBin.mkProgram e v b f) (ServerBin.mkProgram e v' b f).
Proof.
  induction ls as [|l ls IH]; intros v v'; simpl; [by intros _ [= <-]|].
  intros [Hl Hls]%andb_true_iff. destruct (Server.step m l v) as [v1|] eqn:E; [|done]. intros Hr.
  eapply rtc_l; [by eapply ServerBin.p_server|by apply IH].
Qed.

Lemma binary_never_stops_witness :
  exists e s, run_labels 1024 serving_run1 (Server.start 2) = Some s /\
    (ServerBin.main ServerBin.default_args (mkWorld ∅ [])).1 =
      Ok (ServerBin.Serves (ServerBin.mkProgram e (Server.start 2) [] false)) /\
    Server.is_running s = true /\ Server.main s <> Server.Done.
Proof.
  destruct (ServerBin.main ServerBin.default_args (mkWorld ∅ [])) as [r w'] eqn:E.
  assert (Hr : exists e, r = Ok (ServerBin.Serves (ServerBin.mkProgram e (Server.start 2) [] false))).
  { change r with (r, w').1. rewrite <- E. vm_compute. eauto. }
  destruct Hr as (e & ->).
  destruct (run_labels 1024 serving_run1 (Server.start 2)) as [s|] eqn:Hrun; [|vm_compute in Hrun; discriminate].
  exists e, s. split; [reflexivity|]. split; [reflexivity|].
  destruct (binary_never_stops ServerBin.default_args (mkWorld ∅ []) _ w' (ServerBin.mkProgram e s [] false) E)
    as (_ & H1 & H2 & _); [|split; [exact H1|exact H2]].
  apply (labels_steps 1024 e [] false serving_run1); [reflexivity|exact Hrun].
Defined.

