(* ===== verification/SystemSpec.v ===== *)
(** What the running server promises: many clients, one map. *)

From Stdlib Require Import ZArith Lia String.
From stdpp Require Import base gmap list strings.
From S2P Require Import Prelude Errors BTreeMap Memtable Protocol World WorldFacts Config Wal.
From S2P Require Import WalFacts Storage StorageFacts Engine EngineFacts Traces Register Workers.
From S2P Require Import WorkersFacts Network NetworkFacts Server ServerFacts System SystemFacts.
From S2P Require Import SystemEnds Recovery Durability Crash CrashWorkers Lives Instances EngineSpec WorkersSpec.
Open Scope string_scope.
Open Scope list_scope.
Open Scope Z_scope.

Section Claims.
Context `{HC : Crc32} {HCok : Crc32Ok} `{HB : WalEntry.Bincode} {HBok : WalEntry.BincodeOk}.
Context `{HT : IoText} `{HSt : Status} {HStok : StatusOk}.

(** C10: Everything together: clients connect in any number and at
    any time, the accept loop hands them to the workers, and the workers' threads
    interleave inside the engine.  The history of all commands is one of an atomic
    map, for which the engine stands at every moment; every connection that a worker
    has taken is in its hands or was ended, once; a conversation that is over ran as
    [handle_connection] runs against the very results the history gives its worker,
    whatever the sockets did. (The engine's actions are in [Workers.room].) *)
Theorem system_refines_map {S R W} `{HS : TcpStream S R W} `{HR : Read R} `{HW : Write W}
    config (socket : nat -> S) n e w ts kv tr s :
  engine_ok e w ts kv -> run (System.step config socket Workers.room) (System.start n e w) tr s ->
  let sh := Workers.sh (System.engine s) in
  (exists a ts', run (Atomic.step (~ quiet w)) (Atomic.mk kv ∅) tr a /\
     engine_ok (Workers.eng sh) (Workers.wld sh) ts' (Atomic.map a)) /\
  Server.reach (Config.max_connections config) n (System.server s) /\
  Server.taken (System.server s) ≡ₚ
    in_hand (System.server s) ++ map (fun x => System.stream x.2) (System.ended s) /\
  Forall (fun x => System.as_the_code config socket x.2) (System.ended s) /\
  forall i, System.exchanges i tr = concat (map System.said (System.talks_of i s)).
Proof.
  intros Hok Hrun sh. destruct (run_inv config socket n e w tr s Hrun) as [H1 H2 H3 H4 H5 H6 H7].
  split_and!; [by eapply workers_atomic|done|done| |].
  - eapply Forall_impl; [exact H4|]. intros x [? ?]. by apply follows_code.
  - intros i. unfold System.exchanges. by rewrite H6, spoken_talks.
Qed.

(** C11: With sockets that answer, successfully or with an error, and as long as the
    engine's actions are in [Workers.room] (the clock that a write reads is not before
    1970: else it panics, see [clock_panic_poisons]; sizes and table ids fit their
    fields), nothing of the running server panics: no worker is lost, every conversation that
    is over ended in an orderly way, the connection counter is the number of
    conversations under way, and the engine's locks are not poisoned. *)
Theorem system_never_panics {S R W} `{HS : TcpStreamLaws S R W} {HWr : WritesReturn W}
    config (socket : nat -> S) n e w ts kv tr s :
  engine_ok e w ts kv -> run (System.step config socket Workers.room) (System.start n e w) tr s ->
  let e' := Workers.eng (Workers.sh (System.engine s)) in
  Server.calm (System.server s) /\
  Forall (fun x => System.over x.2 = Some (Ok tt)) (System.ended s) /\
  Server.active_connections (System.server s) = Z.of_nat (size (System.talks s)) /\
  Engine.write_poisoned e' = false /\ Engine.wal_poisoned e' = false.
Proof.
  intros Hok Hrun e'. destruct (run_peace config socket n e w ts kv tr s Hok Hrun) as [P1 P2 P3 P4].
  destruct (workers_atomic _ _ _ _ _ _ Hok (inv_engine _ _ _ _ _ _ _ (run_inv config socket n e w tr s Hrun)))
    as (a & ts' & _ & Hok'). destruct (ok_locks _ _ _ _ Hok'). done.
Qed.


(** C9: The server over its lives.  Clients talk to the server while it stops, any
    number of times, and each time it is started again on the same directory.  No system
    call fails within a life but the one it is stopped at, and its actions are in
    [Workers.room].  It is killed or its machine crashes between two actions of the threads inside the
    engine, in the middle of one, or during a start; where a table was not finished,
    its file is removed before the next start, which would refuse it
    ([files_block_open]).  Under [EveryWrite] the commands of all lives, in order,
    form one history of an atomic map that starts empty: no returned write is lost, no
    value a client has read is taken back, and a command that was under way at a stop
    took effect as a whole or not at all.  The next engine opens and every key reads
    as that history left it.  (A kill between an append and its sync is the one stop
    left out: [writes_undone].) *)
Theorem system_survives {S R W} `{HS : TcpStream S R W} `{HR : Read R} `{HW : Write W} c w trs w' :
  Config.wal_sync_strategy c = EveryWrite -> files w = ∅ -> quiet w -> lives (S := S) c w trs w' ->
  exists kv, histories ∅ trs kv /\ exists e w1, Engine.open c w' = (Ok e, w1) /\
    forall k, exists s', Engine.get k (e, w1) = (Ok (kv !! k), s').
Proof.
  intros Hstr Hw Hq Hl.
  destruct (lives_histories c w ∅ trs w' Hstr (empty_recovers c w Hw) Hq Hl) as (kv & Hh & Hr & Hq').
  destruct (recovers_open c w' kv Hstr Hr Hq') as (e & w1 & Ho & Hs & _ & Hq1).
  exists kv. split; [done|]. exists e, w1. split; [done|]. intros k. by apply safe_read.
Qed.
End Claims.

(** ** A schedule of the whole server, and the run it gives *)

Section Drive.
Context (config : Config.t) (socket : nat -> Instances.socket).

Abbreviation state := (System.t (R := Instances.socket) (W := Instances.socket)).

Inductive deed :=
| Serve (l : Server.label)
| Begin (i : nat)
| Hear (i : nat)
| Work (now : Z) (i : nat)
| Reply (i : nat)
| Finish (i : nat).

Definition put_talk (i : nat) (k : System.talk) (s : state) : gmap nat System.talk :=
  <[i := k]> (System.talks s).

Definition hears (i : nat) (k : System.talk) (s : state) : option (option label * state) :=
  match System.at_stage k with
  | System.Reading c =>
      match System.hear c with
      | System.Running c' command =>
          '(l, e') ← drive_one (DoCall i (Exec command)) (System.engine s);
          Some (Some (Call i (Exec command)), System.mk (System.server s) e'
            (put_talk i (System.mkTalk (System.stream k) (System.said k) (System.Running c' command)) s)
            (System.ended s))
      | System.Left c' r =>
          Some (None, System.mk (System.server s) (System.engine s)
            (put_talk i (System.mkTalk (System.stream k) (System.said k) (System.Left c' r)) s) (System.ended s))
      | _ => None
      end
  | _ => None
  end.

Definition replies (i : nat) (k : System.talk) (s : state) : option (option label * state) :=
  match System.at_stage k, Workers.threads (System.engine s) !! i with
  | System.Running c command, Some (Workers.Done r) =>
      '(l, e') ← drive_one (DoRet i) (System.engine s);
      Some (Some (Ret i r), System.mk (System.server s) e'
        (put_talk i (System.mkTalk (System.stream k) (System.said k ++ [(command, r)]) (System.reply r c)) s)
        (System.ended s))
  | _, _ => None
  end.

Definition perform (d : deed) (s : state) : option (option label * state) :=
  let v := System.server s in
  match d with
  | Serve l =>
      if System.outside l then
        v' ← Server.step (Config.max_connections config) l v;
        Some (None, System.mk v' (System.engine s) (System.talks s) (System.ended s))
      else None
  | Begin i =>
      match Server.workers v !! i with
      | Some (Server.Received c) =>
          v' ← Server.step (Config.max_connections config) (Server.LBegin i) v;
          Some (None, System.mk v' (System.engine s)
            (put_talk i (System.mkTalk c [] (System.greet config socket c)) s) (System.ended s))
      | _ => None
      end
  | Hear i => k ← System.talks s !! i; hears i k s
  | Work now i =>
      match drive_one (DoAct now i) (System.engine s) with
      | Some (None, e') => Some (None, System.mk v e' (System.talks s) (System.ended s))
      | _ => None
      end
  | Reply i => k ← System.talks s !! i; replies i k s
  | Finish i =>
      k ← System.talks s !! i;
      match System.over k with
      | Some (Ok _) =>
          v' ← Server.step (Config.max_connections config) (Server.LFinish i) v;
          Some (None, System.mk v' (System.engine s) (base.delete i (System.talks s)) (System.ended s ++ [(i, k)]))
      | _ => None
      end
  end.

Fixpoint perform_all (ds : list deed) (s : state) : option (list label * state) :=
  match ds with
  | [] => Some ([], s)
  | d :: ds' =>
      '(l, s1) ← perform d s;
      '(tr, s2) ← perform_all ds' s1;
      Some (option_list l ++ tr, s2)
  end.

Lemma call_label i c e l e' : drive_one (DoCall i c) e = Some (l, e') -> l = Some (Call i c).
Proof. destruct e as [sh T]. simpl. destruct (T !! i); [done|]. by intros [= <- <-]. Qed.

Lemma ret_label i r e l e' :
  Workers.threads e !! i = Some (Workers.Done r) -> drive_one (DoRet i) e = Some (l, e') -> l = Some (Ret i r).
Proof. destruct e as [sh T]. simpl. intros ->. by intros [= <- <-]. Qed.

Lemma hears_step i k s l s' :
  System.talks s !! i = Some k -> hears i k s = Some (l, s') -> System.step config socket Workers.room s l s'.
Proof.
  destruct s as [v e T D], k as [c said st]. unfold hears, put_talk.
  cbn [System.talks System.engine System.server System.ended System.at_stage System.stream System.said].
  intros Hk. destruct st as [r|k| |]; try done. destruct (System.hear k) as [| |k' command|k' r] eqn:Eh; try done.
  - destruct (drive_one (DoCall i (Exec command)) e) as [[l1 e']|] eqn:E; [|done]. intros [= <- <-].
    eapply System.s_call; [done|done|]. rewrite <- (call_label _ _ _ _ _ E). by eapply drive_one_step.
  - intros [= <- <-]. by eapply System.s_leave.
Qed.

Lemma replies_step i k s l s' :
  System.talks s !! i = Some k -> replies i k s = Some (l, s') -> System.step config socket Workers.room s l s'.
Proof.
  destruct s as [v e T D], k as [c said st]. unfold replies, put_talk.
  cbn [System.talks System.engine System.server System.ended System.at_stage System.stream System.said].
  intros Hk. destruct st as [r|k|k command|]; try done. destruct (Workers.threads e !! i) as [[]|] eqn:Et; try done.
  destruct (drive_one (DoRet i) e) as [[l1 e']|] eqn:E; [|done]. intros [= <- <-].
  eapply System.s_return; [done|]. rewrite <- (ret_label _ _ _ _ _ Et E). by eapply drive_one_step.
Qed.

Lemma perform_step d s l s' : perform d s = Some (l, s') -> System.step config socket Workers.room s l s'.
Proof.
  destruct s as [v e T D], d as [sl|i|i|now i|i|i]; unfold perform, put_talk;
    cbn [System.talks System.engine System.server System.ended]; intros H.
  - destruct (System.outside sl) eqn:Eo; [|done].
    destruct (Server.step (Config.max_connections config) sl v) as [v'|] eqn:Es; [|done].
    injection H as <- <-. by eapply System.s_server.
  - destruct (Server.workers v !! i) as [[]|] eqn:Ew; try done.
    destruct (Server.step (Config.max_connections config) (Server.LBegin i) v) as [v'|] eqn:Es; [|done].
    injection H as <- <-. by eapply System.s_begin.
  - destruct (T !! i) as [k|] eqn:E; [|done]. by apply (hears_step i k).
  - destruct (drive_one (DoAct now i) e) as [[[l1|] e']|] eqn:E; [done| |done].
    injection H as <- <-. eapply System.s_work. by eapply drive_one_step.
  - destruct (T !! i) as [k|] eqn:E; [|done]. by apply (replies_step i k).
  - destruct (T !! i) as [k|] eqn:E; [|done]. cbn in H.
    destruct (System.over k) as [[[]| | |]|] eqn:Eo; try done.
    destruct (Server.step (Config.max_connections config) (Server.LFinish i) v) as [v'|] eqn:Es.
    + simpl in Es. rewrite Es in H. injection H as <- <-. by eapply System.s_finish.
    + simpl in Es. by rewrite Es in H.
Qed.

Lemma perform_run ds : forall s tr s',
  perform_all ds s = Some (tr, s') -> run (System.step config socket Workers.room) s tr s'.
Proof.
  induction ds as [|d ds IH]; intros s tr s'; simpl; [intros [= <- <-]; constructor|].
  destruct (perform d s) as [[l s1]|] eqn:E; [|done]. simpl.
  destruct (perform_all ds s1) as [[tr' s2]|] eqn:E'; [|done]. intros [= <- <-].
  eapply run_trans; [apply run_one; by eapply perform_step|by apply IH].
Qed.
End Drive.

(** Two clients at once: one puts a value, the other reads its key. *)
Definition demo_socket (c : nat) : Instances.socket :=
  mkSocket (Codec.encode_command
    (match c with O => Command.Put key_k (bytes_of_string "v") | _ => Command.Get key_k end)) [].

Definition demo_deeds : list deed :=
  map Serve [Server.LLoop; Server.LAccept 0; Server.LSend; Server.LLoop; Server.LAccept 1; Server.LSend;
             Server.LRecv 0; Server.LRecv 1] ++
  [Begin 0; Begin 1; Hear 0; Hear 1; Work 7 0; Work 7 0; Work 0 1] ++ replicate 3 (Work 7 0) ++
  [Work 0 1; Reply 1; Reply 0; Hear 0; Hear 1; Finish 1; Finish 0].

Definition demo_history : list label :=
  [Call 0 (Exec (Command.Put key_k (bytes_of_string "v"))); Call 1 (Exec (Command.Get key_k));
   Ret 1 (Ok None); Ret 0 (Ok None)].

Abbreviation demo_service :=
  (perform_all (demo_config EveryWrite) demo_socket demo_deeds (System.start 2 demo.1 demo.2)).

Lemma demo_service_ends :
  (fun x => (x.1, length (System.ended x.2))) <$> demo_service = Some (demo_history, 2%nat).
Proof. vm_compute. reflexivity. Qed.

#[local] Instance socket_returns : WritesReturn Instances.socket.
Proof. by constructor. Qed.

Lemma system_refines_map_witness :
  exists s a, run (Atomic.step (~ quiet demo.2)) (Atomic.mk ∅ ∅) demo_history a /\
    length (System.ended s) = 2%nat /\
    Forall (fun x => System.as_the_code (demo_config EveryWrite) demo_socket x.2) (System.ended s) /\
    concat (map System.said (System.talks_of 1 s)) = [(Command.Get key_k, Ok None)].
Proof.
  pose proof demo_service_ends as E. destruct demo_service as [[tr s]|] eqn:Hd; [|discriminate E]. injection E as -> El.
  destruct (system_refines_map (demo_config EveryWrite) demo_socket 2 demo.1 demo.2 [] ∅ demo_history s demo_ok
    (perform_run _ _ _ _ _ _ Hd)) as ((a & _ & Ha & _) & _ & _ & Hc & Hx).
  exists s, a. split; [exact Ha|]. split; [exact El|]. split; [exact Hc|].
  rewrite <- (Hx 1%nat). vm_compute. reflexivity.
Defined.

Lemma system_never_panics_witness :
  exists s : System.t (R := Instances.socket) (W := Instances.socket),
    length (System.ended s) = 2%nat /\ Server.calm (System.server s) /\
    Server.active_connections (System.server s) = Z.of_nat (size (System.talks s)).
Proof.
  pose proof demo_service_ends as E. destruct demo_service as [[tr s]|] eqn:Hd; [|discriminate E]. injection E as -> El.
  destruct (system_never_panics (demo_config EveryWrite) demo_socket 2 demo.1 demo.2 [] ∅ demo_history s demo_ok
    (perform_run _ _ _ _ _ _ Hd)) as (H1 & _ & H3 & _).
  exists s. split; [exact El|]. split; [exact H1|exact H3].
Defined.

(** Shutdown while both conversations are under way. *)
Abbreviation demo_stopping :=
  (perform_all (demo_config EveryWrite) demo_socket (take 12 demo_deeds ++ [Serve Server.LShutdown])
    (System.start 2 demo.1 demo.2)).



(** Three lives: the server is killed after the two conversations above; in its
    second life a client overwrites the key, and the machine crashes while the put
    is in the log and not yet in the memtable; a third start fails while it writes
    the table for that put, and a crash leaves an empty file of it, which is removed. *)
Definition first_end : World :=
  match demo_service with
  | Some (_, s) => Workers.wld (Workers.sh (System.engine s))
  | None => demo.2
  end.

Definition second_start : Engine.t * World := started (demo_config EveryWrite) first_end.

Definition second_socket (c : nat) : Instances.socket :=
  mkSocket (Codec.encode_command (Command.Put key_k (bytes_of_string "new"))) [].

Definition second_deeds : list deed :=
  map Serve [Server.LLoop; Server.LAccept 0; Server.LSend; Server.LRecv 0] ++
  [Begin 0; Hear 0; Work 9 0; Work 9 0].

Abbreviation second_service :=
  (perform_all (demo_config EveryWrite) second_socket second_deeds (System.start 1 second_start.1 second_start.2)).

Definition second_end : World :=
  match second_service with
  | Some (_, s) => crash_min (Workers.wld (Workers.sh (System.engine s)))
  | None => demo.2
  end.

Definition second_history : list label := [Call 0 (Exec (Command.Put key_k (bytes_of_string "new")))].

Lemma second_ends :
  (fun x => (x.1, Workers.threads (System.engine x.2) !! 0%nat)) <$> second_service =
  Some (second_history, Some (Workers.Apply (Operation.Put key_k (bytes_of_string "new")))).
Proof. vm_compute. reflexivity. Qed.

Lemma first_life : life (S := Instances.socket) (demo_config EveryWrite) (mkWorld ∅ []) demo_history first_end.
Proof.
  pose proof demo_service_ends as E. unfold first_end.
  destruct demo_service as [[tr s]|] eqn:Hd; [|discriminate E]. injection E as -> _.
  apply (lived (demo_config EveryWrite) _ _ _ demo_socket 2 demo.1 demo.2 s demo_open (perform_run _ _ _ _ _ _ Hd)).
  - apply h_between. by right.
  - assert (s = (default (demo_history, s) demo_service).2) as -> by by rewrite Hd. clear Hd. vm_compute. reflexivity.
  - assert (s = (default (demo_history, s) demo_service).2) as -> by by rewrite Hd. clear Hd. vm_compute. constructor.
Qed.

Lemma second_life : life (S := Instances.socket) (demo_config EveryWrite) first_end second_history second_end.
Proof.
  pose proof second_ends as E. unfold second_end.
  destruct second_service as [[tr s]|] eqn:Hd; [|discriminate E]. injection E as -> _.
  apply (lived (demo_config EveryWrite) _ _ _ second_socket 1 second_start.1 second_start.2 s);
    [vm_compute; reflexivity|exact (perform_run _ _ _ _ _ _ Hd)| | |vm_compute; constructor].
  - apply h_between. left. apply crash_min_crash.
  - assert (s = (default (second_history, s) second_service).2) as -> by by rewrite Hd. clear Hd. vm_compute. reflexivity.
Qed.

Definition third_start : outcome Engine.t * World :=
  Engine.open (demo_config EveryWrite)
    (mkWorld (files second_end) (replicate 17 None ++ [Some (mkFault OtherKind 5)])).

Definition third_end : World := tidy second_end (crash_min third_start.2).

Lemma third_life : life (S := Instances.socket) (demo_config EveryWrite) second_end [] third_end.
Proof.
  assert (E : match third_start.1 with Err er => True | _ => False end) by (vm_compute; exact I).
  destruct third_start as [[e|er| |] w1] eqn:Ht; [destruct E| |destruct E..].
  apply (unborn _ _ _ _ (replicate 17 None ++ [Some (mkFault OtherKind 5)]) er w1 (crash_min w1));
    [reflexivity|exact Ht|left; apply crash_min_crash|unfold third_end; by rewrite Ht|].
  vm_compute. constructor.
Qed.

Lemma system_survives_witness :
  exists kv, histories ∅ [demo_history; second_history; []] kv /\ kv !! key_k = Some (bytes_of_string "new").
Proof.
  destruct (system_survives (S := Instances.socket) (demo_config EveryWrite) (mkWorld ∅ [])
    [demo_history; second_history; []] third_end eq_refl eq_refl) as (kv & Hh & e & w1 & Ho & Hk).
  - constructor.
  - apply (lives_snoc _ _ [demo_history; second_history] second_end); [|exact third_life].
    apply (lives_snoc _ _ [demo_history] first_end); [|exact second_life].
    apply (lives_snoc _ _ [] (mkWorld ∅ [])); [constructor|exact first_life].
  - exists kv. split; [exact Hh|]. destruct (Hk key_k) as [s' E].
    assert (Eg : ('(e, w) ← match Engine.open (demo_config EveryWrite) third_end with
        (Ok e, w) => Some (e, w) | _ => None end; Some (Engine.get key_k (e, w)).1) =
      Some (Ok (Some (bytes_of_string "new")))) by (vm_compute; reflexivity).
    rewrite Ho in Eg. simpl in Eg. rewrite E in Eg. injection Eg as Eg. exact Eg.
Defined.
