(* ===== verification/Findings.v ===== *)
(** Histories in which the program does not do what it means to, evaluated on the
    model: they mark where the promises of the other files end. *)

From Stdlib Require Import ZArith Lia String.
From stdpp Require Import base gmap list strings.
From S2P Require Import Prelude Errors Memtable Protocol World Config Wal WalFacts Storage Engine.
From S2P Require Import Recovery Durability Crash Instances EngineSpec.
Open Scope string_scope.
Open Scope list_scope.
Open Scope Z_scope.

(** ** Writes that a stop undoes *)

(** Under [EveryNEntries(2)]: two writes, synced together, and a flush; a third
    write, and another flush. *)
Definition resurrect : ST (Engine.t * World) unit :=
  _ ← Engine.put 1 (bytes_of_string "a") [];
  _ ← Engine.put 2 key_k (bytes_of_string "old");
  _ ← Engine.flush;
  _ ← Engine.put 3 key_k (bytes_of_string "new");
  Engine.flush.

(** A memtable that does not fill up, and a disk on which the write of the first
    large entry stops after 100 bytes. *)
Definition large_config : Config.t :=
  ConfigBuilder.build (ConfigBuilder.set_wal_sync_strategy EveryWrite
    (ConfigBuilder.set_data_dir "db" ConfigBuilder.builder)).
Definition full_disk : World := mkWorld ∅ (replicate 5 None ++ [Some (mkFault OtherKind 100)]).

(** The process is killed: the files stay, nothing more is written. *)
Definition killed (w : World) : World := mkWorld (files w) [].

(** A put that reaches the log file and not the disk: its second system call, the
    sync, does not come back. *)
Definition unsynced_put (s : Engine.t * World) : outcome unit * (Engine.t * World) :=
  Engine.put 2 key_k (bytes_of_string "new") (s.1, mkWorld (files s.2) [None; Some (mkFault OtherKind 0)]).

(** A start during which the status of one path cannot be read. *)
Definition blind (p : path) : Status := fun q => bool_decide (q = p).
Definition started_blind (p : path) (c : Config.t) (w : World) : Engine.t * World :=
  match Engine.open (HSt := blind p) c w with
  | (Ok e, w') => (e, w')
  | (_, w') => (demo.1, w')
  end.

(** Four histories that a stop undoes.  [truncate] does not
    sync the emptied log: under [EveryNEntries] a crash can bring back a log from
    before it, and the reopened engine replays it over a newer value that is in a
    synced table.  Under [EveryWrite], when the write of a large entry to the log
    fails half way, the engine goes on after the torn entry: it acknowledges and syncs
    the next put, which recovery never reaches.  And, also under [EveryWrite], a put
    that was cut off by a kill before its sync is recovered by the next engine and
    read by clients; that engine empties the log without a sync too, and after a crash
    the old log is replayed over the table: what was read is taken back.  Last,
    [exists()] and [is_file()] take a status that cannot be read for [false]: a start
    that cannot read that of the log empties it, and one that cannot read that of a
    table leaves it out and gives its name to the next table; acknowledged writes are
    gone in both cases. *)
Theorem writes_undone :
  (let c := demo_config (EveryNEntries 2) in
   let r := resurrect (started c (mkWorld ∅ [])) in
   r.1 = Ok tt /\
   (Engine.get key_k r.2).1 = Ok (Some (bytes_of_string "new")) /\
   crash r.2.2 (crash_min r.2.2) /\
   (Engine.get key_k (started c (crash_min r.2.2))).1 = Ok (Some (bytes_of_string "old"))) /\
  (let s0 := started large_config full_disk in
   let r1 := Engine.put 1 key_k (replicate (Z.to_nat 8200) Byte.x61) s0 in
   let r2 := Engine.put 2 (bytes_of_string "a") (bytes_of_string "1") r1.2 in
   r1.1 = Err (Io OtherKind) /\ r2.1 = Ok tt /\
   (Engine.get (bytes_of_string "a") r2.2).1 = Ok (Some (bytes_of_string "1")) /\
   is_ok (Engine.open large_config (crash_min r2.2.2)).1 = true /\
   (Engine.get (bytes_of_string "a") (started large_config (crash_min r2.2.2))).1 = Ok None) /\
  (let c := demo_config EveryWrite in
   let r1 := Engine.put 1 key_k (bytes_of_string "old") (started c (mkWorld ∅ [])) in
   let s2 := started c (killed (unsynced_put r1.2).2.2) in
   let r2 := Engine.get key_k s2 in
   r1.1 = Ok tt /\ r2.1 = Ok (Some (bytes_of_string "new")) /\
   crash r2.2.2 (crash_min r2.2.2) /\
   (Engine.get key_k (started c (crash_min r2.2.2))).1 = Ok (Some (bytes_of_string "old"))) /\
  (let c := large_config in
   let r1 := Engine.put 1 key_k (bytes_of_string "v") (started c (mkWorld ∅ [])) in
   let r2 := Engine.flush r1.2 in
   let s3 := started_blind ("db", "wal.log") c (killed r1.2.2) in
   let s4 := started_blind ("db/sstables", "sstable_000001.sst") c (killed r2.2.2) in
   let r4 := (_ ← Engine.put 2 (bytes_of_string "a") []; Engine.flush) s4 in
   r1.1 = Ok tt /\ r2.1 = Ok tt /\ r4.1 = Ok tt /\
   (Engine.get key_k (started c (killed r1.2.2))).1 = Ok (Some (bytes_of_string "v")) /\
   (Engine.get key_k (started c (killed s3.2))).1 = Ok None /\
   (Engine.get key_k (started c (killed r2.2.2))).1 = Ok (Some (bytes_of_string "v")) /\
   (Engine.get key_k (started c (killed r4.2.2))).1 = Ok None).
Proof. split; [|split; [|split]]; split_and!; try apply crash_min_crash; vm_compute; reflexivity. Qed.

(** ** Directories that do not open any more *)

(** An empty directory where the system call after the first [n] fails.  In the
    history below the twelfth is the one that syncs the table. *)
Definition no_sync (n : nat) : World := mkWorld ∅ (replicate n None ++ [Some (mkFault OtherKind 0)]).

(** Two directories the engine refuses.  A table file that was
    created and not synced when the machine stopped is found again by its name, and
    opening it fails, although the write it holds is intact in the log.  And a file
    whose name only looks like a table's is taken for one. *)
Theorem files_block_open :
  (let c := demo_config EveryWrite in
   let s := started c (no_sync 11) in
   let r := (_ ← Engine.put 1 key_k (bytes_of_string "v"); Engine.flush) s in
   (Engine.put 1 key_k (bytes_of_string "v") s).1 = Ok tt /\
   r.1 = Err (Io OtherKind) /\
   (scan (log_content c (crash_min r.2.2))).1 =
     [WalEntry.mk 1 (Operation.Put key_k (bytes_of_string "v")) 1] /\
   (Engine.open c (crash_min r.2.2)).1 = Err (Io UnexpectedEof)) /\
  (let w := mkWorld {[ ("db/sstables", "sstable_5.txt") := NFile (mkFile [] []) ]} [] in
   (Engine.open large_config w).1 = Err (Io NotFoundKind)).
Proof. split; [split_and!|]; vm_compute; reflexivity. Qed.

(** ** An iterator that does not end *)

Definition bad_log : bytes := wal_bytes [WalEntry.mk 1 (put_k "v") 1] ++ replicate 20 Byte.x00.
Definition bad_world : World := mkWorld {[ ("db", "wal.log") := NFile (mkFile bad_log bad_log) ]} [].
Definition at_start : WalReader.t * World :=
  match WalReader.open ("db", "wal.log") bad_world with
  | (Ok r, w) => (r, w)
  | (_, w) => (WalReader.mk (File.mk ("", "") 0 false) 0 0, w)
  end.

(** After a corrupt entry the iterator yields an error on every call, and never
    [None]: its position stays before the entry and its cursor behind it. *)
Theorem iterator_keeps_failing :
  let s1 := (WalIterator.next at_start).2 in
  let s2 := (WalIterator.next s1).2 in
  let s3 := (WalIterator.next s2).2 in
  (WalIterator.next at_start).1 = Some (Ok (WalEntry.mk 1 (put_k "v") 1)) /\
  (exists m, (WalIterator.next s1).1 = Some (Err (WalCorruption m))) /\
  WalIterator.next s3 = (Some (Err (Io UnexpectedEof)), s3).
Proof. vm_compute. eauto. Qed.
